(* ===== verification/_CoqProject ===== *)
-Q . S2P
Prelude.v
Interner.v
Types.v
Class.v
IR.v
Arenas.v
Walk.v
WalkTheory.v
MapTheory.v
Assign.v
AssignTheory.v
Typecheck.v
TypecheckTheory.v
Block.v
BlockTheory.v
Effects.v
Method.v
MethodTheory.v
DeadBlocks.v
Regions.v
Opt.v
OptSem.v
OptTheory.v
OptRoots.v
Passes.v
Forward.v
Linear.v
Heaps.v
Tables.v
TablesRead.v
Signature.v
TablesOps.v
TablesGrow.v
TablesWf.v
TablesTheory.v
TablesRuns.v
SigTheory.v
ClassTheory.v
Layout.v
Cil.v
CilSem.v
Body.v
BodySpec.v
TablesSink.v
TablesSinkTheory.v
BodyTables.v
BodyTheory.v
BodyEmit.v
CilEval.v
BodyEval.v
BodyLabels.v
BodyClauses.v
BodyDepth.v
BodyStack.v
BodyRoots.v
BodyLayout.v
BodyMaxstack.v
BodyHeader.v
BodySample.v
TablesBuilt.v
Relocate.v
RelocTheory.v
LinkTheory.v
