(* ===== verification/Prelude.v ===== *)
(** * A verification library for cilly, the CIL compiler core of rustc_codegen_clr

    The program compiles Rust to .NET.  A rustc backend translates MIR to a CIL intermediate
    representation kept by the crate [cilly]; [cilly] interns it, checks it, optimizes it, and writes
    it out as .NET metadata and method bodies.  This library models the part of [cilly] that every
    compiled program goes through, [src/cilly/src/ir/], translated from its Rust definitions, and
    proves that part correct.

    ** How the parts fit together

    - An [Assembly] (asm.rs) owns arenas of interned strings, types, signatures, class, field and
      method references, nodes (expressions, cilnode.rs) and roots (statements, cilroot.rs).  Nodes
      and roots refer to their children by id, so every pass threads the assembly it interns into.
      Each arena is a [BiMap] (bimap.rs).
    - A method body (method.rs) is a list of basic blocks of root ids (basic_block.rs), with its
      cleanup blocks and exception regions; the exporters ask for the regions to be materialized as
      handlers of the blocks they protect.
    - Classes (class.rs) are metadata described piecewise: several entry points of a compilation add
      members to one definition, and definitions of one class that come from several objects merge.
    - The linker (asm_link.rs) relocates the values of each object into one destination assembly: ids
      are memoized by source id and the rebuilt values interned again.
    - The type checker (typecheck.rs) types expression trees using assignability of types
      (tpe/mod.rs).
    - The optimizer (opt/) rewrites trees with peephole rules driven by [CILNode::map], forwards
      stores, removes dead writes, dead blocks and useless handlers, and linearizes jumps.  It asks
      effect summaries (opt/side_effect.rs) what may be dropped, and a budget (opt/opt_fuel.rs) when
      to stop.
    - The metadata writer (pe_exporter/) interns names, blobs and user strings in the heaps of
      ECMA-335, adds rows to metadata tables, encodes types as signature blobs, and assembles method
      bodies: instructions, branch offsets, exception clauses and the header.  The [MetadataBuilder]
      resolves the classes that signatures mention and gives the tokens that instructions hold.

    ** Files

    Conventions, for all of them:
    - [Prelude]: outcomes of Rust code ([Ok], [Err], [Panic], [NoFuel]), the state monad [ST] for
      [&mut] parameters, machine integers with their wrap-around, floats by their bits, and the list,
      option and tactic library.  A [Result] error, a panic and running out of fuel are three
      different outcomes.

    The data:
    - [Interner]: bimap.rs.  [intern_full], [from_values], [truncate] and the other operations over a
      hash table that is an interface ([HashTable]), and the index-free [arena_intern].
    - [Types]: tpe/, cst.rs, hashable.rs, fnsig.rs, field.rs, and the references of class.rs and
      method.rs.
    - [Class], [ClassTheory], [Layout]: class.rs: class definitions and the metadata they carry, the
      operations that describe them, merging, and the check of overlapping storage.
    - [IR]: cilnode.rs, cilroot.rs, asm.rs: nodes, roots, the arenas and their interning.
    - [Arenas]: how arenas grow ([extends]); assemblies whose ids point backwards.
    - [Walk], [WalkTheory], [MapTheory]: iter.rs and the [map] functions of nodes and roots.

    Checking:
    - [Assign], [AssignTheory]: managed references, mangling and [is_assignable_to] (tpe/mod.rs).
    - [Typecheck], [TypecheckTheory]: every arm of the type checker.

    Control flow:
    - [Block], [BlockTheory]: basic_block.rs.
    - [Method], [MethodTheory], [DeadBlocks], [Regions]: method.rs; runs of a method, exceptional ones
      included, are defined in [DeadBlocks].

    Linking:
    - [Relocate]: asm_link.rs ([RelocateCtx], [translate_node] and the rest) and the [RelocateValue]
      instances of class.rs, method.rs, basic_block.rs, fnsig.rs and field.rs.  The traversals are
      written over a monad: with the memo tables as state they are the code, with the final tables as
      a partial function they are the specification.
    - [RelocTheory], [LinkTheory]: the relation between the two, injectivity, termination, and the
      control flow of copied bodies.

    Optimization:
    - [Effects]: opt/side_effect.rs and opt/opt_fuel.rs.
    - [Opt], [OptSem], [OptTheory], [OptRoots]: opt/opt_node.rs and opt/root.rs; [OptSem] is the
      meaning of expressions that the rewrites keep.
    - [Passes], [Forward], [Linear]: opt/mod.rs.

    Writing:
    - [Heaps]: pe_exporter/heaps.rs and the tokens of pe_exporter/tables.rs.
    - [Tables]: pe_exporter/tables.rs: the rows, coded indices, column widths, the table stream and the
      metadata root.  [TablesRead]: the schema of ECMA-335 and a reader of both.
    - [TablesOps]: the operations of [MetadataBuilder] that add rows.  [TablesSink]: its answers to
      references, as the resolver of signatures and the token sink of bodies, and custom attributes.
    - [TablesGrow]: what operations keep of a builder ([grows]).  [TablesWf]: well-formed builders
      ([wf]), and a logic of operations over all outcomes ([yields]).  [TablesTheory]: every operation
      keeps builders well-formed ([Op], [run_op]).  [TablesRuns]: the runs of events and properties.
      [TablesSinkTheory]: the builder meets the laws of a resolver and of a sink.  [TablesBuilt]: the
      builders that the exporter reaches ([populated]), up to the bytes of the metadata and of bodies.
    - [Signature], [SigTheory]: pe_exporter/sig.rs, with a decoder of signatures as a reader has it.
    - [Body]: pe_exporter/body.rs, over the trait [TokenSink] of tables.rs as a class; [main_module]
      and [class_def] of asm.rs are in [Layout].
    - [Cil], [CilSem]: the instructions of ECMA-335 as a reader has them: decoding, stack depths, and
      what loads, conversions and arithmetic do to cells of the evaluation stack.
    - [BodySpec]: what nodes, roots and blocks stand for as instructions with labels, and the laws of
      a sink ([TokenSinkLaws]): a query only grows the tables, and in every later state of the tables
      that is [sound] its token is the one of the query.  [BodyTables] is a small sink that has them,
      the metadata builder ([TablesSinkTheory.builder_sink_laws]) the one of the exporter, for which
      [sound] asks for well-formed tables of fewer than 2^24 rows each.
    - [BodyTheory], [BodyEmit], [BodyRoots]: the emitter writes what [BodySpec] says.
      [BodyLabels], [BodyClauses], [BodyLayout]: labels, patching, clause nesting.
      [BodyDepth], [BodyStack], [BodyMaxstack]: stack depths.  [BodyHeader]: the header and the
      exception section, with a reader of them.  [CilEval], [BodyEval]: the values emitted expressions
      compute.  [BodySample]: one body, assembled.

    ** What the theorems show

    - Refinement.  A tree that the peephole optimizer rewrote has every value the original had
      ([OptTheory.opt_tree_refines], [opt_node_refines]) and a root does what it did
      ([OptRoots.root_opt_keeps_effect]), through a general theorem about [CILNode::map]
      ([MapTheory.node_map_refines]).  Forward substitution keeps straight runs
      ([Forward.local_opt_keeps_runs]), dead-block removal and linearization keep runs of whole
      methods ([DeadBlocks.remove_dead_blocks_keeps_runs], [Linear.linearize_keeps_runs]).  The
      hash-indexed interner refines the arena ([Interner.intern_full_refines_arena]), against which
      everything else is proved.
    - Reference definitions.  Reachability, handler garbage collection and the materialization of
      handlers compute what their inductive specifications say; constant branches are folded as the
      emitted instruction decides.
    - Safety.  Verified exception regions materialize without a panic; assignable types have the same
      representation; value signatures never hold the element type [void].
    - Invariants.  Type checking only interns, and verdicts survive later interning.
    - Round trips.  Compressed integers, heap items and signature blobs are read back.
    - Populating the tables.  Every builder that the exporter's operations reach is well-formed
      ([TablesBuilt.populated_tables_well_formed]), its metadata is read back as tables whose columns
      name what is there ([TablesBuilt.populated_metadata_reads_back]), and the tokens of a body
      assembled over it name rows of the finished tables ([TablesBuilt.body_of_module_reads_back]).
      Events and properties stay with their class ([TablesRuns.members_join_their_class],
      [TablesRuns.closed_run_rejected]).
    - Metadata tables.  The metadata root reads back, with column widths computed from the stream alone
      ([TablesRead.metadata_reads_back]), and its tables are sorted where they must be
      ([TablesRead.sorted_tables_sorted]).
    - Method bodies.  An assembled body reads back as the code of its blocks with every branch resolved
      and its clauses nested ([BodyHeader.assembled_body_reads_back]); the emitted code keeps within [.maxstack]
      ([BodyMaxstack.maxstack_suffices]); the code of an expression pushes the value the expression
      denotes, in the semantics the optimizer is proved against ([BodyEval.emitted_expression_computes]).
    - Linking.  Relocating a value succeeds on a well-founded source, visits each id once and builds
      the image of the value under the tables ([LinkTheory.linking_succeeds],
      [LinkTheory.linking_copies_values]); distinct source values stay distinct when nothing is renamed
      ([LinkTheory.linking_is_injective]); a linked body has the same reachable blocks and the same
      verdict of the region verifier ([LinkTheory.linked_body_keeps_control_flow]).
    - Classes.  Descriptions built by the operations of the class stay consistent; shards merge exactly
      when they are pairwise compatible, and to the same class in every order; the layout check accepts
      what it is meant to accept.
    - Termination, for every recursion the kernel does not see to be structural.

    ** Fuel

    Functions that follow ids take fuel and answer [NoFuel] when it runs out.  Ids of a well-founded
    assembly point backwards, so the size of an arena bounds the depth of any walk
    ([MapTheory.node_map_terminates], [AssignTheory.is_assignable_terminates],
    [SigTheory.encode_type_terminates]); worklists are bounded by the jumps of the body
    ([DeadBlocks.remove_dead_blocks_terminates], [BlockTheory.block_gc_reachable]); the walk of
    linearization by the cap of two thousand roots that the source has
    ([Linear.linearize_blocks_terminates]); relocation by the ranks of the source's values
    ([LinkTheory.linking_succeeds]).  The fuel of the optimizer's model is apart from the
    budget [OptFuel], which is the source's own.

    ** Not modelled

    - The preflight and the commit of linking around the relocation (asm_link.rs), and counted loops,
      hoisting and scalar replacement (opt/): later work.
    - Serialization glue, error printing, the text exporter, PDB and the PE container: formats and output
      rather than algorithms.
    - The builtins of the runtime library (builtins/): fixed method bodies.
    - The rustc backend outside [cilly], whose input types belong to the compiler; procedural macros,
      .NET bindings and the command-line tools. *)

From Stdlib Require Export ZArith Lia.
From stdpp Require Export base list list_numbers strings gmap pretty numbers.

#[global] Open Scope Z_scope.

(** ** Outcomes of Rust code *)

(** The result of running a translated Rust function.  [Err] is a value of the function's own
    [Result] error type, [Panic] stands for a Rust panic ([unwrap] on [None], [assert!], [todo!],
    an out-of-range index), and [NoFuel] says that the model's recursion bound was too small: no
    Rust execution corresponds to it, and the termination theorems exclude it. *)
Inductive outcome (E A : Type) : Type :=
| Ok (a : A)
| Err (e : E)
| Panic
| NoFuel.
Arguments Ok {E A} a.
Arguments Err {E A} e.
Arguments Panic {E A}.
Arguments NoFuel {E A}.

#[global] Instance outcome_ret E : MRet (outcome E) := fun A a => Ok a.
#[global] Instance outcome_bind E : MBind (outcome E) := fun A B f m =>
  match m with
  | Ok a => f a
  | Err e => Err e
  | Panic => Panic
  | NoFuel => NoFuel
  end.

(** [Option::unwrap] and an index that must be in range. *)
Definition unwrap {E A} (o : option A) : outcome E A :=
  match o with Some a => Ok a | None => Panic end.

(** A computation threading a Rust [&mut S]; the state survives an error, as it does in Rust. *)
Definition ST (S E A : Type) : Type := S -> S * outcome E A.

#[global] Instance ST_ret S E : MRet (ST S E) := fun A a s => (s, Ok a).
#[global] Instance ST_bind S E : MBind (ST S E) := fun A B f m s =>
  match m s with
  | (s', Ok a) => f a s'
  | (s', Err e) => (s', Err e)
  | (s', Panic) => (s', Panic)
  | (s', NoFuel) => (s', NoFuel)
  end.

Definition ask {S E} : ST S E S := fun s => (s, Ok s).
Definition lift {S E A} (m : outcome E A) : ST S E A := fun s => (s, m).
Definition throw {S E A} (e : E) : ST S E A := fun s => (s, Err e).
Definition panic {S E A} : ST S E A := fun s => (s, Panic).
Definition no_fuel {S E A} : ST S E A := fun s => (s, NoFuel).
Definition modify {S E} (f : S -> S) : ST S E unit := fun s => (f s, Ok tt).
Definition reads {S E A} (f : S -> outcome E A) : ST S E A := fun s => (s, f s).

(** A loop over a list, as a Rust [for]. *)
Fixpoint for_each {S E A} (f : A -> ST S E unit) (l : list A) : ST S E unit :=
  match l with
  | [] => mret tt
  | x :: l' => _ ← f x; for_each f l'
  end.

Fixpoint map_st {S E A B} (f : A -> ST S E B) (l : list A) : ST S E (list B) :=
  match l with
  | [] => mret []
  | x :: l' => y ← f x; ys ← map_st f l'; mret (y :: ys)
  end.

(** [Iterator::all] and [any] whose test may panic, both short-circuiting. *)
Fixpoint all_outcome {E A} (f : A -> outcome E bool) (l : list A) : outcome E bool :=
  match l with
  | [] => Ok true
  | x :: l' => b ← f x; if (b : bool) then all_outcome f l' else Ok false
  end.

Fixpoint any_outcome {E A} (f : A -> outcome E bool) (l : list A) : outcome E bool :=
  match l with
  | [] => Ok false
  | x :: l' => b ← f x; if (b : bool) then Ok true else any_outcome f l'
  end.

Fixpoint map_outcome {E A B} (f : A -> outcome E B) (l : list A) : outcome E (list B) :=
  match l with
  | [] => Ok []
  | x :: l' => y ← f x; ys ← map_outcome f l'; Ok (y :: ys)
  end.

Section outcome_facts.
Context {E : Type}.

Lemma map_outcome_total {A B} (f : A -> outcome E B) l :
  Forall (fun x => exists y, f x = Ok y) l -> exists ys, map_outcome f l = Ok ys.
Proof.
  induction 1 as [|x l [y Hy] _ [ys IH]]; cbn; [eauto|].
  rewrite Hy. cbn. rewrite IH. cbn. eauto.
Qed.

Lemma bind_ok {A B} (m : outcome E A) (f : A -> outcome E B) b :
  m ≫= f = Ok b <-> exists a, m = Ok a /\ f a = Ok b.
Proof.
  destruct m; cbn; (split; [eauto|]); try (intros ?; done).
  all: by intros (? & [= <-] & ?).
Qed.

Lemma st_bind_ok {S A B} (m : ST S E A) (f : A -> ST S E B) s s' b :
  (m ≫= f) s = (s', Ok b) <-> exists s1 a, m s = (s1, Ok a) /\ f a s1 = (s', Ok b).
Proof.
  unfold mbind, ST_bind. destruct (m s) as [s1 []]; (split; [eauto|]); try (intros [=]).
  all: by intros (? & ? & [= <- <-] & ?).
Qed.

(** Sequences regrouped, state by state. *)
Lemma st_bind_assoc {S A B C} (m : ST S E A) (f : A -> ST S E B) (g : B -> ST S E C) s :
  ((m ≫= f) ≫= g) s = (m ≫= fun a => f a ≫= g) s.
Proof. unfold mbind, ST_bind. by destruct (m s) as [s1 []]. Qed.

Lemma st_bind_ext {S A B} (m : ST S E A) (f g : A -> ST S E B) s :
  (forall a s, f a s = g a s) -> (m ≫= f) s = (m ≫= g) s.
Proof. intros Hfg. unfold mbind, ST_bind. destruct (m s) as [s1 []]; [apply Hfg|done..]. Qed.

Lemma map_outcome_Forall2 {A B} (f : A -> outcome E B) l ys :
  map_outcome f l = Ok ys <-> Forall2 (fun x y => f x = Ok y) l ys.
Proof.
  revert ys. induction l as [|x l IH]; intros ys; cbn.
  - split; [intros [= <-]; constructor|by intros ->%Forall2_nil_inv_l].
  - rewrite bind_ok. setoid_rewrite bind_ok. setoid_rewrite IH. split.
    + intros (y & ? & zs & ? & [= <-]). by constructor.
    + intros (y & zs & ? & ? & ->)%Forall2_cons_inv_l. eauto 8.
Qed.
End outcome_facts.

(** The result is never the model's own fuel exhaustion. *)
Definition fuelled {E A} (m : outcome E A) : Prop := m <> NoFuel.

Create HintDb outcome.

Lemma fuelled_bind {E A B} (m : outcome E A) (f : A -> outcome E B) :
  fuelled m -> (forall a, m = Ok a -> fuelled (f a)) -> fuelled (m ≫= f).
Proof. destruct m; cbn; unfold fuelled; intros; try done; eauto. Qed.

Lemma fuelled_unwrap {E A} (o : option A) : fuelled (@unwrap E A o).
Proof. by destruct o. Qed.

Lemma fuelled_ok {E A} (a : A) : fuelled (@Ok E A a).
Proof. done. Qed.

Lemma fuelled_err {E A} (e : E) : fuelled (@Err E A e).
Proof. done. Qed.

Lemma fuelled_panic {E A} : fuelled (@Panic E A).
Proof. done. Qed.

Lemma fuelled_all {E A} (f : A -> outcome E bool) l :
  (forall x, x ∈ l -> fuelled (f x)) -> fuelled (all_outcome f l).
Proof.
  induction l as [|x l IH]; intros H; cbn; [done|].
  apply fuelled_bind; [apply H; set_solver|].
  intros [] _; [apply IH; set_solver|done].
Qed.

Lemma fuelled_any {E A} (f : A -> outcome E bool) l :
  (forall x, x ∈ l -> fuelled (f x)) -> fuelled (any_outcome f l).
Proof.
  induction l as [|x l IH]; intros H; cbn; [done|].
  apply fuelled_bind; [apply H; set_solver|].
  intros [] _; [done|apply IH; set_solver].
Qed.

Lemma fuelled_map {E A B} (f : A -> outcome E B) l :
  (forall x, x ∈ l -> fuelled (f x)) -> fuelled (map_outcome f l).
Proof.
  induction l as [|x l IH]; intros H; cbn; [done|].
  apply fuelled_bind; [apply H; set_solver|].
  intros y _. apply fuelled_bind; [apply IH; set_solver|done].
Qed.

#[export] Hint Resolve fuelled_bind fuelled_unwrap fuelled_ok fuelled_err fuelled_panic
  fuelled_all fuelled_any fuelled_map : outcome.

(** [m] never runs out of the model's fuel, from any state. *)
Definition st_fuelled {S E A} (m : ST S E A) : Prop := forall s, fuelled (snd (m s)).

(** A step that may use what the step before it returned. *)
Lemma fuelled_st_step {S E A B} (m : ST S E A) (f : A -> ST S E B) s :
  fuelled (snd (m s)) -> (forall s' a, m s = (s', Ok a) -> fuelled (snd (f a s'))) ->
  fuelled (snd ((m ≫= f) s)).
Proof. unfold mbind, ST_bind. destruct (m s) as [s' []]; cbn; intros; try done; eauto. Qed.

Section st_fuelled.
Context {S E : Type}.

Lemma st_fuelled_ret {A} (a : A) : st_fuelled (mret a : ST S E A).
Proof. done. Qed.
Lemma st_fuelled_panic {A} : st_fuelled (panic : ST S E A).
Proof. done. Qed.
Lemma st_fuelled_bind {A B} (m : ST S E A) (f : A -> ST S E B) :
  st_fuelled m -> (forall a, st_fuelled (f a)) -> st_fuelled (m ≫= f).
Proof. intros Hm Hf s. apply fuelled_st_step; [apply Hm|]. intros. apply Hf. Qed.
Lemma st_fuelled_reads {A} (f : S -> outcome E A) :
  (forall s, fuelled (f s)) -> st_fuelled (reads f).
Proof. intros H s. apply H. Qed.
Lemma st_fuelled_lift {A} (m : outcome E A) : fuelled m -> st_fuelled (lift m : ST S E A).
Proof. by intros H s. Qed.
Lemma st_fuelled_map {A B} (f : A -> ST S E B) l :
  Forall (fun x => st_fuelled (f x)) l -> st_fuelled (map_st f l).
Proof.
  induction 1 as [|x l Hx _ IH]; cbn [map_st]; [apply st_fuelled_ret|].
  apply st_fuelled_bind; [done|]. intros y. apply st_fuelled_bind; [done|]. intros. apply st_fuelled_ret.
Qed.
End st_fuelled.

Create HintDb st_fuelled.
#[export] Hint Resolve st_fuelled_ret st_fuelled_panic st_fuelled_bind st_fuelled_reads
  st_fuelled_lift : st_fuelled.

(** ** State relations kept by a computation *)

(** [m] only moves the state along [R], whatever its outcome. *)
Definition steps {S E A} (R : S -> S -> Prop) (m : ST S E A) : Prop :=
  forall s, R s (fst (m s)).

Section steps.
Context {S E : Type} (R : S -> S -> Prop) `{!PreOrder R}.

Lemma steps_ret {A} (a : A) : steps R (mret a : ST S E A).
Proof. intros s; cbn; reflexivity. Qed.

Lemma steps_bind {A B} (m : ST S E A) (f : A -> ST S E B) :
  steps R m -> (forall a, steps R (f a)) -> steps R (m ≫= f).
Proof.
  intros Hm Hf s. unfold mbind, ST_bind.
  specialize (Hm s). destruct (m s) as [s' []]; cbn in *; try done.
  etrans; [exact Hm|apply Hf].
Qed.

Lemma steps_ask : steps R (ask : ST S E S).
Proof. intros s; cbn; reflexivity. Qed.

Lemma steps_lift {A} (m : outcome E A) : steps R (lift m).
Proof. intros s; cbn; reflexivity. Qed.

Lemma steps_throw {A} (e : E) : steps R (throw e : ST S E A).
Proof. intros s; cbn; reflexivity. Qed.

Lemma steps_panic {A} : steps R (panic : ST S E A).
Proof. intros s; cbn; reflexivity. Qed.

Lemma steps_no_fuel {A} : steps R (no_fuel : ST S E A).
Proof. intros s; cbn; reflexivity. Qed.

Lemma steps_reads {A} (f : S -> outcome E A) : steps R (reads f).
Proof. intros s; cbn; reflexivity. Qed.

Lemma steps_for_each {A} (f : A -> ST S E unit) l :
  (forall x, steps R (f x)) -> steps R (for_each f l).
Proof.
  intros Hf. induction l as [|x l IH]; cbn; [apply steps_ret|].
  by apply steps_bind.
Qed.

Lemma steps_map_st {A B} (f : A -> ST S E B) l :
  (forall x, steps R (f x)) -> steps R (map_st f l).
Proof.
  intros Hf. induction l as [|x l IH]; cbn; [apply steps_ret|].
  apply steps_bind; [done|]. intros y.
  apply steps_bind; [done|]. intros ys. apply steps_ret.
Qed.
End steps.

Create HintDb steps.
#[export] Hint Resolve steps_ret steps_bind steps_ask steps_lift steps_throw steps_panic
  steps_no_fuel steps_reads steps_for_each steps_map_st : steps.

(** Splits a goal [steps R m] along the structure of [m]. *)
Ltac steps_tac :=
  repeat (intros;
    match goal with
    | |- steps _ (_ ≫= _) => apply steps_bind; [| |intros ?]
    | |- steps _ (mbind _ _) => apply steps_bind; [| |intros ?]
    | |- steps _ (if ?b then _ else _) => destruct b
    | |- steps _ (match ?x with _ => _ end) => destruct x
    | |- steps _ (let _ := _ in _) => cbv zeta
    | |- steps _ _ => solve [eauto with steps typeclass_instances]
    | |- PreOrder _ => solve [typeclasses eauto]
    end).

(** Closes a decidable closed goal by evaluation. *)
Ltac by_decide :=
  match goal with |- ?P => refine (bool_decide_unpack P _) end; vm_compute; exact I.

(** ** Lists *)

(** [v.get(i as usize)] of a [u32] index. *)
Definition get_u32 {A} (l : list A) (i : Z) : option A := l !! Z.to_nat i.

Lemma existsb_false {A} (f : A -> bool) l :
  existsb f l = false -> forall x, x ∈ l -> f x = false.
Proof.
  induction l as [|y l IH]; cbn; [set_solver|]. intros [? ?]%orb_false_iff x [->|?]%elem_of_cons; auto.
Qed.

Lemma any_outcome_false {E A} (f : A -> outcome E bool) l :
  any_outcome f l = Ok false -> forall x, x ∈ l -> f x = Ok false.
Proof.
  induction l as [|y l IH]; cbn; [set_solver|]. intros ([] & Hy & H)%bind_ok; [done|].
  intros x [->|?]%elem_of_cons; auto.
Qed.

Lemma NoDup_snoc {A} (l : list A) (x : A) : NoDup l -> x ∉ l -> NoDup (l ++ [x]).
Proof.
  intros. apply list.NoDup_app. split_and!; [done| |apply NoDup_singleton].
  intros y Hy ->%list_elem_of_singleton. done.
Qed.

Lemma NoDup_take_prefix {A} n (l : list A) : NoDup l -> NoDup (take n l).
Proof. intros H. rewrite <- (take_drop n l) in H. by apply list.NoDup_app in H as [? _]. Qed.

Lemma sum_list_elem (l : list nat) n : n ∈ l -> (n <= sum_list l)%nat.
Proof. induction 1; cbn; lia. Qed.

(** ** Machine integers *)

(** The [w]-bit unsigned and two's-complement readings of an integer: Rust's [as uN] and [as iN]. *)
Definition wrap (w : Z) (z : Z) : Z := z mod 2 ^ w.
Definition swrap (w : Z) (z : Z) : Z := (z + 2 ^ (w - 1)) mod 2 ^ w - 2 ^ (w - 1).

Definition in_u (w z : Z) : Prop := 0 <= z < 2 ^ w.
Definition in_s (w z : Z) : Prop := - 2 ^ (w - 1) <= z < 2 ^ (w - 1).

#[global] Instance in_u_dec w z : Decision (in_u w z).
Proof. unfold in_u. apply _. Defined.
#[global] Instance in_s_dec w z : Decision (in_s w z).
Proof. unfold in_s. apply _. Defined.

Lemma pow2_split w : 0 < w -> 2 ^ w = 2 * 2 ^ (w - 1).
Proof. intros. rewrite <- Z.pow_succ_r by lia. f_equal. lia. Qed.

Lemma pow2_pos w : 0 <= w -> 0 < 2 ^ w.
Proof. intros. by apply Z.pow_pos_nonneg. Qed.

Lemma wrap_in_u w z : 0 <= w -> in_u w (wrap w z).
Proof. intros. apply Z.mod_pos_bound. by apply pow2_pos. Qed.

Lemma wrap_id w z : in_u w z -> wrap w z = z.
Proof. apply Z.mod_small. Qed.

Lemma swrap_in_s w z : 0 < w -> in_s w (swrap w z).
Proof.
  intros. unfold in_s, swrap.
  pose proof (Z.mod_pos_bound (z + 2 ^ (w - 1)) (2 ^ w) (pow2_pos w ltac:(lia))).
  pose proof (pow2_split w). lia.
Qed.

Lemma swrap_id w z : 0 < w -> in_s w z -> swrap w z = z.
Proof.
  intros Hw Hz. unfold swrap, in_s in *. pose proof (pow2_split w Hw).
  rewrite Z.mod_small by lia. lia.
Qed.

Lemma wrap_swrap w z : 0 < w -> wrap w (swrap w z) = wrap w z.
Proof.
  intros Hw. unfold wrap, swrap. rewrite Zminus_mod_idemp_l. f_equal. lia.
Qed.

Lemma swrap_wrap w z : 0 < w -> swrap w (wrap w z) = swrap w z.
Proof. intros Hw. unfold wrap, swrap. by rewrite Zplus_mod_idemp_l. Qed.

Lemma wrap_add w a b : wrap w (wrap w a + wrap w b) = wrap w (a + b).
Proof. unfold wrap. by rewrite <- Zplus_mod. Qed.

Lemma wrap_mul w a b : wrap w (wrap w a * wrap w b) = wrap w (a * b).
Proof. unfold wrap. by rewrite <- Zmult_mod. Qed.

(** Readings of different widths. *)
Lemma wrap_wide k w z : 0 <= k <= w -> wrap w (wrap k z) = wrap k z.
Proof.
  intros. apply wrap_id. pose proof (wrap_in_u k z ltac:(lia)) as [? ?].
  split; [done|]. eapply Z.lt_le_trans; [done|]. apply Z.pow_le_mono_r; lia.
Qed.

Lemma wrap_narrow k w z : 0 <= k <= w -> wrap k (wrap w z) = wrap k z.
Proof.
  intros Hk. unfold wrap. replace w with (k + (w - k)) by lia. rewrite Z.pow_add_r by lia.
  rewrite Z.rem_mul_r by (pose proof (pow2_pos k); pose proof (pow2_pos (w - k)); lia).
  rewrite Z.mul_comm, Z.mod_add by (pose proof (pow2_pos k); lia).
  apply Z.mod_mod. pose proof (pow2_pos k). lia.
Qed.

Lemma swrap_narrow k w z : 0 < k <= w -> swrap k (wrap w z) = swrap k z.
Proof. intros Hk. rewrite <- (swrap_wrap k (wrap w z)), wrap_narrow, swrap_wrap by lia. done. Qed.

(** ** Little-endian bytes; a byte is a [Z] in [0, 256) *)

Fixpoint le_bytes (n : nat) (z : Z) : list Z :=
  match n with
  | O => []
  | S n' => z mod 256 :: le_bytes n' (z / 256)
  end.

Fixpoint le_int (l : list Z) : Z :=
  match l with
  | [] => 0
  | b :: l' => b + 256 * le_int l'
  end.

Definition is_byte (b : Z) : Prop := 0 <= b < 256.

Lemma length_le_bytes n z : length (le_bytes n z) = n.
Proof. revert z; induction n; intros; cbn; auto. Qed.

Lemma le_int_le_bytes n z : le_int (le_bytes n z) = z mod 256 ^ Z.of_nat n.
Proof.
  revert z; induction n as [|n IH]; intros z; cbn [le_bytes le_int].
  - by rewrite Z.mod_1_r.
  - rewrite IH, Nat2Z.inj_succ, Z.pow_succ_r by lia.
    rewrite Z.rem_mul_r by lia. done.
Qed.

Lemma le_bytes_are_bytes n z : Forall is_byte (le_bytes n z).
Proof.
  revert z; induction n; intros; cbn; constructor; [|done].
  unfold is_byte. apply Z.mod_pos_bound. lia.
Qed.

Lemma pow256 n : 256 ^ Z.of_nat n = 2 ^ (8 * Z.of_nat n).
Proof. rewrite Z.pow_mul_r by lia. done. Qed.

Lemma le_int_le_bytes_u n z : in_u (8 * Z.of_nat n) z -> le_int (le_bytes n z) = z.
Proof.
  intros [? ?]. rewrite le_int_le_bytes, pow256. by apply Z.mod_small.
Qed.

Lemma le_bytes_wrap n z : le_bytes n (wrap (8 * Z.of_nat n) z) = le_bytes n z.
Proof.
  unfold wrap. rewrite <- pow256. revert z.
  induction n as [|n IH]; intros z; cbn [le_bytes]; [done|].
  rewrite Nat2Z.inj_succ, Z.pow_succ_r by lia. f_equal.
  - rewrite Z.rem_mul_r by lia. rewrite Z.mul_comm, Z.mod_add by lia.
    by rewrite Z.mod_mod.
  - rewrite Z.rem_mul_r by lia. rewrite Z.mul_comm, Z.div_add by lia.
    rewrite Z.div_small by (apply Z.mod_pos_bound; lia). apply IH.
Qed.

(** Signed round trip through [n] little-endian bytes. *)
Lemma swrap_le_int n z : (0 < n)%nat -> in_s (8 * Z.of_nat n) z ->
  swrap (8 * Z.of_nat n) (le_int (le_bytes n z)) = z.
Proof.
  intros Hn Hz. rewrite le_int_le_bytes, pow256.
  fold (wrap (8 * Z.of_nat n) z). rewrite swrap_wrap by lia. by apply swrap_id; [lia|].
Qed.
