(* ===== verification/Interner.v ===== *)
(** * The interner [BiMap] (cilly/src/ir/bimap.rs)

    [BiMap] keeps its values in stable-id order and indexes them by hash.  The hash table is
    [hashbrown]'s and is not part of the repository, so it is an interface here ([HashTable]) with
    the documented behaviour of the calls the code makes; [list_table] is an implementation of it.
    The second half gives the specification the rest of the development uses, an arena ([list V])
    with [arena_get] and [arena_intern], and shows that [BiMap] refines it for every hash
    function. *)

From S2P Require Import Prelude.

(** ** Ids *)

(** [Interned<T>]: a non-zero [u32] tagged with the kind of the value it names. *)
Inductive kind : Set :=
| KString | KType | KClassRef | KNode | KRoot | KSig | KMethodRef | KField | KStatic | KBuffer.

Definition Interned (k : kind) : Set := positive.

Definition inner {k} (id : Interned k) : Z := Z.pos id.

(** [u32::try_from(zero_based)] followed by [checked_add(1)]; both [expect]. *)
Definition id_for_zero_based {k} (zero_based : nat) : option (Interned k) :=
  if Z.of_nat zero_based <? 2 ^ 32 - 1 then Some (Pos.of_succ_nat zero_based) else None.

(** [inner() as usize - 1] *)
Definition slot {k} (id : Interned k) : nat := pred (Pos.to_nat id).

#[global] Arguments slot : simpl never.

Lemma slot_id_for_zero_based {k} n (id : Interned k) :
  id_for_zero_based n = Some id -> slot id = n.
Proof.
  unfold id_for_zero_based, slot. destruct (_ <? _); intros [= <-].
  by rewrite SuccNat2Pos.id_succ.
Qed.

Lemma slot_inj {k} (a b : Interned k) : slot a = slot b -> a = b.
Proof.
  unfold slot. intros H. apply Pos2Nat.inj.
  pose proof (Pos2Nat.is_pos a). pose proof (Pos2Nat.is_pos b). lia.
Qed.

Lemma id_for_zero_based_Some {k} n :
  Z.of_nat n < 2 ^ 32 - 1 -> exists id : Interned k, id_for_zero_based n = Some id /\ slot id = n.
Proof.
  intros H. unfold id_for_zero_based.
  destruct (Z.ltb_spec (Z.of_nat n) (2 ^ 32 - 1)); [|lia].
  eexists. split; [done|]. unfold slot. by rewrite SuccNat2Pos.id_succ.
Qed.

(** ** The hash table the code relies on *)

(** What [bimap.rs] uses of [hashbrown::HashTable<T>]: the table is a bag of (hash, entry) pairs;
    [find] returns an entry satisfying the predicate, and does return one when an entry stored under
    the probed hash satisfies it. *)
Class HashTable (T : Type) := {
  table : Type;
  tnew : table;
  tentries : table -> list (Z * T);
  tfind : table -> Z -> (T -> bool) -> option T;
  tinsert_unique : table -> Z -> T -> table;
  tlen : table -> nat;
  tentries_new : tentries tnew = [];
  tentries_insert : forall t h x, tentries (tinsert_unique t h x) ≡ₚ (h, x) :: tentries t;
  tfind_sound : forall t h p x, tfind t h p = Some x -> p x = true /\ exists h', (h', x) ∈ tentries t;
  tfind_complete : forall t h p x, (h, x) ∈ tentries t -> p x = true -> is_Some (tfind t h p);
  tlen_entries : forall t, tlen t = length (tentries t);
}.

Section BiMap.
Context {k : kind} {V : Type} `{!EqDecision V} `{!HashTable (Interned k)}.
(** [hash64] *)
Context (hash64 : V -> Z).

Record BiMap : Type := mk_BiMap { values : list V; index : table }.

(** [struct BiMapValidationError]; the ids are their [u32] values. *)
Inductive BiMapValidationError : Type :=
| DuplicateValue (first duplicate : Z)
| IndexOutOfSync.

Definition BiMap_default : BiMap := {| values := []; index := tnew |}.

(** Does [values[id.inner() - 1] == value] hold?  The slice index panics out of range; the table
    never holds such an id ([BiMap_ok]), so the test is [false] there. *)
Definition stored_eq (vs : list V) (value : V) (id : Interned k) : bool :=
  match vs !! slot id with
  | Some v => bool_decide (v = value)
  | None => false
  end.

Definition get {E} (m : BiMap) (key : Interned k) : outcome E V :=
  unwrap (values m !! slot key).

Definition find_id (m : BiMap) (hash : Z) (value : V) : option (Interned k) :=
  tfind (index m) hash (stored_eq (values m) value).

Definition get_id (m : BiMap) (value : V) : option (Interned k) :=
  find_id m (hash64 value) value.

Definition contains_value (m : BiMap) (value : V) : bool :=
  bool_decide (is_Some (get_id m value)).

Definition intern_full {E} (m : BiMap) (val : V) : outcome E (BiMap * (Interned k * bool)) :=
  let hash := hash64 val in
  match find_id m hash val with
  | Some id => Ok (m, (id, false))
  | None =>
      id ← unwrap (id_for_zero_based (length (values m)));
      Ok ({| values := values m ++ [val]; index := tinsert_unique (index m) hash id |},
          (id, true))
  end.

Definition intern {E} (m : BiMap) (val : V) : outcome E (BiMap * Interned k) :=
  '(m', (id, _)) ← intern_full m val; Ok (m', id).

(** The loop of [build_index] over [values.iter().enumerate()], from position [zero_based]. *)
Fixpoint build_index_from (all : list V) (zero_based : nat) (rest : list V) (ix : table)
    : outcome BiMapValidationError table :=
  match rest with
  | [] => Ok ix
  | value :: rest' =>
      id ← unwrap (id_for_zero_based zero_based);
      let hash := hash64 value in
      match tfind ix hash (stored_eq all value) with
      | Some first => Err (DuplicateValue (inner first) (inner id))
      | None => build_index_from all (S zero_based) rest' (tinsert_unique ix hash id)
      end
  end.

Definition build_index (vs : list V) : outcome BiMapValidationError table :=
  build_index_from vs 0 vs tnew.

#[global] Arguments build_index : simpl never.

Definition from_values (vs : list V) : outcome BiMapValidationError BiMap :=
  ix ← build_index vs; Ok {| values := vs; index := ix |}.

Definition map_values (f : V -> V) (m : BiMap) : outcome BiMapValidationError BiMap :=
  match build_index (f <$> values m) with
  | Ok ix => Ok {| values := f <$> values m; index := ix |}
  | Err _ => Panic
  | Panic => Panic
  | NoFuel => NoFuel
  end.

(** The id-by-id comparison of [validate]. *)
Fixpoint validate_from (m : BiMap) (zero_based : nat) (rest : list V)
    : outcome BiMapValidationError unit :=
  match rest with
  | [] => Ok tt
  | value :: rest' =>
      id ← unwrap (id_for_zero_based zero_based);
      if bool_decide (find_id m (hash64 value) value = Some id)
      then validate_from m (S zero_based) rest'
      else Err IndexOutOfSync
  end.

Definition validate (m : BiMap) : outcome BiMapValidationError unit :=
  _ ← build_index (values m);
  if bool_decide (tlen (index m) = length (values m))
  then validate_from m 0 (values m)
  else Err IndexOutOfSync.

Definition rebuild_index (m : BiMap) : outcome BiMapValidationError BiMap :=
  ix ← build_index (values m); Ok {| values := values m; index := ix |}.

(** [Vec::truncate] then [rebuild_index().expect(..)]. *)
Definition truncate (len : nat) (m : BiMap) : outcome BiMapValidationError BiMap :=
  match rebuild_index {| values := take len (values m); index := index m |} with
  | Err _ => Panic
  | r => r
  end.

Definition clear (_ : BiMap) : BiMap := {| values := []; index := tnew |}.
End BiMap.
Arguments BiMap : clear implicits.
Arguments BiMap k V {_}.

(** ** The specification: an arena of distinct values *)

Section Arena.
Context {k : kind} {V : Type} `{!EqDecision V}.

Definition arena_get {E} (vs : list V) (id : Interned k) : outcome E V :=
  unwrap (vs !! slot id).

Definition arena_find (vs : list V) (v : V) : option nat := fst <$> list_find (eq v) vs.

Definition arena_intern {E} (vs : list V) (v : V) : outcome E (list V * (Interned k * bool)) :=
  match arena_find vs v with
  | Some n => id ← unwrap (id_for_zero_based n); Ok (vs, (id, false))
  | None =>
      id ← unwrap (id_for_zero_based (length vs)); Ok (vs ++ [v], (id, true))
  end.

#[global] Arguments arena_find : simpl never.

Lemma arena_find_Some vs v n :
  arena_find vs v = Some n -> vs !! n = Some v.
Proof.
  unfold arena_find. intros [[i x] [Hf [= <-]]]%fmap_Some. cbn.
  apply list_find_Some in Hf as (? & <- & _). done.
Qed.

Lemma arena_find_None vs v : arena_find vs v = None <-> v ∉ vs.
Proof.
  unfold arena_find. rewrite fmap_None, list_find_None, Forall_forall.
  setoid_rewrite <- list_elem_of_In. naive_solver.
Qed.

Lemma arena_find_NoDup vs v n :
  NoDup vs -> vs !! n = Some v -> arena_find vs v = Some n.
Proof.
  intros Hnd Hn. destruct (arena_find vs v) as [m|] eqn:Hf.
  - apply arena_find_Some in Hf. by rewrite (NoDup_lookup vs m n v Hnd Hf Hn).
  - apply arena_find_None in Hf. destruct Hf. by eapply list_elem_of_lookup_2.
Qed.
End Arena.

(** ** [BiMap] refines the arena *)

Section BiMap_theory.
Context {k : kind} {V : Type} `{!EqDecision V} `{!HashTable (Interned k)}.
Context (hash64 : V -> Z).
Implicit Types (m : BiMap k V) (vs : list V) (v : V).

(** The table describing [vs]: one entry per value, under that value's hash. *)
Definition index_entries (vs : list V) : list (Z * Interned k) :=
  imap (fun n v => (hash64 v, Pos.of_succ_nat n)) vs.

Record BiMap_ok (m : BiMap k V) : Prop := {
  ok_nodup : NoDup (values m);
  ok_bound : Z.of_nat (length (values m)) <= 2 ^ 32 - 1;
  ok_index : tentries (index m) ≡ₚ index_entries (values m);
}.

Lemma slot_of_succ n : slot (k := k) (Pos.of_succ_nat n) = n.
Proof. unfold slot. by rewrite SuccNat2Pos.id_succ. Qed.

Lemma elem_of_index_entries vs h (id : Interned k) :
  (h, id) ∈ index_entries vs <-> exists v, vs !! slot id = Some v /\ h = hash64 v.
Proof.
  unfold index_entries. rewrite elem_of_lookup_imap. split.
  - intros (n & v & [= -> ->] & Hv). exists v. by rewrite slot_of_succ.
  - intros (v & Hv & ->). exists (slot id), v. split; [|done]. f_equal.
    apply (slot_inj (k := k)). by rewrite slot_of_succ.
Qed.

Lemma index_entries_app vs v :
  index_entries (vs ++ [v]) =
  index_entries vs ++ [(hash64 v, Pos.of_succ_nat (length vs))].
Proof. unfold index_entries. rewrite imap_app. cbn. by rewrite Nat.add_0_r. Qed.

Lemma stored_eq_true vs v (id : Interned k) :
  stored_eq vs v id = true <-> vs !! slot id = Some v.
Proof.
  unfold stored_eq. destruct (vs !! slot id); [|naive_solver].
  rewrite bool_decide_eq_true. naive_solver.
Qed.

(** Probing a table that describes a prefix of [all] finds exactly the position of the value. *)
Lemma tfind_index all (vs : list V) ix v :
  NoDup vs -> vs `prefix_of` all -> tentries ix ≡ₚ index_entries vs ->
  tfind ix (hash64 v) (stored_eq all v) =
  (fun n => Pos.of_succ_nat n) <$> arena_find vs v.
Proof.
  intros Hnd Hpre Hix. destruct (arena_find vs v) as [n|] eqn:Hf; cbn.
  - apply arena_find_Some in Hf as Hn.
    destruct (tfind_complete ix (hash64 v) (stored_eq all v) (Pos.of_succ_nat n))
      as [id Hid].
    + rewrite Hix. apply elem_of_index_entries. exists v. by rewrite slot_of_succ.
    + apply stored_eq_true. rewrite slot_of_succ. by eapply prefix_lookup_Some.
    + rewrite Hid. f_equal. apply tfind_sound in Hid as [Heq [h' Hin]].
      rewrite Hix in Hin. apply elem_of_index_entries in Hin as (v' & Hv' & _).
      apply stored_eq_true in Heq. pose proof (prefix_lookup_Some _ _ _ _ Hv' Hpre) as Ha.
      rewrite Ha in Heq. injection Heq as ->.
      apply (slot_inj (k := k)). rewrite slot_of_succ. by eapply NoDup_lookup.
  - destruct (tfind ix (hash64 v) (stored_eq all v)) as [id|] eqn:Hid; [|done].
    exfalso. apply tfind_sound in Hid as [Heq [h' Hin]].
    rewrite Hix in Hin. apply elem_of_index_entries in Hin as (v' & Hv' & _).
    apply stored_eq_true in Heq. pose proof (prefix_lookup_Some _ _ _ _ Hv' Hpre) as Ha.
    rewrite Ha in Heq. injection Heq as ->.
    apply arena_find_None in Hf. apply Hf. by eapply list_elem_of_lookup_2.
Qed.

Lemma find_id_spec m v :
  BiMap_ok m ->
  find_id m (hash64 v) v = (fun n => Pos.of_succ_nat n) <$> arena_find (values m) v.
Proof. intros [? ? ?]. by apply tfind_index. Qed.

Lemma id_for_zero_based_in vs n v :
  Z.of_nat (length vs) <= 2 ^ 32 - 1 -> vs !! n = Some v ->
  id_for_zero_based (k := k) n = Some (Pos.of_succ_nat n).
Proof.
  intros Hb Hn. apply lookup_lt_Some in Hn. unfold id_for_zero_based.
  destruct (Z.ltb_spec (Z.of_nat n) (2 ^ 32 - 1)); [done|lia].
Qed.

Lemma BiMap_ok_default : BiMap_ok BiMap_default.
Proof. split; cbn; [constructor|lia|by rewrite tentries_new]. Qed.

Lemma BiMap_ok_push m v :
  BiMap_ok m -> v ∉ values m -> Z.of_nat (length (values m)) < 2 ^ 32 - 1 ->
  BiMap_ok {| values := values m ++ [v];
              index := tinsert_unique (index m) (hash64 v)
                         (Pos.of_succ_nat (length (values m))) |}.
Proof.
  intros [Hnd Hb Hix] Hv Hlt. split; cbn.
  - by apply NoDup_snoc.
  - rewrite length_app. cbn. lia.
  - rewrite tentries_insert, Hix, index_entries_app. by rewrite Permutation_app_comm.
Qed.

(** What [build_index] computes, position by position. *)
Lemma build_index_from_spec all vs rest ix :
  all = vs ++ rest -> NoDup vs -> tentries ix ≡ₚ index_entries vs ->
  Z.of_nat (length all) <= 2 ^ 32 - 1 ->
  match build_index_from hash64 all (length vs) rest ix with
  | Ok ix' => NoDup all /\ tentries ix' ≡ₚ index_entries all
  | Err (DuplicateValue first dup) =>
      exists i j v, first = Z.of_nat i + 1 /\ dup = Z.of_nat j + 1 /\ (i < j)%nat /\
        all !! i = Some v /\ all !! j = Some v /\ NoDup (take j all)
  | _ => False
  end.
Proof.
  revert vs ix. induction rest as [|v rest IH]; intros vs ix -> Hnd Hix Hb; cbn.
  { by rewrite app_nil_r. }
  rewrite (id_for_zero_based_in (vs ++ v :: rest) (length vs) v);
    [|done|by rewrite list_lookup_middle]. cbn.
  rewrite (tfind_index _ vs) by (done || by apply prefix_app_r).
  destruct (arena_find vs v) as [n|] eqn:Hf; cbn.
  - apply arena_find_Some in Hf as Hn. pose proof (lookup_lt_Some _ _ _ Hn).
    exists n, (length vs), v. unfold inner.
    rewrite take_app_length, lookup_app_l, list_lookup_middle by done.
    split_and!; (done || lia).
  - apply arena_find_None in Hf.
    specialize (IH (vs ++ [v])). rewrite last_length in IH. apply IH.
    + by rewrite <- app_assoc.
    + by apply NoDup_snoc.
    + rewrite tentries_insert, Hix, index_entries_app. by rewrite Permutation_app_comm.
    + done.
Qed.

Lemma build_index_spec vs :
  Z.of_nat (length vs) <= 2 ^ 32 - 1 ->
  match build_index hash64 vs with
  | Ok ix => NoDup vs /\ tentries ix ≡ₚ index_entries vs
  | Err (DuplicateValue first dup) =>
      exists i j v, first = Z.of_nat i + 1 /\ dup = Z.of_nat j + 1 /\ (i < j)%nat /\
        vs !! i = Some v /\ vs !! j = Some v /\ NoDup (take j vs)
  | _ => False
  end.
Proof.
  intros Hb. unfold build_index. apply (build_index_from_spec vs [] vs); try done.
  - constructor.
  - by rewrite tentries_new.
Qed.

Lemma build_index_NoDup vs :
  Z.of_nat (length vs) <= 2 ^ 32 - 1 -> NoDup vs ->
  exists ix, build_index hash64 vs = Ok ix /\ tentries ix ≡ₚ index_entries vs.
Proof.
  intros Hb Hnd. pose proof (build_index_spec vs Hb) as H.
  destruct (build_index hash64 vs) as [ix|[first dup|]| |]; try done; [naive_solver|].
  destruct H as (i & j & v & _ & _ & Hij & Hi & Hj & _).
  pose proof (NoDup_lookup _ _ _ _ Hnd Hi Hj). lia.
Qed.

Lemma BiMap_ok_rebuilt vs ix :
  Z.of_nat (length vs) <= 2 ^ 32 - 1 -> build_index hash64 vs = Ok ix ->
  BiMap_ok {| values := vs; index := ix |}.
Proof.
  intros Hb Hix. pose proof (build_index_spec vs Hb) as H. rewrite Hix in H.
  by destruct H; split.
Qed.

(** Two maps over the same values answer every lookup alike: the index carries no information. *)
Lemma get_id_values m1 m2 v :
  BiMap_ok m1 -> BiMap_ok m2 -> values m1 = values m2 ->
  get_id hash64 m1 v = get_id hash64 m2 v.
Proof.
  intros H1 H2 Hv. unfold get_id. by rewrite !find_id_spec, Hv.
Qed.

Lemma validate_from_ok m n :
  BiMap_ok m -> (n <= length (values m))%nat ->
  validate_from hash64 m n (drop n (values m)) = Ok tt.
Proof.
  intros Hm. remember (length (values m) - n)%nat as d eqn:Hd. revert n Hd.
  induction d as [|d IH]; intros n Hd Hn.
  - rewrite drop_ge by lia. done.
  - destruct (lookup_lt_is_Some_2 (values m) n) as [v Hv]; [lia|].
    rewrite (drop_S _ v) by done. cbn.
    rewrite (id_for_zero_based_in (values m) n v); [|apply Hm|done]. cbn.
    rewrite find_id_spec, (arena_find_NoDup _ _ n) by (apply Hm || done). cbn.
    rewrite bool_decide_true by done. apply IH; lia.
Qed.
End BiMap_theory.

(** ** An implementation of the table interface *)

Section list_table.
Context (T : Type).

Definition list_find_entry (t : list (Z * T)) (h : Z) (p : T -> bool) : option T :=
  (fun e => e.2.2) <$> list_find (fun e : Z * T => (e.1 =? h) && p e.2 = true) t.

Lemma list_find_entry_sound t h p x :
  list_find_entry t h p = Some x -> p x = true /\ exists h', (h', x) ∈ t.
Proof.
  unfold list_find_entry. intros [[i [h' y]] [Hf [= ->]]]%fmap_Some.
  apply list_find_Some in Hf as (Hi & [_ Hp]%andb_true_iff & _). cbn in *.
  split; [done|]. exists h'. by eapply list_elem_of_lookup_2.
Qed.

Lemma list_find_entry_complete t h p x :
  (h, x) ∈ t -> p x = true -> is_Some (list_find_entry t h p).
Proof.
  intros Hin Hp. unfold list_find_entry. rewrite fmap_is_Some.
  apply (list_find_elem_of _ _ (h, x)); [done|]. cbn. by rewrite Z.eqb_refl, Hp.
Qed.

#[export] Instance list_table : HashTable T | 10 := {|
  table := list (Z * T);
  tnew := [];
  tentries t := t;
  tfind := list_find_entry;
  tinsert_unique t h x := (h, x) :: t;
  tlen := length;
  tentries_new := eq_refl;
  tentries_insert t h x := reflexivity _;
  tfind_sound := list_find_entry_sound;
  tfind_complete := list_find_entry_complete;
  tlen_entries t := eq_refl;
|}.
End list_table.

(** ** Properties *)

Section properties.
Context {k : kind} {V : Type} `{!EqDecision V} `{!HashTable (Interned k)}.
Context (hash64 : V -> Z).
Implicit Types (m : BiMap k V) (v : V).

(** C39: [BiMap::intern_full] refines the arena.  On a valid map it returns the id the arena
    assigns, leaves a valid map, and every id handed out before still names its value; it panics
    exactly when the [u32] id space is exhausted by a value that is not there yet.  Nothing is
    assumed of the hash function. *)
Theorem intern_full_refines_arena m v (Hm : BiMap_ok hash64 m) :
  match intern_full (E := unit) hash64 m v with
  | Ok (m', (id, fresh)) =>
      arena_intern (E := unit) (values m) v = Ok (values m', (id, fresh)) /\
      BiMap_ok hash64 m' /\ get (E := unit) m' id = Ok v /\
      (forall id' x, get (E := unit) m id' = Ok x -> get (E := unit) m' id' = Ok x) /\
      get_id hash64 m' v = Some id
  | Panic => Z.of_nat (length (values m)) = 2 ^ 32 - 1 /\ v ∉ values m
  | _ => False
  end.
Proof.
  unfold intern_full, arena_intern. rewrite find_id_spec by done.
  destruct (arena_find (values m) v) as [n|] eqn:Hf; cbn.
  - apply arena_find_Some in Hf as Hn.
    rewrite (id_for_zero_based_in (values m) n v); [|apply Hm|done]. cbn.
    unfold get, get_id. rewrite (slot_of_succ n), Hn, find_id_spec, Hf by done.
    split_and!; done.
  - apply arena_find_None in Hf as Hv. pose proof (ok_bound _ _ Hm).
    unfold id_for_zero_based.
    destruct (Z.ltb_spec (Z.of_nat (length (values m))) (2 ^ 32 - 1)); cbn;
      [|split; [lia|done]].
    pose proof (BiMap_ok_push hash64 m v Hm Hv ltac:(done)) as Hm'.
    unfold get, get_id. rewrite (find_id_spec _ _ _ Hm'); cbn.
    rewrite (slot_of_succ (length (values m))), list_lookup_middle by done.
    rewrite (arena_find_NoDup _ v (length (values m)));
      [|apply Hm'|cbn; by rewrite list_lookup_middle].
    split_and!; try done. intros id' x Hx. unfold unwrap in *. cbn.
    destruct (values m !! slot id') eqn:Hs; [|done]. by erewrite lookup_app_l_Some.
Qed.

(** [BiMap::from_values] (the deserializer) accepts exactly the duplicate-free sequences that
    fit the id space: on success the map is valid and serializes back to the same values, and an
    error names the least position whose value occurred before, with that first occurrence. *)
Lemma from_values_spec (vs : list V) (Hb : Z.of_nat (length vs) <= 2 ^ 32 - 1) :
  match from_values hash64 vs with
  | Ok m => NoDup vs /\ BiMap_ok hash64 m /\ values m = vs
  | Err (DuplicateValue first dup) =>
      exists i j v, first = Z.of_nat i + 1 /\ dup = Z.of_nat j + 1 /\ (i < j)%nat /\
        vs !! i = Some v /\ vs !! j = Some v /\ NoDup (take j vs)
  | _ => False
  end.
Proof.
  unfold from_values. pose proof (build_index_spec hash64 vs Hb) as H.
  destruct (build_index hash64 vs) as [ix|[]| |] eqn:Hix; cbn; try done.
  split_and!; [by destruct H|by apply BiMap_ok_rebuilt|done].
Qed.

(** On a valid map [validate] succeeds, and [truncate] never panics: it keeps a valid map whose
    surviving ids name the values they named before, and forgets the others. *)
Lemma truncate_keeps_ids m (len : nat) (Hm : BiMap_ok hash64 m) :
  validate hash64 m = Ok tt /\
  exists m', truncate hash64 len m = Ok m' /\ BiMap_ok hash64 m' /\
    values m' = take len (values m) /\
    (forall id v, (slot id < len)%nat -> get (E := unit) m id = Ok v ->
                  get (E := unit) m' id = Ok v /\ get_id hash64 m' v = Some id) /\
    (forall v, v ∉ take len (values m) -> get_id hash64 m' v = None).
Proof.
  split.
  - unfold validate. destruct (build_index_NoDup hash64 (values m)) as (ix & -> & _);
      [apply Hm|apply Hm|]. cbn.
    rewrite bool_decide_true; [by apply (validate_from_ok hash64 m 0); [|lia]|].
    rewrite tlen_entries, (ok_index _ _ Hm). apply length_imap.
  - assert (Hb : Z.of_nat (length (take len (values m))) <= 2 ^ 32 - 1).
    { pose proof (ok_bound _ _ Hm). rewrite length_take. lia. }
    destruct (build_index_NoDup hash64 (take len (values m))) as (ix & Hix & _);
      [done|by apply NoDup_take_prefix, Hm|].
    pose proof (BiMap_ok_rebuilt hash64 _ _ Hb Hix) as Hm'.
    eexists. unfold truncate, rebuild_index. cbn. rewrite Hix. cbn.
    split_and!; [done|done|done| |].
    + intros id v Hid Hg. unfold get, unwrap in *. cbn.
      destruct (values m !! slot id) as [x|] eqn:Hs; [|done]. injection Hg as ->.
      assert (take len (values m) !! slot id = Some v) as Ht by (by rewrite lookup_take_lt).
      rewrite Ht. split; [done|]. unfold get_id. rewrite (find_id_spec _ _ _ Hm'). cbn.
      rewrite (arena_find_NoDup _ v (slot id)); [|apply Hm'|done]. cbn. f_equal.
      apply (slot_inj (k := k)). by rewrite slot_of_succ.
    + intros v Hv. unfold get_id. rewrite (find_id_spec _ _ _ Hm'). cbn.
      by rewrite (proj2 (arena_find_None _ _)).
Qed.
End properties.

Section witnesses.
(** Three strings under a hash that puts every value in one bucket. *)
Let one_bucket (_ : string) : Z := 0.
Let names : list string := ["core"; "alloc"; "std"]%string.

Definition sample : BiMap KString string :=
  {| values := names;
     index := [(0, 3%positive); (0, 1%positive); (0, 2%positive)] |}.

Lemma sample_ok : BiMap_ok one_bucket sample.
Proof.
  split; cbn; [by apply (bool_decide_unpack _); vm_compute|lia|].
  change (([(0, 3%positive)] ++ [(0, 1%positive); (0, 2%positive)] : list (Z * positive))
          ≡ₚ [(0, 1%positive); (0, 2%positive)] ++ [(0, 3%positive)]).
  apply Permutation_app_comm.
Qed.

Lemma intern_full_refines_arena_witness :
  BiMap_ok one_bucket sample /\
  (exists m', intern_full (E := unit) one_bucket sample "proc_macro"%string
              = Ok (m', (4%positive, true)) /\ BiMap_ok one_bucket m').
Proof.
  split; [exact sample_ok|].
  pose proof (intern_full_refines_arena one_bucket sample "proc_macro"%string sample_ok) as H.
  vm_compute in H. eexists. split; [vm_compute; reflexivity|]. exact (proj1 (proj2 H)).
Defined.

Lemma from_values_spec_witness :
  from_values (k := KString) one_bucket ["a"; "b"; "a"]%string = Err (DuplicateValue 1 3) /\
  exists i j v, 1 = Z.of_nat i + 1 /\ 3 = Z.of_nat j + 1 /\ (i < j)%nat /\
    ["a"; "b"; "a"]%string !! i = Some v /\ ["a"; "b"; "a"]%string !! j = Some v /\
    NoDup (take j ["a"; "b"; "a"]%string).
Proof.
  split; [vm_compute; reflexivity|].
  exact (from_values_spec (k := KString) one_bucket ["a"; "b"; "a"]%string ltac:(vm_compute; discriminate)).
Defined.

Lemma truncate_keeps_ids_witness :
  BiMap_ok one_bucket sample /\
  exists m', truncate one_bucket 2 sample = Ok m' /\ values m' = ["core"; "alloc"]%string.
Proof.
  split; [exact sample_ok|].
  destruct (truncate_keeps_ids one_bucket sample 2 sample_ok) as (_ & m' & Ht & _ & Hv & _).
  exists m'. split; [exact Ht|exact Hv].
Defined.
End witnesses.
