(* ===== verification/Types.v ===== *)
(** * CIL types and constants (cilly/src/ir/tpe/, cst.rs, hashable.rs, fnsig.rs, field.rs)

    The scalar kinds [Int], [Float] and [SIMDVector], the interned [Type] ([Ty.t] here), the
    constants, and the small descriptor records.  A Rust string is the [string] of its UTF-8
    bytes; a float constant is its bit pattern, as [HashableF32]/[HashableF64] compare it. *)

From S2P Require Import Prelude Interner.
From Stdlib Require Import Floats.SpecFloat.

(** ** Integers (tpe/int.rs) *)
Module Int.
Inductive t : Set :=
| U8 | U16 | U32 | U64 | U128 | USize
| I8 | I16 | I32 | I64 | I128 | ISize.

#[global] Instance eq_dec : EqDecision t.
Proof. solve_decision. Defined.

Definition as_unsigned (self : t) : t :=
  match self with
  | I8 | U8 => U8
  | I16 | U16 => U16
  | I32 | U32 => U32
  | I64 | U64 => U64
  | I128 | U128 => U128
  | ISize | USize => USize
  end.

Definition as_signed (self : t) : t :=
  match self with
  | I8 | U8 => I8
  | I16 | U16 => I16
  | I32 | U32 => I32
  | I64 | U64 => I64
  | I128 | U128 => I128
  | ISize | USize => ISize
  end.

Definition from_size_sign {E} (size : Z) (sign : bool) : outcome E t :=
  res ← (match size with
         | 1 => Ok U8
         | 2 => Ok U16
         | 4 => Ok U32
         | 8 => Ok U64
         | 16 => Ok U128
         | _ => Panic
         end);
  Ok (if sign then as_signed res else res).

Definition name (self : t) : string :=
  match self with
  | U8 => "u8" | U16 => "u16" | U32 => "u32" | U64 => "u64" | U128 => "u128" | USize => "usize"
  | I8 => "i8" | I16 => "i16" | I32 => "i32" | I64 => "i64" | I128 => "i128" | ISize => "isize"
  end.

Definition is_signed (self : t) : bool :=
  match self with
  | U8 | U16 | U32 | U64 | U128 | USize => false
  | I8 | I16 | I32 | I64 | I128 | ISize => true
  end.

(** Size in bytes; [None] for the pointer-sized integers. *)
Definition size (self : t) : option Z :=
  match self with
  | U8 | I8 => Some 1
  | U16 | I16 => Some 2
  | U32 | I32 => Some 4
  | U64 | I64 => Some 8
  | U128 | I128 => Some 16
  | USize | ISize => None
  end.

Definition bits (self : t) : option Z := (fun size => size * 8) <$> size self.

Definition promoted {E} (self : t) : outcome E (option t) :=
  if bool_decide (size self = Some 128) then Ok None
  else
    r ← from_size_sign (default 8 (size self) * 2) (is_signed self);
    Ok (Some r).
End Int.

(** ** Floats (tpe/float.rs) *)
Module Float.
Inductive t : Set := F16 | F32 | F64 | F128.

#[global] Instance eq_dec : EqDecision t.
Proof. solve_decision. Defined.

Definition size (self : t) : Z :=
  match self with F16 => 2 | F32 => 4 | F64 => 8 | F128 => 16 end.

Definition bits (self : t) : Z := size self * 8.

Definition name (self : t) : string :=
  match self with F16 => "f16" | F32 => "f32" | F64 => "f64" | F128 => "f128" end.
End Float.

(** ** SIMD vectors (tpe/simd.rs) *)
Module Simd.
Inductive elem : Set := EInt (int : Int.t) | EFloat (float : Float.t).

#[global] Instance elem_eq_dec : EqDecision elem.
Proof. solve_decision. Defined.

Definition elem_bits (self : elem) : Z :=
  match self with
  | EInt int => default 64 (Int.bits int)
  | EFloat float => Float.bits float
  end.

Record vector : Set := mk_vector { v_elem : elem; v_count : Z }.

#[global] Instance vector_eq_dec : EqDecision vector.
Proof. solve_decision. Defined.

(** [SIMDVector::bits]: a [u16] product of two [u8]s. *)
Definition bits (self : vector) : Z := elem_bits (v_elem self) * v_count self.

(** [SIMDVector::new]: asserts one of the four supported widths. *)
Definition new {E} (e : elem) (count : Z) : outcome E vector :=
  let res := {| v_elem := e; v_count := count |} in
  if bool_decide (bits res = 64 \/ bits res = 128 \/ bits res = 256 \/ bits res = 512)
  then Ok res else Panic.

Definition name (self : vector) : string :=
  match v_elem self with
  | EInt e => "simd" +:+ Int.name e +:+ "_" +:+ pretty (v_count self)
  | EFloat e => "simd" +:+ Float.name e +:+ "_" +:+ pretty (v_count self)
  end.
End Simd.

(** ** Types (tpe/mod.rs) *)
Module Generic.
Inductive kind : Set := MethodGeneric | CallGeneric | TypeGeneric.

#[global] Instance kind_eq_dec : EqDecision kind.
Proof. solve_decision. Defined.
End Generic.

Module Ty.
(** [dims] is the [NonZeroU8] rank of an array. *)
Inductive t : Set :=
| Ptr (inner : Interned KType)
| Ref (inner : Interned KType)
| Int (int : Int.t)
| ClassRef (class : Interned KClassRef)
| Float (float : Float.t)
| PlatformString
| PlatformChar
| PlatformGeneric (idx : Z) (kind : Generic.kind)
| PlatformObject
| Bool
| Void
| PlatformArray (elem : Interned KType) (dims : Z)
| FnPtr (sig : Interned KSig)
| SIMDVector (vec : Simd.vector).

#[global] Instance eq_dec : EqDecision t.
Proof. solve_decision. Defined.

Definition as_class_ref (self : t) : option (Interned KClassRef) :=
  match self with ClassRef v => Some v | _ => None end.

Definition pointed_to (self : t) : option (Interned KType) :=
  match self with Ptr type_idx | Ref type_idx => Some type_idx | _ => None end.

Definition as_int (self : t) : option Int.t :=
  match self with Int v => Some v | _ => None end.

Definition as_simdvector (self : t) : option Simd.vector :=
  match self with SIMDVector v => Some v | _ => None end.

Definition is_ptr (self : t) : bool :=
  match self with Ptr _ => true | _ => false end.

(** [From<SIMDElem> for Type] and its partial inverse. *)
Definition of_simd_elem (e : Simd.elem) : t :=
  match e with Simd.EInt int => Int int | Simd.EFloat float => Float float end.

Definition try_simd_elem (self : t) : option Simd.elem :=
  match self with
  | Int int => Some (Simd.EInt int)
  | Float float => Some (Simd.EFloat float)
  | _ => None
  end.
End Ty.

(** ** Descriptor records (fnsig.rs, field.rs, class.rs, method.rs) *)

Record FnSig : Set := mk_FnSig { inputs : list Ty.t; output : Ty.t }.

Definition sig_iter_types (self : FnSig) : list Ty.t := inputs self ++ [output self].

Record FieldDesc : Set := mk_FieldDesc {
  field_owner : Interned KClassRef; field_name : Interned KString; field_tpe : Ty.t }.

Record StaticFieldDesc : Set := mk_StaticFieldDesc {
  static_owner : Interned KClassRef; static_name : Interned KString; static_tpe : Ty.t }.

Record ClassRef : Set := mk_ClassRef {
  cr_name : Interned KString;
  cr_asm : option (Interned KString);
  cr_is_valuetype : bool;
  cr_generics : list Ty.t }.

Module MethodKind.
Inductive t : Set := Static | Instance | Virtual | Constructor.
#[global] Instance eq_dec : EqDecision t.
Proof. solve_decision. Defined.
End MethodKind.

Record MethodRef : Set := mk_MethodRef {
  mr_class : Interned KClassRef;
  mr_name : Interned KString;
  mr_sig : Interned KSig;
  mr_kind : MethodKind.t;
  mr_generics : list Ty.t }.

#[export] Instance FnSig_eq_dec : EqDecision FnSig.
Proof. solve_decision. Defined.
#[export] Instance FieldDesc_eq_dec : EqDecision FieldDesc.
Proof. solve_decision. Defined.
#[export] Instance StaticFieldDesc_eq_dec : EqDecision StaticFieldDesc.
Proof. solve_decision. Defined.
#[export] Instance ClassRef_eq_dec : EqDecision ClassRef.
Proof. solve_decision. Defined.
#[export] Instance MethodRef_eq_dec : EqDecision MethodRef.
Proof. solve_decision. Defined.

(** ** IEEE bit patterns (hashable.rs) *)

(** A [HashableF32]/[HashableF64] is its [to_bits] word: [PartialEq] and [Hash] both use it. *)

(** The number a pattern with [mw] mantissa bits and [ew] exponent bits denotes. *)
Definition float_of_bits (mw ew : Z) (bits : Z) : spec_float :=
  let sign := Z.testbit bits (mw + ew) in
  let m := bits mod 2 ^ mw in
  let e := (bits / 2 ^ mw) mod 2 ^ ew in
  let bias := 2 ^ (ew - 1) - 1 in
  if e =? 2 ^ ew - 1 then
    if m =? 0 then S754_infinity sign else S754_nan
  else if e =? 0 then
    match m with
    | Z0 => S754_zero sign
    | Zpos p => S754_finite sign p (1 - bias - mw)
    | Zneg _ => S754_nan
    end
  else
    match m + 2 ^ mw with
    | Zpos p => S754_finite sign p (e - bias - mw)
    | _ => S754_nan
    end.

Definition f32_of_bits : Z -> spec_float := float_of_bits 23 8.
Definition f64_of_bits : Z -> spec_float := float_of_bits 52 11.

(** [f64::from]: exact for every [f32]. *)
Definition f64_from_f32 (x : spec_float) : spec_float :=
  match x with
  | S754_finite s m e => binary_normalize 53 1024 (cond_Zopp s (Zpos m)) e s
  | _ => x
  end.

(** ** Constants (cst.rs) *)
Module Const.
Inductive t : Set :=
| I8 (v : Z) | I16 (v : Z) | I32 (v : Z) | I64 (v : Z) | I128 (v : Z) | ISize (v : Z)
| U8 (v : Z) | U16 (v : Z) | U32 (v : Z) | U64 (v : Z) | U128 (v : Z) | USize (v : Z)
| PlatformString (s : Interned KString)
| Bool (b : bool)
| F32 (bits : Z)
| F64 (bits : Z)
| Null (class : Interned KClassRef)
| ByteBuffer (data : Interned KBuffer) (tpe : Interned KType).

#[global] Instance eq_dec : EqDecision t.
Proof. solve_decision. Defined.

Definition get_type (self : t) : Ty.t :=
  match self with
  | ByteBuffer _ tpe => Ty.Ptr tpe
  | I8 _ => Ty.Int Int.I8
  | I16 _ => Ty.Int Int.I16
  | I32 _ => Ty.Int Int.I32
  | I64 _ => Ty.Int Int.I64
  | I128 _ => Ty.Int Int.I128
  | ISize _ => Ty.Int Int.ISize
  | U8 _ => Ty.Int Int.U8
  | U16 _ => Ty.Int Int.U16
  | U32 _ => Ty.Int Int.U32
  | U64 _ => Ty.Int Int.U64
  | USize _ => Ty.Int Int.USize
  | U128 _ => Ty.Int Int.U128
  | PlatformString _ => Ty.PlatformString
  | Bool _ => Ty.Bool
  | F32 _ => Ty.Float Float.F32
  | F64 _ => Ty.Float Float.F64
  | Null tpe => Ty.ClassRef tpe
  end.

Definition is_zero (self : t) : bool :=
  match self with
  | ByteBuffer _ _ | PlatformString _ | Bool _ => false
  | I8 val | I16 val | I32 val | I64 val | ISize val | I128 val => val =? 0
  | U8 val | U16 val | U32 val | U64 val | USize val | U128 val => val =? 0
  | F32 val => SFeqb (f32_of_bits val) (S754_zero false)
  | F64 val => SFeqb (f64_of_bits val) (S754_zero false)
  | Null _ => true
  end.

Definition is_one (self : t) : bool :=
  match self with
  | ByteBuffer _ _ | PlatformString _ | Bool _ => false
  | I8 val | I16 val | I32 val | I64 val | ISize val | I128 val => val =? 1
  | U8 val | U16 val | U32 val | U64 val | USize val | U128 val => val =? 1
  | F32 val => SFeqb (f32_of_bits val) (f32_of_bits 0x3F800000)
  | F64 val => SFeqb (f64_of_bits val) (f64_of_bits 0x3FF0000000000000)
  | Null _ => true
  end.

(** The machine range of each integer constant and float word: what a Rust [Const] can hold. *)
Definition valid (self : t) : Prop :=
  match self with
  | I8 v => in_s 8 v | I16 v => in_s 16 v | I32 v => in_s 32 v
  | I64 v | ISize v => in_s 64 v | I128 v => in_s 128 v
  | U8 v => in_u 8 v | U16 v => in_u 16 v | U32 v => in_u 32 v
  | U64 v | USize v => in_u 64 v | U128 v => in_u 128 v
  | F32 b => in_u 32 b | F64 b => in_u 64 b
  | PlatformString _ | Bool _ | Null _ | ByteBuffer _ _ => True
  end.
End Const.

(** [Int::zero], [Int::from_bytes] and [Float::zero] build constants. *)
Definition int_zero (self : Int.t) : Const.t :=
  match self with
  | Int.U8 => Const.U8 0 | Int.U16 => Const.U16 0 | Int.U32 => Const.U32 0
  | Int.U64 => Const.U64 0 | Int.U128 => Const.U128 0 | Int.USize => Const.USize 0
  | Int.I8 => Const.I8 0 | Int.I16 => Const.I16 0 | Int.I32 => Const.I32 0
  | Int.I64 => Const.I64 0 | Int.I128 => Const.I128 0 | Int.ISize => Const.ISize 0
  end.

Definition float_zero {E} (self : Float.t) : outcome E Const.t :=
  match self with
  | Float.F16 => Panic
  | Float.F32 => Ok (Const.F32 0)
  | Float.F64 => Ok (Const.F64 0)
  | Float.F128 => Panic
  end.

(** [usize::next_power_of_two] (of a length, so no overflow) and [is_power_of_two]. *)
Definition next_power_of_two (n : Z) : Z := if n <=? 1 then 1 else 2 ^ Z.log2_up n.
Definition is_power_of_two (n : Z) : bool := (1 <=? n) && (2 ^ Z.log2 n =? n).

(** [from_ne_bytes(bytes.try_into().unwrap())] on the little-endian target. *)
Definition from_ne_bytes {E} (width : nat) (bytes : list Z) : outcome E Z :=
  if bool_decide (length bytes = width) then Ok (le_int bytes) else Panic.

Definition int_from_bytes {E} (self : Int.t) (bytes : list Z) : outcome E Const.t :=
  let len := Z.of_nat (length bytes) in
  let bytes :=
    if is_power_of_two len then bytes
    else bytes ++ replicate (Z.to_nat (next_power_of_two len - len)) 0 in
  match self with
  | Int.U8 => v ← from_ne_bytes 1 bytes; Ok (Const.U8 v)
  | Int.U16 => v ← from_ne_bytes 2 bytes; Ok (Const.U16 v)
  | Int.U32 => v ← from_ne_bytes 4 bytes; Ok (Const.U32 v)
  | Int.U64 => v ← from_ne_bytes 8 bytes; Ok (Const.U64 v)
  | Int.U128 => v ← from_ne_bytes 16 bytes; Ok (Const.U128 v)
  | Int.USize | Int.I8 | Int.I16 | Int.I32 | Int.I64 | Int.I128 | Int.ISize => Panic
  end.
