(* ===== verification/Class.v ===== *)
(** * Class definitions (cilly/src/ir/class.rs)

    The metadata of a class: storage, members that only link methods (events, properties),
    attributes, enum literals and the provenance of fixed arrays; the operations through which
    several compile-time entry points describe one class; and the merging of two descriptions. *)

From S2P Require Import Prelude Interner Types.

(** ** Data *)

Module Access.
Inductive t : Set := Extern | Public | Private | Assembly | InternalExtern.
#[global] Instance eq_dec : EqDecision t.
Proof. solve_decision. Defined.

Definition is_extern (self : t) : bool :=
  match self with Extern | InternalExtern => true | _ => false end.
End Access.

Record StaticFieldDef : Set := mk_StaticFieldDef {
  sfd_tpe : Ty.t;
  sfd_name : Interned KString;
  sfd_is_tls : bool;
  sfd_default_value : option Const.t;
  sfd_is_const : bool }.

Record FixedArrayLayout : Set := mk_FixedArrayLayout {
  fal_element : Ty.t;
  fal_length : Z;
  fal_requested_size : Z;
  fal_semantic_size : Z;
  fal_requested_align : Z }.

Record EnumDef : Set := mk_EnumDef {
  underlying : Int.t;
  variants : list (Interned KString * Const.t) }.

Inductive CustomAttrArg : Set :=
| AttrStr (value : Interned KString)
| AttrBool (value : bool)
| AttrU8 (value : Z)
| AttrI32 (value : Z)
| AttrI64 (value : Z).

Inductive CustomAttrNamedArgKind : Set := NamedField | NamedProperty.

Record CustomAttrNamedArg : Set := mk_NamedArg {
  na_kind : CustomAttrNamedArgKind;
  na_name : Interned KString;
  na_value : CustomAttrArg }.

Record CustomAttrDef : Set := mk_CustomAttrDef {
  attr_type : Interned KClassRef;
  ctor_args : list CustomAttrArg;
  named_args : list CustomAttrNamedArg }.

Record EventDef : Set := mk_EventDef {
  ev_name : Interned KString;
  ev_delegate : Ty.t;
  ev_add : Interned KMethodRef;
  ev_remove : Interned KMethodRef }.

Record PropertyDef : Set := mk_PropertyDef {
  prop_name : Interned KString;
  prop_tpe : Ty.t;
  prop_getter : option (Interned KMethodRef);
  prop_setter : option (Interned KMethodRef);
  prop_nullability : option Z;
  prop_custom_attributes : list CustomAttrDef }.

Record ClassDef : Set := mk_ClassDef {
  cd_name : Interned KString;
  cd_is_valuetype : bool;
  cd_is_valuetype_authoritative : bool;
  cd_generics : Z;
  cd_extends : option (Interned KClassRef);
  cd_implements : list (Interned KClassRef);
  cd_fields : list (Ty.t * Interned KString * option Z);
  cd_static_fields : list StaticFieldDef;
  cd_methods : list (Interned KMethodRef);
  cd_access : Access.t;
  cd_explict_size : option Z;
  cd_align : option Z;
  cd_has_nonveralpping_layout : bool;
  cd_is_interface : bool;
  cd_events : list EventDef;
  cd_generic_names : list (Interned KString);
  cd_properties : list PropertyDef;
  cd_custom_attributes : list CustomAttrDef;
  cd_field_custom_attributes : list (Interned KString * bool * list CustomAttrDef);
  cd_enum_def : option EnumDef;
  cd_fixed_array_layout : option FixedArrayLayout }.

#[export] Instance StaticFieldDef_eq_dec : EqDecision StaticFieldDef.
Proof. solve_decision. Defined.
#[export] Instance FixedArrayLayout_eq_dec : EqDecision FixedArrayLayout.
Proof. solve_decision. Defined.
#[export] Instance EnumDef_eq_dec : EqDecision EnumDef.
Proof. solve_decision. Defined.
#[export] Instance CustomAttrArg_eq_dec : EqDecision CustomAttrArg.
Proof. solve_decision. Defined.
#[export] Instance CustomAttrNamedArgKind_eq_dec : EqDecision CustomAttrNamedArgKind.
Proof. solve_decision. Defined.
#[export] Instance CustomAttrNamedArg_eq_dec : EqDecision CustomAttrNamedArg.
Proof. solve_decision. Defined.
#[export] Instance CustomAttrDef_eq_dec : EqDecision CustomAttrDef.
Proof. solve_decision. Defined.
#[export] Instance EventDef_eq_dec : EqDecision EventDef.
Proof. solve_decision. Defined.
#[export] Instance PropertyDef_eq_dec : EqDecision PropertyDef.
Proof. solve_decision. Defined.
#[export] Instance ClassDef_eq_dec : EqDecision ClassDef.
Proof. solve_decision. Defined.

(** ** Updating one field *)

Section setters.
Implicit Types d : ClassDef.

Local Notation cls d x1 x2 x3 x4 x5 x6 x7 x8 x9 x10 x11 x12 := (mk_ClassDef (cd_name d) x1 x2
  (cd_generics d) x3 x4 (cd_fields d) (cd_static_fields d) (cd_methods d) (cd_access d)
  (cd_explict_size d) (cd_align d) (cd_has_nonveralpping_layout d) x5 x6 x7 x8 x9 x10 x11 x12).

Definition set_valuetype d b auth := cls d b auth (cd_extends d) (cd_implements d)
  (cd_is_interface d) (cd_events d) (cd_generic_names d) (cd_properties d) (cd_custom_attributes d)
  (cd_field_custom_attributes d) (cd_enum_def d) (cd_fixed_array_layout d).
Definition set_extends d e := cls d (cd_is_valuetype d) (cd_is_valuetype_authoritative d) e
  (cd_implements d) (cd_is_interface d) (cd_events d) (cd_generic_names d) (cd_properties d)
  (cd_custom_attributes d) (cd_field_custom_attributes d) (cd_enum_def d) (cd_fixed_array_layout d).
Definition set_implements d l := cls d (cd_is_valuetype d) (cd_is_valuetype_authoritative d)
  (cd_extends d) l (cd_is_interface d) (cd_events d) (cd_generic_names d) (cd_properties d)
  (cd_custom_attributes d) (cd_field_custom_attributes d) (cd_enum_def d) (cd_fixed_array_layout d).
Definition set_interface d b := cls d (cd_is_valuetype d) (cd_is_valuetype_authoritative d)
  (cd_extends d) (cd_implements d) b (cd_events d) (cd_generic_names d) (cd_properties d)
  (cd_custom_attributes d) (cd_field_custom_attributes d) (cd_enum_def d) (cd_fixed_array_layout d).
Definition set_events d l := cls d (cd_is_valuetype d) (cd_is_valuetype_authoritative d)
  (cd_extends d) (cd_implements d) (cd_is_interface d) l (cd_generic_names d) (cd_properties d)
  (cd_custom_attributes d) (cd_field_custom_attributes d) (cd_enum_def d) (cd_fixed_array_layout d).
Definition set_generic_names d l := cls d (cd_is_valuetype d) (cd_is_valuetype_authoritative d)
  (cd_extends d) (cd_implements d) (cd_is_interface d) (cd_events d) l (cd_properties d)
  (cd_custom_attributes d) (cd_field_custom_attributes d) (cd_enum_def d) (cd_fixed_array_layout d).
Definition set_properties d l := cls d (cd_is_valuetype d) (cd_is_valuetype_authoritative d)
  (cd_extends d) (cd_implements d) (cd_is_interface d) (cd_events d) (cd_generic_names d) l
  (cd_custom_attributes d) (cd_field_custom_attributes d) (cd_enum_def d) (cd_fixed_array_layout d).
Definition set_custom_attributes d l := cls d (cd_is_valuetype d) (cd_is_valuetype_authoritative d)
  (cd_extends d) (cd_implements d) (cd_is_interface d) (cd_events d) (cd_generic_names d)
  (cd_properties d) l (cd_field_custom_attributes d) (cd_enum_def d) (cd_fixed_array_layout d).
Definition set_field_custom_attributes d l := cls d (cd_is_valuetype d)
  (cd_is_valuetype_authoritative d) (cd_extends d) (cd_implements d) (cd_is_interface d)
  (cd_events d) (cd_generic_names d) (cd_properties d) (cd_custom_attributes d) l (cd_enum_def d)
  (cd_fixed_array_layout d).
Definition put_enum_def d e := cls d (cd_is_valuetype d) (cd_is_valuetype_authoritative d)
  (cd_extends d) (cd_implements d) (cd_is_interface d) (cd_events d) (cd_generic_names d)
  (cd_properties d) (cd_custom_attributes d) (cd_field_custom_attributes d) e
  (cd_fixed_array_layout d).
Definition put_fixed_array_layout d l := cls d (cd_is_valuetype d) (cd_is_valuetype_authoritative d)
  (cd_extends d) (cd_implements d) (cd_is_interface d) (cd_events d) (cd_generic_names d)
  (cd_properties d) (cd_custom_attributes d) (cd_field_custom_attributes d) (cd_enum_def d) l.
End setters.

(** ** Building members *)

Section members.
Context {E : Type}.

(** [assert!] *)
Definition assert (b : bool) : outcome E unit := if b then Ok tt else Panic.

Definition is_enum_int (i : Int.t) : bool :=
  match i with
  | Int.I8 | Int.U8 | Int.I16 | Int.U16 | Int.I32 | Int.U32 | Int.I64 | Int.U64 => true
  | _ => false
  end.

(** [EnumDef::new]; the uniqueness of names is asserted in debug builds, as modelled. *)
Definition EnumDef_new (underlying : Int.t) (variants : list (Interned KString * Const.t))
    : outcome E EnumDef :=
  _ ← assert (is_enum_int underlying);
  _ ← assert (forallb (fun '(_, value) => bool_decide (Const.get_type value = Ty.Int underlying)) variants);
  _ ← assert (bool_decide (NoDup (map fst variants)));
  Ok (mk_EnumDef underlying variants).

Definition semantic_element_stride (l : FixedArrayLayout) : option Z :=
  if negb (fal_length l =? 0) && (fal_semantic_size l mod fal_length l =? 0)
  then Some (fal_semantic_size l / fal_length l) else None.

Definition CustomAttrDef_new (attr_type : Interned KClassRef) (ctor_args : list CustomAttrArg)
    (named_args : list (Interned KString * CustomAttrArg)) : CustomAttrDef :=
  mk_CustomAttrDef attr_type ctor_args
    (map (fun '(name, value) => mk_NamedArg NamedProperty name value) named_args).

Definition PropertyDef_new (name : Interned KString) (tpe : Ty.t)
    (getter setter : option (Interned KMethodRef)) : outcome E PropertyDef :=
  _ ← assert (bool_decide (is_Some getter) || bool_decide (is_Some setter));
  Ok (mk_PropertyDef name tpe getter setter None []).

(** [PropertyDef::with_nullability] *)
Definition with_nullability (p : PropertyDef) (flag : Z) : outcome E PropertyDef :=
  _ ← assert ((flag =? 1) || (flag =? 2));
  Ok (mk_PropertyDef (prop_name p) (prop_tpe p) (prop_getter p) (prop_setter p) (Some flag)
        (prop_custom_attributes p)).

(** ** Building a class *)

Definition ClassDef_new (name : Interned KString) (is_valuetype : bool) (generics : Z)
    (extends : option (Interned KClassRef)) (fields : list (Ty.t * Interned KString * option Z))
    (static_fields : list StaticFieldDef) (access : Access.t) (explict_size align : option Z)
    (has_nonveralpping_layout : bool) : ClassDef :=
  mk_ClassDef name is_valuetype false generics extends [] fields static_fields [] access
    explict_size align has_nonveralpping_layout false [] [] [] [] [] None None.

Implicit Types self : ClassDef.

Definition has_static_field self (fld_name : Interned KString) (fld_tpe : Ty.t) : bool :=
  existsb (fun f => bool_decide (sfd_tpe f = fld_tpe) && bool_decide (sfd_name f = fld_name))
    (cd_static_fields self).

(** [ClassDef::iter_types] *)
Definition class_iter_types self : list Ty.t :=
  map (fun '(tpe, _, _) => tpe) (cd_fields self) ++ map sfd_tpe (cd_static_fields self) ++
  map Ty.ClassRef (option_list (cd_extends self)) ++ map Ty.ClassRef (cd_implements self) ++
  map ev_delegate (cd_events self) ++ map prop_tpe (cd_properties self) ++
  map (fun a => Ty.ClassRef (attr_type a)) (cd_custom_attributes self) ++
  map (fun a => Ty.ClassRef (attr_type a))
    (concat (map (fun '(_, _, attributes) => attributes) (cd_field_custom_attributes self))) ++
  map (fun a => Ty.ClassRef (attr_type a)) (concat (map prop_custom_attributes (cd_properties self))) ++
  map fal_element (option_list (cd_fixed_array_layout self)).

Definition accessors (p : PropertyDef) : list (Interned KMethodRef) :=
  option_list (prop_getter p) ++ option_list (prop_setter p).

Definition iter_member_method_refs self : list (Interned KMethodRef) :=
  concat (map (fun e => [ev_add e; ev_remove e]) (cd_events self)) ++
  concat (map accessors (cd_properties self)).

Definition with_fixed_array_layout self (layout : FixedArrayLayout) : outcome E ClassDef :=
  _ ← assert (cd_is_valuetype self);
  _ ← assert (bool_decide (cd_fixed_array_layout self = None));
  Ok (put_fixed_array_layout self (Some layout)).

Definition with_valuetype_authoritative self : ClassDef :=
  set_valuetype self (cd_is_valuetype self) true.

Definition with_interface self : ClassDef := set_interface self true.

Definition with_type_generic_names self (names : list (Interned KString)) : outcome E ClassDef :=
  _ ← assert (Z.of_nat (length names) =? cd_generics self);
  Ok (set_generic_names self names).

Definition add_interface self (iface : Interned KClassRef) : ClassDef :=
  if bool_decide (iface ∈ cd_implements self) then self
  else set_implements self (cd_implements self ++ [iface]).

Definition add_event self (ev : EventDef) : ClassDef :=
  if existsb (fun existing => bool_decide (ev_name existing = ev_name ev)) (cd_events self) then self
  else set_events self (cd_events self ++ [ev]).

Definition add_property self (prop : PropertyDef) : ClassDef :=
  if existsb (fun existing => bool_decide (prop_name existing = prop_name prop)) (cd_properties self)
  then self else set_properties self (cd_properties self ++ [prop]).

(** The test may be stateful in Rust; every caller passes a lookup. *)
Definition retain_member_metadata self (method_exists : Interned KMethodRef -> bool) : ClassDef :=
  let is_none_or (o : option (Interned KMethodRef)) :=
    match o with None => true | Some m => method_exists m end in
  let self := set_events self (List.filter (fun event =>
    method_exists (ev_add event) && method_exists (ev_remove event)) (cd_events self)) in
  set_properties self (List.filter (fun property =>
    is_none_or (prop_getter property) && is_none_or (prop_setter property)) (cd_properties self)).

Definition with_enum self (definition : EnumDef) : outcome E ClassDef :=
  _ ← assert (cd_is_valuetype self);
  _ ← assert (negb (cd_is_interface self));
  _ ← assert (cd_generics self =? 0);
  _ ← assert (bool_decide (cd_fields self = []));
  _ ← assert (bool_decide (cd_enum_def self = None));
  Ok (put_enum_def self (Some definition)).

Definition set_enum_def self (definition : EnumDef) : outcome E ClassDef :=
  match cd_enum_def self with
  | None => Ok (put_enum_def self (Some definition))
  | Some existing => _ ← assert (bool_decide (existing = definition)); Ok self
  end.

Definition add_custom_attribute self (attr : CustomAttrDef) : ClassDef :=
  if bool_decide (attr ∈ cd_custom_attributes self) then self
  else set_custom_attributes self (cd_custom_attributes self ++ [attr]).

Definition is_group (name : Interned KString) (is_static : bool)
    (g : Interned KString * bool * list CustomAttrDef) : bool :=
  bool_decide (fst g = (name, is_static)).

Definition field_custom_attributes self (name : Interned KString) (is_static : bool)
    : list CustomAttrDef :=
  concat (map snd (List.filter (is_group name is_static) (cd_field_custom_attributes self))).

(** [find] on [iter_mut] and the push: the first group of the field gets the attribute. *)
Fixpoint push_attr (name : Interned KString) (is_static : bool) (attr : CustomAttrDef)
    (groups : list (Interned KString * bool * list CustomAttrDef))
    : list (Interned KString * bool * list CustomAttrDef) :=
  match groups with
  | [] => [(name, is_static, [attr])]
  | g :: groups =>
      if is_group name is_static g then (fst g, snd g ++ [attr]) :: groups
      else g :: push_attr name is_static attr groups
  end.

Definition add_field_custom_attribute self (name : Interned KString) (is_static : bool)
    (attr : CustomAttrDef) : ClassDef :=
  if bool_decide (attr ∈ field_custom_attributes self name is_static) then self
  else set_field_custom_attributes self (push_attr name is_static attr (cd_field_custom_attributes self)).

(** [ClassDef::ref_to]: the open shape of the class. *)
Definition class_ref_to self : outcome E ClassRef :=
  _ ← assert ((cd_generics self =? 0) ||
              (cd_generics self =? Z.of_nat (length (cd_generic_names self))));
  Ok (mk_ClassRef (cd_name self) None (cd_is_valuetype self) []).

Definition set_is_valuetype self (new_value : bool) : outcome E ClassDef :=
  if cd_is_valuetype_authoritative self then
    _ ← assert (bool_decide (cd_is_valuetype self = new_value)); Ok self
  else Ok (set_valuetype self new_value true).

Definition has_explicit_layout self : bool :=
  bool_decide (is_Some (cd_explict_size self)) ||
  existsb (fun '(_, _, offset) => bool_decide (is_Some offset)) (cd_fields self).

Definition clone_without_methods self : ClassDef :=
  mk_ClassDef (cd_name self) (cd_is_valuetype self) (cd_is_valuetype_authoritative self)
    (cd_generics self) (cd_extends self) (cd_implements self) (cd_fields self)
    (cd_static_fields self) [] (cd_access self) (cd_explict_size self) (cd_align self)
    (cd_has_nonveralpping_layout self) (cd_is_interface self) (cd_events self)
    (cd_generic_names self) (cd_properties self) (cd_custom_attributes self)
    (cd_field_custom_attributes self) (cd_enum_def self) (cd_fixed_array_layout self).

Definition method_owner_identity_shell self : ClassDef :=
  mk_ClassDef (cd_name self) (cd_is_valuetype self) (cd_is_valuetype_authoritative self)
    (cd_generics self) None [] [] [] [] (cd_access self) None None true (cd_is_interface self) []
    (cd_generic_names self) [] [] [] None None.

(** ** Merging two descriptions of a class *)

(** The optional metadata of two descriptions, which must not contradict: one side's opinion, or
    the opinion both have. *)
Definition merge_optional {A} `{!EqDecision A} (current incoming : option A) : outcome E (option A) :=
  match current, incoming with
  | None, Some value => Ok (Some value)
  | Some l, Some r => _ ← assert (bool_decide (l = r)); Ok current
  | _, _ => Ok current
  end.

Definition merge_defs self (translated : ClassDef) : outcome E ClassDef :=
  _ ← assert (bool_decide (cd_name self = cd_name translated));
  _ ← assert (bool_decide (cd_is_valuetype self = cd_is_valuetype translated));
  _ ← assert (cd_generics self =? cd_generics translated);
  _ ← assert (bool_decide (cd_generic_names self = cd_generic_names translated));
  extends ← merge_optional (cd_extends self) (cd_extends translated);
  _ ← assert (bool_decide (cd_is_interface self = cd_is_interface translated));
  enum_def ← merge_optional (cd_enum_def self) (cd_enum_def translated);
  explict_size ← merge_optional (cd_explict_size self) (cd_explict_size translated);
  align ← merge_optional (cd_align self) (cd_align translated);
  fixed_array_layout ← merge_optional (cd_fixed_array_layout self) (cd_fixed_array_layout translated);
  _ ← assert (bool_decide (cd_methods translated = []));
  _ ← assert (bool_decide (cd_access self = cd_access translated));
  Ok {| cd_name := cd_name self;
        cd_is_valuetype := cd_is_valuetype self;
        cd_is_valuetype_authoritative :=
          cd_is_valuetype_authoritative self || cd_is_valuetype_authoritative translated;
        cd_generics := cd_generics self;
        cd_extends := extends;
        cd_implements := cd_implements self ++ cd_implements translated;
        cd_fields := cd_fields self ++ cd_fields translated;
        cd_static_fields := cd_static_fields self ++ cd_static_fields translated;
        cd_methods := cd_methods self;
        cd_access := cd_access self;
        cd_explict_size := explict_size;
        cd_align := align;
        cd_has_nonveralpping_layout :=
          cd_has_nonveralpping_layout self && cd_has_nonveralpping_layout translated;
        cd_is_interface := cd_is_interface self;
        cd_events := cd_events self ++ cd_events translated;
        cd_generic_names := cd_generic_names self;
        cd_properties := cd_properties self ++ cd_properties translated;
        cd_custom_attributes := cd_custom_attributes self ++ cd_custom_attributes translated;
        cd_field_custom_attributes :=
          cd_field_custom_attributes self ++ cd_field_custom_attributes translated;
        cd_enum_def := enum_def;
        cd_fixed_array_layout := fixed_array_layout |}.
(** The entry of a class as its shards arrive: [Entry::Vacant] takes the first description,
    [Entry::Occupied] merges the next. *)
Definition merge_entry (acc : option ClassDef) (d : ClassDef) : outcome E ClassDef :=
  match acc with None => Ok d | Some c => merge_defs c d end.

Fixpoint merge_shards (acc : option ClassDef) (shards : list ClassDef) : outcome E (option ClassDef) :=
  match shards with
  | [] => Ok acc
  | d :: shards => c ← merge_entry acc d; merge_shards (Some c) shards
  end.

End members.
