(* ===== verification/IR.v ===== *)
(** * The interned IR (cilly/src/ir/cilnode.rs, cilroot.rs, asm.rs, iter.rs)

    Nodes (value-producing trees) and roots (statements) whose children are ids into the arenas of
    an [Assembly].  The arenas are the specification of [BiMap] in [Interner].  Functions that
    intern values thread the assembly with the state monad [ST]; recursion follows ids through the
    arenas and takes fuel, which the theorems of termination show to suffice on the well-founded
    assemblies of [Arenas]. *)

From S2P Require Import Prelude Interner Types Class.

(** ** Enumerations of cilnode.rs and cilroot.rs *)

Module BinOp.
Inductive t : Set :=
| Add | Eq | Sub | Mul | LtUn | Lt | GtUn | Gt | Or | XOr | And
| Rem | RemUn | Shl | Shr | ShrUn | DivUn | Div.

#[global] Instance eq_dec : EqDecision t.
Proof. solve_decision. Defined.

Definition ALL_OPS : list t :=
  [Add; Eq; Sub; Mul; LtUn; Lt; GtUn; Gt; Or; XOr; And; Rem; RemUn; Shl; Shr; ShrUn; DivUn; Div].

Definition ALL_DISTINCT_OPS : list t :=
  [Add; Eq; Sub; Mul; Lt; Gt; Or; XOr; And; Rem; Shl; Shr; Div].

Definition name (self : t) : string :=
  match self with
  | Add => "add" | Eq => "eq" | Sub => "sub" | Mul => "mul"
  | LtUn | Lt => "lt" | GtUn | Gt => "gt"
  | Or => "or" | XOr => "xor" | And => "and"
  | Rem | RemUn => "mod" | Shl => "shl" | Shr | ShrUn => "shr" | DivUn | Div => "div"
  end.

Definition dotnet_name (self : t) : string :=
  match self with
  | Add => "op_Addition" | Eq => "op_Equality" | Sub => "op_Subtraction" | Mul => "op_Multiply"
  | LtUn | Lt => "op_LessThan" | GtUn | Gt => "op_GreaterThan"
  | Or => "op_BitwiseOr" | XOr => "op_ExclusiveOr" | And => "op_BitwiseAnd"
  | Rem | RemUn => "op_Modulus" | Shl => "op_LeftShift" | Shr | ShrUn => "op_RightShift"
  | DivUn | Div => "op_Division"
  end.
End BinOp.

Module UnOp.
Inductive t : Set := Not | Neg.
#[global] Instance eq_dec : EqDecision t.
Proof. solve_decision. Defined.
End UnOp.

Module ExtendKind.
Inductive t : Set := ZeroExtend | SignExtend.
#[global] Instance eq_dec : EqDecision t.
Proof. solve_decision. Defined.
End ExtendKind.

Module CmpKind.
Inductive t : Set := Ordered | Unordered | Signed | Unsigned.
#[global] Instance eq_dec : EqDecision t.
Proof. solve_decision. Defined.
End CmpKind.

Module PtrCastRes.
Inductive t : Set :=
| Ptr (tpe : Interned KType)
| Ref (tpe : Interned KType)
| FnPtr (sig : Interned KSig)
| USize
| ISize.
#[global] Instance eq_dec : EqDecision t.
Proof. solve_decision. Defined.

Definition as_type (self : t) : Ty.t :=
  match self with
  | Ptr type_idx => Ty.Ptr type_idx
  | Ref type_idx => Ty.Ref type_idx
  | FnPtr sig_idx => Ty.FnPtr sig_idx
  | USize => Ty.Int Int.USize
  | ISize => Ty.Int Int.ISize
  end.
End PtrCastRes.

(** ** Nodes (cilnode.rs) *)
Module CILNode.
(** [is_pure] is the [IsPure] flag of a call. *)
Inductive t : Set :=
| Const (cst : Const.t)
| BinOp (lhs rhs : Interned KNode) (op : BinOp.t)
| UnOp (val : Interned KNode) (op : UnOp.t)
| LdLoc (loc : Z)
| LdLocA (loc : Z)
| LdArg (arg : Z)
| LdArgA (arg : Z)
| Call (method : Interned KMethodRef) (args : list (Interned KNode)) (is_pure : bool)
| IntCast (input : Interned KNode) (target : Int.t) (extend : ExtendKind.t)
| FloatCast (input : Interned KNode) (target : Float.t) (is_signed : bool)
| RefToPtr (val : Interned KNode)
| PtrCast (val : Interned KNode) (res : PtrCastRes.t)
| LdFieldAddress (addr : Interned KNode) (field : Interned KField)
| LdField (addr : Interned KNode) (field : Interned KField)
| LdInd (addr : Interned KNode) (tpe : Interned KType) (volatile : bool)
| SizeOf (tpe : Interned KType)
| GetException
| IsInst (obj : Interned KNode) (tpe : Interned KType)
| CheckedCast (obj : Interned KNode) (tpe : Interned KType)
| CallI (fn_ptr : Interned KNode) (sig : Interned KSig) (args : list (Interned KNode))
| LocAlloc (size : Interned KNode)
| LdStaticField (sfld : Interned KStatic)
| LdStaticFieldAddress (sfld : Interned KStatic)
| LdFtn (method : Interned KMethodRef)
| LdTypeToken (tpe : Interned KType)
| LdLen (arr : Interned KNode)
| LocAllocAlgined (tpe : Interned KType) (align : Z)
| LdElelemRef (array index : Interned KNode)
| LdElem (array index : Interned KNode) (elem : Interned KType)
| UnboxAny (object : Interned KNode) (tpe : Interned KType)
| NewArr (elem : Interned KType) (len : Interned KNode)
| Box (value : Interned KNode) (tpe : Interned KType).

#[global] Instance eq_dec : EqDecision t.
Proof. solve_decision. Defined.

(** The ids [visit_child_nodes] visits, in order (also [child_nodes]). *)
Definition visit_child_nodes (self : t) : list (Interned KNode) :=
  match self with
  | Const _ | LdLoc _ | LdLocA _ | LdArg _ | LdArgA _ | SizeOf _ | LocAllocAlgined _ _
  | LdFtn _ | LdTypeToken _ | LdStaticField _ | LdStaticFieldAddress _ | GetException => []
  | UnOp node _ | RefToPtr node | PtrCast node _ | LdLen node | LdFieldAddress node _
  | LdField node _ | LdInd node _ _ | LocAlloc node | IsInst node _ | CheckedCast node _
  | IntCast node _ _ | FloatCast node _ _ | LdElelemRef node _ | NewArr _ node | Box node _
  | UnboxAny node _ => [node]
  | BinOp lhs rhs _ | LdElem lhs rhs _ => [lhs; rhs]
  | Call _ args _ => args
  | CallI fn_ptr _ args => fn_ptr :: args
  end.

(** Every node id stored in a node: the operands an evaluation consumes. *)
Definition operands (self : t) : list (Interned KNode) :=
  match self with
  | LdElelemRef array index => [array; index]
  | _ => visit_child_nodes self
  end.

(** [CILNode::call] *)
Definition call (mref : Interned KMethodRef) (args : list (Interned KNode)) : t :=
  Call mref args false.
End CILNode.

(** ** Branch conditions and roots (cilroot.rs) *)
Module BranchCond.
(** [IsTrue] and [IsFalse] are the source's [True] and [False]. *)
Inductive t : Set :=
| IsTrue (cond : Interned KNode)
| IsFalse (cond : Interned KNode)
| Eq (lhs rhs : Interned KNode)
| Ne (lhs rhs : Interned KNode)
| Lt (lhs rhs : Interned KNode) (kind : CmpKind.t)
| Gt (lhs rhs : Interned KNode) (kind : CmpKind.t)
| Le (lhs rhs : Interned KNode) (kind : CmpKind.t)
| Ge (lhs rhs : Interned KNode) (kind : CmpKind.t).

#[global] Instance eq_dec : EqDecision t.
Proof. solve_decision. Defined.

Definition nodes (self : t) : list (Interned KNode) :=
  match self with
  | IsTrue cond | IsFalse cond => [cond]
  | Eq lhs rhs | Ne lhs rhs | Lt lhs rhs _ | Gt lhs rhs _ | Le lhs rhs _ | Ge lhs rhs _ =>
      [lhs; rhs]
  end.
End BranchCond.

Module CILRoot.
Inductive t : Set :=
| StLoc (loc : Z) (node : Interned KNode)
| StArg (arg : Z) (node : Interned KNode)
| Ret (node : Interned KNode)
| Pop (node : Interned KNode)
| Throw (node : Interned KNode)
| VoidRet
| Break
| Nop
| InitFragmentBoundary
| Branch (target sub_target : Z) (cond : option BranchCond.t)
| SourceFileInfo (line_start line_len col_start col_len : Z) (file : Interned KString)
| SetField (field : Interned KField) (addr val : Interned KNode)
| Call (method : Interned KMethodRef) (args : list (Interned KNode)) (is_pure : bool)
| StInd (addr val : Interned KNode) (tpe : Ty.t) (volatile : bool)
| InitBlk (dst val count : Interned KNode)
| CpBlk (dst src len : Interned KNode)
| CallI (fn_ptr : Interned KNode) (sig : Interned KSig) (args : list (Interned KNode))
| ExitSpecialRegion (target source : Z)
| TerminateRegion (protected : Interned KRoot) (reason : Z)
| ReThrow
| SetStaticField (field : Interned KStatic) (val : Interned KNode)
| CpObj (src dst : Interned KNode) (tpe : Interned KType)
| Unreachable (msg : Interned KString)
| InitObj (addr : Interned KNode) (tpe : Interned KType)
| StElem (array index value : Interned KNode) (elem : Interned KType).

#[global] Instance eq_dec : EqDecision t.
Proof. solve_decision. Defined.

Definition is_meaningufull (self : t) : bool :=
  match self with
  | Nop | SourceFileInfo _ _ _ _ _ | InitFragmentBoundary => false
  | _ => true
  end.

(** The ids [visit_nodes] visits, in order (also [nodes]). *)
Definition visit_nodes (self : t) : list (Interned KNode) :=
  match self with
  | Unreachable _ | SourceFileInfo _ _ _ _ _ | ExitSpecialRegion _ _ | VoidRet | Break | Nop
  | InitFragmentBoundary | TerminateRegion _ _ | ReThrow => []
  | StLoc _ node | StArg _ node | Ret node | Pop node | Throw node | InitObj node _
  | SetStaticField _ node => [node]
  | Branch _ _ cond => match cond with Some condition => BranchCond.nodes condition | None => [] end
  | SetField _ addr val => [addr; val]
  | Call _ args _ => args
  | StInd addr val _ _ => [addr; val]
  | InitBlk a b c | CpBlk a b c => [a; b; c]
  | CallI fn_ptr _ args => args ++ [fn_ptr]
  | CpObj src dst _ => [src; dst]
  | StElem array index value _ => [array; index; value]
  end.

Definition visit_child_roots (self : t) : list (Interned KRoot) :=
  match self with TerminateRegion protected _ => [protected] | _ => [] end.

(** The ids whose cells [nodes_mut] hands out, in order. *)
Definition nodes_mut (self : t) : list (Interned KNode) :=
  match self with
  | StLoc _ tree | StArg _ tree | Ret tree | Pop tree | Throw tree | InitObj tree _
  | SetStaticField _ tree => [tree]
  | SourceFileInfo _ _ _ _ _ | ExitSpecialRegion _ _ | VoidRet | Break | Nop
  | InitFragmentBoundary | TerminateRegion _ _ | ReThrow | Unreachable _ => []
  | Branch _ _ cond =>
      match cond with
      | None => []
      | Some (BranchCond.IsTrue cond) | Some (BranchCond.IsFalse cond) => [cond]
      | Some (BranchCond.Eq lhs rhs) | Some (BranchCond.Ne lhs rhs)
      | Some (BranchCond.Lt lhs rhs _) | Some (BranchCond.Gt lhs rhs _)
      | Some (BranchCond.Le lhs rhs _) | Some (BranchCond.Ge lhs rhs _) => [lhs; rhs]
      end
  | SetField _ addr val => [addr; val]
  | Call _ args _ => args
  | StInd addr val _ _ => [addr; val]
  | InitBlk addr val len | CpBlk addr val len => [addr; val; len]
  | CallI ptr _ args => args ++ [ptr]
  | CpObj src dst _ => [src; dst]
  | StElem array index value _ => [array; index; value]
  end.
End CILRoot.

(** ** The assembly (asm.rs) *)

Definition LocalDef : Set := option (Interned KString) * Interned KType.

(** The arenas of [struct Assembly]; [class_defs] is keyed by the [ClassDefIdx], a class-ref id. *)
Record Assembly : Set := mk_Assembly {
  strings : list string;
  types : list Ty.t;
  class_refs : list ClassRef;
  class_defs : gmap positive ClassDef;
  nodes : list CILNode.t;
  roots : list CILRoot.t;
  sigs : list FnSig;
  method_refs : list MethodRef;
  fields : list FieldDesc;
  statics : list StaticFieldDesc;
  const_data : list (list Z) }.

Definition empty_assembly : Assembly :=
  mk_Assembly [] [] [] ∅ [] [] [] [] [] [] [].

(** The class that free functions belong to. *)
Definition MAIN_MODULE : string := "MainModule".

Section Assembly_ops.
Context {E : Type}.
Implicit Types asm : Assembly.

Definition get_string asm (id : Interned KString) : outcome E string := arena_get (strings asm) id.
Definition get_type asm (id : Interned KType) : outcome E Ty.t := arena_get (types asm) id.
Definition class_ref asm (id : Interned KClassRef) : outcome E ClassRef := arena_get (class_refs asm) id.
Definition get_node asm (id : Interned KNode) : outcome E CILNode.t := arena_get (nodes asm) id.
Definition get_root asm (id : Interned KRoot) : outcome E CILRoot.t := arena_get (roots asm) id.
Definition get_sig asm (id : Interned KSig) : outcome E FnSig := arena_get (sigs asm) id.
Definition get_mref asm (id : Interned KMethodRef) : outcome E MethodRef := arena_get (method_refs asm) id.
Definition get_field asm (id : Interned KField) : outcome E FieldDesc := arena_get (fields asm) id.
Definition get_static_field asm (id : Interned KStatic) : outcome E StaticFieldDesc := arena_get (statics asm) id.
Definition get_const_data asm (id : Interned KBuffer) : outcome E (list Z) := arena_get (const_data asm) id.

(** [class_ref_to_def] composed with the indexing of [class_defs] its callers do. *)
Definition class_ref_to_def asm (id : Interned KClassRef) : option ClassDef := class_defs asm !! id.

(** One arena of the assembly, updated by an interning. *)
Definition intern_in {k : kind} {V : Type} `{!EqDecision V}
    (arena : Assembly -> list V) (set : Assembly -> list V -> Assembly) (v : V)
    : ST Assembly E (Interned k) :=
  fun asm =>
    match arena_intern (arena asm) v with
    | Ok (vs, (id, _)) => (set asm vs, Ok id)
    | Err e => (asm, Err e)
    | Panic => (asm, Panic)
    | NoFuel => (asm, NoFuel)
    end.

Definition set_strings asm l := mk_Assembly l (types asm) (class_refs asm) (class_defs asm)
  (nodes asm) (roots asm) (sigs asm) (method_refs asm) (fields asm) (statics asm) (const_data asm).
Definition set_types asm l := mk_Assembly (strings asm) l (class_refs asm) (class_defs asm)
  (nodes asm) (roots asm) (sigs asm) (method_refs asm) (fields asm) (statics asm) (const_data asm).
Definition set_class_refs asm l := mk_Assembly (strings asm) (types asm) l (class_defs asm)
  (nodes asm) (roots asm) (sigs asm) (method_refs asm) (fields asm) (statics asm) (const_data asm).
Definition set_class_defs asm m := mk_Assembly (strings asm) (types asm) (class_refs asm) m
  (nodes asm) (roots asm) (sigs asm) (method_refs asm) (fields asm) (statics asm) (const_data asm).
Definition set_nodes asm l := mk_Assembly (strings asm) (types asm) (class_refs asm) (class_defs asm)
  l (roots asm) (sigs asm) (method_refs asm) (fields asm) (statics asm) (const_data asm).
Definition set_roots asm l := mk_Assembly (strings asm) (types asm) (class_refs asm) (class_defs asm)
  (nodes asm) l (sigs asm) (method_refs asm) (fields asm) (statics asm) (const_data asm).
Definition set_sigs asm l := mk_Assembly (strings asm) (types asm) (class_refs asm) (class_defs asm)
  (nodes asm) (roots asm) l (method_refs asm) (fields asm) (statics asm) (const_data asm).
Definition set_method_refs asm l := mk_Assembly (strings asm) (types asm) (class_refs asm) (class_defs asm)
  (nodes asm) (roots asm) (sigs asm) l (fields asm) (statics asm) (const_data asm).
Definition set_fields asm l := mk_Assembly (strings asm) (types asm) (class_refs asm) (class_defs asm)
  (nodes asm) (roots asm) (sigs asm) (method_refs asm) l (statics asm) (const_data asm).
Definition set_statics asm l := mk_Assembly (strings asm) (types asm) (class_refs asm) (class_defs asm)
  (nodes asm) (roots asm) (sigs asm) (method_refs asm) (fields asm) l (const_data asm).

Definition set_const_data asm l := mk_Assembly (strings asm) (types asm) (class_refs asm) (class_defs asm)
  (nodes asm) (roots asm) (sigs asm) (method_refs asm) (fields asm) (statics asm) l.

Definition alloc_string : string -> ST Assembly E (Interned KString) := intern_in strings set_strings.
Definition alloc_type : Ty.t -> ST Assembly E (Interned KType) := intern_in types set_types.
Definition alloc_class_ref : ClassRef -> ST Assembly E (Interned KClassRef) := intern_in class_refs set_class_refs.
Definition alloc_node : CILNode.t -> ST Assembly E (Interned KNode) := intern_in nodes set_nodes.
Definition alloc_root : CILRoot.t -> ST Assembly E (Interned KRoot) := intern_in roots set_roots.
Definition alloc_sig : FnSig -> ST Assembly E (Interned KSig) := intern_in sigs set_sigs.
Definition alloc_methodref : MethodRef -> ST Assembly E (Interned KMethodRef) := intern_in method_refs set_method_refs.
Definition alloc_field : FieldDesc -> ST Assembly E (Interned KField) := intern_in fields set_fields.
Definition alloc_sfld : StaticFieldDesc -> ST Assembly E (Interned KStatic) := intern_in statics set_statics.
Definition alloc_const_data : list Z -> ST Assembly E (Interned KBuffer) := intern_in const_data set_const_data.

Definition nptr (inner : Ty.t) : ST Assembly E Ty.t := id ← alloc_type inner; mret (Ty.Ptr id).
Definition nref (inner : Ty.t) : ST Assembly E Ty.t := id ← alloc_type inner; mret (Ty.Ref id).
Definition asm_sig (input : list Ty.t) (out : Ty.t) : ST Assembly E (Interned KSig) :=
  alloc_sig {| inputs := input; output := out |}.

Definition new_methodref (class : Interned KClassRef) (name : string) (sig : Interned KSig)
    (kind : MethodKind.t) (generics : list Ty.t) : ST Assembly E (Interned KMethodRef) :=
  name ← alloc_string name;
  alloc_methodref {| mr_class := class; mr_name := name; mr_sig := sig; mr_kind := kind;
                     mr_generics := generics |}.

(** A row of the [bcl_class!] table: name, assembly (["System.Runtime"] unless given) and kind. *)
Definition bcl_class (name asm_name : string) (is_valuetype : bool)
    : ST Assembly E (Interned KClassRef) :=
  name ← alloc_string name;
  asm_name ← alloc_string asm_name;
  alloc_class_ref {| cr_name := name; cr_asm := Some asm_name; cr_is_valuetype := is_valuetype;
                     cr_generics := [] |}.

(** [MethodRef::stack_inputs] ([inputs()[1..]] panics on an empty constructor signature) and
    [MethodRef::output]. *)
Definition stack_inputs asm (self : MethodRef) : outcome E (list Ty.t) :=
  sig ← get_sig asm (mr_sig self);
  if bool_decide (mr_kind self = MethodKind.Constructor) then
    match inputs sig with
    | [] => Panic
    | _ :: rest => Ok rest
    end
  else Ok (inputs sig).

Definition mref_output asm (self : MethodRef) : outcome E Ty.t :=
  sig ← get_sig asm (mr_sig self);
  if bool_decide (mr_kind self = MethodKind.Constructor)
  then Ok (Ty.ClassRef (mr_class self))
  else Ok (output sig).

Definition mref_iter_types asm (self : MethodRef) : outcome E (list Ty.t) :=
  sig ← get_sig asm (mr_sig self);
  Ok (Ty.ClassRef (mr_class self) :: sig_iter_types sig ++ mr_generics self).
End Assembly_ops.
