(* ===== verification/Arenas.v ===== *)
(** * The theory of the interned IR

    How the arenas of an [Assembly] grow, what interning guarantees, and well-founded assemblies:
    every id stored in a value of an arena precedes that value, which is how values are built
    (children are interned before their parents).  Traversals of such assemblies terminate. *)

From S2P Require Import Prelude Interner Types IR.

(** ** Extension *)

(** [asm'] has every value of [asm] under the same id. *)
Record extends (asm asm' : Assembly) : Prop := {
  ext_strings : strings asm `prefix_of` strings asm';
  ext_types : types asm `prefix_of` types asm';
  ext_class_refs : class_refs asm `prefix_of` class_refs asm';
  ext_class_defs : class_defs asm = class_defs asm';
  ext_nodes : nodes asm `prefix_of` nodes asm';
  ext_roots : roots asm `prefix_of` roots asm';
  ext_sigs : sigs asm `prefix_of` sigs asm';
  ext_method_refs : method_refs asm `prefix_of` method_refs asm';
  ext_fields : fields asm `prefix_of` fields asm';
  ext_statics : statics asm `prefix_of` statics asm';
  ext_const_data : const_data asm `prefix_of` const_data asm' }.

#[export] Instance extends_preorder : PreOrder extends.
Proof.
  split.
  - intros asm. by split.
  - intros a b c [] []. split; etrans; eauto.
Qed.

#[export] Hint Extern 0 (extends ?a ?a) => reflexivity : core.

(** Closes [extends a b] by a chain of hypotheses. *)
Ltac chain := solve [repeat first [reflexivity | eassumption | etrans; [eassumption|]]].

Lemma arena_get_ok {k V E} (vs : list V) (id : Interned k) v :
  arena_get (E := E) vs id = Ok v <-> vs !! slot id = Some v.
Proof. unfold arena_get. destruct (vs !! slot id); cbn; naive_solver. Qed.

Lemma arena_get_prefix {k V E} (vs vs' : list V) (id : Interned k) v :
  vs `prefix_of` vs' -> arena_get (E := E) vs id = Ok v -> arena_get (E := E) vs' id = Ok v.
Proof. rewrite !arena_get_ok. intros. by eapply prefix_lookup_Some. Qed.

(** What one interning gives: the id names the value, ids are stable, no duplicates appear. *)
Lemma arena_intern_spec {k V} `{!EqDecision V} {E} (vs vs' : list V) v (id : Interned k) b :
  arena_intern (E := E) vs v = Ok (vs', (id, b)) ->
  (vs `prefix_of` vs') /\ vs' !! slot id = Some v /\ (NoDup vs -> NoDup vs') /\
  (vs' = vs \/ (v ∉ vs) /\ vs' = vs ++ [v] /\ slot id = length vs).
Proof.
  unfold arena_intern. destruct (arena_find vs v) as [n|] eqn:Hf.
  - destruct (id_for_zero_based n) as [i|] eqn:Hi; [|done]. intros [= <- <- _].
    apply slot_id_for_zero_based in Hi. apply arena_find_Some in Hf.
    rewrite Hi. split_and!; auto.
  - destruct (id_for_zero_based (length vs)) as [i|] eqn:Hi; [|done]. intros [= <- <- _].
    apply slot_id_for_zero_based in Hi. apply arena_find_None in Hf.
    split_and!; [by apply prefix_app_r| |intros; by apply NoDup_snoc|right; auto].
    rewrite Hi. by apply list_lookup_middle.
Qed.

(** Interning a stored value changes nothing. *)
Lemma arena_intern_known {k V} `{!EqDecision V} {E} (vs : list V) v (id : Interned k) :
  NoDup vs -> Z.of_nat (slot id) < 2 ^ 32 - 1 -> vs !! slot id = Some v ->
  arena_intern (E := E) vs v = Ok (vs, (id, false)).
Proof.
  intros Hnd Hid Hv. unfold arena_intern. rewrite (arena_find_NoDup _ _ _ Hnd Hv).
  destruct (id_for_zero_based_Some (k := k) _ Hid) as (id' & -> & Hslot).
  cbn. by rewrite (slot_inj _ _ Hslot).
Qed.

Section intern_in.
Context {E : Type}.

Ltac intern_extends :=
  let s := fresh "s" in let Hi := fresh in
  intros s; unfold intern_in;
  destruct (arena_intern _ _) as [[? [? ?]]| | |] eqn:Hi; cbn; [|reflexivity..];
  apply arena_intern_spec in Hi as (? & _); split; done.

Lemma alloc_string_extends v : steps (E := E) extends (alloc_string v).
Proof. unfold alloc_string. intern_extends. Qed.
Lemma alloc_type_extends v : steps (E := E) extends (alloc_type v).
Proof. unfold alloc_type. intern_extends. Qed.
Lemma alloc_class_ref_extends v : steps (E := E) extends (alloc_class_ref v).
Proof. unfold alloc_class_ref. intern_extends. Qed.
Lemma alloc_node_extends v : steps (E := E) extends (alloc_node v).
Proof. unfold alloc_node. intern_extends. Qed.
Lemma alloc_root_extends v : steps (E := E) extends (alloc_root v).
Proof. unfold alloc_root. intern_extends. Qed.
Lemma alloc_sig_extends v : steps (E := E) extends (alloc_sig v).
Proof. unfold alloc_sig. intern_extends. Qed.
Lemma alloc_methodref_extends v : steps (E := E) extends (alloc_methodref v).
Proof. unfold alloc_methodref. intern_extends. Qed.
Lemma alloc_field_extends v : steps (E := E) extends (alloc_field v).
Proof. unfold alloc_field. intern_extends. Qed.
Lemma alloc_sfld_extends v : steps (E := E) extends (alloc_sfld v).
Proof. unfold alloc_sfld. intern_extends. Qed.
Lemma alloc_const_data_extends v : steps (E := E) extends (alloc_const_data v).
Proof. unfold alloc_const_data. intern_extends. Qed.
End intern_in.

#[export] Hint Resolve alloc_string_extends alloc_type_extends alloc_class_ref_extends
  alloc_node_extends alloc_root_extends alloc_sig_extends alloc_methodref_extends
  alloc_field_extends alloc_sfld_extends alloc_const_data_extends : steps.

Section derived.
Context {E : Type}.

Lemma nptr_extends t : steps (E := E) extends (nptr t).
Proof. unfold nptr. steps_tac. Qed.
Lemma nref_extends t : steps (E := E) extends (nref t).
Proof. unfold nref. steps_tac. Qed.
Lemma asm_sig_extends i o : steps (E := E) extends (asm_sig i o).
Proof. unfold asm_sig. steps_tac. Qed.
Lemma bcl_class_extends n a b : steps (E := E) extends (bcl_class n a b).
Proof. unfold bcl_class. steps_tac. Qed.
Lemma new_methodref_extends c n s k g : steps (E := E) extends (new_methodref c n s k g).
Proof. unfold new_methodref. steps_tac. Qed.
End derived.

#[export] Hint Resolve nptr_extends nref_extends asm_sig_extends bcl_class_extends
  new_methodref_extends : steps.

(** What a successful [alloc_node] and [alloc_root] do, as their callers use it. *)
Lemma alloc_node_spec {E} v asm asm' (id : Interned KNode) :
  alloc_node (E := E) v asm = (asm', Ok id) ->
  extends asm asm' /\ nodes asm' !! slot id = Some v /\
  roots asm' = roots asm /\ (NoDup (nodes asm) -> NoDup (nodes asm')) /\
  (asm' = asm \/ (v ∉ nodes asm) /\ asm' = set_nodes asm (nodes asm ++ [v]) /\ slot id = length (nodes asm)).
Proof.
  pose proof (alloc_node_extends (E := E) v asm) as Hext.
  unfold alloc_node, intern_in in *.
  destruct (arena_intern _ _) as [[vs' [i b]]| | |] eqn:H; cbn in *; intros [= <- <-].
  apply arena_intern_spec in H as (_ & ? & ? & H). split_and!; try done.
  destruct H as [->|(?&->&?)]; [left|right]; auto. by destruct asm.
Qed.

Lemma alloc_node_known {E} v asm (id : Interned KNode) :
  NoDup (nodes asm) -> Z.of_nat (slot id) < 2 ^ 32 - 1 -> nodes asm !! slot id = Some v ->
  alloc_node (E := E) v asm = (asm, Ok id).
Proof.
  intros. unfold alloc_node, intern_in. rewrite (arena_intern_known _ _ id) by done.
  cbn. by destruct asm.
Qed.

Lemma get_node_ok {E} asm (id : Interned KNode) n :
  get_node (E := E) asm id = Ok n <-> nodes asm !! slot id = Some n.
Proof. apply arena_get_ok. Qed.

Lemma get_root_ok {E} asm (id : Interned KRoot) n :
  get_root (E := E) asm id = Ok n <-> roots asm !! slot id = Some n.
Proof. apply arena_get_ok. Qed.

Lemma extends_node asm asm' (id : Interned KNode) n :
  extends asm asm' -> nodes asm !! slot id = Some n -> nodes asm' !! slot id = Some n.
Proof. intros [] ?. by eapply prefix_lookup_Some. Qed.

(** ** Well-founded assemblies *)

(** [n] only stores node ids among the first [b] nodes. *)
Definition node_below (b : nat) (n : CILNode.t) : Prop :=
  Forall (fun id => (slot id < b)%nat) (CILNode.operands n).

Definition root_below (nb rb : nat) (r : CILRoot.t) : Prop :=
  Forall (fun id => (slot id < nb)%nat) (CILRoot.visit_nodes r) /\
  Forall (fun id => (slot id < rb)%nat) (CILRoot.visit_child_roots r).

#[export] Instance node_below_dec b n : Decision (node_below b n).
Proof. unfold node_below. apply _. Defined.
#[export] Instance root_below_dec nb rb r : Decision (root_below nb rb r).
Proof. unfold root_below. apply _. Defined.

(** Children precede their parents: nodes refer to earlier nodes, roots to existing nodes and
    earlier roots. *)
Record asm_wf (asm : Assembly) : Prop := {
  wf_nodes : forall i n, nodes asm !! i = Some n -> node_below i n;
  wf_roots : forall i r, roots asm !! i = Some r -> root_below (length (nodes asm)) i r }.

Lemma Forall_imap_pair {A} (P : nat -> A -> Prop) (l : list A) :
  Forall (fun p => P (fst p) (snd p)) (imap pair l) <-> forall i x, l !! i = Some x -> P i x.
Proof.
  rewrite Forall_lookup. split.
  - intros H i x Hx. apply (H i (i, x)). rewrite list_lookup_imap, Hx. done.
  - intros H i [j x]. rewrite list_lookup_imap. intros (y & Hy & [= <- ->])%fmap_Some. by apply H.
Qed.

Lemma asm_wf_alt asm :
  asm_wf asm <->
  Forall (fun p => node_below (fst p) (snd p)) (imap pair (nodes asm)) /\
  Forall (fun p => root_below (length (nodes asm)) (fst p) (snd p)) (imap pair (roots asm)).
Proof.
  rewrite (Forall_imap_pair node_below), (Forall_imap_pair (root_below (length (nodes asm)))).
  split; intros []; by split.
Qed.

#[export] Instance asm_wf_dec asm : Decision (asm_wf asm).
Proof.
  refine (cast_if (decide
    (Forall (fun p => node_below (fst p) (snd p)) (imap pair (nodes asm)) /\
     Forall (fun p => root_below (length (nodes asm)) (fst p) (snd p)) (imap pair (roots asm)))));
    abstract by rewrite asm_wf_alt.
Defined.

Lemma empty_asm_wf : asm_wf empty_assembly.
Proof. split; intros [] ?; done. Qed.

Lemma node_below_mono b b' n : (b <= b')%nat -> node_below b n -> node_below b' n.
Proof. intros. unfold node_below in *. eapply list.Forall_impl; [done|]. cbn. lia. Qed.

Lemma root_below_mono nb nb' rb r :
  (nb <= nb')%nat -> root_below nb rb r -> root_below nb' rb r.
Proof. intros ? []. split; [|done]. eapply list.Forall_impl; [done|]. cbn. lia. Qed.

Lemma node_below_operand b n c : node_below b n -> c ∈ CILNode.operands n -> (slot c < b)%nat.
Proof. unfold node_below. rewrite Forall_forall. intros H ?. apply H. by apply list_elem_of_In. Qed.

Lemma child_is_operand n c : c ∈ CILNode.visit_child_nodes n -> c ∈ CILNode.operands n.
Proof. destruct n; cbn; rewrite ?elem_of_cons; tauto. Qed.

(** An operand that is below the arena's length names a node. *)
Lemma node_below_lookup asm n c :
  node_below (length (nodes asm)) n -> c ∈ CILNode.operands n ->
  exists m, nodes asm !! slot c = Some m.
Proof. intros H Hc. apply lookup_lt_is_Some_2. by eapply node_below_operand. Qed.

(** Interning a node whose operands exist keeps the assembly well founded. *)
Lemma alloc_node_wf {E} v asm asm' (id : Interned KNode) :
  alloc_node (E := E) v asm = (asm', Ok id) ->
  asm_wf asm -> node_below (length (nodes asm)) v -> asm_wf asm'.
Proof.
  intros (_ & _ & Hr & _ & [->|(_ & -> & _)])%alloc_node_spec [Hn Hroots] Hv; [done|].
  split.
  - intros i n [Hi|[Hle [Hz <-]%list_lookup_singleton_Some]]%lookup_app_Some; [eauto|].
    by replace i with (length (nodes asm)) by lia.
  - cbn. rewrite length_app. intros i r Hi. eapply root_below_mono; [|by apply Hroots]. lia.
Qed.
