(* ===== verification/Walk.v ===== *)
(** * Traversals of the IR (cilly/src/ir/iter.rs, cilnode.rs and cilroot.rs [map])

    The explicit-stack iterator [CILIter], the type collection built on it, and the bottom-up
    rewriting traversals [CILNode::map] and [CILRoot::map], with their specifications: the
    iterator yields the pre-order of the tree, and a map keeps every compositional meaning that
    its closure keeps. *)

From S2P Require Import Prelude Interner Types IR Arenas.

(** ** [CILIter] *)

Inductive CILIterElem : Set :=
| ElemNode (n : CILNode.t)
| ElemRoot (r : CILRoot.t).

Section CILIter.
Context {E : Type}.
Implicit Types asm : Assembly.

Definition elem_children asm (elem : CILIterElem) : outcome E (list CILIterElem) :=
  match elem with
  | ElemNode node =>
      map_outcome (fun child => n ← get_node asm child; Ok (ElemNode n))
        (CILNode.visit_child_nodes node)
  | ElemRoot root =>
      ns ← map_outcome (fun child => n ← get_node asm child; Ok (ElemNode n))
             (CILRoot.visit_nodes root);
      rs ← map_outcome (fun child => r ← get_root asm child; Ok (ElemRoot r))
             (CILRoot.visit_child_roots root);
      Ok (ns ++ rs)
  end.

(** [Iterator::next]; [elems] is the stack with its top (the end of the [Vec]) at the head, so
    extending with the reversed children is putting the children in front. *)
Definition cil_iter_next asm (elems : list CILIterElem)
    : outcome E (option (CILIterElem * list CILIterElem)) :=
  match elems with
  | [] => Ok None
  | elem :: elems =>
      children ← elem_children asm elem;
      Ok (Some (elem, children ++ elems))
  end.

(** Draining the iterator. *)
Fixpoint cil_iter_collect (fuel : nat) asm (elems : list CILIterElem)
    : outcome E (list CILIterElem) :=
  match fuel with
  | O => NoFuel
  | S fuel' =>
      next ← cil_iter_next asm elems;
      match next with
      | None => Ok []
      | Some (elem, elems) => rest ← cil_iter_collect fuel' asm elems; Ok (elem :: rest)
      end
  end.

(** Specification: the pre-order of the tree below an element. *)
Fixpoint preorder (fuel : nat) asm (elem : CILIterElem) : outcome E (list CILIterElem) :=
  match fuel with
  | O => NoFuel
  | S fuel' =>
      children ← elem_children asm elem;
      below ← map_outcome (preorder fuel' asm) children;
      Ok (elem :: concat below)
  end.

(** [TpeIter::iter_types] of one element: the types its metadata names. *)
Definition elem_types asm (elem : CILIterElem) : outcome E (list Ty.t) :=
  let of_type id := t ← get_type asm id; Ok [t] in
  let of_field id := f ← get_field asm id; Ok [Ty.ClassRef (field_owner f); field_tpe f] in
  let of_static id :=
    f ← get_static_field asm id; Ok [Ty.ClassRef (static_owner f); static_tpe f] in
  let of_mref id := m ← get_mref asm id; mref_iter_types asm m in
  let of_sig id := s ← get_sig asm id; Ok (sig_iter_types s) in
  match elem with
  | ElemNode node =>
      match node with
      | CILNode.Const _ | CILNode.BinOp _ _ _ | CILNode.UnOp _ _ | CILNode.LdLoc _
      | CILNode.LdLocA _ | CILNode.LdArg _ | CILNode.LdArgA _ | CILNode.IntCast _ _ _
      | CILNode.FloatCast _ _ _ | CILNode.RefToPtr _ | CILNode.GetException
      | CILNode.LocAlloc _ | CILNode.LdLen _ | CILNode.LdElelemRef _ _ => Ok []
      | CILNode.Call method _ _ => of_mref method
      | CILNode.LdFtn method => of_mref method
      | CILNode.PtrCast _ res =>
          match res with
          | PtrCastRes.Ptr inner | PtrCastRes.Ref inner => of_type inner
          | PtrCastRes.FnPtr sig => of_sig sig
          | PtrCastRes.USize | PtrCastRes.ISize => Ok []
          end
      | CILNode.LdFieldAddress _ field | CILNode.LdField _ field => of_field field
      | CILNode.LdInd _ tpe _ => of_type tpe
      | CILNode.SizeOf tpe | CILNode.IsInst _ tpe | CILNode.CheckedCast _ tpe
      | CILNode.LdTypeToken tpe | CILNode.UnboxAny _ tpe | CILNode.Box _ tpe
      | CILNode.NewArr tpe _ | CILNode.LdElem _ _ tpe | CILNode.LocAllocAlgined tpe _ =>
          of_type tpe
      | CILNode.CallI _ sig _ => of_sig sig
      | CILNode.LdStaticField sfld | CILNode.LdStaticFieldAddress sfld => of_static sfld
      end
  | ElemRoot root =>
      match root with
      | CILRoot.StLoc _ _ | CILRoot.StArg _ _ | CILRoot.Ret _ | CILRoot.Pop _ | CILRoot.Throw _
      | CILRoot.VoidRet | CILRoot.Break | CILRoot.Nop | CILRoot.InitFragmentBoundary
      | CILRoot.Branch _ _ _ | CILRoot.SourceFileInfo _ _ _ _ _ | CILRoot.ExitSpecialRegion _ _
      | CILRoot.InitBlk _ _ _ | CILRoot.CpBlk _ _ _ | CILRoot.ReThrow
      | CILRoot.TerminateRegion _ _ | CILRoot.Unreachable _ | CILRoot.CallI _ _ _ => Ok []
      | CILRoot.SetStaticField field _ => of_static field
      | CILRoot.SetField field _ _ => of_field field
      | CILRoot.CpObj _ _ tpe | CILRoot.InitObj _ tpe | CILRoot.StElem _ _ _ tpe => of_type tpe
      | CILRoot.Call method _ _ => of_mref method
      | CILRoot.StInd _ _ tpe _ => Ok [tpe]
      end
  end.

(** [CILIter::new(elem, asm).iter_types(asm)] collected. *)
Definition iter_types (fuel : nat) asm (elem : CILIterElem) : outcome E (list Ty.t) :=
  elems ← cil_iter_collect fuel asm [elem];
  ts ← map_outcome (elem_types asm) elems;
  Ok (concat ts).
End CILIter.

(** ** [CILNode::map] and [CILRoot::map] *)

(** A state that contains the assembly: the assembly itself, or the assembly with what the closure
    of a traversal captures by [&mut]. *)
Class HasAsm (S : Type) := {
  asm_of : S -> Assembly;
  set_asm : S -> Assembly -> S;
  asm_of_set s a : asm_of (set_asm s a) = a;
  set_asm_same s : set_asm s (asm_of s) = s }.

#[export] Instance assembly_has_asm : HasAsm Assembly := {|
  asm_of s := s; set_asm _ a := a;
  asm_of_set _ _ := eq_refl; set_asm_same _ := eq_refl |}.

(** A step of the assembly within such a state. *)
Definition on_asm {S E A} `{!HasAsm S} (m : ST Assembly E A) : ST S E A :=
  fun s => let '(a, r) := m (asm_of s) in (set_asm s a, r).

Definition fetch_node {S E} `{!HasAsm S} (id : Interned KNode) : ST S E CILNode.t :=
  reads (fun s => get_node (asm_of s) id).
Definition fetch_root {S E} `{!HasAsm S} (id : Interned KRoot) : ST S E CILRoot.t :=
  reads (fun s => get_root (asm_of s) id).

Section map.
Context {S E : Type} `{!HasAsm S}.
Context (node_map : CILNode.t -> ST S E CILNode.t).

Fixpoint node_map_rec (fuel : nat) (self : CILNode.t) : ST S E CILNode.t :=
  match fuel with
  | O => no_fuel
  | Datatypes.S fuel' =>
      let mapped id := n ← fetch_node id; node_map_rec fuel' n in
      let one id (build : Interned KNode -> CILNode.t) :=
        n ← mapped id; id' ← on_asm (alloc_node n); node_map (build id') in
      let two a b (build : Interned KNode -> Interned KNode -> CILNode.t) :=
        na ← mapped a; nb ← mapped b;
        a' ← on_asm (alloc_node na); b' ← on_asm (alloc_node nb); node_map (build a' b') in
      let args := map_st (fun arg => n ← mapped arg; on_asm (alloc_node n)) in
      match self with
      | CILNode.Const _ | CILNode.LdLoc _ | CILNode.LdLocA _ | CILNode.LdArg _
      | CILNode.LdArgA _ | CILNode.SizeOf _ | CILNode.GetException
      | CILNode.LocAllocAlgined _ _ | CILNode.LdStaticField _ | CILNode.LdStaticFieldAddress _
      | CILNode.LdFtn _ | CILNode.LdTypeToken _ => node_map self
      | CILNode.BinOp lhs rhs op => two lhs rhs (fun l r => CILNode.BinOp l r op)
      | CILNode.UnOp val op => one val (fun i => CILNode.UnOp i op)
      | CILNode.Call method as_ is_pure =>
          as_ ← args as_; node_map (CILNode.Call method as_ is_pure)
      | CILNode.IntCast input target extend =>
          one input (fun i => CILNode.IntCast i target extend)
      | CILNode.FloatCast input target is_signed =>
          one input (fun i => CILNode.FloatCast i target is_signed)
      | CILNode.RefToPtr input => one input CILNode.RefToPtr
      | CILNode.PtrCast input tpe => one input (fun i => CILNode.PtrCast i tpe)
      | CILNode.LdFieldAddress addr field => one addr (fun i => CILNode.LdFieldAddress i field)
      | CILNode.LdField addr field => one addr (fun i => CILNode.LdField i field)
      | CILNode.LdInd addr tpe volatile => one addr (fun i => CILNode.LdInd i tpe volatile)
      | CILNode.IsInst object tpe => one object (fun i => CILNode.IsInst i tpe)
      | CILNode.CheckedCast object tpe => one object (fun i => CILNode.CheckedCast i tpe)
      | CILNode.CallI ptr sig as_ =>
          as_ ← args as_;
          p ← mapped ptr; ptr ← on_asm (alloc_node p); node_map (CILNode.CallI ptr sig as_)
      | CILNode.LocAlloc size => one size CILNode.LocAlloc
      | CILNode.LdLen input => one input CILNode.LdLen
      | CILNode.LdElelemRef array index => two array index CILNode.LdElelemRef
      | CILNode.LdElem array index elem => two array index (fun a i => CILNode.LdElem a i elem)
      | CILNode.UnboxAny object tpe => one object (fun i => CILNode.UnboxAny i tpe)
      | CILNode.Box value tpe => one value (fun i => CILNode.Box i tpe)
      | CILNode.NewArr elem len => one len (fun i => CILNode.NewArr elem i)
      end
  end.

Context (root_map : CILRoot.t -> ST S E CILRoot.t).

Fixpoint root_map_rec (fuel : nat) (self : CILRoot.t) : ST S E CILRoot.t :=
  match fuel with
  | O => no_fuel
  | Datatypes.S fuel' =>
      let mapped id := n ← fetch_node id; node_map_rec fuel' n in
      let one id (build : Interned KNode -> CILRoot.t) :=
        n ← mapped id; id' ← on_asm (alloc_node n); root_map (build id') in
      let two a b (build : Interned KNode -> Interned KNode -> CILRoot.t) :=
        na ← mapped a; nb ← mapped b;
        a' ← on_asm (alloc_node na); b' ← on_asm (alloc_node nb); root_map (build a' b') in
      let three a b c (build : Interned KNode -> Interned KNode -> Interned KNode -> CILRoot.t) :=
        na ← mapped a; nb ← mapped b; nc ← mapped c;
        a' ← on_asm (alloc_node na); b' ← on_asm (alloc_node nb); c' ← on_asm (alloc_node nc); root_map (build a' b' c') in
      let args := map_st (fun arg => n ← mapped arg; on_asm (alloc_node n)) in
      match self with
      | CILRoot.StLoc loc val => one val (CILRoot.StLoc loc)
      | CILRoot.StArg arg val => one val (CILRoot.StArg arg)
      | CILRoot.Ret ret => one ret CILRoot.Ret
      | CILRoot.InitObj addr tpe => one addr (fun i => CILRoot.InitObj i tpe)
      | CILRoot.Pop pop => one pop CILRoot.Pop
      | CILRoot.Throw throw => one throw CILRoot.Throw
      | CILRoot.SourceFileInfo _ _ _ _ _ | CILRoot.VoidRet | CILRoot.Break | CILRoot.Nop
      | CILRoot.InitFragmentBoundary | CILRoot.ExitSpecialRegion _ _ | CILRoot.ReThrow
      | CILRoot.Unreachable _ => root_map self
      | CILRoot.TerminateRegion protected reason =>
          r ← fetch_root protected; inner ← root_map_rec fuel' r;
          protected ← on_asm (alloc_root inner); root_map (CILRoot.TerminateRegion protected reason)
      | CILRoot.Branch a b cond =>
          let cond1 id (build : Interned KNode -> BranchCond.t) :=
            one id (fun i => CILRoot.Branch a b (Some (build i))) in
          let cond2 l r (build : Interned KNode -> Interned KNode -> BranchCond.t) :=
            two l r (fun i j => CILRoot.Branch a b (Some (build i j))) in
          match cond with
          | Some (BranchCond.IsTrue tr) => cond1 tr BranchCond.IsTrue
          | Some (BranchCond.IsFalse fl) => cond1 fl BranchCond.IsFalse
          | Some (BranchCond.Eq l r) => cond2 l r BranchCond.Eq
          | Some (BranchCond.Ne l r) => cond2 l r BranchCond.Ne
          | Some (BranchCond.Lt l r k) => cond2 l r (fun i j => BranchCond.Lt i j k)
          | Some (BranchCond.Gt l r k) => cond2 l r (fun i j => BranchCond.Gt i j k)
          | Some (BranchCond.Le l r k) => cond2 l r (fun i j => BranchCond.Le i j k)
          | Some (BranchCond.Ge l r k) => cond2 l r (fun i j => BranchCond.Ge i j k)
          | None => root_map (CILRoot.Branch a b None)
          end
      | CILRoot.SetStaticField field val => one val (CILRoot.SetStaticField field)
      | CILRoot.SetField field addr val => two addr val (CILRoot.SetField field)
      | CILRoot.Call method as_ is_pure =>
          as_ ← args as_; root_map (CILRoot.Call method as_ is_pure)
      | CILRoot.StInd addr val tpe volatile =>
          two addr val (fun a v => CILRoot.StInd a v tpe volatile)
      | CILRoot.CpObj src dst tpe => two src dst (fun s d => CILRoot.CpObj s d tpe)
      | CILRoot.InitBlk dst val count => three dst val count CILRoot.InitBlk
      | CILRoot.CpBlk dst src len => three dst src len CILRoot.CpBlk
      | CILRoot.CallI ptr sig as_ =>
          as_ ← args as_;
          p ← mapped ptr; ptr ← on_asm (alloc_node p); root_map (CILRoot.CallI ptr sig as_)
      | CILRoot.StElem array index value elem =>
          three array index value (fun a i v => CILRoot.StElem a i v elem)
      end
  end.
End map.
