(* ===== verification/MapTheory.v ===== *)
(** * Correctness of [CILNode::map]

    [CILNode::map] terminates on well-founded assemblies, is the identity for the identity
    closure, and keeps every compositional meaning of nodes that its closure keeps, up to a
    refinement preorder. *)

From S2P Require Import Prelude Interner Types IR Arenas Walk.

Definition no_id {k} : Interned k := 1%positive.

(** A node with its operand ids erased: what is left when the operands are given as values. *)
Definition skeleton (n : CILNode.t) : CILNode.t :=
  match n with
  | CILNode.BinOp _ _ op => CILNode.BinOp no_id no_id op
  | CILNode.UnOp _ op => CILNode.UnOp no_id op
  | CILNode.Call m args p => CILNode.Call m ((fun _ => no_id) <$> args) p
  | CILNode.IntCast _ t e => CILNode.IntCast no_id t e
  | CILNode.FloatCast _ t s => CILNode.FloatCast no_id t s
  | CILNode.RefToPtr _ => CILNode.RefToPtr no_id
  | CILNode.PtrCast _ r => CILNode.PtrCast no_id r
  | CILNode.LdFieldAddress _ f => CILNode.LdFieldAddress no_id f
  | CILNode.LdField _ f => CILNode.LdField no_id f
  | CILNode.LdInd _ t v => CILNode.LdInd no_id t v
  | CILNode.IsInst _ t => CILNode.IsInst no_id t
  | CILNode.CheckedCast _ t => CILNode.CheckedCast no_id t
  | CILNode.CallI _ s args => CILNode.CallI no_id s ((fun _ => no_id) <$> args)
  | CILNode.LocAlloc _ => CILNode.LocAlloc no_id
  | CILNode.LdLen _ => CILNode.LdLen no_id
  | CILNode.LdElelemRef _ _ => CILNode.LdElelemRef no_id no_id
  | CILNode.LdElem _ _ e => CILNode.LdElem no_id no_id e
  | CILNode.UnboxAny _ t => CILNode.UnboxAny no_id t
  | CILNode.NewArr e _ => CILNode.NewArr e no_id
  | CILNode.Box _ t => CILNode.Box no_id t
  | CILNode.Const _ | CILNode.LdLoc _ | CILNode.LdLocA _ | CILNode.LdArg _ | CILNode.LdArgA _
  | CILNode.SizeOf _ | CILNode.GetException | CILNode.LdStaticField _
  | CILNode.LdStaticFieldAddress _ | CILNode.LdFtn _ | CILNode.LdTypeToken _
  | CILNode.LocAllocAlgined _ _ => n
  end.

(** ** Compositional meanings *)

Section meaning.
Context {V : Type} (R : relation V) `{!PreOrder R}.
(** The meaning of a node from those of its operands; [None] when it has none. *)
Context (alg : CILNode.t -> list V -> option V).
Context (alg_mono : forall n vs ws v, Forall2 R vs ws -> alg n vs = Some v ->
                    exists w, alg n ws = Some w /\ R v w).

Fixpoint denote (fuel : nat) (asm : Assembly) (n : CILNode.t) : option V :=
  match fuel with
  | O => None
  | S fuel' =>
      vs ← mapM (fun id => m ← nodes asm !! slot id; denote fuel' asm m) (CILNode.operands n);
      alg (skeleton n) vs
  end.

Definition denote_id (fuel : nat) (asm : Assembly) (id : Interned KNode) : option V :=
  m ← nodes asm !! slot id; denote fuel asm m.

Lemma denote_S k asm n :
  denote (S k) asm n = (vs ← mapM (denote_id k asm) (CILNode.operands n); alg (skeleton n) vs).
Proof. done. Qed.

Lemma denote_prefix k k' asm asm' n v :
  (k <= k')%nat -> nodes asm `prefix_of` nodes asm' -> denote k asm n = Some v -> denote k' asm' n = Some v.
Proof.
  intros Hk Hext. revert k' n v Hk. induction k as [|k IH]; intros [|k'] n v Hk; try done; [lia|].
  rewrite !denote_S. intros (vs & Hvs & Hv)%bind_Some. apply bind_Some. exists vs.
  split; [|done]. apply mapM_Some in Hvs. apply mapM_Some.
  eapply list.Forall2_impl; [exact Hvs|]. intros id w (m & Hm & Hw)%bind_Some. apply bind_Some.
  exists m. split; [by eapply prefix_lookup_Some|]. apply IH; [lia|done].
Qed.

Lemma denote_mono k k' asm asm' n v :
  (k <= k')%nat -> extends asm asm' -> denote k asm n = Some v -> denote k' asm' n = Some v.
Proof. intros Hk Hext. apply denote_prefix; [done|apply Hext]. Qed.

Lemma denote_id_mono k k' asm asm' id v :
  (k <= k')%nat -> extends asm asm' -> denote_id k asm id = Some v -> denote_id k' asm' id = Some v.
Proof.
  intros Hk Hext (m & Hm & Hw)%bind_Some. apply bind_Some.
  exists m. split; [by eapply extends_node|by eapply denote_mono].
Qed.

(** [n'] in [asm'] refines [n] in [asm]. *)
Definition refines asm n asm' n' : Prop :=
  forall k v, denote k asm n = Some v -> exists k' v', denote k' asm' n' = Some v' /\ R v v'.
Definition refines_id asm id asm' id' : Prop :=
  forall k v, denote_id k asm id = Some v -> exists k' v', denote_id k' asm' id' = Some v' /\ R v v'.

Lemma refines_refl asm n : refines asm n asm n.
Proof. intros k v H. exists k, v. done. Qed.

Lemma refines_extends asm0 asm asm' asm'' n n' :
  extends asm0 asm -> refines asm n asm' n' -> extends asm' asm'' -> refines asm0 n asm'' n'.
Proof.
  intros H0 H H' k v Hv. destruct (H k v) as (k' & v' & Hv' & HR); [by eapply denote_mono|].
  exists k', v'. split; [by eapply denote_mono|done].
Qed.

Lemma refines_trans asm asm' asm'' n n' n'' :
  refines asm n asm' n' -> refines asm' n' asm'' n'' -> refines asm n asm'' n''.
Proof.
  intros H H' k v (k1 & v1 & (k2 & v2 & ? & ?)%H' & ?)%H. exists k2, v2. split; [done|by etrans].
Qed.

Lemma refines_id_extends asm0 asm asm' asm'' id id' :
  extends asm0 asm -> refines_id asm id asm' id' -> extends asm' asm'' ->
  refines_id asm0 id asm'' id'.
Proof.
  intros H0 H H' k v Hv. destruct (H k v) as (k' & v' & Hv' & HR); [by eapply denote_id_mono|].
  exists k', v'. split; [by eapply denote_id_mono|done].
Qed.

(** Congruence: rebuilding a node over refined operands refines it. *)
Lemma refines_rebuild asm asm' n n' :
  skeleton n' = skeleton n ->
  Forall2 (fun a b => refines_id asm a asm' b) (CILNode.operands n) (CILNode.operands n') ->
  refines asm n asm' n'.
Proof.
  intros Hsk Hops [|k] v; [done|]. rewrite denote_S. intros (vs & Hvs & Hv)%bind_Some.
  apply mapM_Some in Hvs.
  assert (exists k' ws, Forall2 (fun b w => denote_id k' asm' b = Some w) (CILNode.operands n') ws
                        /\ Forall2 R vs ws) as (k' & ws & Hws & HR).
  { clear Hsk Hv. revert vs Hvs.
    induction Hops as [|a b l l' Hab _ IH]; intros vs Hvs.
    - apply Forall2_nil_inv_l in Hvs as ->. exists 0%nat, []. done.
    - apply Forall2_cons_inv_l in Hvs as (u & us & Hu & Hus & ->).
      destruct (IH us Hus) as (k1 & ws & Hws & HR). destruct (Hab _ _ Hu) as (k2 & w & Hw & HRw).
      exists (k1 `max` k2)%nat, (w :: ws). split; constructor; try done.
      + apply (denote_id_mono k2 _ asm' asm'); [lia|done..].
      + eapply list.Forall2_impl; [exact Hws|]. intros. apply (denote_id_mono k1 _ asm' asm'); [lia|done..]. }
  destruct (alg_mono _ _ _ _ HR Hv) as (w & Hw & HRw).
  exists (S k'), w. split; [|done]. rewrite denote_S, Hsk. apply bind_Some. exists ws.
  split; [|done]. by apply mapM_Some.
Qed.
End meaning.

(** ** The shape of a mapping step *)

(** Growth of the assembly within a state. *)
Definition grows {S} `{!HasAsm S} (s s' : S) : Prop := extends (asm_of s) (asm_of s').

#[export] Instance grows_preorder {S} `{!HasAsm S} : PreOrder (grows (S := S)).
Proof. split; [intros s; unfold grows; reflexivity|intros ??? H H'; unfold grows in *; by etrans]. Qed.

#[export] Hint Extern 0 (grows ?a ?a) => reflexivity : core.

Lemma on_asm_grows {S E A} `{!HasAsm S} (m : ST Assembly E A) :
  steps extends m -> steps grows (on_asm (S := S) m).
Proof.
  intros Hm s. unfold grows, on_asm. specialize (Hm (asm_of s)).
  destruct (m (asm_of s)) as [a r]. cbn. by rewrite asm_of_set.
Qed.

Lemma on_asm_ok {S E A} `{!HasAsm S} (m : ST Assembly E A) s s' a :
  on_asm (S := S) m s = (s', Ok a) -> m (asm_of s) = (asm_of s', Ok a).
Proof.
  unfold on_asm. destruct (m (asm_of s)) as [asm r]. intros [= <- ->]. by rewrite asm_of_set.
Qed.

Lemma on_asm_same {S E A} `{!HasAsm S} (m : ST Assembly E A) s a :
  m (asm_of s) = (asm_of s, Ok a) -> on_asm (S := S) m s = (s, Ok a).
Proof. unfold on_asm. intros ->. by rewrite set_asm_same. Qed.

Section map_shape.
Context {S E : Type} `{!HasAsm S} (f : CILNode.t -> ST S E CILNode.t).
(** How a step may move the state: at least the assembly only grows. *)
Context (G : relation S) `{!PreOrder G} (G_grows : forall s s', G s s' -> grows s s').
Context (G_on_asm : forall A (m : ST Assembly E A), steps extends m -> steps G (on_asm (S := S) m)).
Context (f_steps : forall n, steps G (f n)).

Hint Resolve f_steps : steps.

Lemma node_map_rec_steps fuel n : steps G (node_map_rec f fuel n).
Proof.
  revert n. induction fuel as [|fuel IH]; intros n; cbn [node_map_rec]; [steps_tac|].
  assert (forall id, steps G (n ← fetch_node (E := E) id; node_map_rec f fuel n)) as Hm.
  { intros id. unfold fetch_node. apply steps_bind; [steps_tac..|done]. }
  destruct n; cbv zeta; steps_tac; by apply steps_map_st; steps_tac.
Qed.

Lemma fetch_map_steps fuel c : steps G (n ← fetch_node c; node_map_rec f fuel n).
Proof.
  unfold fetch_node. apply steps_bind; [steps_tac..|]. intros. apply node_map_rec_steps.
Qed.

(** [c] was replaced by [c']: mapped in a later state and interned by [asm']. *)
Definition mapped fuel asm asm' (c c' : Interned KNode) : Prop :=
  exists s s' m m', G asm s /\ nodes (asm_of s) !! slot c = Some m /\
    node_map_rec f fuel m s = (s', Ok m') /\ G s' asm' /\ nodes (asm_of asm') !! slot c' = Some m'.

Lemma mapped_extends fuel asm0 asm asm1 asm2 c c' :
  G asm0 asm -> mapped fuel asm asm1 c c' -> G asm1 asm2 -> mapped fuel asm0 asm2 c c'.
Proof.
  intros Ha (s & s' & m & m' & ? & ? & ? & ? & ?) Hb. exists s, s', m, m'.
  split_and!; try done; [by etrans|by etrans|by eapply extends_node; [apply G_grows|]].
Qed.

Lemma fetch_map_ok fuel c asm s' m' :
  (n ← fetch_node c; node_map_rec f fuel n) asm = (s', Ok m') ->
  G asm s' /\
  exists m, nodes (asm_of asm) !! slot c = Some m /\ node_map_rec f fuel m asm = (s', Ok m').
Proof.
  intros (s1 & m & Hf & Hm)%st_bind_ok. unfold fetch_node, reads in Hf. injection Hf as <- Hf.
  apply get_node_ok in Hf. split; [|eauto].
  pose proof (node_map_rec_steps fuel m asm) as H. by rewrite Hm in H.
Qed.

Lemma alloc_steps m s2 s3 c' : on_asm (E := E) (alloc_node m) s2 = (s3, Ok c') -> G s2 s3.
Proof. intros H. pose proof (G_on_asm _ _ (alloc_node_extends m) s2) as Hg. by rewrite H in Hg. Qed.

Lemma alloc_mapped fuel asm s1 m' c s2 s3 c' :
  (n ← fetch_node c; node_map_rec f fuel n) asm = (s1, Ok m') ->
  G s1 s2 -> on_asm (E := E) (alloc_node m') s2 = (s3, Ok c') ->
  G asm s3 /\ G s2 s3 /\ mapped fuel asm s3 c c'.
Proof.
  intros [Ha (m & Hm & Hr)]%fetch_map_ok Hb H. pose proof (alloc_steps _ _ _ _ H) as Hd.
  apply on_asm_ok, alloc_node_spec in H as (_ & Hc' & _).
  split_and!; [by etrans; [|etrans]|done|].
  exists asm, s1, m, m'. split_and!; try done. by etrans.
Qed.

Lemma args_mapped fuel l asm asm' l' :
  map_st (fun arg => n ← (n ← fetch_node arg; node_map_rec f fuel n); on_asm (alloc_node n)) l asm =
    (asm', Ok l') ->
  G asm asm' /\ Forall2 (mapped fuel asm asm') l l'.
Proof.
  revert asm asm' l'. induction l as [|c l IH]; intros asm asm' l'; cbn [map_st].
  - intros [= <- <-]. by split; [|constructor].
  - intros (s1 & c' & (s0 & m' & H0 & Hc')%st_bind_ok & H)%st_bind_ok.
    apply st_bind_ok in H as (s2 & cs' & [H2 Hcs]%IH & [= <- <-]).
    destruct (alloc_mapped _ _ _ _ _ s0 s1 c' H0) as (Ha & _ & Hb); [done..|].
    split; [by etrans|]. constructor; [by eapply mapped_extends; [|exact Hb|]|].
    eapply list.Forall2_impl; [exact Hcs|]. intros ?? Hx. by eapply mapped_extends; [|exact Hx|].
Qed.

Ltac forall2 := repeat first [apply Forall2_nil_2 | apply Forall2_cons_2].

(** One unfolding of [CILNode::map]: the operands are replaced one for one, nothing else of the
    node changes, and the closure is applied last, to the rebuilt node. *)
Lemma node_map_shape fuel n asm asm' n' :
  node_map_rec f (Datatypes.S fuel) n asm = (asm', Ok n') ->
  exists asm1 n1, G asm asm1 /\ skeleton n1 = skeleton n /\
    Forall2 (mapped fuel asm asm1) (CILNode.operands n) (CILNode.operands n1) /\
    f n1 asm1 = (asm', Ok n').
Proof.
  assert (forall l l' asm asm1, Forall2 (mapped fuel asm asm1) l l' ->
            (fun _ => @no_id KNode) <$> l' = (fun _ => no_id) <$> l) as Hlen.
  { induction 1; cbn; f_equal; done. }
  cbn [node_map_rec]. cbv zeta. destruct n; intros H.
  all: try (exists asm; eexists; split_and!; [reflexivity|done|constructor|exact H]).
  all: try (apply st_bind_ok in H as (s1 & m1 & H1 & H);
            apply st_bind_ok in H as (s2 & c1 & H2 & H);
            destruct (alloc_mapped _ _ _ _ _ _ _ _ H1 ltac:(done) H2) as (? & _ & ?);
            exists s2; eexists; split_and!; [done| | |exact H]; [done|by forall2]).
  all: try (apply st_bind_ok in H as (s1 & m1 & H1 & H);
            apply st_bind_ok in H as (s2 & m2 & H2 & H);
            apply st_bind_ok in H as (s3 & c1 & H3 & H);
            apply st_bind_ok in H as (s4 & c2 & H4 & H);
            pose proof (fetch_map_ok _ _ _ _ _ H1) as [? _];
            pose proof (fetch_map_ok _ _ _ _ _ H2) as [? _];
            destruct (alloc_mapped _ _ _ _ _ _ _ _ H1 ltac:(done) H3) as (? & ? & ?);
            destruct (alloc_mapped _ _ _ _ _ _ _ _ H2 ltac:(done) H4) as (? & ? & ?);
            exists s4; eexists; split_and!; [chain| | |exact H]; [done|];
            forall2; (eapply mapped_extends; [|eassumption|]; chain)).
  - apply st_bind_ok in H as (s1 & l & [Hx1 Hx2]%args_mapped & H).
    exists s1; eexists; split_and!; [done| | |exact H]; [|done]. cbn. f_equal. by eapply Hlen.
  - apply st_bind_ok in H as (s1 & l & [Hx1 Hx2]%args_mapped & H).
    apply st_bind_ok in H as (s2 & m1 & H1 & H). apply st_bind_ok in H as (s3 & c1 & H2 & H).
    pose proof (fetch_map_ok _ _ _ _ _ H1) as [? _].
    destruct (alloc_mapped _ _ _ _ _ _ _ _ H1 ltac:(done) H2) as (? & ? & ?).
    exists s3; eexists; split_and!; [chain| | |exact H]; [cbn; f_equal; by eapply Hlen|].
    apply Forall2_cons_2; [by eapply mapped_extends; [|eassumption|]|].
    eapply list.Forall2_impl; [done|]. intros ?? Hx. eapply mapped_extends; [|exact Hx|]; [done|].
    chain.
Qed.

Section map_meaning.
Context {V : Type} (R : relation V) `{!PreOrder R} (alg : CILNode.t -> list V -> option V).
Context (alg_mono : forall n vs ws v, Forall2 R vs ws -> alg n vs = Some v ->
                    exists w, alg n ws = Some w /\ R v w).

Lemma map_refines (final : Assembly) fuel n s s' n' :
  (forall n s1 s' n', G s s1 -> f n s1 = (s', Ok n') -> extends (asm_of s') final ->
     refines R alg (asm_of s1) n (asm_of s') n') ->
  extends (asm_of s') final ->
  node_map_rec f fuel n s = (s', Ok n') -> refines R alg (asm_of s) n (asm_of s') n'.
Proof.
  intros Hf. revert n s Hf s' n'.
  induction fuel as [|fuel IH]; intros n s Hf s' n' Hfin; [done|].
  intros (s1 & n1 & Hext & Hsk & Hops & Hlast)%node_map_shape.
  assert (Hg : G s1 s') by (pose proof (f_steps n1 s1) as Hg; by rewrite Hlast in Hg).
  eapply refines_trans; [done| |by eapply Hf].
  apply refines_rebuild; [done..|]. eapply list.Forall2_impl; [exact Hops|].
  intros c c' (t & t' & m & m' & Hs & Hm & Hr & Hs' & Hm') k v (m0 & Hm0 & Hv)%bind_Some.
  pose proof (G_grows _ _ Hs) as Hst. pose proof (G_grows _ _ Hs') as Hst'.
  pose proof (G_grows _ _ Hg) as Hst1. unfold grows in Hst, Hst', Hst1.
  rewrite (extends_node _ _ _ _ Hst Hm0) in Hm. injection Hm as ->.
  destruct (IH m t ltac:(intros; eapply Hf; [|done..]; by etrans) t' m'
              ltac:(by etrans; [|etrans]) Hr k v)
    as (k' & v' & Hv' & HR); [by eapply denote_mono|].
  exists k', v'. split; [|done]. unfold denote_id. rewrite Hm'. by eapply denote_mono.
Qed.

End map_meaning.
End map_shape.

Section map_theory.
Context {S E : Type} `{!HasAsm S} (f : CILNode.t -> ST S E CILNode.t).
Context (f_extends : forall n, steps grows (f n)).

Section node_map_refines.
Context {V : Type} (R : relation V) `{!PreOrder R} (alg : CILNode.t -> list V -> option V).
Context (alg_mono : forall n vs ws v, Forall2 R vs ws -> alg n vs = Some v ->
                    exists w, alg n ws = Some w /\ R v w).

(** C35: if the closure refines the meaning of every node it rewrites on the way to the final
    assembly, in any compositional semantics and up to any refinement preorder, so does
    [CILNode::map]. *)
Theorem node_map_refines (final : Assembly) fuel n s s' n' :
  (forall n s s' n', f n s = (s', Ok n') -> extends (asm_of s') final ->
     refines R alg (asm_of s) n (asm_of s') n') ->
  extends (asm_of s') final ->
  node_map_rec f fuel n s = (s', Ok n') -> refines R alg (asm_of s) n (asm_of s') n'.
Proof.
  intros Hf. apply (map_refines f grows); [done|intros; by apply on_asm_grows|apply f_extends|done..|].
  intros m s1 s2 m' _. apply Hf.
Qed.
End node_map_refines.

Lemma fetch_map_extends fuel c : steps grows (n ← fetch_node c; node_map_rec f fuel n).
Proof. apply fetch_map_steps; [apply _|intros; by apply on_asm_grows|done]. Qed.

Lemma fuelled_st_bind {A B} (m : ST S E A) (g : A -> ST S E B) s0 s :
  steps grows m -> grows s0 s -> fuelled (snd (m s)) ->
  (forall a s, grows s0 s -> fuelled (snd (g a s))) -> fuelled (snd ((m ≫= g) s)).
Proof.
  intros Hs Hext Hm Hg. unfold mbind, ST_bind. specialize (Hs s).
  destruct (m s) as [s' []]; try done. apply Hg. by etrans.
Qed.

Lemma fuelled_alloc_node v s : fuelled (snd (on_asm (S := S) (alloc_node (E := E) v) s)).
Proof.
  unfold on_asm, alloc_node, intern_in, arena_intern.
  by repeat case_match; cbn in *; simplify_eq; destruct (id_for_zero_based _).
Qed.

Lemma alloc_grows v : steps grows (on_asm (S := S) (alloc_node (E := E) v)).
Proof. apply on_asm_grows, alloc_node_extends. Qed.

Lemma fuelled_args (g : Interned KNode -> ST S E CILNode.t) s0 l s :
  (forall c, steps grows (g c)) -> grows s0 s ->
  (forall c s, c ∈ l -> grows s0 s -> fuelled (snd (g c s))) ->
  fuelled (snd (map_st (fun arg => n ← g arg; on_asm (alloc_node n)) l s)).
Proof.
  intros Hs. revert s. induction l as [|c l IH]; intros s Hext Hg; cbn [map_st]; [done|].
  eapply (fuelled_st_bind _ _ s0); [|done| |].
  - apply steps_bind; [apply _|apply Hs|intros; apply alloc_grows].
  - eapply (fuelled_st_bind _ _ s0); [apply Hs|done|apply Hg; [set_solver|done]|].
    intros. apply fuelled_alloc_node.
  - intros c' s1 Hs'. eapply (fuelled_st_bind _ _ s0); [|done|apply IH; [done|]|].
    + apply steps_map_st; [apply _|]. intros. apply steps_bind; [apply _|apply Hs|].
      intros. apply alloc_grows.
    + intros. apply Hg; [set_solver|done].
    + done.
Qed.

Ltac fuel_tac s0 Hm Hf :=
  repeat (intros; match goal with
  | |- fuelled (snd (f _ _)) => apply Hf
  | |- fuelled (snd (on_asm (alloc_node _) _)) => apply fuelled_alloc_node
  | |- fuelled (snd ((fetch_node _ ≫= _) _)) => apply Hm; [set_solver|done]
  | |- fuelled (snd (map_st _ _ _)) =>
      apply (fuelled_args _ s0); [|done|intros; apply Hm; [set_solver|done]]
  | |- fuelled (snd ((_ ≫= _) _)) => eapply (fuelled_st_bind _ _ s0); [|done| |]
  | |- steps _ (map_st _ _) => apply steps_map_st; [apply _|]
  | |- steps _ (fetch_node _ ≫= _) => apply fetch_map_extends
  | |- steps _ (_ ≫= _) => apply steps_bind; [apply _| |]
  | |- steps _ (on_asm (alloc_node _)) => apply alloc_grows
  end).

(** [CILNode::map] of a node whose operands are among the first [b] nodes of a well-founded
    assembly recurses at most [b + 1] deep, whatever the closure interns in the meantime. *)
Lemma node_map_terminates s0 b fuel n s :
  (forall n s, fuelled (snd (f n s))) ->
  asm_wf (asm_of s0) -> (b <= length (nodes (asm_of s0)))%nat -> node_below b n ->
  (b < fuel)%nat -> grows s0 s -> fuelled (snd (node_map_rec f fuel n s)).
Proof.
  intros Hf [Hwf _]. revert b n s.
  induction fuel as [|fuel IH]; intros b n s Hb Hn Hlt Hext; [lia|].
  assert (Hm : forall c s, c ∈ CILNode.operands n -> grows s0 s ->
            fuelled (snd ((n ← fetch_node c; node_map_rec f fuel n) s))).
  { intros c s1 Hc H1. pose proof (node_below_operand _ _ _ Hn Hc).
    destruct (lookup_lt_is_Some_2 (nodes (asm_of s0)) (slot c)) as [m Hm]; [lia|].
    unfold mbind, ST_bind, fetch_node, reads.
    rewrite (proj2 (get_node_ok (asm_of s1) c m)) by by eapply extends_node.
    apply (IH (slot c)); [lia|by eapply Hwf|lia|done]. }
  cbn [node_map_rec]. cbv zeta.
  destruct n; try apply Hf; cbn in Hm; fuel_tac s0 Hm Hf.
Qed.
End map_theory.

(** ** The identity closure *)

Definition ident {S E} (n : CILNode.t) : ST S E CILNode.t := mret n.

Section map_identity.
Context {S E : Type} `{!HasAsm S}.

(** The interner invariant the identity needs: no duplicates, ids within [u32]. *)
Definition nodes_interned (asm : Assembly) : Prop :=
  NoDup (nodes asm) /\ Z.of_nat (length (nodes asm)) < 2 ^ 32 - 1.

Lemma alloc_node_again s (c : Interned KNode) m :
  nodes_interned (asm_of s) -> nodes (asm_of s) !! slot c = Some m ->
  on_asm (S := S) (alloc_node (E := E) m) s = (s, Ok c).
Proof.
  intros [? ?] Hm. apply on_asm_same, alloc_node_known; [done| |done].
  apply lookup_lt_Some in Hm. lia.
Qed.

(** Mapping the identity over a node of a well-founded assembly gives the node back and
    interns nothing new. *)
Lemma node_map_identity (s : S) b fuel n :
  asm_wf (asm_of s) -> nodes_interned (asm_of s) -> (b <= length (nodes (asm_of s)))%nat ->
  node_below b n -> (b < fuel)%nat -> node_map_rec (E := E) ident fuel n s = (s, Ok n).
Proof.
  intros [Hwf _] Hint. revert b n. induction fuel as [|fuel IH]; intros b n Hb Hn Hlt; [lia|].
  assert (Hc : forall c, c ∈ CILNode.operands n -> exists m, nodes (asm_of s) !! slot c = Some m /\
            (n ← fetch_node c; node_map_rec (E := E) ident fuel n) s = (s, Ok m)).
  { intros c Hc. pose proof (node_below_operand _ _ _ Hn Hc).
    destruct (lookup_lt_is_Some_2 (nodes (asm_of s)) (slot c)) as [m Hm]; [lia|].
    exists m. split; [done|]. unfold mbind, ST_bind, fetch_node, reads.
    rewrite (proj2 (get_node_ok (asm_of s) c m) Hm). apply (IH (slot c)); [lia|by eapply Hwf|lia]. }
  assert (Hargs : forall l, (forall c, c ∈ l -> c ∈ CILNode.operands n) ->
    map_st (fun arg => n ← (n ← fetch_node arg; node_map_rec (E := E) ident fuel n); on_asm (alloc_node n)) l s =
    (s, Ok l)).
  { intros l Hl. induction l as [|c l IHl]; cbn [map_st]; [done|].
    destruct (Hc c) as (m & Hm & Hr); [apply Hl; set_solver|].
    apply st_bind_ok. exists s, c. split; [apply st_bind_ok; eauto using alloc_node_again|].
    apply st_bind_ok. exists s, l. split; [apply IHl; set_solver|done]. }
  cbn [node_map_rec]. cbv zeta. destruct n; try done; cbn in Hc, Hargs.
  all: try (apply st_bind_ok; exists s; eexists; split; [by apply Hargs|done]).
  all: try (edestruct Hc as (m & Hm & Hr); [apply list_elem_of_singleton; reflexivity|];
            repeat (apply st_bind_ok; do 2 eexists;
                    split; [first [exact Hr|by apply alloc_node_again]|]); done).
  all: try (destruct (Hc lhs) as (m1 & Hm1 & Hr1); [set_solver|];
            destruct (Hc rhs) as (m2 & Hm2 & Hr2); [set_solver|]).
  all: try (destruct (Hc array) as (m1 & Hm1 & Hr1); [set_solver|];
            destruct (Hc index) as (m2 & Hm2 & Hr2); [set_solver|]).
  all: try (apply st_bind_ok; do 2 eexists; split; [exact Hr1|];
            apply st_bind_ok; do 2 eexists; split; [exact Hr2|];
            apply st_bind_ok; do 2 eexists; split; [by apply alloc_node_again|];
            apply st_bind_ok; do 2 eexists; split; [by apply alloc_node_again|]; done).
  apply st_bind_ok. exists s, args. split; [apply Hargs; set_solver|].
  destruct (Hc fn_ptr) as (m & Hm & Hr); [set_solver|].
  apply st_bind_ok; do 2 eexists; split; [exact Hr|].
  apply st_bind_ok; do 2 eexists; split; [by apply alloc_node_again|done].
Qed.
End map_identity.

(** ** Witnesses *)

(** [ldarg.0 + ldloc.1] and the return of its negation, in interning order. *)
Definition sample_asm : Assembly :=
  set_roots (set_nodes empty_assembly
    [CILNode.LdArg 0; CILNode.LdLoc 1; CILNode.BinOp 1%positive 2%positive BinOp.Add; CILNode.UnOp 3%positive UnOp.Neg])
    [CILRoot.Ret 4%positive; CILRoot.TerminateRegion 1%positive 0].

(** A meaning for the sample: integers, with arguments and locals reading as their number. *)
Definition sample_alg (n : CILNode.t) (vs : list Z) : option Z :=
  match n, vs with
  | CILNode.LdArg a, [] | CILNode.LdLoc a, [] => Some a
  | CILNode.BinOp _ _ BinOp.Add, [a; b] => Some (a + b)
  | CILNode.UnOp _ UnOp.Neg, [a] => Some (- a)
  | _, _ => None
  end.

Lemma node_map_terminates_witness :
  asm_wf sample_asm /\
  fuelled (snd (node_map_rec (S := Assembly) (E := unit) ident 4 (CILNode.UnOp 3%positive UnOp.Neg) sample_asm)).
Proof.
  split; [by_decide|].
  apply (node_map_terminates (S := Assembly) ident ltac:(intros; apply steps_ret; apply _) sample_asm 3);
    [done|by_decide|cbn; lia| |lia|done].
  by_decide.
Defined.

Lemma node_map_refines_witness :
  refines eq sample_alg sample_asm (CILNode.UnOp 3%positive UnOp.Neg) sample_asm (CILNode.UnOp 3%positive UnOp.Neg).
Proof.
  apply (node_map_refines (S := Assembly) (E := unit) ident ltac:(intros; apply steps_ret; apply _)
           eq sample_alg) with (final := sample_asm) (fuel := 4%nat).
  - intros n vs ws v ->%list_eq_Forall2 Hv. eauto.
  - intros n asm asm' n' [= <- <-] _. intros k v ?. eauto.
  - reflexivity.
  - vm_compute. reflexivity.
Defined.

Lemma node_map_identity_witness :
  node_map_rec (S := Assembly) (E := unit) ident 4 (CILNode.UnOp 3%positive UnOp.Neg) sample_asm =
  (sample_asm, Ok (CILNode.UnOp 3%positive UnOp.Neg)).
Proof.
  apply (node_map_identity (S := Assembly) sample_asm 3);
    [by_decide| |cbn; lia| |lia].
  - split; [by_decide|done].
  - by_decide.
Defined.
