(* ===== verification/Assign.v ===== *)
(** * Type relations (cilly/src/ir/tpe/mod.rs)

    Managed-reference tests, mangling and the assignability relation of the CIL type checker.  The
    functions follow ids through the arenas, so they take fuel; an id outside its arena is a panic,
    as the Rust indexing is. *)

From S2P Require Import Prelude Interner Types Class IR.

(** Short-circuiting [&&] of tests that may panic. *)
Definition and_then {E} (a : outcome E bool) (b : outcome E bool) : outcome E bool :=
  r ← a; if (r : bool) then b else Ok false.

Section Type_ops.
Context {E : Type}.
Implicit Types asm : Assembly.

Definition is_gcref asm (self : Ty.t) : outcome E bool :=
  match self with
  | Ty.ClassRef c => cref ← class_ref asm c; Ok (negb (cr_is_valuetype cref))
  | Ty.PlatformGeneric _ _ | Ty.PlatformArray _ _ | Ty.PlatformObject | Ty.PlatformString => Ok true
  | Ty.Int _ | Ty.Float _ | Ty.Bool | Ty.PlatformChar | Ty.Void | Ty.Ptr _ | Ty.Ref _
  | Ty.FnPtr _ | Ty.SIMDVector _ => Ok false
  end.

(** [remaining] is [65 - depth]: the source answers [true] once [depth > 64]. *)
Fixpoint contains_gcref_impl (remaining : nat) asm (self : Ty.t) : outcome E bool :=
  match remaining with
  | O => Ok true
  | S remaining' =>
      match self with
      | Ty.ClassRef c =>
          cref ← class_ref asm c;
          if negb (cr_is_valuetype cref) then Ok true
          else
            match class_ref_to_def asm c with
            | Some def =>
                any_outcome (fun '(t, _, _) => contains_gcref_impl remaining' asm t) (cd_fields def)
            | None => Ok false
            end
      | _ => is_gcref asm self
      end
  end.

Definition contains_gcref asm (self : Ty.t) : outcome E bool := contains_gcref_impl 65 asm self.

Definition try_deref asm (self : Ty.t) : outcome E (option Ty.t) :=
  match self with
  | Ty.Ptr inner | Ty.Ref inner => t ← get_type asm inner; Ok (Some t)
  | _ => Ok None
  end.

Definition generic_tag (kind : Generic.kind) : string :=
  match kind with
  | Generic.TypeGeneric => "t"
  | Generic.MethodGeneric => "m"
  | Generic.CallGeneric => "c"
  end.

(** [String::len] counts bytes. *)
Definition strlen (s : string) : string := pretty (N.of_nat (String.length s)).

Fixpoint mangle (fuel : nat) asm (self : Ty.t) : outcome E string :=
  match fuel with
  | O => NoFuel
  | S fuel' =>
      match self with
      | Ty.SIMDVector val => Ok (Simd.name val)
      | Ty.Ptr inner =>
          t ← get_type asm inner; s ← mangle fuel' asm t; Ok ("p" +:+ s)
      | Ty.Ref inner =>
          t ← get_type asm inner; s ← mangle fuel' asm t; Ok ("r" +:+ s)
      | Ty.Int int => Ok (Int.name int)
      | Ty.ClassRef cref =>
          cref ← class_ref asm cref;
          asm_name ← (match cr_asm cref with
                      | Some asm_name => n ← get_string asm asm_name; Ok (strlen n +:+ n)
                      | None => Ok "n"
                      end);
          name ← get_string asm (cr_name cref);
          Ok (asm_name +:+ strlen name +:+ name)
      | Ty.Float float => Ok (Float.name float)
      | Ty.PlatformString => Ok "st"
      | Ty.PlatformChar => Ok "c"
      | Ty.PlatformGeneric arg kind => Ok ("g" +:+ generic_tag kind +:+ pretty arg)
      | Ty.PlatformObject => Ok "o"
      | Ty.Bool => Ok "b"
      | Ty.Void => Ok "v"
      | Ty.PlatformArray elem dims =>
          t ← get_type asm elem; s ← mangle fuel' asm t; Ok ("a" +:+ pretty dims +:+ s)
      | Ty.FnPtr sig =>
          sig ← get_sig asm sig;
          out ← mangle fuel' asm (output sig);
          ins ← map_outcome (mangle fuel' asm) (inputs sig);
          Ok (pretty (N.of_nat (length (inputs sig))) +:+ String.concat "" ins +:+ out)
      end
  end.

(** [cref.asm().map(|s| asm[s].as_ref()) == Some(expected)] *)
Definition asm_name_is asm (cref : ClassRef) (expected : string) : outcome E bool :=
  match cr_asm cref with
  | Some s => n ← get_string asm s; Ok (bool_decide (n = expected))
  | None => Ok false
  end.

Definition name_is asm (cref : ClassRef) (expected : string) : outcome E bool :=
  n ← get_string asm (cr_name cref); Ok (bool_decide (n = expected)).

Definition is_bcl_type asm (c : Interned KClassRef) (valuetype : bool) (name : string)
    : outcome E bool :=
  cref ← class_ref asm c;
  and_then (Ok (Bool.eqb (cr_is_valuetype cref) valuetype))
    (and_then (asm_name_is asm cref "System.Runtime") (name_is asm cref name)).

Definition simd_class_eq asm (vector : Simd.vector) (class : Interned KClassRef) : outcome E bool :=
  cref ← class_ref asm class;
  shape ← and_then (Ok (cr_is_valuetype cref))
            (and_then (asm_name_is asm cref "System.Runtime.Intrinsics")
               (name_is asm cref
                  ("System.Runtime.Intrinsics.Vector" +:+ pretty (Simd.bits vector))));
  if negb shape then Ok false
  else
    match cr_generics cref with
    | [g] =>
        Ok (bool_decide (g = Ty.of_simd_elem (Simd.v_elem vector)) ||
            match g with Ty.PlatformGeneric _ _ => true | _ => false end)
    | _ => Ok false
    end.

Definition fat_ptr_layout_eq asm (lhs rhs : Interned KClassRef) : outcome E bool :=
  lref ← class_ref asm lhs;
  rref ← class_ref asm rhs;
  if negb (cr_is_valuetype lref && cr_is_valuetype rref) then Ok false
  else if negb (bool_decide (cr_generics lref = [])) || negb (bool_decide (cr_generics rref = []))
  then Ok false
  else
    lname ← get_string asm (cr_name lref);
    rname ← get_string asm (cr_name rref);
    if negb (String.prefix "FatPtr" lname && String.prefix "FatPtr" rname) then Ok false
    else
      match class_ref_to_def asm lhs, class_ref_to_def asm rhs with
      | Some ldef, Some rdef =>
          Ok (bool_decide (cd_explict_size ldef = cd_explict_size rdef) &&
              bool_decide (cd_align ldef = cd_align rdef) &&
              bool_decide (cd_fields ldef = cd_fields rdef))
      | _, _ => Ok true
      end.

Definition is_generic_marker (t : Ty.t) : bool :=
  match t with Ty.PlatformGeneric _ _ => true | _ => false end.

(** The same open generic type on both sides, arity included. *)
Definition same_open (lref rref : ClassRef) : bool :=
  bool_decide (cr_name lref = cr_name rref) &&
  bool_decide (cr_asm lref = cr_asm rref) &&
  Bool.eqb (cr_is_valuetype lref) (cr_is_valuetype rref) &&
  negb (bool_decide (cr_generics lref = [])) &&
  bool_decide (length (cr_generics lref) = length (cr_generics rref)).

(** The arms of the [match] that hold whatever the arenas contain, tried after the [ClassRef],
    pointer and array arms. *)
Definition representation_bridge (self to : Ty.t) : bool :=
  match self, to with
  | (Ty.PlatformString | Ty.PlatformArray _ _), Ty.PlatformObject => true
  | Ty.Int (Int.U16 | Int.I16), Ty.PlatformChar => true
  | _, Ty.PlatformGeneric _ _ => true
  | Ty.PlatformGeneric _ _, _ => true
  | _, _ => false
  end.

Fixpoint is_assignable_to (fuel : nat) asm (self to : Ty.t) : outcome E bool :=
  match fuel with
  | O => NoFuel
  | S fuel' =>
      if bool_decide (self = to) then Ok true
      else
        match self, to with
        | Ty.ClassRef cref, Ty.PlatformObject =>
            cref ← class_ref asm cref; Ok (negb (cr_is_valuetype cref))
        | Ty.PlatformObject, Ty.ClassRef cref =>
            cref ← class_ref asm cref;
            and_then (Ok (negb (cr_is_valuetype cref))) (name_is asm cref "System.Object")
        | Ty.ClassRef cref, Ty.PlatformString | Ty.PlatformString, Ty.ClassRef cref =>
            is_bcl_type asm cref false "System.String"
        | Ty.ClassRef cref, Ty.Int Int.I128 | Ty.Int Int.I128, Ty.ClassRef cref =>
            is_bcl_type asm cref true "System.Int128"
        | Ty.ClassRef cref, Ty.Int Int.U128 | Ty.Int Int.U128, Ty.ClassRef cref =>
            is_bcl_type asm cref true "System.UInt128"
        | Ty.SIMDVector vector, Ty.ClassRef cref | Ty.ClassRef cref, Ty.SIMDVector vector =>
            simd_class_eq asm vector cref
        | (Ty.Ptr a | Ty.Ref a), (Ty.Ptr b | Ty.Ref b) =>
            ta ← get_type asm a;
            marker ← (if is_generic_marker ta then Ok true
                      else tb ← get_type asm b; Ok (is_generic_marker tb));
            if (marker : bool) then
              tb ← get_type asm b; is_assignable_to fuel' asm ta tb
            else
              match self, to with
              | Ty.Ptr ptr, Ty.Ref rf => Ok (bool_decide (ptr = rf))
              | _, _ => Ok false
              end
        | Ty.PlatformArray lhs lhs_dims, Ty.PlatformArray rhs rhs_dims =>
            if lhs_dims =? rhs_dims then
              tl ← get_type asm lhs;
              tr ← get_type asm rhs;
              is_assignable_to fuel' asm tl tr
            else Ok false
        | Ty.ClassRef lhs, Ty.ClassRef rhs =>
            fat ← fat_ptr_layout_eq asm lhs rhs;
            if (fat : bool) then Ok true
            else
              lref ← class_ref asm lhs;
              rref ← class_ref asm rhs;
              if same_open lref rref then
                all_outcome (fun '(a, b) => is_assignable_to fuel' asm a b)
                  (zip (cr_generics lref) (cr_generics rref))
              else Ok false
        | _, _ => Ok (representation_bridge self to)
        end
  end.
End Type_ops.
