(* ===== verification/Typecheck.v ===== *)
(** * The CIL type checker (cilly/src/ir/typecheck.rs)

    [typecheck_node] and [typecheck_root] check one expression tree or statement against the
    method signature and the local table.  They run in [ST Assembly TypeCheckError]: computing the
    type of an address interns that type, so the checker changes the assembly even when it fails.
    [tfuel] bounds the walks over types (assignability, mangling); the recursion over nodes has its
    own fuel. *)

From S2P Require Import Prelude Interner Types Class IR Assign Walk.

(** ** Errors *)

Inductive TypeCheckError : Set :=
| LocalOutOfRange (local locals : Z)
| ArgumentOutOfRange (argument inputs : Z)
| RootTypeMismatch (operation : string) (got expected : Ty.t)
| RootOperandType (operation : string) (got : Ty.t)
| WrongBinopArgs (lhs rhs : Ty.t) (op : BinOp.t)
| RefToPtrArgNotRef (arg : Ty.t)
| InvalidPtrCast (expected : PtrCastRes.t) (got : Ty.t)
| TypeNotPtr (tpe : Ty.t)
| DerfWrongPtr (expected got : Ty.t)
| CallArgcWrong (expected got : Z) (mname : string)
| CallArgTypeWrong (got expected : string) (idx : Z) (mname : string)
| IntCastInvalidInput (got : Ty.t) (target : Int.t)
| FieldAccessInvalidType (tpe : Ty.t) (field : FieldDesc)
| FieldOwnerMismatch (owner expected_owner : Interned KClassRef) (field : FieldDesc)
| ExpectedClassGotValuetype (cref : ClassRef)
| TypeNotClass (object : Ty.t)
| BoxNotValuetype (got boxed_as : Ty.t)
| FloatCastInvalidInput (got : Ty.t) (target : Float.t)
| WrongUnOpArgs (tpe : Ty.t) (op : UnOp.t)
| IndirectCallArgcWrong (expected got : Z)
| IndirectCallArgTypeWrong (got expected : Ty.t) (idx : Z)
| LdLenArgNotArray (got : Ty.t)
| LdLenArrNot1D (got : Ty.t)
| ArrIndexInvalidType (index_tpe : Ty.t)
| ArrayElementTypeMismatch (expected got : Ty.t)
| IndirectCallInvalidFnPtrType (fn_ptr : Ty.t)
| IndirectCallInvalidFnPtrSig (expected got : FnSig)
| SizeOfVoid
| LocalAssigementWrong (loc : Z) (got expected : string)
| ValueTypeCompare (lhs rhs : Ty.t)
| WriteWrongAddr (addr tpe : string)
| WriteWrongValue (tpe value : Ty.t)
| ConditionNotBool (cond : Ty.t)
| CantCompareTypes (lhs rhs : Ty.t)
| FieldAssignWrongType (field_tpe : Ty.t) (fld : Interned KField) (val : Ty.t)
| FieldNotPresent (tpe : Ty.t) (name : Interned KString) (owner : Interned KClassRef)
| ManagedPtrCast (src dst : string).

Section type_tests.
Context {E : Type} (tfuel : nat).
Implicit Types asm : Assembly.

(** [expected.pointed_to()] is an erased or atomic word pointer and [arg] is a pointer; or both
    are function pointers that differ only in such positions. *)
Fixpoint is_erased_ptr_sink (fuel : nat) asm (arg expected : Ty.t) : outcome E bool :=
  match fuel with
  | O => NoFuel
  | S fuel' =>
      direct ← (match Ty.pointed_to expected with
                | Some t =>
                    expected_pointee ← get_type asm t;
                    Ok (match expected_pointee with
                        | Ty.Int (Int.U8 | Int.USize | Int.ISize) | Ty.Void =>
                            bool_decide (is_Some (Ty.pointed_to arg))
                        | _ => false
                        end)
                | None => Ok false
                end);
      if (direct : bool) then Ok true
      else
        match arg, expected with
        | Ty.FnPtr arg_sig, Ty.FnPtr exp_sig =>
            arg_sig ← get_sig asm arg_sig;
            exp_sig ← get_sig asm exp_sig;
            if bool_decide (length (inputs arg_sig) = length (inputs exp_sig)) then
              let pos_ok a e :=
                if bool_decide (a = e) then Ok true else is_erased_ptr_sink fuel' asm a e in
              inputs_ok ← all_outcome (fun '(a, e) => pos_ok a e)
                            (zip (inputs arg_sig) (inputs exp_sig));
              and_then (Ok inputs_ok) (pos_ok (output arg_sig) (output exp_sig))
            else Ok false
        | _, _ => Ok false
        end
  end.

Definition is_some {A} (o : option A) : bool := match o with Some _ => true | None => false end.

(** [a.as_int().zip(b.as_int()).is_some_and(|(a, b)| a.as_unsigned() == b.as_unsigned())] *)
Definition same_int_width (a b : Ty.t) : bool :=
  match Ty.as_int a, Ty.as_int b with
  | Some a, Some b => bool_decide (Int.as_unsigned a = Int.as_unsigned b)
  | _, _ => false
  end.
End type_tests.

Section checks.
Context (tfuel : nat).
Implicit Types asm : Assembly.

(** ** Binary operators *)

Definition fallback_int (op : BinOp.t) (lhs rhs : Ty.t) asm : outcome TypeCheckError Ty.t :=
  ok ← is_assignable_to tfuel asm lhs rhs;
  match (if (ok : bool) then (match Ty.as_int lhs with Some i => Some i | None => Ty.as_int rhs end)
         else None) with
  | Some i => Ok (Ty.Int i)
  | None => Err (WrongBinopArgs lhs rhs op)
  end.

Definition binop_add_sub (op : BinOp.t) (lhs rhs : Ty.t) asm : outcome TypeCheckError Ty.t :=
  match lhs, rhs with
  | Ty.Int l, Ty.Int r => if bool_decide (r = l) then Ok (Ty.Int l) else fallback_int op lhs rhs asm
  | Ty.Float l, Ty.Float r => if bool_decide (r = l) then Ok (Ty.Float l) else fallback_int op lhs rhs asm
  | Ty.Ptr l, Ty.Ptr r => if bool_decide (r = l) then Ok (Ty.Ptr l) else fallback_int op lhs rhs asm
  | Ty.FnPtr l, Ty.FnPtr r => if bool_decide (r = l) then Ok (Ty.FnPtr l) else fallback_int op lhs rhs asm
  | (Ty.Ptr _ | Ty.FnPtr _ | Ty.Ref _), Ty.Int (Int.ISize | Int.USize) => Ok lhs
  | Ty.Int (Int.ISize | Int.USize), (Ty.Ptr _ | Ty.FnPtr _) => Ok rhs
  | _, _ => fallback_int op lhs rhs asm
  end.

Definition binop_eq (op : BinOp.t) (lhs rhs : Ty.t) asm : outcome TypeCheckError Ty.t :=
  ok ← (if bool_decide (lhs = rhs) then Ok true else is_assignable_to tfuel asm lhs rhs);
  if (ok : bool) then
    match lhs with
    | Ty.ClassRef cref =>
        c ← class_ref asm cref;
        if cr_is_valuetype c then Err (ValueTypeCompare lhs rhs) else Ok Ty.Bool
    | _ => Ok Ty.Bool
    end
  else Err (WrongBinopArgs lhs rhs op).

Definition binop_mul (op : BinOp.t) (lhs rhs : Ty.t) asm : outcome TypeCheckError Ty.t :=
  let relaxed :=
    ok ← is_assignable_to tfuel asm lhs rhs;
    if (ok : bool) then Ok rhs
    else
      ok ← is_assignable_to tfuel asm rhs lhs;
      if (ok : bool) then Ok lhs else Err (WrongBinopArgs lhs rhs op) in
  match lhs, rhs with
  | Ty.Int l, Ty.Int r =>
      if bool_decide (r = l) then Ok (Ty.Int l)
      else
        match l, r with
        | Int.ISize, Int.I32 => Ok (Ty.Int Int.ISize)
        | Int.USize, Int.I32 => Ok (Ty.Int Int.USize)
        | _, _ => relaxed
        end
  | Ty.Float l, Ty.Float r => if bool_decide (r = l) then Ok (Ty.Float l) else relaxed
  | Ty.Int (Int.ISize | Int.USize), (Ty.Ptr _ | Ty.FnPtr _) => Ok rhs
  | _, _ => relaxed
  end.

Definition binop_compare (op : BinOp.t) (lhs rhs : Ty.t) asm : outcome TypeCheckError Ty.t :=
  let allow_pointer := bool_decide (op = BinOp.LtUn \/ op = BinOp.GtUn) in
  let relaxed :=
    ok ← (if bool_decide (lhs = rhs) then Ok true else is_assignable_to tfuel asm lhs rhs);
    if (ok : bool) then Ok Ty.Bool else Err (WrongBinopArgs lhs rhs op) in
  match lhs, rhs with
  | Ty.Int l, Ty.Int r => if bool_decide (r = l) then Ok Ty.Bool else relaxed
  | Ty.Float l, Ty.Float r => if bool_decide (r = l) then Ok Ty.Bool else relaxed
  | Ty.Ptr l, Ty.Ptr r => if allow_pointer && bool_decide (r = l) then Ok Ty.Bool else relaxed
  | Ty.FnPtr l, Ty.FnPtr r => if allow_pointer && bool_decide (r = l) then Ok Ty.Bool else relaxed
  | Ty.Bool, Ty.Bool => Ok Ty.Bool
  | _, _ => relaxed
  end.

Definition binop_bitwise (op : BinOp.t) (lhs rhs : Ty.t) asm : outcome TypeCheckError Ty.t :=
  match lhs, rhs with
  | Ty.Int l, Ty.Int r => if bool_decide (r = l) then Ok (Ty.Int l) else fallback_int op lhs rhs asm
  | Ty.Bool, Ty.Bool => Ok Ty.Bool
  | _, _ => fallback_int op lhs rhs asm
  end.

(** [Rem] wants signed integers, [RemUn] unsigned ones. *)
Definition binop_rem (op : BinOp.t) (signed : bool) (lhs rhs : Ty.t) asm : outcome TypeCheckError Ty.t :=
  match lhs, rhs with
  | Ty.Int l, Ty.Int r =>
      if bool_decide (r = l) && Bool.eqb (Int.is_signed r) signed then Ok (Ty.Int l)
      else fallback_int op lhs rhs asm
  | Ty.Float l, Ty.Float r => if bool_decide (r = l) then Ok (Ty.Float l) else fallback_int op lhs rhs asm
  | _, _ => fallback_int op lhs rhs asm
  end.

Definition is_shift_amount (i : Int.t) : bool :=
  match i with
  | Int.USize | Int.ISize | Int.I32 | Int.U32 | Int.I16 | Int.U16 | Int.U8 | Int.I8 => true
  | _ => false
  end.

Definition binop_shift (op : BinOp.t) (lhs rhs : Ty.t) asm : outcome TypeCheckError Ty.t :=
  let valid_shift :=
    match lhs, rhs with
    | Ty.Int l, Ty.Int r =>
        is_shift_amount r &&
        match op with
        | BinOp.Shl => true
        | BinOp.Shr => Int.is_signed l
        | _ => negb (Int.is_signed l)
        end
    | _, _ => false
    end in
  if valid_shift then Ok lhs else fallback_int op lhs rhs asm.

Definition is_div_un_int (i : Int.t) : bool :=
  match i with Int.U64 | Int.USize | Int.U32 | Int.U16 | Int.U8 => true | _ => false end.

Definition is_div_int (i : Int.t) : bool :=
  match i with
  | Int.U64 | Int.USize | Int.ISize | Int.I32 | Int.U32 | Int.I16 | Int.U16 | Int.U8 | Int.I8 => true
  | _ => false
  end.

Definition binop_div_un (op : BinOp.t) (lhs rhs : Ty.t) asm : outcome TypeCheckError Ty.t :=
  match lhs, rhs with
  | Ty.Int l, Ty.Int r =>
      if is_div_un_int l && is_div_un_int r && bool_decide (l = r) then Ok (Ty.Int l)
      else fallback_int op lhs rhs asm
  | _, _ => fallback_int op lhs rhs asm
  end.

Definition binop_div (op : BinOp.t) (lhs rhs : Ty.t) asm : outcome TypeCheckError Ty.t :=
  match lhs, rhs with
  | Ty.Int l, Ty.Int r =>
      if is_div_int l && is_div_int r && (Int.is_signed l && bool_decide (l = r)) then Ok (Ty.Int l)
      else fallback_int op lhs rhs asm
  | Ty.Float l, Ty.Float r => if bool_decide (r = l) then Ok (Ty.Float l) else fallback_int op lhs rhs asm
  | _, _ => fallback_int op lhs rhs asm
  end.

(** [BinOp::typecheck] *)
Definition typecheck_binop (op : BinOp.t) (lhs rhs : Ty.t) asm : outcome TypeCheckError Ty.t :=
  match op with
  | BinOp.Add | BinOp.Sub => binop_add_sub op lhs rhs asm
  | BinOp.Eq => binop_eq op lhs rhs asm
  | BinOp.Mul => binop_mul op lhs rhs asm
  | BinOp.LtUn | BinOp.GtUn | BinOp.Lt | BinOp.Gt => binop_compare op lhs rhs asm
  | BinOp.Or | BinOp.XOr | BinOp.And => binop_bitwise op lhs rhs asm
  | BinOp.Rem => binop_rem op true lhs rhs asm
  | BinOp.RemUn => binop_rem op false lhs rhs asm
  | BinOp.Shl | BinOp.Shr | BinOp.ShrUn => binop_shift op lhs rhs asm
  | BinOp.DivUn => binop_div_un op lhs rhs asm
  | BinOp.Div => binop_div op lhs rhs asm
  end.

Definition typecheck_unop (op : UnOp.t) (arg_type : Ty.t) : outcome TypeCheckError Ty.t :=
  match arg_type, op with
  | (Ty.Int _ | Ty.Float _ | Ty.Ptr _), UnOp.Not | (Ty.Float _ | Ty.Ptr _), UnOp.Neg => Ok arg_type
  | Ty.Int int, UnOp.Neg =>
      if Int.is_signed int then Ok arg_type else Err (WrongUnOpArgs arg_type op)
  | _, _ => Err (WrongUnOpArgs arg_type op)
  end.

(** ** Operand requirements *)

Definition require_managed_object (value : Ty.t) asm : outcome TypeCheckError unit :=
  match value with
  | Ty.ClassRef cref =>
      c ← class_ref asm cref;
      if cr_is_valuetype c then Err (ExpectedClassGotValuetype c) else Ok tt
  | Ty.PlatformObject | Ty.PlatformGeneric _ _ | Ty.PlatformString | Ty.PlatformArray _ _ => Ok tt
  | _ => Err (TypeNotClass value)
  end.

Definition validate_field_access asm (field : FieldDesc) (pointed_owner : Interned KClassRef)
    : outcome TypeCheckError unit :=
  ok ← is_assignable_to tfuel asm (Ty.ClassRef pointed_owner) (Ty.ClassRef (field_owner field));
  if negb ok then Err (FieldOwnerMismatch pointed_owner (field_owner field) field)
  else
    match class_ref_to_def asm (field_owner field) with
    | Some cdef =>
        if existsb (fun '(tpe, name, _) => bool_decide (tpe = field_tpe field) &&
                                           bool_decide (name = field_name field)) (cd_fields cdef)
        then Ok tt
        else Err (FieldNotPresent (field_tpe field) (field_name field) (field_owner field))
    | None => Ok tt
    end.

Definition validate_field_target asm (addr_tpe : Ty.t) (field : FieldDesc) : outcome TypeCheckError unit :=
  pointed_tpe ← (match addr_tpe with
                 | Ty.Ptr type_idx | Ty.Ref type_idx => get_type asm type_idx
                 | Ty.ClassRef _ => Ok addr_tpe
                 | _ => Err (TypeNotPtr addr_tpe)
                 end);
  match pointed_tpe with
  | Ty.ClassRef pointed_owner => validate_field_access asm field pointed_owner
  | _ => Err (FieldAccessInvalidType pointed_tpe field)
  end.

Definition root_types_compatible (got expected : Ty.t) asm : outcome TypeCheckError bool :=
  ok ← is_assignable_to tfuel asm got expected;
  if (ok : bool) then Ok true else is_erased_ptr_sink tfuel asm got expected.

Definition require_root_pointer (operation : string) (got : Ty.t) : outcome TypeCheckError unit :=
  if is_some (Ty.pointed_to got) then Ok tt else Err (RootOperandType operation got).

Definition require_array_index (index_tpe : Ty.t) : outcome TypeCheckError unit :=
  match index_tpe with
  | Ty.Int (Int.I32 | Int.U32 | Int.I64 | Int.USize | Int.ISize) => Ok tt
  | _ => Err (ArrIndexInvalidType index_tpe)
  end.

Definition require_root_integer (operation : string) (got : Ty.t) : outcome TypeCheckError unit :=
  if is_some (Ty.as_int got) || bool_decide (got = Ty.Bool) then Ok tt
  else Err (RootOperandType operation got).

(** The array check of [LdElelemRef], [LdElem] and [StElem]: the element type of a vector. *)
Definition require_vector (arr_tpe : Ty.t) : outcome TypeCheckError (Interned KType) :=
  match arr_tpe with
  | Ty.PlatformArray elem dims => if dims =? 1 then Ok elem else Err (LdLenArrNot1D arr_tpe)
  | _ => Err (LdLenArgNotArray arr_tpe)
  end.
End checks.

(** ** Nodes *)

Section node_arms.
Context (tfuel : nat) (sig : Interned KSig) (locals : list LocalDef).
(** The recursive call: [asm.get_node(id).clone().typecheck(sig, locals, asm)]. *)
Context (tc : Interned KNode -> ST Assembly TypeCheckError Ty.t).

Definition check {A} (f : Assembly -> outcome TypeCheckError A) : ST Assembly TypeCheckError A :=
  reads f.

Definition local_type (loc : Z) : ST Assembly TypeCheckError Ty.t :=
  match get_u32 locals loc with
  | Some (_, t) => check (fun asm => get_type asm t)
  | None => throw (LocalOutOfRange loc (Z.of_nat (length locals)))
  end.

Definition argument_type (arg : Z) : ST Assembly TypeCheckError Ty.t :=
  s ← check (fun asm => get_sig asm sig);
  match get_u32 (inputs s) arg with
  | Some t => mret t
  | None => throw (ArgumentOutOfRange arg (Z.of_nat (length (inputs s))))
  end.

(** A loop over the arguments, with the index of the current one. *)
Fixpoint for_args (f : Z -> Interned KNode -> Ty.t -> ST Assembly TypeCheckError unit)
    (idx : Z) (args : list (Interned KNode)) (types : list Ty.t) : ST Assembly TypeCheckError unit :=
  match args, types with
  | a :: args, t :: types => _ ← f idx a t; for_args f (idx + 1) args types
  | _, _ => mret tt
  end.

Definition call_arg_type_wrong {A} (mref : MethodRef) (got expected : Ty.t) (idx : Z)
    : ST Assembly TypeCheckError A :=
  got ← check (fun asm => mangle tfuel asm got);
  expected ← check (fun asm => mangle tfuel asm expected);
  mname ← check (fun asm => get_string asm (mr_name mref));
  throw (CallArgTypeWrong got expected idx mname).

Definition call_argc_wrong {A} (mref : MethodRef) (expected got : nat)
    : ST Assembly TypeCheckError A :=
  mname ← check (fun asm => get_string asm (mr_name mref));
  throw (CallArgcWrong (Z.of_nat expected) (Z.of_nat got) mname).

(** The acceptance test of one call argument, short-circuiting. *)
Definition call_arg_ok (arg_type input_type : Ty.t) asm : outcome TypeCheckError bool :=
  ok ← is_assignable_to tfuel asm arg_type input_type;
  if (ok : bool) then Ok true
  else
    a ← try_deref asm arg_type;
    same ← (match a with
            | Some t => i ← try_deref asm input_type; Ok (bool_decide (Some t = i))
            | None => Ok false
            end);
    if (same : bool) then Ok true else is_erased_ptr_sink tfuel asm arg_type input_type.

Definition typecheck_call (method : Interned KMethodRef) (args : list (Interned KNode))
    : ST Assembly TypeCheckError Ty.t :=
  mref ← check (fun asm => get_mref asm method);
  inputs ← check (fun asm => stack_inputs asm mref);
  if negb (bool_decide (length args = length inputs)) then
    call_argc_wrong mref (length inputs) (length args)
  else
    _ ← for_args (fun idx arg input_type =>
          arg_type ← tc arg;
          ok ← check (call_arg_ok arg_type input_type);
          if (ok : bool) then mret tt else call_arg_type_wrong mref arg_type input_type idx)
        0 args inputs;
    check (fun asm => mref_output asm mref).

Definition typecheck_calli (fn_ptr : Interned KNode) (called_sig : Interned KSig)
    (args : list (Interned KNode)) : ST Assembly TypeCheckError Ty.t :=
  fn_ptr ← tc fn_ptr;
  called_sig ← check (fun asm => get_sig asm called_sig);
  if negb (bool_decide (length args = length (inputs called_sig))) then
    throw (IndirectCallArgcWrong (Z.of_nat (length (inputs called_sig))) (Z.of_nat (length args)))
  else
    _ ← for_args (fun idx arg input_type =>
          arg_type ← tc arg;
          ok ← check (fun asm => is_assignable_to tfuel asm arg_type input_type);
          if (ok : bool) then mret tt
          else throw (IndirectCallArgTypeWrong arg_type input_type idx))
        0 args (inputs called_sig);
    match fn_ptr with
    | Ty.FnPtr ptr_sig =>
        ptr_sig ← check (fun asm => get_sig asm ptr_sig);
        if bool_decide (ptr_sig = called_sig) then mret (output called_sig)
        else throw (IndirectCallInvalidFnPtrSig called_sig ptr_sig)
    | _ => throw (IndirectCallInvalidFnPtrType fn_ptr)
    end.

Definition managed_ptr_cast {A} (src dst : Ty.t) : ST Assembly TypeCheckError A :=
  src ← check (fun asm => mangle tfuel asm src);
  dst ← check (fun asm => mangle tfuel asm dst);
  throw (ManagedPtrCast src dst).

Definition typecheck_ptr_cast (arg : Interned KNode) (res : PtrCastRes.t)
    : ST Assembly TypeCheckError Ty.t :=
  arg_tpe ← tc arg;
  _ ← (match arg_tpe with
       | Ty.Ptr inner | Ty.Ref inner =>
           managed ← check (fun asm => t ← get_type asm inner; contains_gcref asm t);
           if (managed : bool) then managed_ptr_cast arg_tpe (PtrCastRes.as_type res)
           else mret tt
       | Ty.Int (Int.USize | Int.ISize) | Ty.FnPtr _ => mret tt
       | _ => throw (InvalidPtrCast res arg_tpe)
       end : ST Assembly TypeCheckError unit);
  managed ← check (fun asm => contains_gcref asm (PtrCastRes.as_type res));
  if (managed : bool) then managed_ptr_cast arg_tpe (PtrCastRes.as_type res)
  else mret (PtrCastRes.as_type res).

Definition typecheck_ld_field_address (addr : Interned KNode) (field : Interned KField)
    : ST Assembly TypeCheckError Ty.t :=
  field ← check (fun asm => get_field asm field);
  addr_tpe ← tc addr;
  _ ← check (fun asm => validate_field_target tfuel asm addr_tpe field);
  match addr_tpe with
  | Ty.Ref _ | Ty.ClassRef _ => nref (field_tpe field)
  | Ty.Ptr _ => nptr (field_tpe field)
  | _ => panic
  end.

Definition typecheck_ld_field (addr : Interned KNode) (field : Interned KField)
    : ST Assembly TypeCheckError Ty.t :=
  field ← check (fun asm => get_field asm field);
  addr_tpe ← tc addr;
  _ ← check (fun asm => validate_field_target tfuel asm addr_tpe field);
  mret (field_tpe field).

Definition typecheck_ld_ind (addr : Interned KNode) (tpe : Interned KType)
    : ST Assembly TypeCheckError Ty.t :=
  addr_tpe ← tc addr;
  match Ty.pointed_to addr_tpe with
  | None => throw (TypeNotPtr addr_tpe)
  | Some pointed_tpe =>
      pointed_tpe ← check (fun asm => get_type asm pointed_tpe);
      tpe ← check (fun asm => get_type asm tpe);
      ok ← check (fun asm => is_assignable_to tfuel asm pointed_tpe tpe);
      if (ok : bool) then mret pointed_tpe else throw (DerfWrongPtr tpe pointed_tpe)
  end.

Definition typecheck_ref_to_ptr (refn : Interned KNode) : ST Assembly TypeCheckError Ty.t :=
  tpe ← tc refn;
  match tpe with
  | Ty.Ref inner | Ty.Ptr inner => t ← check (fun asm => get_type asm inner); nptr t
  | _ => throw (RefToPtrArgNotRef tpe)
  end.

Definition typecheck_int_cast (input : Interned KNode) (target : Int.t)
    : ST Assembly TypeCheckError Ty.t :=
  input ← tc input;
  match input with
  | Ty.Float _ | Ty.Int _ | Ty.Ptr _ | Ty.FnPtr _ | Ty.Bool => mret (Ty.Int target)
  | _ => throw (IntCastInvalidInput input target)
  end.

Definition typecheck_float_cast (input : Interned KNode) (target : Float.t)
    : ST Assembly TypeCheckError Ty.t :=
  input ← tc input;
  match input with
  | Ty.Float _ | Ty.Int _ => mret (Ty.Float target)
  | _ => throw (FloatCastInvalidInput input target)
  end.

Definition typecheck_ld_len (arr : Interned KNode) : ST Assembly TypeCheckError Ty.t :=
  arr_tpe ← tc arr;
  _ ← lift (require_vector arr_tpe);
  mret (Ty.Int Int.I32).

Definition typecheck_ld_elem_ref (array index : Interned KNode) : ST Assembly TypeCheckError Ty.t :=
  arr_tpe ← tc array;
  index_tpe ← tc index;
  elem ← lift (require_vector arr_tpe);
  _ ← lift (require_array_index index_tpe);
  check (fun asm => get_type asm elem).

Definition typecheck_ld_elem (array index : Interned KNode) (elem : Interned KType)
    : ST Assembly TypeCheckError Ty.t :=
  arr_tpe ← tc array;
  index_tpe ← tc index;
  array_elem ← lift (require_vector arr_tpe);
  _ ← lift (require_array_index index_tpe);
  expected ← check (fun asm => get_type asm array_elem);
  requested ← check (fun asm => get_type asm elem);
  if bool_decide (expected = requested) then mret requested
  else throw (ArrayElementTypeMismatch expected requested).

Definition typecheck_unbox_any (object : Interned KNode) (tpe : Interned KType)
    : ST Assembly TypeCheckError Ty.t :=
  object ← tc object;
  _ ← (match object with
       | Ty.ClassRef cref =>
           c ← check (fun asm => class_ref asm cref);
           if cr_is_valuetype c then throw (ExpectedClassGotValuetype c) else mret tt
       | Ty.PlatformObject | Ty.PlatformGeneric _ _ | Ty.PlatformString => mret tt
       | _ => throw (TypeNotClass object)
       end : ST Assembly TypeCheckError unit);
  check (fun asm => get_type asm tpe).

Definition typecheck_new_arr (elem : Interned KType) (len : Interned KNode)
    : ST Assembly TypeCheckError Ty.t :=
  len_tpe ← tc len;
  _ ← lift (require_array_index len_tpe);
  mret (Ty.PlatformArray elem 1).

Definition is_valuetype asm (t : Ty.t) : outcome TypeCheckError bool :=
  match t with
  | Ty.Int _ | Ty.Float _ | Ty.Bool | Ty.PlatformChar | Ty.SIMDVector _ => Ok true
  | Ty.ClassRef cref => c ← class_ref asm cref; Ok (cr_is_valuetype c)
  | _ => Ok false
  end.

Definition typecheck_box (value : Interned KNode) (tpe : Interned KType)
    : ST Assembly TypeCheckError Ty.t :=
  value_tpe ← tc value;
  box_tpe ← check (fun asm => get_type asm tpe);
  vt ← check (fun asm => is_valuetype asm box_tpe);
  if negb vt || negb (bool_decide (value_tpe = box_tpe)) then throw (BoxNotValuetype value_tpe box_tpe)
  else mret Ty.PlatformObject.

(** [CILNode::typecheck], one level. *)
Definition typecheck_node_step (self : CILNode.t) : ST Assembly TypeCheckError Ty.t :=
  match self with
  | CILNode.Const cst => mret (Const.get_type cst)
  | CILNode.BinOp lhs rhs op =>
      lhs ← tc lhs; rhs ← tc rhs; check (typecheck_binop tfuel op lhs rhs)
  | CILNode.UnOp arg op => arg_type ← tc arg; lift (typecheck_unop op arg_type)
  | CILNode.LdLoc loc => local_type loc
  | CILNode.LdLocA loc => t ← local_type loc; nref t
  | CILNode.LdArg arg => argument_type arg
  | CILNode.LdArgA arg => t ← argument_type arg; nref t
  | CILNode.Call method args _ => typecheck_call method args
  | CILNode.CallI fn_ptr called_sig args => typecheck_calli fn_ptr called_sig args
  | CILNode.IntCast input target _ => typecheck_int_cast input target
  | CILNode.FloatCast input target _ => typecheck_float_cast input target
  | CILNode.RefToPtr refn => typecheck_ref_to_ptr refn
  | CILNode.PtrCast arg res => typecheck_ptr_cast arg res
  | CILNode.LdFieldAddress addr field => typecheck_ld_field_address addr field
  | CILNode.LdField addr field => typecheck_ld_field addr field
  | CILNode.LdInd addr tpe _ => typecheck_ld_ind addr tpe
  | CILNode.SizeOf tpe =>
      t ← check (fun asm => get_type asm tpe);
      match t with Ty.Void => throw SizeOfVoid | _ => mret (Ty.Int Int.I32) end
  | CILNode.GetException =>
      c ← bcl_class "System.Exception" "System.Runtime" false; mret (Ty.ClassRef c)
  | CILNode.IsInst obj _ =>
      obj ← tc obj; _ ← check (require_managed_object obj); mret Ty.Bool
  | CILNode.CheckedCast obj cast_res =>
      obj ← tc obj; _ ← check (require_managed_object obj);
      check (fun asm => get_type asm cast_res)
  | CILNode.LocAlloc size => _ ← tc size; nptr (Ty.Int Int.U8)
  | CILNode.LdStaticField sfld =>
      sfld ← check (fun asm => get_static_field asm sfld); mret (static_tpe sfld)
  | CILNode.LdStaticFieldAddress sfld =>
      sfld ← check (fun asm => get_static_field asm sfld); nptr (static_tpe sfld)
  | CILNode.LdFtn mref => mref ← check (fun asm => get_mref asm mref); mret (Ty.FnPtr (mr_sig mref))
  | CILNode.LdTypeToken _ =>
      c ← bcl_class "System.RuntimeTypeHandle" "System.Runtime" true; mret (Ty.ClassRef c)
  | CILNode.LdLen arr => typecheck_ld_len arr
  | CILNode.LocAllocAlgined tpe _ => mret (Ty.Ptr tpe)
  | CILNode.LdElelemRef array index => typecheck_ld_elem_ref array index
  | CILNode.LdElem array index elem => typecheck_ld_elem array index elem
  | CILNode.UnboxAny object tpe => typecheck_unbox_any object tpe
  | CILNode.NewArr elem len => typecheck_new_arr elem len
  | CILNode.Box value tpe => typecheck_box value tpe
  end.
End node_arms.

(** [CILNode::typecheck] *)
Fixpoint typecheck_node (tfuel : nat) (sig : Interned KSig) (locals : list LocalDef) (fuel : nat)
    (self : CILNode.t) : ST Assembly TypeCheckError Ty.t :=
  match fuel with
  | O => no_fuel
  | S fuel' =>
      typecheck_node_step tfuel sig locals
        (fun id => n ← fetch_node id; typecheck_node tfuel sig locals fuel' n) self
  end.

(** ** Roots *)

Section root_arms.
Context (tfuel : nat) (sig : Interned KSig) (locals : list LocalDef).
Context (tc : Interned KNode -> ST Assembly TypeCheckError Ty.t).
(** The check of a whole node, for the [CallI] arm, which rebuilds one. *)
Context (tc_node : CILNode.t -> ST Assembly TypeCheckError Ty.t).

Definition local_assignment_wrong (loc : Z) (got expected : Ty.t) : ST Assembly TypeCheckError unit :=
  got ← check (fun asm => mangle tfuel asm got);
  expected ← check (fun asm => mangle tfuel asm expected);
  throw (LocalAssigementWrong loc got expected).

Definition typecheck_st_loc (loc : Z) (node : Interned KNode) : ST Assembly TypeCheckError unit :=
  got ← tc node;
  expected ← local_type locals loc;
  if bool_decide (got = Ty.Void) then mret tt
  else
    value ← fetch_node node;
    if match value with CILNode.PtrCast _ _ => true | _ => false end
       && is_some (Ty.pointed_to got) && is_some (Ty.pointed_to expected) then mret tt
    else if match got with Ty.Int (Int.USize | Int.ISize) => true | _ => false end
            && is_some (Ty.pointed_to expected) then mret tt
    else if (bool_decide (expected = Ty.Bool) && is_some (Ty.as_int got))
            || (bool_decide (got = Ty.Bool) && is_some (Ty.as_int expected)) then mret tt
    else
      ok ← check (fun asm => is_assignable_to tfuel asm got expected);
      if (ok : bool) then mret tt else local_assignment_wrong loc got expected.

(** [root_types_compatible] or a [RootTypeMismatch] of the operation. *)
Definition require_compatible (operation : string) (got expected : Ty.t)
    : ST Assembly TypeCheckError unit :=
  ok ← check (root_types_compatible tfuel got expected);
  if (ok : bool) then mret tt else throw (RootTypeMismatch operation got expected).

Definition require_void (operation : string) (output : Ty.t) : ST Assembly TypeCheckError unit :=
  if bool_decide (output = Ty.Void) then mret tt
  else throw (RootTypeMismatch operation output Ty.Void).

Definition typecheck_st_arg (arg : Z) (node : Interned KNode) : ST Assembly TypeCheckError unit :=
  got ← tc node;
  expected ← argument_type sig arg;
  require_compatible "starg" got expected.

Definition typecheck_ret (node : Interned KNode) : ST Assembly TypeCheckError unit :=
  got ← tc node;
  s ← check (fun asm => get_sig asm sig);
  require_compatible "ret" got (output s).

Definition typecheck_void_ret : ST Assembly TypeCheckError unit :=
  s ← check (fun asm => get_sig asm sig);
  if bool_decide (output s = Ty.Void) then mret tt
  else throw (RootTypeMismatch "ret" Ty.Void (output s)).

Definition typecheck_throw (node : Interned KNode) : ST Assembly TypeCheckError unit :=
  got ← tc node;
  gc ← check (fun asm => is_gcref asm got);
  if (gc : bool) then mret tt else throw (RootOperandType "throw" got).

Definition not_valuetype asm (t : Ty.t) : outcome TypeCheckError bool :=
  match Ty.as_class_ref t with
  | Some cref => c ← class_ref asm cref; Ok (negb (cr_is_valuetype c))
  | None => Ok true
  end.

Definition typecheck_branch (cond : BranchCond.t) : ST Assembly TypeCheckError unit :=
  match cond with
  | BranchCond.IsTrue cond | BranchCond.IsFalse cond =>
      cond ← tc cond;
      match cond with
      | Ty.Bool | Ty.Int _ => mret tt
      | _ => throw (ConditionNotBool cond)
      end
  | BranchCond.Eq lhs rhs | BranchCond.Ne lhs rhs
  | BranchCond.Lt lhs rhs _ | BranchCond.Gt lhs rhs _
  | BranchCond.Le lhs rhs _ | BranchCond.Ge lhs rhs _ =>
      lhs ← tc lhs;
      rhs ← tc rhs;
      ok ← check (fun asm => and_then (is_assignable_to tfuel asm lhs rhs) (not_valuetype asm lhs));
      if (ok : bool) then mret tt else throw (CantCompareTypes lhs rhs)
  end.

Definition write_wrong_addr (addr tpe : Ty.t) : ST Assembly TypeCheckError unit :=
  addr ← check (fun asm => mangle tfuel asm addr);
  tpe ← check (fun asm => mangle tfuel asm tpe);
  throw (WriteWrongAddr addr tpe).

Definition typecheck_st_ind (addr value : Interned KNode) (tpe : Ty.t)
    : ST Assembly TypeCheckError unit :=
  addr ← tc addr;
  value ← tc value;
  if negb (is_some (Ty.pointed_to addr)) then write_wrong_addr addr tpe
  else if bool_decide (tpe = Ty.Void) then write_wrong_addr addr tpe
  else
    ok ← check (fun asm => is_assignable_to tfuel asm value tpe);
    if ok || same_int_width value tpe
       || (bool_decide (value = Ty.Bool) && bool_decide (tpe = Ty.Int Int.I8)) then mret tt
    else throw (WriteWrongValue tpe value).

Definition typecheck_set_field (fld : Interned KField) (addr val : Interned KNode)
    : ST Assembly TypeCheckError unit :=
  addr ← tc addr;
  val ← tc val;
  field ← check (fun asm => get_field asm fld);
  ok ← check (fun asm => is_assignable_to tfuel asm val (field_tpe field));
  if negb ok then throw (FieldAssignWrongType (field_tpe field) fld val)
  else check (fun asm => validate_field_target tfuel asm addr field).

Definition typecheck_call_root (method : Interned KMethodRef) (args : list (Interned KNode))
    : ST Assembly TypeCheckError unit :=
  mref ← check (fun asm => get_mref asm method);
  inputs ← check (fun asm => stack_inputs asm mref);
  if negb (bool_decide (length inputs = length args)) then
    call_argc_wrong mref (length inputs) (length args)
  else
    _ ← for_args (fun idx arg expected =>
          arg ← tc arg;
          ok ← check (root_types_compatible tfuel arg expected);
          if (ok : bool) then mret tt else call_arg_type_wrong tfuel mref arg expected idx)
        0 args inputs;
    output ← check (fun asm => mref_output asm mref);
    require_void "statement call result" output.

Definition typecheck_init_blk (dst value count : Interned KNode) : ST Assembly TypeCheckError unit :=
  dst ← tc dst; value ← tc value; count ← tc count;
  _ ← lift (require_root_pointer "initblk destination" dst);
  _ ← lift (require_root_integer "initblk value" value);
  lift (require_root_integer "initblk count" count).

Definition typecheck_cp_blk (dst src count : Interned KNode) : ST Assembly TypeCheckError unit :=
  dst ← tc dst; src ← tc src; count ← tc count;
  _ ← lift (require_root_pointer "cpblk destination" dst);
  _ ← lift (require_root_pointer "cpblk source" src);
  lift (require_root_integer "cpblk count" count).

Definition require_not_void (operation : string) (tpe : Interned KType)
    : ST Assembly TypeCheckError unit :=
  t ← check (fun asm => get_type asm tpe);
  if bool_decide (t = Ty.Void) then throw (RootOperandType operation t) else mret tt.

Definition typecheck_cp_obj (src dst : Interned KNode) (tpe : Interned KType)
    : ST Assembly TypeCheckError unit :=
  src ← tc src; dst ← tc dst;
  _ ← lift (require_root_pointer "cpobj source" src);
  _ ← lift (require_root_pointer "cpobj destination" dst);
  require_not_void "cpobj type" tpe.

Definition typecheck_init_obj (addr : Interned KNode) (tpe : Interned KType)
    : ST Assembly TypeCheckError unit :=
  addr ← tc addr;
  _ ← lift (require_root_pointer "initobj destination" addr);
  require_not_void "initobj type" tpe.

Definition typecheck_set_static_field (field : Interned KStatic) (val : Interned KNode)
    : ST Assembly TypeCheckError unit :=
  field ← check (fun asm => get_static_field asm field);
  got ← tc val;
  require_compatible "stsfld" got (static_tpe field).

Definition typecheck_st_elem (array index value : Interned KNode) (elem : Interned KType)
    : ST Assembly TypeCheckError unit :=
  arr_tpe ← tc array; index_tpe ← tc index; value_tpe ← tc value;
  arr_elem ← lift (require_vector arr_tpe);
  _ ← lift (require_array_index index_tpe);
  elem_tpe ← check (fun asm => get_type asm elem);
  arr_elem_tpe ← check (fun asm => get_type asm arr_elem);
  if negb (bool_decide (arr_elem_tpe = elem_tpe) || same_int_width arr_elem_tpe elem_tpe) then
    throw (WriteWrongValue elem_tpe arr_elem_tpe)
  else
    ok ← check (fun asm => is_assignable_to tfuel asm value_tpe elem_tpe);
    if ok || same_int_width value_tpe elem_tpe then mret tt
    else throw (WriteWrongValue elem_tpe value_tpe).

(** [CILRoot::typecheck], one level; [tc_root] is the recursive call of [TerminateRegion]. *)
Definition typecheck_root_step (tc_root : Interned KRoot -> ST Assembly TypeCheckError unit)
    (self : CILRoot.t) : ST Assembly TypeCheckError unit :=
  match self with
  | CILRoot.StLoc loc node => typecheck_st_loc loc node
  | CILRoot.StArg arg node => typecheck_st_arg arg node
  | CILRoot.Ret node => typecheck_ret node
  | CILRoot.VoidRet => typecheck_void_ret
  | CILRoot.Pop node => _ ← tc node; mret tt
  | CILRoot.Throw node => typecheck_throw node
  | CILRoot.Break | CILRoot.Nop | CILRoot.InitFragmentBoundary | CILRoot.SourceFileInfo _ _ _ _ _
  | CILRoot.ExitSpecialRegion _ _ | CILRoot.ReThrow | CILRoot.Unreachable _ => mret tt
  | CILRoot.Branch _ _ None => mret tt
  | CILRoot.Branch _ _ (Some cond) => typecheck_branch cond
  | CILRoot.StInd addr value tpe _ => typecheck_st_ind addr value tpe
  | CILRoot.SetField fld addr val => typecheck_set_field fld addr val
  | CILRoot.Call method args _ => typecheck_call_root method args
  | CILRoot.CallI fn_ptr called_sig args =>
      output ← tc_node (CILNode.CallI fn_ptr called_sig args);
      require_void "statement calli result" output
  | CILRoot.InitBlk dst value count => typecheck_init_blk dst value count
  | CILRoot.CpBlk dst src count => typecheck_cp_blk dst src count
  | CILRoot.CpObj src dst tpe => typecheck_cp_obj src dst tpe
  | CILRoot.InitObj addr tpe => typecheck_init_obj addr tpe
  | CILRoot.SetStaticField field val => typecheck_set_static_field field val
  | CILRoot.StElem array index value elem => typecheck_st_elem array index value elem
  | CILRoot.TerminateRegion protected _ => tc_root protected
  end.
End root_arms.

(** [CILRoot::typecheck] *)
Fixpoint typecheck_root (tfuel : nat) (sig : Interned KSig) (locals : list LocalDef) (fuel : nat)
    (self : CILRoot.t) : ST Assembly TypeCheckError unit :=
  match fuel with
  | O => no_fuel
  | S fuel' =>
      typecheck_root_step tfuel sig locals
        (fun id => n ← fetch_node id; typecheck_node tfuel sig locals fuel' n)
        (typecheck_node tfuel sig locals fuel')
        (fun id => r ← fetch_root id; typecheck_root tfuel sig locals fuel' r) self
  end.
