(* ===== verification/TypecheckTheory.v ===== *)
(** * The type checker only interns, and its verdicts are stable

    Checking a node or a root changes nothing but the arenas, which it only extends; and a
    successful check succeeds again with the same type, interning nothing, in every later state of
    the assembly.  Optimization passes rely on this when they re-check nodes while rewriting. *)

From S2P Require Import Prelude Interner Types Class IR Arenas Assign AssignTheory Walk Typecheck.

(** ** Reads that survive extension *)

(** A test that keeps its answer when the arenas grow. *)
Definition mono {E A} (f : Assembly -> outcome E A) : Prop :=
  forall asm asm' a, extends asm asm' -> f asm = Ok a -> f asm' = Ok a.

Create HintDb mono.

Section mono.
Context {E : Type}.

Lemma mono_const {A} (m : outcome E A) : mono (fun _ => m).
Proof. by intros ???. Qed.

Lemma mono_bind {A B} (m : Assembly -> outcome E A) (f : A -> Assembly -> outcome E B) :
  mono m -> (forall a, mono (f a)) -> mono (fun asm => m asm ≫= fun a => f a asm).
Proof.
  intros Hm Hf asm asm' b Hext (a & Ha & Hb)%bind_ok. apply bind_ok. exists a.
  split; [by eapply Hm|by eapply Hf].
Qed.

Lemma mono_get_type id : mono (fun asm => get_type (E := E) asm id).
Proof. intros ??? []. by apply arena_get_prefix. Qed.
Lemma mono_get_sig id : mono (fun asm => get_sig (E := E) asm id).
Proof. intros ??? []. by apply arena_get_prefix. Qed.
Lemma mono_get_string id : mono (fun asm => get_string (E := E) asm id).
Proof. intros ??? []. by apply arena_get_prefix. Qed.
Lemma mono_class_ref id : mono (fun asm => class_ref (E := E) asm id).
Proof. intros ??? []. by apply arena_get_prefix. Qed.
Lemma mono_get_node id : mono (fun asm => get_node (E := E) asm id).
Proof. intros ??? []. by apply arena_get_prefix. Qed.
Lemma mono_get_root id : mono (fun asm => get_root (E := E) asm id).
Proof. intros ??? []. by apply arena_get_prefix. Qed.
Lemma mono_get_mref id : mono (fun asm => get_mref (E := E) asm id).
Proof. intros ??? []. by apply arena_get_prefix. Qed.
Lemma mono_get_field id : mono (fun asm => get_field (E := E) asm id).
Proof. intros ??? []. by apply arena_get_prefix. Qed.
Lemma mono_get_static id : mono (fun asm => get_static_field (E := E) asm id).
Proof. intros ??? []. by apply arena_get_prefix. Qed.

Lemma mono_and_then a b : mono a -> mono b -> mono (fun asm => and_then (E := E) (a asm) (b asm)).
Proof.
  intros Ha Hb. unfold and_then. apply mono_bind; [done|]. intros []; [done|apply mono_const].
Qed.

Lemma mono_all {A} (f : A -> Assembly -> outcome E bool) l :
  (forall x, mono (f x)) -> mono (fun asm => all_outcome (fun x => f x asm) l).
Proof.
  intros Hf. induction l as [|x l IH]; cbn; [apply mono_const|].
  apply mono_bind; [done|]. intros []; [done|apply mono_const].
Qed.

Lemma mono_any {A} (f : A -> Assembly -> outcome E bool) l :
  (forall x, mono (f x)) -> mono (fun asm => any_outcome (fun x => f x asm) l).
Proof.
  intros Hf. induction l as [|x l IH]; cbn; [apply mono_const|].
  apply mono_bind; [done|]. intros []; [apply mono_const|done].
Qed.

Lemma mono_map {A B} (f : A -> Assembly -> outcome E B) l :
  (forall x, mono (f x)) -> mono (fun asm => map_outcome (fun x => f x asm) l).
Proof.
  intros Hf. induction l as [|x l IH]; cbn; [apply mono_const|].
  apply mono_bind; [done|]. intros y. apply mono_bind; [done|]. intros. apply mono_const.
Qed.

(** The definition table does not change. *)
Lemma mono_class_def {A} c (f : option ClassDef -> Assembly -> outcome E A) :
  (forall d, mono (f d)) -> mono (fun asm => f (class_ref_to_def asm c) asm).
Proof.
  intros Hf asm asm' a Hext. unfold class_ref_to_def. rewrite <- (ext_class_defs _ _ Hext).
  by apply Hf.
Qed.
End mono.

#[export] Hint Resolve mono_const mono_get_type mono_get_sig mono_get_string mono_class_ref
  mono_get_node mono_get_root mono_get_mref mono_get_field mono_get_static : mono.

(** Splits a goal [mono f] along the structure of [f]. *)
Ltac mono_step :=
  match goal with
  | |- mono ?f =>
      lazymatch f with (fun _ => _) => fail | _ => change (mono (fun asm => f asm)) end
  | |- mono (fun asm => ?m) => solve [eauto with mono]
  | |- mono (fun asm => _ ≫= _) => apply mono_bind; [|intros ?]
  | |- mono (fun asm => and_then _ _) => apply mono_and_then
  | |- mono (fun asm => all_outcome _ _) => apply mono_all; intros ?
  | |- mono (fun asm => any_outcome _ _) => apply mono_any; intros ?
  | |- mono (fun asm => map_outcome _ _) => apply mono_map; intros ?
  | |- mono (fun asm => if ?b then _ else _) => destruct b
  | |- mono (fun asm => match class_ref_to_def asm ?c with _ => _ end) =>
      apply (mono_class_def c (fun d asm => match d with Some _ => _ | None => _ end))
  | |- mono (fun asm => match ?x with _ => _ end) => destruct x
  | |- mono (fun asm => let _ := _ in _) => cbv zeta
  end.
Ltac mono_tac := repeat (intros; cbv beta; mono_step).

Section mono_types.
Context {E : Type}.

Lemma mono_is_gcref t : mono (fun asm => is_gcref (E := E) asm t).
Proof. unfold is_gcref. mono_tac. Qed.

Lemma mono_asm_name_is c n : mono (fun asm => asm_name_is (E := E) asm c n).
Proof. unfold asm_name_is. mono_tac. Qed.
Lemma mono_name_is c n : mono (fun asm => name_is (E := E) asm c n).
Proof. unfold name_is. mono_tac. Qed.
Hint Resolve mono_asm_name_is mono_name_is mono_is_gcref : mono.

Lemma mono_is_bcl_type c v n : mono (fun asm => is_bcl_type (E := E) asm c v n).
Proof. unfold is_bcl_type. mono_tac. Qed.
Lemma mono_simd_class v c : mono (fun asm => simd_class_eq (E := E) asm v c).
Proof. unfold simd_class_eq. mono_tac. Qed.
Lemma mono_try_deref t : mono (fun asm => try_deref (E := E) asm t).
Proof. unfold try_deref. mono_tac. Qed.
Lemma mono_stack_inputs m : mono (fun asm => stack_inputs (E := E) asm m).
Proof. unfold stack_inputs. mono_tac. Qed.
Lemma mono_mref_output m : mono (fun asm => mref_output (E := E) asm m).
Proof. unfold mref_output. mono_tac. Qed.
Hint Resolve mono_is_bcl_type mono_simd_class mono_try_deref mono_stack_inputs
  mono_mref_output : mono.

Lemma mono_fat_ptr a b : mono (fun asm => fat_ptr_layout_eq (E := E) asm a b).
Proof.
  intros asm asm' r Hext. unfold fat_ptr_layout_eq, class_ref_to_def.
  rewrite <- (ext_class_defs _ _ Hext). revert asm asm' r Hext.
  enough (forall d1 d2 : option ClassDef, mono (fun asm =>
    lref ← class_ref (E := E) asm a;
    rref ← class_ref asm b;
    if negb (cr_is_valuetype lref && cr_is_valuetype rref) then Ok false
    else if negb (bool_decide (cr_generics lref = [])) || negb (bool_decide (cr_generics rref = []))
    then Ok false
    else
      lname ← get_string asm (cr_name lref);
      rname ← get_string asm (cr_name rref);
      if negb (String.prefix "FatPtr" lname && String.prefix "FatPtr" rname) then Ok false
      else
        match d1, d2 with
        | Some ldef, Some rdef =>
            Ok (bool_decide (cd_explict_size ldef = cd_explict_size rdef) &&
                bool_decide (cd_align ldef = cd_align rdef) &&
                bool_decide (cd_fields ldef = cd_fields rdef))
        | _, _ => Ok true
        end)) as H by (intros asm asm' r Hext; by apply H).
  intros d1 d2. mono_tac.
Qed.
Hint Resolve mono_fat_ptr : mono.

Lemma mono_contains_gcref t : mono (fun asm => contains_gcref (E := E) asm t).
Proof.
  unfold contains_gcref. generalize 65%nat as n. intros n. revert t.
  induction n as [|n IH]; intros t; cbn [contains_gcref_impl]; [mono_tac|].
  destruct t; mono_tac.
Qed.

Lemma mono_mangle fuel t : mono (fun asm => mangle (E := E) fuel asm t).
Proof.
  revert t. induction fuel as [|fuel IH]; intros t; cbn [mangle]; [mono_tac|].
  destruct t; mono_tac; by apply IH.
Qed.

Lemma mono_assignable fuel a b : mono (fun asm => is_assignable_to (E := E) fuel asm a b).
Proof.
  revert a b. induction fuel as [|fuel IH]; intros a b; cbn [is_assignable_to]; [mono_tac|].
  mono_tac; by apply IH.
Qed.

Lemma mono_erased fuel a b : mono (fun asm => is_erased_ptr_sink (E := E) fuel asm a b).
Proof.
  revert a b. induction fuel as [|fuel IH]; intros a b; cbn [is_erased_ptr_sink]; [mono_tac|].
  mono_tac; by apply IH.
Qed.
End mono_types.

#[export] Hint Resolve mono_is_gcref mono_is_bcl_type mono_simd_class mono_try_deref
  mono_stack_inputs mono_mref_output mono_fat_ptr mono_contains_gcref mono_mangle mono_assignable
  mono_erased : mono.

Section mono_checks.
Context (tfuel : nat).

Lemma mono_fallback op l r : mono (fun asm => fallback_int tfuel op l r asm).
Proof. unfold fallback_int. mono_tac. Qed.
Hint Resolve mono_fallback : mono.

Lemma mono_binop op l r : mono (fun asm => typecheck_binop tfuel op l r asm).
Proof.
  unfold typecheck_binop, binop_add_sub, binop_eq, binop_mul, binop_compare, binop_bitwise,
    binop_rem, binop_shift, binop_div_un, binop_div. destruct op; mono_tac.
Qed.

Lemma mono_managed_object t : mono (fun asm => require_managed_object t asm).
Proof. unfold require_managed_object. mono_tac. Qed.

Lemma mono_field_access f c : mono (fun asm => validate_field_access tfuel asm f c).
Proof.
  unfold validate_field_access. apply mono_bind; [mono_tac|]. intros [].
  - cbn [negb]. intros asm asm' r Hext. unfold class_ref_to_def.
    by rewrite <- (ext_class_defs _ _ Hext).
  - mono_tac.
Qed.
Hint Resolve mono_field_access : mono.

Lemma mono_field_target t f : mono (fun asm => validate_field_target tfuel asm t f).
Proof. unfold validate_field_target. mono_tac. Qed.

Lemma mono_compatible a b : mono (fun asm => root_types_compatible tfuel a b asm).
Proof. unfold root_types_compatible. mono_tac. Qed.

Lemma mono_call_arg a b : mono (fun asm => call_arg_ok tfuel a b asm).
Proof. unfold call_arg_ok. mono_tac. Qed.

Lemma mono_is_valuetype t : mono (fun asm => is_valuetype asm t).
Proof. unfold is_valuetype. mono_tac. Qed.

Lemma mono_not_valuetype t : mono (fun asm => not_valuetype asm t).
Proof. unfold not_valuetype. mono_tac. Qed.
End mono_checks.

#[export] Hint Resolve mono_binop mono_managed_object mono_field_target mono_compatible
  mono_call_arg mono_is_valuetype mono_not_valuetype : mono.

(** ** Stable computations *)

(** The interner invariants of the arenas the checker allocates in. *)
Definition arena_ok {A} (l : list A) : Prop := NoDup l /\ Z.of_nat (length l) < 2 ^ 32 - 1.

Record interned (asm : Assembly) : Prop := {
  interned_types : arena_ok (types asm);
  interned_strings : arena_ok (strings asm);
  interned_class_refs : arena_ok (class_refs asm) }.

#[export] Instance interned_dec asm : Decision (interned asm).
Proof.
  refine (cast_if (decide (arena_ok (types asm) /\ arena_ok (strings asm) /\ arena_ok (class_refs asm))));
    [abstract (destruct_and!; by split)|abstract by intros []; auto].
Defined.

(** A success repeats, with the same answer and without effect, in every later state. *)
Definition stable {E A} (m : ST Assembly E A) : Prop :=
  steps extends m /\
  forall s s' a, m s = (s', Ok a) -> forall s2, extends s' s2 -> interned s2 -> m s2 = (s2, Ok a).

Create HintDb stable.

Section stable.
Context {E : Type}.

Lemma stable_ret {A} (a : A) : stable (mret a : ST Assembly E A).
Proof. split; [steps_tac|]. by intros ??? [= <- <-]. Qed.

Lemma stable_bind {A B} (m : ST Assembly E A) (f : A -> ST Assembly E B) :
  stable m -> (forall a, stable (f a)) -> stable (m ≫= f).
Proof.
  intros [Hs Hm] Hf. split; [apply steps_bind; [apply _|done|apply Hf]|].
  intros s s' b (s1 & a & H1 & H2)%st_bind_ok s2 Hext Hint. apply st_bind_ok. exists s2, a.
  split; [|by eapply Hf]. eapply Hm; [exact H1| |done].
  destruct (Hf a) as [Hsf _]. specialize (Hsf s1). rewrite H2 in Hsf. by etrans.
Qed.

Lemma stable_reads {A} (f : Assembly -> outcome E A) : mono f -> stable (reads f).
Proof.
  intros Hf. split; [steps_tac|]. unfold reads. intros s s' a [= <- Ha] s2 Hext _.
  f_equal. by eapply Hf.
Qed.

Lemma stable_lift {A} (m : outcome E A) : stable (lift m).
Proof. split; [steps_tac|]. unfold lift. by intros s s' a [= <- ->]. Qed.

Lemma stable_throw {A} (e : E) : stable (throw e : ST Assembly E A).
Proof. split; [steps_tac|done]. Qed.
Lemma stable_panic {A} : stable (panic : ST Assembly E A).
Proof. split; [steps_tac|done]. Qed.
Lemma stable_no_fuel {A} : stable (no_fuel : ST Assembly E A).
Proof. split; [steps_tac|done]. Qed.

Lemma stable_intern {k V} `{!EqDecision V} arena set (v : V) :
  (forall asm vs, arena (set asm vs) = vs) -> (forall asm, set asm (arena asm) = asm) ->
  (forall asm asm', extends asm asm' -> arena asm `prefix_of` arena asm') ->
  (forall asm, interned asm -> arena_ok (arena asm)) ->
  steps extends (intern_in (k := k) (E := E) arena set v) ->
  stable (intern_in (k := k) (E := E) arena set v).
Proof.
  intros Hget Hset Hpre Hok Hs. split; [done|]. unfold intern_in. intros s s' id.
  destruct (arena_intern (arena s) v) as [[vs [i b]]| | |] eqn:H; [|done..].
  intros [= <- <-] s2 Hext Hint. apply arena_intern_spec in H as (_ & Hi & _ & _).
  apply Hpre in Hext. rewrite Hget in Hext. pose proof (prefix_lookup_Some _ _ _ _ Hi Hext) as H2.
  destruct (Hok _ Hint) as [Hnd Hlen]. pose proof (lookup_lt_Some _ _ _ H2).
  rewrite (arena_intern_known (arena s2) v i Hnd ltac:(lia) H2). cbn. by rewrite Hset.
Qed.

Lemma stable_alloc_type t : stable (alloc_type (E := E) t).
Proof.
  apply stable_intern; try done; [by intros []|by intros ?? []|by intros ? []|].
  apply alloc_type_extends.
Qed.
Lemma stable_alloc_string t : stable (alloc_string (E := E) t).
Proof.
  apply stable_intern; try done; [by intros []|by intros ?? []|by intros ? []|].
  apply alloc_string_extends.
Qed.
Lemma stable_alloc_class_ref t : stable (alloc_class_ref (E := E) t).
Proof.
  apply stable_intern; try done; [by intros []|by intros ?? []|by intros ? []|].
  apply alloc_class_ref_extends.
Qed.
End stable.

#[export] Hint Resolve stable_ret stable_lift stable_throw stable_panic stable_no_fuel
  stable_alloc_type stable_alloc_string stable_alloc_class_ref : stable.

(** Splits a goal [stable m] along the structure of [m]. *)
Ltac stable_step :=
  match goal with
  | |- stable ?m => solve [eauto with stable]
  | |- stable (_ ≫= _) => apply stable_bind; [|intros ?]
  | |- stable (check _) => unfold check; apply stable_reads; mono_tac
  | |- stable (reads _) => apply stable_reads; mono_tac
  | |- stable (if ?b then _ else _) => destruct b
  | |- stable (match ?x with _ => _ end) => destruct x
  | |- stable (let _ := _ in _) => cbv zeta
  end.
Ltac stable_tac := repeat (intros; cbv beta; stable_step).

Section stable_typecheck.
Context (tfuel : nat) (sig : Interned KSig) (locals : list LocalDef).

Lemma stable_nref {E} t : stable (nref (E := E) t).
Proof. unfold nref. stable_tac. Qed.
Lemma stable_nptr {E} t : stable (nptr (E := E) t).
Proof. unfold nptr. stable_tac. Qed.
Lemma stable_bcl_class {E} n a v : stable (bcl_class (E := E) n a v).
Proof. unfold bcl_class. stable_tac. Qed.
Lemma stable_local_type loc : stable (local_type locals loc).
Proof. unfold local_type. stable_tac. Qed.
Lemma stable_argument_type arg : stable (argument_type sig arg).
Proof. unfold argument_type. stable_tac. Qed.

Lemma stable_for_args f i args ts : (forall i a t, stable (f i a t)) -> stable (for_args f i args ts).
Proof.
  intros Hf. revert i ts. induction args as [|a args IH]; intros i [|t ts]; cbn [for_args]; stable_tac.
Qed.

Hint Resolve stable_nref stable_nptr stable_bcl_class stable_local_type stable_argument_type : stable.

Lemma stable_managed_ptr_cast {A} a b : stable (managed_ptr_cast (A := A) tfuel a b).
Proof. unfold managed_ptr_cast. stable_tac. Qed.
Lemma stable_arg_type_wrong {A} m a b i : stable (call_arg_type_wrong (A := A) tfuel m a b i).
Proof. unfold call_arg_type_wrong. stable_tac. Qed.
Lemma stable_argc_wrong {A} m a b : stable (call_argc_wrong (A := A) m a b).
Proof. unfold call_argc_wrong. stable_tac. Qed.
Hint Resolve stable_managed_ptr_cast stable_arg_type_wrong stable_argc_wrong : stable.

Section step.
Context (tc : Interned KNode -> ST Assembly TypeCheckError Ty.t) (Htc : forall id, stable (tc id)).
Hint Resolve Htc : stable.

Lemma stable_call m args : stable (typecheck_call tfuel tc m args).
Proof.
  unfold typecheck_call. stable_tac. apply stable_for_args. stable_tac.
Qed.

Lemma stable_calli p s args : stable (typecheck_calli tfuel tc p s args).
Proof. unfold typecheck_calli. stable_tac; apply stable_for_args; stable_tac. Qed.
Hint Resolve stable_call stable_calli : stable.

Lemma stable_node_step n : stable (typecheck_node_step tfuel sig locals tc n).
Proof.
  destruct n; cbn [typecheck_node_step];
    unfold typecheck_int_cast, typecheck_float_cast, typecheck_ref_to_ptr, typecheck_ptr_cast,
      typecheck_ld_field_address, typecheck_ld_field, typecheck_ld_ind, typecheck_ld_len,
      typecheck_ld_elem_ref, typecheck_ld_elem, typecheck_unbox_any, typecheck_new_arr,
      typecheck_box; stable_tac.
Qed.

Context (tc_node : CILNode.t -> ST Assembly TypeCheckError Ty.t).
Context (Htc_node : forall n, stable (tc_node n)).
Context (tc_root : Interned KRoot -> ST Assembly TypeCheckError unit).
Context (Htc_root : forall id, stable (tc_root id)).
Hint Resolve Htc_node Htc_root : stable.

Lemma stable_root_step r : stable (typecheck_root_step tfuel sig locals tc tc_node tc_root r).
Proof.
  destruct r; cbn [typecheck_root_step];
    unfold typecheck_st_loc, typecheck_st_arg, typecheck_ret, typecheck_void_ret, typecheck_throw,
      typecheck_branch, typecheck_st_ind, typecheck_set_field, typecheck_call_root,
      typecheck_init_blk, typecheck_cp_blk, typecheck_cp_obj, typecheck_init_obj,
      typecheck_set_static_field, typecheck_st_elem, require_compatible, require_void,
      require_not_void, local_assignment_wrong, write_wrong_addr, fetch_node; stable_tac.
  all: apply stable_for_args; stable_tac.
Qed.
End step.

Lemma stable_typecheck_node fuel n : stable (typecheck_node tfuel sig locals fuel n).
Proof.
  revert n. induction fuel as [|fuel IH]; intros n; cbn [typecheck_node]; [stable_tac|].
  apply stable_node_step. unfold fetch_node. stable_tac.
Qed.
Hint Resolve stable_typecheck_node : stable.

Lemma stable_typecheck_root fuel r : stable (typecheck_root tfuel sig locals fuel r).
Proof.
  revert r. induction fuel as [|fuel IH]; intros r; cbn [typecheck_root]; [stable_tac|].
  apply stable_root_step; unfold fetch_node, fetch_root; stable_tac.
Qed.
End stable_typecheck.

(** ** Properties *)

Section properties.
Context (tfuel : nat) (sig : Interned KSig) (locals : list LocalDef).

(** Whatever its verdict, checking a root only adds values to the arenas: every id keeps its
    value and no definition changes. *)
Lemma typecheck_only_interns fuel r asm :
  extends asm (fst (typecheck_root tfuel sig locals fuel r asm)).
Proof. apply stable_typecheck_root. Qed.

(** a node that checks with type [t] checks with the same type in every later state of the
    assembly, and checking it again interns nothing. *)
Lemma typecheck_node_stable fuel n asm asm' t :
  typecheck_node tfuel sig locals fuel n asm = (asm', Ok t) ->
  forall asm2, extends asm' asm2 -> interned asm2 ->
  typecheck_node tfuel sig locals fuel n asm2 = (asm2, Ok t).
Proof. apply stable_typecheck_node. Qed.


(** a pointer cast that checks never starts from a pointer whose pointee holds a managed
    reference, directly or in a nested field. *)
Lemma ptr_cast_source_unmanaged fuel arg res asm asm' t :
  typecheck_node tfuel sig locals (S fuel) (CILNode.PtrCast arg res) asm = (asm', Ok t) ->
  t = PtrCastRes.as_type res /\
  exists n asm1 arg_tpe, get_node (E := TypeCheckError) asm arg = Ok n /\
    typecheck_node tfuel sig locals fuel n asm = (asm1, Ok arg_tpe) /\
    match arg_tpe with
    | Ty.Ptr inner | Ty.Ref inner =>
        exists p, get_type (E := TypeCheckError) asm1 inner = Ok p /\
                  contains_gcref (E := TypeCheckError) asm1 p = Ok false
    | Ty.Int (Int.USize | Int.ISize) | Ty.FnPtr _ => True
    | _ => False
    end.
Proof.
  cbn [typecheck_node typecheck_node_step]. unfold typecheck_ptr_cast.
  intros (s1 & arg_tpe & Harg & H)%st_bind_ok.
  apply st_bind_ok in Harg as (s0 & n & [= -> Hn] & Htc).
  apply st_bind_ok in H as (s2 & [] & Hsrc & H).
  apply st_bind_ok in H as (s3 & b & Hdst & H).
  destruct b; [by repeat (apply st_bind_ok in H as (? & ? & _ & H))|]. injection H as _ <-.
  split; [done|]. exists n, s1, arg_tpe. split_and!; [done..|].
  destruct arg_tpe; try done; try (destruct int; done).
  all: apply st_bind_ok in Hsrc as (s4 & managed & [= <- Hm] & Hsrc);
    apply bind_ok in Hm as (p & Hp & Hg); exists p; split; [done|].
  all: destruct managed; [by repeat (apply st_bind_ok in Hsrc as (? & ? & _ & Hsrc))|done].
Qed.
End properties.

(** The second test of the cast, on the target, never fires: a pointer, function pointer or word is
    never itself a managed reference, and the pointee of the target is not looked at. *)
Lemma ptr_cast_target_test_is_dead {E} asm res :
  contains_gcref (E := E) asm (PtrCastRes.as_type res) = Ok false.
Proof. by destruct res. Qed.

(** ** Witnesses *)

Section witnesses.
(** A method from a byte pointer and a word to a byte pointer, with the body [return arg0 + arg1;] and a cast of it. *)
Definition tc_sample : Assembly :=
  mk_Assembly [] [Ty.Int Int.U8] [] ∅
    [CILNode.LdArg 0; CILNode.LdArg 1; CILNode.BinOp 1%positive 2%positive BinOp.Add;
     CILNode.LdArgA 0; CILNode.PtrCast 3%positive PtrCastRes.USize]
    [CILRoot.Ret 3%positive]
    [{| inputs := [Ty.Ptr 1%positive; Ty.Int Int.USize]; output := Ty.Ptr 1%positive |}] [] [] [] [].

(** The sample after [ldarga.0] has been checked. *)
Definition tc_sample' : Assembly :=
  set_types tc_sample [Ty.Int Int.U8; Ty.Ptr 1%positive].

Lemma typecheck_node_stable_witness :
  interned tc_sample' /\
  typecheck_node 2 1%positive [] 1 (CILNode.LdArgA 0) tc_sample' = (tc_sample', Ok (Ty.Ref 2%positive)).
Proof.
  split; [by_decide|].
  apply (typecheck_node_stable 2 1%positive [] 1 (CILNode.LdArgA 0) tc_sample tc_sample');
    [vm_compute; reflexivity|done|by_decide].
Defined.


Lemma ptr_cast_source_unmanaged_witness :
  exists n asm1 arg_tpe, get_node (E := TypeCheckError) tc_sample 3%positive = Ok n /\
    typecheck_node 2 1%positive [] 2 n tc_sample = (asm1, Ok arg_tpe) /\
    match arg_tpe with
    | Ty.Ptr inner | Ty.Ref inner =>
        exists p, get_type (E := TypeCheckError) asm1 inner = Ok p /\
                  contains_gcref (E := TypeCheckError) asm1 p = Ok false
    | Ty.Int (Int.USize | Int.ISize) | Ty.FnPtr _ => True
    | _ => False
    end.
Proof.
  apply (ptr_cast_source_unmanaged 2 1%positive [] 2 3%positive PtrCastRes.USize tc_sample tc_sample
           (Ty.Int Int.USize)).
  vm_compute. reflexivity.
Defined.

(** The deep check of a pointer cast covers its source only: casting a word to a pointer at a
    managed string is accepted. *)
Example ptr_cast_accepts_managed_target :
  let asm := set_nodes (set_types empty_assembly [Ty.PlatformString]) [CILNode.Const (Const.USize 0)] in
  snd (typecheck_node 2 1%positive [] 2 (CILNode.PtrCast 1%positive (PtrCastRes.Ptr 1%positive)) asm) =
    Ok (Ty.Ptr 1%positive) /\
  contains_gcref (E := TypeCheckError) asm Ty.PlatformString = Ok true.
Proof. vm_compute. by split. Qed.
End witnesses.
