(* ===== verification/Block.v ===== *)
(** * Basic blocks (cilly/src/ir/basic_block.rs)

    Blocks of roots with their exception handlers: canonicalization of control flow, constant
    branch conditions, jump tests, and the materialization of one exception region. *)

From S2P Require Import Prelude Interner Types IR Walk.

(** A block; [handler] is the resolved handler, [handler_id] the one still to be resolved. *)
Inductive BasicBlock : Set := mk_block {
  bb_roots : list (Interned KRoot);
  block_id : Z;
  handler : option (list BasicBlock);
  handler_id : option Z }.

Definition BlockId_MAX : Z := 2 ^ 32 - 1.

Definition set_bb_roots (b : BasicBlock) (l : list (Interned KRoot)) : BasicBlock :=
  mk_block l (block_id b) (handler b) (handler_id b).

(** [BasicBlock::new]: the debug assertion refuses a handler with a handler. *)
Definition BasicBlock_new {E} (roots : list (Interned KRoot)) (id : Z)
    (h : option (list BasicBlock)) : outcome E BasicBlock :=
  let flat := match h with
              | Some l => forallb (fun b => match handler b with None => true | Some _ => false end) l
              | None => true
              end in
  if flat then Ok (mk_block roots id h None) else Panic.

Definition BasicBlock_new_raw (roots : list (Interned KRoot)) (id : Z) (hid : option Z) : BasicBlock :=
  mk_block roots id None hid.

(** ** Constant branch conditions *)

Definition constant_truthiness (value : Const.t) : option bool :=
  match value with
  | Const.Bool value => Some value
  | Const.I8 v | Const.I16 v | Const.I32 v | Const.I64 v | Const.ISize v => Some (negb (v =? 0))
  | Const.U8 v | Const.U16 v | Const.U32 v | Const.U64 v | Const.USize v => Some (negb (v =? 0))
  | Const.I128 _ | Const.U128 _ | Const.PlatformString _ | Const.F32 _ | Const.F64 _
  | Const.Null _ | Const.ByteBuffer _ _ => None
  end.

(** [lhs.partial_cmp(&rhs)] on the numbers of two float patterns. *)
Definition float_partial_cmp (lhs rhs : SpecFloat.spec_float) : option comparison :=
  SpecFloat.SFcompare lhs rhs.

Definition float_eq (lhs rhs : SpecFloat.spec_float) : bool :=
  match float_partial_cmp lhs rhs with Some Eq => true | _ => false end.

Definition constant_equality (lhs rhs : Const.t) : option bool :=
  if negb (bool_decide (Const.get_type lhs = Const.get_type rhs)) then None
  else
    match lhs, rhs with
    | Const.Bool l, Const.Bool r => Some (Bool.eqb l r)
    | Const.I8 l, Const.I8 r | Const.I16 l, Const.I16 r | Const.I32 l, Const.I32 r
    | Const.I64 l, Const.I64 r | Const.ISize l, Const.ISize r => Some (l =? r)
    | Const.U8 l, Const.U8 r | Const.U16 l, Const.U16 r | Const.U32 l, Const.U32 r
    | Const.U64 l, Const.U64 r | Const.USize l, Const.USize r => Some (l =? r)
    | Const.F32 l, Const.F32 r => Some (float_eq (f32_of_bits l) (f32_of_bits r))
    | Const.F64 l, Const.F64 r => Some (float_eq (f64_of_bits l) (f64_of_bits r))
    | _, _ => None
    end.

(** The bits of an integer constant as a [u128], with its width. *)
Definition integer_bits (value : Const.t) : option (Z * Z) :=
  match value with
  | Const.I8 v => Some (wrap 8 v, 8)
  | Const.I16 v => Some (wrap 16 v, 16)
  | Const.I32 v => Some (wrap 32 v, 32)
  | Const.I64 v | Const.ISize v => Some (wrap 64 v, 64)
  | Const.U8 v => Some (v, 8)
  | Const.U16 v => Some (v, 16)
  | Const.U32 v => Some (v, 32)
  | Const.U64 v | Const.USize v => Some (v, 64)
  | _ => None
  end.

(** [((value << shift) as i128) >> shift] *)
Definition signed_bits (value width : Z) : Z :=
  let shift := 128 - width in
  Z.shiftr (swrap 128 (wrap 128 (Z.shiftl value shift))) shift.

Definition float_order (lhs rhs : SpecFloat.spec_float) (kind : CmpKind.t)
    (accepts : comparison -> bool) : option bool :=
  match float_partial_cmp lhs rhs with
  | Some order => Some (accepts order)
  | None => Some (match kind with CmpKind.Unordered | CmpKind.Unsigned => true | _ => false end)
  end.

Definition constant_order (lhs rhs : Const.t) (kind : CmpKind.t) (accepts : comparison -> bool)
    : option bool :=
  if negb (bool_decide (Const.get_type lhs = Const.get_type rhs)) then None
  else
    match lhs, rhs with
    | Const.F32 l, Const.F32 r =>
        float_order (f64_from_f32 (f32_of_bits l)) (f64_from_f32 (f32_of_bits r)) kind accepts
    | Const.F64 l, Const.F64 r => float_order (f64_of_bits l) (f64_of_bits r) kind accepts
    | _, _ =>
        '(lhs, lhs_width) ← integer_bits lhs;
        '(rhs, rhs_width) ← integer_bits rhs;
        if negb (lhs_width =? rhs_width) then None
        else
          Some (accepts (match kind with
                         | CmpKind.Signed | CmpKind.Ordered =>
                             Z.compare (signed_bits lhs lhs_width) (signed_bits rhs rhs_width)
                         | _ => Z.compare lhs rhs
                         end))
    end.

Definition is_lt (c : comparison) : bool := match c with Lt => true | _ => false end.
Definition is_gt (c : comparison) : bool := match c with Gt => true | _ => false end.
Definition is_eq (c : comparison) : bool := match c with Eq => true | _ => false end.

Section block_ops.
Context {E : Type}.
Implicit Types asm : Assembly.

(** The closure [constant] of [constant_branch_value]. *)
Definition constant_node asm (node : Interned KNode) : outcome E (option Const.t) :=
  n ← get_node asm node;
  Ok (match n with CILNode.Const value => Some value | _ => None end).

(** [f(constant(lhs)?, constant(rhs)?)]; the second read happens after the first. *)
Definition constant_pair asm (lhs rhs : Interned KNode) (f : Const.t -> Const.t -> option bool)
    : outcome E (option bool) :=
  l ← constant_node asm lhs;
  match l with
  | None => Ok None
  | Some l =>
      r ← constant_node asm rhs;
      Ok (match r with Some r => f l r | None => None end)
  end.

Definition constant_branch_value (condition : BranchCond.t) asm : outcome E (option bool) :=
  match condition with
  | BranchCond.IsTrue value => c ← constant_node asm value; Ok (c ≫= constant_truthiness)
  | BranchCond.IsFalse value =>
      c ← constant_node asm value; Ok (negb <$> (c ≫= constant_truthiness))
  | BranchCond.Eq lhs rhs => constant_pair asm lhs rhs constant_equality
  | BranchCond.Ne lhs rhs =>
      constant_pair asm lhs rhs (fun l r => negb <$> constant_equality l r)
  | BranchCond.Lt lhs rhs kind =>
      constant_pair asm lhs rhs (fun l r => constant_order l r kind is_lt)
  | BranchCond.Gt lhs rhs kind =>
      constant_pair asm lhs rhs (fun l r => constant_order l r kind is_gt)
  | BranchCond.Le lhs rhs kind =>
      constant_pair asm lhs rhs (fun l r => constant_order l r kind (fun o => is_lt o || is_eq o))
  | BranchCond.Ge lhs rhs kind =>
      constant_pair asm lhs rhs (fun l r => constant_order l r kind (fun o => is_gt o || is_eq o))
  end.

(** ** [canonicalize_control_flow] *)

(** The loop over the roots: the rewritten prefix, up to the first unconditional transfer. *)
Fixpoint canonical_roots (roots : list (Interned KRoot)) : ST Assembly E (list (Interned KRoot)) :=
  match roots with
  | [] => mret []
  | root :: rest =>
      r ← fetch_root root;
      match r with
      | CILRoot.Branch target sub_target cond =>
          value ← (match cond with
                   | Some condition => reads (constant_branch_value condition)
                   | None => mret None
                   end : ST Assembly E (option bool));
          match value with
          | Some false => canonical_roots rest
          | Some true => id ← alloc_root (CILRoot.Branch target sub_target None); mret [id]
          | None =>
              match cond with
              | None => mret [root]
              | Some _ => l ← canonical_roots rest; mret (root :: l)
              end
          end
      | CILRoot.Ret _ | CILRoot.VoidRet | CILRoot.Throw _ | CILRoot.ReThrow
      | CILRoot.Unreachable _ => mret [root]
      | _ => l ← canonical_roots rest; mret (root :: l)
      end
  end.

Definition is_leave_pad asm (root : Interned KRoot) : outcome E bool :=
  r ← get_root asm root;
  Ok (match r with CILRoot.ExitSpecialRegion _ _ => true | _ => false end).

Definition has_legacy_leave_pads (roots : list (Interned KRoot)) asm : outcome E bool :=
  any_outcome (is_leave_pad asm) roots.

Fixpoint canonicalize_control_flow (self : BasicBlock) : ST Assembly E BasicBlock :=
  match self with
  | mk_block roots id h hid =>
      let handlers :=
        match h with
        | Some l => l ← map_st canonicalize_control_flow l; mret (Some l)
        | None => mret None
        end : ST Assembly E (option (list BasicBlock)) in
      pads ← reads (has_legacy_leave_pads roots);
      if (pads : bool) then h ← handlers; mret (mk_block roots id h hid)
      else
        roots ← canonical_roots roots;
        h ← handlers;
        mret (mk_block roots id h hid)
  end.
End block_ops.

(** ** Queries *)

Section block_queries.
Context {E : Type}.
Implicit Types asm : Assembly.

(** A [filter_map] over roots that reads the arena. *)
Fixpoint filter_map_roots {A} (f : CILRoot.t -> option A) asm (roots : list (Interned KRoot))
    : outcome E (list A) :=
  match roots with
  | [] => Ok []
  | root :: rest =>
      r ← get_root asm root;
      l ← filter_map_roots f asm rest;
      Ok (match f r with Some a => a :: l | None => l end)
  end.

(** [blockid_from_jump] of opt/mod.rs. *)
Definition blockid_from_jump (target sub_target : Z) : Z :=
  if sub_target =? 0 then target else sub_target.

Definition targets (self : BasicBlock) asm : outcome E (list Z) :=
  filter_map_roots (fun r =>
    match r with
    | CILRoot.Branch target sub_target _ =>
        if sub_target =? 0 then Some target else Some sub_target
    | CILRoot.ExitSpecialRegion target _ => Some target
    | _ => None
    end) asm (bb_roots self).

Definition targets_with_sub (self : BasicBlock) asm : outcome E (list (Z * Z)) :=
  filter_map_roots (fun r =>
    match r with
    | CILRoot.Branch target sub_target _ => Some (target, sub_target)
    | _ => None
    end) asm (bb_roots self).

(** All roots of a block and of its handlers. *)
Fixpoint iter_roots (self : BasicBlock) : list (Interned KRoot) :=
  match self with
  | mk_block roots _ h _ =>
      roots ++ match h with Some l => concat (map iter_roots l) | None => [] end
  end.

Definition is_meaningfull (r : CILRoot.t) : bool :=
  match r with CILRoot.Nop | CILRoot.SourceFileInfo _ _ _ _ _ => false | _ => true end.

(** The roots the iterator [meaningfull_roots] yields. *)
Definition meaningfull_roots (self : BasicBlock) asm : outcome E (list CILRoot.t) :=
  filter_map_roots (fun r => if is_meaningfull r then Some r else None) asm (iter_roots self).

(** [opt::is_branch_unconditional] *)
Definition is_branch_unconditional (cond : option BranchCond.t) : bool :=
  match cond with None => true | Some _ => false end.

Definition is_direct_jump (self : BasicBlock) asm : outcome E (option (Z * Z)) :=
  roots ← meaningfull_roots self asm;
  Ok (match roots with
      | [CILRoot.Branch target sub_target cond] =>
          if is_branch_unconditional cond then Some (target, sub_target) else None
      | _ => None
      end).

Definition is_only_rethrow (self : BasicBlock) asm : outcome E bool :=
  roots ← meaningfull_roots self asm;
  Ok (match roots with [CILRoot.ReThrow] => true | _ => false end).

Definition final_uncond_jump (self : BasicBlock) asm : outcome E (option Z) :=
  match list.last (bb_roots self) with
  | None => Ok None
  | Some root =>
      r ← get_root asm root;
      Ok (match r with
          | CILRoot.Branch target sub_target None => if sub_target =? 0 then Some target else None
          | _ => None
          end)
  end.

Definition remove_handler (self : BasicBlock) : ST Assembly E BasicBlock :=
  roots ← map_st (fun root =>
    r ← fetch_root root;
    match r with
    | CILRoot.ExitSpecialRegion target _ => alloc_root (CILRoot.Branch target 0 None)
    | _ => mret root
    end) (bb_roots self);
  mret (mk_block roots (block_id self) None (handler_id self)).
End block_queries.

(** ** Exception regions *)

(** The iteration order of a [HashSet]: the distinct elements, in an order the program does not
    control. *)
Class HashOrder := {
  hash_iter : list (Z * Z) -> list (Z * Z);
  hash_iter_perm l : hash_iter l ≡ₚ remove_dups l }.

Section exception_regions.
Context {E : Type} `{!HashOrder}.
Implicit Types asm : Assembly.

Definition find_bb (id : Z) (bbs : list BasicBlock) : outcome E BasicBlock :=
  unwrap (List.find (fun bb => block_id bb =? id) bbs).

(** The targets one round of [block_gc] reaches from [resurecting]; a sub-target is a panic. *)
Definition gc_targets (bbs : list BasicBlock) asm (resurecting : list Z) : outcome E (list Z) :=
  tss ← map_outcome (fun id => bb ← find_bb id bbs; targets_with_sub bb asm) resurecting;
  let ts := concat tss in
  if forallb (fun t => snd t =? 0) ts then Ok (map fst ts) else Panic.

(** The loop of [block_gc]; sets are duplicate-free lists, whose order the result ignores. *)
Fixpoint gc_loop (fuel : nat) (bbs : list BasicBlock) asm (alive resurecting to_resurect : list Z)
    : outcome E (list Z) :=
  match fuel with
  | O => NoFuel
  | S fuel' =>
      match to_resurect with
      | [] => Ok (alive ++ resurecting)
      | _ =>
          let alive := alive ++ resurecting in
          let resurecting := to_resurect in
          ts ← gc_targets bbs asm resurecting;
          let fresh := List.filter (fun t => negb (bool_decide (t ∈ alive)) &&
                                             negb (bool_decide (t ∈ resurecting))) ts in
          gc_loop fuel' bbs asm alive resurecting (remove_dups fresh)
      end
  end.

Definition block_gc (fuel : nat) (entrypoint : Z) (bbs : list BasicBlock) asm
    : outcome E (list BasicBlock) :=
  alive ← gc_loop fuel bbs asm [] [] [entrypoint];
  Ok (List.filter (fun bb => bool_decide (block_id bb ∈ alive)) bbs).

Definition fix_for_exception_handler (self : BasicBlock) (id : Z) : ST Assembly E BasicBlock :=
  roots ← map_st (fun root =>
    r ← fetch_root root;
    match r with
    | CILRoot.Branch target sub_target cond =>
        if sub_target =? 0 then alloc_root (CILRoot.Branch id target cond) else panic
    | _ => mret root
    end) (bb_roots self);
  mret (set_bb_roots self roots).

(** Whether control cannot fall through the end of a handler block. *)
Definition ends_with_transfer (terminal : BasicBlock) asm : outcome E bool :=
  roots ← meaningfull_roots terminal asm;
  Ok (match list.last roots with
      | Some (CILRoot.ReThrow | CILRoot.Throw _ | CILRoot.Ret _ | CILRoot.VoidRet
             | CILRoot.Unreachable _ | CILRoot.ExitSpecialRegion _ _) => true
      | Some (CILRoot.Branch _ _ cond) => is_branch_unconditional cond
      | _ => false
      end).

(** The launching pads of a protected block, one per distinct target. *)
Definition launching_pads (id : Z) (ts : list (Z * Z)) : ST Assembly E (list (Interned KRoot)) :=
  map_st (fun '(target, sub_target) =>
    if sub_target =? 0 then alloc_root (CILRoot.ExitSpecialRegion target id) else panic)
    (hash_iter ts).

Definition close_handler (handler : list BasicBlock) : ST Assembly E (list BasicBlock) :=
  match list.last handler with
  | None => panic
  | Some terminal =>
      closed ← reads (ends_with_transfer terminal);
      if (closed : bool) then mret handler
      else
        rethrow ← alloc_root CILRoot.ReThrow;
        mret (removelast handler ++ [set_bb_roots terminal (bb_roots terminal ++ [rethrow])])
  end.

Definition resolve_exception_handler (fuel : nat) (self : BasicBlock) (hid : Z)
    (handler_bbs : list BasicBlock) : ST Assembly E BasicBlock :=
  match handler self with
  | Some _ => panic
  | None =>
      h ← reads (block_gc fuel hid handler_bbs);
      let id := block_id self in
      h ← map_st (fun bb => fix_for_exception_handler bb id) h;
      start ← alloc_root (CILRoot.Branch id hid None);
      jumpstarter ← lift (BasicBlock_new [start] BlockId_MAX None);
      ts ← reads (targets_with_sub self);
      pads ← launching_pads id ts;
      self ← fix_for_exception_handler (set_bb_roots self (bb_roots self ++ pads)) id;
      h ← close_handler (jumpstarter :: h);
      mret (mk_block (bb_roots self) id (Some h) None)
  end.

Definition resolve_exception_handlers (fuel : nat) (self : BasicBlock)
    (handler_bbs : list BasicBlock) : ST Assembly E BasicBlock :=
  match handler_id self with
  | None => mret self
  | Some hid => resolve_exception_handler fuel self hid handler_bbs
  end.
End exception_regions.
