(* ===== verification/BlockTheory.v ===== *)
(** * Correctness of basic-block canonicalization and handler garbage collection *)

From S2P Require Import Prelude Interner Types IR Arenas Walk Block.
From Stdlib Require Import Floats.SpecFloat.

(** ** The decisions of CIL's conditional branches *)

(** A constant as it lies on the evaluation stack: integers of at most 32 bits are widened to an
    [int32], floats to the internal [F] type. *)
Inductive StackSlot : Set :=
| SlotInt (width : Z) (native : bool) (signed : Z)
| SlotFloat (f : spec_float).

Definition const_slot (c : Const.t) : option StackSlot :=
  match c with
  | Const.Bool b => Some (SlotInt 32 false (if b then 1 else 0))
  | Const.I8 v | Const.I16 v | Const.I32 v | Const.U8 v | Const.U16 v | Const.U32 v =>
      Some (SlotInt 32 false (swrap 32 v))
  | Const.I64 v | Const.U64 v => Some (SlotInt 64 false (swrap 64 v))
  | Const.ISize v | Const.USize v => Some (SlotInt 64 true (swrap 64 v))
  | Const.F32 b => Some (SlotFloat (f64_from_f32 (f32_of_bits b)))
  | Const.F64 b => Some (SlotFloat (f64_of_bits b))
  | _ => None
  end.

(** What a comparing branch sees: the signed or unsigned order of integers; for floats the order,
    or [None] when unordered. *)
Definition slot_compare (unsigned : bool) (a b : StackSlot) : option (option comparison) :=
  match a, b with
  | SlotInt w n x, SlotInt w' n' y =>
      if (w =? w') && Bool.eqb n n' then
        Some (Some (if unsigned then Z.compare (wrap w x) (wrap w y) else Z.compare x y))
      else None
  | SlotFloat x, SlotFloat y => Some (SFcompare x y)
  | _, _ => None
  end.

(** [beq], [bne.un] and the ordering branches, whose [.un] forms are also taken when unordered. *)
Definition branch_decides (test : comparison -> bool) (unordered : bool) (unsigned : bool)
    (a b : StackSlot) : option bool :=
  o ← slot_compare unsigned a b;
  Some (match o with Some c => test c | None => unordered end).

Definition is_un (k : CmpKind.t) : bool :=
  match k with CmpKind.Unordered | CmpKind.Unsigned => true | _ => false end.

Definition slot_truth (a : StackSlot) : option bool :=
  match a with SlotInt _ _ x => Some (negb (x =? 0)) | SlotFloat _ => None end.

(** The decision of the instruction the exporter emits for a condition on two slots. *)
Definition cond_decides (c : BranchCond.t) (a b : StackSlot) : option bool :=
  match c with
  | BranchCond.IsTrue _ => slot_truth a
  | BranchCond.IsFalse _ => negb <$> slot_truth a
  | BranchCond.Eq _ _ => branch_decides is_eq false false a b
  | BranchCond.Ne _ _ => branch_decides (fun c => negb (is_eq c)) true false a b
  | BranchCond.Lt _ _ k => branch_decides is_lt (is_un k) (is_un k) a b
  | BranchCond.Gt _ _ k => branch_decides is_gt (is_un k) (is_un k) a b
  | BranchCond.Le _ _ k => branch_decides (fun c => is_lt c || is_eq c) (is_un k) (is_un k) a b
  | BranchCond.Ge _ _ k => branch_decides (fun c => is_gt c || is_eq c) (is_un k) (is_un k) a b
  end.

(** A signed order of two small unsigned constants, which the folding takes at their own width and
    the stack at 32 bits. *)
Definition small_unsigned_order (c : BranchCond.t) (l : Const.t) : bool :=
  match c with
  | BranchCond.Lt _ _ k | BranchCond.Gt _ _ k | BranchCond.Le _ _ k | BranchCond.Ge _ _ k =>
      negb (is_un k) && match l with Const.U8 _ | Const.U16 _ => true | _ => false end
  | _ => false
  end.

(** ** Machine order *)

Lemma swrap_of_u w v : 0 < w -> in_u w v -> swrap w v = if v <? 2 ^ (w - 1) then v else v - 2 ^ w.
Proof.
  intros Hw Hv. unfold in_u, swrap in *. pose proof (pow2_split w Hw).
  destruct (Z.ltb_spec v (2 ^ (w - 1))).
  - rewrite Z.mod_small by lia. lia.
  - rewrite <- (Z_mod_plus_full _ (-1)), Z.mod_small by lia. lia.
Qed.

Lemma signed_bits_swrap w v : 0 < w <= 128 -> in_u w v -> signed_bits v w = swrap w v.
Proof.
  intros Hw Hv. unfold signed_bits. rewrite Z.shiftl_mul_pow2, Z.shiftr_div_pow2 by lia.
  assert (Hp : 2 ^ 128 = 2 ^ w * 2 ^ (128 - w)) by (rewrite <- Z.pow_add_r by lia; f_equal; lia).
  assert (Hp' : 2 ^ (128 - 1) = 2 ^ (w - 1) * 2 ^ (128 - w))
    by (rewrite <- Z.pow_add_r by lia; f_equal; lia).
  assert (0 < 2 ^ (128 - w)) by (apply Z.pow_pos_nonneg; lia). unfold in_u in *.
  rewrite wrap_id by (unfold in_u; nia).
  rewrite (swrap_of_u 128), (swrap_of_u w) by (unfold in_u; try lia; nia).
  rewrite Hp, Hp'. destruct (Z.ltb_spec v (2 ^ (w - 1))), (Z.ltb_spec (v * 2 ^ (128 - w)) (2 ^ (w - 1) * 2 ^ (128 - w)));
    try nia; [by rewrite Z.div_mul by lia|].
  replace (v * 2 ^ (128 - w) - 2 ^ w * 2 ^ (128 - w)) with ((v - 2 ^ w) * 2 ^ (128 - w)) by lia.
  by rewrite Z.div_mul by lia.
Qed.

Lemma compare_same a b c d :
  (a < b <-> c < d) -> (a = b <-> c = d) -> Z.compare a b = Z.compare c d.
Proof. intros. destruct (Z.compare_spec a b), (Z.compare_spec c d); try done; exfalso; lia. Qed.

Lemma is_eq_compare a b : is_eq (Z.compare a b) = (a =? b).
Proof. destruct (Z.compare_spec a b), (Z.eqb_spec a b); try done; lia. Qed.

(** The integer constants of one type: width of the type, width of its stack slot, and the reading
    of both orders through the slot. *)
Definition int_const (c : Const.t) : option (Z * Z * bool * Z) :=
  match c with
  | Const.I8 v => Some (8, 32, false, v) | Const.I16 v => Some (16, 32, false, v)
  | Const.I32 v => Some (32, 32, false, v) | Const.I64 v => Some (64, 64, false, v)
  | Const.ISize v => Some (64, 64, true, v)
  | Const.U8 v => Some (8, 32, false, v) | Const.U16 v => Some (16, 32, false, v)
  | Const.U32 v => Some (32, 32, false, v) | Const.U64 v => Some (64, 64, false, v)
  | Const.USize v => Some (64, 64, true, v)
  | _ => None
  end.

Lemma in_s_widen k w v : 0 < k <= w -> in_s k v -> in_s w v.
Proof.
  unfold in_s. intros Hk Hv. assert (2 ^ (k - 1) <= 2 ^ (w - 1)) by (apply Z.pow_le_mono_r; lia). lia.
Qed.

Lemma in_u_widen k w v : 0 < k < w -> in_u k v -> in_s w v.
Proof.
  unfold in_s, in_u. intros Hk Hv.
  assert (2 ^ k <= 2 ^ (w - 1)) by (apply Z.pow_le_mono_r; lia). lia.
Qed.

Lemma wrap_of_s w v : 0 < w -> in_s w v -> wrap w v = if v <? 0 then v + 2 ^ w else v.
Proof.
  intros Hw Hv. unfold in_s, wrap in *. pose proof (pow2_split w Hw).
  destruct (Z.ltb_spec v 0).
  - rewrite <- (Z_mod_plus_full _ 1), Z.mod_small by lia. lia.
  - apply Z.mod_small. lia.
Qed.

(** Two constants of one integer type: folding and the branch see the same orders. *)
Lemma int_order_agrees l r lb rb wl wr (un : bool) :
  Const.get_type l = Const.get_type r -> Const.valid l -> Const.valid r ->
  integer_bits l = Some (lb, wl) -> integer_bits r = Some (rb, wr) ->
  (un = false -> match l with Const.U8 _ | Const.U16 _ => False | _ => True end) ->
  exists w n x y, const_slot l = Some (SlotInt w n x) /\ const_slot r = Some (SlotInt w n y) /\
    wl = wr /\
    (if un then Z.compare lb rb else Z.compare (signed_bits lb wl) (signed_bits rb wr)) =
    (if un then Z.compare (wrap w x) (wrap w y) else Z.compare x y).
Proof.
  intros Ht Hl Hr Hlb Hrb Hun.
  destruct l; try discriminate; destruct r; try discriminate; cbn in Hlb, Hrb, Hl, Hr;
    injection Hlb as <- <-; injection Hrb as <- <-; do 4 eexists;
    (split; [reflexivity|]); (split; [reflexivity|]); (split; [reflexivity|]); destruct un.
  all: repeat first
    [ rewrite signed_bits_swrap by (first [lia | by apply wrap_in_u | done])
    | rewrite swrap_wrap by lia ].
  all: repeat match goal with
    | H : in_s ?k ?v |- context [swrap 32 ?v] =>
        rewrite (swrap_id 32 v) by (first [lia | apply (in_s_widen k); [lia|done]])
    | H : in_u ?k ?v |- context [swrap 32 ?v] =>
        rewrite (swrap_id 32 v) by (first [lia | apply (in_u_widen k); [lia|done]])
    | H : in_s ?k ?v |- context [swrap ?k ?v] => rewrite (swrap_id k v) by (lia || done)
    | |- context [wrap ?w (swrap ?w ?v)] => rewrite (wrap_swrap w v) by lia
    end; try reflexivity; try (by destruct (Hun eq_refl)).
  all: repeat match goal with
    | H : in_u ?w ?v |- context [wrap ?w ?v] => rewrite (wrap_id w v H)
    end; try reflexivity.
  all: apply compare_same; unfold in_s, in_u, wrap in *; cbn in *; Z.to_euclidean_division_equations; lia.
Qed.

Lemma int_eq_agrees l r b :
  constant_equality l r = Some b -> Const.valid l -> Const.valid r ->
  match l with Const.F32 _ => False | _ => True end ->
  exists sl sr, const_slot l = Some sl /\ const_slot r = Some sr /\
    (exists o, slot_compare false sl sr = Some o /\
       b = match o with Some c => is_eq c | None => false end).
Proof.
  unfold constant_equality. case_bool_decide as Ht; cbn; [|done]. intros H Hl Hr Hf.
  destruct l; try done; destruct r; try done; cbn in H, Hl, Hr; injection H as <-;
    do 2 eexists; (split; [reflexivity|]); (split; [reflexivity|]); cbn.
  all: try (eexists; split; [reflexivity|]; cbv beta iota; rewrite is_eq_compare;
    match goal with |- (?a =? ?b) = (?c =? ?d) =>
      destruct (Z.eqb_spec a b), (Z.eqb_spec c d); try done; exfalso end).
  all: try (match goal with H : ?a <> ?b, H' : swrap ?w ?a = swrap ?w ?b |- _ => apply H end;
    match goal with
    | Ha : in_s ?k ?a, Hb : in_s ?k ?b, H' : swrap ?w ?a = swrap ?w ?b |- _ =>
        rewrite !swrap_id in H' by (first [lia | eapply (in_s_widen k); [lia|done]]); done
    | Ha : in_u ?k ?a, Hb : in_u ?k ?b, H' : swrap ?w ?a = swrap ?w ?b |- _ =>
        apply (f_equal (wrap w)) in H'; rewrite !wrap_swrap in H' by lia;
        rewrite !wrap_id in H' by (unfold in_u in *; cbn in *; lia); done
    end).
  all: try congruence.
  - eexists. split; [reflexivity|].
    by match goal with |- context [Bool.eqb ?x ?y] => destruct x, y end.
  - eexists. split; [reflexivity|]. unfold float_eq, float_partial_cmp.
    by destruct (SFcompare _ _) as [[]|].
Qed.

(** The constants a condition compares; a unary condition has its operand twice. *)
Definition cond_constants (c : BranchCond.t) (asm : Assembly) : option (Const.t * Const.t) :=
  let const id := n ← nodes asm !! slot id;
                  match n with CILNode.Const v => Some v | _ => None end in
  match BranchCond.nodes c with
  | [a] => l ← const a; Some (l, l)
  | [a; b] => l ← const a; r ← const b; Some (l, r)
  | _ => None
  end.

(** Folding decides like the stack except for small unsigned constants under a signed order;
    equality of two [f32]s is left out. *)
Definition folds_like_stack (c : BranchCond.t) (l : Const.t) : bool :=
  negb (small_unsigned_order c l) &&
  match c, l with
  | (BranchCond.Eq _ _ | BranchCond.Ne _ _), Const.F32 _ => false
  | _, _ => true
  end.

Lemma constant_node_ok {E} asm id o :
  constant_node (E := E) asm id = Ok o ->
  o = (n ← nodes asm !! slot id; match n with CILNode.Const v => Some v | _ => None end).
Proof. unfold constant_node. intros (n & Hn%get_node_ok & [= <-])%bind_ok. by rewrite Hn. Qed.

Lemma constant_pair_ok {E} asm a b f v :
  constant_pair (E := E) asm a b f = Ok (Some v) ->
  exists l r, (n ← nodes asm !! slot a; match n with CILNode.Const v => Some v | _ => None end) = Some l /\
    (n ← nodes asm !! slot b; match n with CILNode.Const v => Some v | _ => None end) = Some r /\
    f l r = Some v.
Proof.
  unfold constant_pair. intros (l & <-%constant_node_ok & H)%bind_ok.
  destruct l as [l|]; [|done]. apply bind_ok in H as (r & <-%constant_node_ok & [= H]).
  destruct r; [eauto|done].
Qed.

Lemma constant_order_agrees l r kind acc b :
  constant_order l r kind acc = Some b -> Const.valid l -> Const.valid r ->
  (is_un kind = false -> match l with Const.U8 _ | Const.U16 _ => False | _ => True end) ->
  exists sl sr, const_slot l = Some sl /\ const_slot r = Some sr /\
    branch_decides acc (is_un kind) (is_un kind) sl sr = Some b.
Proof.
  unfold constant_order. case_bool_decide as Ht; cbn [negb]; [|done]. intros H Hl Hr Hsm.
  assert (Hint : ('(lb, wl) ← integer_bits l; '(rb, wr) ← integer_bits r;
            if negb (wl =? wr) then None
            else Some (acc (match kind with
                            | CmpKind.Signed | CmpKind.Ordered =>
                                Z.compare (signed_bits lb wl) (signed_bits rb wr)
                            | _ => Z.compare lb rb end))) = Some b ->
    exists sl sr, const_slot l = Some sl /\ const_slot r = Some sr /\
      branch_decides acc (is_un kind) (is_un kind) sl sr = Some b).
  { intros ([lb wl] & Hlb & ([rb wr] & Hrb & Hw)%bind_Some)%bind_Some.
    destruct (int_order_agrees _ _ _ _ _ _ (is_un kind) Ht Hl Hr Hlb Hrb Hsm)
      as (w & n & x & y & Hx & Hy & -> & Hc).
    rewrite Z.eqb_refl in Hw. cbn in Hw. do 2 eexists. split; [done|]. split; [done|].
    unfold branch_decides, slot_compare. rewrite Z.eqb_refl, Bool.eqb_reflx. cbn.
    rewrite <- Hc. destruct kind; done. }
  destruct l; try (by apply Hint in H); destruct r; try (by apply Hint in H); try discriminate.
  all: do 2 eexists; split; [reflexivity|]; split; [reflexivity|].
  all: unfold float_order, float_partial_cmp in H; unfold branch_decides, slot_compare; cbn.
  all: destruct (SFcompare _ _); [done|]; by destruct kind.
Qed.


(** ** Canonicalization keeps the behaviour of a block *)

(** How control leaves a block. *)
Inductive BlockExit : Set :=
| Jump (target sub_target : Z)
| Leave (r : CILRoot.t)
| FallThrough.

Inductive BlockEvent : Set :=
| Executed (r : CILRoot.t)
| Tested (c : BranchCond.t).

Definition is_exit (r : CILRoot.t) : bool :=
  match r with
  | CILRoot.Ret _ | CILRoot.VoidRet | CILRoot.Throw _ | CILRoot.ReThrow | CILRoot.Unreachable _
  | CILRoot.ExitSpecialRegion _ _ => true
  | _ => false
  end.

Section behaviour.
Context {E : Type}.
(** The outcome of each condition, and which conditions are constant. *)
Context (dec : BranchCond.t -> bool) (is_const : BranchCond.t -> bool).

Definition tested (c : BranchCond.t) : list BlockEvent := if is_const c then [] else [Tested c].

(** The roots a block executes and the conditions it tests, and how it is left. *)
Fixpoint run (asm : Assembly) (l : list (Interned KRoot)) : option (list BlockEvent * BlockExit) :=
  match l with
  | [] => Some ([], FallThrough)
  | root :: rest =>
      r ← roots asm !! slot root;
      match r with
      | CILRoot.Branch t s None => Some ([], Jump t s)
      | CILRoot.Branch t s (Some c) =>
          if dec c then Some (tested c, Jump t s)
          else '(ev, e) ← run asm rest; Some (tested c ++ ev, e)
      | _ =>
          if is_exit r then Some ([], Leave r)
          else '(ev, e) ← run asm rest; Some (Executed r :: ev, e)
      end
  end.

Lemma run_extends asm asm' l x : extends asm asm' -> run asm l = Some x -> run asm' l = Some x.
Proof.
  intros Hext. revert x. induction l as [|root l IH]; intros x; cbn [run]; [done|].
  intros (r & Hr & Hx)%bind_Some. apply bind_Some. exists r.
  split; [destruct Hext; by eapply prefix_lookup_Some|].
  destruct r; try (destruct cond as [c|]; [destruct (dec c)|]); try done; cbn in Hx |- *;
    apply bind_Some in Hx as ([ev e] & Hev & [= <-]); by rewrite (IH _ Hev).
Qed.

Definition consistent asm : Prop := forall c,
  match constant_branch_value (E := E) c asm with
  | Ok (Some b) => dec c = b /\ is_const c = true
  | _ => is_const c = false
  end.

Lemma constant_branch_nodes c asm asm' :
  nodes asm = nodes asm' -> constant_branch_value (E := E) c asm = constant_branch_value c asm'.
Proof.
  intros Hn. destruct c; cbn; unfold constant_pair, constant_node, get_node; by rewrite Hn.
Qed.

(** Canonicalization allocates roots only. *)
Definition only_roots asm asm' : Prop := extends asm asm' /\ nodes asm = nodes asm'.

#[local] Instance only_roots_preorder : PreOrder only_roots.
Proof. split; [by split|]. intros ??? [] []. split; [by etrans|congruence]. Qed.

Lemma only_roots_consistent asm asm' : only_roots asm asm' -> consistent asm -> consistent asm'.
Proof. intros [_ Hn] H c. specialize (H c). by rewrite <- (constant_branch_nodes c asm asm' Hn). Qed.

Lemma alloc_root_spec r asm asm' id :
  alloc_root (E := E) r asm = (asm', Ok id) ->
  only_roots asm asm' /\ roots asm' !! slot id = Some r.
Proof.
  pose proof (alloc_root_extends (E := E) r asm) as Hext.
  unfold alloc_root, intern_in in *.
  destruct (arena_intern _ _) as [[vs' [i b]]| | |] eqn:H; cbn in *; intros [= <- <-].
  apply arena_intern_spec in H as (_ & ? & _). by split; [split|].
Qed.

Lemma fetch_root_ok root asm asm' r :
  fetch_root (E := E) root asm = (asm', Ok r) -> asm' = asm /\ roots asm !! slot root = Some r.
Proof. intros [= <- H]. split; [done|]. by apply get_root_ok in H. Qed.

Lemma canonical_roots_run l asm asm' l' x :
  canonical_roots (E := E) l asm = (asm', Ok l') -> consistent asm ->
  only_roots asm asm' /\ (run asm l = Some x -> run asm' l' = Some x).
Proof.
  revert asm' l' x. induction l as [|root l IH]; intros asm' l' x; cbn [canonical_roots].
  { by intros [= <- <-]. }
  intros (s & r & [-> Hr]%fetch_root_ok & H)%st_bind_ok Hc.
  assert (Hkeep : forall (s' : Assembly) l'', (l ← canonical_roots (E := E) l; mret (root :: l)) asm = (s', Ok l'') ->
    exists l1, canonical_roots (E := E) l asm = (s', Ok l1) /\ l'' = root :: l1).
  { intros s' l'' (s1 & l1 & H1 & [= <- <-])%st_bind_ok. eauto. }
  assert (Hstay : forall l1, (forall y, run asm l = Some y -> run asm' l1 = Some y) ->
      only_roots asm asm' -> run asm (root :: l) = Some x -> run asm' (root :: l1) = Some x).
  { intros l1 Hrun [[? ? ? ? ? Hroots] _] Hx. cbn [run] in Hx |- *. rewrite Hr in Hx.
    rewrite (prefix_lookup_Some _ _ _ _ Hr Hroots). cbn in Hx |- *.
    destruct r; try (destruct cond as [c|]; [destruct (dec c)|]); try done; cbn in Hx |- *;
      apply bind_Some in Hx as ([ev e] & Hev & Hx); by rewrite (Hrun _ Hev). }
  cbn [run]. rewrite Hr. cbn.
  destruct r; try (injection H as <- <-; split; [done|]; intros Hx; cbn; rewrite Hr; exact Hx);
    try (apply Hkeep in H as (l1 & H1 & ->); split;
         [by eapply IH|]; intros Hx; apply Hstay;
         [intros y; by eapply IH|by eapply (IH _ _ x)|by cbn [run]; rewrite Hr]).
  destruct cond as [c|]; [|injection H as <- <-; split; [done|]; intros Hx; cbn; rewrite Hr; exact Hx].
  apply st_bind_ok in H as (s & v & [= -> Hv] & H). pose proof (Hc c) as Hcc. rewrite Hv in Hcc.
  destruct v as [[]|].
  - apply st_bind_ok in H as (s1 & id & [Ho Hid]%alloc_root_spec & [= <- <-]). split; [done|].
    destruct Hcc as [-> Hk]. unfold tested. rewrite Hk. intros [= <-]. cbn. by rewrite Hid.
  - destruct Hcc as [-> Hk]. unfold tested. rewrite Hk. cbn. split; [by eapply (IH _ _ x)|].
    intros ([ev e] & Hev & [= <-])%bind_Some. by eapply IH.
  - apply Hkeep in H as (l1 & H1 & ->). split; [by eapply (IH _ _ x)|]. intros Hx. apply Hstay.
    + intros y; by eapply IH.
    + by eapply (IH _ _ x).
    + cbn [run]. by rewrite Hr.
Qed.

(** Canonical roots are canonical in every later state. *)
Lemma canonical_roots_again l asm asm' l' :
  canonical_roots (E := E) l asm = (asm', Ok l') ->
  only_roots asm asm' /\
  forall s, only_roots asm' s -> canonical_roots (E := E) l' s = (s, Ok l') /\
    (has_legacy_leave_pads (E := E) l asm = Ok false ->
     has_legacy_leave_pads (E := E) l' s = Ok false).
Proof.
  revert asm' l'. induction l as [|root l IH]; intros asm' l'; cbn [canonical_roots].
  { intros [= <- <-]. split; [done|]. by intros. }
  intros (s0 & r & [-> Hr]%fetch_root_ok & H)%st_bind_ok.
  assert (Hread : forall s, only_roots asm s -> fetch_root (E := E) root s = (s, Ok r) /\
            is_leave_pad (E := E) s root = is_leave_pad asm root).
  { intros s [[] _]. unfold fetch_root, reads, is_leave_pad, get_root.
    cbn [asm_of assembly_has_asm].
    rewrite !(proj2 (arena_get_ok _ _ _) Hr).
    by rewrite (proj2 (arena_get_ok _ _ _) (prefix_lookup_Some _ _ _ _ Hr ext_roots)). }
  assert (Hpads : forall s l1, only_roots asm s ->
            (has_legacy_leave_pads (E := E) l asm = Ok false -> has_legacy_leave_pads (E := E) l1 s = Ok false) ->
            has_legacy_leave_pads (E := E) (root :: l) asm = Ok false ->
            has_legacy_leave_pads (E := E) (root :: l1) s = Ok false).
  { intros s l1 Hs Hl. unfold has_legacy_leave_pads. cbn [any_outcome].
    rewrite (proj2 (Hread s Hs)). destruct (is_leave_pad asm root) as [[]| | |]; cbn; auto. }
  assert (Hstop : forall s, only_roots asm s -> 
            has_legacy_leave_pads (E := E) (root :: l) asm = Ok false ->
            has_legacy_leave_pads (E := E) [root] s = Ok false).
  { intros s Hs. apply Hpads; [done|]. by intros. }
  assert (Hgo : (l ← canonical_roots (E := E) l; mret (root :: l)) asm = (asm', Ok l') ->
            exists l1, l' = root :: l1 /\ only_roots asm asm' /\
              forall s, only_roots asm' s ->
                (l ← canonical_roots (E := E) l1; mret (root :: l)) s = (s, Ok l') /\
                (has_legacy_leave_pads (E := E) (root :: l) asm = Ok false ->
                 has_legacy_leave_pads (E := E) l' s = Ok false)).
  { intros (s1 & l1 & [Ho Hs]%IH & [= <- <-])%st_bind_ok. exists l1. split_and!; [done..|].
    intros s Hss. destruct (Hs s Hss) as [Hc Hp]. split.
    - apply st_bind_ok. eauto.
    - apply Hpads; [by etrans|done]. }
  destruct r;
    try (injection H as <- <-; split; [done|]; intros s Hs; split; [|by apply Hstop]; cbn [canonical_roots];
         apply st_bind_ok; do 2 eexists; split; [by apply Hread|done]);
    try (apply Hgo in H as (l1 & -> & Ho & Hs); split; [done|]; intros s Hss;
         destruct (Hs s Hss) as [Hc Hp]; split; [|done]; cbn [canonical_roots];
         apply st_bind_ok; do 2 eexists; split; [apply Hread; by etrans|done]).
  destruct cond as [c|]; cycle 1.
  { injection H as <- <-; split; [done|]; intros s Hs; split; [|by apply Hstop]; cbn [canonical_roots].
    apply st_bind_ok; do 2 eexists; split; [by apply Hread|done]. }
  apply st_bind_ok in H as (s0 & v & [= -> Hv] & H).
  destruct v as [[]|].
  - apply st_bind_ok in H as (s1 & id & [Ho Hid]%alloc_root_spec & [= <- <-]). split; [done|].
    intros s Hs. assert (Hg : get_root (E := E) s id = Ok (CILRoot.Branch target sub_target None)).
    { apply get_root_ok. destruct Hs as [[] _]. by eapply prefix_lookup_Some. }
    split.
    + cbn [canonical_roots]. unfold fetch_root, reads, mbind, ST_bind.
      cbn [asm_of assembly_has_asm]. by rewrite Hg.
    + intros _. unfold has_legacy_leave_pads, is_leave_pad. cbn. by rewrite Hg.
  - apply IH in H as [Ho Hs]. split; [done|]. intros s Hss. destruct (Hs s Hss) as [Hc Hp].
    split; [done|]. intros Hf. apply Hp. unfold has_legacy_leave_pads in *. cbn [any_outcome] in Hf.
    match type of Hf with context [is_leave_pad ?a root] =>
      destruct (is_leave_pad a root) as [[]| | |] end; by cbn in Hf.
  - apply Hgo in H as (l1 & -> & Ho & Hs). split; [done|]. intros s Hss.
    destruct (Hs s Hss) as [Hc Hp]. split; [|done]. cbn [canonical_roots].
    apply st_bind_ok; do 2 eexists; split; [apply Hread; by etrans|].
    apply st_bind_ok. exists s, None. split; [|done]. unfold reads. f_equal.
    erewrite <- (constant_branch_nodes c _ s); [exact Hv|]. destruct Ho, Hss; congruence.
Qed.
End behaviour.

#[export] Existing Instance only_roots_preorder.

(** ** Whole blocks *)

Lemma BasicBlock_nested_ind (P : BasicBlock -> Prop) :
  (forall roots id h hid, (forall l, h = Some l -> Forall P l) -> P (mk_block roots id h hid)) ->
  forall b, P b.
Proof.
  intros H. fix IH 1. intros [roots id [l|] hid]; [|by apply H].
  assert (Forall P l) as Hl.
  { revert l. fix IHl 1. intros [|b l]; constructor; [apply IH|apply IHl]. }
  apply H. by intros ? [= <-].
Qed.

Section whole_blocks.
Context {E : Type} (dec : BranchCond.t -> bool) (is_const : BranchCond.t -> bool).

(** [b'] in [asm'] has the identity of [b] in [asm], behaves like it, and so do its handlers. *)
Fixpoint keeps (asm asm' : Assembly) (b b' : BasicBlock) : Prop :=
  match b, b' with
  | mk_block roots id h hid, mk_block roots' id' h' hid' =>
      id' = id /\ hid' = hid /\
      (forall x, run dec is_const asm roots = Some x -> run dec is_const asm' roots' = Some x) /\
      match h, h' with
      | Some l, Some l' =>
          (fix all2 (l l' : list BasicBlock) : Prop :=
             match l, l' with
             | [], [] => True
             | x :: l, y :: l' => keeps asm asm' x y /\ all2 l l'
             | _, _ => False
             end) l l'
      | None, None => True
      | _, _ => False
      end
  end.

Lemma keeps_extends asm0 asm asm' asm'' b b' :
  extends asm0 asm -> extends asm' asm'' -> keeps asm asm' b b' -> keeps asm0 asm'' b b'.
Proof.
  intros H0 H1. revert b'. induction b as [roots id h hid IH] using BasicBlock_nested_ind.
  intros [roots' id' h' hid'] (-> & -> & Hrun & Hh). cbn. split_and!; try done.
  - intros x Hx. eapply run_extends; [done|]. apply Hrun. by eapply run_extends.
  - destruct h as [l|], h' as [l'|]; try done. specialize (IH l eq_refl). revert l' Hh.
    induction IH as [|b l Hb _ IHl]; intros [|b' l']; try done. intros [? ?]. split; [by apply Hb|by apply IHl].
Qed.

(** Canonicalization of a block, in every later state, does nothing more. *)
Definition settled (b : BasicBlock) asm : Prop :=
  forall s, only_roots asm s -> canonicalize_control_flow (E := E) b s = (s, Ok b).

Lemma has_pads_later l asm s v :
  only_roots asm s -> has_legacy_leave_pads (E := E) l asm = Ok v ->
  has_legacy_leave_pads (E := E) l s = Ok v.
Proof.
  intros [[] _]. unfold has_legacy_leave_pads. induction l as [|root l IH]; cbn; [done|].
  intros (b & Hb & H)%bind_ok. apply bind_ok. exists b. split.
  - unfold is_leave_pad in *. apply bind_ok in Hb as (r & Hr & Hb). apply bind_ok. exists r.
    split; [|done]. by eapply arena_get_prefix.
  - destruct b; auto.
Qed.

Lemma canonicalize_keeps b asm asm' b' :
  canonicalize_control_flow (E := E) b asm = (asm', Ok b') ->
  consistent (E := E) dec is_const asm ->
  only_roots asm asm' /\ keeps asm asm' b b' /\ settled b' asm'.
Proof.
  revert asm asm' b'. induction b as [roots id h hid IH] using BasicBlock_nested_ind.
  intros asm asm' b'. cbn [canonicalize_control_flow].
  set (handlers := match h with Some l => _ | None => _ end).
  assert (Hh : forall s s' h', handlers s = (s', Ok h') -> consistent (E := E) dec is_const s ->
    only_roots s s' /\
    match h, h' with
    | Some l, Some l' => Forall2 (keeps s s') l l' /\ Forall (fun b => settled b s') l'
    | None, None => True
    | _, _ => False
    end).
  { intros s s' h'. subst handlers. destruct h as [l|]; [|by intros [= <- <-]].
    intros (s1 & l' & Hl & [= <- <-])%st_bind_ok. specialize (IH l eq_refl). revert s s1 l' Hl.
    induction IH as [|b l Hb _ IHl]; intros s s1 l'; cbn [map_st].
    - intros [= <- <-] _. split; [done|]. by split.
    - intros (s0 & b1 & H0 & H)%st_bind_ok Hc.
      apply st_bind_ok in H as (s2 & l1 & H2 & [= <- <-]).
      destruct (Hb _ _ _ H0 Hc) as (Ho & Hk & Hs).
      destruct (IHl _ _ _ H2) as (Ho' & Hk' & Hs'); [by eapply only_roots_consistent|].
      split; [by etrans|]. split; constructor; try done.
      + eapply keeps_extends; [done|apply Ho'|done].
      + eapply list.Forall2_impl; [exact Hk'|]. intros ?? Hx. eapply keeps_extends; [apply Ho|done|exact Hx].
      + intros s3 Hss. apply Hs. by etrans. }
  assert (Hk2 : forall s s' l l', Forall2 (keeps s s') l l' ->
    (fix all2 (l l' : list BasicBlock) : Prop :=
       match l, l' with [], [] => True | x :: l, y :: l' => keeps s s' x y /\ all2 l l' | _, _ => False end) l l').
  { intros s s' l l'. induction 1; [done|]. by split. }
  assert (Hsettle : forall s (h' : option (list BasicBlock)),
    match h' with Some l' => Forall (fun b => settled b s) l' | None => True end ->
    forall s2, only_roots s s2 ->
    (match h' with
     | Some l => l ← map_st (canonicalize_control_flow (E := E)) l; mret (Some l)
     | None => mret None
     end : ST Assembly E (option (list BasicBlock))) s2 = (s2, Ok h')).
  { intros s [l'|] Hall s2 Hs2; [|done]. apply st_bind_ok. exists s2, l'. split; [|done].
    induction Hall as [|b l Hb _ IHl]; cbn [map_st]; [done|].
    apply st_bind_ok. exists s2, b. split; [by apply Hb|].
    apply st_bind_ok. exists s2, l. done. }
  intros (s0 & pads & [= -> Hpads] & H)%st_bind_ok Hc. destruct pads.
  - apply st_bind_ok in H as (s1 & h' & Hh' & [= <- <-]).
    destruct (Hh _ _ _ Hh' Hc) as [Ho Hr]. split; [done|]. split.
    + cbn. split_and!; [done..|intros x Hx; eapply run_extends; [apply Ho|done]|].
      destruct h, h'; try done. apply Hk2, Hr.
    + intros s Hs. cbn [canonicalize_control_flow]. apply st_bind_ok. exists s, true.
      split; [unfold reads; f_equal; eapply has_pads_later; [|done]; by etrans|].
      apply st_bind_ok. exists s, h'. split; [|done]. apply (Hsettle s1); [|done].
      destruct h, h'; try done; apply Hr.
  - apply st_bind_ok in H as (s1 & roots' & Hroots & H).
    apply st_bind_ok in H as (s2 & h' & Hh' & [= <- <-]).
    destruct (canonical_roots_again _ _ _ _ Hroots) as [Ho1 Hagain].
    destruct (Hh _ _ _ Hh') as [Ho2 Hr]; [by eapply only_roots_consistent|].
    split; [by etrans|]. split.
    + cbn. split_and!; [done..| |].
      * intros x Hx. eapply run_extends; [apply Ho2|].
        by eapply (canonical_roots_run dec is_const _ _ _ _ x Hroots Hc).
      * destruct h as [l|], h' as [l'|]; try done. apply Hk2. destruct Hr as [Hr _].
        eapply list.Forall2_impl; [exact Hr|]. intros ?? Hx. eapply keeps_extends; [apply Ho1|done|exact Hx].
    + intros s Hs. destruct (Hagain s) as [Hc' Hp']; [by etrans|].
      cbn [canonicalize_control_flow]. apply st_bind_ok. exists s, false.
      split; [unfold reads; f_equal; by apply Hp'|].
      apply st_bind_ok. exists s, roots'. split; [done|].
      apply st_bind_ok. exists s, h'. split; [|done]. apply (Hsettle s2); [|done].
      destruct h, h'; try done; apply Hr.
Qed.

(** C25: [canonicalize_control_flow] keeps the identity and behaviour of a block and of all its
    handlers, for every outcome of the conditions that agrees with the constant ones, allocates
    nothing but roots, and is idempotent. *)
Theorem canonicalize_keeps_behaviour b asm asm' b' :
  canonicalize_control_flow (E := E) b asm = (asm', Ok b') ->
  consistent (E := E) dec is_const asm ->
  only_roots asm asm' /\ keeps asm asm' b b' /\ settled b' asm'.
Proof. apply canonicalize_keeps. Qed.
End whole_blocks.

(** ** Garbage collection of handler blocks *)

Section gc.
Context {E : Type} (bbs : list BasicBlock) (asm : Assembly).

Definition block_targets (id : Z) (ts : list (Z * Z)) : Prop :=
  exists bb, find_bb (E := E) id bbs = Ok bb /\ targets_with_sub (E := E) bb asm = Ok ts.

(** The blocks control can reach from [entry] by branches. *)
Inductive reaches (entry : Z) : Z -> Prop :=
| reaches_entry : reaches entry entry
| reaches_step id ts t s :
    reaches entry id -> block_targets id ts -> (t, s) ∈ ts -> reaches entry t.

Lemma find_bb_id id bb : find_bb (E := E) id bbs = Ok bb -> bb ∈ bbs /\ block_id bb = id.
Proof.
  unfold find_bb. destruct (List.find _ bbs) as [b|] eqn:H; [|done]. intros [= <-].
  apply List.find_some in H as [Hin Heq]. split; [by apply list_elem_of_In|lia].
Qed.

Lemma gc_targets_spec l ts :
  gc_targets (E := E) bbs asm l = Ok ts ->
  (forall id, id ∈ l -> exists tss, block_targets id tss) /\
  (forall t, t ∈ ts <-> exists id tss s, id ∈ l /\ block_targets id tss /\ (t, s) ∈ tss).
Proof.
  unfold gc_targets. intros (tss & Htss & H)%bind_ok. apply map_outcome_Forall2 in Htss.
  destruct (forallb _ _); [|done]. injection H as <-.
  assert (Hb : Forall2 block_targets l tss).
  { eapply list.Forall2_impl; [exact Htss|]. by intros id ts (bb & ? & ?)%bind_ok; exists bb. }
  clear Htss. split.
  - intros id (i & Hi)%list_elem_of_lookup. destruct (Forall2_lookup_l _ _ _ _ _ Hb Hi) as (y & _ & ?). eauto.
  - intros t. rewrite list_elem_of_fmap. setoid_rewrite list_elem_of_In. setoid_rewrite in_concat. split.
    + intros ([t' s] & -> & y & Hy & Hin). apply list_elem_of_In, list_elem_of_lookup in Hy as [i Hi].
      destruct (Forall2_lookup_r _ _ _ _ _ Hb Hi) as (id & Hid & ?).
      exists id, y, s. split_and!; [|done..]. apply list_elem_of_In. by eapply list_elem_of_lookup_2.
    + intros (id & y & s & Hid & Hy & Hin). exists (t, s). split; [done|].
      apply list_elem_of_In, list_elem_of_lookup in Hid as [i Hi].
      destruct (Forall2_lookup_l _ _ _ _ _ Hb Hi) as (y' & Hy' & Hb'). exists y'. split.
      * apply list_elem_of_In. by eapply list_elem_of_lookup_2.
      * destruct Hy as (b1 & E1 & E2), Hb' as (b2 & E3 & E4). congruence.
Qed.

Lemma fuelled_gc_targets l : fuelled (gc_targets (E := E) bbs asm l).
Proof.
  unfold gc_targets. apply fuelled_bind.
  - apply fuelled_map. intros id _. apply fuelled_bind; [apply fuelled_unwrap|]. intros bb _.
    unfold targets_with_sub. induction (bb_roots bb) as [|r l' IH]; cbn; [done|].
    apply fuelled_bind; [apply fuelled_unwrap|]. intros. apply fuelled_bind; [done|]. by intros.
  - intros. by case_match.
Qed.

(** The loop invariant: what is known reachable, what has been expanded, and that every expanded
    id names a block. *)
Record gc_inv (entry : Z) (alive resurecting to_resurect : list Z) : Prop := {
  gc_sound : forall t, t ∈ alive ++ resurecting ++ to_resurect -> reaches entry t;
  gc_entry : entry ∈ alive ++ resurecting ++ to_resurect;
  gc_closed : forall id ts t s, id ∈ alive ++ resurecting -> block_targets id ts -> (t, s) ∈ ts ->
              t ∈ alive ++ resurecting ++ to_resurect;
  gc_nodup : NoDup (alive ++ resurecting ++ to_resurect);
  gc_blocks : forall id, id ∈ alive ++ resurecting -> exists ts, block_targets id ts }.

Lemma gc_inv_step entry alive resurecting to_resurect ts :
  gc_inv entry alive resurecting to_resurect ->
  gc_targets (E := E) bbs asm to_resurect = Ok ts ->
  gc_inv entry (alive ++ resurecting) to_resurect
    (remove_dups (List.filter (fun t => negb (bool_decide (t ∈ alive ++ resurecting)) &&
                                        negb (bool_decide (t ∈ to_resurect))) ts)).
Proof.
  intros [Hs He Hc Hn Hb] [Hid Ht]%gc_targets_spec.
  assert (Hfresh : forall t, t ∈ remove_dups (List.filter (fun t =>
      negb (bool_decide (t ∈ alive ++ resurecting)) && negb (bool_decide (t ∈ to_resurect))) ts) <->
      t ∈ ts /\ t ∉ alive ++ resurecting /\ t ∉ to_resurect).
  { intros t. rewrite elem_of_remove_dups, list_elem_of_In, filter_In, <- list_elem_of_In.
    rewrite andb_true_iff, !negb_true_iff, !bool_decide_eq_false. tauto. }
  split.
  - intros t. rewrite !elem_of_app, Hfresh, Ht. intros [[?|?]|[?|[(id & tss & s & H1 & H2 & H3) _]]].
    1-3: apply Hs; set_solver. eapply reaches_step; [|exact H2|exact H3]. apply Hs. set_solver.
  - rewrite app_assoc. apply elem_of_app. left. by rewrite <- app_assoc.
  - intros id tss t s Hin H2 H3. rewrite <- app_assoc in Hin.
    destruct (decide (t ∈ alive ++ resurecting)) as [?|Hna]; [set_solver|].
    destruct (decide (t ∈ to_resurect)) as [?|Hnr]; [set_solver|].
    rewrite !elem_of_app. right. right. apply Hfresh. split; [|done].
    apply elem_of_app in Hin as [Hin|[Hin|Hin]%elem_of_app].
    1, 2: destruct Hna; assert (t ∈ alive ++ resurecting ++ to_resurect)
            by (eapply Hc; [|exact H2|exact H3]; set_solver); set_solver.
    apply Ht. by exists id, tss, s.
  - rewrite app_assoc. apply list.NoDup_app. rewrite <- app_assoc. split_and!; [done| |apply NoDup_remove_dups].
    intros t Hin [_ [Hna Hnr]]%Hfresh. set_solver.
  - intros id. rewrite !elem_of_app. intros [[?|?]|?]; [apply Hb; set_solver..|by apply Hid].
Qed.

Lemma gc_inv_length entry alive resurecting to_resurect :
  gc_inv entry alive resurecting to_resurect ->
  (length (alive ++ resurecting) <= length bbs)%nat.
Proof.
  intros [_ _ _ Hn Hb]. rewrite app_assoc in Hn. apply list.NoDup_app in Hn as (Hn & _ & _).
  rewrite <- (length_map block_id bbs). apply NoDup_incl_length.
  { by apply NoDup_ListNoDup. }
  intros id Hid%list_elem_of_In. destruct (Hb id Hid) as (ts & bb & Hbb & _).
  apply find_bb_id in Hbb as [? <-]. apply in_map. by apply list_elem_of_In.
Qed.

Lemma gc_loop_spec entry fuel alive resurecting to_resurect :
  gc_inv entry alive resurecting to_resurect ->
  (length bbs - length (alive ++ resurecting) < fuel)%nat ->
  fuelled (gc_loop (E := E) fuel bbs asm alive resurecting to_resurect) /\
  forall l, gc_loop (E := E) fuel bbs asm alive resurecting to_resurect = Ok l ->
            forall t, t ∈ l <-> reaches entry t.
Proof.
  revert alive resurecting to_resurect. induction fuel as [|fuel IH]; intros al re to Hinv Hf; [lia|].
  cbn [gc_loop]. destruct to as [|t0 to].
  - split; [done|]. intros l [= <-] t. destruct Hinv as [Hs He Hc _ _]. rewrite app_nil_r in *. split.
    + intros. apply Hs. set_solver.
    + induction 1 as [|id ts t s _ IHr Ht Hin]; [done|]. by eapply Hc.
  - cbv zeta. destruct (gc_targets bbs asm (t0 :: to)) as [ts| | |] eqn:Hts; cbn; try done.
    + pose proof (gc_inv_step _ _ _ _ _ Hinv Hts) as Hinv'. apply IH; [exact Hinv'|].
      pose proof (gc_inv_length _ _ _ _ Hinv') as Hl. rewrite !length_app in *. cbn in *. lia.
    + by destruct (fuelled_gc_targets (t0 :: to)).
Qed.

Lemma block_gc_spec fuel entry :
  (length bbs < fuel)%nat ->
  fuelled (block_gc (E := E) fuel entry bbs asm) /\
  forall l, block_gc (E := E) fuel entry bbs asm = Ok l ->
    l `sublist_of` bbs /\ forall bb, bb ∈ l <-> bb ∈ bbs /\ reaches entry (block_id bb).
Proof.
  intros Hf. destruct (gc_loop_spec entry fuel [] [] [entry]) as [Hfu Hok]; [|cbn; lia|].
  { split; cbn; try set_solver; [|by apply NoDup_singleton].
    intros t ->%list_elem_of_singleton. constructor. }
  unfold block_gc. split; [by apply fuelled_bind|].
  intros l (alive & Hal & [= <-])%bind_ok. split.
  - clear. induction bbs as [|b l IH]; cbn; [done|]. case_bool_decide; by constructor.
  - intros bb. rewrite list_elem_of_In, filter_In, <- list_elem_of_In, bool_decide_eq_true.
    by rewrite (Hok _ Hal).
Qed.

(** C27: with fuel above the number of blocks, [block_gc] terminates, and it returns exactly the
    blocks that branches reach from the entry point, in their original order. *)
Theorem block_gc_reachable fuel entry :
  (length bbs < fuel)%nat ->
  fuelled (block_gc (E := E) fuel entry bbs asm) /\
  forall l, block_gc (E := E) fuel entry bbs asm = Ok l ->
    l `sublist_of` bbs /\ forall bb, bb ∈ l <-> bb ∈ bbs /\ reaches entry (block_id bb).
Proof. apply block_gc_spec. Qed.
End gc.

(** ** Materializing an exception region *)

Section regions.
Context {E : Type} {order : HashOrder}.

Lemma map_st_spec {A B} (f : A -> ST Assembly E B) (P : Assembly -> A -> B -> Prop) l asm asm' l' :
  (forall x, steps extends (f x)) ->
  (forall x y s s', f x s = (s', Ok y) -> extends asm s -> P s' x y) ->
  (forall s s' x y, extends s s' -> P s x y -> P s' x y) ->
  map_st f l asm = (asm', Ok l') -> extends asm asm' /\ Forall2 (P asm') l l'.
Proof.
  intros Hs Hf HP. assert (Hgen : forall s, extends asm s -> forall l',
    map_st f l s = (asm', Ok l') -> extends s asm' /\ Forall2 (P asm') l l').
  { clear l'. induction l as [|x l IH]; intros s Hext l'; cbn [map_st].
    - intros [= <- <-]. by split; [|constructor].
    - intros (s1 & y & H1 & Hm)%st_bind_ok. apply st_bind_ok in Hm as (s2 & ys & H2 & [= <- <-]).
      pose proof (Hs x s) as Hx. rewrite H1 in Hx. cbn in Hx.
      destruct (IH s1 ltac:(by etrans) ys H2) as [? ?]. split; [by etrans|].
      constructor; [|done]. eapply HP; [done|]. by eapply Hf. }
  by apply Hgen.
Qed.

Lemma extends_root asm asm' (id : Interned KRoot) r :
  extends asm asm' -> roots asm !! slot id = Some r -> roots asm' !! slot id = Some r.
Proof. intros [] ?. by eapply prefix_lookup_Some. Qed.

(** How [fix_for_exception_handler] replaces one root. *)
Definition redirected (id : Z) asm (old new : Interned KRoot) : Prop :=
  exists r, roots asm !! slot old = Some r /\
    match r with
    | CILRoot.Branch target sub_target cond =>
        sub_target = 0 /\ roots asm !! slot new = Some (CILRoot.Branch id target cond)
    | _ => new = old
    end.

Lemma fix_spec b id asm asm' b' :
  fix_for_exception_handler (E := E) b id asm = (asm', Ok b') ->
  extends asm asm' /\ block_id b' = block_id b /\ handler b' = handler b /\
  Forall2 (redirected id asm') (bb_roots b) (bb_roots b').
Proof.
  unfold fix_for_exception_handler. intros (s & l & Hl & [= <- <-])%st_bind_ok.
  eapply (map_st_spec _ (redirected id)) in Hl as [? ?]; [by destruct b| | |].
  - intros x. unfold fetch_root. steps_tac.
  - intros x y a a' (s1 & r & [-> Hr]%fetch_root_ok & H)%st_bind_ok _.
    destruct r; try (injection H as <- <-; by eexists; split; [exact Hr|]).
    destruct (Z.eqb_spec sub_target 0); [|done]. apply alloc_root_spec in H as [[He _] H].
    eexists. split; [eapply extends_root; [done|exact Hr]|done].
  - intros a a' x y He (r & Hr & H). exists r. split; [by eapply extends_root|].
    destruct r; try done. destruct H. split; [done|by eapply extends_root].
Qed.

Lemma fix_extends b id : steps extends (fix_for_exception_handler (E := E) b id).
Proof. unfold fix_for_exception_handler, fetch_root. steps_tac. apply steps_map_st; [apply _|]. steps_tac. Qed.

Lemma targets_spec b asm ts t s :
  targets_with_sub (E := E) b asm = Ok ts ->
  (exists root c, root ∈ bb_roots b /\ roots asm !! slot root = Some (CILRoot.Branch t s c)) ->
  (t, s) ∈ ts.
Proof.
  unfold targets_with_sub. generalize (bb_roots b) as l. intros l. revert ts.
  induction l as [|root l IH]; intros ts; cbn; [intros _ (? & ? & Hin & _); set_solver|].
  intros (r & Hr%get_root_ok & H)%bind_ok (root' & c & Hin & Hc).
  apply bind_ok in H as (ts' & Hts & [= <-]).
  apply elem_of_cons in Hin as [->|Hin].
  - rewrite Hr in Hc. injection Hc as ->. set_solver.
  - assert ((t, s) ∈ ts') by (apply IH; eauto). destruct r; set_solver.
Qed.

Lemma pads_spec id ts asm asm' pads :
  launching_pads (E := E) id ts asm = (asm', Ok pads) ->
  extends asm asm' /\
  forall t s, (t, s) ∈ ts -> exists pad, pad ∈ pads /\
    roots asm' !! slot pad = Some (CILRoot.ExitSpecialRegion t id).
Proof.
  unfold launching_pads. intros H.
  eapply (map_st_spec _ (fun asm '(t, _) pad => roots asm !! slot pad = Some (CILRoot.ExitSpecialRegion t id)))
    in H as [He Hp].
  - split; [done|]. intros t s Hin. apply elem_of_remove_dups in Hin.
    rewrite <- hash_iter_perm in Hin. apply list_elem_of_lookup in Hin as [i Hi].
    destruct (Forall2_lookup_l _ _ _ _ _ Hp Hi) as (pad & Hpad & ?). exists pad.
    split; [by eapply list_elem_of_lookup_2|done].
  - intros [t s]. steps_tac.
  - intros [t s] pad a a' Ha _. destruct (s =? 0); [|done].
    apply alloc_root_spec in Ha as [_ Ha]. exact Ha.
  - intros a a' [t s] pad He. by apply extends_root.
Qed.

Lemma close_handler_spec h asm asm' h' :
  close_handler (E := E) h asm = (asm', Ok h') ->
  (forall b, b ∈ h -> handler b = None) ->
  extends asm asm' /\ exists terminal, list.last h' = Some terminal /\
    ends_with_transfer (E := E) terminal asm' = Ok true.
Proof.
  unfold close_handler. destruct (list.last h) as [t|] eqn:Hlast; [|done].
  intros (s & closed & [= -> Hc] & H)%st_bind_ok Hflat. destruct closed.
  - injection H as <- <-. eauto.
  - apply st_bind_ok in H as (s1 & id & [[He _] Hid]%alloc_root_spec & [= <- <-]).
    split; [done|]. eexists. split; [apply last_snoc|].
    assert (Hh : handler t = None) by (apply Hflat; by apply last_Some_elem_of).
    unfold ends_with_transfer, meaningfull_roots in *. destruct t as [roots tid th thid].
    cbn in Hh. subst th. cbn in Hc |- *. rewrite app_nil_r in *.
    apply bind_ok in Hc as (rs & Hrs & _). apply bind_ok. exists (rs ++ [CILRoot.ReThrow]).
    split; [|by rewrite last_snoc]. revert rs Hrs. clear Hlast Hflat.
    induction roots as [|r roots IH]; intros rs; cbn.
    + intros [= <-]. unfold get_root. by rewrite (proj2 (arena_get_ok _ _ _) Hid).
    + intros (x & Hx%get_root_ok & H)%bind_ok. apply bind_ok in H as (rs' & Hrs' & [= <-]).
      apply bind_ok. exists x. split; [apply get_root_ok; by eapply extends_root|].
      rewrite (IH _ Hrs'). cbn. by destruct (is_meaningfull x).
Qed.
Lemma gc_flat fuel hid bbs asm l :
  block_gc (E := E) fuel hid bbs asm = Ok l -> (forall b, b ∈ bbs -> handler b = None) ->
  forall b, b ∈ l -> handler b = None.
Proof.
  unfold block_gc. intros (al & _ & [= <-])%bind_ok Hb b Hin. apply Hb.
  apply list_elem_of_In, filter_In in Hin as [Hin _]. by apply list_elem_of_In.
Qed.

End regions.

(** ** Witnesses *)

#[local] Instance sorted_hash_order : HashOrder := {|
  hash_iter := remove_dups; hash_iter_perm l := reflexivity _ |}.

Section witnesses.
(** [if 1 < 2 goto 7; v0 = 5; return;] and a handler jumping to a cleanup block. *)
Definition block_sample : Assembly :=
  set_roots (set_nodes empty_assembly
    [CILNode.Const (Const.I32 1); CILNode.Const (Const.I32 2); CILNode.LdArg 0])
    [CILRoot.Branch 7 0 (Some (BranchCond.Lt 1%positive 2%positive CmpKind.Signed));
     CILRoot.StLoc 0 3%positive; CILRoot.VoidRet; CILRoot.Branch 7 0 None].


Definition block_sample_dec (c : BranchCond.t) : bool :=
  match constant_branch_value (E := unit) c block_sample with Ok (Some b) => b | _ => false end.
Definition block_sample_const (c : BranchCond.t) : bool :=
  match constant_branch_value (E := unit) c block_sample with Ok (Some _) => true | _ => false end.

Lemma canonicalize_keeps_behaviour_witness :
  only_roots block_sample block_sample /\
  keeps block_sample_dec block_sample_const block_sample block_sample
    (mk_block [1%positive; 2%positive; 3%positive] 0 None None) (mk_block [4%positive] 0 None None) /\
  settled (E := unit) (mk_block [4%positive] 0 None None) block_sample.
Proof.
  apply (canonicalize_keeps_behaviour (E := unit)); [vm_compute; reflexivity|].
  intros c. unfold block_sample_dec, block_sample_const.
  by destruct (constant_branch_value c block_sample) as [[]| | |].
Defined.

Lemma block_gc_reachable_witness :
  let bbs := [mk_block [4%positive] 3 None None; mk_block [3%positive] 5 None None;
              mk_block [3%positive] 7 None None] in
  fuelled (block_gc (E := unit) 4 3 bbs block_sample) /\
  forall l, block_gc (E := unit) 4 3 bbs block_sample = Ok l ->
    l `sublist_of` bbs /\
    forall bb, bb ∈ l <-> bb ∈ bbs /\ reaches (E := unit) bbs block_sample 3 (block_id bb).
Proof. apply block_gc_reachable. cbn. lia. Defined.

(** The block [goto 7] of id 1, protected by the handler block 9, which only executes a store. *)
Definition region_run :=
  resolve_exception_handler (E := unit) 3 (mk_block [4%positive] 1 None (Some 9)) 9
    [mk_block [2%positive] 9 None None] block_sample.

End witnesses.
