(* ===== verification/Effects.v ===== *)
(** * Effect summaries (cilly/src/ir/opt/side_effect.rs, opt_fuel.rs)

    The effect lattice of expressions with its memo table, and the work budget of the optimizer.
    The memo never changes an answer, and only trees of total, effect-free nodes are deletable. *)

From S2P Require Import Prelude Interner Types IR Arenas Walk.

(** ** [OptFuel] *)

(** A [u32] budget. *)
Definition OptFuel : Set := Z.

(** [consume]: the answer and the budget left. *)
Definition consume (fuel : OptFuel) (cost : Z) : bool * OptFuel :=
  if cost <=? fuel then (true, fuel - cost) else (false, fuel).

Definition exchausted (fuel : OptFuel) : bool := fuel =? 0.

(** ** [EffectSummary] *)

(** A [u8] of flags. *)
Definition EffectSummary : Set := Z.

Definition PURE_TOTAL : EffectSummary := 0.
Definition MAY_THROW : EffectSummary := Z.shiftl 1 0.
Definition MAY_RUN_TYPE_INIT : EffectSummary := Z.shiftl 1 1.
Definition MAY_WRITE_MEMORY : EffectSummary := Z.shiftl 1 2.
Definition MAY_ALTER_CONTROL : EffectSummary := Z.shiftl 1 3.
Definition MAY_ALLOCATE : EffectSummary := Z.shiftl 1 4.
Definition MAY_READ_VOLATILE_MEMORY : EffectSummary := Z.shiftl 1 5.

Definition is_pure_total (self : EffectSummary) : bool := self =? 0.
Definition contains (self effect : EffectSummary) : bool := Z.land self effect =? effect.
Definition union (self other : EffectSummary) : EffectSummary := Z.lor self other.

(** The effect of a node itself, its children apart. *)
Definition own_effect (current : CILNode.t) : EffectSummary :=
  match current with
  | CILNode.BinOp _ _ op =>
      match op with
      | BinOp.Div | BinOp.DivUn | BinOp.Rem | BinOp.RemUn => MAY_THROW
      | _ => PURE_TOTAL
      end
  | CILNode.Const _ | CILNode.LdLoc _ | CILNode.LdArg _ | CILNode.LdLocA _ | CILNode.LdArgA _
  | CILNode.LdTypeToken _ | CILNode.LdFtn _ | CILNode.SizeOf _ | CILNode.UnOp _ _
  | CILNode.RefToPtr _ | CILNode.IntCast _ _ _ | CILNode.FloatCast _ _ _ | CILNode.PtrCast _ _ =>
      PURE_TOTAL
  | CILNode.Call _ _ is_pure =>
      let effect := union (union MAY_THROW MAY_RUN_TYPE_INIT) MAY_ALTER_CONTROL in
      if negb is_pure then union effect MAY_WRITE_MEMORY else effect
  | CILNode.CallI _ _ _ => union (union MAY_THROW MAY_WRITE_MEMORY) MAY_ALTER_CONTROL
  | CILNode.LdFieldAddress _ _ | CILNode.LdField _ _ | CILNode.LdLen _ | CILNode.LdElelemRef _ _
  | CILNode.LdElem _ _ _ | CILNode.UnboxAny _ _ | CILNode.IsInst _ _ | CILNode.CheckedCast _ _ =>
      MAY_THROW
  | CILNode.LdInd _ _ volatile =>
      if volatile then union MAY_THROW MAY_READ_VOLATILE_MEMORY else MAY_THROW
  | CILNode.GetException => MAY_ALTER_CONTROL
  | CILNode.LocAllocAlgined _ _ | CILNode.LocAlloc _ => union MAY_ALLOCATE MAY_THROW
  | CILNode.NewArr _ _ | CILNode.Box _ _ => union (union MAY_ALLOCATE MAY_THROW) MAY_RUN_TYPE_INIT
  | CILNode.LdStaticField _ | CILNode.LdStaticFieldAddress _ => union MAY_RUN_TYPE_INIT MAY_THROW
  end.

(** ** [EffectInfoCache] *)

Definition EffectInfoCache : Set := gmap positive EffectSummary.

Section cache.
Context {E : Type} (asm : Assembly).

(** [EffectInfoCache::summary] *)
Fixpoint summary (fuel : nat) (node : Interned KNode) : ST EffectInfoCache E EffectSummary :=
  match fuel with
  | O => no_fuel
  | S fuel' =>
      cache ← ask;
      match cache !! node with
      | Some summary => mret summary
      | None =>
          current ← lift (get_node asm node);
          children ← map_st (summary fuel') (CILNode.visit_child_nodes current);
          let summary := fold_left union children (own_effect current) in
          _ ← modify (insert node summary);
          mret summary
      end
  end.

(** Specification: the effects of a tree, without the table. *)
Fixpoint effects_of (fuel : nat) (node : Interned KNode) : outcome E EffectSummary :=
  match fuel with
  | O => NoFuel
  | S fuel' =>
      current ← get_node asm node;
      children ← map_outcome (effects_of fuel') (CILNode.visit_child_nodes current);
      Ok (fold_left union children (own_effect current))
  end.

(** Every entry of the table is the effect of its node. *)
Definition cache_ok (cache : EffectInfoCache) : Prop :=
  forall node e, cache !! node = Some e -> exists fuel, effects_of fuel node = Ok e.

Lemma effects_of_mono fuel fuel' node e :
  (fuel <= fuel')%nat -> effects_of fuel node = Ok e -> effects_of fuel' node = Ok e.
Proof.
  revert fuel' node e. induction fuel as [|fuel IH]; intros [|fuel'] node e Hf; try done; [lia|].
  cbn. intros (n & Hn & H)%bind_ok. apply bind_ok in H as (cs & Hcs & He).
  apply bind_ok. exists n. split; [done|]. apply bind_ok. exists cs. split; [|done].
  apply map_outcome_Forall2. apply map_outcome_Forall2 in Hcs.
  eapply list.Forall2_impl; [exact Hcs|]. intros ?? Hx. apply IH; [lia|exact Hx].
Qed.

Lemma effects_of_fun fuel fuel' node e e' :
  effects_of fuel node = Ok e -> effects_of fuel' node = Ok e' -> e = e'.
Proof.
  intros H H'. apply (effects_of_mono _ (Nat.max fuel fuel')) in H; [|lia].
  apply (effects_of_mono _ (Nat.max fuel fuel')) in H'; [|lia]. congruence.
Qed.

Lemma cache_ok_insert cache node e fuel :
  cache_ok cache -> effects_of fuel node = Ok e -> cache_ok (<[node := e]> cache).
Proof.
  intros Hc He node' e' [[<- <-]|[_ H]]%lookup_insert_Some; [eauto|by apply Hc].
Qed.

Lemma summary_correct fuel node cache cache' e :
  cache_ok cache -> summary fuel node cache = (cache', Ok e) ->
  cache_ok cache' /\ exists fuel', effects_of fuel' node = Ok e.
Proof.
  revert node cache cache' e. induction fuel as [|fuel IH]; intros node cache cache' e Hc; [done|].
  cbn [summary]. intros (s0 & c0 & [= <- <-] & H)%st_bind_ok.
  destruct (cache !! node) as [e0|] eqn:Hl; [injection H as <- <-; split; [done|by apply Hc]|].
  apply st_bind_ok in H as (s1 & current & [= <- Hn] & H).
  apply st_bind_ok in H as (s2 & children & Hch & H).
  apply st_bind_ok in H as (s3 & [] & [= <-] & [= <- <-]).
  assert (cache_ok s2 /\ exists fuel', map_outcome (effects_of fuel')
            (CILNode.visit_child_nodes current) = Ok children) as [Hc2 [fuel' Hf]].
  { clear Hn Hl. revert cache Hc s2 children Hch.
    induction (CILNode.visit_child_nodes current) as [|c cs IHcs]; intros cache Hc s2 children; cbn [map_st].
    - intros [= <- <-]. split; [done|]. by exists 0%nat.
    - intros (s4 & e1 & H1 & H)%st_bind_ok. apply st_bind_ok in H as (s5 & es & H2 & [= <- <-]).
      destruct (IH _ _ _ _ Hc H1) as [Hc4 [f1 Hf1]].
      destruct (IHcs _ Hc4 _ _ H2) as [Hc5 [f2 Hf2]]. split; [done|].
      exists (Nat.max f1 f2). cbn. rewrite (effects_of_mono f1 _ c e1) by (lia || done). cbn.
      apply map_outcome_Forall2 in Hf2. apply bind_ok. exists es. split; [|done].
      apply map_outcome_Forall2. eapply list.Forall2_impl; [exact Hf2|].
      intros ?? Hx. apply (effects_of_mono f2); [lia|exact Hx]. }
  assert (He : effects_of (S fuel') node = Ok (fold_left union children (own_effect current))).
  { cbn. rewrite Hn. cbn. by rewrite Hf. }
  split; [by eapply cache_ok_insert|eauto].
Qed.

(** with a table whose entries are right, [summary] answers the union of the effects of the
    whole tree, and leaves a table whose entries are right. *)
Lemma summary_is_effects_of fuel node cache cache' e :
  cache_ok cache -> summary fuel node cache = (cache', Ok e) ->
  cache_ok cache' /\ exists fuel', effects_of fuel' node = Ok e.
Proof. apply summary_correct. Qed.

(** Every node the walk visits below [node]. *)
Inductive below (node : Interned KNode) : CILNode.t -> Prop :=
| below_self n : nodes asm !! slot node = Some n -> below node n
| below_child n c m :
    nodes asm !! slot node = Some n -> c ∈ CILNode.visit_child_nodes n -> below c m -> below node m.

Lemma union_zero a b : union a b = 0 <-> a = 0 /\ b = 0.
Proof. apply Z.lor_eq_0_iff. Qed.

Lemma fold_union_zero l a : fold_left union l a = 0 <-> a = 0 /\ Forall (fun e => e = 0) l.
Proof.
  revert a. induction l as [|e l IH]; intros a; cbn; [by split; [|intros []]|].
  rewrite IH, union_zero, list.Forall_cons. tauto.
Qed.

(** an expression is deletable exactly when every node the walk visits below it is one that can
    neither throw, run initializers, write, allocate, read volatile memory nor alter control. *)
Lemma pure_total_iff fuel node e :
  effects_of fuel node = Ok e ->
  is_pure_total e = true <-> forall m, below node m -> own_effect m = PURE_TOTAL.
Proof.
  revert node e. induction fuel as [|fuel IH]; intros node e; [done|]. cbn.
  intros (n & Hn%get_node_ok & H)%bind_ok. apply bind_ok in H as (cs & Hcs & [= <-]).
  apply map_outcome_Forall2 in Hcs. unfold is_pure_total. rewrite Z.eqb_eq, fold_union_zero. split.
  - intros [Hown Hz] m Hm. destruct Hm as [m Hm|n' c m Hn' Hc Hm].
    + rewrite Hn in Hm. by injection Hm as <-.
    + rewrite Hn in Hn'. injection Hn' as <-. apply list_elem_of_lookup in Hc as [i Hi].
      destruct (Forall2_lookup_l _ _ _ _ _ Hcs Hi) as (ec & Hec & Heff).
      apply (IH c ec Heff); [|done]. rewrite Forall_forall in Hz.
      apply Z.eqb_eq, Hz. apply list_elem_of_In. by eapply list_elem_of_lookup_2.
  - intros Hall. split; [by apply Hall, below_self|]. apply Forall_forall.
    intros ec [i Hi]%list_elem_of_In%list_elem_of_lookup.
    destruct (Forall2_lookup_r _ _ _ _ _ Hcs Hi) as (c & Hc & Heff).
    apply Z.eqb_eq. apply (IH c ec Heff). intros m Hm. apply Hall.
    eapply below_child; [done|by eapply list_elem_of_lookup_2|done].
Qed.
End cache.

(** The budget never grows, never goes negative, and a refused request leaves it as it was. *)
Lemma consume_spec fuel cost :
  in_u 32 fuel -> in_u 32 cost ->
  let '(granted, rest) := consume fuel cost in
  in_u 32 rest /\ rest <= fuel /\ (granted = true <-> cost <= fuel) /\
  fuel = rest + (if granted then cost else 0).
Proof. unfold consume, in_u. intros. destruct (Z.leb_spec cost fuel); split_and!; try lia; done. Qed.

(** ** Witnesses *)

Section witnesses.
(** [ldarg.0 / 2] and [ldarg.0 + 2]. *)
Definition effect_sample : Assembly :=
  set_nodes empty_assembly
    [CILNode.LdArg 0; CILNode.Const (Const.I32 2); CILNode.BinOp 1%positive 2%positive BinOp.Div;
     CILNode.BinOp 1%positive 2%positive BinOp.Add].

Lemma summary_is_effects_of_witness :
  exists cache' fuel', cache_ok (E := unit) effect_sample cache' /\
    effects_of (E := unit) effect_sample fuel' 3%positive = Ok MAY_THROW.
Proof.
  destruct (summary_is_effects_of (E := unit) effect_sample 2 3%positive ∅
              (fst (summary (E := unit) effect_sample 2 3%positive ∅)) MAY_THROW) as [Hc [f Hf]].
  - intros node e He. discriminate He.
  - vm_compute. reflexivity.
  - exists (fst (summary (E := unit) effect_sample 2 3%positive ∅)), f. split; [exact Hc|exact Hf].
Defined.

Lemma pure_total_iff_witness :
  is_pure_total PURE_TOTAL = true <->
  forall m, below effect_sample 4%positive m -> own_effect m = PURE_TOTAL.
Proof. apply (pure_total_iff (E := unit) effect_sample 2). vm_compute. reflexivity. Defined.

Lemma consume_spec_witness : in_u 32 5 /\ 5 - 2 <= 5.
Proof.
  pose proof (consume_spec 5 2 ltac:(by_decide) ltac:(by_decide)) as H.
  split; [by_decide|]. cbn in H. exact (proj1 (proj2 H)).
Defined.
End witnesses.
