(* ===== verification/Method.v ===== *)
(** * Method bodies (cilly/src/ir/method.rs)

    Bodies as blocks, cleanup blocks and exception regions; reachability and the removal of dead
    blocks; the verification of exception regions and their materialization for the exporters;
    renumbering of locals. *)

From S2P Require Import Prelude Interner Types Class IR Walk Assign Block.

(** ** Data *)

Record ExceptionRegion : Set := mk_region { protected : Z; handler_entry : Z }.

Inductive PInvokeCallConv : Set := Winapi | Cdecl | Stdcall | Thiscall | Fastcall.

#[export] Instance PInvokeCallConv_eq_dec : EqDecision PInvokeCallConv.
Proof. solve_decision. Defined.
#[export] Instance LocalDef_eq_dec : EqDecision LocalDef.
Proof. unfold LocalDef. solve_decision. Defined.

Inductive MethodImpl : Set :=
| MethodBody (blocks : list BasicBlock) (locals : list LocalDef)
| Extern (lib : Interned KString) (entry_point : option (Interned KString))
    (call_conv : PInvokeCallConv) (preserve_errno : bool)
| AliasFor (method : Interned KMethodRef)
| Missing
| RegionBody (blocks cleanup_blocks : list BasicBlock) (exception_regions : list ExceptionRegion)
    (locals : list LocalDef).

Record MethodDef : Set := mk_MethodDef {
  md_access : Access.t;
  md_class : Interned KClassRef;
  md_name : Interned KString;
  md_sig : Interned KSig;
  md_arg_names : list (option (Interned KString));
  md_kind : MethodKind.t;
  implementation : MethodImpl;
  md_overrides : option (Interned KMethodRef);
  md_is_abstract : bool;
  md_out_params : list Z;
  md_generic_params : list (Interned KString);
  md_nullable_context : option Z;
  md_return_nullability : option Z;
  md_param_nullability : list (option Z);
  md_is_special_name : bool;
  md_custom_attributes : list CustomAttrDef;
  md_return_custom_attributes : list CustomAttrDef;
  md_param_custom_attributes : list (list CustomAttrDef) }.

Definition MethodDef_new (access : Access.t) (class : Interned KClassRef) (name : Interned KString)
    (sig : Interned KSig) (kind : MethodKind.t) (implementation : MethodImpl)
    (arg_names : list (option (Interned KString))) : MethodDef :=
  mk_MethodDef access class name sig arg_names kind implementation None false [] [] None None []
    false [] [] [].

(** [MethodDef::ref_to] *)
Definition method_ref_to (d : MethodDef) : MethodRef :=
  mk_MethodRef (md_class d) (md_name d) (md_sig d) (md_kind d) [].

Definition set_implementation (d : MethodDef) (i : MethodImpl) : MethodDef :=
  mk_MethodDef (md_access d) (md_class d) (md_name d) (md_sig d) (md_arg_names d) (md_kind d) i
    (md_overrides d) (md_is_abstract d) (md_out_params d) (md_generic_params d)
    (md_nullable_context d) (md_return_nullability d) (md_param_nullability d)
    (md_is_special_name d) (md_custom_attributes d) (md_return_custom_attributes d)
    (md_param_custom_attributes d).

(** [MethodImpl::blocks] and [root_count]. *)
Definition impl_blocks (i : MethodImpl) : option (list BasicBlock) :=
  match i with
  | MethodBody blocks _ | RegionBody blocks _ _ _ => Some blocks
  | _ => None
  end.

Definition root_count (i : MethodImpl) : nat :=
  match i with
  | MethodBody blocks _ => sum_list (map (fun b => length (iter_roots b)) blocks)
  | RegionBody blocks cleanup_blocks _ _ =>
      sum_list (map (fun b => length (iter_roots b)) (blocks ++ cleanup_blocks))
  | Extern _ _ _ _ | AliasFor _ => 0
  | Missing => 3
  end.

(** ** Updating blocks in place *)

Section updates.
Context {S E : Type}.

(** A loop over [all_blocks_mut]. *)
Definition map_all_blocks (f : BasicBlock -> ST S E BasicBlock) (i : MethodImpl)
    : ST S E MethodImpl :=
  match i with
  | MethodBody blocks locals => blocks ← map_st f blocks; mret (MethodBody blocks locals)
  | RegionBody blocks cleanup_blocks regions locals =>
      blocks ← map_st f blocks;
      cleanup_blocks ← map_st f cleanup_blocks;
      mret (RegionBody blocks cleanup_blocks regions locals)
  | _ => mret i
  end.

(** A loop over [BasicBlock::iter_roots_mut]: the roots of the block, then those of its handlers. *)
Fixpoint map_block_roots (f : Interned KRoot -> ST S E (Interned KRoot)) (self : BasicBlock)
    : ST S E BasicBlock :=
  match self with
  | mk_block roots id h hid =>
      roots ← map_st f roots;
      h ← (match h with
           | Some l => l ← map_st (map_block_roots f) l; mret (Some l)
           | None => mret None
           end : ST S E (option (list BasicBlock)));
      mret (mk_block roots id h hid)
  end.

(** [BasicBlock::map_roots] *)
Definition map_roots `{!HasAsm S} (mfuel : nat) (root_map : CILRoot.t -> ST S E CILRoot.t)
    (node_map : CILNode.t -> ST S E CILNode.t) (self : BasicBlock) : ST S E BasicBlock :=
  map_block_roots (fun root =>
    get_root ← fetch_root root;
    val ← root_map_rec node_map root_map mfuel get_root;
    on_asm (alloc_root val)) self.
End updates.

(** [MethodDef::canonicalize_control_flow] *)
Definition canonicalize_impl {E} (i : MethodImpl) : ST Assembly E MethodImpl :=
  map_all_blocks canonicalize_control_flow i.

(** ** Reachability *)

(** The map from ids to blocks, where a later block replaces an earlier one of the same id. *)
Definition by_id (blocks : list BasicBlock) (id : Z) : option BasicBlock :=
  list.last (List.filter (fun b => block_id b =? id) blocks).

Definition contains_key (blocks : list BasicBlock) (id : Z) : bool :=
  match by_id blocks id with Some _ => true | None => false end.

(** The normal target of a root. *)
Definition root_target (r : CILRoot.t) : option Z :=
  match r with
  | CILRoot.ExitSpecialRegion target _ => Some target
  | CILRoot.Branch target sub_target _ => Some (if sub_target =? 0 then target else sub_target)
  | _ => None
  end.

Section reachability.
Context {E : Type}.
Implicit Types asm : Assembly.

(** The worklist loop of [reachable_block_ids], given the ids a block adds to the worklist, in the
    order they are pushed; [pending] has its top at the head. *)
Fixpoint reach_loop (fuel : nat) (edges : BasicBlock -> outcome E (list Z))
    (blocks : list BasicBlock) (alive pending : list Z) : outcome E (list Z) :=
  match fuel with
  | O => NoFuel
  | S fuel' =>
      match pending with
      | [] => Ok alive
      | id :: pending =>
          if bool_decide (id ∈ alive) then reach_loop fuel' edges blocks alive pending
          else
            let alive := id :: alive in
            match by_id blocks id with
            | None => reach_loop fuel' edges blocks alive pending
            | Some block =>
                pushed ← edges block;
                reach_loop fuel' edges blocks alive (rev pushed ++ pending)
            end
      end
  end.

(** [block.targets(asm).filter(|target| by_id.contains_key(target))] *)
Definition normal_edges (blocks : list BasicBlock) asm (block : BasicBlock) : outcome E (list Z) :=
  ts ← targets block asm; Ok (List.filter (contains_key blocks) ts).

(** [reachable_block_ids] without handler edges. *)
Definition reachable_plain (fuel : nat) (entrypoint : Z) (blocks : list BasicBlock) asm
    : outcome E (list Z) :=
  reach_loop fuel (normal_edges blocks asm) blocks [] [entrypoint].

(** The targets outside a non-empty handler of the blocks alive in it. *)
Definition handler_edges (fuel : nat) (blocks : list BasicBlock) asm (block : BasicBlock)
    : outcome E (list Z) :=
  match handler block with
  | Some ((entry :: _) as handler) =>
      alive ← reachable_plain fuel (block_id entry) handler asm;
      let live := List.filter (fun b => bool_decide (block_id b ∈ alive)) handler in
      ts ← filter_map_roots root_target asm (concat (map iter_roots live));
      Ok (List.filter (contains_key blocks) ts)
  | _ => Ok []
  end.

Definition all_edges (fuel : nat) (blocks : list BasicBlock) asm (block : BasicBlock)
    : outcome E (list Z) :=
  ts ← normal_edges blocks asm block;
  hs ← handler_edges fuel blocks asm block;
  Ok (ts ++ hs).

Definition reachable_block_ids (fuel : nat) (entrypoint : Z) (blocks : list BasicBlock) asm
    (include_handler_edges : bool) : outcome E (list Z) :=
  if include_handler_edges
  then reach_loop fuel (all_edges fuel blocks asm) blocks [] [entrypoint]
  else reachable_plain fuel entrypoint blocks asm.

(** [blocks.retain(|block| alive.contains(&block.block_id()))] *)
Definition retain_alive (alive : list Z) (blocks : list BasicBlock) : list BasicBlock :=
  List.filter (fun b => bool_decide (block_id b ∈ alive)) blocks.

#[global] Arguments retain_alive : simpl never.

(** The pruning of one legacy handler. *)
Definition prune_handler (fuel : nat) asm (block : BasicBlock) : outcome E BasicBlock :=
  match handler block with
  | Some ((entry :: _) as handler) =>
      alive ← reachable_plain fuel (block_id entry) handler asm;
      Ok (mk_block (bb_roots block) (block_id block) (Some (retain_alive alive handler))
            (handler_id block))
  | _ => Ok block
  end.

Definition remove_dead_blocks (fuel : nat) (self : MethodDef) : ST Assembly E MethodDef :=
  i ← canonicalize_impl (implementation self);
  i ← (match i with
       | RegionBody [] _ _ locals => mret (RegionBody [] [] [] locals)
       | RegionBody ((entry :: _) as blocks) cleanup_blocks exception_regions locals =>
           alive_normal ← reads (fun asm => reachable_block_ids fuel (block_id entry) blocks asm false);
           let blocks := retain_alive alive_normal blocks in
           let exception_regions :=
             List.filter (fun r => bool_decide (protected r ∈ alive_normal)) exception_regions in
           alive_cleanup ← reads (fun asm => map_outcome (fun r =>
             reachable_block_ids fuel (handler_entry r) cleanup_blocks asm false) exception_regions);
           mret (RegionBody blocks (retain_alive (concat alive_cleanup) cleanup_blocks)
                   exception_regions locals)
       | MethodBody ((entry :: _) as blocks) locals =>
           alive ← reads (fun asm => reachable_block_ids fuel (block_id entry) blocks asm true);
           let blocks := retain_alive alive blocks in
           blocks ← reads (fun asm => map_outcome (prune_handler fuel asm) blocks);
           mret (MethodBody blocks locals)
       | _ => mret i
       end : ST Assembly E MethodImpl);
  mret (set_implementation self i).
End reachability.

(** ** Caught exceptions *)

Section exceptions.
Context {E : Type}.
Implicit Types asm : Assembly.

(** [CILIter::any], which stops at the first match. *)
Fixpoint cil_iter_any (fuel : nat) asm (p : CILIterElem -> bool) (elems : list CILIterElem)
    : outcome E bool :=
  match fuel with
  | O => NoFuel
  | S fuel' =>
      next ← cil_iter_next asm elems;
      match next with
      | None => Ok false
      | Some (elem, elems) => if p elem then Ok true else cil_iter_any fuel' asm p elems
      end
  end.

Definition is_get_exception (elem : CILIterElem) : bool :=
  match elem with ElemNode CILNode.GetException => true | _ => false end.

Definition uses_get_exception (ifuel : nat) asm (handler : list BasicBlock) : outcome E bool :=
  any_outcome (fun root => r ← get_root asm root; cil_iter_any ifuel asm is_get_exception [ElemRoot r])
    (concat (map bb_roots handler)).

(** The rewriting of one handler by [spill_caught_exceptions]. *)
Definition spill_handler (ifuel mfuel : nat) (exception_local : Z) (handler : list BasicBlock)
    : ST Assembly E (list BasicBlock) :=
  used ← reads (fun asm => uses_get_exception ifuel asm handler);
  if negb (used : bool) then mret handler
  else
    handler ← map_st (map_roots mfuel (fun root => mret root)
      (fun node => mret (match node with
                         | CILNode.GetException => CILNode.LdLoc exception_local
                         | node => node
                         end))) handler;
    caught ← alloc_node CILNode.GetException;
    capture ← alloc_root (CILRoot.StLoc exception_local caught);
    match handler with
    | [] => panic
    | first :: rest => mret (set_bb_roots first (capture :: bb_roots first) :: rest)
    end.

Definition with_handler (f : list BasicBlock -> ST Assembly E (list BasicBlock)) (b : BasicBlock)
    : ST Assembly E BasicBlock :=
  match handler b with
  | None => mret b
  | Some h => h ← f h; mret (mk_block (bb_roots b) (block_id b) (Some h) (handler_id b))
  end.

Definition spill_caught_exceptions (ifuel mfuel : nat) (blocks : list BasicBlock)
    (locals : list LocalDef) : ST Assembly E (list BasicBlock * list LocalDef) :=
  used ← reads (fun asm => any_outcome (fun b =>
    match handler b with Some h => uses_get_exception ifuel asm h | None => Ok false end) blocks);
  if negb (used : bool) then mret (blocks, locals)
  else
    let exception_local := wrap 32 (Z.of_nat (length locals)) in
    exception ← bcl_class "System.Exception" "System.Runtime" false;
    exception ← alloc_type (Ty.ClassRef exception);
    let locals := locals ++ [(None, exception)] in
    blocks ← map_st (with_handler (spill_handler ifuel mfuel exception_local)) blocks;
    mret (blocks, locals).
End exceptions.

(** ** Exception regions *)

Section regions.
Context {E : Type} `{!HashOrder}.
Implicit Types asm : Assembly.

(** The map from protected blocks to handler entries; a block protected twice is a panic. *)
Fixpoint regions_by_protected (regions : list ExceptionRegion) (acc : gmap Z Z)
    : outcome E (gmap Z Z) :=
  match regions with
  | [] => Ok acc
  | r :: regions =>
      match acc !! protected r with
      | Some _ => Panic
      | None => regions_by_protected regions (<[protected r := handler_entry r]> acc)
      end
  end.

(** The loop that resolves the blocks in order, each protected block once. *)
Fixpoint resolve_protected (fuel : nat) (cleanup_blocks : list BasicBlock) (by_protected : gmap Z Z)
    (blocks : list BasicBlock) : ST Assembly E (gmap Z Z * list BasicBlock) :=
  match blocks with
  | [] => mret (by_protected, [])
  | block :: rest =>
      '(block, by_protected) ←
        (match by_protected !! block_id block with
         | Some entry =>
             block' ← resolve_exception_handler fuel block entry cleanup_blocks;
             mret (block', delete (block_id block) by_protected)
         | None => mret (block, by_protected)
         end : ST Assembly E (BasicBlock * gmap Z Z));
      '(by_protected, rest) ← resolve_protected fuel cleanup_blocks by_protected rest;
      mret (by_protected, block :: rest)
  end.

Definition materialize_regions (fuel : nat) (blocks cleanup_blocks : list BasicBlock)
    (regions : list ExceptionRegion) : ST Assembly E (list BasicBlock) :=
  by_protected ← lift (regions_by_protected regions ∅);
  '(by_protected, materialized) ← resolve_protected fuel cleanup_blocks by_protected blocks;
  if bool_decide (by_protected = ∅) then mret materialized else panic.

Definition materialize_legacy_body (fuel ifuel mfuel : nat) (self : MethodImpl)
    : ST Assembly E (option (list BasicBlock * list LocalDef)) :=
  match self with
  | MethodBody blocks locals =>
      r ← spill_caught_exceptions ifuel mfuel blocks locals; mret (Some r)
  | RegionBody blocks cleanup_blocks regions locals =>
      blocks ← materialize_regions fuel blocks cleanup_blocks regions;
      r ← spill_caught_exceptions ifuel mfuel blocks locals; mret (Some r)
  | Extern _ _ _ _ | AliasFor _ | Missing => mret None
  end.
End regions.

(** The messages of [verify_exception_regions]. *)
Inductive RegionError : Set :=
| DuplicateBlockId
| PartitionsOverlap
| MissingProtected (id : Z)
| MissingCleanupEntry (id : Z)
| MultipleRegions (id : Z)
| LegacyHandlerState (is_cleanup : bool) (id : Z)
| LegacySubtarget (id sub_target : Z)
| CrossesPartition (is_cleanup : bool) (id target : Z)
| LegacyLeavePad (id : Z).

(** The check of each region in turn; [seen] are the blocks already protected. *)
Fixpoint check_regions (normal_ids cleanup_ids seen : list Z) (regions : list ExceptionRegion)
    : outcome RegionError unit :=
  match regions with
  | [] => Ok tt
  | r :: regions =>
      if negb (bool_decide (protected r ∈ normal_ids)) then Err (MissingProtected (protected r))
      else if negb (bool_decide (handler_entry r ∈ cleanup_ids)) then
        Err (MissingCleanupEntry (handler_entry r))
      else if bool_decide (protected r ∈ seen) then Err (MultipleRegions (protected r))
      else check_regions normal_ids cleanup_ids (protected r :: seen) regions
  end.

Fixpoint check_targets (is_cleanup : bool) (id : Z) (ids : list Z) (ts : list (Z * Z))
    : outcome RegionError unit :=
  match ts with
  | [] => Ok tt
  | (target, sub_target) :: ts =>
      if negb (sub_target =? 0) then Err (LegacySubtarget id sub_target)
      else if negb (bool_decide (target ∈ ids)) then Err (CrossesPartition is_cleanup id target)
      else check_targets is_cleanup id ids ts
  end.

Definition check_block (asm : Assembly) (is_cleanup : bool) (ids : list Z) (block : BasicBlock)
    : outcome RegionError unit :=
  match handler block, handler_id block with
  | None, None =>
      ts ← targets_with_sub block asm;
      _ ← check_targets is_cleanup (block_id block) ids ts;
      pads ← has_legacy_leave_pads (bb_roots block) asm;
      if (pads : bool) then Err (LegacyLeavePad (block_id block)) else Ok tt
  | _, _ => Err (LegacyHandlerState is_cleanup (block_id block))
  end.

Fixpoint check_blocks (asm : Assembly) (is_cleanup : bool) (ids : list Z) (blocks : list BasicBlock)
    : outcome RegionError unit :=
  match blocks with
  | [] => Ok tt
  | b :: blocks => _ ← check_block asm is_cleanup ids b; check_blocks asm is_cleanup ids blocks
  end.

Definition verify_exception_regions (asm : Assembly) (self : MethodImpl) : outcome RegionError unit :=
  match self with
  | RegionBody blocks cleanup_blocks regions _ =>
      let normal_ids := map block_id blocks in
      let cleanup_ids := map block_id cleanup_blocks in
      if negb (bool_decide (NoDup normal_ids)) || negb (bool_decide (NoDup cleanup_ids)) then
        Err DuplicateBlockId
      else if existsb (fun id => bool_decide (id ∈ cleanup_ids)) normal_ids then Err PartitionsOverlap
      else
        _ ← check_regions normal_ids cleanup_ids [] regions;
        _ ← check_blocks asm false normal_ids blocks;
        check_blocks asm true cleanup_ids cleanup_blocks
  | _ => Ok tt
  end.

(** ** Inlining hints and merged initializers *)

Section misc.
Context {E : Type}.
Implicit Types asm : Assembly.

Definition is_call_elem (elem : CILIterElem) : bool :=
  match elem with
  | ElemNode (CILNode.Call _ _ _ | CILNode.CallI _ _ _) | ElemRoot (CILRoot.Call _ _ _) => true
  | _ => false
  end.

Definition should_hint_aggressive_inline (ifuel : nat) asm (self : MethodImpl) : outcome E bool :=
  match self with
  | MethodBody blocks _ =>
      if (length blocks =? 0)%nat || (8 <? length blocks)%nat then Ok false
      else if (24 <? sum_list (map (fun b => length (bb_roots b)) blocks))%nat then Ok false
      else if existsb (fun b => match handler b with Some _ => true | None => false end) blocks
      then Ok false
      else
        calls ← any_outcome (fun b => any_outcome (fun root =>
                  r ← get_root asm root; cil_iter_any ifuel asm is_call_elem [ElemRoot r])
                  (bb_roots b)) blocks;
        Ok (negb calls)
  | _ => Ok false
  end.

(** The body of the first case of [merge_cctor_impls]: the final [VoidRet] of the first body is
    replaced by the roots of the second. *)
Definition append_body asm (blocks other_blocks : list BasicBlock) : outcome E (list BasicBlock) :=
  let blocks := match blocks with [] => [mk_block [] 0 None None] | _ => blocks end in
  last_block ← unwrap (list.last blocks);
  last_root ← (match list.last (bb_roots last_block) with
               | None => Ok CILRoot.VoidRet
               | Some root => get_root asm root
               end : outcome E CILRoot.t);
  match last_root, other_blocks with
  | CILRoot.VoidRet, [other] =>
      Ok (removelast blocks ++
          [set_bb_roots last_block (removelast (bb_roots last_block) ++ bb_roots other)])
  | _, _ => Panic
  end.

Definition merge_cctor_impls asm (self implementation : MethodImpl) : outcome E MethodImpl :=
  match self, implementation with
  | MethodBody blocks locals, MethodBody other_blocks other_locals =>
      if bool_decide (locals = other_locals) then
        blocks ← append_body asm blocks other_blocks; Ok (MethodBody blocks locals)
      else Panic
  | Extern lib entry_point call_conv errno, Extern liba entry_pointa call_conva errnoa =>
      if bool_decide (lib = liba) && bool_decide (entry_point = entry_pointa) &&
         bool_decide (call_conv = call_conva) && Bool.eqb errno errnoa
      then Ok self else Panic
  | AliasFor a, AliasFor b => if bool_decide (a = b) then Ok self else Panic
  | Extern _ _ _ _, Missing | AliasFor _, Missing | MethodBody _ _, Missing
  | RegionBody _ _ _ _, Missing => Ok self
  | Missing, _ => Ok implementation
  | _, _ => Panic
  end.
End misc.

(** ** Renumbering locals *)

(** The assembly with the [LocalReallocator] that the closures of [realloc_locals] share. *)
Record ReallocState : Set := mk_ReallocState {
  rs_asm : Assembly;
  remapped : list LocalDef;
  indices : gmap Z Z }.

#[export] Program Instance realloc_state_has_asm : HasAsm ReallocState := {|
  asm_of := rs_asm;
  set_asm s a := mk_ReallocState a (remapped s) (indices s) |}.
Next Obligation. done. Qed.
Next Obligation. by intros []. Qed.

Section realloc.
Context {E : Type}.

(** [LocalReallocator::local] *)
Definition realloc_local (source : list LocalDef) (old : Z) : ST ReallocState E Z := fun s =>
  match indices s !! old with
  | Some new => (s, Ok new)
  | None =>
      let new := Z.of_nat (length (remapped s)) in
      if new <? 2 ^ 32 then
        match get_u32 source old with
        | Some def => (mk_ReallocState (rs_asm s) (remapped s ++ [def]) (<[old := new]> (indices s)),
                       Ok new)
        | None => (s, Panic)
        end
      else (s, Panic)
  end.

(** The closures of both traversals, for a numbering of the locals. *)
Definition renumber_root {S} (local : Z -> ST S E Z) (root : CILRoot.t) : ST S E CILRoot.t :=
  match root with
  | CILRoot.StLoc loc tree => loc ← local loc; mret (CILRoot.StLoc loc tree)
  | _ => mret root
  end.

Definition renumber_node {S} (local : Z -> ST S E Z) (node : CILNode.t) : ST S E CILNode.t :=
  match node with
  | CILNode.LdLoc loc => loc ← local loc; mret (CILNode.LdLoc loc)
  | CILNode.LdLocA loc => loc ← local loc; mret (CILNode.LdLocA loc)
  | _ => mret node
  end.

Definition renumber_blocks {S} `{!HasAsm S} (mfuel : nat) (local : Z -> ST S E Z)
    : list BasicBlock -> ST S E (list BasicBlock) :=
  map_st (map_roots mfuel (renumber_root local) (renumber_node local)).

(** The sort key of a local: its mangled type, then its name. *)
Definition local_key (tfuel : nat) (asm : Assembly) (l : LocalDef) : outcome E (string * string) :=
  t ← get_type asm (snd l);
  m ← mangle tfuel asm t;
  n ← (match fst l with Some name => get_string asm name | None => Ok EmptyString end
       : outcome E string);
  Ok (m, n).

Definition key_compare (a b : string * string) : comparison :=
  match String.compare (fst a) (fst b) with
  | Eq => String.compare (snd a) (snd b)
  | c => c
  end.

(** A stable sort: each element goes behind those that are not greater. *)
Fixpoint insert_stable {A} (key : A -> string * string) (x : A) (l : list A) : list A :=
  match l with
  | [] => [x]
  | y :: l' => match key_compare (key x) (key y) with
               | Lt => x :: l
               | _ => y :: insert_stable key x l'
               end
  end.

Definition sort_stable {A} (key : A -> string * string) (l : list A) : list A :=
  fold_left (fun acc x => insert_stable key x acc) l [].

(** [canonical_order]: the positions of the locals in the order of their keys. *)
Definition canonical_order (tfuel : nat) (asm : Assembly) (locals : list LocalDef)
    : outcome E (list nat) :=
  keys ← map_outcome (local_key tfuel asm) locals;
  Ok (sort_stable (fun i => default (EmptyString, EmptyString) (keys !! i)) (seq 0 (length locals))).

(** [remap[old_idx] = new_idx] for each position of the order. *)
Definition remap_of (order : list nat) : list Z :=
  fold_left (fun r '(new, old) => <[old := Z.of_nat new]> r) (imap pair order)
    (replicate (length order) 0).

(** One renumbering pass over the blocks and cleanup blocks. *)
Definition renumber_parts {S} `{!HasAsm S} (mfuel : nat) (local : Z -> ST S E Z)
    (blocks cleanup : list BasicBlock) : ST S E (list BasicBlock * list BasicBlock) :=
  blocks ← renumber_blocks mfuel local blocks;
  cleanup ← renumber_blocks mfuel local cleanup;
  mret (blocks, cleanup).

(** The body of [realloc_locals] on its [body_parts_mut]; no cleanup blocks are an empty list. *)
Definition realloc_parts (tfuel mfuel : nat) (blocks cleanup : list BasicBlock)
    (locals : list LocalDef) : ST Assembly E (list BasicBlock * list BasicBlock * list LocalDef) :=
  match locals with
  | [] => mret (blocks, cleanup, locals)
  | _ =>
      '(blocks, cleanup, locals) ← (fun asm =>
         let '(s, r) := renumber_parts mfuel (realloc_local locals) blocks cleanup
                          (mk_ReallocState asm [] ∅) in
         (rs_asm s, '(blocks, cleanup) ← r; Ok (blocks, cleanup, remapped s)));
      order ← reads (fun asm => canonical_order tfuel asm locals);
      if bool_decide (order = seq 0 (length locals)) then mret (blocks, cleanup, locals)
      else
        let remap := remap_of order in
        canonical_locals ← lift (map_outcome (fun old => unwrap (locals !! old)) order);
        '(blocks, cleanup) ←
          renumber_parts mfuel (fun loc => lift (unwrap (get_u32 remap loc))) blocks cleanup;
        mret (blocks, cleanup, canonical_locals)
  end.

Definition realloc_locals (tfuel mfuel : nat) (self : MethodImpl) : ST Assembly E MethodImpl :=
  match self with
  | MethodBody blocks locals =>
      '(blocks, _, locals) ← realloc_parts tfuel mfuel blocks [] locals;
      mret (MethodBody blocks locals)
  | RegionBody blocks cleanup regions locals =>
      '(blocks, cleanup, locals) ← realloc_parts tfuel mfuel blocks cleanup locals;
      mret (RegionBody blocks cleanup regions locals)
  | _ => mret self
  end.
End realloc.
