(* ===== verification/MethodTheory.v ===== *)
(** * Reachability and the removal of dead blocks

    The worklist of [reachable_block_ids] finds exactly the blocks that branches and the leaves of
    live handlers reach, within a bound on its steps. *)

From S2P Require Import Prelude Interner Types IR Arenas Walk Block BlockTheory Method.

(** ** Lists *)

Lemma filter_mono {A} (p q : A -> bool) l :
  (forall x, p x = true -> q x = true) -> (length (List.filter p l) <= length (List.filter q l))%nat.
Proof.
  intros H. induction l as [|x l IH]; cbn; [done|].
  destruct (p x) eqn:Hp; [rewrite (H _ Hp); cbn; lia|]. destruct (q x); cbn; lia.
Qed.

Lemma elem_of_filter_bool {A} (p : A -> bool) l x : x ∈ List.filter p l <-> x ∈ l /\ p x = true.
Proof. rewrite !list_elem_of_In. apply filter_In. Qed.

Lemma length_filter_le {A} (p : A -> bool) (l : list A) : (length (List.filter p l) <= length l)%nat.
Proof. induction l as [|x l IH]; cbn; [done|]. destruct (p x); cbn; lia. Qed.

Lemma filter_filter {A} (p q : A -> bool) l :
  List.filter p (List.filter q l) = List.filter (fun x => p x && q x) l.
Proof.
  induction l as [|x l IH]; cbn; [done|].
  destruct (q x); cbn; destruct (p x); cbn; by rewrite ?IH.
Qed.

Lemma sum_list_app (l l' : list nat) : sum_list (l ++ l') = (sum_list l + sum_list l')%nat.
Proof. induction l; cbn; lia. Qed.

Lemma length_concat_map {A B} (f : A -> list B) l :
  length (concat (map f l)) = sum_list (map (fun x => length (f x)) l).
Proof. induction l as [|x l IH]; cbn; [done|]. by rewrite length_app, IH. Qed.

Lemma elem_of_reverse_list {A} (x : A) l : x ∈ rev l <-> x ∈ l.
Proof. rewrite !list_elem_of_In. symmetry. apply in_rev. Qed.

Lemma rtc_closed {A} (R : relation A) (P : A -> Prop) x y :
  rtc R x y -> P x -> (forall a b, P a -> R a b -> P b) -> P y.
Proof. intros H. induction H; eauto. Qed.

(** ** Reading roots *)

Section filter_map.
Context {E A : Type} (f : CILRoot.t -> option A) (asm : Assembly).

Lemma filter_map_roots_elem l r a :
  filter_map_roots (E := E) f asm l = Ok r ->
  a ∈ r <-> exists root x, root ∈ l /\ roots asm !! slot root = Some x /\ f x = Some a.
Proof.
  revert r. induction l as [|root l IH]; intros r; cbn [filter_map_roots].
  - intros [= <-]. split; [set_solver|]. intros (? & ? & ? & _). set_solver.
  - intros (x & Hx%get_root_ok & (r' & Hr' & [= <-])%bind_ok)%bind_ok.
    specialize (IH _ Hr'). split.
    + intros Ha. assert (f x = Some a \/ a ∈ r') as [?|(root' & y & ? & ? & ?)%IH];
        [destruct (f x); set_solver|exists root, x; set_solver|exists root', y; set_solver].
    + intros (root' & y & [->|Hin]%elem_of_cons & Hy & Hf).
      * rewrite Hy in Hx. injection Hx as ->. rewrite Hf. set_solver.
      * assert (a ∈ r') by (apply IH; eauto). destruct (f x); set_solver.
Qed.

Lemma filter_map_roots_length l r :
  filter_map_roots (E := E) f asm l = Ok r -> (length r <= length l)%nat.
Proof.
  revert r. induction l as [|root l IH]; intros r; cbn [filter_map_roots]; [by intros [= <-]|].
  intros (x & _ & (r' & Hr' & [= <-])%bind_ok)%bind_ok. specialize (IH _ Hr').
  destruct (f x); cbn; lia.
Qed.

Lemma fuelled_filter_map_roots l : fuelled (filter_map_roots (E := E) f asm l).
Proof.
  induction l as [|root l IH]; cbn [filter_map_roots]; [done|].
  apply fuelled_bind; [apply fuelled_unwrap|]. intros. by apply fuelled_bind.
Qed.
End filter_map.

Lemma targets_is_root_target {E} b asm :
  targets (E := E) b asm = filter_map_roots root_target asm (bb_roots b).
Proof.
  unfold targets. induction (bb_roots b) as [|root l IH]; cbn [filter_map_roots]; [done|].
  destruct (get_root asm root) as [r| | |]; cbn; [|done..]. rewrite IH.
  destruct (filter_map_roots root_target asm l); cbn; [|done..].
  destruct r; cbn; try done. by destruct (sub_target =? 0).
Qed.

(** ** [by_id] *)

Lemma by_id_elem blocks id b : by_id blocks id = Some b -> b ∈ blocks /\ block_id b = id.
Proof.
  unfold by_id. intros [Hin Hid]%last_Some_elem_of%elem_of_filter_bool. split; [done|lia].
Qed.

Lemma by_id_is_Some blocks b : b ∈ blocks -> is_Some (by_id blocks (block_id b)).
Proof.
  intros Hb. unfold by_id. apply last_is_Some. intros Hnil.
  apply (not_elem_of_nil b). rewrite <- Hnil. apply elem_of_filter_bool. split; [done|lia].
Qed.

Lemma contains_key_true blocks id : contains_key blocks id = true <-> is_Some (by_id blocks id).
Proof. unfold contains_key, is_Some. destruct (by_id blocks id); naive_solver. Qed.

Lemma by_id_retain alive blocks id :
  id ∈ alive -> by_id (retain_alive alive blocks) id = by_id blocks id.
Proof.
  intros Hid. unfold by_id, retain_alive. f_equal. rewrite filter_filter.
  apply List.filter_ext. intros b. destruct (Z.eqb_spec (block_id b) id) as [->|]; [|done].
  by rewrite bool_decide_true.
Qed.

(** ** The worklist *)

(** All roots of some blocks and their handlers: what bounds the worklist. *)
Definition total_roots (blocks : list BasicBlock) : nat :=
  sum_list (map (fun b => length (iter_roots b)) blocks).

Section worklist.
Context {E : Type} (blocks : list BasicBlock) (edges : BasicBlock -> outcome E (list Z)).
Context (edges_length : forall b l, edges b = Ok l -> (length l <= length (iter_roots b))%nat).
Context (edges_fuelled : forall b, b ∈ blocks -> fuelled (edges b)).

Definition edge (id t : Z) : Prop :=
  exists b l, by_id blocks id = Some b /\ edges b = Ok l /\ t ∈ l.

Definition reached : Z -> Z -> Prop := rtc edge.

(** The roots of the blocks not yet visited. *)
Definition remaining (alive : list Z) : nat :=
  sum_list (map (fun b => length (iter_roots b))
    (List.filter (fun b => negb (bool_decide (block_id b ∈ alive))) blocks)).

Lemma remaining_cons_le alive id : (remaining (id :: alive) <= remaining alive)%nat.
Proof.
  unfold remaining. clear. induction blocks as [|b l IH]; cbn; [done|].
  repeat case_bool_decide; cbn; try lia. set_solver.
Qed.

Lemma remaining_cons alive id b :
  id ∉ alive -> by_id blocks id = Some b ->
  (remaining (id :: alive) + length (iter_roots b) <= remaining alive)%nat.
Proof.
  intros Hid [Hin <-]%by_id_elem. unfold remaining. clear edges_length edges_fuelled.
  induction Hin as [b l|b c l Hin IH]; cbn.
  - rewrite (bool_decide_true (block_id b ∈ block_id b :: alive)) by set_solver.
    rewrite bool_decide_false by done. cbn.
    enough (remaining_l : (sum_list (map (fun b => length (iter_roots b))
      (List.filter (fun b0 => negb (bool_decide (block_id b0 ∈ block_id b :: alive))) l)) <=
      sum_list (map (fun b => length (iter_roots b))
      (List.filter (fun b0 => negb (bool_decide (block_id b0 ∈ alive))) l)))%nat) by lia.
    clear. induction l as [|c l IH]; cbn; [done|].
    repeat case_bool_decide; cbn; try lia. set_solver.
  - specialize (IH Hid). repeat case_bool_decide; cbn in *; try lia. set_solver.
Qed.

Record reach_inv (entry : Z) (alive pending : list Z) : Prop := {
  ri_sound : forall t, t ∈ alive \/ t ∈ pending -> reached entry t;
  ri_entry : entry ∈ alive \/ entry ∈ pending;
  ri_closed : forall id t, id ∈ alive -> edge id t -> t ∈ alive \/ t ∈ pending;
  ri_ok : forall id b, id ∈ alive -> by_id blocks id = Some b -> exists l, edges b = Ok l;
  ri_nodup : NoDup alive }.

Lemma reach_loop_spec fuel entry alive pending :
  reach_inv entry alive pending -> (length pending + remaining alive < fuel)%nat ->
  fuelled (reach_loop fuel edges blocks alive pending) /\
  forall l, reach_loop fuel edges blocks alive pending = Ok l ->
    NoDup l /\ (forall t, t ∈ l <-> reached entry t) /\
    forall id b, id ∈ l -> by_id blocks id = Some b -> exists ts, edges b = Ok ts.
Proof.
  revert alive pending. induction fuel as [|fuel IH]; intros alive pending [Hs He Hc Ho Hn] Hf; [lia|].
  cbn [reach_loop]. destruct pending as [|id pending].
  - split; [done|]. intros l [= <-]. split; [done|]. split; [|done]. intros t. split; [intros; apply Hs; by left|].
    intros Ht. eapply (rtc_closed edge (fun t => t ∈ alive)); [exact Ht| |].
    + destruct He; set_solver.
    + intros a b Ha Hab. destruct (Hc _ _ Ha Hab); set_solver.
  - case_bool_decide as Hin.
    + apply IH; [|cbn in *; lia]. split; [| | |done|done].
      * intros t Ht. apply Hs. set_solver.
      * set_solver.
      * intros a t Ha Hat. destruct (Hc _ _ Ha Hat) as [|[->|]%elem_of_cons]; auto.
    + assert (Hreach : reached entry id) by (apply Hs; set_solver).
      cbv zeta. destruct (by_id blocks id) as [b|] eqn:Hb.
      * destruct (edges b) as [pushed| | |] eqn:Hp; cbn; try done; cycle 1.
        { by destruct (edges_fuelled b); [by apply by_id_elem in Hb as []|]. }
        pose proof (edges_length _ _ Hp). pose proof (remaining_cons _ _ _ Hin Hb).
        apply IH; [|rewrite length_app, length_rev; cbn in *; lia]. split.
        -- intros t. rewrite elem_of_app, elem_of_cons, elem_of_reverse_list.
           intros [[->|?]|[Ht|?]]; [done|apply Hs; set_solver| |apply Hs; set_solver].
           eapply rtc_r; [exact Hreach|]. by exists b, pushed.
        -- rewrite elem_of_app, elem_of_cons. set_solver.
        -- intros a t [->|Ha]%elem_of_cons Hat.
           ++ destruct Hat as (b' & l & Hb' & Hl & Ht). rewrite Hb in Hb'. simplify_eq.
              rewrite Hp in Hl. simplify_eq. right.
              apply elem_of_app. left. by apply elem_of_reverse_list.
           ++ rewrite elem_of_cons, elem_of_app.
              destruct (Hc _ _ Ha Hat) as [|[->|]%elem_of_cons]; auto.
        -- intros a b' [->|Ha]%elem_of_cons Hb'; [|by eapply Ho]. simplify_eq. eauto.
        -- by constructor.
      * pose proof (remaining_cons_le alive id). apply IH; [|cbn in *; lia]. split.
        -- intros t Ht. destruct Ht as [[->|?]%elem_of_cons|?]; [done|apply Hs; set_solver..].
        -- set_solver.
        -- intros a t [->|Ha]%elem_of_cons Hat; [by destruct Hat as (? & ? & ? & _); simplify_eq|].
           rewrite elem_of_cons. destruct (Hc _ _ Ha Hat) as [|[->|]%elem_of_cons]; auto.
        -- intros a b' [->|Ha]%elem_of_cons Hb'; [congruence|by eapply Ho].
        -- by constructor.
Qed.

Lemma reach_spec fuel entry :
  (S (total_roots blocks) < fuel)%nat ->
  fuelled (reach_loop fuel edges blocks [] [entry]) /\
  forall l, reach_loop fuel edges blocks [] [entry] = Ok l ->
    NoDup l /\ (forall t, t ∈ l <-> reached entry t) /\
    forall id b, id ∈ l -> by_id blocks id = Some b -> exists ts, edges b = Ok ts.
Proof.
  intros Hf. apply reach_loop_spec.
  - split; [|set_solver|set_solver|set_solver|constructor].
    intros t [Ht|Ht]; [set_solver|]. apply list_elem_of_singleton in Ht as ->. apply rtc_refl.
  - assert (remaining [] = total_roots blocks) as ->; [|cbn; lia].
    unfold remaining, total_roots. clear. induction blocks as [|b l IH]; [done|]. cbn. by rewrite <- IH.
Qed.
End worklist.

(** ** What control flow reaches *)

(** A block's branches and leaves to blocks of the same list. *)
Inductive branches_to (blocks : list BasicBlock) (asm : Assembly) (id t : Z) : Prop :=
| branches_to_intro b root r :
    by_id blocks id = Some b -> root ∈ bb_roots b -> roots asm !! slot root = Some r ->
    root_target r = Some t -> is_Some (by_id blocks t) -> branches_to blocks asm id t.

(** The branches and leaves, to blocks of the list, of the blocks that the entry of a block's
    handler reaches. *)
Inductive leaves_to (blocks : list BasicBlock) (asm : Assembly) (id t : Z) : Prop :=
| leaves_to_intro b entry rest hb root r :
    by_id blocks id = Some b -> handler b = Some (entry :: rest) ->
    hb ∈ entry :: rest -> rtc (branches_to (entry :: rest) asm) (block_id entry) (block_id hb) ->
    root ∈ iter_roots hb -> roots asm !! slot root = Some r ->
    root_target r = Some t -> is_Some (by_id blocks t) -> leaves_to blocks asm id t.

Definition flows_to (blocks : list BasicBlock) (asm : Assembly) (handlers : bool) (id t : Z) : Prop :=
  branches_to blocks asm id t \/ handlers = true /\ leaves_to blocks asm id t.

Lemma iter_roots_own b : iter_roots b = bb_roots b ++
  match handler b with Some l => concat (map iter_roots l) | None => [] end.
Proof. by destruct b. Qed.

Section reachable.
Context {E : Type}.
Implicit Types asm : Assembly.

Lemma normal_edges_elem blocks asm b l t :
  normal_edges (E := E) blocks asm b = Ok l ->
  t ∈ l <-> exists root r, root ∈ bb_roots b /\ roots asm !! slot root = Some r /\
            root_target r = Some t /\ is_Some (by_id blocks t).
Proof.
  unfold normal_edges. rewrite targets_is_root_target. intros (ts & Hts & [= <-])%bind_ok.
  rewrite elem_of_filter_bool, contains_key_true, (filter_map_roots_elem _ _ _ _ t Hts).
  naive_solver.
Qed.

Lemma normal_edges_length blocks asm b l :
  normal_edges (E := E) blocks asm b = Ok l -> (length l <= length (bb_roots b))%nat.
Proof.
  unfold normal_edges. rewrite targets_is_root_target. intros (ts & Hts & [= <-])%bind_ok.
  etrans; [apply length_filter_le|]. by eapply filter_map_roots_length.
Qed.

Lemma fuelled_normal_edges blocks asm b : fuelled (normal_edges (E := E) blocks asm b).
Proof.
  unfold normal_edges. rewrite targets_is_root_target.
  apply fuelled_bind; [apply fuelled_filter_map_roots|done].
Qed.

(** A result of the worklist over edges that stand for a relation is the closure of the relation. *)
Lemma reach_relation blocks edges (R : Z -> Z -> Prop) fuel entry :
  (forall b l, edges b = Ok l -> (length l <= length (iter_roots b))%nat) ->
  (forall b, b ∈ blocks -> fuelled (edges b)) ->
  (forall id b l t, by_id blocks id = Some b -> edges b = Ok l -> t ∈ l <-> R id t) ->
  (forall id t, R id t -> is_Some (by_id blocks id)) ->
  (S (total_roots blocks) < fuel)%nat ->
  fuelled (reach_loop (E := E) fuel edges blocks [] [entry]) /\
  forall l, reach_loop (E := E) fuel edges blocks [] [entry] = Ok l ->
    NoDup l /\ forall t, t ∈ l <-> rtc R entry t.
Proof.
  intros Hlen Hfu HR Hdom Hf. destruct (reach_spec blocks edges Hlen Hfu fuel entry Hf) as [Hfl Hok].
  split; [done|]. intros l (Hn & Ht & Hedges)%Hok. split; [done|]. intros t. split.
  - rewrite Ht. apply rtc_subrel. intros a b (bb & ts & Hbb & Hts & Hin). by eapply HR.
  - intros Hr. eapply (rtc_closed R (fun t => t ∈ l)); [exact Hr|apply Ht, rtc_refl|].
    intros a b Ha Hab. destruct (Hdom _ _ Hab) as [bb Hbb].
    destruct (Hedges _ _ Ha Hbb) as [ts Hts]. apply Ht. apply Ht in Ha.
    eapply rtc_r; [exact Ha|]. exists bb, ts. split_and!; [done..|]. by eapply HR.
Qed.

Lemma plain_spec fuel entry blocks asm :
  (S (total_roots blocks) < fuel)%nat ->
  fuelled (reachable_plain (E := E) fuel entry blocks asm) /\
  forall l, reachable_plain (E := E) fuel entry blocks asm = Ok l ->
    NoDup l /\ forall t, t ∈ l <-> rtc (branches_to blocks asm) entry t.
Proof.
  apply reach_relation.
  - intros b l H%normal_edges_length. rewrite iter_roots_own, length_app. lia.
  - intros. apply fuelled_normal_edges.
  - intros id b l t Hb Hl. rewrite (normal_edges_elem _ _ _ _ _ Hl). split.
    + intros (root & r & ? & ? & ? & ?). by econstructor.
    + intros [b' root r Hb' ????]. simplify_eq. by exists root, r.
  - by intros id t [].
Qed.
(** The blocks of a handler that its entry reaches. *)
Lemma live_handler_elem fuel asm entry rest alive hb :
  (S (total_roots (entry :: rest)) < fuel)%nat ->
  reachable_plain (E := E) fuel (block_id entry) (entry :: rest) asm = Ok alive ->
  hb ∈ retain_alive alive (entry :: rest) <->
  hb ∈ entry :: rest /\ rtc (branches_to (entry :: rest) asm) (block_id entry) (block_id hb).
Proof.
  intros Hf Hal. destruct (plain_spec fuel (block_id entry) (entry :: rest) asm Hf) as [_ Hspec].
  destruct (Hspec _ Hal) as [_ Ht]. unfold retain_alive.
  by rewrite elem_of_filter_bool, bool_decide_eq_true, Ht.
Qed.

Lemma handler_total_roots b l :
  handler b = Some l -> (length (bb_roots b) + total_roots l = length (iter_roots b))%nat.
Proof. intros Hh. by rewrite iter_roots_own, length_app, Hh, length_concat_map. Qed.

Lemma handler_edges_elem fuel blocks asm b l t :
  (S (length (iter_roots b)) < fuel)%nat ->
  handler_edges (E := E) fuel blocks asm b = Ok l ->
  t ∈ l <-> exists entry rest hb root r, handler b = Some (entry :: rest) /\
    (hb ∈ entry :: rest /\ rtc (branches_to (entry :: rest) asm) (block_id entry) (block_id hb)) /\
    root ∈ iter_roots hb /\ roots asm !! slot root = Some r /\ root_target r = Some t /\
    is_Some (by_id blocks t).
Proof.
  unfold handler_edges. intros Hf. destruct (handler b) as [[|entry rest]|] eqn:Hh.
  1, 3: intros [= <-]; split; [set_solver|naive_solver].
  intros (alive & Hal & (ts & Hts & [= <-])%bind_ok)%bind_ok.
  pose proof (handler_total_roots _ _ Hh).
  rewrite elem_of_filter_bool, contains_key_true, (filter_map_roots_elem _ _ _ _ t Hts). split.
  - intros [(root & r & Hin & Hr & Ht) Hk].
    apply list_elem_of_In, in_concat in Hin as (l & Hl & Hin).
    apply in_map_iff in Hl as (hb & <- & Hhb%list_elem_of_In).
    exists entry, rest, hb, root, r. split_and!; try done; [| |by apply list_elem_of_In].
    all: eapply live_handler_elem; [|done|exact Hhb]; lia.
  - intros (entry' & rest' & hb & root & r & [= <- <-] & Hhb & Hin & Hr & Ht & Hk). split; [|done].
    exists root, r. split_and!; [|done..]. apply list_elem_of_In, in_concat.
    exists (iter_roots hb). split; [|by apply list_elem_of_In]. apply in_map, list_elem_of_In.
    eapply live_handler_elem; [|done|done]. lia.
Qed.

Lemma fuelled_handler_edges fuel blocks asm b :
  (S (length (iter_roots b)) < fuel)%nat -> fuelled (handler_edges (E := E) fuel blocks asm b).
Proof.
  unfold handler_edges. intros Hf. destruct (handler b) as [[|entry rest]|] eqn:Hh; [done| |done].
  pose proof (handler_total_roots _ _ Hh).
  apply fuelled_bind; [apply plain_spec; lia|]. intros alive _.
  apply fuelled_bind; [apply fuelled_filter_map_roots|done].
Qed.

Lemma sum_filter_le {A} (f : A -> nat) (p : A -> bool) l :
  (sum_list (map f (List.filter p l)) <= sum_list (map f l))%nat.
Proof. induction l as [|x l IH]; cbn; [done|]. destruct (p x); cbn; lia. Qed.

Lemma handler_edges_length fuel blocks asm b l :
  handler_edges (E := E) fuel blocks asm b = Ok l ->
  (length (bb_roots b) + length l <= length (iter_roots b))%nat.
Proof.
  unfold handler_edges. destruct (handler b) as [[|entry rest]|] eqn:Hh.
  1, 3: intros [= <-]; rewrite iter_roots_own, length_app; cbn; lia.
  intros (alive & _ & (ts & Hts & [= <-])%bind_ok)%bind_ok.
  apply filter_map_roots_length in Hts. rewrite <- (handler_total_roots _ _ Hh).
  etrans; [apply Nat.add_le_mono_l, length_filter_le|].
  apply Nat.add_le_mono_l. etrans; [exact Hts|]. rewrite length_concat_map. apply sum_filter_le.
Qed.

Lemma total_roots_elem b blocks : b ∈ blocks -> (length (iter_roots b) <= total_roots blocks)%nat.
Proof.
  intros Hb. apply sum_list_elem. apply list_elem_of_fmap. by exists b.
Qed.

Lemma reachable_spec fuel entry blocks asm handlers :
  (S (total_roots blocks) < fuel)%nat ->
  fuelled (reachable_block_ids (E := E) fuel entry blocks asm handlers) /\
  forall l, reachable_block_ids (E := E) fuel entry blocks asm handlers = Ok l ->
    NoDup l /\ forall t, t ∈ l <-> rtc (flows_to blocks asm handlers) entry t.
Proof.
  intros Hf. destruct handlers; cbn [reachable_block_ids].
  - apply reach_relation; [| | | |done].
    + intros b l (ts & Hts & (hs & Hhs & [= <-])%bind_ok)%bind_ok.
      apply normal_edges_length in Hts. apply handler_edges_length in Hhs.
      rewrite length_app. lia.
    + intros b Hb%total_roots_elem. apply fuelled_bind; [apply fuelled_normal_edges|]. intros ts _.
      apply fuelled_bind; [|done]. apply fuelled_handler_edges. lia.
    + intros id b l t Hb (ts & Hts & (hs & Hhs & [= <-])%bind_ok)%bind_ok.
      assert (Hlen := total_roots_elem _ _ (proj1 (by_id_elem _ _ _ Hb))).
      assert (Hf' : (S (length (iter_roots b)) < fuel)%nat) by lia.
      rewrite elem_of_app, (normal_edges_elem _ _ _ _ _ Hts), (handler_edges_elem fuel _ _ _ _ t Hf' Hhs).
      split.
      * intros [(root & r & ? & ? & ? & ?)|(entry' & rest & hb & root & r & ? & [? ?] & ? & ? & ? & ?)].
        -- left. by econstructor.
        -- right. split; [done|]. by econstructor.
      * intros [[b' root r Hb' ????]|[_ [b' entry' rest hb root r Hb' ???????]]]; simplify_eq.
        -- left. by exists root, r.
        -- right. by exists entry', rest, hb, root, r.
    + intros id t [[]|[_ []]]; eauto.
  - destruct (plain_spec fuel entry blocks asm Hf) as [Hfl Hok]. split; [done|].
    intros l [Hn Ht]%Hok. split; [done|]. intros t. rewrite Ht.
    split; apply rtc_subrel; [by left|]. by intros a b [|[? _]].
Qed.

(** C19: with fuel above the number of roots, [reachable_block_ids] terminates, and it answers
    exactly the ids that branches and leaves reach from the entry, through live handlers when
    asked; a target that names no block is not followed. *)
Theorem reachable_block_ids_exact fuel entry blocks asm handlers :
  (S (total_roots blocks) < fuel)%nat ->
  fuelled (reachable_block_ids (E := E) fuel entry blocks asm handlers) /\
  forall l, reachable_block_ids (E := E) fuel entry blocks asm handlers = Ok l ->
    NoDup l /\ forall t, t ∈ l <-> rtc (flows_to blocks asm handlers) entry t.
Proof. apply reachable_spec. Qed.
End reachable.

(** ** Witness *)

(** Block 0 goes to 1, block 1 back to 0; block 2 is dead. *)
Definition loop_sample : Assembly :=
  set_roots empty_assembly [CILRoot.Branch 1 0 None; CILRoot.Branch 0 0 None; CILRoot.VoidRet].

Definition loop_sample_blocks : list BasicBlock :=
  [mk_block [1%positive] 0 None None; mk_block [2%positive] 1 None None;
   mk_block [3%positive] 2 None None].

Lemma reachable_block_ids_exact_witness :
  reachable_block_ids (E := unit) 5 0 loop_sample_blocks loop_sample false = Ok [1; 0] /\
  forall t, t ∈ [1; 0] <-> rtc (flows_to loop_sample_blocks loop_sample false) 0 t.
Proof.
  split; [vm_compute; reflexivity|].
  apply (reachable_block_ids_exact (E := unit) 5 0 loop_sample_blocks loop_sample false).
  - cbn. lia.
  - vm_compute. reflexivity.
Defined.
