(* ===== verification/DeadBlocks.v ===== *)
(** * Runs of methods, and the removal of dead blocks

    A method body runs from place to place: normal blocks, cleanup blocks of exception regions, and
    blocks of legacy handlers, entered by branches, leaves and thrown exceptions.
    [MethodDef::remove_dead_blocks] keeps every run. *)

From S2P Require Import Prelude Interner Types Class IR Arenas Walk Block BlockTheory Method MethodTheory.

(** ** Runs *)

Inductive Place : Set :=
| Normal (id : Z)
| Cleanup (id : Z)
| Handler (protected id : Z).

Definition place_roots (i : MethodImpl) (p : Place) : option (list (Interned KRoot)) :=
  match i, p with
  | (MethodBody blocks _ | RegionBody blocks _ _ _), Normal id => bb_roots <$> by_id blocks id
  | RegionBody _ cleanup_blocks _ _, Cleanup id => bb_roots <$> by_id cleanup_blocks id
  | MethodBody blocks _, Handler pid id =>
      b ← by_id blocks pid; h ← handler b; bb_roots <$> by_id h id
  | _, _ => None
  end.

(** Where an exception thrown at a place is caught, within the method. *)
Definition catches (i : MethodImpl) (p : Place) : option Place :=
  match i, p with
  | RegionBody _ _ regions _, Normal id =>
      r ← List.find (fun r => protected r =? id) regions; Some (Cleanup (handler_entry r))
  | MethodBody blocks _, Normal id =>
      b ← by_id blocks id; h ← handler b; entry ← head h; Some (Handler id (block_id entry))
  | _, _ => None
  end.

(** Where an exit of a block leads: branches stay among blocks of their kind, leaves go to normal
    blocks.  Canonical cleanup blocks have no leaves. *)
Definition leads_to (p : Place) (e : BlockExit) : option Place :=
  match e, p with
  | Jump t s, Normal _ => Some (Normal (blockid_from_jump t s))
  | Jump t s, Cleanup _ => Some (Cleanup (blockid_from_jump t s))
  | Jump t s, Handler pid _ => Some (Handler pid (blockid_from_jump t s))
  | Leave (CILRoot.ExitSpecialRegion t _), (Normal _ | Handler _ _) => Some (Normal t)
  | _, _ => None
  end.

(** The environment's choices in one block: the outcome of its conditions, and after how many
    events it throws, if it does. *)
Record Choice : Type := mk_Choice { ch_dec : BranchCond.t -> bool; ch_throw : option nat }.

Inductive Ending : Set :=
| Running (p : Place)
| Left (e : BlockExit)
| Unwound.

Section runs.
Context (is_const : BranchCond.t -> bool) (oracle : nat -> Choice).

(** The first [n] blocks of a run from a place. *)
Fixpoint trace (n : nat) (asm : Assembly) (i : MethodImpl) (p : Place)
    : option (list BlockEvent * Ending) :=
  match n with
  | O => Some ([], Running p)
  | S n' =>
      roots ← place_roots i p;
      '(ev, e) ← run (ch_dec (oracle n')) is_const asm roots;
      match ch_throw (oracle n') with
      | Some k =>
          match catches i p with
          | Some q => '(ev', r) ← trace n' asm i q; Some (take k ev ++ ev', r)
          | None => Some (take k ev, Unwound)
          end
      | None =>
          match leads_to p e with
          | Some q => '(ev', r) ← trace n' asm i q; Some (ev ++ ev', r)
          | None => Some (ev, Left e)
          end
      end
  end.

(** Bodies that agree on a set of places closed under the runs of the first have the same runs. *)
Lemma trace_simulation asm i asm' i' (good : Place -> Prop) :
  (forall p r, good p -> place_roots i p = Some r ->
    (exists r', place_roots i' p = Some r' /\ forall k x,
       run (ch_dec (oracle k)) is_const asm r = Some x ->
       run (ch_dec (oracle k)) is_const asm' r' = Some x) /\
    catches i' p = catches i p /\
    (forall q, catches i p = Some q -> good q) /\
    (forall k ev e q, run (ch_dec (oracle k)) is_const asm r = Some (ev, e) ->
       leads_to p e = Some q -> good q)) ->
  forall n p x, good p -> trace n asm i p = Some x -> trace n asm' i' p = Some x.
Proof.
  intros Hsim n. induction n as [|n IH]; intros p x Hp; cbn [trace]; [done|].
  intros (r & Hr & ([ev e] & Hrun & Hx)%bind_Some)%bind_Some.
  destruct (Hsim p r Hp Hr) as ((r' & Hr' & Hruns) & Hcatch & Hthrow & Hlead).
  rewrite Hr'. cbn. rewrite (Hruns _ _ Hrun), Hcatch. cbn.
  destruct (ch_throw _) as [k|].
  - destruct (catches i p) as [q|]; [|done].
    apply bind_Some in Hx as ([ev' r0] & Hq & Hx). apply bind_Some. exists (ev', r0).
    split; [|done]. apply IH; [by apply Hthrow|done].
  - destruct (leads_to p e) as [q|] eqn:Hl; [|done].
    apply bind_Some in Hx as ([ev' r0] & Hq & Hx). apply bind_Some. exists (ev', r0).
    split; [|done]. apply IH; [by eapply Hlead|done].
Qed.

(** A block's exits are among its targets. *)
Lemma run_exit asm k roots ev e :
  run (ch_dec (oracle k)) is_const asm roots = Some (ev, e) ->
  forall t, (match e with
             | Jump t s => Some (blockid_from_jump t s)
             | Leave (CILRoot.ExitSpecialRegion t _) => Some t
             | _ => None
             end) = Some t ->
  exists root r, root ∈ roots /\ IR.roots asm !! slot root = Some r /\ root_target r = Some t.
Proof.
  intros Hrun t Ht. revert ev Hrun. induction roots as [|root roots IH]; intros ev; cbn [run].
  - by intros [= <- <-].
  - intros (r & Hr & Hx)%bind_Some.
    assert (Hrest : forall ev', run (ch_dec (oracle k)) is_const asm roots = Some (ev', e) ->
      exists root0 r0, root0 ∈ root :: roots /\ IR.roots asm !! slot root0 = Some r0 /\
        root_target r0 = Some t).
    { intros ev' (root0 & r0 & ? & ? & ?)%IH. exists root0, r0. split; [set_solver|done]. }
    assert (Hhere : root_target r = Some t -> exists root0 r0, root0 ∈ root :: roots /\
        IR.roots asm !! slot root0 = Some r0 /\ root_target r0 = Some t).
    { intros. exists root, r. split; [set_solver|done]. }
    destruct r; cbn in Hx; try (by injection Hx as <- <-; cbn in Ht; simplify_eq; auto);
      try (by apply bind_Some in Hx as ([ev' e'] & Hx & [= <- <-]); eauto).
    destruct cond as [c|]; [destruct (ch_dec _ c)|].
    + injection Hx as <- <-. apply Hhere. cbn in Ht |- *. by rewrite <- Ht.
    + apply bind_Some in Hx as ([ev' e'] & Hx & [= <- <-]); eauto.
    + injection Hx as <- <-. apply Hhere. cbn in Ht |- *. by rewrite <- Ht.
Qed.

Lemma leads_to_target p e q :
  leads_to p e = Some q ->
  exists t, (match e with
             | Jump t s => Some (blockid_from_jump t s)
             | Leave (CILRoot.ExitSpecialRegion t _) => Some t
             | _ => None
             end) = Some t /\
    match p, e with
    | Normal _, _ => q = Normal t
    | Cleanup _, _ => q = Cleanup t
    | Handler pid _, Jump _ _ => q = Handler pid t
    | Handler _ _, _ => q = Normal t
    end.
Proof.
  destruct e as [t s|r|]; [| |by destruct p].
  - destruct p; intros [= <-]; by eexists.
  - destruct r, p; intros [= <-]; by eexists.
Qed.
End runs.

(** ** Pruning keeps runs *)

Section pruning.
Context {E : Type} (is_const : BranchCond.t -> bool) (oracle : nat -> Choice) (asm : Assembly).

Local Abbreviation trace := (trace is_const oracle).
Local Notation run_of k := (run (ch_dec (oracle k)) is_const asm).

(** An exit of a live block leads to a live block or nowhere. *)
Lemma exit_alive blocks handlers entry id b k ev e p q :
  by_id blocks id = Some b -> rtc (flows_to blocks asm handlers) entry id ->
  run_of k (bb_roots b) = Some (ev, e) -> leads_to p e = Some q ->
  match p, e with Handler _ _, Leave _ => False | _, _ => True end ->
  exists t, (rtc (flows_to blocks asm handlers) entry t \/ by_id blocks t = None) /\
    match p with Normal _ => q = Normal t | Cleanup _ => q = Cleanup t | Handler pid _ => q = Handler pid t end.
Proof.
  intros Hb Hr Hrun Hl Hp. destruct (leads_to_target _ _ _ Hl) as (t & Ht & Hq). exists t. split.
  - destruct (by_id blocks t) as [bt|] eqn:Hbt; [|by right]. left.
    destruct (run_exit is_const oracle asm k _ _ _ Hrun t Ht) as (root & r & ? & ? & ?).
    eapply rtc_r; [exact Hr|]. left. econstructor; [exact Hb|done..|]. eauto.
  - destruct p, e; done.
Qed.

Lemma prune_region_runs blocks cleanup regions locals entry alive alive_cleanup n x :
  (forall t, t ∈ alive <-> rtc (flows_to blocks asm false) entry t) ->
  (forall t, t ∈ alive_cleanup <-> exists r, r ∈ regions /\ protected r ∈ alive /\
      rtc (flows_to cleanup asm false) (handler_entry r) t) ->
  trace n asm (RegionBody blocks cleanup regions locals) (Normal entry) = Some x ->
  trace n asm (RegionBody (retain_alive alive blocks) (retain_alive alive_cleanup cleanup)
    (List.filter (fun r => bool_decide (protected r ∈ alive)) regions) locals) (Normal entry) = Some x.
Proof.
  intros Hal Halc. apply (trace_simulation is_const oracle _ _ _ _ (fun p =>
    match p with
    | Normal id => id ∈ alive \/ by_id blocks id = None
    | Cleanup id => id ∈ alive_cleanup \/ by_id cleanup id = None
    | Handler _ _ => False
    end)); [|left; apply Hal, rtc_refl].
  intros [id|id|pid id] r Hgood Hr; [| |done]; cbn [place_roots catches] in *;
    apply fmap_Some in Hr as (b & Hb & ->); destruct Hgood as [Hid|?]; try congruence.
  - split_and!.
    + exists (bb_roots b). by rewrite by_id_retain, Hb.
    + clear - Hid. induction regions as [|r l IH]; [done|]. cbn.
      destruct (Z.eqb_spec (protected r) id) as [<-|Hne].
      * rewrite bool_decide_true by done. cbn. by rewrite Z.eqb_refl.
      * case_bool_decide; cbn; [|done]. destruct (Z.eqb_spec (protected r) id); done.
    + intros q (reg & [Hin Heq]%List.find_some & [= <-])%bind_Some. left. apply Halc.
      exists reg. split; [by apply list_elem_of_In|]. split; [|apply rtc_refl].
      by replace (protected reg) with id by lia.
    + intros k ev e q Hrun Hl. apply Hal in Hid.
      destruct (exit_alive _ _ _ _ _ k ev e (Normal id) q Hb Hid Hrun Hl I) as (t & Ht & ->).
      rewrite Hal. by destruct Ht; auto.
  - split_and!; [|done|done|].
    + exists (bb_roots b). by rewrite by_id_retain, Hb.
    + intros k ev e q Hrun Hl. apply Halc in Hid as (reg & Hin & Hp & Hid).
      destruct (exit_alive _ _ _ _ _ k ev e (Cleanup id) q Hb Hid Hrun Hl I) as (t & Ht & ->).
      rewrite Halc. destruct Ht; eauto 6.
Qed.

(** [b'] is [b] with the dead blocks of its handler removed. *)
Definition pruned (fuel : nat) (b b' : BasicBlock) : Prop := prune_handler (E := E) fuel asm b = Ok b'.

Lemma pruned_by_id fuel l l' id :
  Forall2 (pruned fuel) l l' -> option_Forall2 (pruned fuel) (by_id l id) (by_id l' id).
Proof.
  intros H. unfold by_id.
  assert (Hid : forall b b', pruned fuel b b' -> block_id b' = block_id b).
  { intros b b'. unfold pruned, prune_handler. destruct (handler b) as [[|]|].
    1, 3: by intros [= <-]. by intros (? & _ & [= <-])%bind_ok. }
  assert (Forall2 (pruned fuel) (List.filter (fun b => block_id b =? id) l)
            (List.filter (fun b => block_id b =? id) l')) as Hf.
  { induction H as [|b b' l l' Hb _ IH]; cbn; [constructor|]. rewrite (Hid _ _ Hb).
    destruct (_ =? _); [by constructor|done]. }
  clear H. induction Hf as [|b b' f f' Hb Hf IH]; [constructor|].
  cbn [list.last]. inversion Hf; subst; [by constructor|done].
Qed.

Lemma prune_legacy_runs fuel blocks locals blocks' entry alive n x :
  (S (total_roots blocks) < fuel)%nat ->
  (forall t, t ∈ alive <-> rtc (flows_to blocks asm true) entry t) ->
  map_outcome (prune_handler (E := E) fuel asm) (retain_alive alive blocks) = Ok blocks' ->
  trace n asm (MethodBody blocks locals) (Normal entry) = Some x ->
  trace n asm (MethodBody blocks' locals) (Normal entry) = Some x.
Proof.
  intros Hf Hal Hpr%map_outcome_Forall2. apply (trace_simulation is_const oracle _ _ _ _ (fun p =>
    match p with
    | Normal id => id ∈ alive \/ by_id blocks id = None
    | Handler pid id => pid ∈ alive /\ exists b en rest, by_id blocks pid = Some b /\
        handler b = Some (en :: rest) /\
        (rtc (branches_to (en :: rest) asm) (block_id en) id \/ by_id (en :: rest) id = None)
    | Cleanup _ => False
    end)); [|left; apply Hal, rtc_refl].
  assert (Hid : forall id b, id ∈ alive -> by_id blocks id = Some b ->
            exists b', by_id blocks' id = Some b' /\ pruned fuel b b').
  { intros id b Hin Hb. apply (pruned_by_id fuel _ _ id) in Hpr.
    rewrite by_id_retain, Hb in Hpr by done. inversion Hpr; subst; eauto. }
  assert (Hflow : forall b l, b ∈ blocks -> handler b = Some l -> (S (total_roots l) < fuel)%nat).
  { intros b l Hb%total_roots_elem Hl%handler_total_roots. lia. }
  intros [id|id|pid id] r Hgood Hr; [|done|]; cbn [place_roots catches] in *.
  - apply fmap_Some in Hr as (b & Hb & ->). destruct Hgood as [Hin|?]; [|congruence].
    destruct (Hid _ _ Hin Hb) as (b' & Hb' & Hp). rewrite Hb, Hb'. unfold pruned, prune_handler in Hp.
    cbn. split_and!.
    + exists (bb_roots b). split; [|done]. cbn. f_equal.
      destruct (handler b) as [[|]|]; [|apply bind_ok in Hp as (? & _ & Hp)|]; by injection Hp as <-.
    + destruct (handler b) as [[|en rest]|] eqn:Hh.
      1, 3: injection Hp as <-; by rewrite Hh.
      apply bind_ok in Hp as (al & Hal' & [= <-]). cbn. unfold retain_alive. cbn.
      rewrite bool_decide_true; [done|]. eapply plain_spec; [|exact Hal'|apply rtc_refl].
      eapply Hflow; [by eapply by_id_elem|done].
    + intros q Hq. destruct (handler b) as [[|en rest]|] eqn:Hh; try done. injection Hq as <-.
      split; [done|]. exists b, en, rest. split_and!; [done..|]. left. apply rtc_refl.
    + intros k ev e q Hrun Hl. apply Hal in Hin.
      destruct (exit_alive _ _ _ _ _ k ev e (Normal id) q Hb Hin Hrun Hl I) as (t & Ht & ->).
      rewrite Hal. by destruct Ht; auto.
  - destruct Hgood as (Hin & b & en & rest & Hb & Hh & Hid'). rewrite Hb in Hr. cbn in Hr.
    rewrite Hh in Hr. cbn [mbind option_bind] in Hr. apply fmap_Some in Hr as (hb & Hhb & ->).
    destruct Hid' as [Hreach|?]; [|congruence].
    destruct (Hid _ _ Hin Hb) as (b' & Hb' & Hp). rewrite Hb'. unfold pruned, prune_handler in Hp.
    rewrite Hh in Hp. apply bind_ok in Hp as (al & Hal' & Hp).
    assert (b' = mk_block (bb_roots b) (block_id b) (Some (retain_alive al (en :: rest)))
                   (handler_id b)) as -> by congruence.
    assert (Hfl : (S (total_roots (en :: rest)) < fuel)%nat) by (eapply Hflow; [by eapply by_id_elem|done]).
    destruct (plain_spec (E := E) fuel (block_id en) (en :: rest) asm Hfl) as [_ Hspec].
    destruct (Hspec _ Hal') as [_ Ht]. split_and!; [|done|done|].
    + exists (bb_roots hb). split; [|done]. cbn [mbind option_bind handler].
      rewrite by_id_retain by by apply Ht. by rewrite Hhb.
    + intros k ev e q Hrun Hl. destruct (leads_to_target _ _ _ Hl) as (t & Htt & Hq).
      destruct (run_exit is_const oracle asm k _ _ _ Hrun t Htt) as (root & r & Hroot & Hr & Hrt).
      destruct e as [t1 s1|r1|]; [| |done].
      * subst q. split; [done|]. exists b, en, rest. split_and!; [done..|].
        destruct (by_id (en :: rest) t) as [bt|] eqn:Hbt; [|by right]. left.
        eapply rtc_r; [exact Hreach|]. econstructor; [exact Hhb|done..|]. eauto.
      * subst q. rewrite Hal. destruct (by_id blocks t) as [bt|] eqn:Hbt; [|by right]. left.
        apply Hal in Hin. eapply rtc_r; [exact Hin|]. right. split; [done|].
        destruct (by_id_elem _ _ _ Hhb) as [Hhin Hhid].
        rewrite <- Hhid in Hreach.
        apply (leaves_to_intro _ _ _ _ b en rest hb root r); try done.
        rewrite iter_roots_own. set_solver.
Qed.
End pruning.

(** ** Canonicalization keeps runs *)

Section canonical.
Context {E : Type} (is_const : BranchCond.t -> bool) (oracle : nat -> Choice).

(** [b'] in [asm'] behaves like [b] in [asm], whatever the choices. *)
Definition keeps_all asm asm' (b b' : BasicBlock) : Prop :=
  forall k, keeps (ch_dec (oracle k)) is_const asm asm' b b'.

Lemma keeps_roots dec asm asm' b b' x :
  keeps dec is_const asm asm' b b' ->
  run dec is_const asm (bb_roots b) = Some x -> run dec is_const asm' (bb_roots b') = Some x.
Proof. destruct b, b'. cbn. intros (_ & _ & H & _). apply H. Qed.

Lemma keeps_id dec asm asm' b b' : keeps dec is_const asm asm' b b' -> block_id b' = block_id b.
Proof. destruct b, b'. by intros (? & _). Qed.

Lemma keeps_handler dec asm asm' b b' :
  keeps dec is_const asm asm' b b' ->
  match handler b, handler b' with
  | Some l, Some l' => Forall2 (keeps dec is_const asm asm') l l'
  | None, None => True
  | _, _ => False
  end.
Proof.
  destruct b as [r i [l|] hid], b' as [r' i' [l'|] hid']; cbn; try tauto. intros (_ & _ & _ & H).
  revert l' H. induction l as [|b l IH]; intros [|b' l']; try done. intros [? ?]. constructor; auto.
Qed.

Lemma Forall2_all {A B} (R : nat -> A -> B -> Prop) l l' :
  (forall k, Forall2 (R k) l l') -> Forall2 (fun x y => forall k, R k x y) l l'.
Proof.
  intros H. apply Forall2_same_length_lookup_2; [by eapply Forall2_length, (H 0%nat)|].
  intros i x y Hx Hy k. by eapply Forall2_lookup_lr.
Qed.

Lemma keeps_all_handler asm asm' b b' :
  keeps_all asm asm' b b' ->
  match handler b, handler b' with
  | Some l, Some l' => Forall2 (keeps_all asm asm') l l'
  | None, None => True
  | _, _ => False
  end.
Proof.
  intros H. assert (H' := fun k => keeps_handler _ _ _ _ _ (H k)).
  destruct (handler b), (handler b'); try done; [by apply Forall2_all|apply (H' 0%nat)..].
Qed.

Lemma keeps_all_by_id asm asm' l l' id :
  Forall2 (keeps_all asm asm') l l' ->
  option_Forall2 (keeps_all asm asm') (by_id l id) (by_id l' id).
Proof.
  intros H. unfold by_id.
  assert (Forall2 (keeps_all asm asm') (List.filter (fun b => block_id b =? id) l)
            (List.filter (fun b => block_id b =? id) l')) as Hf.
  { induction H as [|b b' l l' Hb _ IH]; cbn; [constructor|]. rewrite (keeps_id _ _ _ _ _ (Hb 0%nat)).
    destruct (_ =? _); [by constructor|done]. }
  clear H. induction Hf as [|b b' f f' Hb Hf IH]; [constructor|].
  cbn [list.last]. inversion Hf; subst; [by constructor|done].
Qed.

Lemma canonicalize_blocks_keep l asm asm' l' :
  map_st (canonicalize_control_flow (E := E)) l asm = (asm', Ok l') ->
  (forall k, consistent (E := E) (ch_dec (oracle k)) is_const asm) ->
  only_roots asm asm' /\ Forall2 (keeps_all asm asm') l l'.
Proof.
  revert asm l'. induction l as [|b l IH]; intros asm l'; cbn [map_st].
  - intros [= <- <-] _. by split; [|constructor].
  - intros (s1 & b1 & H1 & (s2 & l1 & H2 & [= <- <-])%st_bind_ok)%st_bind_ok Hc.
    assert (Hb := fun k => canonicalize_keeps _ _ _ _ _ _ H1 (Hc k)).
    destruct (Hb 0%nat) as (Ho & _ & _).
    destruct (IH _ _ H2) as [Ho' Hl]; [intros k; by eapply only_roots_consistent|].
    split; [by etrans|]. constructor.
    + intros k. eapply keeps_extends; [done|apply Ho'|apply Hb].
    + eapply list.Forall2_impl; [exact Hl|]. intros ?? Hx k. eapply keeps_extends; [apply Ho|done|apply Hx].
Qed.

(** Two bodies with blocks that behave alike. *)
Definition alike asm asm' (i i' : MethodImpl) : Prop :=
  match i, i' with
  | MethodBody l locals, MethodBody l' locals' => locals' = locals /\ Forall2 (keeps_all asm asm') l l'
  | RegionBody l c regions locals, RegionBody l' c' regions' locals' =>
      regions' = regions /\ locals' = locals /\ Forall2 (keeps_all asm asm') l l' /\
      Forall2 (keeps_all asm asm') c c'
  | _, _ => i' = i
  end.

Lemma alike_runs asm asm' i i' n p x :
  alike asm asm' i i' -> trace is_const oracle n asm i p = Some x -> trace is_const oracle n asm' i' p = Some x.
Proof.
  intros Hi. apply (trace_simulation is_const oracle _ _ _ _ (fun _ => True)); [|done].
  intros q r _ Hr. split_and!; [| |done|done].
  - assert (Hplace : forall l l' id, Forall2 (keeps_all asm asm') l l' ->
      bb_roots <$> by_id l id = Some r -> exists r', bb_roots <$> by_id l' id = Some r' /\
      forall k x, run (ch_dec (oracle k)) is_const asm r = Some x ->
                  run (ch_dec (oracle k)) is_const asm' r' = Some x).
    { intros l l' id Hl (b & Hb & ->)%fmap_Some. apply (keeps_all_by_id _ _ _ _ id) in Hl.
      rewrite Hb in Hl. inversion Hl as [? b' Hk|]; subst. exists (bb_roots b'). split; [done|].
      intros k y. by apply keeps_roots. }
    destruct i as [l locals| | | |l c regions locals], i' as [l' locals'| | | |l' c' regions' locals'], q;
      try done; cbn [place_roots] in *; cbn in Hi; destruct_and? Hi; try (by eapply Hplace).
    apply bind_Some in Hr as (b & Hb & (h & Hh & Hr)%bind_Some).
    match goal with H : Forall2 _ l l' |- _ => apply (keeps_all_by_id _ _ _ _ protected) in H as Hk end.
    rewrite Hb in Hk. inversion Hk as [? b' Hbb|]; subst. apply keeps_all_handler in Hbb.
    rewrite Hh in Hbb. destruct (handler b') as [h'|] eqn:Hh'; [|done]. cbn. rewrite Hh'. cbn.
    by eapply Hplace.
  - destruct i as [l locals| | | |l c regions locals], i' as [l' locals'| | | |l' c' regions' locals'], q;
      try done; cbn in Hi; destruct_and? Hi; subst; try done. cbn [catches].
    match goal with H : Forall2 _ l l' |- _ => apply (keeps_all_by_id _ _ _ _ id) in H as Hk end.
    inversion Hk as [b b' Hbb Hb Hb'|]; [|done]. cbn. apply keeps_all_handler in Hbb.
    destruct (handler b) as [h|], (handler b') as [h'|]; try done. cbn.
    inversion Hbb as [|en en' h1 h1' Hen]; subst; [done|]. cbn.
    by rewrite (keeps_id _ _ _ _ _ (Hen 0%nat)).
Qed.

Lemma canonicalize_impl_keeps i asm asm' i' :
  canonicalize_impl (E := E) i asm = (asm', Ok i') ->
  (forall k, consistent (E := E) (ch_dec (oracle k)) is_const asm) ->
  only_roots asm asm' /\ alike asm asm' i i'.
Proof.
  unfold canonicalize_impl, map_all_blocks. destruct i as [l locals| | | |l c regions locals];
    try (by intros [= <- <-]).
  - intros (s & l' & Hl & [= <- <-])%st_bind_ok Hc.
    destruct (canonicalize_blocks_keep _ _ _ _ Hl Hc). by split.
  - intros (s & l' & Hl & (s1 & c' & Hcl & [= <- <-])%st_bind_ok)%st_bind_ok Hc.
    destruct (canonicalize_blocks_keep _ _ _ _ Hl Hc) as [Ho Hk].
    destruct (canonicalize_blocks_keep _ _ _ _ Hcl) as [Ho' Hk'];
      [intros k; by eapply only_roots_consistent|].
    split; [by etrans|]. split_and!; try done; (eapply list.Forall2_impl; [done|]); intros ?? Hx k.
    + eapply keeps_extends; [done|apply Ho'|apply Hx].
    + eapply keeps_extends; [apply Ho|done|apply Hx].
Qed.
End canonical.

(** ** Canonicalization only removes roots *)

Section canonical_size.
Context {E : Type}.

Lemma canonical_roots_length l asm asm' l' :
  canonical_roots (E := E) l asm = (asm', Ok l') -> (length l' <= length l)%nat.
Proof.
  revert asm asm' l'. induction l as [|root l IH]; intros asm asm' l'; cbn [canonical_roots].
  { by intros [= <- <-]. }
  intros (s & r & [-> _]%fetch_root_ok & H)%st_bind_ok.
  assert (Hgo : (l ← canonical_roots (E := E) l; mret (root :: l)) asm = (asm', Ok l') ->
            (length l' <= S (length l))%nat).
  { intros (s1 & l1 & H1%IH & [= <- <-])%st_bind_ok. cbn. lia. }
  destruct r; try (by apply Hgo in H); try (injection H as <- <-; cbn; lia).
  apply st_bind_ok in H as (s1 & v & Hv & H). destruct cond as [c|].
  - injection Hv as <- Hv. destruct v as [[]|].
    + apply st_bind_ok in H as (s2 & id & _ & [= <- <-]). cbn. lia.
    + apply IH in H. cbn. lia.
    + by apply Hgo in H.
  - injection Hv as <- <-. injection H as <- <-. cbn. lia.
Qed.

Lemma canonicalize_size b asm asm' b' :
  canonicalize_control_flow (E := E) b asm = (asm', Ok b') ->
  (length (iter_roots b') <= length (iter_roots b))%nat.
Proof.
  revert asm asm' b'. induction b as [roots id h hid IH] using BasicBlock_nested_ind.
  intros asm asm' b'. cbn [canonicalize_control_flow].
  set (handlers := match h with Some l => _ | None => _ end).
  assert (Hh : forall s s' h', handlers s = (s', Ok h') ->
    (length (match h' with Some l => concat (map iter_roots l) | None => [] end) <=
     length (match h with Some l => concat (map iter_roots l) | None => [] end))%nat).
  { intros s s' h'. subst handlers. destruct h as [l|]; [|by intros [= <- <-]].
    intros (s1 & l' & Hl & [= <- <-])%st_bind_ok. rewrite !length_concat_map.
    specialize (IH l eq_refl). revert s s1 l' Hl.
    induction IH as [|b l Hb _ IHl]; intros s s1 l'; cbn [map_st]; [by intros [= <- <-]|].
    intros (s0 & b1 & H0%Hb & (s2 & l1 & H2%IHl & [= <- <-])%st_bind_ok)%st_bind_ok. cbn. lia. }
  intros (s0 & pads & [= -> _] & H)%st_bind_ok. destruct pads.
  - apply st_bind_ok in H as (s1 & h' & Hh'%Hh & [= <- <-]). cbn. rewrite !length_app. lia.
  - apply st_bind_ok in H as (s1 & r' & Hr%canonical_roots_length & H).
    apply st_bind_ok in H as (s2 & h' & Hh'%Hh & [= <- <-]). cbn. rewrite !length_app. lia.
Qed.

Lemma canonicalize_total l asm asm' l' :
  map_st (canonicalize_control_flow (E := E)) l asm = (asm', Ok l') ->
  (total_roots l' <= total_roots l)%nat.
Proof.
  revert asm asm' l'. induction l as [|b l IH]; intros asm asm' l'; cbn [map_st]; [by intros [= <- <-]|].
  intros (s1 & b1 & H1%canonicalize_size & (s2 & l1 & H2%IH & [= <- <-])%st_bind_ok)%st_bind_ok.
  unfold total_roots in *. cbn. lia.
Qed.

Lemma canonicalize_root_count i asm asm' i' :
  canonicalize_impl (E := E) i asm = (asm', Ok i') -> (root_count i' <= root_count i)%nat.
Proof.
  unfold canonicalize_impl, map_all_blocks. destruct i as [l locals| | | |l c regions locals];
    try (by intros [= <- <-]).
  - by intros (s & l' & Hl%canonicalize_total & [= <- <-])%st_bind_ok.
  - intros (s & l' & Hl%canonicalize_total & (s1 & c' & Hc%canonicalize_total & [= <- <-])%st_bind_ok)%st_bind_ok.
    unfold total_roots, root_count in *. rewrite !map_app, !sum_list_app. lia.
Qed.
End canonical_size.

(** ** [remove_dead_blocks] *)

(** The block a method starts with. *)
Definition entry_id (i : MethodImpl) : option Z := block_id <$> (impl_blocks i ≫= head).

Section dead_blocks.
Context {E : Type} (is_const : BranchCond.t -> bool) (oracle : nat -> Choice).
Implicit Types asm : Assembly.

Lemma alike_entry asm asm' i i' :
  alike is_const oracle asm asm' i i' -> entry_id i' = entry_id i.
Proof.
  assert (Hhead : forall l l', Forall2 (keeps_all is_const oracle asm asm') l l' ->
            block_id <$> head l' = block_id <$> head l).
  { intros ? ? [|b b' ? ? Hb]; [done|]. cbn. f_equal. exact (keeps_id _ _ _ _ _ _ (Hb 0%nat)). }
  destruct i, i'; try done; cbn; intros Hi; destruct_and? Hi; simplify_eq; try done; by apply Hhead.
Qed.

(** The cleanup blocks kept are those that the surviving regions reach. *)
Lemma alive_cleanup_elem fuel cleanup regions (alive : list Z) asm ls t :
  (S (total_roots cleanup) < fuel)%nat ->
  map_outcome (fun r => reachable_block_ids (E := E) fuel (handler_entry r) cleanup asm false)
    (List.filter (fun r => bool_decide (protected r ∈ alive)) regions) = Ok ls ->
  t ∈ concat ls <-> exists r, r ∈ regions /\ protected r ∈ alive /\
      rtc (flows_to cleanup asm false) (handler_entry r) t.
Proof.
  intros Hf Hls%map_outcome_Forall2. rewrite list_elem_of_In, in_concat.
  assert (Hreach : forall r l, reachable_block_ids (E := E) fuel (handler_entry r) cleanup asm false = Ok l ->
            t ∈ l <-> rtc (flows_to cleanup asm false) (handler_entry r) t).
  { intros r l Hl. eapply (reachable_spec (E := E)); [exact Hf|exact Hl]. }
  split.
  - intros (l & (i & Hi)%list_elem_of_In%list_elem_of_lookup & Hin).
    destruct (Forall2_lookup_r _ _ _ _ _ Hls Hi) as (r & Hr & Hl).
    apply list_elem_of_lookup_2, elem_of_filter_bool in Hr as [Hr Hp%bool_decide_eq_true].
    exists r. split_and!; [done..|]. by eapply Hreach, list_elem_of_In.
  - intros (r & Hr & Hp & Ht).
    assert (r ∈ List.filter (fun r => bool_decide (protected r ∈ alive)) regions) as Hin.
    { apply elem_of_filter_bool. by rewrite bool_decide_true. }
    apply list_elem_of_lookup in Hin as [i Hi].
    destruct (Forall2_lookup_l _ _ _ _ _ Hls Hi) as (l & Hl & Hok).
    exists l. split; apply list_elem_of_In; [by eapply list_elem_of_lookup_2|]. by eapply Hreach.
Qed.

Lemma region_total blocks cleanup regions locals :
  root_count (RegionBody blocks cleanup regions locals) = (total_roots blocks + total_roots cleanup)%nat.
Proof. unfold root_count, total_roots. by rewrite map_app, sum_list_app. Qed.

(** [remove_dead_blocks] after the canonicalization. *)
Lemma prune_entry fuel asm en rest (alive : list Z) blocks' :
  block_id en ∈ alive ->
  map_outcome (prune_handler (E := E) fuel asm) (retain_alive alive (en :: rest)) = Ok blocks' ->
  exists en' rest', blocks' = en' :: rest' /\ block_id en' = block_id en.
Proof.
  intros Hin. unfold retain_alive. cbn [List.filter]. rewrite bool_decide_true by done.
  intros (en' & Hen & (r & _ & [= <-])%bind_ok)%bind_ok. exists en', r. split; [done|].
  unfold prune_handler in Hen. destruct (handler en) as [[|]|].
  1, 3: by injection Hen as <-. by apply bind_ok in Hen as (? & _ & [= <-]).
Qed.

(** C4: from its entry, a method runs after [remove_dead_blocks] as it did before: the same events,
    tests, exits and unwinding, for every outcome of the tests that agrees with the constant ones
    and every point where a block throws. *)
Theorem remove_dead_blocks_keeps_runs fuel d asm asm' d' entry n x :
  remove_dead_blocks (E := E) fuel d asm = (asm', Ok d') ->
  (S (root_count (implementation d)) < fuel)%nat ->
  (forall k, consistent (E := E) (ch_dec (oracle k)) is_const asm) ->
  entry_id (implementation d) = Some entry ->
  trace is_const oracle n asm (implementation d) (Normal entry) = Some x ->
  entry_id (implementation d') = Some entry /\
  trace is_const oracle n asm' (implementation d') (Normal entry) = Some x.
Proof.
  intros (s1 & i1 & Hcan & (s2 & i2 & Hprune & [= <- <-])%st_bind_ok)%st_bind_ok Hf Hc Hentry Hx.
  cbn [implementation set_implementation]. pose proof (canonicalize_root_count _ _ _ _ Hcan) as Hcount.
  destruct (canonicalize_impl_keeps is_const oracle _ _ _ _ Hcan Hc) as [_ Halike].
  apply (alike_runs is_const oracle _ _ _ _ n _ _ Halike) in Hx.
  rewrite <- (alike_entry _ _ _ _ Halike) in Hentry. clear Hcan Hc Halike.
  destruct i1 as [[|en rest] locals| | | |[|en rest] c regions locals]; try done; injection Hentry as <-.
  - apply st_bind_ok in Hprune as (s3 & alive & [= <- Hal] & Hprune).
    apply st_bind_ok in Hprune as (s4 & blocks' & [= <- Hbl] & [= <- <-]).
    assert (Hfl : (S (total_roots (en :: rest)) < fuel)%nat) by (cbn in *; lia).
    destruct (reachable_spec (E := E) fuel (block_id en) (en :: rest) s1 true Hfl) as [_ Hsp].
    destruct (Hsp _ Hal) as [_ Ht]. split; [|by eapply prune_legacy_runs].
    destruct (prune_entry fuel s1 en rest alive blocks') as (? & ? & -> & <-); [|done|done].
    apply Ht, rtc_refl.
  - apply st_bind_ok in Hprune as (s3 & alive & [= <- Hal] & Hprune).
    apply st_bind_ok in Hprune as (s4 & alive_c & [= <- Hac] & [= <- <-]).
    rewrite region_total in Hcount.
    assert (Hfl : (S (total_roots (en :: rest)) < fuel)%nat) by lia.
    destruct (reachable_spec (E := E) fuel (block_id en) (en :: rest) s1 false Hfl) as [_ Hsp].
    destruct (Hsp _ Hal) as [_ Ht]. split.
    + unfold entry_id, retain_alive. cbn. by rewrite bool_decide_true by (apply Ht, rtc_refl).
    + apply prune_region_runs; [done| |done]. intros t.
      eapply alive_cleanup_elem; [|exact Hac]. lia.
Qed.

Lemma st_fuelled_alloc_root r : st_fuelled (alloc_root (E := E) r).
Proof.
  intros s. unfold alloc_root, intern_in, arena_intern.
  by repeat case_match; cbn in *; simplify_eq; destruct (id_for_zero_based _).
Qed.

Lemma fuelled_constant_node asm id : fuelled (constant_node (E := E) asm id).
Proof. apply fuelled_bind; [apply fuelled_unwrap|done]. Qed.

Lemma fuelled_constant_branch c asm : fuelled (constant_branch_value (E := E) c asm).
Proof.
  destruct c; cbn; unfold constant_pair;
    repeat (apply fuelled_bind; [apply fuelled_constant_node|]; intros [] _); done.
Qed.

Lemma st_fuelled_canonical_roots l : st_fuelled (canonical_roots (E := E) l).
Proof.
  induction l as [|root l IH]; cbn [canonical_roots]; [done|].
  apply st_fuelled_bind; [apply st_fuelled_reads; intros; apply fuelled_unwrap|]. intros r.
  destruct r; eauto with st_fuelled.
  apply st_fuelled_bind; [destruct cond; eauto using fuelled_constant_branch with st_fuelled|].
  intros [[]|]; eauto using st_fuelled_alloc_root with st_fuelled. destruct cond; eauto with st_fuelled.
Qed.

Lemma st_fuelled_canonicalize b : st_fuelled (canonicalize_control_flow (E := E) b).
Proof.
  induction b as [roots id h hid IH] using BasicBlock_nested_ind. cbn [canonicalize_control_flow].
  assert (st_fuelled (match h with
     | Some l => l ← map_st (canonicalize_control_flow (E := E)) l; mret (Some l)
     | None => mret None end : ST Assembly E (option (list BasicBlock)))).
  { destruct h as [l|]; [|done]. apply st_fuelled_bind; [|done]. by apply st_fuelled_map, IH. }
  cbv zeta. apply st_fuelled_bind; [|intros []; eauto using st_fuelled_canonical_roots with st_fuelled].
  apply st_fuelled_reads. intros. apply fuelled_any. intros. by apply fuelled_bind; [apply fuelled_unwrap|].
Qed.

Lemma fuelled_prune fuel asm b :
  (S (length (iter_roots b)) < fuel)%nat -> fuelled (prune_handler (E := E) fuel asm b).
Proof.
  unfold prune_handler. intros Hf. destruct (handler b) as [[|en rest]|] eqn:Hh; [done| |done].
  pose proof (handler_total_roots _ _ Hh). apply fuelled_bind; [apply plain_spec; lia|done].
Qed.

(** C20: with fuel above the number of roots of the body, [remove_dead_blocks] terminates. *)
Theorem remove_dead_blocks_terminates fuel d asm :
  (S (root_count (implementation d)) < fuel)%nat ->
  fuelled (snd (remove_dead_blocks (E := E) fuel d asm)).
Proof.
  intros Hf. apply fuelled_st_step.
  { unfold canonicalize_impl, map_all_blocks.
    pose proof (fun l => st_fuelled_map (canonicalize_control_flow (E := E)) l
      (proj2 (Forall_forall _ _) (fun x _ => st_fuelled_canonicalize x))) as Hmap.
    destruct (implementation d); try done; eapply st_fuelled_bind; eauto with st_fuelled. }
  intros s1 i1 Hcount%canonicalize_root_count. apply fuelled_st_step; [|done].
  assert (Hf1 : (S (root_count i1) < fuel)%nat) by lia. clear Hf Hcount.
  destruct i1 as [[|en rest] locals| | | |[|en rest] c regions locals]; try done.
  - apply fuelled_st_step; [by apply reachable_spec|]. intros s2 alive _.
    apply fuelled_st_step; [|done]. apply fuelled_map.
    intros b [Hb%total_roots_elem _]%elem_of_filter_bool. apply fuelled_prune. cbn in *. lia.
  - rewrite region_total in Hf1. apply fuelled_st_step; [apply reachable_spec; lia|].
    intros s2 alive _. apply fuelled_st_step; [|done]. apply fuelled_map.
    intros r _. apply reachable_spec. lia.
Qed.
End dead_blocks.

(** ** Witnesses *)

Section witnesses.
(** The looping method of [MethodTheory], with its dead block. *)
Definition loop_method : MethodDef :=
  MethodDef_new Access.Extern 1%positive 1%positive 1%positive MethodKind.Static
    (MethodBody loop_sample_blocks []) [].

Definition loop_removed : Assembly * outcome unit MethodDef :=
  remove_dead_blocks 5 loop_method loop_sample.

Definition no_const (c : BranchCond.t) : bool := false.
Definition calm (n : nat) : Choice := mk_Choice (fun _ => true) None.

Definition loop_result : MethodDef :=
  match snd loop_removed with Ok d => d | _ => loop_method end.

Lemma remove_dead_blocks_keeps_runs_witness :
  impl_blocks (implementation loop_result) = Some (take 2 loop_sample_blocks) /\
  entry_id (implementation loop_result) = Some 0 /\
  trace no_const calm 2 (fst loop_removed) (implementation loop_result) (Normal 0) =
    Some ([], Running (Normal 0)).
Proof.
  split; [vm_compute; reflexivity|].
  apply (remove_dead_blocks_keeps_runs (E := unit) no_const calm 5 loop_method loop_sample).
  - vm_compute. reflexivity.
  - cbn. lia.
  - intros k c. unfold no_const. destruct c; reflexivity.
  - reflexivity.
  - vm_compute. reflexivity.
Defined.

Lemma remove_dead_blocks_terminates_witness :
  fuelled (snd (remove_dead_blocks (E := unit) 5 loop_method loop_sample)).
Proof. apply remove_dead_blocks_terminates. cbn. lia. Defined.
End witnesses.
