(* ===== verification/Regions.v ===== *)
(** * Verified exception regions can be materialized

    A body that passes [verify_exception_regions] gives the exporters a legacy body: the
    materialization of its regions fails only when the root arena is full, protects exactly the
    blocks the regions name, and leaves the others alone. *)

From S2P Require Import Prelude Interner Types IR Arenas Walk Block BlockTheory Method MethodTheory.

(** ** Computations that fail only for lack of root ids *)

(** Every root id is taken. *)
Definition full (asm : Assembly) : Prop := 2 ^ 32 - 1 <= Z.of_nat (length (roots asm)).

Section wp.
Context {E : Type}.
Implicit Types asm : Assembly.

(** [m] from [asm] ends in [Q], or panics with a full arena. *)
Definition wp {A} (m : ST Assembly E A) (Q : A -> Assembly -> Prop) asm : Prop :=
  match m asm with
  | (asm', Ok a) => Q a asm'
  | (asm', Panic) => full asm'
  | _ => False
  end.

Lemma wp_ret {A} (a : A) Q asm : Q a asm -> wp (mret a) Q asm.
Proof. done. Qed.

Lemma wp_bind {A B} (m : ST Assembly E A) (f : A -> ST Assembly E B) Q asm :
  wp m (fun a s => wp (f a) Q s) asm -> wp (m ≫= f) Q asm.
Proof. unfold wp, mbind, ST_bind. by destruct (m asm) as [s []]. Qed.

Lemma wp_mono {A} (m : ST Assembly E A) (Q Q' : A -> Assembly -> Prop) asm :
  wp m Q asm -> (forall a s, Q a s -> Q' a s) -> wp m Q' asm.
Proof. unfold wp. destruct (m asm) as [s []]; auto. Qed.

Lemma wp_reads {A} (f : Assembly -> outcome E A) a Q asm : f asm = Ok a -> Q a asm -> wp (reads f) Q asm.
Proof. unfold wp, reads. by intros ->. Qed.

Lemma wp_lift {A} (m : outcome E A) a Q asm : m = Ok a -> Q a asm -> wp (lift m) Q asm.
Proof. unfold wp, lift. by intros ->. Qed.

Lemma wp_alloc_root r asm :
  wp (alloc_root r) (fun id s => extends asm s /\ roots s !! slot id = Some r) asm.
Proof.
  unfold wp. destruct (alloc_root (E := E) r asm) as [s [id| | |]] eqn:H.
  - by apply alloc_root_spec in H as [[? _] ?].
  - unfold alloc_root, intern_in, arena_intern in H.
    repeat case_match; cbn in *; simplify_eq; by destruct (id_for_zero_based _).
  - unfold alloc_root, intern_in, arena_intern in H. unfold full.
    destruct (arena_find (roots asm) r) as [n|] eqn:Hn; cbn in H.
    + apply arena_find_Some, lookup_lt_Some in Hn.
      destruct (id_for_zero_based n) eqn:Hi; [done|]. injection H as <-.
      unfold id_for_zero_based in Hi. destruct (Z.ltb_spec (Z.of_nat n) (2 ^ 32 - 1)); [done|lia].
    + destruct (id_for_zero_based _) eqn:Hi; [done|]. injection H as <-.
      unfold id_for_zero_based in Hi.
      destruct (Z.ltb_spec (Z.of_nat (length (roots asm))) (2 ^ 32 - 1)); [done|lia].
  - unfold alloc_root, intern_in, arena_intern in H.
    repeat case_match; cbn in *; simplify_eq; by destruct (id_for_zero_based _).
Qed.

Lemma wp_map_st {A B} (f : A -> ST Assembly E B) (P : Assembly -> A -> B -> Prop) l asm :
  (forall s s' x y, extends s s' -> P s x y -> P s' x y) ->
  (forall x s, x ∈ l -> extends asm s -> wp (f x) (fun y s' => extends s s' /\ P s' x y) s) ->
  wp (map_st f l) (fun ys s' => extends asm s' /\ Forall2 (P s') l ys) asm.
Proof.
  intros HP Hf. assert (Hgen : forall s, extends asm s ->
    wp (map_st f l) (fun ys s' => extends s s' /\ Forall2 (P s') l ys) s); [|by apply Hgen].
  induction l as [|x l IH]; intros s Hs; cbn [map_st]; [by apply wp_ret|].
  apply wp_bind. eapply wp_mono; [apply Hf; [set_solver|done]|]. intros y s1 [H1 Hy].
  apply wp_bind. eapply wp_mono; [apply IH; [intros; apply Hf; set_solver|by etrans]|].
  intros ys s2 [H2 Hys]. apply wp_ret. split; [by etrans|]. constructor; [by eapply HP|done].
Qed.
End wp.

(** ** Blocks that can be materialized *)

(** A root that is stored, with no legacy sub-target, branching to one of [ids]. *)
Definition good_root (ids : list Z) asm (root : Interned KRoot) : Prop :=
  exists r, roots asm !! slot root = Some r /\
    match r with CILRoot.Branch t s _ => s = 0 /\ t ∈ ids | _ => True end.

Definition good_block (ids : list Z) asm (b : BasicBlock) : Prop :=
  handler b = None /\ Forall (good_root ids asm) (bb_roots b).

Definition stored asm (root : Interned KRoot) : Prop := is_Some (roots asm !! slot root).

Lemma good_root_extends ids asm asm' root :
  extends asm asm' -> good_root ids asm root -> good_root ids asm' root.
Proof. intros He (r & Hr & H). exists r. split; [by eapply extends_root|done]. Qed.

Lemma good_block_extends ids asm asm' b :
  extends asm asm' -> good_block ids asm b -> good_block ids asm' b.
Proof.
  intros He [? H]. split; [done|]. eapply list.Forall_impl; [exact H|].
  intros ?. by apply good_root_extends.
Qed.

Lemma stored_extends asm asm' root : extends asm asm' -> stored asm root -> stored asm' root.
Proof. intros He [r Hr]. exists r. by eapply extends_root. Qed.

Section materialize.
Context {E : Type} {order : HashOrder}.
Implicit Types asm : Assembly.

Lemma good_targets ids asm b :
  good_block ids asm b ->
  exists ts, targets_with_sub (E := E) b asm = Ok ts /\ Forall (fun t => snd t = 0 /\ fst t ∈ ids) ts.
Proof.
  intros [_ H]. unfold targets_with_sub. induction H as [|root l (r & Hr & Hg) _ (ts & Hts & Hall)]; cbn.
  - by exists [].
  - unfold get_root. rewrite (proj2 (arena_get_ok _ _ _) Hr). cbn. rewrite Hts. cbn.
    eexists. split; [done|]. destruct r; try done. constructor; [by destruct Hg|done].
Qed.

Lemma gc_targets_good bbs ids asm l :
  (forall id, id ∈ ids -> exists b, find_bb (E := E) id bbs = Ok b /\ good_block ids asm b) ->
  Forall (fun id => id ∈ ids) l ->
  exists ts, gc_targets (E := E) bbs asm l = Ok ts /\ Forall (fun id => id ∈ ids) ts.
Proof.
  intros Hids Hl. unfold gc_targets.
  assert (exists tss, map_outcome (fun id => bb ← find_bb (E := E) id bbs; targets_with_sub bb asm) l = Ok tss
    /\ Forall (fun t => snd t = 0 /\ fst t ∈ ids) (concat tss)) as (tss & -> & Hall).
  { induction Hl as [|id l Hid _ (tss & Htss & Hall)]; cbn [map_outcome]; [by exists []|].
    destruct (Hids id Hid) as (b & Hb & Hg). rewrite Hb. cbn.
    destruct (good_targets _ _ _ Hg) as (ts & -> & Ht). cbn. rewrite Htss. cbn.
    eexists. split; [done|]. cbn. by apply Forall_app. }
  cbn. rewrite (proj2 (forallb_forall _ _)).
  - eexists. split; [done|]. apply Forall_fmap. eapply list.Forall_impl; [exact Hall|]. by intros ? [].
  - intros t Ht%list_elem_of_In. rewrite list.Forall_forall in Hall. destruct (Hall t Ht). lia.
Qed.

Lemma gc_loop_good fuel bbs ids asm alive resurecting to_resurect :
  (forall id, id ∈ ids -> exists b, find_bb (E := E) id bbs = Ok b /\ good_block ids asm b) ->
  Forall (fun id => id ∈ ids) to_resurect ->
  gc_loop (E := E) fuel bbs asm alive resurecting to_resurect <> Panic /\
  forall e, gc_loop (E := E) fuel bbs asm alive resurecting to_resurect <> Err e.
Proof.
  intros Hids. revert alive resurecting to_resurect.
  induction fuel as [|fuel IH]; intros al re to Hto; cbn [gc_loop]; [done|].
  destruct to as [|t to]; [done|]. cbv zeta.
  destruct (gc_targets_good bbs ids asm (t :: to) Hids Hto) as (ts & -> & Hts). cbn. apply IH.
  apply list.Forall_forall. intros x. rewrite elem_of_remove_dups, elem_of_filter_bool.
  intros [Hx _]. by eapply list.Forall_forall in Hts.
Qed.

Lemma block_gc_good fuel hid bbs ids asm :
  (forall id, id ∈ ids -> exists b, find_bb (E := E) id bbs = Ok b /\ good_block ids asm b) ->
  hid ∈ ids -> (length bbs < fuel)%nat ->
  exists l, block_gc (E := E) fuel hid bbs asm = Ok l /\ forall b, b ∈ l -> b ∈ bbs.
Proof.
  intros Hids Hhid Hf. destruct (block_gc_spec (E := E) bbs asm fuel hid Hf) as [Hfu Hok].
  destruct (block_gc fuel hid bbs asm) as [l|e| |] eqn:Hl; [|exfalso..].
  - exists l. split; [done|]. intros b Hb. by apply (Hok l).
  - unfold block_gc in Hl. destruct (gc_loop_good fuel bbs ids asm [] [] [hid] Hids) as [_ He];
      [by constructor|]. destruct (gc_loop _ _ _ _ _ _) eqn:Hg; cbn in Hl; try done. by destruct (He e0).
  - unfold block_gc in Hl. destruct (gc_loop_good fuel bbs ids asm [] [] [hid] Hids) as [He _];
      [by constructor|]. by destruct (gc_loop _ _ _ _ _ _).
  - done.
Qed.

(** [fix_for_exception_handler] on roots without sub-targets. *)
Lemma wp_fix b id asm :
  Forall (fun root => exists r, roots asm !! slot root = Some r /\
            match r with CILRoot.Branch _ s _ => s = 0 | _ => True end) (bb_roots b) ->
  wp (E := E) (fix_for_exception_handler b id) (fun b' s => extends asm s /\
    block_id b' = block_id b /\ handler b' = handler b /\ Forall (stored s) (bb_roots b')) asm.
Proof.
  intros Hb. unfold fix_for_exception_handler. apply wp_bind.
  eapply wp_mono; [apply (wp_map_st _ (fun s _ root => stored s root))|].
  - intros s s' _ y. apply stored_extends.
  - intros root s Hin Hs. rewrite list.Forall_forall in Hb. destruct (Hb root Hin) as (r & Hr & Hsub).
    assert (Hr' := extends_root _ _ _ _ Hs Hr). apply wp_bind.
    eapply wp_reads; [by apply get_root_ok|].
    destruct r; try (apply wp_ret; split; [done|by eexists]).
    rewrite Hsub, Z.eqb_refl. eapply wp_mono; [apply wp_alloc_root|]. intros i s' [? ?]. split; [done|by eexists].
  - intros l s [Hs Hl]. apply wp_ret. split_and!; try done. cbn [bb_roots set_bb_roots].
    clear - Hl. by induction Hl; constructor.
Qed.

Lemma wp_pads id ts asm :
  Forall (fun t => snd t = 0) ts ->
  wp (E := E) (launching_pads id ts) (fun pads s => extends asm s /\
    Forall (fun pad => exists t, roots s !! slot pad = Some (CILRoot.ExitSpecialRegion t id)) pads) asm.
Proof.
  intros Hts. unfold launching_pads.
  eapply wp_mono; [apply (wp_map_st _ (fun s _ pad => exists t,
    roots s !! slot pad = Some (CILRoot.ExitSpecialRegion t id)))|].
  - intros s s' _ y Hs [t Ht]. exists t. by eapply extends_root.
  - intros [t sub] s Hin _. rewrite hash_iter_perm, elem_of_remove_dups in Hin.
    rewrite list.Forall_forall in Hts. specialize (Hts _ Hin). cbn in Hts. subst sub.
    rewrite Z.eqb_refl. eapply wp_mono; [apply wp_alloc_root|]. intros i s' [? ?]. split; [done|by exists t].
  - intros l s [Hs Hl]. split; [done|]. clear - Hl. by induction Hl; constructor.
Qed.

Lemma wp_close h asm :
  h <> [] -> Forall (fun b => handler b = None /\ Forall (stored asm) (bb_roots b)) h ->
  wp (E := E) (close_handler h) (fun h' s => extends asm s /\ h' <> []) asm.
Proof.
  intros Hne Hh. unfold close_handler.
  destruct (list.last h) as [terminal|] eqn:Hl; [|by apply last_None in Hl].
  rewrite list.Forall_forall in Hh. destruct (Hh terminal) as [Hn Hs]; [by apply last_Some_elem_of|].
  assert (exists rs, meaningfull_roots (E := E) terminal asm = Ok rs) as [rs Hrs].
  { unfold meaningfull_roots. rewrite iter_roots_own, Hn, app_nil_r. clear - Hs.
    induction Hs as [|root l [r Hr] _ [rs Hrs]]; cbn; [by eexists|].
    unfold get_root. rewrite (proj2 (arena_get_ok _ _ _) Hr). cbn. rewrite Hrs. cbn. by eexists. }
  apply wp_bind. eapply wp_reads; [unfold ends_with_transfer; by rewrite Hrs|].
  match goal with |- wp (if ?c then _ else _) _ _ => destruct c end; [by apply wp_ret|].
  apply wp_bind. eapply wp_mono; [apply wp_alloc_root|]. intros i s [? _]. apply wp_ret.
  split; [done|]. by destruct (removelast h).
Qed.

(** The materialization of one region over verified blocks. *)
Lemma wp_resolve fuel self hid bbs ids asm :
  handler self = None -> Forall (fun root => exists r, roots asm !! slot root = Some r /\
            match r with CILRoot.Branch _ s _ => s = 0 | _ => True end) (bb_roots self) ->
  (exists ts, targets_with_sub (E := E) self asm = Ok ts /\ Forall (fun t => snd t = 0) ts) ->
  (forall id, id ∈ ids -> exists b, find_bb (E := E) id bbs = Ok b) ->
  Forall (good_block ids asm) bbs ->
  hid ∈ ids -> (length bbs < fuel)%nat ->
  wp (E := E) (resolve_exception_handler fuel self hid bbs) (fun b' s => extends asm s /\
    block_id b' = block_id self /\ is_Some (handler b')) asm.
Proof.
  intros Hn Hself (ts & Hts & Hsub) Hids Hbbs Hhid Hf. unfold resolve_exception_handler. rewrite Hn.
  rewrite list.Forall_forall in Hbbs.
  destruct (block_gc_good fuel hid bbs ids asm) as (gc & Hgc & Hin); [|done..|].
  { intros id Hid. destruct (Hids id Hid) as [b Hb]. exists b. split; [done|].
    apply Hbbs. by apply find_bb_id in Hb as []. }
  apply wp_bind. eapply wp_reads; [exact Hgc|]. cbv zeta. apply wp_bind.
  eapply wp_mono; [apply (wp_map_st _ (fun s _ b' => handler b' = None /\ Forall (stored s) (bb_roots b')))|].
  { intros s s' _ b' Hs [? Hb']. split; [done|]. eapply list.Forall_impl; [exact Hb'|].
    intros ?. by apply stored_extends. }
  { intros b s Hb Hs. destruct (good_block_extends ids asm s b Hs (Hbbs b (Hin b Hb))) as [Hnone Hgood].
    eapply wp_mono; [apply wp_fix|].
    - eapply list.Forall_impl; [exact Hgood|]. intros root (r & Hr & Hg). exists r.
      split; [done|]. destruct r; try done. by destruct Hg.
    - intros b' s' (? & _ & ? & ?). split; [done|]. split; [congruence|done]. }
  intros fixed s1 [H1 Hfixed]. apply wp_bind. eapply wp_mono; [apply wp_alloc_root|].
  intros start s2 [H2 Hstart]. apply wp_bind. eapply wp_lift; [done|]. apply wp_bind.
  assert (Hext2 : extends asm s2) by (by etrans).
  assert (Hlater : forall s, extends asm s -> targets_with_sub (E := E) self s = Ok ts).
  { intros s Hs. revert Hts. unfold targets_with_sub. generalize (bb_roots self), ts.
    intros l. induction l as [|root l IH]; intros ts'; cbn; [done|].
    intros (r & Hr%get_root_ok & (l' & Hl' & Hts')%bind_ok)%bind_ok.
    apply bind_ok. exists r. split; [apply get_root_ok; by eapply extends_root|].
    by rewrite (IH _ Hl'). }
  eapply wp_reads; [by apply Hlater|]. apply wp_bind. eapply wp_mono; [by apply wp_pads|].
  intros pads s3 [H3 Hpads]. apply wp_bind. eapply wp_mono; [apply wp_fix|].
  { cbn. apply Forall_app. split.
    - eapply list.Forall_impl; [exact Hself|]. intros root (r & Hr & Hg). exists r.
      split; [|done]. eapply extends_root; [|exact Hr]. by etrans.
    - eapply list.Forall_impl; [exact Hpads|]. intros pad [t Ht]. by eexists. }
  intros self' s4 (H4 & Hid & _). apply wp_bind. eapply wp_mono; [apply wp_close; [done|]|].
  - constructor.
    + split; [done|]. constructor; [|done]. eapply stored_extends; [|by eexists]. by etrans.
    + clear - Hfixed H2 H3 H4. induction Hfixed as [|b b' l l' [? Hb] _ IH]; constructor; [|done].
      split; [done|]. eapply list.Forall_impl; [exact Hb|]. intros root. apply stored_extends. chain.
  - intros h s5 [H5 _]. apply wp_ret. split_and!; [chain|done|by eexists].
Qed.
End materialize.

(** ** What the verifier establishes *)

Record verified (asm : Assembly) (blocks cleanup : list BasicBlock) (regions : list ExceptionRegion)
    : Prop := {
  ver_normal : NoDup (map block_id blocks);
  ver_cleanup : NoDup (map block_id cleanup);
  ver_disjoint : forall id, id ∈ map block_id blocks -> id ∈ map block_id cleanup -> False;
  ver_protected : forall r, r ∈ regions -> protected r ∈ map block_id blocks /\
                    handler_entry r ∈ map block_id cleanup;
  ver_once : NoDup (map protected regions);
  ver_blocks : Forall (fun b => good_block (map block_id blocks) asm b /\ handler_id b = None) blocks;
  ver_cleanups : Forall (fun b => good_block (map block_id cleanup) asm b /\ handler_id b = None) cleanup }.

Lemma check_regions_ok normal cleanup seen regions :
  check_regions normal cleanup seen regions = Ok tt <->
  (forall r, r ∈ regions -> protected r ∈ normal /\ handler_entry r ∈ cleanup /\ protected r ∉ seen) /\
  NoDup (map protected regions).
Proof.
  revert seen. induction regions as [|r regions IH]; intros seen; cbn [check_regions].
  - split; [|done]. intros _. split; [set_solver|constructor].
  - case_bool_decide as H1; cbn [negb]; [|split; [done|set_solver]].
    case_bool_decide as H2; cbn [negb]; [|split; [done|set_solver]].
    case_bool_decide as H3; cbn [negb]; [split; [done|set_solver]|].
    rewrite IH. cbn [map]. rewrite list.NoDup_cons. split.
    + intros [Hall Hn]. split; [|split; [|done]].
      * intros x [->|Hx]%elem_of_cons; [done|]. destruct (Hall x Hx) as (? & ? & ?). set_solver.
      * intros (x & Heq & Hx)%list_elem_of_fmap. destruct (Hall x Hx) as (_ & _ & ?). set_solver.
    + intros (Hall & Hr & Hn). split; [|done]. intros x Hx.
      destruct (Hall x) as (? & ? & ?); [set_solver|]. split_and!; [done..|].
      intros [Heq|?]%elem_of_cons; [|done]. apply Hr. rewrite <- Heq. apply list_elem_of_fmap. eauto.
Qed.

Lemma check_targets_ok c id ids ts :
  check_targets c id ids ts = Ok tt <-> Forall (fun t => snd t = 0 /\ fst t ∈ ids) ts.
Proof.
  induction ts as [|[t s] ts IH]; cbn [check_targets]; [by split|]. rewrite list.Forall_cons. cbn.
  destruct (Z.eqb_spec s 0); cbn [negb]; [|naive_solver].
  case_bool_decide; cbn [negb]; [|naive_solver]. rewrite IH. tauto.
Qed.

Lemma targets_with_sub_good ids asm l ts :
  filter_map_roots (E := RegionError) (fun r =>
    match r with CILRoot.Branch t s _ => Some (t, s) | _ => None end) asm l = Ok ts ->
  Forall (fun t => snd t = 0 /\ fst t ∈ ids) ts -> Forall (good_root ids asm) l.
Proof.
  revert ts. induction l as [|root l IH]; intros ts; cbn; [constructor|].
  intros (r & Hr%get_root_ok & (ts' & Hts & [= <-])%bind_ok)%bind_ok Hall. constructor.
  - exists r. split; [done|]. destruct r; try done. by apply list.Forall_cons in Hall as [[? ?] _].
  - apply (IH _ Hts). destruct r; try done. by apply list.Forall_cons in Hall as [_ ?].
Qed.

Lemma check_block_ok asm c ids b :
  check_block asm c ids b = Ok tt -> good_block ids asm b /\ handler_id b = None.
Proof.
  unfold check_block. destruct (handler b) eqn:Hh, (handler_id b) eqn:Hi; try done.
  intros (ts & Hts & ([] & Hct%check_targets_ok & _)%bind_ok)%bind_ok.
  split; [|done]. split; [done|]. by eapply targets_with_sub_good.
Qed.

Lemma check_blocks_ok asm c ids bs :
  check_blocks asm c ids bs = Ok tt ->
  Forall (fun b => good_block ids asm b /\ handler_id b = None) bs.
Proof.
  induction bs as [|b bs IH]; cbn [check_blocks]; [constructor|].
  intros ([] & Hb%check_block_ok & H)%bind_ok. constructor; auto.
Qed.

Lemma verify_ok asm blocks cleanup regions locals :
  verify_exception_regions asm (RegionBody blocks cleanup regions locals) = Ok tt ->
  verified asm blocks cleanup regions.
Proof.
  cbn [verify_exception_regions]. cbv zeta.
  case_bool_decide as H1; cbn [negb orb]; [|done]. case_bool_decide as H2; cbn [negb]; [|done].
  destruct (existsb _ _) eqn:Hex; [done|].
  intros ([] & [Hr Hn]%check_regions_ok & ([] & Hb & Hc)%bind_ok)%bind_ok.
  split; try done; [| |by eapply check_blocks_ok..].
  - intros id Hin Hin'. assert (existsb (fun id => bool_decide (id ∈ map block_id cleanup))
      (map block_id blocks) = true); [|congruence].
    apply existsb_exists. exists id. split; [by apply list_elem_of_In|by apply bool_decide_eq_true].
  - intros r Hin. by destruct (Hr r Hin) as (? & ? & _).
Qed.

(** ** Materialization *)

Section materialization.
Context {E : Type} {order : HashOrder}.
Implicit Types asm : Assembly.

Lemma regions_map_ok regions acc :
  NoDup (map protected regions) -> (forall r, r ∈ regions -> acc !! protected r = None) ->
  exists m, regions_by_protected (E := E) regions acc = Ok m /\
    forall id e, m !! id = Some e <->
      acc !! id = Some e \/ exists r, r ∈ regions /\ protected r = id /\ handler_entry r = e.
Proof.
  revert acc. induction regions as [|r regions IH]; intros acc; cbn [regions_by_protected map].
  - intros _ _. exists acc. split; [done|]. set_solver.
  - intros [Hr Hn]%list.NoDup_cons Hacc. rewrite (Hacc r) by set_solver.
    destruct (IH (<[protected r := handler_entry r]> acc) Hn) as (m & Hm & Hspec).
    { intros r' Hr'. rewrite lookup_insert_ne; [apply Hacc; set_solver|].
      intros Heq. apply Hr. rewrite Heq. apply list_elem_of_fmap. eauto. }
    exists m. split; [done|]. intros id e. rewrite Hspec, lookup_insert_Some.
    setoid_rewrite elem_of_cons. split.
    + intros [[[<- <-]|[? ?]]|(r' & ? & ? & ?)]; [right; exists r; auto|by left|right; exists r'; auto].
    + intros [H|(r' & [->|?] & <- & <-)]; [|by left; left|right; by exists r'].
      left. destruct (decide (protected r = id)) as [<-|]; [|by right].
      rewrite Hacc in H by set_solver. done.
Qed.

Lemma find_bb_cleanup cleanup id :
  id ∈ map block_id cleanup -> exists b, find_bb (E := E) id cleanup = Ok b.
Proof.
  intros (b & -> & Hb)%list_elem_of_fmap. unfold find_bb.
  destruct (List.find _ cleanup) as [b'|] eqn:Hf; [by exists b'|].
  pose proof (List.find_none _ _ Hf b (proj1 (list_elem_of_In _ _) Hb)). cbn in *. lia.
Qed.

(** What happened to a block: it got a handler, or was left alone. *)
Definition materialized (prot : gmap Z Z) (b b' : BasicBlock) : Prop :=
  block_id b' = block_id b /\
  if bool_decide (is_Some (prot !! block_id b)) then is_Some (handler b') else b' = b.

Lemma wp_protected fuel cleanup blocks prot ids asm :
  NoDup (map block_id blocks) -> Forall (good_block ids asm) blocks ->
  Forall (good_block (map block_id cleanup) asm) cleanup -> (length cleanup < fuel)%nat ->
  (forall id e, prot !! id = Some e -> id ∈ map block_id blocks /\ e ∈ map block_id cleanup) ->
  wp (E := E) (resolve_protected fuel cleanup prot blocks)
    (fun r s => extends asm s /\ fst r = ∅ /\ Forall2 (materialized prot) blocks (snd r)) asm.
Proof.
  intros Hn Hb Hc Hf. revert asm prot Hb Hc.
  induction blocks as [|b blocks IH]; intros asm prot Hb Hc Hprot; cbn [resolve_protected].
  - apply wp_ret. split_and!; [done| |constructor]. apply map_eq. intros id. rewrite lookup_empty.
    destruct (prot !! id) eqn:Hp; [|done]. destruct (Hprot _ _ Hp). set_solver.
  - cbn [map] in Hn. apply list.NoDup_cons in Hn as [Hnot Hn].
    apply list.Forall_cons in Hb as [[Hnone Hgood] Hb].
    (* the rest of the loop, with the map [m] left by this block *)
    assert (Hrest : forall s b' m, extends asm s -> materialized prot b b' ->
      m = delete (block_id b) prot ->
      wp (E := E) (r ← resolve_protected fuel cleanup m blocks;
          let '(m, rest) := r in mret (m, b' :: rest))
        (fun r s => extends asm s /\ fst r = ∅ /\ Forall2 (materialized prot) (b :: blocks) (snd r)) s).
    { intros s b' m Hs Hb' ->. apply wp_bind. eapply wp_mono; [apply IH; try done|].
      - eapply list.Forall_impl; [exact Hb|]. intros ?. by apply good_block_extends.
      - eapply list.Forall_impl; [exact Hc|]. intros ?. by apply good_block_extends.
      - intros id e [Hne Hp]%lookup_delete_Some. destruct (Hprot _ _ Hp) as [Hin ?]. set_solver.
      - intros [m rest] s' (Hs' & Hm & Hall). apply wp_ret. split_and!; [by etrans|done|].
        constructor; [done|]. cbn [snd] in *. clear - Hall Hnot.
        induction Hall as [|c c' l l' [Hid Hc] _ IHl]; constructor; [|apply IHl; set_solver].
        split; [done|]. rewrite lookup_delete_ne in Hc by set_solver. done. }
    apply wp_bind. unfold materialized in Hrest. destruct (prot !! block_id b) as [e|] eqn:Hp.
    + rewrite bool_decide_true in Hrest by by eexists. destruct (Hprot _ _ Hp) as [_ He]. apply wp_bind.
      eapply wp_mono; [eapply (wp_resolve fuel b e cleanup (map block_id cleanup)); try done|].
      * eapply list.Forall_impl; [exact Hgood|]. intros root (r & Hr & Hg). exists r.
        split; [done|]. destruct r; try done. by destruct Hg.
      * destruct (good_targets (E := E) ids asm b) as (ts & Hts & Hall); [done|].
        exists ts. split; [done|]. eapply list.Forall_impl; [exact Hall|]. by intros ? [].
      * intros id Hid. by apply find_bb_cleanup.
      * intros b' s (Hs & Hid & Hh). apply wp_ret. by apply Hrest.
    + rewrite bool_decide_false in Hrest by by intros []. apply wp_ret. apply Hrest; try done.
      symmetry. by apply delete_id.
Qed.

(** C18: a verified body has a materialization: its regions are turned into handlers, on exactly the
    protected blocks, without a panic, unless the arena has no root id left. *)
Theorem verified_regions_materialize fuel blocks cleanup regions locals asm :
  verify_exception_regions asm (RegionBody blocks cleanup regions locals) = Ok tt ->
  (length cleanup < fuel)%nat ->
  wp (E := E) (materialize_regions fuel blocks cleanup regions) (fun blocks' s => extends asm s /\
    Forall2 (fun b b' => block_id b' = block_id b /\
      ((block_id b ∈ map protected regions) -> is_Some (handler b')) /\
      ((block_id b ∉ map protected regions) -> b' = b)) blocks blocks') asm.
Proof.
  intros [Hn _ _ Hp Ho Hb Hc]%verify_ok Hf.
  destruct (regions_map_ok regions ∅ Ho) as (m & Hm & Hspec); [by intros; apply lookup_empty|].
  assert (Hdom : forall id, id ∈ map protected regions <-> is_Some (m !! id)).
  { intros id. rewrite list_elem_of_fmap. split.
    - intros (r & -> & Hr). exists (handler_entry r). apply Hspec. right. by exists r.
    - intros [e [He|(r & ? & <- & _)]%Hspec]; [by rewrite lookup_empty in He|by exists r]. }
  unfold materialize_regions. apply wp_bind. eapply wp_lift; [exact Hm|]. apply wp_bind.
  eapply wp_mono; [apply (wp_protected fuel cleanup blocks m (map block_id blocks)); try done|].
  - eapply list.Forall_impl; [exact Hb|]. by intros ? [].
  - eapply list.Forall_impl; [exact Hc|]. by intros ? [].
  - intros id e [He|(r & Hr & <- & <-)]%Hspec; [by rewrite lookup_empty in He|by apply Hp].
  - intros [m' bs] s (Hs & Hm' & Hall). cbn [fst snd] in *. rewrite bool_decide_true by done.
    apply wp_ret. split; [done|]. eapply list.Forall2_impl; [exact Hall|]. clear - Hdom.
    intros b b' [Hid Hb]. split; [done|]. case_bool_decide as Hs.
    + split; [done|]. intros Hno. by apply Hdom in Hs.
    + split; [|done]. intros Hin%Hdom. done.
Qed.
End materialization.

(** ** Witness *)

(** Block 0 goes to 1 and is protected by the cleanup block 2, which rethrows. *)
Definition region_sample : Assembly :=
  set_roots empty_assembly [CILRoot.Branch 1 0 None; CILRoot.VoidRet; CILRoot.ReThrow].

Definition region_sample_blocks : list BasicBlock :=
  [mk_block [1%positive] 0 None None; mk_block [2%positive] 1 None None].
Definition region_sample_cleanup : list BasicBlock := [mk_block [3%positive] 2 None None].

Lemma verified_regions_materialize_witness :
  wp (E := unit) (materialize_regions (H := sorted_hash_order) 2 region_sample_blocks
      region_sample_cleanup [mk_region 0 2])
    (fun blocks' s => extends region_sample s /\
      Forall2 (fun b b' => block_id b' = block_id b /\
        ((block_id b ∈ map protected [mk_region 0 2]) -> is_Some (handler b')) /\
        ((block_id b ∉ map protected [mk_region 0 2]) -> b' = b)) region_sample_blocks blocks')
    region_sample.
Proof.
  apply (verified_regions_materialize (E := unit) (order := sorted_hash_order) 2 region_sample_blocks
           region_sample_cleanup [mk_region 0 2] []).
  - vm_compute. reflexivity.
  - cbn. lia.
Defined.
