(* ===== verification/Opt.v ===== *)
(** * The peephole optimizer (cilly/src/ir/opt/opt_node.rs, root.rs; [opt_roots] of opt/mod.rs)

    The rewrites of single nodes and roots, driven over whole trees by [CILNode::map] and
    [CILRoot::map].  The state of a pass is the assembly with what the closures capture: the work
    budget and the two effect tables. *)

From S2P Require Import Prelude Interner Types IR Walk Typecheck Block Effects Method.

(** ** The state of a pass *)

Record OptState : Set := mk_OptState {
  os_asm : Assembly;
  os_fuel : OptFuel;
  root_cache : EffectInfoCache;
  node_cache : EffectInfoCache }.

#[export] Program Instance opt_state_has_asm : HasAsm OptState := {|
  asm_of := os_asm;
  set_asm s a := mk_OptState a (os_fuel s) (root_cache s) (node_cache s) |}.
Next Obligation. done. Qed.
Next Obligation. by intros []. Qed.

Section opt.
Context {E : Type}.
(** [asm.method_defs], which no rewrite changes; the bounds of the model's recursions; and the
    method being optimized. *)
Context (method_defs : gmap positive MethodDef) (tfuel nfuel : nat).
Context (sig : Interned KSig) (locals : list LocalDef) (caller_class : Interned KClassRef).
Implicit Types asm : Assembly.

(** [fuel.consume(cost)] *)
Definition consume_fuel (cost : Z) : ST OptState E bool := fun s =>
  let '(granted, rest) := consume (os_fuel s) cost in
  (mk_OptState (os_asm s) rest (root_cache s) (node_cache s), Ok granted).

Definition opt_if_fuel {T} (new original : T) : ST OptState E T :=
  granted ← consume_fuel 1; mret (if (granted : bool) then new else original).

(** [node.typecheck(sig, locals, asm)] with its error kept only as [None]. *)
Definition try_typecheck (n : CILNode.t) : ST OptState E (option Ty.t) := fun s =>
  let '(a, r) := typecheck_node tfuel sig locals nfuel n (os_asm s) in
  (set_asm s a, match r with
                | Ok t => Ok (Some t)
                | Err _ => Ok None
                | Panic => Panic
                | NoFuel => NoFuel
                end).

Definition with_node_cache {A} (m : ST EffectInfoCache E A) : ST OptState E A := fun s =>
  let '(c, r) := m (node_cache s) in
  (mk_OptState (os_asm s) (os_fuel s) (root_cache s) c, r).

Definition with_root_cache {A} (m : ST EffectInfoCache E A) : ST OptState E A := fun s =>
  let '(c, r) := m (root_cache s) in
  (mk_OptState (os_asm s) (os_fuel s) c (node_cache s), r).

(** [args.iter().all(|argument| cache.summary(argument, asm).is_pure_total())] *)
Fixpoint all_pure_total (args : list (Interned KNode)) : ST OptState E bool :=
  match args with
  | [] => mret true
  | a :: args =>
      asm ← reads (fun s => Ok (os_asm s));
      e ← with_node_cache (summary asm nfuel a);
      if is_pure_total e then all_pure_total args else mret false
  end.

(** ** Constant returns *)

(** [method.resolved_implementation(asm)]: aliases are followed through [method_defs]. *)
Fixpoint resolved_implementation (fuel : nat) (i : MethodImpl) : outcome E MethodImpl :=
  match fuel with
  | O => NoFuel
  | S fuel' =>
      match i with
      | AliasFor method =>
          d ← unwrap (method_defs !! method); resolved_implementation fuel' (implementation d)
      | _ => Ok i
      end
  end.

Definition constant_return_from_definition (definition : MethodDef) asm : outcome E (option Const.t) :=
  i ← resolved_implementation nfuel (implementation definition);
  let blocks := match i with
                | MethodBody blocks _ => Some blocks
                | RegionBody blocks [] [] _ => Some blocks
                | _ => None
                end in
  match blocks with
  | Some [block] =>
      if match handler block with Some _ => true | None => false end then Ok None
      else
        roots ← meaningfull_roots block asm;
        match roots with
        | [CILRoot.Ret value] => constant_node asm value
        | _ => Ok None
        end
  | _ => Ok None
  end.

Definition constant_static_return (method : Interned KMethodRef) asm : outcome E (option Const.t) :=
  reference ← get_mref asm method;
  if negb (bool_decide (mr_kind reference = MethodKind.Static)) ||
     negb (bool_decide (is_Some (class_ref_to_def asm (mr_class reference))) &&
           bool_decide (mr_class reference = caller_class)) then Ok None
  else
    match method_defs !! method with
    | None => Ok None
    | Some definition =>
        if negb (bool_decide (md_kind definition = MethodKind.Static)) ||
           negb (bool_decide (md_class definition = caller_class)) then Ok None
        else constant_return_from_definition definition asm
    end.

(** ** Nodes *)

Definition const (c : Const.t) : CILNode.t := CILNode.Const c.

(** Optimizes an integer cast. *)
Definition opt_int_cast (original : CILNode.t) (input : Interned KNode) (target : Int.t)
    (extend : ExtendKind.t) : ST OptState E CILNode.t :=
  inner ← fetch_node input;
  match inner with
  | CILNode.LdField _ field =>
      f ← reads (fun s => get_field (os_asm s) field);
      mret (if bool_decide (field_tpe f = Ty.Int target) then inner else original)
  | CILNode.Const cst =>
      match cst, target with
      | Const.U64 val, Int.USize => opt_if_fuel (const (Const.USize val)) original
      | Const.I64 val, Int.ISize => opt_if_fuel (const (Const.ISize val)) original
      | Const.U64 val, Int.U64 => opt_if_fuel (const (Const.U64 val)) original
      | Const.I64 val, Int.I64 => opt_if_fuel (const (Const.I64 val)) original
      | Const.U32 val, Int.U32 => opt_if_fuel (const (Const.U32 val)) original
      | Const.I32 val, Int.I32 => opt_if_fuel (const (Const.I32 val)) original
      | Const.I32 val, Int.U32 => opt_if_fuel (const (Const.U32 (wrap 32 val))) original
      | Const.U64 val, Int.U8 => opt_if_fuel (const (Const.U8 (wrap 8 val))) original
      | Const.I32 val, Int.USize =>
          match extend with
          | ExtendKind.SignExtend => opt_if_fuel (const (Const.USize (wrap 64 val))) original
          | ExtendKind.ZeroExtend => opt_if_fuel (const (Const.USize (wrap 32 val))) original
          end
      | _, _ => mret original
      end
  | CILNode.IntCast input2 target2 extend2 =>
      if bool_decide (target = target2) && bool_decide (extend = extend2) then
        opt_if_fuel inner original
      else
        match target, target2 with
        | (Int.USize | Int.ISize), (Int.USize | Int.ISize)
        | (Int.U64 | Int.I64), (Int.U64 | Int.I64)
        | (Int.U32 | Int.I32), (Int.U32 | Int.I32) =>
            opt_if_fuel (CILNode.IntCast input2 target extend2) original
        | _, _ => mret original
        end
  | _ => mret original
  end.

Definition opt_size_of (original : CILNode.t) (tpe : Interned KType) : ST OptState E CILNode.t :=
  t ← reads (fun s => get_type (os_asm s) tpe);
  match t with
  | Ty.Int int =>
      match Int.size int with
      | Some size => opt_if_fuel (const (Const.I32 size)) original
      | None => mret original
      end
  | Ty.Float float => opt_if_fuel (const (Const.I32 (Float.size float))) original
  | _ => mret original
  end.

Definition opt_call (original : CILNode.t) (method : Interned KMethodRef)
    (args : list (Interned KNode)) : ST OptState E CILNode.t :=
  valid_call ← try_typecheck original;
  arguments_are_discardable ← all_pure_total args;
  value ← reads (fun s => constant_static_return method (os_asm s));
  match is_some valid_call && arguments_are_discardable, value with
  | true, Some value => opt_if_fuel (const value) original
  | _, _ => mret original
  end.

Definition opt_ld_ind (original : CILNode.t) (addr : Interned KNode) (tpe : Interned KType)
    (volatile : bool) : ST OptState E CILNode.t :=
  a ← fetch_node addr;
  match a with
  | CILNode.RefToPtr inner => opt_if_fuel (CILNode.LdInd inner tpe volatile) original
  | CILNode.LdLocA loc =>
      if negb volatile then opt_if_fuel (CILNode.LdLoc loc) original else mret original
  | CILNode.LdArgA loc =>
      if negb volatile then opt_if_fuel (CILNode.LdArg loc) original else mret original
  | CILNode.LdFieldAddress addr field =>
      field_desc ← reads (fun s => get_field (os_asm s) field);
      t ← reads (fun s => get_type (os_asm s) tpe);
      if bool_decide (field_tpe field_desc = t) then
        opt_if_fuel (CILNode.LdField addr field) original
      else mret original
  | _ => mret original
  end.

Definition opt_ld_field_address (original : CILNode.t) (addr : Interned KNode)
    (field : Interned KField) : ST OptState E CILNode.t :=
  a ← fetch_node addr;
  match a with
  | CILNode.RefToPtr inner =>
      id ← on_asm (alloc_node (CILNode.LdFieldAddress inner field)); mret (CILNode.RefToPtr id)
  | _ => mret original
  end.

Definition is_zero_node (n : CILNode.t) : bool :=
  match n with CILNode.Const cst => Const.is_zero cst | _ => false end.

Definition is_one_node (n : CILNode.t) : bool :=
  match n with CILNode.Const cst => Const.is_one cst | _ => false end.

Definition opt_add_sub (original : CILNode.t) (lhs rhs : Interned KNode) (op : BinOp.t)
    : ST OptState E CILNode.t :=
  l ← fetch_node lhs;
  r ← fetch_node rhs;
  mret (if is_zero_node l && negb (bool_decide (op = BinOp.Sub)) then r
        else if is_zero_node r then l
        else original).

(** The folding of two constants of one integer type by [f] (a wrapping operation, given the
    width and signedness of the type, that may panic). *)
Definition fold_int_consts (f : Z -> bool -> Z -> Z -> outcome E Z) (a b : Const.t)
    : outcome E (option Const.t) :=
  match a, b with
  | Const.U8 a, Const.U8 b => v ← f 8 false a b; Ok (Some (Const.U8 v))
  | Const.U16 a, Const.U16 b => v ← f 16 false a b; Ok (Some (Const.U16 v))
  | Const.U32 a, Const.U32 b => v ← f 32 false a b; Ok (Some (Const.U32 v))
  | Const.U64 a, Const.U64 b => v ← f 64 false a b; Ok (Some (Const.U64 v))
  | Const.U128 a, Const.U128 b => v ← f 128 false a b; Ok (Some (Const.U128 v))
  | Const.USize a, Const.USize b => v ← f 64 false a b; Ok (Some (Const.USize v))
  | Const.I8 a, Const.I8 b => v ← f 8 true a b; Ok (Some (Const.I8 v))
  | Const.I16 a, Const.I16 b => v ← f 16 true a b; Ok (Some (Const.I16 v))
  | Const.I32 a, Const.I32 b => v ← f 32 true a b; Ok (Some (Const.I32 v))
  | Const.I64 a, Const.I64 b => v ← f 64 true a b; Ok (Some (Const.I64 v))
  | Const.I128 a, Const.I128 b => v ← f 128 true a b; Ok (Some (Const.I128 v))
  | Const.ISize a, Const.ISize b => v ← f 64 true a b; Ok (Some (Const.ISize v))
  | _, _ => Ok None
  end.

(** [wrapping_rem], which panics on a zero divisor, and [wrapping_mul]. *)
Definition wrapping_rem (width : Z) (signed : bool) (a b : Z) : outcome E Z :=
  if b =? 0 then Panic else Ok (Z.rem a b).
Definition wrapping_mul (width : Z) (signed : bool) (a b : Z) : outcome E Z :=
  Ok (if signed then swrap width (a * b) else wrap width (a * b)).

Definition opt_rem (original : CILNode.t) (lhs rhs : Interned KNode) : ST OptState E CILNode.t :=
  l ← fetch_node lhs;
  r ← fetch_node rhs;
  match l, r with
  | CILNode.Const a, CILNode.Const b =>
      v ← lift (fold_int_consts wrapping_rem a b);
      mret (match v with Some v => const v | None => original end)
  | _, _ => mret original
  end.

Definition opt_mul (original : CILNode.t) (lhs rhs : Interned KNode) : ST OptState E CILNode.t :=
  l ← fetch_node lhs;
  r ← fetch_node rhs;
  let by_one := if is_one_node l then r else if is_one_node r then l else original in
  match l, r with
  | CILNode.Const a, CILNode.Const b =>
      if bool_decide (Const.get_type a = Const.get_type b) then
        v ← lift (fold_int_consts wrapping_mul a b);
        mret (match v with Some v => const v | None => original end)
      else mret by_one
  | _, _ => mret by_one
  end.

Definition opt_ld_field (original : CILNode.t) (addr : Interned KNode) (field : Interned KField)
    : ST OptState E CILNode.t :=
  a ← fetch_node addr;
  match a with
  | CILNode.RefToPtr addr => opt_if_fuel (CILNode.LdField addr field) original
  | CILNode.LdLocA loc =>
      addr ← on_asm (alloc_node (CILNode.LdLoc loc));
      opt_if_fuel (CILNode.LdField addr field) original
  | CILNode.LdArgA loc =>
      addr ← on_asm (alloc_node (CILNode.LdArg loc));
      opt_if_fuel (CILNode.LdField addr field) original
  | CILNode.LdFieldAddress addr2 field2 =>
      addr ← on_asm (alloc_node (CILNode.LdField addr2 field2));
      opt_if_fuel (CILNode.LdField addr field) original
  | CILNode.LdInd addr tpe _ =>
      t ← reads (fun s => get_type (os_asm s) tpe);
      match t with
      | Ty.ClassRef tpe =>
          f ← reads (fun s => get_field (os_asm s) field);
          if bool_decide (tpe = field_owner f) then
            opt_if_fuel (CILNode.LdField addr field) original
          else mret original
      | _ => mret original
      end
  | _ => mret original
  end.

Definition opt_node (original : CILNode.t) : ST OptState E CILNode.t :=
  match original with
  | CILNode.SizeOf tpe => opt_size_of original tpe
  | CILNode.IntCast input target extend => opt_int_cast original input target extend
  | CILNode.Call method args _ => opt_call original method args
  | CILNode.LdInd addr tpe volatile => opt_ld_ind original addr tpe volatile
  | CILNode.LdFieldAddress addr field => opt_ld_field_address original addr field
  | CILNode.BinOp lhs rhs ((BinOp.Add | BinOp.Sub) as op) => opt_add_sub original lhs rhs op
  | CILNode.BinOp lhs rhs (BinOp.Rem | BinOp.RemUn) => opt_rem original lhs rhs
  | CILNode.BinOp lhs rhs BinOp.Mul => opt_mul original lhs rhs
  | CILNode.LdField addr field => opt_ld_field original addr field
  | _ => mret original
  end.
End opt.

(** ** Roots *)

Section root_opt.
Context {E : Type} (tfuel nfuel : nat) (sig : Interned KSig) (locals : list LocalDef).

Definition negation_cmp_kind (operand : Interned KNode) (int_kind float_kind : CmpKind.t)
    : ST OptState E CmpKind.t :=
  n ← fetch_node operand;
  t ← try_typecheck tfuel nfuel sig locals n;
  mret (match t with Some (Ty.Float _) => float_kind | _ => int_kind end).

Definition optimized_branch (target sub_target : Z) (cond : option BranchCond.t)
    (original : CILRoot.t) : ST OptState E CILRoot.t :=
  opt_if_fuel (CILRoot.Branch target sub_target cond) original.

Definition is_zero_const (cst : Const.t) : bool :=
  match cst with
  | Const.Bool b => negb b
  | Const.ISize v | Const.USize v | Const.I64 v | Const.U64 v | Const.I32 v | Const.U32 v
  | Const.I16 v | Const.U16 v | Const.I8 v | Const.U8 v => v =? 0
  | _ => false
  end.

Definition true_branch_condition (lhs rhs : Interned KNode) (op : BinOp.t) : option BranchCond.t :=
  match op with
  | BinOp.Eq => Some (BranchCond.Eq lhs rhs)
  | BinOp.GtUn => Some (BranchCond.Gt lhs rhs CmpKind.Unordered)
  | BinOp.Gt => Some (BranchCond.Gt lhs rhs CmpKind.Ordered)
  | BinOp.LtUn => Some (BranchCond.Lt lhs rhs CmpKind.Unordered)
  | BinOp.Lt => Some (BranchCond.Lt lhs rhs CmpKind.Ordered)
  | _ => None
  end.

Definition false_branch_condition (lhs rhs : Interned KNode) (op : BinOp.t)
    : ST OptState E (option BranchCond.t) :=
  match op with
  | BinOp.Eq => mret (Some (BranchCond.Ne lhs rhs))
  | BinOp.Gt | BinOp.GtUn =>
      let '(int_kind, float_kind) :=
        if bool_decide (op = BinOp.Gt) then (CmpKind.Ordered, CmpKind.Unordered)
        else (CmpKind.Unordered, CmpKind.Ordered) in
      k ← negation_cmp_kind lhs int_kind float_kind; mret (Some (BranchCond.Le lhs rhs k))
  | BinOp.Lt | BinOp.LtUn =>
      let '(int_kind, float_kind) :=
        if bool_decide (op = BinOp.Lt) then (CmpKind.Ordered, CmpKind.Unordered)
        else (CmpKind.Unordered, CmpKind.Ordered) in
      k ← negation_cmp_kind lhs int_kind float_kind; mret (Some (BranchCond.Ge lhs rhs k))
  | _ => mret None
  end.

Definition opt_branch_false (root : CILRoot.t) (target sub_target : Z) (cond : Interned KNode)
    : ST OptState E CILRoot.t :=
  n ← fetch_node cond;
  match n with
  | CILNode.Const (Const.Bool false) => optimized_branch target sub_target None root
  | CILNode.Const (Const.Bool true) => opt_if_fuel CILRoot.Nop root
  | CILNode.BinOp lhs rhs op =>
      c ← false_branch_condition lhs rhs op;
      match c with
      | Some cond => optimized_branch target sub_target (Some cond) root
      | None => mret root
      end
  | _ => mret root
  end.

Definition opt_branch_true (root : CILRoot.t) (target sub_target : Z) (cond : Interned KNode)
    : ST OptState E CILRoot.t :=
  n ← fetch_node cond;
  match n with
  | CILNode.BinOp lhs rhs op =>
      match true_branch_condition lhs rhs op with
      | Some cond => optimized_branch target sub_target (Some cond) root
      | None => mret root
      end
  | _ => mret root
  end.

Definition const_of (n : CILNode.t) : option Const.t :=
  match n with CILNode.Const c => Some c | _ => None end.

Definition is_zero_operand (n : CILNode.t) : bool :=
  match const_of n with Some c => is_zero_const c | None => false end.

Definition is_true_operand (n : CILNode.t) : bool :=
  match const_of n with Some (Const.Bool true) => true | _ => false end.

Definition opt_branch_ne (root : CILRoot.t) (target sub_target : Z) (lhs rhs : Interned KNode)
    : ST OptState E CILRoot.t :=
  l ← fetch_node lhs;
  r ← fetch_node rhs;
  let branch c := optimized_branch target sub_target (Some c) root in
  if is_zero_operand r then branch (BranchCond.IsTrue lhs)
  else if is_true_operand r then branch (BranchCond.IsFalse lhs)
  else if is_zero_operand l then branch (BranchCond.IsTrue rhs)
  else mret root.

Definition opt_branch_eq (root : CILRoot.t) (target sub_target : Z) (lhs rhs : Interned KNode)
    : ST OptState E CILRoot.t :=
  l ← fetch_node lhs;
  r ← fetch_node rhs;
  let branch c := optimized_branch target sub_target (Some c) root in
  if is_zero_operand r then branch (BranchCond.IsFalse lhs)
  else if is_zero_operand l then branch (BranchCond.IsFalse rhs)
  else mret root.

(** [opt_init_obj] after its [RefToPtr] has been stripped: small scalars become a store of zero.
    A float's [size] is compared with 32 and 64 although it counts bytes. *)
Definition opt_init_scalar (addr : Interned KNode) (tpe : Interned KType) : ST OptState E CILRoot.t :=
  t ← reads (fun s => get_type (os_asm s) tpe);
  match t with
  | Ty.Int int =>
      if default 8 (Int.size int) <=? 8 then
        granted ← consume_fuel 1;
        if (granted : bool) then
          zero ← on_asm (alloc_node (const (int_zero int)));
          mret (CILRoot.StInd addr zero (Ty.Int int) false)
        else mret (CILRoot.InitObj addr tpe)
      else mret (CILRoot.InitObj addr tpe)
  | Ty.Float float =>
      granted ← consume_fuel 1;
      if granted && ((Float.size float =? 32) || (Float.size float =? 64)) then
        z ← lift (float_zero float);
        zero ← on_asm (alloc_node (const z));
        mret (CILRoot.StInd addr zero (Ty.Float float) false)
      else mret (CILRoot.InitObj addr tpe)
  | Ty.Bool =>
      granted ← consume_fuel 1;
      if (granted : bool) then
        zero ← on_asm (alloc_node (const (Const.Bool false)));
        mret (CILRoot.StInd addr zero Ty.Bool false)
      else mret (CILRoot.InitObj addr tpe)
  | _ => mret (CILRoot.InitObj addr tpe)
  end.

Definition opt_init_obj (addr : Interned KNode) (tpe : Interned KType) : ST OptState E CILRoot.t :=
  a ← fetch_node addr;
  addr ← (match a with
          | CILNode.RefToPtr inner =>
              granted ← consume_fuel 1; mret (if (granted : bool) then inner else addr)
          | _ => mret addr
          end : ST OptState E (Interned KNode));
  opt_init_scalar addr tpe.

Definition opt_pop (root : CILRoot.t) (pop : Interned KNode) : ST OptState E CILRoot.t :=
  n ← fetch_node pop;
  match n with
  | CILNode.LdLoc _ => mret CILRoot.Nop
  | _ =>
      asm ← reads (fun s => Ok (os_asm s));
      e ← with_root_cache (summary asm nfuel pop);
      mret (if is_pure_total e then CILRoot.Nop else root)
  end.

Definition opt_st_ind (root : CILRoot.t) (addr val : Interned KNode) (tpe : Ty.t) (volatile : bool)
    : ST OptState E CILRoot.t :=
  a ← fetch_node addr;
  match a with
  | CILNode.LdLocA loc =>
      if negb volatile then
        l ← lift (unwrap (get_u32 locals loc));
        t ← reads (fun s => get_type (os_asm s) (snd l));
        mret (if bool_decide (t = tpe) then CILRoot.StLoc loc val else root)
      else mret root
  | _ => mret root
  end.

Definition root_opt (root : CILRoot.t) : ST OptState E CILRoot.t :=
  match root with
  | CILRoot.Pop pop => opt_pop root pop
  | CILRoot.StInd addr val tpe volatile => opt_st_ind root addr val tpe volatile
  | CILRoot.SetField field addr val =>
      a ← fetch_node addr;
      mret (CILRoot.SetField field (match a with CILNode.RefToPtr inner => inner | _ => addr end) val)
  | CILRoot.InitObj addr tpe => opt_init_obj addr tpe
  | CILRoot.Branch target sub_target (Some (BranchCond.IsFalse cond)) =>
      opt_branch_false root target sub_target cond
  | CILRoot.Branch target sub_target (Some (BranchCond.IsTrue cond)) =>
      opt_branch_true root target sub_target cond
  | CILRoot.Branch target sub_target (Some (BranchCond.Ne lhs rhs)) =>
      opt_branch_ne root target sub_target lhs rhs
  | CILRoot.Branch target sub_target (Some (BranchCond.Eq lhs rhs)) =>
      opt_branch_eq root target sub_target lhs rhs
  | CILRoot.StLoc loc val =>
      v ← fetch_node val;
      mret (if bool_decide (v = CILNode.LdLoc loc) then CILRoot.Nop else root)
  | CILRoot.StArg loc val =>
      v ← fetch_node val;
      mret (if bool_decide (v = CILNode.LdArg loc) then CILRoot.Nop else root)
  | _ => mret root
  end.
End root_opt.

(** [MethodDef::opt_roots]'s rewriting of one root: both closures at once over the tree. *)
Definition opt_root_tree {E} (method_defs : gmap positive MethodDef) (tfuel nfuel mfuel : nat)
    (sig : Interned KSig) (locals : list LocalDef) (caller_class : Interned KClassRef)
    (root : CILRoot.t) : ST OptState E CILRoot.t :=
  root_map_rec (opt_node method_defs tfuel nfuel sig locals caller_class)
    (root_opt tfuel nfuel sig locals) mfuel root.
