(* ===== verification/OptSem.v ===== *)
(** * The meaning of expressions, for the optimizer

    A compositional semantics of expression nodes over typed values and symbolic addresses, as an
    algebra in the sense of [MapTheory].  Operations it gives no meaning to (arithmetic on floats,
    overflow of 8- and 16-bit arithmetic, whose stack slots are wider than the type, division by
    zero, and objects loaded by reference through an indirection) are partial; nodes the optimizer
    does not touch mean whatever the environment says. *)

From S2P Require Import Prelude Interner Types IR Arenas Walk MapTheory Block BlockTheory Method Opt.
From Stdlib Require Import Floats.SpecFloat.

(** ** Values *)

(** Addresses keep their provenance; [ARaw] is any other address. *)
Inductive address : Set :=
| ALocal (loc : Z)
| AArg (arg : Z)
| AField (base : address) (field : Interned KField)
| ARaw (p : Z).

#[export] Instance address_eq_dec : EqDecision address.
Proof. solve_decision. Defined.

Inductive value : Set :=
| VInt (int : Int.t) (z : Z)
| VBool (b : bool)
| VFloat (float : Float.t) (x : spec_float)
| VAddr (a : address)
| VStruct (s : Z).

#[export] Instance spec_float_eq_dec : EqDecision spec_float.
Proof. solve_decision. Defined.
#[export] Instance value_eq_dec : EqDecision value.
Proof. solve_decision. Defined.

(** Pointer-sized integers have 64 bits on the target. *)
Definition int_width (i : Int.t) : Z := default 64 (Int.bits i).
Definition int_in (i : Int.t) (z : Z) : Prop :=
  if Int.is_signed i then in_s (int_width i) z else in_u (int_width i) z.
Definition int_norm (i : Int.t) (z : Z) : Z :=
  if Int.is_signed i then swrap (int_width i) z else wrap (int_width i) z.

#[export] Instance int_in_dec i z : Decision (int_in i z).
Proof. unfold int_in. destruct (Int.is_signed i); apply _. Defined.

Lemma int_width_pos i : 0 < int_width i.
Proof. by destruct i. Qed.

Lemma int_norm_in i z : int_in i (int_norm i z).
Proof.
  unfold int_in, int_norm. pose proof (int_width_pos i).
  destruct (Int.is_signed i); [by apply swrap_in_s|apply wrap_in_u; lia].
Qed.

Lemma int_norm_id i z : int_in i z -> int_norm i z = z.
Proof.
  unfold int_in, int_norm. pose proof (int_width_pos i).
  destruct (Int.is_signed i); [by apply swrap_id|by apply wrap_id].
Qed.

Lemma int_norm_norm i j z : int_width i = int_width j -> int_norm i (int_norm j z) = int_norm i z.
Proof.
  unfold int_norm. intros <-. pose proof (int_width_pos i).
  destruct (Int.is_signed i), (Int.is_signed j).
  - apply swrap_id; [done|by apply swrap_in_s].
  - by apply swrap_wrap.
  - by apply wrap_swrap.
  - apply wrap_id, wrap_in_u. lia.
Qed.

(** The width of the stack slot that holds an integer. *)
Definition slot_width (i : Int.t) : Z := Z.max 32 (int_width i).

(** [conv]: truncation, or extension of the slot as the cast asks. *)
Definition int_cast (target : Int.t) (extend : ExtendKind.t) (i : Int.t) (z : Z) : Z :=
  int_norm target
    (if slot_width i <? int_width target then
       match extend with
       | ExtendKind.ZeroExtend => wrap (slot_width i) z
       | ExtendKind.SignExtend => swrap (slot_width i) z
       end
     else z).

Definition int_const (c : Const.t) : option (Int.t * Z) :=
  match c with
  | Const.I8 v => Some (Int.I8, v) | Const.I16 v => Some (Int.I16, v)
  | Const.I32 v => Some (Int.I32, v) | Const.I64 v => Some (Int.I64, v)
  | Const.I128 v => Some (Int.I128, v) | Const.ISize v => Some (Int.ISize, v)
  | Const.U8 v => Some (Int.U8, v) | Const.U16 v => Some (Int.U16, v)
  | Const.U32 v => Some (Int.U32, v) | Const.U64 v => Some (Int.U64, v)
  | Const.U128 v => Some (Int.U128, v) | Const.USize v => Some (Int.USize, v)
  | _ => None
  end.

Definition const_value (c : Const.t) : option value :=
  match c with
  | Const.Bool b => Some (VBool b)
  | Const.F32 b => Some (VFloat Float.F32 (f32_of_bits b))
  | Const.F64 b => Some (VFloat Float.F64 (f64_of_bits b))
  | _ => '(i, z) ← int_const c; if bool_decide (int_in i z) then Some (VInt i z) else None
  end.

(** Arithmetic of one integer type; 8- and 16-bit results must not overflow the type. *)
Definition int_arith (i : Int.t) (r : Z) : option value :=
  if (int_width i <? 32) && negb (bool_decide (int_in i r)) then None
  else Some (VInt i (int_norm i r)).

Definition int_rem (op : BinOp.t) (i : Int.t) (a b : Z) : option value :=
  let signed_op := bool_decide (op = BinOp.Rem) in
  if negb (Bool.eqb signed_op (Int.is_signed i)) || (b =? 0) then None
  else if Int.is_signed i && (b =? -1) then None
  else Some (VInt i (Z.rem a b)).

Definition add_address (a : address) (n : Z) : option value :=
  if n =? 0 then Some (VAddr a)
  else match a with ARaw p => Some (VAddr (ARaw (wrap 64 (p + n)))) | _ => None end.

(** Comparison results: both operands in slots of one width, or floats. *)
Definition compare_values (unsigned : bool) (a b : value) : option (option comparison) :=
  match a, b with
  | VInt i x, VInt j y =>
      if bool_decide (i = j) then
        let w := slot_width i in
        Some (Some (if unsigned then Z.compare (wrap w x) (wrap w y)
                    else Z.compare (swrap w x) (swrap w y)))
      else None
  | VBool x, VBool y => Some (Some (Z.compare (Z.b2z x) (Z.b2z y)))
  | VFloat f x, VFloat g y => if bool_decide (f = g) then Some (SFcompare x y) else None
  | _, _ => None
  end.

(** [ceq], [clt], [clt.un], [cgt], [cgt.un]. *)
Definition compare_op (op : BinOp.t) (a b : value) : option value :=
  let test (un : bool) (t : comparison -> bool) :=
    o ← compare_values un a b;
    Some (VBool (match o with Some c => t c | None => un end)) in
  match op with
  | BinOp.Eq => o ← compare_values false a b;
                Some (VBool (match o with Some c => is_eq c | None => false end))
  | BinOp.Lt => test false is_lt
  | BinOp.LtUn => test true is_lt
  | BinOp.Gt => test false is_gt
  | BinOp.GtUn => test true is_gt
  | _ => None
  end.

Definition binop_value (op : BinOp.t) (a b : value) : option value :=
  match op with
  | BinOp.Eq | BinOp.Lt | BinOp.LtUn | BinOp.Gt | BinOp.GtUn => compare_op op a b
  | _ =>
      match a, b with
      | VInt i x, VInt j y =>
          if bool_decide (i = j) && bool_decide (int_in i x) && bool_decide (int_in i y) then
            match op with
            | BinOp.Add => int_arith i (x + y)
            | BinOp.Sub => int_arith i (x - y)
            | BinOp.Mul => int_arith i (x * y)
            | BinOp.Rem | BinOp.RemUn => int_rem op i x y
            | _ => None
            end
          else None
      | VAddr p, VInt (Int.USize | Int.ISize) n =>
          match op with
          | BinOp.Add => add_address p n
          | BinOp.Sub => add_address p (- n)
          | _ => None
          end
      | VInt (Int.USize | Int.ISize) n, VAddr p =>
          match op with BinOp.Add => add_address p n | _ => None end
      | _, _ => None
      end
  end.

(** ** The algebra *)

Record Env : Type := mk_Env {
  e_local : Z -> option value;
  e_arg : Z -> option value;
  e_raw : Z -> option value;
  (** The fields of an aggregate. *)
  e_proj : Z -> Interned KField -> option value;
  e_sizeof : Interned KType -> option Z;
  (** Whether the type is an aggregate, loaded by value. *)
  e_aggregate : Interned KType -> bool;
  e_call : Interned KMethodRef -> list value -> option value;
  e_other : CILNode.t -> list value -> option value }.

Section algebra.
Context (env : Env).

Definition project (v : value) (f : Interned KField) : option value :=
  match v with VStruct s => e_proj env s f | _ => None end.

Fixpoint load (a : address) : option value :=
  match a with
  | ALocal loc => e_local env loc
  | AArg arg => e_arg env arg
  | AField base f => v ← load base; project v f
  | ARaw p => e_raw env p
  end.

Definition alg (n : CILNode.t) (vs : list value) : option value :=
  match n, vs with
  | CILNode.Const c, [] => const_value c
  | CILNode.LdLoc loc, [] => e_local env loc
  | CILNode.LdArg arg, [] => e_arg env arg
  | CILNode.LdLocA loc, [] => Some (VAddr (ALocal loc))
  | CILNode.LdArgA arg, [] => Some (VAddr (AArg arg))
  | CILNode.RefToPtr _, [VAddr a] => Some (VAddr a)
  | CILNode.LdFieldAddress _ f, [VAddr a] => Some (VAddr (AField a f))
  | CILNode.LdField _ f, [VAddr a] => load (AField a f)
  | CILNode.LdField _ f, [VStruct s] => e_proj env s f
  | CILNode.LdInd _ tpe _, [VAddr a] =>
      v ← load a;
      if e_aggregate env tpe then match v with VStruct _ => Some v | _ => None end else Some v
  | CILNode.SizeOf tpe, [] => VInt Int.I32 <$> e_sizeof env tpe
  | CILNode.IntCast _ target extend, [VInt i z] =>
      if bool_decide (int_in i z) then Some (VInt target (int_cast target extend i z)) else None
  | CILNode.BinOp _ _ op, [a; b] => binop_value op a b
  | CILNode.Call m _ _, _ => e_call env m vs
  | (CILNode.RefToPtr _ | CILNode.LdFieldAddress _ _ | CILNode.LdField _ _ | CILNode.LdInd _ _ _
    | CILNode.IntCast _ _ _ | CILNode.BinOp _ _ _), _ => None
  | _, _ => e_other env n vs
  end.

(** The decision of a branch on the values of its operands. *)
Definition truth (v : value) : option bool :=
  match v with
  | VBool b => Some b
  | VInt i z => Some (negb (wrap (slot_width i) z =? 0))
  | _ => None
  end.

Definition cond_value (c : BranchCond.t) (vs : list value) : option bool :=
  let test (un : bool) (t : comparison -> bool) a b :=
    o ← compare_values un a b; Some (match o with Some c => t c | None => un end) in
  match c, vs with
  | BranchCond.IsTrue _, [a] => truth a
  | BranchCond.IsFalse _, [a] => negb <$> truth a
  | BranchCond.Eq _ _, [a; b] =>
      o ← compare_values false a b; Some (match o with Some c => is_eq c | None => false end)
  | BranchCond.Ne _ _, [a; b] =>
      o ← compare_values false a b; Some (match o with Some c => negb (is_eq c) | None => true end)
  | BranchCond.Lt _ _ k, [a; b] => test (is_un k) is_lt a b
  | BranchCond.Gt _ _ k, [a; b] => test (is_un k) is_gt a b
  | BranchCond.Le _ _ k, [a; b] => test (is_un k) (fun c => is_lt c || is_eq c) a b
  | BranchCond.Ge _ _ k, [a; b] => test (is_un k) (fun c => is_gt c || is_eq c) a b
  | _, _ => None
  end.
End algebra.

(** ** Environments that fit an assembly *)

(** Aliases followed to an implementation that is none. *)
Inductive resolves (method_defs : gmap positive MethodDef) : MethodImpl -> MethodImpl -> Prop :=
| resolves_here i : (forall m, i <> AliasFor m) -> resolves method_defs i i
| resolves_alias m d i : method_defs !! m = Some d -> resolves method_defs (implementation d) i ->
    resolves method_defs (AliasFor m) i.

(** A body of one block without exception regions. *)
Definition single_block (i : MethodImpl) (block : BasicBlock) : Prop :=
  (exists l, i = MethodBody [block] l) \/ (exists l, i = RegionBody [block] [] [] l).

(** Debug information and [Nop]s apart, the block is [ret id]. *)
Definition returns_only (asm : Assembly) (block : BasicBlock) (id : Interned KNode) : Prop :=
  handler block = None /\
  exists rs, mapM (fun r : Interned KRoot => roots asm !! slot r) (bb_roots block) = Some rs /\
    filter (fun r => is_meaningfull r = true) rs = [CILRoot.Ret id].

(** The meaning of sizes, aggregates, typed fields and methods that are one return agrees with the
    assembly [asm]. *)
Record env_ok (method_defs : gmap positive MethodDef) (env : Env) (asm : Assembly) : Prop := {
  sizeof_int id i n : types asm !! slot id = Some (Ty.Int i) -> Int.size i = Some n ->
    e_sizeof env id = Some n;
  sizeof_float id f : types asm !! slot id = Some (Ty.Float f) -> e_sizeof env id = Some (Float.size f);
  aggregate_class id c : types asm !! slot id = Some (Ty.ClassRef c) -> e_aggregate env id = true;
  field_typed s f fd i v : fields asm !! slot f = Some fd -> field_tpe fd = Ty.Int i ->
    e_proj env s f = Some v -> exists z, v = VInt i z /\ int_in i z;
  (** A call yields the value of the expression its method returns, in an environment of the
      callee. *)
  call_returns m vs v d impl block id :
    e_call env m vs = Some v -> method_defs !! m = Some d ->
    resolves method_defs (implementation d) impl -> single_block impl block ->
    returns_only asm block id ->
    exists callee k, denote_id (alg callee) k asm id = Some v }.
