(* ===== verification/OptRoots.v ===== *)
(** * Correctness of the rewrites of roots

    What a root does (a store, a jump, an evaluation, or nothing) as an inductive relation over the
    meanings of its operands, and the theorem that [root_opt] keeps it: stores become direct stores
    or disappear when they store what is there, conditional branches keep their decision on every
    operand, floating point included, and only pure and total expressions are dropped. *)

From S2P Require Import Prelude Interner Types IR Arenas Walk MapTheory Typecheck TypecheckTheory.
From S2P Require Import Block BlockTheory Effects Method Opt OptSem OptTheory.
From Stdlib Require Import Floats.SpecFloat.

(** ** What roots do *)

Inductive effect : Set :=
| Silent
| Store (a : address) (v : value)
| VolatileStore (a : address) (v : value)
| Init (a : address) (tpe : Interned KType)
| Jump (target sub_target : Z)
| Evaluate (id : Interned KNode)
| OtherRoot (r : CILRoot.t).

(** Values a location of the type stores unchanged. *)
Definition conforms (t : Ty.t) (v : value) : bool :=
  match t, v with
  | Ty.Int i, VInt j z => bool_decide (i = j) && bool_decide (int_in i z)
  | Ty.Bool, VBool _ | Ty.ClassRef _, VStruct _
  | (Ty.Ptr _ | Ty.Ref _ | Ty.FnPtr _), VAddr _ => true
  | Ty.Float f, VFloat g _ => bool_decide (f = g)
  | _, _ => false
  end.

Section does.
Context {E : Type} (env : Env) (sig : Interned KSig) (locals : list LocalDef).

(** Storing what is already there is not observable. *)
Definition store_effect (a : address) (v : value) : effect :=
  if bool_decide (load env a = Some v) then Silent else Store a v.

Definition decided (asm : Assembly) (cond : option BranchCond.t) (b : bool) : Prop :=
  match cond with
  | None => b = true
  | Some c => exists vs, Forall2 (means_id (alg env) asm) (BranchCond.nodes c) vs /\
                         cond_value c vs = Some b
  end.

(** Roots that [root_opt] never touches. *)
Definition is_other (r : CILRoot.t) : bool :=
  match r with
  | CILRoot.StLoc _ _ | CILRoot.StArg _ _ | CILRoot.StInd _ _ _ _ | CILRoot.SetField _ _ _
  | CILRoot.InitObj _ _ | CILRoot.Branch _ _ _ | CILRoot.Pop _ | CILRoot.Nop => false
  | _ => true
  end.

Inductive does (asm : Assembly) : CILRoot.t -> effect -> Prop :=
| does_nop : does asm CILRoot.Nop Silent
| does_st_loc loc val v name t ty :
    means_id (alg env) asm val v ->
    get_u32 locals loc = Some (name, t) -> types asm !! slot t = Some ty -> conforms ty v = true ->
    does asm (CILRoot.StLoc loc val) (store_effect (ALocal loc) v)
| does_st_arg arg val v s ty :
    means_id (alg env) asm val v ->
    sigs asm !! slot sig = Some s -> get_u32 (inputs s) arg = Some ty -> conforms ty v = true ->
    does asm (CILRoot.StArg arg val) (store_effect (AArg arg) v)
| does_st_ind addr val tpe volatile a v :
    means_id (alg env) asm addr (VAddr a) -> means_id (alg env) asm val v -> conforms tpe v = true ->
    does asm (CILRoot.StInd addr val tpe volatile)
      (if volatile then VolatileStore a v else store_effect a v)
| does_set_field f addr val fd a v :
    means_id (alg env) asm addr (VAddr a) -> means_id (alg env) asm val v ->
    fields asm !! slot f = Some fd -> conforms (field_tpe fd) v = true ->
    does asm (CILRoot.SetField f addr val) (store_effect (AField a f) v)
| does_init_obj addr tpe a ty :
    means_id (alg env) asm addr (VAddr a) -> types asm !! slot tpe = Some ty ->
    does asm (CILRoot.InitObj addr tpe)
      (match ty with
       | Ty.Int i => store_effect a (VInt i 0)
       | Ty.Bool => store_effect a (VBool false)
       | _ => Init a tpe
       end)
| does_branch target sub_target cond b :
    decided asm cond b ->
    does asm (CILRoot.Branch target sub_target cond) (if b then Jump target sub_target else Silent)
| does_pop id fuel e :
    effects_of (E := E) asm fuel id = Ok e ->
    does asm (CILRoot.Pop id) (if is_pure_total e then Silent else Evaluate id)
| does_other r : is_other r = true -> does asm r (OtherRoot r).
End does.

Section does_theory.
Context {E : Type} (env : Env) (sig : Interned KSig) (locals : list LocalDef).

Local Notation M := (means (alg env)).
Local Notation Mid := (means_id (alg env)).
Local Notation does := (does (E := E) env sig locals).

Lemma Mid_extends asm asm' id v : extends asm asm' -> Mid asm id v -> Mid asm' id v.
Proof.
  intros Hext (m & Hm & Hv). exists m. split; [by eapply extends_node|by eapply means_mono].
Qed.

Lemma mono_effects_of fuel id : mono (fun asm => effects_of (E := E) asm fuel id).
Proof. revert id. induction fuel as [|fuel IH]; intros id; cbn [effects_of]; mono_tac. Qed.

Lemma decided_extends asm asm' c b : extends asm asm' -> decided env asm c b -> decided env asm' c b.
Proof.
  intros Hext. destruct c as [c|]; [|done]. intros (vs & Hvs & Hc). exists vs. split; [|done].
  eapply list.Forall2_impl; [exact Hvs|]. intros ?? Hx. by eapply Mid_extends.
Qed.

Lemma does_extends asm asm' r e : extends asm asm' -> does asm r e -> does asm' r e.
Proof.
  intros Hext Hd. assert (H := Hext). destruct H.
  destruct Hd; econstructor; eauto using Mid_extends, decided_extends, prefix_lookup_Some.
  by eapply mono_effects_of.
Qed.

(** A constant or load known to name an operand determines its value. *)
Lemma Mid_node asm id n v : nodes asm !! slot id = Some n -> Mid asm id v -> M asm n v.
Proof. intros Hn (m & Hm & Hv). rewrite Hn in Hm. by injection Hm as <-. Qed.

(** Two operand lists of length one and two, as the rules of [decided] have them. *)
Lemma decided_1 asm c a b : BranchCond.nodes c = [a] ->
  decided env asm (Some c) b <-> exists u, Mid asm a u /\ cond_value c [u] = Some b.
Proof.
  intros Hc. cbn. rewrite Hc. split.
  - intros (vs & (u & us & ? & ->%Forall2_nil_inv_l & ->)%Forall2_cons_inv_l & ?). eauto.
  - intros (u & ? & ?). exists [u]. split; [by repeat constructor|done].
Qed.

Lemma decided_2 asm c x y b : BranchCond.nodes c = [x; y] ->
  decided env asm (Some c) b <-> exists u w, Mid asm x u /\ Mid asm y w /\ cond_value c [u; w] = Some b.
Proof.
  intros Hc. cbn. rewrite Hc. split.
  - intros (vs & (u & us & ? & (w & ws & ? & ->%Forall2_nil_inv_l & ->)%Forall2_cons_inv_l
                    & ->)%Forall2_cons_inv_l & ?). eauto.
  - intros (u & w & ? & ? & ?). exists [u; w]. split; [by repeat constructor|done].
Qed.

(** ** Conditions *)

Lemma true_condition_ok asm l r op c b :
  true_branch_condition l r op = Some c ->
  (exists v, M asm (CILNode.BinOp l r op) v /\ truth v = Some b) -> decided env asm (Some c) b.
Proof.
  intros Hc (v & (u & w & Hu & Hw & Hv)%M_binop & Hb).
  assert (BranchCond.nodes c = [l; r]) as Hn by (destruct op; by simplify_eq/=).
  apply (decided_2 _ _ l r); [done|]. exists u, w. split; [done|]. split; [done|].
  destruct op; simplify_eq/=; destruct (compare_values _ u w) as [o|]; simplify_eq/=; done.
Qed.

(** The negation of a comparison, with the kind that floats and integers need. *)
Lemma negated_comparison op u w v b (is_float : bool) :
  binop_value op u w = Some v -> truth v = Some b ->
  (is_float = true <-> exists f x, u = VFloat f x) ->
  forall x y,
  match op with
  | BinOp.Gt => cond_value (BranchCond.Le x y (if is_float then CmpKind.Unordered else CmpKind.Ordered)) [u; w]
  | BinOp.GtUn => cond_value (BranchCond.Le x y (if is_float then CmpKind.Ordered else CmpKind.Unordered)) [u; w]
  | BinOp.Lt => cond_value (BranchCond.Ge x y (if is_float then CmpKind.Unordered else CmpKind.Ordered)) [u; w]
  | BinOp.LtUn => cond_value (BranchCond.Ge x y (if is_float then CmpKind.Ordered else CmpKind.Unordered)) [u; w]
  | BinOp.Eq => cond_value (BranchCond.Ne x y) [u; w]
  | _ => Some (negb b)
  end = Some (negb b).
Proof.
  intros Hv Hb Hf x y.
  assert (Hcmp : forall un un', is_float = true -> compare_values un u w = compare_values un' u w).
  { intros un un' (f & z & ->)%Hf. done. }
  assert (Hnone : forall un, compare_values un u w = Some None -> is_float = true).
  { intros un Hn. apply Hf. destruct u, w; cbn in Hn; repeat case_bool_decide; try done; eauto. }
  destruct op; try done; cbn [binop_value compare_op] in Hv; cbn [cond_value].
  all: destruct (compare_values _ u w) as [[c|]|] eqn:Ho; [| |done]; cbn in Hv; simplify_eq/=.
  all: try done.
  all: destruct is_float; cbn [is_un];
    [match type of Ho with compare_values ?un _ _ = Some ?o =>
       match goal with |- context [compare_values ?un' ?u0 ?w0] =>
         rewrite (Hcmp un' un eq_refl), Ho; try (match o with Some ?c => destruct c end); done
       end
     end
    |first [by rewrite Ho; destruct c|by apply Hnone in Ho]].
Qed.

(** Comparing with zero is the truth test. *)
Lemma slot_width_pos i : 0 < slot_width i.
Proof. unfold slot_width. lia. Qed.

Lemma swrap_0_iff w z : 0 < w -> swrap w z = 0 <-> wrap w z = 0.
Proof.
  intros Hw. assert (Hp : in_u w 0) by (split; [lia|by apply pow2_pos; lia]).
  split; intros H.
  - rewrite <- wrap_swrap, H by done. by apply wrap_id.
  - rewrite <- swrap_wrap, H by done. apply swrap_id; [done|].
    split; pose proof (pow2_pos (w - 1) ltac:(lia)); lia.
Qed.

Lemma compare_zero_r u z o :
  (exists i, z = VInt i 0) \/ z = VBool false -> compare_values false u z = Some o ->
  exists c, o = Some c /\ truth u = Some (negb (is_eq c)).
Proof.
  intros [[i ->]| ->] H; destruct u; cbn in H; try done.
  - case_bool_decide; [|done]. subst. injection H as <-. eexists. split; [done|].
    rewrite is_eq_compare. cbn. do 2 f_equal.
    assert (Hz : swrap (slot_width i) 0 = 0) by (apply swrap_0_iff, wrap_id; [apply slot_width_pos|];
      split; [lia|apply pow2_pos; pose proof (slot_width_pos i); lia]).
    rewrite Hz. apply eq_true_iff_eq. rewrite !Z.eqb_eq. symmetry. apply swrap_0_iff, slot_width_pos.
  - injection H as <-. eexists. split; [done|]. by destruct b.
Qed.

Lemma compare_values_swap u w o :
  compare_values false u w = Some (Some o) -> (exists f x, u = VFloat f x) \/
  compare_values false w u = Some (Some (CompOpp o)).
Proof.
  intros H. destruct u, w; cbn in H |- *; try done; try case_bool_decide; try done; eauto.
  - subst. rewrite bool_decide_true by done. injection H as <-. right. by rewrite Z.compare_antisym.
  - injection H as <-. right. by rewrite Z.compare_antisym.
Qed.

Lemma compare_zero_l u z o :
  (exists i, z = VInt i 0) \/ z = VBool false -> compare_values false z u = Some o ->
  exists c, o = Some c /\ truth u = Some (negb (is_eq c)).
Proof.
  intros Hz H. destruct o as [c|].
  - destruct (compare_values_swap _ _ _ H) as [(f & x & ->)|H']; [by destruct Hz as [[]|]|].
    destruct (compare_zero_r _ _ _ Hz H') as (c' & [= <-] & Ht). exists c. split; [done|].
    rewrite Ht. by destruct c.
  - destruct Hz as [[i ->]| ->]; destruct u; cbn in H; try case_bool_decide; done.
Qed.

Lemma zero_operand_value asm n v :
  is_zero_operand n = true -> M asm n v -> (exists i, v = VInt i 0) \/ v = VBool false.
Proof.
  unfold is_zero_operand. destruct (const_of n) as [c|] eqn:Hc; [|done].
  assert (n = const c) as -> by (destruct n; by simplify_eq/=). intros Hz Hv%M_const.
  destruct c; try done; cbn in Hz, Hv; try (case_bool_decide; [|done]).
  all: try (apply Z.eqb_eq in Hz); simplify_eq/=; eauto. destruct b; [done|auto].
Qed.

Lemma true_operand_value asm n v : is_true_operand n = true -> M asm n v -> v = VBool true.
Proof.
  unfold is_true_operand. destruct (const_of n) as [c|] eqn:Hc; [|done].
  assert (n = const c) as -> by (destruct n; by simplify_eq/=). intros Hz Hv%M_const.
  destruct c as [| | | | | | | | | | | | |b| | | |]; try done. destruct b; [|done]. by injection Hv as <-.
Qed.
End does_theory.

(** ** Soundness of root rewrites *)

Section root_rewrites.
Context {E : Type} (env : Env) (tfuel nfuel : nat) (sig : Interned KSig) (locals : list LocalDef).

Local Notation M := (means (alg env)).
Local Notation Mid := (means_id (alg env)).
Local Notation does := (does (E := E) env sig locals).

(** Static types see exactly the floating-point values. *)
Definition float_typed (s : OptState) : Prop :=
  forall (id : Interned KNode) n s' t v, nodes (os_asm s) !! slot id = Some n ->
  try_typecheck (E := E) tfuel nfuel sig locals n s = (s', Ok t) -> M (os_asm s) n v ->
  (exists f, t = Some (Ty.Float f)) <-> (exists f x, v = VFloat f x).

(** [m], run after [s], turns [r] into a root that does the same. *)
Definition keeps_effect (m : ST OptState E CILRoot.t) (r : CILRoot.t) (s : OptState) : Prop :=
  forall s' r' e, m s = (s', Ok r') -> does (os_asm s) r e -> does (os_asm s') r' e.

Lemma keep_ret r r' s :
  (forall e, does (os_asm s) r e -> does (os_asm s) r' e) -> keeps_effect (mret r') r s.
Proof. intros H s' x e [= <- <-]. auto. Qed.

Lemma keep_same r s : keeps_effect (mret r) r s.
Proof. by apply keep_ret. Qed.

Lemma keep_step {A} (m : ST OptState E A) k r s :
  (forall s1 a, m s = (s1, Ok a) -> extends (os_asm s) (os_asm s1) /\ keeps_effect (k a) r s1) ->
  keeps_effect (m ≫= k) r s.
Proof.
  intros Hk s' r' e (s1 & a & H1 & H2)%st_bind_ok Hd. destruct (Hk _ _ H1) as [Hext Hkeep].
  eapply Hkeep; [done|]. by eapply does_extends.
Qed.

Lemma keep_fetch id k r s :
  (forall n, nodes (os_asm s) !! slot id = Some n -> keeps_effect (k n) r s) ->
  keeps_effect (fetch_node id ≫= k) r s.
Proof. intros H. apply keep_step. intros s1 n [= <- Hn%get_node_ok]. auto. Qed.

Lemma consume_fuel_ok cost s s1 b : consume_fuel (E := E) cost s = (s1, Ok b) -> os_asm s1 = os_asm s.
Proof. unfold consume_fuel, consume. destruct (_ <=? _); by intros [= <- <-]. Qed.

Lemma keep_consume cost (k : bool -> _) r s :
  (forall s1 b, os_asm s1 = os_asm s -> keeps_effect (k b) r s1) ->
  keeps_effect (consume_fuel cost ≫= k) r s.
Proof.
  intros H. apply keep_step. intros s1 b Hs%consume_fuel_ok. rewrite Hs. split; [done|by apply H].
Qed.

Lemma keep_if_fuel r r' s :
  (forall e, does (os_asm s) r e -> does (os_asm s) r' e) -> keeps_effect (opt_if_fuel r' r) r s.
Proof.
  intros H. apply keep_consume. intros s1 [] Hs; [|apply keep_same].
  apply keep_ret. rewrite Hs. exact H.
Qed.

Lemma keep_branch t st cond cond' s :
  (forall b, decided env (os_asm s) cond b -> decided env (os_asm s) cond' b) ->
  keeps_effect (optimized_branch t st cond' (CILRoot.Branch t st cond)) (CILRoot.Branch t st cond) s.
Proof.
  intros H. apply keep_if_fuel. intros e He. inversion He; subst; [|done]. constructor. auto.
Qed.

(** The kind chosen for a negated comparison. *)
Lemma negation_kind_ok lhs ik fk s s1 k u :
  float_typed s -> negation_cmp_kind (E := E) tfuel nfuel sig locals lhs ik fk s = (s1, Ok k) ->
  Mid (os_asm s) lhs u ->
  extends (os_asm s) (os_asm s1) /\
  exists is_float : bool, k = (if is_float then fk else ik) /\
    (is_float = true <-> exists f x, u = VFloat f x).
Proof.
  intros Hft (s0 & n & [= <- Hn%get_node_ok] & (s2 & t & Ht & [= <- <-])%st_bind_ok)%st_bind_ok Hu.
  split; [pose proof (try_typecheck_advances (E := E) tfuel nfuel sig locals n s) as Ha; rewrite Ht in Ha; by destruct Ha|].
  specialize (Hft _ _ _ _ u Hn Ht (Mid_node _ _ _ _ _ Hn Hu)).
  exists (match t with Some (Ty.Float _) => true | _ => false end). rewrite <- Hft.
  destruct t as [[]|]; split; try done; split; try done; try (intros [? [=]]); eauto.
Qed.

Lemma false_condition_ok l r op c b s s1 cond :
  float_typed s -> false_branch_condition (E := E) tfuel nfuel sig locals l r op s = (s1, Ok (Some c)) ->
  nodes (os_asm s) !! slot cond = Some (CILNode.BinOp l r op) ->
  decided env (os_asm s) (Some (BranchCond.IsFalse cond)) b ->
  extends (os_asm s) (os_asm s1) /\ decided env (os_asm s1) (Some c) b.
Proof.
  intros Hft Hc Hn (v & Hv & Hb)%(decided_1 _ _ _ cond); [|done].
  apply (Mid_node _ _ _ _ _ Hn) in Hv. apply M_binop in Hv as (u & w & Hu & Hw & Hv).
  cbn in Hb. apply fmap_Some in Hb as (b' & Hb' & ->).
  assert (Hneg := fun f => negated_comparison op u w v b' f Hv Hb').
  destruct op; try done; cbn [false_branch_condition bool_decide decide_rel] in Hc.
  all: try (injection Hc as <- <-; split; [done|]; apply (decided_2 _ _ _ l r); [done|];
            exists u, w; by rewrite (Hneg (match u with VFloat _ _ => true | _ => false end))
              by (destruct u; naive_solver)).
  all: apply st_bind_ok in Hc as (s2 & k & Hk & [= <- <-]).
  all: edestruct negation_kind_ok as (Hext & fl & -> & Hfl); [exact Hft|exact Hk|exact Hu|].
  all: split; [done|]; apply (decided_2 _ _ _ l r); [done|]; exists u, w.
  all: split; [by eapply Mid_extends|]; split; [by eapply Mid_extends|].
  all: exact (Hneg fl Hfl l r).
Qed.

Lemma optimized_branch_ok t st c r s s' r' :
  optimized_branch (E := E) t st c r s = (s', Ok r') ->
  os_asm s' = os_asm s /\ (r' = CILRoot.Branch t st c \/ r' = r).
Proof.
  intros (s1 & b & Hc%consume_fuel_ok & [= <- <-])%st_bind_ok. split; [done|]. destruct b; auto.
Qed.

Lemma keep_branch_false t st cond s :
  float_typed s ->
  keeps_effect (opt_branch_false tfuel nfuel sig locals
                  (CILRoot.Branch t st (Some (BranchCond.IsFalse cond))) t st cond)
    (CILRoot.Branch t st (Some (BranchCond.IsFalse cond))) s.
Proof.
  intros Hft. apply keep_fetch. intros n Hn.
  assert (Hconst : forall b b', n = CILNode.Const (Const.Bool b) ->
    decided env (os_asm s) (Some (BranchCond.IsFalse cond)) b' -> b' = negb b).
  { intros b b' -> (v & Hv & Hb)%(decided_1 _ _ _ cond); [|done].
    apply (Mid_node _ _ _ _ _ Hn), M_const in Hv as [= <-]. by injection Hb as <-. }
  destruct n; try apply keep_same.
  - destruct cst; try apply keep_same. destruct b.
    + apply keep_if_fuel. intros e He. inversion He; subst; [|done].
      rewrite (Hconst true b) by done. constructor.
    + apply keep_branch. intros b Hb. by rewrite (Hconst false b).
  - intros s' r' e (s1 & c & Hc & H)%st_bind_ok Hd.
    destruct c as [c|].
    + inversion Hd; subst; [|done].
      edestruct false_condition_ok as [Hext Hb]; [exact Hft|exact Hc|exact Hn|done|].
      apply optimized_branch_ok in H as [-> [-> | ->]]; [by constructor|by eapply does_extends].
    + injection H as <- <-. eapply does_extends; [|done].
      assert (Ha : steps advances (false_branch_condition (E := E) tfuel nfuel sig locals lhs rhs op)).
      { unfold false_branch_condition, negation_cmp_kind. steps_tac. }
      specialize (Ha s). rewrite Hc in Ha. by destruct Ha.
Qed.

Lemma keep_branch_true t st cond s :
  keeps_effect (opt_branch_true (CILRoot.Branch t st (Some (BranchCond.IsTrue cond))) t st cond)
    (CILRoot.Branch t st (Some (BranchCond.IsTrue cond))) s.
Proof.
  apply keep_fetch. intros n Hn. destruct n; try apply keep_same.
  destruct (true_branch_condition lhs rhs op) as [c|] eqn:Hc; [|apply keep_same].
  apply keep_branch. intros b (v & Hv & Hb)%(decided_1 _ _ _ cond); [|done].
  eapply true_condition_ok; [exact Hc|]. exists v. split; [|done]. by eapply Mid_node.
Qed.

(** Equality tests against a constant. *)
Lemma decided_eq asm l r b :
  decided env asm (Some (BranchCond.Eq l r)) b <->
  exists u w o, Mid asm l u /\ Mid asm r w /\ compare_values false u w = Some o /\
    b = match o with Some c => is_eq c | None => false end.
Proof.
  rewrite (decided_2 _ _ _ l r) by done. cbn. setoid_rewrite bind_Some. naive_solver.
Qed.

Lemma decided_ne asm l r b :
  decided env asm (Some (BranchCond.Ne l r)) b <->
  exists u w o, Mid asm l u /\ Mid asm r w /\ compare_values false u w = Some o /\
    b = match o with Some c => negb (is_eq c) | None => true end.
Proof.
  rewrite (decided_2 _ _ _ l r) by done. cbn. setoid_rewrite bind_Some. naive_solver.
Qed.

(** The truth of the other operand decides a comparison with a zero constant. *)
Lemma zero_test asm l r n x u w o :
  Mid asm l u -> Mid asm r w -> compare_values false u w = Some o -> is_zero_operand n = true ->
  (nodes asm !! slot r = Some n /\ x = l) \/ (nodes asm !! slot l = Some n /\ x = r) ->
  exists y c, Mid asm x y /\ o = Some c /\ truth y = Some (negb (is_eq c)).
Proof.
  intros Hu Hw Ho Hz [[Hn ->]|[Hn ->]].
  - apply (Mid_node _ _ _ _ _ Hn), (zero_operand_value _ _ _ _ Hz) in Hw.
    destruct (compare_zero_r _ _ _ Hw Ho) as (c & -> & Ht). eauto.
  - apply (Mid_node _ _ _ _ _ Hn), (zero_operand_value _ _ _ _ Hz) in Hu.
    destruct (compare_zero_l _ _ _ Hu Ho) as (c & -> & Ht). eauto.
Qed.

Lemma keep_branch_ne t st l r s :
  keeps_effect (opt_branch_ne (CILRoot.Branch t st (Some (BranchCond.Ne l r))) t st l r)
    (CILRoot.Branch t st (Some (BranchCond.Ne l r))) s.
Proof.
  apply keep_fetch. intros nl Hl. apply keep_fetch. intros nr Hr. cbv zeta.
  destruct (is_zero_operand nr) eqn:Hzr; [|destruct (is_true_operand nr) eqn:Htr;
    [|destruct (is_zero_operand nl) eqn:Hzl; [|apply keep_same]]].
  all: apply keep_branch; intros b (u & w & o & Hu & Hw & Ho & ->)%decided_ne.
  - destruct (zero_test _ _ _ _ l _ _ _ Hu Hw Ho Hzr) as (y & c & Hy & -> & Ht); [auto|].
    apply (decided_1 _ _ _ l); eauto.
  - apply (Mid_node _ _ _ _ _ Hr), (true_operand_value _ _ _ _ Htr) in Hw as ->.
    destruct u; try done. injection Ho as <-. apply (decided_1 _ _ _ l); [done|].
    eexists. split; [done|]. by destruct b.
  - destruct (zero_test _ _ _ _ r _ _ _ Hu Hw Ho Hzl) as (y & c & Hy & -> & Ht); [auto|].
    apply (decided_1 _ _ _ r); eauto.
Qed.

Lemma keep_branch_eq t st l r s :
  keeps_effect (opt_branch_eq (CILRoot.Branch t st (Some (BranchCond.Eq l r))) t st l r)
    (CILRoot.Branch t st (Some (BranchCond.Eq l r))) s.
Proof.
  apply keep_fetch. intros nl Hl. apply keep_fetch. intros nr Hr. cbv zeta.
  destruct (is_zero_operand nr) eqn:Hzr; [|destruct (is_zero_operand nl) eqn:Hzl; [|apply keep_same]].
  all: apply keep_branch; intros b (u & w & o & Hu & Hw & Ho & ->)%decided_eq.
  - destruct (zero_test _ _ _ _ l _ _ _ Hu Hw Ho Hzr) as (y & c & Hy & -> & Ht); [auto|].
    apply (decided_1 _ _ _ l); [done|]. exists y. split; [done|]. cbn. rewrite Ht. cbn.
    by rewrite negb_involutive.
  - destruct (zero_test _ _ _ _ r _ _ _ Hu Hw Ho Hzl) as (y & c & Hy & -> & Ht); [auto|].
    apply (decided_1 _ _ _ r); [done|]. exists y. split; [done|]. cbn. rewrite Ht. cbn.
    by rewrite negb_involutive.
Qed.

(** A store of what a local or argument holds is silent. *)
Lemma store_silent a v : load env a = Some v -> store_effect env a v = Silent.
Proof. intros. unfold store_effect. by rewrite bool_decide_true. Qed.

Lemma keep_st_loc loc val s :
  keeps_effect (v ← fetch_node val;
                mret (if bool_decide (v = CILNode.LdLoc loc) then CILRoot.Nop else CILRoot.StLoc loc val))
    (CILRoot.StLoc loc val) s.
Proof.
  apply keep_fetch. intros n Hn. case_bool_decide; [subst|apply keep_same]. apply keep_ret.
  intros e He. inversion He; subst; [|done].
  match goal with H : Mid _ val ?v |- _ =>
    apply (Mid_node _ _ _ _ _ Hn), means_0 in H; [|done]; rewrite store_silent by done end.
  constructor.
Qed.

Lemma keep_st_arg arg val s :
  keeps_effect (v ← fetch_node val;
                mret (if bool_decide (v = CILNode.LdArg arg) then CILRoot.Nop else CILRoot.StArg arg val))
    (CILRoot.StArg arg val) s.
Proof.
  apply keep_fetch. intros n Hn. case_bool_decide; [subst|apply keep_same]. apply keep_ret.
  intros e He. inversion He; subst; [|done].
  match goal with H : Mid _ val ?v |- _ =>
    apply (Mid_node _ _ _ _ _ Hn), means_0 in H; [|done]; rewrite store_silent by done end.
  constructor.
Qed.

(** [RefToPtr] does not change an address. *)
Lemma Mid_ref_to_ptr asm id inner a :
  nodes asm !! slot id = Some (CILNode.RefToPtr inner) -> Mid asm id (VAddr a) -> Mid asm inner (VAddr a).
Proof.
  intros Hn Ha. apply (Mid_node _ _ _ _ _ Hn), M_ref_to_ptr in Ha as (? & [= <-] & ?). done.
Qed.

Lemma keep_set_field f addr val s :
  keeps_effect (a ← fetch_node addr;
                mret (CILRoot.SetField f (match a with CILNode.RefToPtr inner => inner | _ => addr end) val))
    (CILRoot.SetField f addr val) s.
Proof.
  apply keep_fetch. intros n Hn. destruct n; try apply keep_same. apply keep_ret.
  intros e He. inversion He; subst; [|done]. econstructor; [|done..]. by eapply Mid_ref_to_ptr.
Qed.

Lemma keep_st_ind addr val tpe volatile s :
  keeps_effect (opt_st_ind locals (CILRoot.StInd addr val tpe volatile) addr val tpe volatile)
    (CILRoot.StInd addr val tpe volatile) s.
Proof.
  apply keep_fetch. intros n Hn. destruct n; try apply keep_same.
  destruct volatile; [apply keep_same|]. cbn [negb].
  apply keep_step. intros s1 [name t] [= <- Hl]. split; [done|]. apply keep_step.
  intros s2 ty [= <- Ht]. split; [done|]. cbn [snd] in Ht. apply arena_get_ok in Ht.
  case_bool_decide; [subst ty|apply keep_same]. apply keep_ret. intros e He.
  inversion He; subst; [|done].
  match goal with H : Mid _ addr _ |- _ =>
    apply (Mid_node _ _ _ _ _ Hn), means_0 in H as [= <-]; [|done] end.
  econstructor; [done| |exact Ht|done].
  destruct (get_u32 locals loc); [|done]. by injection Hl as ->.
Qed.

Lemma keep_pop pop s :
  cache_ok (E := E) (os_asm s) (root_cache s) ->
  keeps_effect (opt_pop nfuel (CILRoot.Pop pop) pop) (CILRoot.Pop pop) s.
Proof.
  intros Hc. apply keep_fetch. intros n Hn.
  assert (Hgen : keeps_effect (asm ← reads (fun s => Ok (os_asm s));
      e ← with_root_cache (summary asm nfuel pop);
      mret (if is_pure_total e then CILRoot.Nop else CILRoot.Pop pop)) (CILRoot.Pop pop) s).
  { apply keep_step. intros s1 asm [= <- <-]. split; [done|].
    apply keep_step. intros s2 e He. unfold with_root_cache in He.
    destruct (summary _ _ _ _) as [c r] eqn:Hsum. injection He as <- ->. split; [done|].
    apply summary_correct in Hsum as [_ [k Hk]]; [|done].
    destruct (is_pure_total e) eqn:Hp; [|apply keep_same]. apply keep_ret. cbn [os_asm].
    intros e' He'. inversion He'; subst; [|done].
    match goal with H : effects_of _ _ pop = _ |- _ => rewrite (effects_of_fun _ _ _ _ _ _ H Hk) end.
    rewrite Hp. constructor. }
  destruct n; try exact Hgen. apply keep_ret. intros e He. inversion He as [| | | | | | |? k ? Hk|]; subst; [|done].
  destruct k; [done|]. cbn in Hk. rewrite (proj2 (get_node_ok _ _ _) Hn) in Hk. injection Hk as <-.
  constructor.
Qed.

Lemma does_init_int asm addr (tpe : Interned KType) a i (zero : Interned KNode) :
  Mid asm addr (VAddr a) -> nodes asm !! slot zero = Some (const (int_zero i)) ->
  types asm !! slot tpe = Some (Ty.Int i) ->
  does asm (CILRoot.StInd addr zero (Ty.Int i) false) (store_effect env a (VInt i 0)).
Proof.
  intros Ha Hz Ht. apply (does_st_ind _ _ _ _ addr zero (Ty.Int i) false); [done| |by destruct i].
  apply (means_id_node _ _ _ _ _ Hz), M_const. by destruct i.
Qed.

Lemma does_init_bool asm addr (tpe : Interned KType) a (zero : Interned KNode) :
  Mid asm addr (VAddr a) -> nodes asm !! slot zero = Some (const (Const.Bool false)) ->
  types asm !! slot tpe = Some Ty.Bool ->
  does asm (CILRoot.StInd addr zero Ty.Bool false) (store_effect env a (VBool false)).
Proof.
  intros Ha Hz Ht. apply (does_st_ind _ _ _ _ addr zero Ty.Bool false); [done| |done].
  by apply (means_id_node _ _ _ _ _ Hz), M_const.
Qed.

Lemma keep_init_scalar addr tpe s :
  keeps_effect (opt_init_scalar addr tpe) (CILRoot.InitObj addr tpe) s.
Proof.
  apply keep_step. intros s1 t [= <- Ht%arena_get_ok]. split; [done|].
  assert (Hlater : forall asm ty, extends (os_asm s) asm -> types asm !! slot tpe = Some ty -> ty = t).
  { intros asm ty [] H. eapply prefix_lookup_Some in Ht; [|done]. congruence. }
  destruct t; try apply keep_same.
  - destruct (_ <=? 8); [|apply keep_same]. apply keep_consume. intros s1 [] Hs; [|apply keep_same].
    apply keep_step. intros s2 zero (Hext & Hz & _)%on_asm_ok%alloc_node_spec. split; [done|].
    cbn in Hext, Hz. rewrite Hs in Hext. apply keep_ret. intros e He.
    inversion He as [| | | | |? ? b ? Hb Hty| | |]; subst; [|done].
    assert (Hty' := Hlater _ _ Hext Hty). subst. by eapply does_init_int.
  - apply keep_consume. intros s1 granted _.
    replace (granted && _) with false; [apply keep_same|]. by destruct granted, float.
  - apply keep_consume. intros s1 [] Hs; [|apply keep_same].
    apply keep_step. intros s2 zero (Hext & Hz & _)%on_asm_ok%alloc_node_spec. split; [done|].
    cbn in Hext, Hz. rewrite Hs in Hext. apply keep_ret. intros e He.
    inversion He as [| | | | |? ? b ? Hb Hty| | |]; subst; [|done].
    assert (Hty' := Hlater _ _ Hext Hty). subst. by eapply does_init_bool.
Qed.

Lemma keep_init_obj addr tpe s :
  keeps_effect (opt_init_obj addr tpe) (CILRoot.InitObj addr tpe) s.
Proof.
  apply keep_fetch. intros n Hn. intros s' r' e (s1 & addr' & Ha & H)%st_bind_ok Hd.
  inversion Hd as [| | | | |? ? a ty Haddr Hty| | |]; subst; [|done].
  assert (os_asm s1 = os_asm s /\ Mid (os_asm s) addr' (VAddr a)) as [Hs1 Ha'].
  { destruct n; try (by injection Ha as <- <-).
    apply st_bind_ok in Ha as (s2 & g & Hg%consume_fuel_ok & [= <- <-]). split; [done|].
    destruct g; [by eapply Mid_ref_to_ptr|done]. }
  eapply keep_init_scalar; [exact H|]. rewrite Hs1. by constructor.
Qed.

(** C3: in every environment, a root rewritten by [root_opt] does what the original does: the same
    store, jump, evaluation or nothing.  The effect table must be right, and static types must
    see which compared operands are floating point. *)
Theorem root_opt_keeps_effect r s s' r' e :
  float_typed s -> cache_ok (E := E) (os_asm s) (root_cache s) ->
  root_opt (E := E) tfuel nfuel sig locals r s = (s', Ok r') ->
  does (os_asm s) r e -> does (os_asm s') r' e.
Proof.
  intros Hft Hc H Hd. enough (keeps_effect (root_opt (E := E) tfuel nfuel sig locals r) r s) as K by eauto.
  clear H Hd. destruct r; try apply keep_same; cbn [root_opt].
  all: try first [ apply keep_st_loc | apply keep_st_arg | by apply keep_pop | apply keep_init_obj
                 | apply keep_set_field | apply keep_st_ind ].
  destruct cond as [[]|]; try apply keep_same.
  - apply keep_branch_true.
  - by apply keep_branch_false.
  - apply keep_branch_eq.
  - apply keep_branch_ne.
Qed.
End root_rewrites.

(** ** Witness *)

(** [if !(loc0 < NaN) goto 5], where [loc0] is an [f64]. *)
Definition branch_sample : Assembly :=
  set_types (set_nodes empty_assembly
    [CILNode.LdLoc 0; CILNode.Const (Const.F64 0x7FF8000000000000);
     CILNode.BinOp 1%positive 2%positive BinOp.Lt]) [Ty.Float Float.F64].

Definition branch_sample_state : OptState := mk_OptState branch_sample 3 ∅ ∅.

Definition branch_sample_env : Env := {|
  e_local loc := Some (VFloat Float.F64 (f64_of_bits 0x3FF0000000000000));
  e_arg _ := None; e_raw _ := None; e_proj _ _ := None; e_sizeof _ := None;
  e_aggregate _ := false; e_call _ _ := None; e_other _ _ := None |}.

Lemma branch_sample_means (id : Interned KNode) n v :
  nodes branch_sample !! slot id = Some n -> means (alg branch_sample_env) branch_sample n v ->
  denote (alg branch_sample_env) 2 branch_sample n = Some v.
Proof.
  intros Hn [k Hv]. apply (denote_mono _ k (k `max` 2) branch_sample branch_sample) in Hv; [|lia|done].
  destruct (denote (alg branch_sample_env) 2 branch_sample n) as [w|] eqn:Hw.
  - apply (denote_mono _ 2 (k `max` 2) branch_sample branch_sample) in Hw; [|lia|done]. congruence.
  - by destruct (slot id) as [|[|[|]]]; cbn in Hn; simplify_eq; vm_compute in Hw.
Qed.

Lemma branch_sample_float_typed :
  float_typed (E := unit) branch_sample_env 2 3 1%positive [(None, 1%positive)] branch_sample_state.
Proof.
  intros id n s' t v Hn Ht Hv. pose proof (branch_sample_means _ _ _ Hn Hv) as Hd. clear Hv.
  destruct (slot id) as [|[|[|]]]; cbn in Hn; simplify_eq; vm_compute in Hd, Ht; simplify_eq;
    (split; [intros [f [=]]|intros (f & x & [=])]; eauto).
Qed.

(** The branch becomes [if loc0 >= NaN, or unordered, goto 5]: both are taken. *)
Lemma root_opt_keeps_effect_witness :
  does (E := unit) branch_sample_env 1%positive [(None, 1%positive)] branch_sample
    (CILRoot.Branch 5 0 (Some (BranchCond.Ge 1%positive 2%positive CmpKind.Unordered))) (Jump 5 0).
Proof.
  apply (root_opt_keeps_effect (E := unit) branch_sample_env 2 3 1%positive [(None, 1%positive)]
           (CILRoot.Branch 5 0 (Some (BranchCond.IsFalse 3%positive))) branch_sample_state
           (mk_OptState branch_sample 2 ∅ ∅)).
  - apply branch_sample_float_typed.
  - intros node e H. change (root_cache branch_sample_state) with (∅ : EffectInfoCache) in H; by apply lookup_empty_Some in H.
  - vm_compute. reflexivity.
  - apply (does_branch _ _ _ branch_sample 5 0 (Some (BranchCond.IsFalse 3%positive)) true).
    exists [VBool false]. split; [|reflexivity]. constructor; [|constructor].
    eexists. split; [reflexivity|]. exists 2%nat. vm_compute. reflexivity.
Defined.
