(* ===== verification/Passes.v ===== *)
(** * The passes of [MethodDef::optimize] (cilly/src/ir/opt/mod.rs)

    Forward substitution of stores, removal of dead writes, debug-info and [Nop] removal, useless
    handlers, root deduplication, the rewriting of all roots, and the linearization of
    unconditional jumps.  The state is that of the peephole optimizer; [root_cache] is the effect
    table the passes share. *)

From S2P Require Import Prelude Interner Types IR Walk Typecheck Block Effects Method Opt.

(** ** Forward substitution *)

Inductive LocalPropagate : Set :=
| PropLocal (loc : Z)
| PropArg (arg : Z)
| PropField (field : Interned KField) (addr : Interned KNode).

#[export] Instance LocalPropagate_eq_dec : EqDecision LocalPropagate.
Proof. solve_decision. Defined.

Section propagate.
Context {E : Type} (nfuel : nat).
Implicit Types asm : Assembly.

Definition propagated_load (tpe : Ty.t) (new_node : Interned KNode)
    : ST OptState E (option CILNode.t) :=
  match tpe with
  | Ty.Float _ | Ty.Bool | Ty.FnPtr _ | Ty.Ptr _ | Ty.ClassRef _ | Ty.Ref _
  | Ty.Int (Int.I128 | Int.U128 | Int.USize | Int.ISize | Int.I64 | Int.U64 | Int.U32 | Int.I32) =>
      n ← fetch_node new_node; mret (Some n)
  | Ty.Int ((Int.I8 | Int.U8 | Int.I16 | Int.U16) as int) =>
      mret (Some (CILNode.IntCast new_node int
        (if Int.is_signed int then ExtendKind.SignExtend else ExtendKind.ZeroExtend)))
  | _ => mret None
  end.

(** A load of what was stored, while the budget lasts. *)
Definition propagated_or_same (self : CILNode.t) (tpe : Ty.t) (new_node : Interned KNode)
    : ST OptState E CILNode.t :=
  granted ← consume_fuel 1;
  if negb (granted : bool) then mret self
  else n ← propagated_load tpe new_node; mret (default self n).

(** The guards of the three matching arms. *)
Definition is_propagated (idx : LocalPropagate) (self : CILNode.t) : bool :=
  match self with
  | CILNode.LdField addr field => bool_decide (PropField field addr = idx)
  | CILNode.LdLoc loc => bool_decide (PropLocal loc = idx)
  | CILNode.LdArg arg => bool_decide (PropArg arg = idx)
  | _ => false
  end.

(** [CILNode::propagate_locals]; the index of an array access is left alone. *)
Fixpoint node_propagate_locals (fuel : nat) (idx : LocalPropagate) (tpe : Ty.t)
    (new_node : Interned KNode) (self : CILNode.t) : ST OptState E CILNode.t :=
  match fuel with
  | O => no_fuel
  | S fuel' =>
      let rec n := node_propagate_locals fuel' idx tpe new_node n in
      let one id (build : Interned KNode -> CILNode.t) :=
        n ← fetch_node id; n ← rec n; id ← on_asm (alloc_node n); mret (build id) in
      if is_propagated idx self then propagated_or_same self tpe new_node
      else
        match self with
        | CILNode.BinOp rhs lhs op =>
            rhs ← fetch_node rhs;
            lhs ← fetch_node lhs;
            rhs ← rec rhs;
            lhs ← rec lhs;
            rhs ← on_asm (alloc_node rhs);
            lhs ← on_asm (alloc_node lhs);
            mret (CILNode.BinOp rhs lhs op)
        | CILNode.UnOp input op => one input (fun i => CILNode.UnOp i op)
        | CILNode.LdLoc _ | CILNode.LdLocA _ | CILNode.LdArg _ | CILNode.LdArgA _ => mret self
        | CILNode.Call mref args is_pure =>
            args ← map_st (fun arg =>
              n ← fetch_node arg; n ← rec n; on_asm (alloc_node n)) args;
            mret (CILNode.Call mref args is_pure)
        | CILNode.IntCast input target extend => one input (fun i => CILNode.IntCast i target extend)
        | CILNode.FloatCast input target is_signed =>
            one input (fun i => CILNode.FloatCast i target is_signed)
        | CILNode.RefToPtr ptr => one ptr CILNode.RefToPtr
        | CILNode.PtrCast ptr cast_res => one ptr (fun i => CILNode.PtrCast i cast_res)
        | CILNode.LdFieldAddress addr field => one addr (fun i => CILNode.LdFieldAddress i field)
        | CILNode.LdField addr field => one addr (fun i => CILNode.LdField i field)
        | CILNode.LdInd addr tpe2 volatile => one addr (fun i => CILNode.LdInd i tpe2 volatile)
        | CILNode.IsInst object tpe => one object (fun i => CILNode.IsInst i tpe)
        | CILNode.CheckedCast object tpe => one object (fun i => CILNode.CheckedCast i tpe)
        | CILNode.CallI _ _ _ => panic
        | CILNode.GetException | CILNode.SizeOf _ | CILNode.LocAlloc _ | CILNode.LdStaticField _
        | CILNode.LdStaticFieldAddress _ | CILNode.LdFtn _ | CILNode.LdTypeToken _
        | CILNode.LocAllocAlgined _ _ | CILNode.Const _ => mret self
        | CILNode.LdLen arr => one arr CILNode.LdLen
        | CILNode.LdElelemRef array index => one array (fun i => CILNode.LdElelemRef i index)
        | CILNode.LdElem array index elem => one array (fun i => CILNode.LdElem i index elem)
        | CILNode.UnboxAny object tpe => one object (fun i => CILNode.UnboxAny i tpe)
        | CILNode.Box value tpe => one value (fun i => CILNode.Box i tpe)
        | CILNode.NewArr elem len => one len (CILNode.NewArr elem)
        end
  end.

(** The pass with the flag [cant_prop] that the closure of [propagate_root] sets. *)
Record PropState : Set := mk_PropState { ps_opt : OptState; cant_prop : bool }.

#[export] Program Instance prop_state_has_asm : HasAsm PropState := {|
  asm_of s := os_asm (ps_opt s);
  set_asm s a := mk_PropState (set_asm (ps_opt s) a) (cant_prop s) |}.
Next Obligation. done. Qed.
Next Obligation. by intros [[] ?]. Qed.

Definition on_opt {A} (m : ST OptState E A) : ST PropState E A := fun s =>
  let '(o, r) := m (ps_opt s) in (mk_PropState o (cant_prop s), r).

(** [cache.summary(asm.alloc_node(node.clone()), asm).is_pure_total()] *)
Definition node_is_pure_total (node : CILNode.t) : ST OptState E bool :=
  id ← on_asm (alloc_node node);
  asm ← reads (fun s => Ok (os_asm s));
  e ← with_root_cache (summary asm nfuel id);
  mret (is_pure_total e).

(** The closure of [propagate_root]. *)
Definition propagate_closure (idx : LocalPropagate) (tpe : Ty.t) (tree : Interned KNode)
    (node : CILNode.t) : ST PropState E CILNode.t :=
  pure ← on_opt (node_is_pure_total node);
  _ ← modify (fun s => mk_PropState (ps_opt s) (cant_prop s || negb pure));
  cant ← reads (fun s => Ok (cant_prop s));
  if (cant : bool) then mret node
  else on_opt (node_propagate_locals nfuel idx tpe tree node).

(** The root with the cells of [nodes_mut] overwritten. *)
Definition overwrite_nodes (r : CILRoot.t) (ids : list (Interned KNode)) : CILRoot.t :=
  match r, ids with
  | CILRoot.StLoc loc _, [a] => CILRoot.StLoc loc a
  | CILRoot.StArg arg _, [a] => CILRoot.StArg arg a
  | CILRoot.Ret _, [a] => CILRoot.Ret a
  | CILRoot.Pop _, [a] => CILRoot.Pop a
  | CILRoot.Throw _, [a] => CILRoot.Throw a
  | CILRoot.InitObj _ tpe, [a] => CILRoot.InitObj a tpe
  | CILRoot.SetStaticField field _, [a] => CILRoot.SetStaticField field a
  | CILRoot.Branch t s (Some c), _ =>
      CILRoot.Branch t s (Some
        (match c, ids with
         | BranchCond.IsTrue _, [a] => BranchCond.IsTrue a
         | BranchCond.IsFalse _, [a] => BranchCond.IsFalse a
         | BranchCond.Eq _ _, [a; b] => BranchCond.Eq a b
         | BranchCond.Ne _ _, [a; b] => BranchCond.Ne a b
         | BranchCond.Lt _ _ k, [a; b] => BranchCond.Lt a b k
         | BranchCond.Gt _ _ k, [a; b] => BranchCond.Gt a b k
         | BranchCond.Le _ _ k, [a; b] => BranchCond.Le a b k
         | BranchCond.Ge _ _ k, [a; b] => BranchCond.Ge a b k
         | _, _ => c
         end))
  | CILRoot.SetField field _ _, [a; b] => CILRoot.SetField field a b
  | CILRoot.Call m _ p, _ => CILRoot.Call m ids p
  | CILRoot.StInd _ _ tpe v, [a; b] => CILRoot.StInd a b tpe v
  | CILRoot.InitBlk _ _ _, [a; b; c] => CILRoot.InitBlk a b c
  | CILRoot.CpBlk _ _ _, [a; b; c] => CILRoot.CpBlk a b c
  | CILRoot.CallI _ sig _, _ =>
      match list.last ids with
      | Some ptr => CILRoot.CallI ptr sig (removelast ids)
      | None => r
      end
  | CILRoot.CpObj _ _ tpe, [a; b] => CILRoot.CpObj a b tpe
  | CILRoot.StElem _ _ _ elem, [a; b; c] => CILRoot.StElem a b c elem
  | _, _ => r
  end.

(** One cell of [propagate_root]. *)
Definition propagate_cell (idx : LocalPropagate) (tpe : Ty.t) (tree node : Interned KNode)
    : ST PropState E (Interned KNode) :=
  new_node ← fetch_node node;
  new_node ← node_map_rec (propagate_closure idx tpe tree) nfuel new_node;
  on_asm (alloc_node new_node).

(** [propagate_root]: the new root and [cant_prop]. *)
Definition propagate_root (root : Interned KRoot) (idx : LocalPropagate) (tpe : Ty.t)
    (tree : Interned KNode) : ST OptState E (Interned KRoot * bool) :=
  tmp_root ← fetch_root root;
  '(ids, cant) ← (fun s =>
    let '(p, r) := map_st (propagate_cell idx tpe tree) (CILRoot.nodes_mut tmp_root)
                     (mk_PropState s false) in
    (ps_opt p, ids ← r; Ok (ids, cant_prop p)));
  root ← on_asm (alloc_root (overwrite_nodes tmp_root ids));
  mret (root, cant).

(** [CILIter::new(node, asm)] drained: its elements, and those below a root. *)
Definition elems_of_node asm (id : Interned KNode) : outcome E (list CILIterElem) :=
  n ← get_node asm id; cil_iter_collect nfuel asm [ElemNode n].

Definition count_matches asm (root : CILRoot.t) (pattern : CILNode.t) : outcome E nat :=
  elems ← cil_iter_collect nfuel asm [ElemRoot root];
  Ok (length (List.filter (fun e => match e with
                                    | ElemNode n => bool_decide (n = pattern)
                                    | ElemRoot _ => false
                                    end) elems)).

Definition is_trivially_duplicable asm (tree : Interned KNode) : outcome E bool :=
  elems ← elems_of_node asm tree; Ok (length elems <=? 1)%nat.

(** [CILIter::new(tree, asm).any(|node| node == pattern)] *)
Definition mentions asm (tree : Interned KNode) (pattern : CILNode.t) : outcome E bool :=
  n ← get_node asm tree;
  cil_iter_any nfuel asm (fun e => match e with
                                   | ElemNode n => bool_decide (n = pattern)
                                   | ElemRoot _ => false
                                   end) [ElemNode n].

(** The checks shared by the three kinds of store: [tree] is pure and total, has at most sixteen
    elements and does not read [pattern]. *)
Definition is_candidate (tree : Interned KNode) (pattern : CILNode.t) : ST OptState E bool :=
  asm ← reads (fun s => Ok (os_asm s));
  e ← with_root_cache (summary asm nfuel tree);
  if negb (is_pure_total e) then mret false
  else
    elems ← lift (elems_of_node asm tree);
    if (16 <? length elems)%nat then mret false
    else m ← lift (mentions asm tree pattern); mret (negb m).

(** A store to a local or argument, which must also not duplicate work. *)
Definition propagate_scalar (root : Interned KRoot) (tree : Interned KNode) (pattern : CILNode.t)
    (idx : LocalPropagate) (tpe : Assembly -> outcome E Ty.t)
    : ST OptState E (Interned KRoot * bool) :=
  ok ← is_candidate tree pattern;
  if negb (ok : bool) then mret (root, true)
  else
    trivial ← reads (fun s => is_trivially_duplicable (os_asm s) tree);
    work ← (if (trivial : bool) then mret false
            else reads (fun s => r ← get_root (os_asm s) root;
                                 n ← count_matches (os_asm s) r pattern; Ok (1 <? n)%nat)
            : ST OptState E bool);
    if (work : bool) then mret (root, true)
    else t ← reads (fun s => tpe (os_asm s)); propagate_root root idx t tree.

(** The second half of the [SetField] arm: the field of the local read by value. *)
Definition propagate_by_value (root : Interned KRoot) (res : bool) (field : Interned KField)
    (loc : Z) (tree : Interned KNode) : ST OptState E (Interned KRoot * bool) :=
  loc_node ← on_asm (alloc_node (CILNode.LdLoc loc));
  m ← reads (fun s => mentions (os_asm s) tree (CILNode.LdLoc loc));
  if (m : bool) then mret (root, res)
  else
    f ← reads (fun s => get_field (os_asm s) field);
    propagate_root root (PropField field loc_node) (field_tpe f) tree.

Definition propagate_field (root : Interned KRoot) (field : Interned KField)
    (addr tree : Interned KNode) : ST OptState E (Interned KRoot * bool) :=
  a ← fetch_node addr;
  ok ← is_candidate tree a;
  if negb (ok : bool) then mret (root, true)
  else
    depends ← (match a with
               | CILNode.LdLocA loc =>
                   _ ← on_asm (alloc_node (CILNode.LdLoc loc));
                   reads (fun s => mentions (os_asm s) tree (CILNode.LdLoc loc))
               | _ => mret false
               end : ST OptState E bool);
    if (depends : bool) then mret (root, true)
    else
      f ← reads (fun s => get_field (os_asm s) field);
      '(root, res) ← propagate_root root (PropField field addr) (field_tpe f) tree;
      match a with
      | CILNode.LdLocA loc => propagate_by_value root res field loc tree
      | _ => mret (root, res)
      end.

Definition propagate_roots (locals : list LocalDef) (sig : Interned KSig) (root : Interned KRoot)
    (prev_root : CILRoot.t) : ST OptState E (Interned KRoot * bool) :=
  match prev_root with
  | CILRoot.StLoc loc tree =>
      propagate_scalar root tree (CILNode.LdLoc loc) (PropLocal loc)
        (fun asm => l ← unwrap (get_u32 locals loc); get_type asm (snd l))
  | CILRoot.SetField field addr tree => propagate_field root field addr tree
  | CILRoot.StArg arg tree =>
      propagate_scalar root tree (CILNode.LdArg arg) (PropArg arg)
        (fun asm => s ← get_sig asm sig; unwrap (get_u32 (inputs s) arg))
  | _ => mret (root, true)
  end.

(** ** [BasicBlock::local_opt] *)

Definition is_source_info (r : CILRoot.t) : bool :=
  match r with CILRoot.SourceFileInfo _ _ _ _ _ => true | _ => false end.

(** Each root with whether a test holds of it. *)
Definition flag_roots (p : CILRoot.t -> bool) asm (l : list (Interned KRoot))
    : outcome E (list (bool * Interned KRoot)) :=
  map_outcome (fun root => r ← get_root asm root; Ok (p r, root)) l.

(** The loop; [prev] is the last root kept by the filter. *)
Fixpoint local_opt_loop (locals : list LocalDef) (sig : Interned KSig)
    (prev : option (Interned KRoot)) (l : list (bool * Interned KRoot))
    : ST OptState E (list (Interned KRoot)) :=
  match l with
  | [] => mret []
  | (true, root) :: l => rest ← local_opt_loop locals sig prev l; mret (root :: rest)
  | (false, root) :: l =>
      root ← (match prev with
              | None => mret root
              | Some prev =>
                  prev_root ← fetch_root prev;
                  '(root, _) ← propagate_roots locals sig root prev_root;
                  mret root
              end : ST OptState E (Interned KRoot));
      rest ← local_opt_loop locals sig (Some root) l;
      mret (root :: rest)
  end.

Definition local_opt (locals : list LocalDef) (sig : Interned KSig) (self : BasicBlock)
    : ST OptState E BasicBlock :=
  flagged ← reads (fun s => flag_roots is_source_info (os_asm s) (bb_roots self));
  l ← local_opt_loop locals sig None flagged;
  mret (set_bb_roots self l).

Definition impl_locals (i : MethodImpl) : list LocalDef :=
  match i with MethodBody _ locals | RegionBody _ _ _ locals => locals | _ => [] end.

Definition propagate_locals (sig : Interned KSig) (self : MethodImpl) : ST OptState E MethodImpl :=
  map_all_blocks (local_opt (impl_locals self) sig) self.
End propagate.

(** ** Dead writes *)

Section dead_writes.
Context {E : Type} (nfuel : nat).
Implicit Types asm : Assembly.

(** [local_reads] and [local_address_of]; indexing past their end panics. *)
Record LocalUses : Set := mk_uses { local_reads : list bool; local_address_of : list Z }.

Definition no_uses (n : nat) : LocalUses := mk_uses (replicate n false) (replicate n 0).

Definition bump (u : LocalUses) (loc : Z) (by_ : Z) : outcome E LocalUses :=
  c ← unwrap (get_u32 (local_address_of u) loc);
  Ok (mk_uses (local_reads u) (<[Z.to_nat loc := c + by_]> (local_address_of u))).

(** One element of the scan; a [SetField] through a local's address takes back the count of the
    address it holds. *)
Definition count_use asm (u : LocalUses) (elem : CILIterElem) : outcome E LocalUses :=
  match elem with
  | ElemNode (CILNode.LdLoc loc) =>
      _ ← unwrap (get_u32 (local_reads u) loc);
      Ok (mk_uses (<[Z.to_nat loc := true]> (local_reads u)) (local_address_of u))
  | ElemNode (CILNode.LdLocA loc) => bump u loc 1
  | ElemRoot (CILRoot.SetField _ addr _) =>
      a ← get_node asm addr;
      match a with CILNode.LdLocA loc => bump u loc (-1) | _ => Ok u end
  | _ => Ok u
  end.

Fixpoint fold_outcome {A B} (f : A -> B -> outcome E A) (l : list B) (a : A) : outcome E A :=
  match l with
  | [] => Ok a
  | b :: l => a ← f a b; fold_outcome f l a
  end.

(** The scan of all roots, in order. *)
Definition scan_uses asm (roots : list (Interned KRoot)) (u : LocalUses) : outcome E LocalUses :=
  fold_outcome (fun u root =>
    r ← get_root asm root;
    elems ← cil_iter_collect nfuel asm [ElemRoot r];
    fold_outcome (count_use asm) elems u) roots u.

(** [!local_reads[loc] && local_address_of[loc] <= 0] *)
Definition is_dead_local (u : LocalUses) (loc : Z) : outcome E bool :=
  read ← unwrap (get_u32 (local_reads u) loc);
  if (read : bool) then Ok false
  else c ← unwrap (get_u32 (local_address_of u) loc); Ok (c <=? 0).

(** A dead store: its value is popped when it must be evaluated. *)
Definition drop_store (tree : Interned KNode) : ST OptState E (Interned KRoot) :=
  asm ← reads (fun s => Ok (os_asm s));
  e ← with_root_cache (summary asm nfuel tree);
  on_asm (alloc_root (if is_pure_total e then CILRoot.Nop else CILRoot.Pop tree)).

Definition remove_dead_write (u : LocalUses) (root : Interned KRoot)
    : ST OptState E (Interned KRoot) :=
  r ← fetch_root root;
  match r with
  | CILRoot.StLoc loc tree =>
      dead ← lift (is_dead_local u loc);
      if (dead : bool) then drop_store tree
      else
        t ← fetch_node tree;
        if bool_decide (t = CILNode.LdLoc loc) then on_asm (alloc_root CILRoot.Nop) else mret root
  | CILRoot.SetField _ addr tree =>
      a ← fetch_node addr;
      match a with
      | CILNode.LdLocA loc =>
          dead ← lift (is_dead_local u loc);
          if (dead : bool) then drop_store tree else mret root
      | _ => mret root
      end
  | _ => mret root
  end.

(** ** [Nop]s *)

Definition is_nop asm (root : Interned KRoot) : outcome E bool :=
  r ← get_root asm root; Ok (match r with CILRoot.Nop => true | _ => false end).

(** [Vec::retain] with a test that reads the arena. *)
Fixpoint retain_outcome {A} (p : A -> outcome E bool) (l : list A) : outcome E (list A) :=
  match l with
  | [] => Ok []
  | x :: l => b ← p x; l ← retain_outcome p l; Ok (if (b : bool) then x :: l else l)
  end.

Definition drop_nops asm (b : BasicBlock) : outcome E BasicBlock :=
  l ← retain_outcome (fun root => n ← is_nop asm root; Ok (negb n)) (bb_roots b);
  Ok (set_bb_roots b l).

(** A block and the blocks of its handler. *)
Definition drop_nops_deep asm (b : BasicBlock) : outcome E BasicBlock :=
  b ← drop_nops asm b;
  match handler b with
  | None => Ok b
  | Some h =>
      h ← map_outcome (drop_nops asm) h;
      Ok (mk_block (bb_roots b) (block_id b) (Some h) (handler_id b))
  end.

Definition remove_nops (self : MethodImpl) : ST OptState E MethodImpl :=
  map_all_blocks (fun b => reads (fun s => drop_nops_deep (os_asm s) b)) self.

(** The blocks and cleanup blocks of a body. *)
Definition all_blocks (i : MethodImpl) : list BasicBlock :=
  match i with
  | MethodBody blocks _ => blocks
  | RegionBody blocks cleanup_blocks _ _ => blocks ++ cleanup_blocks
  | _ => []
  end.

Definition remove_dead_writes (self : MethodImpl) : ST OptState E MethodImpl :=
  match self with
  | MethodBody _ locals | RegionBody _ _ _ locals =>
      granted ← consume_fuel 8;
      if negb (granted : bool) then mret self
      else
        u ← reads (fun s => scan_uses (os_asm s) (concat (map iter_roots (all_blocks self)))
                              (no_uses (length locals)));
        i ← map_all_blocks (map_block_roots (remove_dead_write u)) self;
        remove_nops i
  | _ => mret self
  end.

(** ** Debug information *)

(** The loop of [remove_duplicate_sfi]: duplicates of the previous file and line become [nop]. *)
Fixpoint dedup_sfi (nop : Interned KRoot) (prev_ls prev_ll : Z) (prev_file : Interned KString)
    (l : list (Interned KRoot)) asm : outcome E (list (Interned KRoot)) :=
  match l with
  | [] => Ok []
  | root :: l =>
      r ← get_root asm root;
      match r with
      | CILRoot.SourceFileInfo line_start line_len _ _ file =>
          let dup := bool_decide (file = prev_file) && (line_len =? prev_ll) &&
                     (line_start =? prev_ls) in
          l ← dedup_sfi nop line_start line_len file l asm;
          Ok ((if dup then nop else root) :: l)
      | _ => l ← dedup_sfi nop prev_ls prev_ll prev_file l asm; Ok (root :: l)
      end
  end.

Definition block_remove_duplicate_sfi (self : BasicBlock) : ST OptState E BasicBlock :=
  prev_file ← on_asm (alloc_string "InvalidDebugInfoString");
  nop ← on_asm (alloc_root CILRoot.Nop);
  l ← reads (fun s => dedup_sfi nop (2 ^ 32 - 1) (2 ^ 16 - 1) prev_file (bb_roots self) (os_asm s));
  mret (set_bb_roots self (List.filter (fun root => negb (bool_decide (root = nop))) l)).

Definition remove_duplicate_sfi (self : MethodImpl) : ST OptState E MethodImpl :=
  map_all_blocks block_remove_duplicate_sfi self.

(** ** Handlers that only rethrow *)

(** Whether every listed node is pure and total, by the shared effect table. *)
Fixpoint all_pure_nodes (l : list (Interned KNode)) : ST OptState E bool :=
  match l with
  | [] => mret true
  | a :: l =>
      asm ← reads (fun s => Ok (os_asm s));
      e ← with_root_cache (summary asm nfuel a);
      if is_pure_total e then all_pure_nodes l else mret false
  end.

(** The test of one root of a handler; conditions and stored values must be pure and total. *)
Definition is_idle_root (r : CILRoot.t) : ST OptState E bool :=
  match r with
  | CILRoot.Branch _ _ (Some cond) => all_pure_nodes (BranchCond.nodes cond)
  | CILRoot.Branch _ _ None => mret true
  | CILRoot.StLoc _ tree => all_pure_nodes [tree]
  | CILRoot.ReThrow | CILRoot.Nop => mret true
  | _ => mret false
  end.

(** [all] over the roots that [meaningfull_roots] yields, stopping at the first failure. *)
Fixpoint all_idle (l : list (Interned KRoot)) : ST OptState E bool :=
  match l with
  | [] => mret true
  | root :: l =>
      r ← fetch_root root;
      idle ← (if is_meaningfull r then is_idle_root r else mret true : ST OptState E bool);
      if (idle : bool) then all_idle l else mret false
  end.

Definition remove_useless_handler (block : BasicBlock) : ST OptState E BasicBlock :=
  match handler block with
  | None => mret block
  | Some h =>
      idle ← all_idle (concat (map iter_roots h));
      if negb (idle : bool) then mret block
      else
        granted ← consume_fuel 6;
        if (granted : bool) then on_asm (remove_handler block) else mret block
  end.

Definition remove_useless_handlers (self : MethodImpl) : ST OptState E MethodImpl :=
  match self with
  | MethodBody blocks locals =>
      blocks ← map_st remove_useless_handler blocks; mret (MethodBody blocks locals)
  | _ => mret self
  end.

(** ** Root deduplication *)

(** The next root the filter kept. *)
Fixpoint peek_root (l : list (bool * Interned KRoot)) : option (Interned KRoot) :=
  match l with
  | [] => None
  | (true, _) :: l => peek_root l
  | (false, root) :: _ => Some root
  end.

(** What the pair of a root and its successor becomes: the first a [Nop], the second as given. *)
Definition dedup_pair (curr peek : Interned KRoot)
    : ST OptState E (option (option (Interned KRoot))) :=
  c ← fetch_root curr;
  p ← fetch_root peek;
  match c, p with
  | CILRoot.ReThrow, CILRoot.ReThrow => mret (Some None)
  | CILRoot.StLoc set_loc tree, CILRoot.Ret ret =>
      n ← fetch_node ret;
      if bool_decide (n = CILNode.LdLoc set_loc) then
        root ← on_asm (alloc_root (CILRoot.Ret tree)); mret (Some (Some root))
      else mret None
  | _, _ => mret None
  end.

(** The loop of [dedup_roots] over all roots of the method; flagged roots are filtered out, and
    [pending] replaces the next root that is not. *)
Fixpoint dedup_loop (nop : Interned KRoot) (pending : option (Interned KRoot))
    (l : list (bool * Interned KRoot)) : ST OptState E (list (Interned KRoot)) :=
  match l with
  | [] => mret []
  | (true, root) :: l => rest ← dedup_loop nop pending l; mret (root :: rest)
  | (false, curr) :: l =>
      match pending, peek_root l with
      | Some root, _ => rest ← dedup_loop nop None l; mret (root :: rest)
      | None, None => rest ← dedup_loop nop None l; mret (curr :: rest)
      | None, Some peek =>
          d ← dedup_pair curr peek;
          match d with
          | None => rest ← dedup_loop nop None l; mret (curr :: rest)
          | Some pending => rest ← dedup_loop nop pending l; mret (nop :: rest)
          end
      end
  end.

(** Writing the roots back through [iter_roots_mut]. *)
Definition next_root (_ : Interned KRoot) : ST (list (Interned KRoot)) E (Interned KRoot) :=
  fun s => match s with [] => ([], Panic) | root :: s => (s, Ok root) end.

Definition dedup_roots (self : MethodImpl) : ST OptState E MethodImpl :=
  nop ← on_asm (alloc_root CILRoot.Nop);
  flagged ← reads (fun s => flag_roots (fun r => negb (is_meaningfull r)) (os_asm s)
                              (concat (map iter_roots (all_blocks self))));
  l ← dedup_loop nop None flagged;
  lift (snd (map_all_blocks (map_block_roots next_root) self l)).
End dead_writes.

(** ** The rewriting of all roots *)

Section opt_roots.
Context {E : Type} (method_defs : gmap positive MethodDef) (tfuel nfuel mfuel : nat).

(** [MethodDef::opt_roots]: the node closure starts with an empty effect table. *)
Definition opt_roots (self : MethodDef) : ST OptState E MethodDef :=
  match impl_blocks (implementation self) with
  | None => mret self
  | Some _ =>
      let locals := impl_locals (implementation self) in
      _ ← modify (fun s => mk_OptState (os_asm s) (os_fuel s) (root_cache s) ∅);
      i ← map_all_blocks (map_block_roots (fun root =>
            r ← fetch_root root;
            r ← opt_root_tree method_defs tfuel nfuel mfuel (md_sig self) locals (md_class self) r;
            on_asm (alloc_root r))) (implementation self);
      mret (set_implementation self i)
  end.
End opt_roots.

(** ** Linearization *)

Section linearize.
Context {E : Type}.
Implicit Types asm : Assembly.

Definition block_with_id (blocks : list BasicBlock) (id : Z) : option BasicBlock :=
  List.find (fun b => block_id b =? id) blocks.

Definition breaks_line asm (root : Interned KRoot) : outcome E bool :=
  r ← get_root asm root;
  Ok (match r with
      | CILRoot.Branch _ _ cond => negb (is_branch_unconditional cond)
      | CILRoot.ExitSpecialRegion _ _ => true
      | _ => false
      end).

Definition is_linearizable (blocks : list BasicBlock) asm : outcome E bool :=
  if existsb (fun b => match handler b with Some _ => true | None => false end) blocks then Ok false
  else b ← any_outcome (breaks_line asm) (concat (map bb_roots blocks)); Ok (negb b).

(** How the walk over one block's roots ends. *)
Inductive LineEnd : Set :=
| LineCapped
| LineMissing
| LineEnds
| LineJumps (next : BasicBlock).

(** The [for] loop over the roots of one block: the roots pushed, the counter, and the end. *)
Fixpoint line_of_block (blocks : list BasicBlock) asm (ic : nat) (l : list (Interned KRoot))
    : outcome E (list (Interned KRoot) * nat * LineEnd) :=
  match l with
  | [] => Ok ([], ic, LineEnds)
  | root :: l =>
      let ic := S ic in
      if (2000 <? ic)%nat then Ok ([], ic, LineCapped)
      else
        r ← get_root asm root;
        match r with
        | CILRoot.Branch target sub_target _ =>
            Ok ([], ic, match block_with_id blocks (blockid_from_jump target sub_target) with
                        | Some block => LineJumps block
                        | None => LineMissing
                        end)
        | _ => '(res, ic, e) ← line_of_block blocks asm ic l; Ok (root :: res, ic, e)
        end
  end.

(** The [while] loop. *)
Fixpoint line_loop (fuel : nat) (blocks : list BasicBlock) asm (ic : nat) (curr : BasicBlock)
    : outcome E (option (list (Interned KRoot))) :=
  match fuel with
  | O => NoFuel
  | S fuel' =>
      '(res, ic, e) ← line_of_block blocks asm ic (bb_roots curr);
      match e with
      | LineCapped | LineMissing => Ok None
      | LineEnds => Ok (Some res)
      | LineJumps next =>
          rest ← line_loop fuel' blocks asm ic next;
          Ok (option_map (app res) rest)
      end
  end.

(** The walk visits at most 2000 roots, and jumps at most once for each. *)
Definition linearize_blocks (blocks : list BasicBlock) asm : outcome E (option BasicBlock) :=
  ok ← is_linearizable blocks asm;
  if negb (ok : bool) then Ok None
  else
    first ← unwrap (head blocks);
    res ← line_loop 2002 blocks asm 0 first;
    match res with
    | None => Ok None
    | Some res => b ← BasicBlock_new res (block_id first) None; Ok (Some b)
    end.

(** The step of [optimize] that uses it. *)
Definition linearize_impl (self : MethodImpl) : ST OptState E MethodImpl :=
  match self with
  | MethodBody blocks locals =>
      b ← reads (fun s => linearize_blocks blocks (os_asm s));
      mret (match b with Some block => MethodBody [block] locals | None => self end)
  | _ => mret self
  end.
End linearize.
