(* ===== verification/Forward.v ===== *)
(** * Forward substitution keeps what a block does

    [BasicBlock::local_opt] replaces loads in a root by the value the root before it stored.  Seen
    as the sequence of its roots' actions with the values of their operands, in an environment that
    each action may change, the block does the same before and after. *)

From S2P Require Import Prelude Interner Types IR Arenas Walk MapTheory Typecheck TypecheckTheory.
From S2P Require Import Block BlockTheory Effects Method Opt OptSem OptTheory OptRoots Passes.

(** ** The shared effect table *)

Section table.
Context {E : Type}.

(** Whatever [summary] answers, it leaves a right table. *)
Lemma summary_keeps asm fuel node :
  steps (fun c c' => cache_ok (E := E) asm c -> cache_ok (E := E) asm c') (summary (E := E) asm fuel node).
Proof.
  assert (Hpre : PreOrder (fun c c' => cache_ok (E := E) asm c -> cache_ok (E := E) asm c'))
    by (split; [by intros c|intros ???; auto]).
  revert node. induction fuel as [|fuel IH]; intros node; [by intros c|].
  intros c Hc. destruct (summary asm (S fuel) node c) as [c' r] eqn:Hs. cbn.
  destruct r as [e| | |]; [by eapply summary_correct in Hs as [? _]|..].
  all: revert Hs; cbn [summary]; unfold mbind, ST_bind, ask, lift, modify; cbn;
    (destruct (c !! node); [done|]); cbn;
    (destruct (get_node asm node) as [n| | |]; cbn; [|by intros [= <-]..]);
    pose proof (steps_map_st _ (summary (E := E) asm fuel) (CILNode.visit_child_nodes n) IH c Hc) as Hm;
    destruct (map_st _ _ _) as [c1 []]; cbn in *; by intros [= <-].
Qed.

(** The table of the passes is right, for an assembly that only grows. *)
Definition table_ok (s : OptState) : Prop := cache_ok (E := E) (os_asm s) (root_cache s).

Lemma cache_ok_extends asm asm' c : extends asm asm' -> cache_ok (E := E) asm c -> cache_ok (E := E) asm' c.
Proof. intros Hext Hc n e (f & Hf)%Hc. exists f. by eapply mono_effects_of. Qed.

(** Moves of a pass: the assembly grows and the table stays right. *)
Definition kept (s s' : OptState) : Prop :=
  extends (os_asm s) (os_asm s') /\ (table_ok s -> table_ok s').

#[export] Instance kept_preorder : PreOrder kept.
Proof. split; [by intros s|]. intros a b c [? ?] [? ?]. split; [by etrans|auto]. Qed.

Lemma kept_grows s s' : kept s s' -> grows s s'.
Proof. by intros []. Qed.

Lemma on_asm_kept {A} (m : ST Assembly E A) : steps extends m -> steps kept (on_asm (S := OptState) m).
Proof.
  intros Hm s. specialize (Hm (os_asm s)). unfold on_asm. cbn.
  destruct (m (os_asm s)) as [a r]. cbn in *. split; [done|]. by apply cache_ok_extends.
Qed.

Lemma fetch_node_kept id : steps kept (fetch_node (S := OptState) (E := E) id).
Proof. apply steps_reads, _. Qed.
Lemma fetch_root_kept id : steps kept (fetch_root (S := OptState) (E := E) id).
Proof. apply steps_reads, _. Qed.

Lemma consume_fuel_kept cost : steps kept (consume_fuel (E := E) cost).
Proof. intros s. unfold consume_fuel. by destruct (consume _ _). Qed.

Lemma root_summary_kept nfuel (id : Interned KNode) {A} (k : Assembly -> EffectSummary -> ST OptState E A) :
  (forall asm e, steps kept (k asm e)) ->
  steps kept (asm ← reads (fun s => Ok (os_asm s)); e ← with_root_cache (summary asm nfuel id); k asm e).
Proof.
  intros Hk s. unfold mbind, ST_bind, reads, with_root_cache.
  pose proof (summary_keeps (os_asm s) nfuel id (root_cache s)) as Hs.
  destruct (summary _ _ _ _) as [c r]. cbn in *.
  set (s1 := mk_OptState (os_asm s) (os_fuel s) c (node_cache s)).
  assert (kept s s1) by by split. destruct r; cbn; try done. etrans; [done|]. apply Hk.
Qed.

Lemma root_summary_ok nfuel (id : Interned KNode) {A} (k : Assembly -> EffectSummary -> ST OptState E A) s s' a :
  (asm ← reads (fun s => Ok (os_asm s)); e ← with_root_cache (summary asm nfuel id); k asm e) s = (s', Ok a) ->
  table_ok s ->
  exists s1 e f, os_asm s1 = os_asm s /\ table_ok s1 /\ effects_of (E := E) (os_asm s) f id = Ok e /\
    k (os_asm s) e s1 = (s', Ok a).
Proof.
  intros (s0 & asm & [= <- <-] & H)%st_bind_ok Hs.
  apply st_bind_ok in H as (s1 & e & H1 & H). unfold with_root_cache in H1.
  destruct (summary _ _ _ _) as [c r] eqn:Hsum. injection H1 as <- ->.
  apply summary_correct in Hsum as [Hc [f Hf]]; [|done].
  by exists (mk_OptState (os_asm s) (os_fuel s) c (node_cache s)), e, f.
Qed.
End table.

#[export] Hint Resolve on_asm_kept fetch_node_kept fetch_root_kept consume_fuel_kept : steps.
#[export] Hint Extern 1 (steps kept (reads _ ≫= _)) => apply root_summary_kept : steps.

(** ** Pure and total expressions *)

Section pure.
Context {E : Type}.

(** The effects of the node and of all it contains are none. *)
Definition pure_node (asm : Assembly) (n : CILNode.t) : Prop :=
  own_effect n = PURE_TOTAL /\
  exists f, Forall (fun c => effects_of (E := E) asm f c = Ok PURE_TOTAL) (CILNode.visit_child_nodes n).

Definition pure_id (asm : Assembly) (id : Interned KNode) : Prop :=
  exists f, effects_of (E := E) asm f id = Ok PURE_TOTAL.

Lemma pure_id_node asm id n : pure_id asm id -> nodes asm !! slot id = Some n -> pure_node asm n.
Proof.
  intros [[|f] H] Hn; [done|]. cbn in H. apply bind_ok in H as (m & Hm%get_node_ok & H).
  rewrite Hn in Hm. injection Hm as <-. apply bind_ok in H as (cs & Hcs & [= H]).
  apply fold_union_zero in H as [Hown Hz]. split; [done|]. exists f.
  apply map_outcome_Forall2 in Hcs. clear -Hcs Hz. revert Hz.
  induction Hcs as [|c e l es Hc _ IH]; [constructor|].
  intros [-> ?]%list.Forall_cons. constructor; auto.
Qed.

Lemma pure_node_child asm n c :
  pure_node asm n -> c ∈ CILNode.visit_child_nodes n -> pure_id asm c.
Proof. intros [_ [f Hf]] Hc. exists f. rewrite list.Forall_forall in Hf. by apply Hf. Qed.

Lemma pure_id_extends asm asm' id : extends asm asm' -> pure_id asm id -> pure_id asm' id.
Proof. intros Hext [f Hf]. exists f. by eapply mono_effects_of. Qed.

(** Pure nodes have all their operands visited. *)
Lemma pure_children n : own_effect n = PURE_TOTAL -> CILNode.operands n = CILNode.visit_child_nodes n.
Proof. by destruct n. Qed.
End pure.

(** ** Environments before and after a store *)

(** What a location of a type holds after a value is stored: narrow integers are cut to their
    width; otherwise the value must be of the type. *)
Definition stored (tpe : Ty.t) (v : value) : option value :=
  match tpe with
  | Ty.Int ((Int.I8 | Int.U8 | Int.I16 | Int.U16) as i) =>
      match v with
      | VInt j z => if bool_decide (int_in j z) then Some (VInt i (int_norm i z)) else None
      | _ => None
      end
  | _ => if conforms tpe v then Some v else None
  end.

(** The load a store to the location changes. *)
Definition load_of (idx : LocalPropagate) : option CILNode.t :=
  match idx with
  | PropLocal loc => Some (CILNode.LdLoc loc)
  | PropArg arg => Some (CILNode.LdArg arg)
  | PropField _ _ => None
  end.

(** [env'] differs from [env] in what [read] loads and in memory: a store to a local or argument
    changes no other local or argument, nor the meaning of pure operations. *)
Record touches_only (read : CILNode.t) (env env' : Env) : Prop := {
  same_local l : CILNode.LdLoc l <> read -> e_local env' l = e_local env l;
  same_arg a : CILNode.LdArg a <> read -> e_arg env' a = e_arg env a;
  same_sizeof t : e_sizeof env' t = e_sizeof env t;
  same_other n vs : own_effect n = PURE_TOTAL -> e_other env' n vs = e_other env n vs }.

Section meaning.
Context {E : Type}.

Lemma pure_alg read env env' n vs :
  touches_only read env env' -> own_effect n = PURE_TOTAL -> n <> read ->
  alg env' (skeleton n) vs = alg env (skeleton n) vs.
Proof.
  intros [Hl Ha Hs Ho] Hp Hn. destruct n; try discriminate Hp; cbn [skeleton].
  all: try (destruct vs; cbn; auto; fail).
  all: try (destruct vs as [|? vs]; cbn; auto; apply Ho; done).
  all: try (apply Ho; done).
  - by destruct is_pure.
  - by destruct volatile.
  - destruct vs; cbn; [by rewrite Hs|by apply Ho].
Qed.

(** A pure tree that does not read the location means the same before and after the store. *)
Lemma tree_keeps read env env' asm id v :
  touches_only read env env' ->
  (forall m, below asm id m -> own_effect m = PURE_TOTAL /\ m <> read) ->
  means_id (alg env) asm id v -> means_id (alg env') asm id v.
Proof.
  intros Ht Hb (n & Hn & k & Hv). exists n. split; [done|]. exists k. revert id n v Hb Hn Hv.
  induction k as [|k IH]; intros id n v Hb Hn; [done|]. rewrite !denote_S.
  intros (vs & Hvs%mapM_Some & Hv)%bind_Some. destruct (Hb n) as [Hp Hr]; [by constructor|].
  apply bind_Some. exists vs. split; [|by rewrite (pure_alg read env)]. apply mapM_Some.
  apply Forall2_same_length_lookup_2; [by eapply Forall2_length|]. intros i c w Hc Hw.
  pose proof (Forall2_lookup_lr _ _ _ _ _ _ Hvs Hc Hw) as Hd.
  apply bind_Some in Hd as (m & Hm & Hd). apply bind_Some. exists m. split; [done|].
  eapply (IH c); [|done..]. intros m' Hm'. apply Hb. eapply below_child; [done| |done].
  rewrite <- pure_children by done. by eapply list_elem_of_lookup_2.
Qed.

(** [CILIter::any] that finds nothing rules out every node below. *)
Lemma iter_any_false asm (p : CILIterElem -> bool) fuel stack :
  cil_iter_any (E := E) fuel asm p stack = Ok false ->
  forall n, ElemNode n ∈ stack -> p (ElemNode n) = false /\
    forall c m, c ∈ CILNode.visit_child_nodes n -> below asm c m -> p (ElemNode m) = false.
Proof.
  revert stack. induction fuel as [|fuel IH]; intros stack; [done|]. cbn [cil_iter_any].
  intros (next & Hnext & H)%bind_ok n Hn. destruct stack as [|elem stack]; [by apply elem_of_nil in Hn|].
  cbn in Hnext. apply bind_ok in Hnext as (children & Hch & [= <-]).
  destruct (p elem) eqn:Hp; [done|]. specialize (IH _ H).
  apply elem_of_cons in Hn as [<-|Hn]; [|apply IH; apply elem_of_app; by right].
  split; [done|]. intros c m Hc Hm. cbn in Hch. apply map_outcome_Forall2 in Hch.
  apply list_elem_of_lookup in Hc as [i Hi].
  destruct (Forall2_lookup_l _ _ _ _ _ Hch Hi) as (e & He & Hce).
  apply bind_ok in Hce as (nc & Hnc%get_node_ok & [= <-]).
  destruct (IH nc) as [Hself Hbelow].
  { apply elem_of_app. left. by eapply list_elem_of_lookup_2. }
  inversion Hm as [? Hm'|n' c' ? Hm' Hc' Hb']; subst; rewrite Hnc in Hm'; injection Hm' as <-.
  - done.
  - by eapply Hbelow.
Qed.

Lemma mentions_false nfuel asm tree pattern :
  mentions (E := E) nfuel asm tree pattern = Ok false -> forall m, below asm tree m -> m <> pattern.
Proof.
  unfold mentions. intros (n & Hn%get_node_ok & H)%bind_ok m Hm ->.
  destruct (iter_any_false _ _ _ _ H n) as [Hs Hb]; [by apply list_elem_of_singleton|].
  inversion Hm as [? Hm'|n' c' ? Hm' Hc' Hb']; subst; rewrite Hn in Hm'; injection Hm' as <-.
  - by rewrite bool_decide_true in Hs.
  - specialize (Hb _ _ Hc' Hb'). cbn in Hb. by rewrite bool_decide_true in Hb.
Qed.

Lemma pure_below asm id m : pure_id (E := E) asm id -> below asm id m -> own_effect m = PURE_TOTAL.
Proof.
  intros [f Hf] Hm. assert (is_pure_total PURE_TOTAL = true) as Ht by done.
  rewrite (pure_total_iff (E := E)) in Ht by exact Hf. by apply Ht.
Qed.
End meaning.

(** ** Substitution into one expression *)

Section substitution.
Context {E : Type} (nfuel : nat) (idx : LocalPropagate) (tpe : Ty.t) (tree : Interned KNode).
Context (env : Env).

Local Notation R := (refines eq (alg env)).
Local Notation Rid := (refines_id eq (alg env)).

(** The stored value, read back, is what the location holds. *)
Definition substitutable (asm : Assembly) : Prop :=
  forall read, load_of idx = Some read ->
    exists v w, means_id (alg env) asm tree v /\ stored tpe v = Some w /\ alg env read [] = Some w.

Lemma substitutable_extends asm asm' : extends asm asm' -> substitutable asm -> substitutable asm'.
Proof.
  intros Hext H read Hr. destruct (H read Hr) as (v & w & Hv & ?). exists v, w.
  split; [|done]. by eapply Mid_extends.
Qed.

Lemma substitute_steps fuel n :
  steps (kept (E := E)) (node_propagate_locals (E := E) fuel idx tpe tree n).
Proof.
  revert n. induction fuel as [|fuel IH]; intros n; cbn [node_propagate_locals]; [steps_tac|].
  unfold propagated_or_same, propagated_load.
  destruct (is_propagated idx n); [steps_tac|].
  destruct n; cbv zeta; steps_tac.
Qed.

(** A load of the location becomes the stored value. *)
Lemma propagated_refines n s s' n' :
  is_propagated idx n = true -> pure_node (E := E) (os_asm s) n -> substitutable (os_asm s) ->
  propagated_or_same (E := E) n tpe tree s = (s', Ok n') -> R (os_asm s) n (os_asm s') n'.
Proof.
  intros Hp [Hown _] Hsub. unfold propagated_or_same.
  intros (s1 & granted & Hc%consume_fuel_ok & H)%st_bind_ok. rewrite <- Hc in Hsub |- *.
  destruct granted; cbn in H; [|by injection H as <- <-; intros k v Hv; eauto].
  assert (exists read, load_of idx = Some read /\ n = read /\ CILNode.operands n = [] /\ skeleton n = n)
    as (read & Hread & -> & Hops & Hsk).
  { destruct n; try done; cbn in Hp; apply bool_decide_eq_true in Hp; rewrite <- Hp; eauto. }
  destruct (Hsub read Hread) as (v & w & Hv & Hst & Hw).
  assert (forall u, means (alg env) (os_asm s1) read u -> u = w) as Hval.
  { intros u Hu%means_0; [|done]. rewrite Hsk in Hu. congruence. }
  apply st_bind_ok in H as (s2 & o & Hl & [= <- <-]). apply refines_means. intros u Hu.
  apply Hval in Hu as ->. clear Hval. unfold propagated_load in Hl.
  assert (forall m, fetch_node (E := E) tree s1 = (s2, Ok m) -> w = v -> means (alg env) (os_asm s2) m w) as Hsame.
  { unfold fetch_node, reads. intros m [= <- Hm%get_node_ok] ->. destruct Hv as (m' & Hm' & Hv).
    cbn in Hm. congruence. }
  assert (stored tpe v = (if conforms tpe v then Some v else None) -> w = v) as Hconf.
  { intros Hc1. rewrite Hst in Hc1. by destruct (conforms tpe v); [injection Hc1|]. }
  destruct tpe as [| |int| | | | | | | | | | |] eqn:Ht; [| |destruct int|..]; cbn in Hl.
  all: first [ injection Hl as <- <-; done
             | apply st_bind_ok in Hl as (s3 & m & Hm & [= <- <-]); apply Hsame; [done|by apply Hconf]
             | idtac ].
  all: injection Hl as <- <-; destruct v as [j z| | | |]; try done; cbn in Hst;
    (case_bool_decide as Hin; [|done]); injection Hst as <-.
  all: eapply means_1; [reflexivity|]; exists (VInt j z); split; [done|].
  all: cbn; rewrite bool_decide_true by done; unfold int_cast.
  all: by destruct j.
Qed.

(** What a recursive call on an operand gives. *)
Definition substitutes fuel : Prop := forall n s s' n',
  pure_node (E := E) (os_asm s) n -> substitutable (os_asm s) ->
  node_propagate_locals (E := E) fuel idx tpe tree n s = (s', Ok n') -> R (os_asm s) n (os_asm s') n'.

Lemma operand_refines fuel c s n s0 s1 n' s2 s3 c' :
  substitutes fuel -> pure_id (E := E) (os_asm s) c -> substitutable (os_asm s) ->
  fetch_node (E := E) c s = (s, Ok n) ->
  kept (E := E) s s0 -> node_propagate_locals (E := E) fuel idx tpe tree n s0 = (s1, Ok n') ->
  kept (E := E) s1 s2 -> on_asm (alloc_node (E := E) n') s2 = (s3, Ok c') ->
  kept (E := E) s0 s1 /\ kept (E := E) s2 s3 /\ Rid (os_asm s) c (os_asm s3) c'.
Proof.
  intros IH Hc Hsub [= Hn%get_node_ok] [H0 _] Hrun Hk Ha. cbn in Hn.
  pose proof (substitute_steps fuel n s0) as Hs1. rewrite Hrun in Hs1. cbn in Hs1.
  pose proof (on_asm_kept (E := E) _ (alloc_node_extends (E := E) n') s2) as Hs3. rewrite Ha in Hs3.
  split_and!; [done|done|].
  apply on_asm_ok, alloc_node_spec in Ha as (He & Hc' & _). cbn in He, Hc'.
  intros k v (m & Hm & Hv)%bind_Some. rewrite Hn in Hm. injection Hm as <-.
  assert (R (os_asm s0) n (os_asm s1) n') as HR.
  { apply IH; [|by eapply substitutable_extends|done].
    eapply pure_id_node; [by eapply pure_id_extends|by eapply extends_node]. }
  destruct (HR k v) as (k' & v' & Hv' & Hvv); [by eapply denote_mono|].
  exists k', v'. split; [|done]. unfold denote_id. rewrite Hc'. eapply denote_mono; [done| |exact Hv'].
  destruct Hk as [Hk _]. by etrans.
Qed.

Lemma substitution_refines fuel : substitutes fuel.
Proof.
  induction fuel as [|fuel IH]; intros n s s' n' Hpure Hsub; [done|]. cbn [node_propagate_locals].
  destruct (is_propagated idx n) eqn:Hp; [by apply propagated_refines|]. cbv zeta.
  assert (Hchild : forall c, c ∈ CILNode.visit_child_nodes n -> pure_id (E := E) (os_asm s) c)
    by (intros; by eapply pure_node_child).
  assert (Halg : forall m vs ws v, Forall2 eq vs ws -> alg env m vs = Some v ->
            exists w, alg env m ws = Some w /\ v = w).
  { intros m vs ws v ->%list_eq_Forall2 Hv. eauto. }
  destruct Hpure as [Hown _].
  destruct n; try discriminate Hown; try (by destruct is_pure); try (by destruct volatile);
    try (intros [= <- <-]; apply refines_refl, _).
  2-6: intros (s1 & n1 & Hf & H)%st_bind_ok; assert (s1 = s) as -> by (by injection Hf);
    apply st_bind_ok in H as (s2 & n2 & Hrun & H); apply st_bind_ok in H as (s3 & c & Ha & [= <- <-]);
    destruct (operand_refines fuel _ s n1 s s2 n2 s2 s3 c IH
                (Hchild _ ltac:(by apply list_elem_of_singleton)) Hsub Hf ltac:(done) Hrun ltac:(done) Ha)
      as (_ & _ & Hr);
    apply (refines_rebuild eq (alg env) Halg); [done|]; by repeat constructor.
  intros (s1 & l1 & Hf1 & H)%st_bind_ok; assert (s1 = s) as -> by (by injection Hf1).
  apply st_bind_ok in H as (s1 & r1 & Hf2 & H); assert (s1 = s) as -> by (by injection Hf2).
  apply st_bind_ok in H as (s1 & l2 & Hl & H). apply st_bind_ok in H as (s2 & r2 & Hr & H).
  apply st_bind_ok in H as (s3 & l3 & Hla & H). apply st_bind_ok in H as (s4 & r3 & Hra & [= <- <-]).
  assert (kept (E := E) s s1) as K1 by (pose proof (substitute_steps fuel l1 s) as K; by rewrite Hl in K).
  assert (kept (E := E) s1 s2) as K2 by (pose proof (substitute_steps fuel r1 s1) as K; by rewrite Hr in K).
  destruct (operand_refines fuel lhs s l1 s s1 l2 s2 s3 l3) as (_ & K3 & Hl'); try done;
    [apply Hchild; set_solver|].
  destruct (operand_refines fuel rhs s r1 s1 s2 r2 s3 s4 r3) as (_ & K4 & Hr'); try done;
    [apply Hchild; set_solver|].
  apply (refines_rebuild eq (alg env) Halg); [done|]. constructor; [|by repeat constructor].
  eapply refines_id_extends; [reflexivity|exact Hl'|apply K4].
Qed.

(** ** Substitution into a root *)

(** The moves of the pass with its flag. *)
Definition prop_kept (p p' : PropState) : Prop := kept (E := E) (ps_opt p) (ps_opt p').

#[export] Instance prop_kept_preorder : PreOrder prop_kept.
Proof. split; [by intros p|]. intros a b c ??. unfold prop_kept in *. by etrans. Qed.

Lemma prop_kept_grows p p' : prop_kept p p' -> grows p p'.
Proof. by intros []. Qed.

Lemma prop_on_asm {A} (m : ST Assembly E A) : steps extends m -> steps prop_kept (on_asm (S := PropState) m).
Proof.
  intros Hm p. pose proof (on_asm_kept (E := E) m Hm (ps_opt p)) as H. unfold on_asm in *. cbn in *.
  by destruct (m _).
Qed.

Lemma on_opt_steps {A} (m : ST OptState E A) : steps (kept (E := E)) m -> steps prop_kept (on_opt m).
Proof. intros Hm p. specialize (Hm (ps_opt p)). unfold on_opt. by destruct (m _). Qed.

Lemma on_opt_ok {A} (m : ST OptState E A) p p' a :
  on_opt m p = (p', Ok a) -> m (ps_opt p) = (ps_opt p', Ok a) /\ cant_prop p' = cant_prop p.
Proof. unfold on_opt. destruct (m _). by intros [= <- ->]. Qed.

Lemma node_is_pure_total_steps n : steps (kept (E := E)) (node_is_pure_total (E := E) nfuel n).
Proof.
  unfold node_is_pure_total. apply steps_bind; [apply _|steps_tac|]. intros id.
  apply (root_summary_kept nfuel id (fun _ e => mret (is_pure_total e))). intros. apply steps_ret, _.
Qed.

Lemma node_is_pure_total_ok n s s' b :
  node_is_pure_total (E := E) nfuel n s = (s', Ok b) -> table_ok (E := E) s ->
  kept (E := E) s s' /\ (b = true -> pure_node (E := E) (os_asm s') n).
Proof.
  intros H Hs. pose proof (node_is_pure_total_steps n s) as Hk. rewrite H in Hk. split; [done|].
  intros ->. apply st_bind_ok in H as (s1 & id & Ha & H).
  pose proof (on_asm_kept (E := E) _ (alloc_node_extends (E := E) n) s) as Hk1. rewrite Ha in Hk1.
  apply on_asm_ok, alloc_node_spec in Ha as (_ & Hid & _).
  apply (root_summary_ok nfuel id (fun _ e => mret (is_pure_total e))) in H
    as (s2 & e & f & Hasm & _ & Hf & [= <- He]); [|by apply Hk1].
  rewrite Hasm. eapply pure_id_node; [|exact Hid]. exists f. cbn in Hf. rewrite Hf.
  f_equal. by apply Z.eqb_eq.
Qed.

Lemma propagate_closure_steps n :
  steps prop_kept (propagate_closure (E := E) nfuel idx tpe tree n).
Proof.
  unfold propagate_closure. apply steps_bind; [apply _|apply on_opt_steps, node_is_pure_total_steps|].
  intros pure. apply steps_bind; [apply _|by intros p|]. intros _.
  apply steps_bind; [apply _|by intros p|]. intros []; [apply steps_ret, _|].
  apply on_opt_steps, substitute_steps.
Qed.

Lemma propagate_closure_refines n p p' n' :
  table_ok (E := E) (ps_opt p) -> substitutable (asm_of p) ->
  propagate_closure (E := E) nfuel idx tpe tree n p = (p', Ok n') -> R (asm_of p) n (asm_of p') n'.
Proof.
  intros Ht Hsub (p1 & pure & [H1 Hc1]%on_opt_ok & H)%st_bind_ok.
  apply node_is_pure_total_ok in H1 as [[Hext _] Hpure]; [|done].
  apply st_bind_ok in H as (p2 & [] & [= <-] & H).
  apply st_bind_ok in H as (p3 & c & [= <- <-] & H). cbn in H.
  destruct (cant_prop p1 || negb pure) eqn:Hc.
  - injection H as <- <-. eapply refines_extends; [|apply refines_refl, _|]; [exact Hext|reflexivity].
  - apply orb_false_iff in Hc as [_ Hc%negb_false_iff]. apply on_opt_ok in H as [H _]. cbn in H.
    eapply refines_extends; [exact Hext| |reflexivity].
    eapply substitution_refines; [by apply Hpure| |exact H].
    eapply substitutable_extends; [exact Hext|done].
Qed.

Lemma propagate_cell_refines p p' id id' :
  table_ok (E := E) (ps_opt p) -> substitutable (asm_of p) ->
  propagate_cell (E := E) nfuel idx tpe tree id p = (p', Ok id') ->
  prop_kept p p' /\ Rid (asm_of p) id (asm_of p') id'.
Proof.
  intros Ht Hsub (p1 & n & Hf & H)%st_bind_ok. injection Hf as <- Hn%get_node_ok.
  apply st_bind_ok in H as (p2 & n' & Hmap & Ha).
  pose proof (node_map_rec_steps (propagate_closure (E := E) nfuel idx tpe tree) prop_kept
                (fun A m => prop_on_asm m) propagate_closure_steps nfuel n p) as K1.
  rewrite Hmap in K1. cbn in K1.
  pose proof (prop_on_asm _ (alloc_node_extends (E := E) n') p2) as K2. rewrite Ha in K2. cbn in K2.
  split; [by etrans|]. apply on_asm_ok, alloc_node_spec in Ha as (He & Hid & _).
  intros k v (m & Hm & Hv)%bind_Some. cbn in Hn, Hm. rewrite Hn in Hm. injection Hm as <-.
  assert (R (asm_of p) n (asm_of p2) n') as HR.
  { eapply (map_refines _ prop_kept prop_kept_grows (fun A m => prop_on_asm m) propagate_closure_steps
              eq (alg env)) with (final := asm_of p2); [| |reflexivity|exact Hmap].
    - intros m vs ws u ->%list_eq_Forall2 Hu. eauto.
    - intros m p3 p4 m' [Hext Hk] Hm' _. eapply propagate_closure_refines; [by apply Hk| |exact Hm'].
      by eapply substitutable_extends. }
  destruct (HR k v Hv) as (k' & v' & Hv' & Hvv). exists k', v'. split; [|done].
  unfold denote_id. rewrite Hid. by eapply denote_mono.
Qed.

Lemma propagate_cells_refine ids p p' ids' :
  table_ok (E := E) (ps_opt p) -> substitutable (asm_of p) ->
  map_st (propagate_cell (E := E) nfuel idx tpe tree) ids p = (p', Ok ids') ->
  prop_kept p p' /\ Forall2 (fun a b => Rid (asm_of p) a (asm_of p') b) ids ids'.
Proof.
  revert p ids'. induction ids as [|id ids IH]; intros p ids' Ht Hsub; cbn [map_st].
  - intros [= <- <-]. split; [done|constructor].
  - intros (p1 & id' & H1 & H)%st_bind_ok. apply st_bind_ok in H as (p2 & l & H2 & [= <- <-]).
    apply propagate_cell_refines in H1 as [[E1 T1] HR]; [|done..].
    apply IH in H2 as [[E2 T2] HRs]; [|by apply T1|by eapply substitutable_extends].
    split; [split; [by etrans|auto]|]. constructor.
    + by eapply refines_id_extends; [reflexivity|exact HR|exact E2].
    + eapply list.Forall2_impl; [exact HRs|]. intros a b Hab.
      by eapply refines_id_extends; [exact E1|exact Hab|reflexivity].
Qed.

(** Two roots that differ in their operands only, refined. *)
Definition root_refines asm (id : Interned KRoot) asm' (id' : Interned KRoot) : Prop :=
  forall r, roots asm !! slot id = Some r ->
  exists ids, roots asm' !! slot id' = Some (overwrite_nodes r ids) /\
    Forall2 (fun a b => Rid asm a asm' b) (CILRoot.nodes_mut r) ids.

Lemma propagate_root_refines root s s' root' c :
  table_ok (E := E) s -> substitutable (os_asm s) ->
  propagate_root (E := E) nfuel root idx tpe tree s = (s', Ok (root', c)) ->
  kept (E := E) s s' /\ root_refines (os_asm s) root (os_asm s') root'.
Proof.
  intros Ht Hsub (s1 & r & Hf & H)%st_bind_ok. injection Hf as <- Hr%get_root_ok.
  apply st_bind_ok in H as (s2 & [ids cant] & Hcells & H).
  apply st_bind_ok in H as (s3 & root1 & Ha & [= <- <- <-]).
  destruct (map_st _ _ _) as [p o] eqn:Hmap. injection Hcells as <- Ho.
  apply bind_ok in Ho as (ids0 & -> & [= -> _]).
  apply propagate_cells_refine in Hmap as [K1 HR]; [|done..]. cbn in K1, HR.
  pose proof (on_asm_kept (E := E) _ (alloc_root_extends (E := E) (overwrite_nodes r ids)) (ps_opt p)) as K2.
  rewrite Ha in K2. cbn in K2. split; [by etrans|]. intros r0 Hr0. cbn in Hr. rewrite Hr in Hr0. injection Hr0 as <-.
  exists ids. apply on_asm_ok, alloc_root_spec in Ha as [[He _] Hid]. split; [exact Hid|].
  eapply list.Forall2_impl; [exact HR|]. intros a b Hab.
  by eapply refines_id_extends; [reflexivity|exact Hab|exact He].
Qed.
End substitution.

(** ** The operands of a root *)

Ltac lengths :=
  repeat match goal with
  | H : length ?l = _ |- _ => is_var l; destruct l as [|? l]; cbn in H; try lia; try (injection H as H)
  | H : length [] = _ |- _ => clear H
  end.

Lemma last_snoc_removelast {A} (l : list A) : l <> [] ->
  exists x, list.last l = Some x /\ l = removelast l ++ [x].
Proof.
  intros H. destruct (exists_last H) as (l' & x & ->). exists x.
  by rewrite last_snoc, removelast_last.
Qed.

Lemma overwrite_same r : overwrite_nodes r (CILRoot.nodes_mut r) = r.
Proof.
  destruct r; try done; cbn; [by destruct cond as [[]|]|].
  by rewrite last_snoc, removelast_last.
Qed.

Lemma nodes_overwrite r ids :
  length ids = length (CILRoot.nodes_mut r) -> CILRoot.nodes_mut (overwrite_nodes r ids) = ids.
Proof.
  destruct r; cbn [CILRoot.nodes_mut]; intros H;
    try (destruct cond as [[]|]; cbn in H); cbn in H; try (by lengths).
  assert (ids <> []) as Hne by (intros ->; rewrite length_app in H; cbn in H; lia).
  destruct (last_snoc_removelast ids Hne) as (x & Hx & Hids). cbn [overwrite_nodes]. rewrite Hx.
  by rewrite Hids at 2.
Qed.

Lemma overwrite_twice r ids ids' :
  length ids = length (CILRoot.nodes_mut r) -> length ids' = length (CILRoot.nodes_mut r) ->
  overwrite_nodes (overwrite_nodes r ids) ids' = overwrite_nodes r ids'.
Proof.
  destruct r; cbn [CILRoot.nodes_mut]; intros H H';
    try (destruct cond as [[]|]; cbn in H, H'); cbn in H, H'; try (by lengths).
  assert (ids <> []) as Hne by (intros ->; rewrite length_app in H; cbn in H; lia).
  assert (ids' <> []) as Hne' by (intros ->; rewrite length_app in H'; cbn in H'; lia).
  destruct (last_snoc_removelast ids Hne) as (x & Hx & _).
  destruct (last_snoc_removelast ids' Hne') as (x' & Hx' & _).
  cbn [overwrite_nodes]. rewrite Hx. cbn [overwrite_nodes]. by rewrite Hx'.
Qed.

(** ** Substitution of the root before *)

Section roots.
Context {E : Type} (nfuel : nat) (locals : list LocalDef) (sig : Interned KSig).

Lemma root_refines_refl env asm asm' id :
  extends asm asm' -> root_refines env asm id asm' id.
Proof.
  intros Hext r Hr. exists (CILRoot.nodes_mut r). rewrite overwrite_same.
  split; [destruct Hext; by eapply prefix_lookup_Some|].
  apply Forall_Forall2_diag, Forall_forall. intros a _ k v Hv. exists k, v.
  split; [by eapply denote_id_mono|done].
Qed.

Lemma root_refines_trans env asm asm1 asm' id id1 id' :
  root_refines env asm id asm1 id1 -> root_refines env asm1 id1 asm' id' ->
  root_refines env asm id asm' id'.
Proof.
  intros H1 H2 r Hr. destruct (H1 r Hr) as (ids & Hr1 & HF1).
  destruct (H2 _ Hr1) as (ids' & Hr2 & HF2).
  pose proof (Forall2_length HF1) as Hl1. rewrite nodes_overwrite in HF2 by done.
  pose proof (Forall2_length HF2) as Hl2. exists ids'.
  rewrite overwrite_twice in Hr2 by congruence. split; [done|].
  eapply list.Forall2_trans; [|exact HF1|exact HF2].
  intros a b c Hab Hbc k v (k1 & v1 & (k2 & v2 & ? & ?)%Hbc & ?)%Hab. exists k2, v2.
  split; [done|congruence].
Qed.

Lemma root_refines_kept env asm asm1 asm' id id' :
  extends asm asm1 -> root_refines env asm1 id asm' id' -> root_refines env asm id asm' id'.
Proof. intros Hext H. eapply root_refines_trans; [by apply root_refines_refl|exact H]. Qed.

Lemma is_candidate_ok tree pattern s s' b :
  is_candidate (E := E) nfuel tree pattern s = (s', Ok b) -> table_ok (E := E) s ->
  os_asm s' = os_asm s /\ table_ok (E := E) s' /\
  (b = true -> pure_id (E := E) (os_asm s) tree /\ forall m, below (os_asm s) tree m -> m <> pattern).
Proof.
  intros H Hs. apply root_summary_ok in H as (s1 & e & f & Hasm & Ht & Hf & H); [|done].
  destruct (is_pure_total e) eqn:He; cbn [negb] in H; [|by injection H as <- <-].
  apply Z.eqb_eq in He as ->. apply st_bind_ok in H as (s2 & elems & Hel & H).
  unfold lift in Hel. injection Hel as <- _.
  destruct (16 <? length elems)%nat; [by injection H as <- <-|].
  apply st_bind_ok in H as (s3 & m & Hm & [= <- <-]). unfold lift in Hm. injection Hm as <- Hm.
  split_and!; [done|done|]. intros ->%negb_true_iff. split; [by exists f|].
  by eapply mentions_false.
Qed.

(** A store to a local or argument, seen by the next root. *)
Lemma propagate_scalar_refines env0 env read root tree idx tpe s s' root' c v :
  table_ok (E := E) s -> load_of idx = Some read ->
  means_id (alg env0) (os_asm s) tree v -> touches_only read env0 env ->
  (forall ty, tpe (os_asm s) = Ok ty -> exists w, stored ty v = Some w /\ alg env read [] = Some w) ->
  propagate_scalar (E := E) nfuel root tree read idx tpe s = (s', Ok (root', c)) ->
  kept (E := E) s s' /\ root_refines env (os_asm s) root (os_asm s') root'.
Proof.
  intros Ht Hread Hv Htouch Hst (s1 & ok & Hc & H)%st_bind_ok.
  apply is_candidate_ok in Hc as (Hasm & Ht1 & Hok); [|done].
  assert (kept (E := E) s s1) as K1 by (split; [by rewrite Hasm|done]).
  assert (forall x, (s1, Ok (E := E) (root, x)) = (s', Ok (root', c)) ->
            kept (E := E) s s' /\ root_refines env (os_asm s) root (os_asm s') root') as Hskip.
  { intros x [= <- <- _]. split; [done|]. apply root_refines_refl, K1. }
  destruct ok; cbn in H; [|by eapply Hskip].
  destruct (Hok eq_refl) as [Hpure Hnot].
  apply st_bind_ok in H as (s2 & trivial & [= <- _] & H).
  apply st_bind_ok in H as (s3 & work & Hw & H).
  assert (s3 = s1) as -> by (destruct trivial; by injection Hw).
  destruct work; [by eapply Hskip|].
  apply st_bind_ok in H as (s4 & ty & [= <- Hty] & H).
  rewrite Hasm in Hty. destruct (Hst ty Hty) as (w & Hw1 & Hw2).
  apply (propagate_root_refines nfuel idx ty tree env) in H as [K2 HR]; [|done|].
  - split; [by etrans|]. by eapply root_refines_kept; [apply K1|].
  - rewrite Hasm. intros read' Hread'. rewrite Hread in Hread'. injection Hread' as <-.
    exists v, w. split; [|done]. eapply tree_keeps; [exact Htouch| |exact Hv].
    intros m Hm. split; [by eapply pure_below|by apply Hnot].
Qed.

(** Substitution for a field never finds a load to replace: field loads may throw. *)
Lemma propagate_to_field_refines env root field addr tpe tree s s' root' c :
  table_ok (E := E) s ->
  propagate_root (E := E) nfuel root (PropField field addr) tpe tree s = (s', Ok (root', c)) ->
  kept (E := E) s s' /\ root_refines env (os_asm s) root (os_asm s') root'.
Proof. intros Ht H. eapply propagate_root_refines; [done| |exact H]. done. Qed.

(** A pass over one root that keeps its meaning in an environment. *)
Definition keeps_root env (root : Interned KRoot) (m : ST OptState E (Interned KRoot * bool)) : Prop :=
  forall s s' root' c, table_ok (E := E) s -> m s = (s', Ok (root', c)) ->
  kept (E := E) s s' /\ root_refines env (os_asm s) root (os_asm s') root'.

Lemma keeps_ret env root c : keeps_root env root (mret (root, c)).
Proof. intros s s' root' c' _ [= <- <- <-]. split; [done|]. by apply root_refines_refl. Qed.

Lemma keeps_skip {A} env root (m : ST OptState E A) k :
  steps (kept (E := E)) m -> (forall a, keeps_root env root (k a)) -> keeps_root env root (m ≫= k).
Proof.
  intros Hm Hk s s' root' c Ht (s1 & a & H1 & H2)%st_bind_ok. specialize (Hm s).
  rewrite H1 in Hm. destruct (Hk a s1 s' root' c) as [K HR]; [by apply Hm|done|].
  split; [by etrans|]. by eapply root_refines_kept; [apply Hm|].
Qed.

Lemma keeps_then env root m (k : Interned KRoot * bool -> ST OptState E (Interned KRoot * bool)) :
  keeps_root env root m -> (forall root' c, keeps_root env root' (k (root', c))) ->
  keeps_root env root (m ≫= k).
Proof.
  intros Hm Hk s s' root' c Ht (s1 & [root1 c1] & H1 & H2)%st_bind_ok.
  destruct (Hm _ _ _ _ Ht H1) as [K1 R1]. destruct (Hk _ _ _ _ _ _ ltac:(by apply K1) H2) as [K2 R2].
  split; [by etrans|]. by eapply root_refines_trans.
Qed.

Lemma keeps_to_field env root field addr tpe tree :
  keeps_root env root (propagate_root (E := E) nfuel root (PropField field addr) tpe tree).
Proof. intros s s' root' c Ht H. by eapply propagate_to_field_refines. Qed.

Lemma is_candidate_steps tree pattern : steps (kept (E := E)) (is_candidate (E := E) nfuel tree pattern).
Proof.
  unfold is_candidate. apply (root_summary_kept nfuel tree (fun asm e =>
    if negb (is_pure_total e) then mret false
    else
      elems ← lift (elems_of_node nfuel asm tree);
      if (16 <? length elems)%nat then mret false
      else m ← lift (mentions nfuel asm tree pattern); mret (negb m))).
  intros asm e. steps_tac.
Qed.

Lemma propagate_field_keeps env root field addr tree :
  keeps_root env root (propagate_field (E := E) nfuel root field addr tree).
Proof.
  unfold propagate_field. apply keeps_skip; [apply fetch_node_kept|]. intros a.
  apply keeps_skip; [apply is_candidate_steps|]. intros [|]; cbn [negb]; [|apply keeps_ret].
  apply keeps_skip.
  { destruct a; try (apply steps_ret, _). apply steps_bind; [apply _|steps_tac|].
    intros. apply steps_reads, _. }
  intros [|]; [apply keeps_ret|]. apply keeps_skip; [apply steps_reads, _|]. intros f.
  apply keeps_then; [apply keeps_to_field|]. intros root' c. destruct a; try apply keeps_ret.
  unfold propagate_by_value. apply keeps_skip; [steps_tac|]. intros ?.
  apply keeps_skip; [apply steps_reads, _|]. intros [|]; [apply keeps_ret|].
  apply keeps_skip; [apply steps_reads, _|]. intros. apply keeps_to_field.
Qed.

(** ** Blocks *)

(** What a root does: its form without operands, and their values. *)
Definition action : Type := CILRoot.t * list value.
Definition root_skeleton (r : CILRoot.t) : CILRoot.t :=
  overwrite_nodes r ((fun _ => no_id) <$> CILRoot.nodes_mut r).
Definition acts (env : Env) (asm : Assembly) (r : CILRoot.t) (a : action) : Prop :=
  fst a = root_skeleton r /\ Forall2 (means_id (alg env) asm) (CILRoot.nodes_mut r) (snd a).

(** How actions change the environment: stores to locals and arguments keep what was stored, at
    the type of the location, and touch nothing else that pure operations read; debug information
    changes nothing.  Any other action may change anything. *)
Record exec_ok (final : Assembly) (exec : Env -> action -> Env -> Prop) : Prop := {
  exec_st_loc env loc v env' :
    exec env (CILRoot.StLoc loc no_id, [v]) env' ->
    exists name t ty w, get_u32 locals loc = Some (name, t) /\ types final !! slot t = Some ty /\
      stored ty v = Some w /\ e_local env' loc = Some w /\ touches_only (CILNode.LdLoc loc) env env';
  exec_st_arg env arg v env' :
    exec env (CILRoot.StArg arg no_id, [v]) env' ->
    exists s ty w, sigs final !! slot sig = Some s /\ get_u32 (inputs s) arg = Some ty /\
      stored ty v = Some w /\ e_arg env' arg = Some w /\ touches_only (CILNode.LdArg arg) env env';
  exec_debug env a b c d f env' :
    exec env (CILRoot.SourceFileInfo a b c d f, []) env' -> env' = env }.

(** The first actions of a straight run over the roots of a block. *)
Inductive block_run (exec : Env -> action -> Env -> Prop) (asm : Assembly)
    : Env -> list (Interned KRoot) -> list action -> Env -> Prop :=
| run_stops env l : block_run exec asm env l [] env
| run_root env id r l a env1 acts_ env' :
    roots asm !! slot id = Some r -> acts env asm r a -> exec env a env1 ->
    block_run exec asm env1 l acts_ env' -> block_run exec asm env (id :: l) (a :: acts_) env'.

Lemma acts_extends env asm asm' r a : extends asm asm' -> acts env asm r a -> acts env asm' r a.
Proof.
  intros Hext [Ha Hv]. split; [done|]. eapply list.Forall2_impl; [exact Hv|].
  intros ?? Hx. by eapply Mid_extends.
Qed.

(** A refined root acts alike. *)
Lemma root_refines_acts env asm id asm' id' r a :
  root_refines env asm id asm' id' -> roots asm !! slot id = Some r -> acts env asm r a ->
  exists r', roots asm' !! slot id' = Some r' /\ acts env asm' r' a.
Proof.
  intros H Hr [Ha Hv]. destruct (H r Hr) as (ids & Hr' & HF).
  pose proof (Forall2_length HF) as Hl.
  exists (overwrite_nodes r ids). split; [done|]. unfold acts, root_skeleton.
  rewrite nodes_overwrite by done. split.
  - rewrite Ha. unfold root_skeleton. rewrite overwrite_twice by (rewrite ?length_fmap; done).
    f_equal. clear -Hl. revert Hl. generalize (CILRoot.nodes_mut r). intros l. revert ids.
    induction l as [|x l IH]; intros [|y ids]; cbn; intros; try done. f_equal. apply IH. lia.
  - clear -HF Hv. revert Hv. generalize (snd a). induction HF as [|x y l l' Hxy _ IH]; intros vs.
    + intros ->%Forall2_nil_inv_l. constructor.
    + intros (v & vs' & [k Hk]%means_id_iff & Hvs & ->)%Forall2_cons_inv_l. constructor; [|by apply IH].
      apply means_id_iff. destruct (Hxy _ _ Hk) as (k' & ? & ? & <-). eauto.
Qed.

Lemma propagate_root_steps root idx tpe tree :
  steps (kept (E := E)) (propagate_root (E := E) nfuel root idx tpe tree).
Proof.
  apply steps_bind; [apply _|steps_tac|]. intros r. apply steps_bind; [apply _| |].
  - intros s.
    pose proof (steps_map_st (prop_kept (E := E)) (propagate_cell (E := E) nfuel idx tpe tree)
                  (CILRoot.nodes_mut r)) as H.
    assert (forall x, steps (prop_kept (E := E)) (propagate_cell (E := E) nfuel idx tpe tree x)) as Hc.
    { intros x. apply steps_bind; [apply _|apply steps_reads, _|].
      intros n. apply steps_bind; [apply _| |].
      - apply (node_map_rec_steps _ prop_kept (fun A m => prop_on_asm m)), propagate_closure_steps.
      - intros m. apply prop_on_asm, alloc_node_extends. }
    specialize (H Hc (mk_PropState s false)). by destruct (map_st _ _ _).
  - intros [ids cant]. steps_tac.
Qed.

Lemma propagate_scalar_steps root tree read idx tpe :
  steps (kept (E := E)) (propagate_scalar (E := E) nfuel root tree read idx tpe).
Proof.
  apply steps_bind; [apply _|apply is_candidate_steps|]. intros [|]; cbn [negb]; [|apply steps_ret, _].
  apply steps_bind; [apply _|apply steps_reads, _|]. intros trivial. apply steps_bind; [apply _| |].
  { destruct trivial; [apply steps_ret, _|apply steps_reads, _]. }
  intros [|]; [apply steps_ret, _|]. apply steps_bind; [apply _|apply steps_reads, _|].
  intros. apply propagate_root_steps.
Qed.

Lemma propagate_roots_refines final exec env0 env root prev a s s' root' c :
  exec_ok final exec -> table_ok (E := E) s -> acts env0 (os_asm s) prev a -> exec env0 a env ->
  propagate_roots (E := E) nfuel locals sig root prev s = (s', Ok (root', c)) ->
  extends (os_asm s') final ->
  kept (E := E) s s' /\ root_refines env (os_asm s) root (os_asm s') root'.
Proof.
  intros Hexec Ht [Hsk Hv] Hx H Hfin. destruct a as [sk vs]. cbn in Hsk, Hv. subst sk.
  destruct prev; try (by eapply keeps_ret in H); cbn in Hv, H.
  - apply Forall2_cons_inv_l in Hv as (v & ? & Hv & ->%Forall2_nil_inv_l & ->).
    pose proof (propagate_scalar_steps root node (CILNode.LdLoc loc) (PropLocal loc)
      (fun asm => l ← unwrap (get_u32 locals loc); get_type asm (snd l)) s) as [Hext _]. rewrite H in Hext.
    destruct (exec_st_loc _ _ Hexec _ _ _ _ Hx) as (name & t & ty & w & Hl & Hty & Hst & Hw & Htouch).
    eapply (propagate_scalar_refines env0 env (CILNode.LdLoc loc) root node (PropLocal loc));
      [done|done|exact Hv|exact Htouch| |exact H].
    rewrite Hl. cbn. intros ty' Hty'%arena_get_ok. exists w. split; [|done].
    assert (extends (os_asm s) final) as [] by (by etrans).
    eapply prefix_lookup_Some in Hty'; [|done]. congruence.
  - apply Forall2_cons_inv_l in Hv as (v & ? & Hv & ->%Forall2_nil_inv_l & ->).
    pose proof (propagate_scalar_steps root node (CILNode.LdArg arg) (PropArg arg)
      (fun asm => s ← get_sig asm sig; unwrap (get_u32 (inputs s) arg)) s) as [Hext _]. rewrite H in Hext.
    destruct (exec_st_arg _ _ Hexec _ _ _ _ Hx) as (sg & ty & w & Hs & Hty & Hst & Hw & Htouch).
    eapply (propagate_scalar_refines env0 env (CILNode.LdArg arg) root node (PropArg arg));
      [done|done|exact Hv|exact Htouch| |exact H].
    intros ty' (sg' & Hsg'%arena_get_ok & Hty')%bind_ok. exists w. split; [|done].
    assert (extends (os_asm s) final) as [] by (by etrans).
    eapply prefix_lookup_Some in Hsg'; [|done]. rewrite Hs in Hsg'. injection Hsg' as <-.
    rewrite Hty in Hty'. by injection Hty' as <-.
  - eapply propagate_field_keeps; [done|exact H].
Qed.

Lemma propagate_roots_steps root prev :
  steps (kept (E := E)) (propagate_roots (E := E) nfuel locals sig root prev).
Proof.
  destruct prev; try (apply steps_ret, _); try apply propagate_scalar_steps.
  unfold propagate_roots, propagate_field, propagate_by_value.
  apply steps_bind; [apply _|apply fetch_node_kept|]. intros a.
  apply steps_bind; [apply _|apply is_candidate_steps|]. intros [|]; cbn [negb]; [|apply steps_ret, _].
  pose proof propagate_root_steps as Hr. apply steps_bind; [apply _| |].
  { destruct a; steps_tac. }
  intros [|]; [apply steps_ret, _|]. steps_tac; apply Hr.
Qed.

Lemma block_run_extends exec asm asm' env l acts_ env' :
  extends asm asm' -> block_run exec asm env l acts_ env' -> block_run exec asm' env l acts_ env'.
Proof.
  intros Hext H. induction H as [|env id r l a env1 acts_ env' Hr Ha Hx _ IH]; [apply run_stops|].
  eapply run_root; [|by eapply acts_extends|done|done]. destruct Hext. by eapply prefix_lookup_Some.
Qed.

Lemma local_opt_loop_steps prev l : steps (kept (E := E)) (local_opt_loop (E := E) nfuel locals sig prev l).
Proof.
  revert prev. induction l as [|[[] root] l IH]; intros prev; cbn [local_opt_loop]; [apply steps_ret, _|..].
  - apply steps_bind; [apply _|apply IH|]. intros. apply steps_ret, _.
  - apply steps_bind; [apply _| |].
    + destruct prev; [|apply steps_ret, _]. apply steps_bind; [apply _|apply fetch_root_kept|]. intros r.
      apply steps_bind; [apply _|apply propagate_roots_steps|]. intros [? ?]. apply steps_ret, _.
    + intros root'. apply steps_bind; [apply _|apply IH|]. intros. apply steps_ret, _.
Qed.

(** The environment was reached by the action of the root before, if there is one. *)
Definition follows exec asm (prev : option (Interned KRoot)) (env : Env) : Prop :=
  match prev with
  | None => True
  | Some p => exists r a env0, roots asm !! slot p = Some r /\ acts env0 asm r a /\ exec env0 a env
  end.

Lemma substitute_here final exec prev root s s' root' env :
  exec_ok final exec -> table_ok (E := E) s -> follows exec (os_asm s) prev env ->
  (match prev with
   | None => mret root
   | Some prev =>
       prev_root ← fetch_root prev;
       '(root, _) ← propagate_roots (E := E) nfuel locals sig root prev_root;
       mret root
   end : ST OptState E (Interned KRoot)) s = (s', Ok root') ->
  extends (os_asm s') final ->
  root_refines env (os_asm s) root (os_asm s') root'.
Proof.
  intros Hexec Ht Hf H Hfin. destruct prev as [p|]; [|injection H as <- <-; by apply root_refines_refl].
  destruct Hf as (r & a & env0 & Hr & Ha & Hx). apply st_bind_ok in H as (s1 & r' & [= <- Hr'%get_root_ok] & H).
  cbn in Hr'. rewrite Hr in Hr'. injection Hr' as <-.
  apply st_bind_ok in H as (s2 & [root1 c] & H & [= <- <-]).
  by eapply (propagate_roots_refines final exec env0 env root r a) in H as [_ HR].
Qed.

Lemma local_opt_loop_keeps final exec prev l s s' l' env acts_ env' :
  exec_ok final exec -> table_ok (E := E) s -> extends (os_asm s') final ->
  Forall (fun p => exists r, roots (os_asm s) !! slot (snd p) = Some r /\ is_source_info r = fst p) l ->
  local_opt_loop (E := E) nfuel locals sig prev l s = (s', Ok l') ->
  follows exec (os_asm s) prev env ->
  block_run exec (os_asm s) env (snd <$> l) acts_ env' -> block_run exec (os_asm s') env l' acts_ env'.
Proof.
  intros Hexec Ht Hfin. revert prev s Ht l' env acts_.
  induction l as [|[sfi root] l IH]; intros prev s Ht l' env acts_ Hl; cbn [local_opt_loop].
  - intros [= <- <-] _. cbn. by inversion 1; subst; constructor.
  - apply list.Forall_cons in Hl as [(r & Hr & Hsfi) Hl]. cbn in Hr, Hsfi. destruct sfi.
    + intros (s1 & rest & H & [= <- <-])%st_bind_ok Hf Hrun.
      pose proof (local_opt_loop_steps prev l s) as [Hext _]. rewrite H in Hext. cbn in Hext.
      inversion Hrun as [|? ? r0 ? a env1 acts0 ? Hr0 Ha Hx Hrest]; subst; [apply run_stops|].
      rewrite Hr in Hr0. injection Hr0 as <-. destruct r; try done. destruct a as [sk vs].
      destruct Ha as [Hsk Hvs]. cbn in Hsk, Hvs. apply Forall2_nil_inv_l in Hvs as ->. subst sk.
      rewrite (exec_debug _ _ Hexec _ _ _ _ _ _ _ Hx) in Hrest.
      eapply run_root; [destruct Hext; by eapply prefix_lookup_Some|by split|exact Hx|].
      rewrite (exec_debug _ _ Hexec _ _ _ _ _ _ _ Hx). by eapply IH.
    + intros (s1 & root' & H1 & H)%st_bind_ok Hf Hrun.
      apply st_bind_ok in H as (s2 & rest & H & [= <- <-]).
      pose proof (local_opt_loop_steps (Some root') l s1) as [Hext2 _]. rewrite H in Hext2. cbn in Hext2.
      pose proof (local_opt_loop_steps prev ((false, root) :: []) s) as K.
      cbn [local_opt_loop] in K. unfold mbind at 1, ST_bind at 1 in K. rewrite H1 in K. destruct K as [Hext1 Ht1].
      eapply (substitute_here final exec prev root s s1 root' env) in H1 as HR; [|done|done|done|by etrans].
      inversion Hrun as [|? ? r0 ? a env1 acts0 ? Hr0 Ha Hx Hrest]; subst; [apply run_stops|].
      destruct (root_refines_acts _ _ _ _ _ _ _ HR Hr0 Ha) as (r' & Hr' & Ha').
      eapply run_root; [destruct Hext2; by eapply prefix_lookup_Some|by eapply acts_extends|exact Hx|].
      cbn in Hext1, Ht1. eapply (IH (Some root') s1); [by apply Ht1| |exact H| |].
      * eapply list.Forall_impl; [exact Hl|]. intros p (r1 & Hr1 & ?). exists r1. split; [|done].
        destruct Hext1. by eapply prefix_lookup_Some.
      * by exists r', a, env.
      * by eapply block_run_extends.
Qed.

(** C5: over every straight run of the block, forward substitution keeps the sequence of actions,
    the values of their operands, and the environments they lead through: a load of a local or
    argument is replaced only by an expression that has, at that point, the value the location
    holds. *)
Theorem local_opt_keeps_runs final exec b s s' b' env acts_ env' :
  exec_ok final exec -> table_ok (E := E) s ->
  local_opt (E := E) nfuel locals sig b s = (s', Ok b') -> extends (os_asm s') final ->
  block_run exec (os_asm s) env (bb_roots b) acts_ env' ->
  block_run exec (os_asm s') env (bb_roots b') acts_ env'.
Proof.
  intros Hexec Ht (s1 & flagged & [= <- Hfl] & H)%st_bind_ok Hfin Hrun.
  apply st_bind_ok in H as (s2 & l & H & [= <- <-]). cbn.
  apply map_outcome_Forall2 in Hfl.
  assert (bb_roots b = snd <$> flagged /\ Forall (fun p => exists r,
            roots (os_asm s) !! slot (snd p) = Some r /\ is_source_info r = fst p) flagged) as [Hb Hall].
  { clear -Hfl. induction Hfl as [|id p l f Hp _ [IH1 IH2]]; [done|].
    apply bind_ok in Hp as (r & Hr%get_root_ok & [= <-]). cbn. split; [by f_equal|].
    constructor; [by exists r|done]. }
  rewrite Hb in Hrun. by eapply (local_opt_loop_keeps final exec None flagged).
Qed.
End roots.

(** ** Witness *)

(** [loc0 = arg0 + 5; (debug info); return loc0]. *)
Definition forward_sample : Assembly :=
  set_roots (set_nodes (set_types empty_assembly [Ty.Int Int.I32])
    [CILNode.LdArg 0; CILNode.Const (Const.I32 5); CILNode.BinOp 1%positive 2%positive BinOp.Add;
     CILNode.LdLoc 0])
    [CILRoot.StLoc 0 3%positive; CILRoot.SourceFileInfo 1 1 1 1 1%positive; CILRoot.Ret 4%positive].

Definition forward_locals : list LocalDef := [(None, 1%positive)].
Definition forward_block : BasicBlock := mk_block [1%positive; 2%positive; 3%positive] 0 None None.

Definition set_local (env : Env) (loc : Z) (v : value) : Env :=
  mk_Env (fun l => if l =? loc then Some v else e_local env l) (e_arg env) (e_raw env) (e_proj env)
    (e_sizeof env) (e_aggregate env) (e_call env) (e_other env).

Definition forward_env : Env :=
  mk_Env (fun _ => None) (fun a => if a =? 0 then Some (VInt Int.I32 7) else None) (fun _ => None)
    (fun _ _ => None) (fun _ => None) (fun _ => false) (fun _ _ => None) (fun _ _ => None).

(** Stores of 32-bit integers to the local; returns and debug information leave the environment. *)
Definition forward_exec (env : Env) (a : action) (env' : Env) : Prop :=
  match a with
  | (CILRoot.StLoc loc _, [VInt Int.I32 z]) =>
      loc = 0 /\ int_in Int.I32 z /\ env' = set_local env 0 (VInt Int.I32 z)
  | (CILRoot.Ret _, _) | (CILRoot.SourceFileInfo _ _ _ _ _, _) => env' = env
  | _ => False
  end.

Definition forward_result : OptState * outcome unit BasicBlock :=
  local_opt 40 forward_locals 1%positive forward_block (mk_OptState forward_sample 10 ∅ ∅).

Definition forward_asm : Assembly := os_asm (fst forward_result).

Lemma forward_exec_ok : exec_ok forward_locals 1%positive forward_asm forward_exec.
Proof.
  split.
  - intros env loc v env'. destruct v as [[] z| | | |]; cbn; try done. intros (-> & Hz & ->).
    exists None, 1%positive, (Ty.Int Int.I32), (VInt Int.I32 z). split_and!; [done|done| |done|].
    + unfold stored, conforms. by rewrite !bool_decide_true.
    + split; try done. intros l Hl. cbn. destruct (Z.eqb_spec l 0); congruence.
  - by intros env arg v env'.
  - intros env a b c d f env' H. exact H.
Qed.

Lemma local_opt_keeps_runs_witness :
  snd forward_result = Ok (mk_block [1%positive; 2%positive; 4%positive] 0 None None) /\
  roots forward_asm !! 3%nat = Some (CILRoot.Ret 3%positive) /\
  block_run forward_exec forward_asm forward_env [1%positive; 2%positive; 4%positive]
    [(CILRoot.StLoc 0 no_id, [VInt Int.I32 12]); (CILRoot.SourceFileInfo 1 1 1 1 1%positive, []);
     (CILRoot.Ret no_id, [VInt Int.I32 12])]
    (set_local forward_env 0 (VInt Int.I32 12)).
Proof.
  split; [vm_compute; reflexivity|]. split; [vm_compute; reflexivity|].
  apply (local_opt_keeps_runs (E := unit) 40 forward_locals 1%positive forward_asm forward_exec
    forward_block (mk_OptState forward_sample 10 ∅ ∅) (fst forward_result)
    (mk_block [1%positive; 2%positive; 4%positive] 0 None None) forward_env).
  - exact forward_exec_ok.
  - intros n e H. discriminate H.
  - vm_compute. reflexivity.
  - reflexivity.
  - eapply run_root; [reflexivity| |split; [reflexivity|split; [by_decide|reflexivity]]|].
    { split; [reflexivity|]. constructor; [|constructor]. apply means_id_iff. exists 3%nat.
      vm_compute. reflexivity. }
    eapply run_root; [reflexivity|by split|reflexivity|].
    eapply run_root; [reflexivity| |reflexivity|apply run_stops].
    split; [reflexivity|]. constructor; [|constructor]. apply means_id_iff. exists 1%nat.
    vm_compute. reflexivity.
Defined.
