(* ===== verification/Linear.v ===== *)
(** * Linearization keeps runs

    [linearize_blocks] terminates within the roots it may visit, and the single block it builds has
    every completed run of the blocks it replaces, whether it leaves the method or throws. *)

From S2P Require Import Prelude Interner Types IR Arenas Walk Block BlockTheory Method MethodTheory.
From S2P Require Import DeadBlocks Effects Opt Passes.

Section linear.
Context {E : Type} (is_const : BranchCond.t -> bool) (asm : Assembly) (blocks : list BasicBlock).

Local Notation run dec := (run dec is_const asm).

Definition unbroken (root : Interned KRoot) : Prop := breaks_line (E := E) asm root = Ok false.

(** ** Ids *)

Lemma block_with_id_by_id id b :
  NoDup (block_id <$> blocks) -> block_with_id blocks id = Some b -> by_id blocks id = Some b /\ block_id b = id.
Proof.
  unfold block_with_id, by_id. intros Hnd Hf. revert Hnd Hf.
  induction blocks as [|c l IH]; cbn; [done|]. intros [Hc Hnd]%list.NoDup_cons.
  destruct (Z.eqb_spec (block_id c) id) as [Hid|Hid].
  - intros [= <-]. split; [|done]. enough (List.filter (fun b => block_id b =? id) l = []) as -> by done.
    clear -Hc Hid. induction l as [|d l IH]; cbn; [done|]. cbn in Hc.
    destruct (Z.eqb_spec (block_id d) id); [set_solver|]. apply IH. set_solver.
  - by apply IH.
Qed.

(** ** One block *)

(** How a block's roots run, against the roots the walk collected from them. *)
Definition follows_line (l res : list (Interned KRoot)) (e : LineEnd) : Prop :=
  match e with
  | LineCapped | LineMissing => True
  | LineEnds => exists ev ex, (forall dec, run dec l = Some (ev, ex) /\ run dec res = Some (ev, ex)) /\
      forall p, leads_to p ex = None
  | LineJumps next => exists ev ex, (forall dec, run dec l = Some (ev, ex)) /\
      ((exists t s, ex = Jump t s /\ block_with_id blocks (blockid_from_jump t s) = Some next /\
         forall dec tail, run dec (res ++ tail) =
           '(ev', e') ← run dec tail; Some (ev ++ ev', e')) \/
       ((forall p, leads_to p ex = None) /\ forall dec tail, run dec (res ++ tail) = Some (ev, ex)))
  end.

Lemma follows_cons root r l res e :
  roots asm !! slot root = Some r -> unbroken root ->
  match r with CILRoot.Branch _ _ _ => False | _ => True end ->
  follows_line l res e -> follows_line (root :: l) (root :: res) e.
Proof.
  unfold unbroken, breaks_line. intros Hr Hb Hbr.
  rewrite (proj2 (get_root_ok asm root r) Hr) in Hb. cbn in Hb. destruct (is_exit r) eqn:Hex.
  - assert (forall p, leads_to p (Leave r) = None) as Hp by (intros []; by destruct r).
    assert (forall dec tail, run dec (root :: tail) = Some ([], Leave r)) as Hrun.
    { intros dec tail. cbn. rewrite Hr. by destruct r. }
    destruct e as [| | |next]; [done|done|..]; intros _; exists [], (Leave r); cbn [app]; auto.
  - assert (forall dec tail, run dec (root :: tail) =
              '(ev, e) ← run dec tail; Some (Executed r :: ev, e)) as Hrun.
    { intros dec tail. cbn. rewrite Hr. by destruct r. }
    destruct e as [| | |next]; [done|done|..].
    + intros (ev & ex & H & ?). exists (Executed r :: ev), ex. split; [|done]. intros dec.
      rewrite !Hrun. destruct (H dec) as [-> ->]. done.
    + intros (ev & ex & H & Hcase). exists (Executed r :: ev), ex.
      split; [intros dec; by rewrite Hrun, H|].
      destruct Hcase as [(t & s & -> & Hn & Ht)|[Hp Ht]]; [left; exists t, s|right];
        (split_and!; [done..|]); intros dec tail; cbn [app]; rewrite Hrun, Ht; [|done].
      by destruct (run dec tail) as [[]|].
Qed.

Lemma line_of_block_follows ic l res ic' e :
  Forall unbroken l -> line_of_block (E := E) blocks asm ic l = Ok (res, ic', e) -> follows_line l res e.
Proof.
  revert ic res ic' e. induction l as [|root l IH]; intros ic res ic' e Hl; cbn [line_of_block].
  - intros [= <- <- <-]. exists [], FallThrough. split; [done|by intros []].
  - apply list.Forall_cons in Hl as [Hb Hl].
    destruct (2000 <? S ic)%nat; [by intros [= <- <- <-]|].
    intros (r & Hr%get_root_ok & H)%bind_ok.
    assert (match r with CILRoot.Branch _ _ _ => False | _ => True end ->
      ('(res, ic, e) ← line_of_block (E := E) blocks asm (S ic) l; Ok (root :: res, ic, e)) = Ok (res, ic', e) ->
      follows_line (root :: l) res e) as Hcons.
    { intros Hn ([[res0 ic0] e0] & H0 & [= <- <- <-])%bind_ok. apply (follows_cons _ r); eauto. }
    destruct r; try (by apply Hcons). injection H as <- <- <-.
    unfold unbroken, breaks_line in Hb. rewrite (proj2 (get_root_ok asm root _) Hr) in Hb.
    destruct cond; [done|]. destruct (block_with_id _ _) as [next|] eqn:Hn; [|done].
    exists [], (Jump target sub_target). split; [intros dec; cbn; by rewrite Hr|].
    left. exists target, sub_target. split_and!; [done|done|].
    intros dec tail. cbn. by destruct (run dec tail) as [[]|].
Qed.

(** The counter grows with every jump, and never passes the cap without ending the walk. *)
Lemma line_of_block_count ic l res ic' e :
  (ic <= 2000)%nat -> line_of_block (E := E) blocks asm ic l = Ok (res, ic', e) ->
  match e with LineJumps _ => (ic < ic' <= 2000)%nat | _ => True end.
Proof.
  revert ic res ic' e. induction l as [|root l IH]; intros ic res ic' e Hic; cbn [line_of_block].
  - by intros [= <- <- <-].
  - destruct (Nat.ltb_spec 2000 (S ic)) as [|Hle]; [by intros [= <- <- <-]|].
    intros (r & _ & H)%bind_ok.
    assert (('(res, ic, e) ← line_of_block (E := E) blocks asm (S ic) l; Ok (root :: res, ic, e)) =
              Ok (res, ic', e) -> match e with LineJumps _ => (ic < ic' <= 2000)%nat | _ => True end) as Hcons.
    { intros ([[res0 ic0] e0] & H0%IH & [= <- <- <-])%bind_ok; [|lia]. destruct e0; try done. lia. }
    destruct r; try (by apply Hcons). injection H as <- <- <-. destruct (block_with_id _ _); [lia|done].
Qed.

Lemma line_of_block_fuelled ic l : fuelled (line_of_block (E := E) blocks asm ic l).
Proof.
  revert ic. induction l as [|root l IH]; intros ic; cbn [line_of_block]; [done|].
  destruct (2000 <? S ic)%nat; [done|]. apply fuelled_bind; [apply fuelled_unwrap|]. intros r _.
  assert (fuelled ('(res, ic, e) ← line_of_block (E := E) blocks asm (S ic) l; Ok (root :: res, ic, e))) as H.
  { apply fuelled_bind; [apply IH|]. by intros [[]]. }
  by destruct r.
Qed.

Lemma line_loop_fuelled fuel ic curr :
  (ic <= 2000)%nat -> (2001 < fuel + ic)%nat -> fuelled (line_loop (E := E) fuel blocks asm ic curr).
Proof.
  revert ic curr. induction fuel as [|fuel IH]; intros ic curr Hic Hf; [lia|]. cbn [line_loop].
  apply fuelled_bind; [apply line_of_block_fuelled|]. intros [[res ic'] e] H.
  apply line_of_block_count in H; [|done]. destruct e; try done.
  apply fuelled_bind; [apply IH; lia|]. done.
Qed.
End linear.

(** ** Whole runs *)

Section runs.
Context {E : Type} (is_const : BranchCond.t -> bool) (oracle : nat -> Choice) (asm : Assembly).
Context (blocks : list BasicBlock) (locals : list LocalDef).
Context (Hnd : NoDup (block_id <$> blocks)).
Context (Hplain : forall b, b ∈ blocks -> handler b = None).
Context (Hunbroken : forall b, b ∈ blocks -> Forall (unbroken (E := E) asm) (bb_roots b)).

Local Notation run dec := (run dec is_const asm).
Local Notation trace n := (trace is_const oracle n asm (MethodBody blocks locals)).

(** A completed run that ends in a block of [ev] events, or throws within them. *)
Definition completes (ev : list BlockEvent) (ex : BlockExit) (x : list BlockEvent * Ending) : Prop :=
  x = (ev, Left ex) \/ exists k, x = (take k ev, Unwound).

Lemma catches_none id : catches (MethodBody blocks locals) (Normal id) = None.
Proof.
  cbn. destruct (by_id blocks id) as [b|] eqn:Hb; [|done]. cbn.
  by rewrite Hplain by by apply by_id_elem in Hb as [].
Qed.

(** One block of a run, which then throws, leaves, or goes on. *)
Lemma trace_block n curr ev ex x :
  by_id blocks (block_id curr) = Some curr -> (forall dec, run dec (bb_roots curr) = Some (ev, ex)) ->
  trace (S n) (Normal (block_id curr)) = Some x ->
  (exists k, x = (take k ev, Unwound)) \/
  (leads_to (Normal (block_id curr)) ex = None /\ x = (ev, Left ex)) \/
  (exists q ev' r, leads_to (Normal (block_id curr)) ex = Some q /\ trace n q = Some (ev', r) /\
     x = (ev ++ ev', r)).
Proof.
  intros Hid Hrun. cbn [DeadBlocks.trace place_roots]. rewrite Hid. cbn [fmap option_fmap option_map mbind option_bind].
  rewrite Hrun. cbn [mbind option_bind]. rewrite catches_none. destruct (ch_throw _) as [k|].
  - intros [= <-]. left. by exists k.
  - destruct (leads_to _ ex) as [q|] eqn:Hq.
    + intros ([ev' r] & Ht & [= <-])%bind_Some. right. right. by exists q, ev', r.
    + intros [= <-]. right. by left.
Qed.

Lemma line_loop_runs fuel ic curr res :
  curr ∈ blocks -> by_id blocks (block_id curr) = Some curr ->
  line_loop (E := E) fuel blocks asm ic curr = Ok (Some res) ->
  exists ev ex, (forall dec, run dec res = Some (ev, ex)) /\ (forall id, leads_to (Normal id) ex = None) /\
    forall n x, trace n (Normal (block_id curr)) = Some x -> (forall p, snd x <> Running p) -> completes ev ex x.
Proof.
  revert ic curr res. induction fuel as [|fuel IH]; intros ic curr res Hin Hid; [done|]. cbn [line_loop].
  intros ([[here ic'] e] & Hb & H)%bind_ok.
  apply (line_of_block_follows is_const) in Hb; [|by apply Hunbroken].
  destruct e as [| | |next]; [done|done|..]; cbn in Hb.
  - injection H as <-. destruct Hb as (ev & ex & Hrun & Hout). exists ev, ex.
    split_and!; [apply Hrun|intros; apply Hout|]. intros [|n] x Hx Hr; [by injection Hx as <-; cbn in Hr; destruct (Hr _ eq_refl)|].
    destruct (trace_block n curr ev ex x) as [?|[[_ ->]|(q & ? & ? & Hq & _)]]; [done|apply Hrun|done|by right|by left|].
    by rewrite Hout in Hq.
  - apply bind_ok in H as ([tail|] & Hloop & [= <-]).
    destruct Hb as (ev & ex & Hrun & [(t & s & -> & Hn & Happ)|[Hout Happ]]).
    + apply block_with_id_by_id in Hn as [Hn Hnid]; [|done].
      assert (next ∈ blocks /\ by_id blocks (block_id next) = Some next) as [Hnin Hnext].
      { split; [by apply by_id_elem in Hn as []|by rewrite Hnid]. }
      destruct (IH _ _ _ Hnin Hnext Hloop) as (ev2 & ex2 & Hrun2 & Hout2 & Htr).
      exists (ev ++ ev2), ex2. split_and!; [intros dec; by rewrite Happ, Hrun2|done|].
      intros [|n] x Hx Hr; [by injection Hx as <-; cbn in Hr; destruct (Hr _ eq_refl)|].
      destruct (trace_block n curr ev (Jump t s) x) as [[k ->]|[[Hl _]|(q & ev' & r & [= <-] & Ht & ->)]]; try done.
      * right. exists (k `min` length ev)%nat. by rewrite take_app_le, <- take_take, (firstn_all ev) by lia.
      * rewrite <- Hnid in Ht. destruct (Htr _ _ Ht) as [[= -> ->]|[k [= -> ->]]]; [done|by left|].
        right. exists (length ev + k)%nat. by rewrite take_app_add.
    + exists ev, ex. split_and!; [intros dec; apply Happ|intros; apply Hout|].
      intros [|n] x Hx Hr; [by injection Hx as <-; cbn in Hr; destruct (Hr _ eq_refl)|].
      destruct (trace_block n curr ev ex x) as [?|[[_ ->]|(q & ? & ? & Hq & _)]]; [done..|by right|by left|].
      by rewrite Hout in Hq.
Qed.
End runs.

(** ** Properties *)

(** The walk of [linearize_blocks] ends: two thousand roots bound its jumps. *)
Lemma linearize_blocks_terminates {E} blocks asm :
  fuelled (linearize_blocks (E := E) blocks asm).
Proof.
  unfold linearize_blocks. apply fuelled_bind.
  - unfold is_linearizable. destruct (existsb _ _); [done|]. apply fuelled_bind; [|done].
    apply fuelled_any. intros x _. apply fuelled_bind; [apply fuelled_unwrap|done].
  - intros ok _. destruct (negb ok); [done|]. apply fuelled_bind; [apply fuelled_unwrap|].
    intros first _. apply fuelled_bind; [apply line_loop_fuelled; lia|]. intros [res|] _; [|done].
    by apply fuelled_bind.
Qed.

(** C6: when [linearize_blocks] replaces the blocks of a method, every completed run of the method,
    whether it leaves it or ends in an exception thrown at any point, is a run of the single block:
    same events in the same order, same exit. *)
Theorem linearize_keeps_runs {E} is_const oracle asm blocks locals first b n ev r :
  NoDup (block_id <$> blocks) -> head blocks = Some first ->
  linearize_blocks (E := E) blocks asm = Ok (Some b) ->
  trace is_const oracle n asm (MethodBody blocks locals) (Normal (block_id first)) = Some (ev, r) ->
  (forall p, r <> Running p) ->
  exists choice, trace is_const (fun _ => choice) 1 asm (MethodBody [b] locals) (Normal (block_id b)) =
    Some (ev, r).
Proof.
  intros Hnd Hfirst (ok & Hok & H)%bind_ok Ht Hr. destruct ok; [|done]. cbn [negb] in H.
  rewrite Hfirst in H. cbn [unwrap mbind outcome_bind] in H. apply bind_ok in H as ([res|] & Hl & H); [|done].
  injection H as <-. unfold is_linearizable in Hok.
  destruct (existsb _ blocks) eqn:Hh; [done|]. apply bind_ok in Hok as (any & Hany & [= ->%negb_true_iff]).
  destruct blocks as [|first' l]; [done|]. injection Hfirst as ->.
  destruct (line_loop_runs (E := E) is_const oracle asm (first :: l) locals Hnd) with
    (fuel := 2002%nat) (ic := 0%nat) (curr := first) (res := res) as (ev' & ex & Hrun & Hout & Hc); try done.
  - intros b Hb. pose proof (existsb_false _ _ Hh b Hb) as H. cbn in H. by destruct (handler b).
  - intros b Hb. apply Forall_forall. intros root Hroot%list_elem_of_In.
    apply (any_outcome_false _ _ Hany). apply list_elem_of_In, in_concat.
    exists (bb_roots b). split; [by apply in_map, list_elem_of_In|by apply list_elem_of_In].
  - by left.
  - unfold by_id. cbn. rewrite Z.eqb_refl. apply list.NoDup_cons in Hnd as [Hni _].
    enough (List.filter (fun b => block_id b =? block_id first) l = []) as -> by done.
    clear -Hni. induction l as [|d l IH]; cbn; [done|]. cbn in Hni.
    destruct (Z.eqb_spec (block_id d) (block_id first)); [set_solver|]. apply IH. set_solver.
  - set (b := mk_block res (block_id first) None None).
    assert (Hone : by_id [b] (block_id b) = Some b) by (unfold by_id; cbn; by rewrite Z.eqb_refl).
    assert (forall choice, trace is_const (fun _ => choice) 1 asm (MethodBody [b] locals) (Normal (block_id b)) =
              Some (match ch_throw choice with Some k => (take k ev', Unwound) | None => (ev', Left ex) end)) as Hb.
    { intros choice. cbn [trace place_roots]. rewrite Hone. cbn [fmap option_fmap option_map mbind option_bind].
      change (bb_roots b) with res. rewrite Hrun. cbn [mbind option_bind catches]. rewrite Hone.
      cbn [mbind option_bind handler b]. rewrite (Hout (block_id b)). by destruct (ch_throw choice). }
    destruct (Hc n (ev, r) Ht Hr) as [[= -> ->]|[k [= -> ->]]].
    + exists (mk_Choice (fun _ => true) None). by rewrite Hb.
    + exists (mk_Choice (fun _ => true) (Some k)). by rewrite Hb.
Qed.

(** ** Witness *)

(** [loc0 = arg0; goto 2; 2: return arg0], in blocks 1 and 2. *)
Definition line_sample : Assembly :=
  set_roots (set_nodes empty_assembly [CILNode.LdArg 0])
    [CILRoot.StLoc 0 1%positive; CILRoot.Branch 2 0 None; CILRoot.Ret 1%positive].

Definition line_blocks : list BasicBlock :=
  [mk_block [1%positive; 2%positive] 1 None None; mk_block [3%positive] 2 None None].

Lemma linearize_keeps_runs_witness :
  exists choice, trace (fun _ => false) (fun _ => choice) 1 line_sample
    (MethodBody [mk_block [1%positive; 3%positive] 1 None None] []) (Normal 1) =
    Some ([Executed (CILRoot.StLoc 0 1%positive)], Left (Leave (CILRoot.Ret 1%positive))).
Proof.
  apply (linearize_keeps_runs (E := unit) (fun _ => false) (fun _ => mk_Choice (fun _ => true) None)
    line_sample line_blocks [] (mk_block [1%positive; 2%positive] 1 None None)
    (mk_block [1%positive; 3%positive] 1 None None) 2).
  - by_decide.
  - reflexivity.
  - vm_compute. reflexivity.
  - vm_compute. reflexivity.
  - intros p H. discriminate H.
Defined.
