(* ===== verification/Heaps.v ===== *)
(** * The metadata heaps (cilly/src/ir/pe_exporter/heaps.rs)

    Compressed integers and the four heaps of ECMA-335, with the readers a metadata consumer uses.
    The three interning heaps implement one interface, against which it is proved that every offset
    a heap ever handed out reads back, in the final heap, as the item it was given for. *)

From S2P Require Import Prelude.

(** ** Compressed unsigned integers *)

Definition byte (z : Z) : Z := wrap 8 z.

Definition write_compressed_u32 {E} (value : Z) : outcome E (list Z) :=
  if value <=? 0x7F then Ok [byte value]
  else if value <=? 0x3FFF then Ok [byte (Z.lor 0x80 (Z.shiftr value 8)); byte value]
  else if value <=? 0x1FFFFFFF then
    Ok [byte (Z.lor 0xC0 (Z.shiftr value 24)); byte (Z.shiftr value 16); byte (Z.shiftr value 8);
        byte value]
  else Panic.

(** The reader of section II.23.2: the top bits of the first byte give the length. *)
Definition read_compressed_u32 (l : list Z) : option (Z * list Z) :=
  match l with
  | b :: l =>
      if Z.land b 0x80 =? 0 then Some (b, l)
      else if Z.land b 0x40 =? 0 then
        match l with
        | b1 :: l => Some (Z.land b 0x3F * 256 + b1, l)
        | _ => None
        end
      else
        match l with
        | b1 :: b2 :: b3 :: l =>
            Some (((Z.land b 0x1F * 256 + b1) * 256 + b2) * 256 + b3, l)
        | _ => None
        end
  | [] => None
  end.

(** The shortest encoding that holds a value. *)
Definition compressed_length (value : Z) : nat :=
  if value <? 2 ^ 7 then 1 else if value <? 2 ^ 14 then 2 else 4.

Section compressed.
Context {E : Type}.

Lemma byte_is_byte z : is_byte (byte z).
Proof. unfold is_byte, byte, wrap. apply Z.mod_pos_bound. lia. Qed.

(** Facts of small numbers, by enumeration. *)
Lemma below_by_enum (P : Z -> Prop) `{!forall x, Decision (P x)} n :
  bool_decide (Forall P (seqZ 0 n)) = true -> forall x, 0 <= x < n -> P x.
Proof.
  intros Hall%bool_decide_eq_true x Hx. rewrite list.Forall_forall in Hall. apply Hall, elem_of_seqZ. lia.
Qed.

Lemma one_byte_head x : 0 <= x < 128 -> byte x = x /\ Z.land x 0x80 = 0.
Proof. revert x. apply (below_by_enum _ 128). by vm_compute. Qed.

Lemma two_byte_head x : 0 <= x < 64 ->
  let b := byte (Z.lor 0x80 x) in Z.land b 0x80 <> 0 /\ Z.land b 0x40 = 0 /\ Z.land b 0x3F = x.
Proof. revert x. apply (below_by_enum _ 64). by vm_compute. Qed.

Lemma four_byte_head x : 0 <= x < 32 ->
  let b := byte (Z.lor 0xC0 x) in Z.land b 0x80 <> 0 /\ Z.land b 0x40 <> 0 /\ Z.land b 0x1F = x.
Proof. revert x. apply (below_by_enum _ 32). by vm_compute. Qed.

Lemma byte_shift k v : 0 <= k -> byte (Z.shiftr v k) = v / 2 ^ k mod 256.
Proof. intros. unfold byte, wrap. by rewrite Z.shiftr_div_pow2. Qed.

Lemma byte_mod v : byte v = v mod 256.
Proof. done. Qed.

Lemma read_write_compressed v bs rest :
  0 <= v -> write_compressed_u32 (E := E) v = Ok bs ->
  read_compressed_u32 (bs ++ rest) = Some (v, rest) /\ Forall is_byte bs /\ length bs = compressed_length v.
Proof.
  intros Hv. unfold write_compressed_u32, compressed_length.
  destruct (Z.leb_spec v 0x7F) as [H7|H7]; [|destruct (Z.leb_spec v 0x3FFF) as [H14|H14];
    [|destruct (Z.leb_spec v 0x1FFFFFFF) as [H29|H29]; [|done]]]; intros [= <-]; split_and!.
  all: try (by repeat constructor; apply byte_is_byte).
  all: try (repeat (case_match; [|try lia]); repeat (case_match); cbn; lia || done).
  - destruct (one_byte_head v ltac:(lia)) as [-> Hb]. cbn. by rewrite Hb.
  - cbn [app read_compressed_u32]. rewrite Z.shiftr_div_pow2 by lia.
    destruct (two_byte_head (v / 2 ^ 8)) as (H1 & H2 & H3); [split; [by apply Z.div_pos; lia|apply Z.div_lt_upper_bound; lia]|].
    cbv zeta in H1, H2, H3. apply Z.eqb_neq in H1 as ->. rewrite H2. cbn [Z.eqb]. rewrite H3, byte_mod.
    do 2 f_equal. change (2 ^ 8) with 256. pose proof (Z.div_mod v 256 ltac:(lia)). lia.
  - cbn [app read_compressed_u32]. rewrite (Z.shiftr_div_pow2 v 24) by lia.
    destruct (four_byte_head (v / 2 ^ 24)) as (H1 & H2 & H3); [split; [by apply Z.div_pos; lia|apply Z.div_lt_upper_bound; lia]|].
    cbv zeta in H1, H2, H3. apply Z.eqb_neq in H1 as ->. apply Z.eqb_neq in H2 as ->.
    rewrite H3, !byte_shift, byte_mod by lia. do 2 f_equal.
    replace (v / 2 ^ 24) with (v / 256 / 256 / 256) by (rewrite !Z.div_div by lia; f_equal).
    replace (v / 2 ^ 16) with (v / 256 / 256) by (rewrite !Z.div_div by lia; f_equal).
    change (2 ^ 8) with 256.
    pose proof (Z.div_mod v 256 ltac:(lia)). pose proof (Z.div_mod (v / 256) 256 ltac:(lia)).
    pose proof (Z.div_mod (v / 256 / 256) 256 ltac:(lia)). lia.
Qed.

(** every value up to [0x1FFF_FFFF] is written as bytes, as short as the format allows, that read
    back as the value whatever follows them; any larger [u32] panics. *)
Lemma compressed_u32_spec v :
  in_u 32 v ->
  (v <= 0x1FFFFFFF -> exists bs, write_compressed_u32 (E := E) v = Ok bs /\
     Forall is_byte bs /\ length bs = compressed_length v /\
     forall rest, read_compressed_u32 (bs ++ rest) = Some (v, rest)) /\
  (0x1FFFFFFF < v -> write_compressed_u32 (E := E) v = Panic).
Proof.
  intros [Hv _]. split; intros Hb.
  - destruct (write_compressed_u32 (E := E) v) as [bs| | |] eqn:Hw.
    + exists bs. split_and!; try done; [by apply (read_write_compressed v bs [])..|].
      intros rest. by apply read_write_compressed.
    + unfold write_compressed_u32 in Hw. by repeat case_match.
    + unfold write_compressed_u32 in Hw. repeat case_match; try done. lia.
    + unfold write_compressed_u32 in Hw. by repeat case_match.
  - unfold write_compressed_u32. repeat (case_match; [lia|]). done.
Qed.
End compressed.

(** ** The heaps *)

(** A heap's bytes, and the offsets of the items it holds. *)
Record Heap : Set := mk_Heap { heap_data : list Z; interned : gmap (list Z) Z }.

(** [Default] of the three interning heaps: offset 0 is the empty item. *)
Definition empty_heap : Heap := mk_Heap [0] ∅.

Section heaps.
Context {E : Type}.

(** [u32::try_from(n).expect(..)] *)
Definition expect_u32 (n : Z) : outcome E Z := if n <? 2 ^ 32 then Ok n else Panic.

(** [StringsHeap::intern], of the bytes of a string. *)
Definition strings_intern (s : list Z) : ST Heap E Z := fun h =>
  match s with
  | [] => (h, Ok 0)
  | _ =>
      if existsb (fun b => b =? 0) s then (h, Panic)
      else
        match interned h !! s with
        | Some off => (h, Ok off)
        | None =>
            match expect_u32 (Z.of_nat (length (heap_data h))) with
            | Ok off => (mk_Heap (heap_data h ++ s ++ [0]) (<[s := off]> (interned h)), Ok off)
            | _ => (h, Panic)
            end
        end
  end.

(** [BlobHeap::intern]; a panic leaves the caller no heap to observe. *)
Definition blob_intern (blob : list Z) : ST Heap E Z := fun h =>
  match blob with
  | [] => (h, Ok 0)
  | _ =>
      match interned h !! blob with
      | Some off => (h, Ok off)
      | None =>
          match (off ← expect_u32 (Z.of_nat (length (heap_data h)));
                 n ← expect_u32 (Z.of_nat (length blob));
                 prefix ← write_compressed_u32 n;
                 Ok (off, prefix)) with
          | Ok (off, prefix) =>
              (mk_Heap (heap_data h ++ prefix ++ blob) (<[blob := off]> (interned h)), Ok off)
          | _ => (h, Panic)
          end
      end
  end.

(** [str::encode_utf16]: a string by its Unicode scalar values. *)
Definition utf16_char (c : Z) : list Z :=
  if c <? 0x10000 then [c]
  else [0xD800 + (c - 0x10000) / 0x400; 0xDC00 + (c - 0x10000) mod 0x400].
Definition encode_utf16 (s : list Z) : list Z := concat (map utf16_char s).

(** The code units section II.24.2.4 lists as needing special handling. *)
Definition is_special (u : Z) : bool :=
  (0x100 <=? u) || ((0x01 <=? u) && (u <=? 0x08)) || ((0x0E <=? u) && (u <=? 0x1F)) ||
  (u =? 0x27) || (u =? 0x2D) || (u =? 0x7F).

Definition special_flag (utf16 : list Z) : Z := Z.b2z (existsb is_special utf16).

Definition user_string_entry (utf16 : list Z) : list Z :=
  concat (map (le_bytes 2) utf16) ++ [special_flag utf16].

(** [UserStringHeap::intern], of the scalar values of a string. *)
Definition user_string_intern (s : list Z) : ST Heap E Z := fun h =>
  match interned h !! s with
  | Some off => (h, Ok off)
  | None =>
      let utf16 := encode_utf16 s in
      match (byte_len ← expect_u32 (Z.of_nat (length utf16) * 2 + 1);
             off ← expect_u32 (Z.of_nat (length (heap_data h)));
             prefix ← write_compressed_u32 byte_len;
             Ok (off, prefix)) with
      | Ok (off, prefix) =>
          (mk_Heap (heap_data h ++ prefix ++ user_string_entry utf16) (<[s := off]> (interned h)),
           Ok off)
      | _ => (h, Panic)
      end
  end.

(** [GuidHeap::push]: the heap is its bytes; the index is the ordinal, from 1. *)
Definition guid_push (guid : list Z) : ST (list Z) E Z := fun data =>
  let data := data ++ guid in
  (data, expect_u32 (Z.of_nat (length data) / 16)).
End heaps.

(** ** The readers *)

(** Bytes up to the first zero. *)
Fixpoint read_cstr (l : list Z) : option (list Z) :=
  match l with
  | [] => None
  | b :: l => if b =? 0 then Some [] else cons b <$> read_cstr l
  end.

(** A length, and that many bytes. *)
Definition read_sized (l : list Z) : option (list Z) :=
  '(n, l) ← read_compressed_u32 l;
  if bool_decide (Z.to_nat n <= length l)%nat then Some (take (Z.to_nat n) l) else None.

Fixpoint pairs_le (l : list Z) : option (list Z) :=
  match l with
  | [] => Some []
  | lo :: hi :: l => cons (lo + 256 * hi) <$> pairs_le l
  | _ => None
  end.

Fixpoint decode_utf16 (us : list Z) : option (list Z) :=
  match us with
  | [] => Some []
  | u :: us =>
      if (0xD800 <=? u) && (u <? 0xDC00) then
        match us with
        | v :: us =>
            if (0xDC00 <=? v) && (v <? 0xE000) then
              cons (0x10000 + (u - 0xD800) * 0x400 + (v - 0xDC00)) <$> decode_utf16 us
            else None
        | [] => None
        end
      else if (0xDC00 <=? u) && (u <? 0xE000) then None
      else cons u <$> decode_utf16 us
  end.

(** A user string without its flag. *)
Definition read_user_string (l : list Z) : option (list Z) :=
  entry ← read_sized l;
  units ← pairs_le (removelast entry);
  decode_utf16 units.

(** ** The interface of an interning heap *)

(** What the three formats promise their clients: an item already held keeps its offset, and a new
    one is appended as an entry that reads back as it.  [heap_implicit] items are at offset 0 of
    every heap; [heap_accepts] is the heap's own test of an item, [heap_valid] what its callers
    guarantee. *)
Class HeapFormat : Type := {
  heap_intern : forall {E}, list Z -> ST Heap E Z;
  heap_read : list Z -> option (list Z);
  heap_implicit : list Z -> bool;
  heap_accepts : list Z -> bool;
  heap_valid : list Z -> Prop;
  heap_read_app l more k : heap_read l = Some k -> heap_read (l ++ more) = Some k;
  heap_read_implicit k : heap_implicit k = true -> heap_read [0] = Some k;
  heap_intern_implicit {E} k h : heap_implicit k = true -> heap_intern (E := E) k h = (h, Ok 0);
  heap_intern_known {E} k h off :
    heap_implicit k = false -> heap_accepts k = true -> interned h !! k = Some off ->
    heap_intern (E := E) k h = (h, Ok off);
  heap_intern_new {E} k h h' off :
    heap_implicit k = false -> interned h !! k = None -> heap_valid k ->
    heap_intern (E := E) k h = (h', Ok off) ->
    heap_accepts k = true /\ off = Z.of_nat (length (heap_data h)) /\ off < 2 ^ 32 /\
    interned h' = <[k := off]> (interned h) /\
    exists entry, heap_data h' = heap_data h ++ entry /\ heap_read entry = Some k }.

Section clients.
Context `{HeapFormat} {E : Type}.

(** The item at an offset. *)
Definition item_at (h : Heap) (off : Z) : option (list Z) := heap_read (drop (Z.to_nat off) (heap_data h)).

Record heap_ok (h : Heap) : Prop := {
  starts_empty : exists rest, heap_data h = 0 :: rest;
  holds_items k off : interned h !! k = Some off ->
    heap_implicit k = false /\ heap_accepts k = true /\
    0 <= off <= Z.of_nat (length (heap_data h)) /\ item_at h off = Some k }.

(** Where an item is, if the heap holds it. *)
Definition find (h : Heap) (k : list Z) : option Z :=
  if heap_implicit k then Some 0 else interned h !! k.

(** What one [intern] does: the heap only grows, and holds the item from then on. *)
Definition grows_to (h h' : Heap) : Prop :=
  heap_data h `prefix_of` heap_data h' /\ interned h ⊆ interned h'.

#[export] Instance grows_to_preorder : PreOrder grows_to.
Proof. split; [by intros h|]. intros a b c [??] [??]. split; by etrans. Qed.

Lemma empty_heap_ok : heap_ok empty_heap.
Proof. split; [by exists []|]. intros k off. cbn. by rewrite lookup_empty. Qed.

Lemma item_at_grows h h' off k : grows_to h h' -> 
  (Z.to_nat off <= length (heap_data h))%nat -> item_at h off = Some k -> item_at h' off = Some k.
Proof.
  intros [[more Hm] _] Hoff Hk. unfold item_at in *. rewrite Hm, drop_app_le by done.
  by apply heap_read_app.
Qed.

Lemma find_item h k off : heap_ok h -> find h k = Some off ->
  (Z.to_nat off <= length (heap_data h))%nat /\ item_at h off = Some k.
Proof.
  intros [[rest Hr] Hi]. unfold find. destruct (heap_implicit k) eqn:Hk.
  - intros [= <-]. split; [lia|]. unfold item_at. rewrite Hr. cbn.
    apply (heap_read_app [0]), heap_read_implicit, Hk.
  - intros Hf. destruct (Hi _ _ Hf) as (_ & _ & ? & ?). split; [lia|done].
Qed.

Lemma find_grows h h' k off : grows_to h h' -> find h k = Some off -> find h' k = Some off.
Proof.
  intros [_ Hs]. unfold find. destruct (heap_implicit k); [done|]. intros. by eapply lookup_weaken.
Qed.

Lemma intern_ok k h h' off :
  heap_ok h -> heap_valid k -> heap_intern (E := E) k h = (h', Ok off) ->
  heap_ok h' /\ grows_to h h' /\ find h' k = Some off.
Proof.
  intros Hok Hv Hrun. unfold find. destruct (heap_implicit k) eqn:Hk.
  { rewrite heap_intern_implicit in Hrun by done. by injection Hrun as <- <-. }
  destruct (interned h !! k) as [o|] eqn:Ho.
  { destruct (holds_items _ Hok _ _ Ho) as (_ & Ha & _).
    rewrite (heap_intern_known k h o) in Hrun by done. by injection Hrun as <- <-. }
  destruct (heap_intern_new _ _ _ _ Hk Ho Hv Hrun) as (Ha & -> & Hlt & Hi & entry & Hd & Hr).
  assert (grows_to h h') as Hg.
  { split; [rewrite Hd; by apply prefix_app_r|]. rewrite Hi. by apply insert_subseteq. }
  split_and!; [|done|rewrite Hi; by rewrite lookup_insert_eq]. split.
  - destruct (starts_empty _ Hok) as [rest Hrest]. rewrite Hd, Hrest. by eexists.
  - intros k' off'. rewrite Hi. intros [[<- <-]|[_ Hold]]%lookup_insert_Some.
    + split_and!; [done|done|lia|rewrite Hd, length_app; lia|].
      unfold item_at. rewrite Hd, Nat2Z.id, drop_app_length. done.
    + destruct (holds_items _ Hok _ _ Hold) as (? & ? & Hb & Hit). split_and!; [done|done|lia|..].
      * rewrite Hd, length_app. lia.
      * eapply item_at_grows; [done|lia|done].
Qed.

Lemma interns_ok ks h h' offs :
  heap_ok h -> Forall heap_valid ks -> map_st (heap_intern (E := E)) ks h = (h', Ok offs) ->
  heap_ok h' /\ grows_to h h' /\ Forall2 (fun k off => find h' k = Some off) ks offs.
Proof.
  revert h offs. induction ks as [|k ks IH]; intros h offs Hok Hv; cbn [map_st].
  - intros [= <- <-]. by split_and!.
  - apply list.Forall_cons in Hv as [Hk Hks]. intros (h1 & off & H1 & H2)%st_bind_ok.
    apply st_bind_ok in H2 as (h2 & l & H2 & [= <- <-]).
    destruct (intern_ok _ _ _ _ Hok Hk H1) as (Hok1 & Hg1 & Hf1).
    destruct (IH _ _ Hok1 Hks H2) as (Hok2 & Hg2 & Hf2).
    split_and!; [done|by etrans|]. constructor; [by eapply find_grows|done].
Qed.
End clients.

(** C33: of any sequence of items interned into an empty heap, through whichever format, every offset
    handed out reads back in the final heap as the item it was given for, and two items have the
    same offset exactly when they are equal. *)
Theorem interned_items_read_back `{HeapFormat} {E} ks h offs :
  Forall heap_valid ks -> map_st (heap_intern (E := E)) ks empty_heap = (h, Ok offs) ->
  Forall2 (fun k off => item_at h off = Some k) ks offs /\
  forall i j k k' off off', ks !! i = Some k -> ks !! j = Some k' ->
    offs !! i = Some off -> offs !! j = Some off' -> (off = off' <-> k = k').
Proof.
  intros Hv Hrun. destruct (interns_ok _ _ _ _ empty_heap_ok Hv Hrun) as (Hok & _ & Hf). split.
  - eapply list.Forall2_impl; [exact Hf|]. intros k off Hk. by eapply find_item.
  - intros i j k k' off off' Hi Hj Ho Ho'.
    pose proof (Forall2_lookup_lr _ _ _ _ _ _ Hf Hi Ho) as Hki.
    pose proof (Forall2_lookup_lr _ _ _ _ _ _ Hf Hj Ho') as Hkj. split.
    + intros <-. apply find_item in Hki as [_ Hki]; [|done]. apply find_item in Hkj as [_ Hkj]; [|done].
      congruence.
    + intros <-. congruence.
Qed.

(** ** The three formats *)

(** A step of the first error of a sequence of checks. *)
Lemma expect_u32_ok {E} n m : expect_u32 (E := E) n = Ok m -> m = n /\ n < 2 ^ 32.
Proof. unfold expect_u32. destruct (Z.ltb_spec n (2 ^ 32)); [by intros [= <-]|done]. Qed.

Definition is_nil {A} (l : list A) : bool := match l with [] => true | _ => false end.

Lemma read_cstr_app l more k : read_cstr l = Some k -> read_cstr (l ++ more) = Some k.
Proof.
  revert k. induction l as [|b l IH]; intros k; cbn; [done|]. destruct (b =? 0); [done|].
  intros (k' & Hk & ->)%fmap_Some. by rewrite (IH _ Hk).
Qed.

Lemma read_cstr_entry s : existsb (fun b => b =? 0) s = false -> read_cstr (s ++ [0]) = Some s.
Proof.
  induction s as [|b s IH]; cbn; [done|]. intros [-> Hs]%orb_false_iff. by rewrite (IH Hs).
Qed.

#[export] Program Instance strings_format : HeapFormat := {|
  heap_intern := @strings_intern;
  heap_read := read_cstr;
  heap_implicit := is_nil;
  heap_accepts s := negb (existsb (fun b => b =? 0) s);
  heap_valid _ := True |}.
Next Obligation. apply read_cstr_app. Qed.
Next Obligation. by intros []. Qed.
Next Obligation. by intros E []. Qed.
Next Obligation.
  intros E k h off Hk Ha%negb_true_iff Hi. unfold strings_intern. destruct k; [done|]. by rewrite Ha, Hi.
Qed.
Next Obligation.
  intros E k h h' off Hk Hi _. unfold strings_intern. destruct k as [|b k]; [done|]. rewrite Hi.
  destruct (existsb _ _) eqn:Hz; [done|].
  destruct (expect_u32 (E := E) _) eqn:He; try done. apply expect_u32_ok in He as [-> He].
  intros [= <- <-]. split_and!; try done. exists ((b :: k) ++ [0]). split; [done|].
  by apply read_cstr_entry.
Qed.

Lemma read_compressed_app l more v rest :
  read_compressed_u32 l = Some (v, rest) -> read_compressed_u32 (l ++ more) = Some (v, rest ++ more).
Proof.
  destruct l as [|b l]; [done|]. cbn. destruct (_ =? 0); [by intros [= <- <-]|].
  destruct (_ =? 0); [destruct l as [|b1 l]; [done|]; by intros [= <- <-]|].
  destruct l as [|b1 [|b2 [|b3 l]]]; try done. by intros [= <- <-].
Qed.

Lemma read_sized_app l more k : read_sized l = Some k -> read_sized (l ++ more) = Some k.
Proof.
  unfold read_sized. intros ([n rest] & Hr & H)%bind_Some. rewrite (read_compressed_app _ _ _ _ Hr). cbn.
  case_bool_decide as Hn; [|done]. injection H as <-.
  rewrite bool_decide_true by (rewrite length_app; lia). by rewrite take_app_le.
Qed.

Lemma read_sized_entry {E} entry prefix :
  write_compressed_u32 (E := E) (Z.of_nat (length entry)) = Ok prefix ->
  read_sized (prefix ++ entry) = Some entry.
Proof.
  intros Hw. unfold read_sized.
  destruct (read_write_compressed (E := E) (Z.of_nat (length entry)) prefix entry) as [-> _];
    [lia|done|]. cbn.
  rewrite Nat2Z.id, bool_decide_true by lia. by rewrite firstn_all.
Qed.

#[export] Program Instance blob_format : HeapFormat := {|
  heap_intern := @blob_intern;
  heap_read := read_sized;
  heap_implicit := is_nil;
  heap_accepts _ := true;
  heap_valid _ := True |}.
Next Obligation. apply read_sized_app. Qed.
Next Obligation. by intros []. Qed.
Next Obligation. by intros E []. Qed.
Next Obligation. intros E k h off Hk _ Hi. unfold blob_intern. destruct k; [done|]. by rewrite Hi. Qed.
Next Obligation.
  intros E k h h' off Hk Hi _. unfold blob_intern. destruct k as [|b k]; [done|]. rewrite Hi.
  destruct (_ ≫= _) as [[o p]| | |] eqn:He; try done.
  apply bind_ok in He as (o' & [-> Ho]%expect_u32_ok & He).
  apply bind_ok in He as (n & [-> _]%expect_u32_ok & He). apply bind_ok in He as (p' & Hw & [= <- <-]).
  intros [= <- <-]. split_and!; try done. exists (p' ++ b :: k). split; [done|].
  by apply (read_sized_entry (E := E)).
Qed.

(** *** User strings *)

(** Unicode scalar values: what a [char] is. *)
Definition is_char (c : Z) : Prop := 0 <= c < 0xD800 \/ 0xE000 <= c < 0x110000.

#[export] Instance is_char_dec c : Decision (is_char c).
Proof. unfold is_char. apply _. Defined.

Lemma encode_utf16_units s : Forall is_char s -> Forall (in_u 16) (encode_utf16 s).
Proof.
  induction 1 as [|c s Hc _ IH]; [constructor|]. unfold encode_utf16. cbn. apply Forall_app. split; [|done].
  unfold utf16_char, is_char, in_u in *. destruct (Z.ltb_spec c 0x10000).
  - constructor; [lia|constructor].
  - pose proof (Z.mod_pos_bound (c - 0x10000) 0x400 ltac:(lia)).
    pose proof (Z.div_pos (c - 0x10000) 0x400 ltac:(lia) ltac:(lia)).
    pose proof (Z.div_lt_upper_bound (c - 0x10000) 0x400 0x400 ltac:(lia) ltac:(lia)).
    repeat constructor; cbn; lia.
Qed.

Lemma decode_encode_utf16 s : Forall is_char s -> decode_utf16 (encode_utf16 s) = Some s.
Proof.
  induction 1 as [|c s Hc _ IH]; [done|]. unfold encode_utf16. cbn. fold (encode_utf16 s).
  unfold utf16_char, is_char in *. destruct (Z.ltb_spec c 0x10000); cbn.
  - destruct (Z.leb_spec 0xD800 c), (Z.ltb_spec c 0xDC00), (Z.leb_spec 0xDC00 c), (Z.ltb_spec c 0xE000);
      cbn; try lia; by rewrite IH.
  - pose proof (Z.mod_pos_bound (c - 0x10000) 0x400 ltac:(lia)).
    pose proof (Z.div_pos (c - 0x10000) 0x400 ltac:(lia) ltac:(lia)).
    pose proof (Z.div_lt_upper_bound (c - 0x10000) 0x400 0x400 ltac:(lia) ltac:(lia)).
    pose proof (Z.div_mod (c - 0x10000) 0x400 ltac:(lia)).
    set (q := (c - 0x10000) / 0x400) in *. set (r := (c - 0x10000) mod 0x400) in *.
    rewrite !(proj2 (Z.leb_le _ _)), !(proj2 (Z.ltb_lt _ _)) by lia. cbn. rewrite IH. cbn. do 2 f_equal. lia.
Qed.

Lemma pairs_le_units us : Forall (in_u 16) us -> pairs_le (concat (map (le_bytes 2) us)) = Some us.
Proof.
  induction 1 as [|u us Hu _ IH]; [done|]. unfold in_u in Hu. cbn [map concat].
  change (le_bytes 2 u) with [u mod 256; u / 256 mod 256]. cbn [app pairs_le]. rewrite IH. cbn. do 2 f_equal.
  rewrite (Z.mod_small (u / 256) 256) by (split; [by apply Z.div_pos; lia|apply Z.div_lt_upper_bound; lia]).
  pose proof (Z.div_mod u 256 ltac:(lia)). lia.
Qed.

Lemma length_units us : length (concat (map (le_bytes 2) us)) = (2 * length us)%nat.
Proof. induction us as [|u us IH]; [done|]. cbn [map concat]. rewrite length_app, IH, length_le_bytes. cbn [length]. lia. Qed.

#[export] Program Instance user_string_format : HeapFormat := {|
  heap_intern := @user_string_intern;
  heap_read := read_user_string;
  heap_implicit _ := false;
  heap_accepts _ := true;
  heap_valid := Forall is_char |}.
Next Obligation.
  intros l more k. unfold read_user_string. intros (e & He & H)%bind_Some.
  by rewrite (read_sized_app _ _ _ He).
Qed.
Next Obligation. done. Qed.
Next Obligation. done. Qed.
Next Obligation. intros E k h off _ _ Hi. unfold user_string_intern. by rewrite Hi. Qed.
Next Obligation.
  intros E k h h' off _ Hi Hv. unfold user_string_intern. rewrite Hi.
  destruct (_ ≫= _) as [[o p]| | |] eqn:He; try done.
  apply bind_ok in He as (n & [-> _]%expect_u32_ok & He).
  apply bind_ok in He as (o' & [-> Ho]%expect_u32_ok & He).
  apply bind_ok in He as (p' & Hw & [= <- <-]).
  intros [= <- <-]. split_and!; try done. eexists. split; [done|].
  unfold read_user_string. rewrite (read_sized_entry (E := E)).
  - cbn. unfold user_string_entry. rewrite removelast_last.
    rewrite pairs_le_units by by apply encode_utf16_units. cbn. by apply decode_encode_utf16.
  - rewrite <- Hw. f_equal. unfold user_string_entry. rewrite length_app, length_units. cbn. lia.
Qed.

(** ** Errors *)

Lemma existsb_zero s : existsb (fun b => b =? 0) s = true <-> 0 ∈ s.
Proof.
  induction s as [|b s IH]; cbn; [set_solver|]. rewrite orb_true_iff, IH, elem_of_cons, Z.eqb_eq. naive_solver.
Qed.

(** interning fails, by a panic that leaves the heap as it was, exactly when the item cannot be
    stored: a name with an interior NUL, an item whose length exceeds the compressed range, or a new
    item for a heap that has outgrown 32-bit offsets. *)
Lemma intern_panics_iff {E} k h :
  (snd (strings_intern (E := E) k h) = Panic <->
     0 ∈ k \/ k <> [] /\ interned h !! k = None /\ 2 ^ 32 <= Z.of_nat (length (heap_data h))) /\
  (snd (blob_intern (E := E) k h) = Panic <->
     k <> [] /\ interned h !! k = None /\
     (2 ^ 32 <= Z.of_nat (length (heap_data h)) \/ 0x1FFFFFFF < Z.of_nat (length k))) /\
  (snd (user_string_intern (E := E) k h) = Panic <->
     interned h !! k = None /\
     (2 ^ 32 <= Z.of_nat (length (heap_data h)) \/
      0x1FFFFFFF < Z.of_nat (length (encode_utf16 k)) * 2 + 1)).
Proof.
  assert (forall n, expect_u32 (E := E) n = Ok n /\ n < 2 ^ 32 \/
                    expect_u32 (E := E) n = Panic /\ 2 ^ 32 <= n) as Hu.
  { intros n. unfold expect_u32. destruct (Z.ltb_spec n (2 ^ 32)); auto. }
  assert (forall n, (exists bs, write_compressed_u32 (E := E) n = Ok bs) /\ n <= 0x1FFFFFFF \/
                    write_compressed_u32 (E := E) n = Panic /\ 0x1FFFFFFF < n) as Hw.
  { intros n. unfold write_compressed_u32. destruct (Z.leb_spec n 0x7F); [left; split; [eauto|lia]|].
    destruct (Z.leb_spec n 0x3FFF); [left; split; [eauto|lia]|].
    destruct (Z.leb_spec n 0x1FFFFFFF); [left; split; [eauto|lia]|auto]. }
  assert (k <> [] -> exists b l, k = b :: l) as Hk by (destruct k; [done|eauto]).
  pose proof (Hu (Z.of_nat (length (heap_data h)))) as Hd. split_and!.
  - pose proof (existsb_zero k) as Hz. unfold strings_intern. destruct k as [|b l]; [set_solver|].
    destruct (existsb _ _); [split; [intros _; left; by apply Hz|done]|].
    assert (0 ∉ b :: l) by (intros H0; by apply Hz in H0).
    destruct (interned h !! _); [naive_solver|]. destruct Hd as [[-> ?]|[-> ?]]; cbn; [|naive_solver].
    split; [done|]. intros [?|(_ & _ & ?)]; [done|lia].
  - pose proof (Hu (Z.of_nat (length k))) as Hn. pose proof (Hw (Z.of_nat (length k))) as Hwk.
    unfold blob_intern. destruct k as [|b l]; [naive_solver|].
    destruct (interned h !! _); [naive_solver|]. destruct Hd as [[-> ?]|[-> ?]]; cbn [mbind outcome_bind].
    2: split; [naive_solver|done].
    destruct Hn as [[-> ?]|[-> ?]]; cbn [mbind outcome_bind].
    2: split; [intros _; split_and!; [done|done|right; lia]|done].
    destruct Hwk as [[[bs ->] ?]|[-> ?]]; cbn [mbind outcome_bind snd].
    + split; [done|]. intros (_ & _ & ?). lia.
    + split; [intros _; split_and!; [done|done|by right]|done].
  - set (n := Z.of_nat (length (encode_utf16 k)) * 2 + 1). pose proof (Hu n) as Hn.
    pose proof (Hw n) as Hwk. unfold user_string_intern. cbv zeta. fold n.
    destruct (interned h !! _); [naive_solver|].
    destruct Hn as [[-> ?]|[-> ?]]; cbn [mbind outcome_bind].
    2: split; [intros _; split; [done|right; lia]|done].
    destruct Hd as [[-> ?]|[-> ?]]; cbn [mbind outcome_bind].
    2: split; [naive_solver|done].
    destruct Hwk as [[[bs ->] ?]|[-> ?]]; cbn [mbind outcome_bind snd].
    + split; [done|]. intros (_ & ?). lia.
    + split; [intros _; split; [done|by right]|done].
Qed.

(** ** Tokens (pe_exporter/tables.rs) *)

Section tokens.
Context {E : Type}.

Definition TABLE_USER_STRING : Z := 0x70.

(** [Token::new] *)
Definition token_new (table rid : Z) : Z := Z.lor (wrap 32 (Z.shiftl table 24)) rid.
Definition token_table (t : Z) : Z := Z.shiftr t 24.
Definition token_rid (t : Z) : Z := Z.land t 0x00FFFFFF.

(** [user_string_token] *)
Definition user_string_token (s : list Z) : ST Heap E Z :=
  off ← user_string_intern s; mret (token_new TABLE_USER_STRING off).

Lemma token_parts table rid :
  0 <= table < 256 -> 0 <= rid < 2 ^ 24 ->
  token_table (token_new table rid) = table /\ token_rid (token_new table rid) = rid.
Proof.
  intros Ht Hr. unfold token_table, token_rid, token_new.
  rewrite Z.shiftl_mul_pow2 by lia. rewrite wrap_id by (unfold in_u; lia).
  assert (Hhigh : forall i, 24 <= i -> Z.testbit rid i = false).
  { intros i Hi. rewrite <- (Z.mod_small rid (2 ^ 24)) by lia. apply Z.mod_pow2_bits_high. lia. }
  split; apply Z.bits_inj'; intros i Hi.
  - rewrite Z.shiftr_spec, Z.lor_spec, Z.mul_pow2_bits, Hhigh by lia.
    rewrite orb_false_r. f_equal. lia.
  - change 0x00FFFFFF with (Z.ones 24). rewrite Z.land_spec, Z.lor_spec, Z.mul_pow2_bits by lia.
    destruct (Z.ltb_spec i 24).
    + rewrite Z.ones_spec_low, (Z.testbit_neg_r table) by lia. by rewrite andb_true_r.
    + rewrite Z.ones_spec_high, Hhigh by lia. by rewrite andb_false_r.
Qed.

(** C40: the token of a user string gives back its table and its heap offset exactly while the offset
    has 24 bits; [Token::new] does not test this, so past 16 MiB of strings the offset runs into the
    table byte. *)
Theorem user_string_token_parts s h h' t :
  user_string_token s h = (h', Ok t) ->
  exists off, user_string_intern (E := E) s h = (h', Ok off) /\
    (0 <= off -> (token_table t = TABLE_USER_STRING /\ token_rid t = off <-> off < 2 ^ 24)).
Proof.
  intros (h1 & off & Hi & [= <- <-])%st_bind_ok. exists off. split; [done|]. intros Hoff. split.
  - intros [_ Hr]. rewrite <- Hr. unfold token_rid. change 0x00FFFFFF with (Z.ones 24).
    rewrite Z.land_ones by lia. apply Z.mod_pos_bound. lia.
  - intros Hlt. apply token_parts; unfold TABLE_USER_STRING; lia.
Qed.
End tokens.

(** ** Witnesses *)

Lemma compressed_u32_spec_witness :
  exists bs, write_compressed_u32 (E := unit) 0x2E57 = Ok bs /\ read_compressed_u32 (bs ++ [1]) = Some (0x2E57, [1]).
Proof.
  destruct (compressed_u32_spec (E := unit) 0x2E57 ltac:(by_decide)) as [H _].
  destruct (H ltac:(lia)) as (bs & Hw & _ & _ & Hr). exists bs. split; [exact Hw|apply Hr].
Defined.

(** ["Hi"], ["\U+1F600"], ["Hi"] among the user strings. *)
Definition heap_items : list (list Z) := [[72; 105]; [0x1F600]; [72; 105]].
Definition heap_run : Heap * outcome unit (list Z) :=
  map_st (heap_intern (HeapFormat := user_string_format) (E := unit)) heap_items empty_heap.

Lemma interned_items_read_back_witness :
  snd heap_run = Ok [1; 7; 1] /\
  Forall2 (fun k off => item_at (H := user_string_format) (fst heap_run) off = Some k) heap_items [1; 7; 1].
Proof.
  split; [vm_compute; reflexivity|].
  apply (interned_items_read_back (H := user_string_format) (E := unit) heap_items (fst heap_run) [1; 7; 1]).
  - by_decide.
  - vm_compute. reflexivity.
Defined.

Lemma user_string_token_parts_witness :
  exists off, user_string_intern (E := unit) [72; 105] empty_heap = (fst (user_string_intern (E := unit) [72; 105] empty_heap), Ok off) /\
    (0 <= off -> (token_table 0x70000001 = TABLE_USER_STRING /\ token_rid 0x70000001 = off <-> off < 2 ^ 24)).
Proof.
  apply (user_string_token_parts (E := unit) [72; 105] empty_heap).
  vm_compute. reflexivity.
Defined.
