(* ===== verification/Tables.v ===== *)
(** * Metadata tables (cilly/src/ir/pe_exporter/tables.rs)

    The rows of the metadata tables, coded indices, the widths that row counts give index columns,
    and the table stream and metadata root that hold them. *)

From S2P Require Import Prelude Interner Types Class IR Method Heaps.

(** ** Rows

    Heap offsets, simple indices and coded indices as plain [u32]s; widths are chosen when the stream
    is written. *)

Record ModuleRow : Set := mk_ModuleRow { mor_name : Z; mor_mvid : Z }.
Record TypeRefRow : Set := mk_TypeRefRow {
  trr_resolution_scope : Z; trr_namespace : Z; trr_name : Z }.
Record TypeDefRow : Set := mk_TypeDefRow {
  tdr_flags : Z; tdr_name : Z; tdr_namespace : Z; tdr_extends : Z; tdr_field_list : Z;
  tdr_method_list : Z }.
Record FieldRow : Set := mk_FieldRow { fir_flags : Z; fir_name : Z; fir_signature : Z }.
Record MethodDefRow : Set := mk_MethodDefRow {
  mdr_rva : Z; mdr_impl_flags : Z; mdr_flags : Z; mdr_name : Z; mdr_signature : Z;
  mdr_param_list : Z }.
Record ParamRow : Set := mk_ParamRow { par_flags : Z; par_sequence : Z; par_name : Z }.
Record InterfaceImplRow : Set := mk_InterfaceImplRow { iir_class : Z; iir_interface : Z }.
Record MemberRefRow : Set := mk_MemberRefRow { mer_class : Z; mer_name : Z; mer_signature : Z }.
Record ConstantRow : Set := mk_ConstantRow { cor_type_code : Z; cor_parent : Z; cor_value : Z }.
Record CustomAttributeRow : Set := mk_CustomAttributeRow {
  car_parent : Z; car_ctor : Z; car_value : Z }.
Record ClassLayoutRow : Set := mk_ClassLayoutRow {
  clr_packing_size : Z; clr_class_size : Z; clr_parent : Z }.
Record FieldLayoutRow : Set := mk_FieldLayoutRow { flr_offset : Z; flr_field : Z }.
Record StandAloneSigRow : Set := mk_StandAloneSigRow { ssr_signature : Z }.
Record ModuleRefRow : Set := mk_ModuleRefRow { mrr_name : Z }.
Record TypeSpecRow : Set := mk_TypeSpecRow { tsr_signature : Z }.
Record ImplMapRow : Set := mk_ImplMapRow {
  imr_mapping_flags : Z; imr_member_forwarded : Z; imr_import_name : Z; imr_import_scope : Z }.
Record FieldRvaRow : Set := mk_FieldRvaRow { frr_rva : Z; frr_field : Z }.
Record AssemblyRow : Set := mk_AssemblyRow {
  asr_hash_alg_id : Z; asr_major : Z; asr_minor : Z; asr_build : Z; asr_revision : Z;
  asr_flags : Z; asr_public_key : Z; asr_name : Z; asr_culture : Z }.
Record AssemblyRefRow : Set := mk_AssemblyRefRow {
  arr_major : Z; arr_minor : Z; arr_build : Z; arr_revision : Z; arr_flags : Z;
  arr_public_key_or_token : Z; arr_name : Z; arr_culture : Z; arr_hash_value : Z }.
Record MethodSpecRow : Set := mk_MethodSpecRow { msr_method : Z; msr_instantiation : Z }.
Record MethodImplRow : Set := mk_MethodImplRow {
  mir_class : Z; mir_method_body : Z; mir_method_declaration : Z }.
Record EventMapRow : Set := mk_EventMapRow { emr_parent : Z; emr_event_list : Z }.
Record EventRow : Set := mk_EventRow { evr_event_flags : Z; evr_name : Z; evr_event_type : Z }.
Record PropertyMapRow : Set := mk_PropertyMapRow { pmr_parent : Z; pmr_property_list : Z }.
Record PropertyRow : Set := mk_PropertyRow { prr_flags : Z; prr_name : Z; prr_signature : Z }.
Record MethodSemanticsRow : Set := mk_MethodSemanticsRow {
  ser_semantics : Z; ser_method : Z; ser_association : Z }.
Record GenericParamRow : Set := mk_GenericParamRow {
  gpr_number : Z; gpr_flags : Z; gpr_owner : Z; gpr_name : Z }.

(** [DotnetVersion] of rust-dotnet-sdk-core. *)
Module DotnetRuntime.
Inductive t : Set := Net10 | UnityNetStandard21.

#[global] Instance eq_dec : EqDecision t.
Proof. solve_decision. Defined.

Definition assembly_ver_tuple (v : t) : Z * Z * Z * Z :=
  match v with Net10 => (10, 0, 0, 0) | UnityNetStandard21 => (4, 0, 0, 0) end.
End DotnetRuntime.

(** ** The builder *)

Record MetadataBuilder : Type := mk_MetadataBuilder {
  h_strings : Heap;
  h_blobs : Heap;
  h_guids : list Z;
  h_user_strings : Heap;
  t_module : list ModuleRow;
  t_type_ref : list TypeRefRow;
  t_type_def : list TypeDefRow;
  t_field : list FieldRow;
  t_method_def : list MethodDefRow;
  t_param : list ParamRow;
  t_interface_impl : list InterfaceImplRow;
  t_member_ref : list MemberRefRow;
  t_constant : list ConstantRow;
  t_custom_attribute : list CustomAttributeRow;
  t_class_layout : list ClassLayoutRow;
  t_field_layout : list FieldLayoutRow;
  t_standalone_sig : list StandAloneSigRow;
  t_module_ref : list ModuleRefRow;
  t_type_spec : list TypeSpecRow;
  t_impl_map : list ImplMapRow;
  t_field_rva : list FieldRvaRow;
  t_assembly : list AssemblyRow;
  t_assembly_ref : list AssemblyRefRow;
  t_method_spec : list MethodSpecRow;
  t_method_impl : list MethodImplRow;
  t_event_map : list EventMapRow;
  t_event : list EventRow;
  t_property_map : list PropertyMapRow;
  t_property : list PropertyRow;
  t_method_semantics : list MethodSemanticsRow;
  t_generic_param : list GenericParamRow;
  type_ref_cache : gmap (Z * string * string) Z;
  type_def_cache : gmap string (gmap string Z);
  member_ref_cache : gmap (Z * string * Z) Z;
  assembly_ref_cache : gmap string Z;
  module_ref_cache : gmap string Z;
  standalone_sig_cache : gmap Z Z;
  calli_sig_cache : gmap string Z;
  locals_sig_cache : gmap (list string) Z;
  type_spec_cache : gmap Z Z;
  class_token_cache : gmap (Interned KClassRef) Z;
  method_def_cache : gmap (Interned KMethodRef) Z;
  field_def_cache : gmap (Z * Z * Z) Z;
  method_param_cache : gmap (Z * Z) Z;
  pending_field_rva : gmap Z Z;
  entry_point_ : option Z;
  current_type_def : option Z;
  is_lib : bool;
  runtime : DotnetRuntime.t;
  public_module_full_name : option string }.

(** [MetadataBuilder::default] *)
Definition builder_default : MetadataBuilder :=
  mk_MetadataBuilder empty_heap empty_heap [] empty_heap [] [] [] [] [] [] [] [] [] [] [] [] [] [] []
    [] [] [] [] [] [] [] [] [] [] [] [] ∅ ∅ ∅ ∅ ∅ ∅ ∅ ∅ ∅ ∅ ∅ ∅ ∅ ∅ None None false DotnetRuntime.Net10
    None.

(** The builder, field by field: assignments to one field replace its projection. *)
Definition rebuild (b : MetadataBuilder) : MetadataBuilder :=
  mk_MetadataBuilder (h_strings b) (h_blobs b) (h_guids b) (h_user_strings b) (t_module b)
    (t_type_ref b) (t_type_def b) (t_field b) (t_method_def b) (t_param b) (t_interface_impl b)
    (t_member_ref b) (t_constant b) (t_custom_attribute b) (t_class_layout b) (t_field_layout b)
    (t_standalone_sig b) (t_module_ref b) (t_type_spec b) (t_impl_map b) (t_field_rva b)
    (t_assembly b) (t_assembly_ref b) (t_method_spec b) (t_method_impl b) (t_event_map b)
    (t_event b) (t_property_map b) (t_property b) (t_method_semantics b) (t_generic_param b)
    (type_ref_cache b) (type_def_cache b) (member_ref_cache b) (assembly_ref_cache b)
    (module_ref_cache b) (standalone_sig_cache b) (calli_sig_cache b) (locals_sig_cache b)
    (type_spec_cache b) (class_token_cache b) (method_def_cache b) (field_def_cache b)
    (method_param_cache b) (pending_field_rva b) (entry_point_ b) (current_type_def b) (is_lib b)
    (runtime b) (public_module_full_name b).

Ltac assigning field :=
  let e := eval cbv delta [rebuild] in rebuild in
  let e := eval pattern field in e in
  match e with ?g _ => let r := eval cbv beta in (fun b v => g (fun _ => v) b) in exact r end.

Definition set_h_strings : MetadataBuilder -> Heap -> MetadataBuilder := ltac:(assigning h_strings).
Definition set_h_blobs : MetadataBuilder -> Heap -> MetadataBuilder := ltac:(assigning h_blobs).
Definition set_h_guids : MetadataBuilder -> list Z -> MetadataBuilder := ltac:(assigning h_guids).
Definition set_h_user_strings : MetadataBuilder -> Heap -> MetadataBuilder := ltac:(assigning h_user_strings).
Definition set_t_module : MetadataBuilder -> list ModuleRow -> MetadataBuilder := ltac:(assigning t_module).
Definition set_t_type_ref : MetadataBuilder -> list TypeRefRow -> MetadataBuilder := ltac:(assigning t_type_ref).
Definition set_t_type_def : MetadataBuilder -> list TypeDefRow -> MetadataBuilder := ltac:(assigning t_type_def).
Definition set_t_field : MetadataBuilder -> list FieldRow -> MetadataBuilder := ltac:(assigning t_field).
Definition set_t_method_def : MetadataBuilder -> list MethodDefRow -> MetadataBuilder := ltac:(assigning t_method_def).
Definition set_t_param : MetadataBuilder -> list ParamRow -> MetadataBuilder := ltac:(assigning t_param).
Definition set_t_interface_impl : MetadataBuilder -> list InterfaceImplRow -> MetadataBuilder := ltac:(assigning t_interface_impl).
Definition set_t_member_ref : MetadataBuilder -> list MemberRefRow -> MetadataBuilder := ltac:(assigning t_member_ref).
Definition set_t_constant : MetadataBuilder -> list ConstantRow -> MetadataBuilder := ltac:(assigning t_constant).
Definition set_t_custom_attribute : MetadataBuilder -> list CustomAttributeRow -> MetadataBuilder := ltac:(assigning t_custom_attribute).
Definition set_t_class_layout : MetadataBuilder -> list ClassLayoutRow -> MetadataBuilder := ltac:(assigning t_class_layout).
Definition set_t_field_layout : MetadataBuilder -> list FieldLayoutRow -> MetadataBuilder := ltac:(assigning t_field_layout).
Definition set_t_standalone_sig : MetadataBuilder -> list StandAloneSigRow -> MetadataBuilder := ltac:(assigning t_standalone_sig).
Definition set_t_module_ref : MetadataBuilder -> list ModuleRefRow -> MetadataBuilder := ltac:(assigning t_module_ref).
Definition set_t_type_spec : MetadataBuilder -> list TypeSpecRow -> MetadataBuilder := ltac:(assigning t_type_spec).
Definition set_t_impl_map : MetadataBuilder -> list ImplMapRow -> MetadataBuilder := ltac:(assigning t_impl_map).
Definition set_t_field_rva : MetadataBuilder -> list FieldRvaRow -> MetadataBuilder := ltac:(assigning t_field_rva).
Definition set_t_assembly : MetadataBuilder -> list AssemblyRow -> MetadataBuilder := ltac:(assigning t_assembly).
Definition set_t_assembly_ref : MetadataBuilder -> list AssemblyRefRow -> MetadataBuilder := ltac:(assigning t_assembly_ref).
Definition set_t_method_spec : MetadataBuilder -> list MethodSpecRow -> MetadataBuilder := ltac:(assigning t_method_spec).
Definition set_t_method_impl : MetadataBuilder -> list MethodImplRow -> MetadataBuilder := ltac:(assigning t_method_impl).
Definition set_t_event_map : MetadataBuilder -> list EventMapRow -> MetadataBuilder := ltac:(assigning t_event_map).
Definition set_t_event : MetadataBuilder -> list EventRow -> MetadataBuilder := ltac:(assigning t_event).
Definition set_t_property_map : MetadataBuilder -> list PropertyMapRow -> MetadataBuilder := ltac:(assigning t_property_map).
Definition set_t_property : MetadataBuilder -> list PropertyRow -> MetadataBuilder := ltac:(assigning t_property).
Definition set_t_method_semantics : MetadataBuilder -> list MethodSemanticsRow -> MetadataBuilder := ltac:(assigning t_method_semantics).
Definition set_t_generic_param : MetadataBuilder -> list GenericParamRow -> MetadataBuilder := ltac:(assigning t_generic_param).
Definition set_type_ref_cache : MetadataBuilder -> gmap (Z * string * string) Z -> MetadataBuilder := ltac:(assigning type_ref_cache).
Definition set_type_def_cache : MetadataBuilder -> gmap string (gmap string Z) -> MetadataBuilder := ltac:(assigning type_def_cache).
Definition set_member_ref_cache : MetadataBuilder -> gmap (Z * string * Z) Z -> MetadataBuilder := ltac:(assigning member_ref_cache).
Definition set_assembly_ref_cache : MetadataBuilder -> gmap string Z -> MetadataBuilder := ltac:(assigning assembly_ref_cache).
Definition set_module_ref_cache : MetadataBuilder -> gmap string Z -> MetadataBuilder := ltac:(assigning module_ref_cache).
Definition set_standalone_sig_cache : MetadataBuilder -> gmap Z Z -> MetadataBuilder := ltac:(assigning standalone_sig_cache).
Definition set_calli_sig_cache : MetadataBuilder -> gmap string Z -> MetadataBuilder := ltac:(assigning calli_sig_cache).
Definition set_locals_sig_cache : MetadataBuilder -> gmap (list string) Z -> MetadataBuilder := ltac:(assigning locals_sig_cache).
Definition set_type_spec_cache : MetadataBuilder -> gmap Z Z -> MetadataBuilder := ltac:(assigning type_spec_cache).
Definition set_class_token_cache : MetadataBuilder -> gmap (Interned KClassRef) Z -> MetadataBuilder := ltac:(assigning class_token_cache).
Definition set_method_def_cache : MetadataBuilder -> gmap (Interned KMethodRef) Z -> MetadataBuilder := ltac:(assigning method_def_cache).
Definition set_field_def_cache : MetadataBuilder -> gmap (Z * Z * Z) Z -> MetadataBuilder := ltac:(assigning field_def_cache).
Definition set_method_param_cache : MetadataBuilder -> gmap (Z * Z) Z -> MetadataBuilder := ltac:(assigning method_param_cache).
Definition set_pending_field_rva : MetadataBuilder -> gmap Z Z -> MetadataBuilder := ltac:(assigning pending_field_rva).
Definition set_entry_point_ : MetadataBuilder -> option Z -> MetadataBuilder := ltac:(assigning entry_point_).
Definition set_current_type_def : MetadataBuilder -> option Z -> MetadataBuilder := ltac:(assigning current_type_def).
Definition set_is_lib : MetadataBuilder -> bool -> MetadataBuilder := ltac:(assigning is_lib).
Definition set_runtime : MetadataBuilder -> DotnetRuntime.t -> MetadataBuilder := ltac:(assigning runtime).
Definition set_public_module_full_name : MetadataBuilder -> option string -> MetadataBuilder := ltac:(assigning public_module_full_name).

(** ** Tokens *)

Definition TABLE_MODULE : Z := 0x00.
Definition TABLE_TYPE_REF : Z := 0x01.
Definition TABLE_TYPE_DEF : Z := 0x02.
Definition TABLE_FIELD : Z := 0x04.
Definition TABLE_METHOD_DEF : Z := 0x06.
Definition TABLE_PARAM : Z := 0x08.
Definition TABLE_INTERFACE_IMPL : Z := 0x09.
Definition TABLE_MEMBER_REF : Z := 0x0A.
Definition TABLE_CONSTANT : Z := 0x0B.
Definition TABLE_CUSTOM_ATTRIBUTE : Z := 0x0C.
Definition TABLE_CLASS_LAYOUT : Z := 0x0F.
Definition TABLE_FIELD_LAYOUT : Z := 0x10.
Definition TABLE_STAND_ALONE_SIG : Z := 0x11.
Definition TABLE_EVENT_MAP : Z := 0x12.
Definition TABLE_EVENT : Z := 0x14.
Definition TABLE_PROPERTY_MAP : Z := 0x15.
Definition TABLE_PROPERTY : Z := 0x17.
Definition TABLE_METHOD_SEMANTICS : Z := 0x18.
Definition TABLE_METHOD_IMPL : Z := 0x19.
Definition TABLE_MODULE_REF : Z := 0x1A.
Definition TABLE_TYPE_SPEC : Z := 0x1B.
Definition TABLE_IMPL_MAP : Z := 0x1C.
Definition TABLE_FIELD_RVA : Z := 0x1D.
Definition TABLE_ASSEMBLY : Z := 0x20.
Definition TABLE_ASSEMBLY_REF : Z := 0x23.
Definition TABLE_GENERIC_PARAM : Z := 0x2A.
Definition TABLE_METHOD_SPEC : Z := 0x2B.

Definition SORTED_TABLES : list Z :=
  [TABLE_CONSTANT; TABLE_INTERFACE_IMPL; TABLE_CLASS_LAYOUT; TABLE_FIELD_LAYOUT; TABLE_FIELD_RVA;
   TABLE_IMPL_MAP; TABLE_METHOD_SEMANTICS; TABLE_METHOD_IMPL; TABLE_GENERIC_PARAM].

(** ** Coded indices *)

Section coded.
Context {E : Type}.

(** The tag of a table among those a coded index can target; any other table panics. *)
Definition tag_of (tags : list (Z * Z)) (table : Z) : outcome E Z :=
  match List.find (fun '(t, _) => t =? table) tags with
  | Some (_, tag) => Ok tag
  | None => Panic
  end.

(** [(token.rid() << bits) | tag] *)
Definition coded (bits : Z) (tags : list (Z * Z)) (token : Z) : outcome E Z :=
  tag ← tag_of tags (token_table token);
  Ok (Z.lor (wrap 32 (Z.shiftl (token_rid token) bits)) tag).

Definition encode_type_def_or_ref_token : Z -> outcome E Z :=
  coded 2 [(TABLE_TYPE_DEF, 0); (TABLE_TYPE_REF, 1); (TABLE_TYPE_SPEC, 2)].

Definition encode_resolution_scope (token : option Z) : outcome E Z :=
  match token with
  | None => Ok 0
  | Some token =>
      coded 2 [(TABLE_MODULE, 0); (TABLE_MODULE_REF, 1); (TABLE_ASSEMBLY_REF, 2); (TABLE_TYPE_REF, 3)]
        token
  end.

Definition encode_member_ref_parent : Z -> outcome E Z :=
  coded 3 [(TABLE_TYPE_DEF, 0); (TABLE_TYPE_REF, 1); (TABLE_MODULE_REF, 2); (TABLE_METHOD_DEF, 3);
           (TABLE_TYPE_SPEC, 4)].

Definition encode_method_def_or_ref : Z -> outcome E Z :=
  coded 1 [(TABLE_METHOD_DEF, 0); (TABLE_MEMBER_REF, 1)].

Definition encode_has_custom_attribute : Z -> outcome E Z :=
  coded 5 [(TABLE_METHOD_DEF, 0); (TABLE_FIELD, 1); (TABLE_TYPE_REF, 2); (TABLE_TYPE_DEF, 3);
           (TABLE_PARAM, 4); (TABLE_INTERFACE_IMPL, 5); (TABLE_MEMBER_REF, 6); (TABLE_MODULE, 7);
           (TABLE_PROPERTY, 9); (TABLE_ASSEMBLY, 14); (TABLE_ASSEMBLY_REF, 15); (TABLE_TYPE_SPEC, 13)].

Definition encode_custom_attribute_type : Z -> outcome E Z :=
  coded 3 [(TABLE_METHOD_DEF, 2); (TABLE_MEMBER_REF, 3)].

Definition encode_member_forwarded : Z -> outcome E Z :=
  coded 1 [(TABLE_FIELD, 0); (TABLE_METHOD_DEF, 1)].

Definition encode_type_or_method_def : Z -> outcome E Z :=
  coded 1 [(TABLE_TYPE_DEF, 0); (TABLE_METHOD_DEF, 1)].

Definition encode_has_semantics : Z -> outcome E Z :=
  coded 1 [(TABLE_EVENT, 0); (TABLE_PROPERTY, 1)].

(** The inverse of [encode_type_def_or_ref_token]; [unreachable!] on the fourth tag. *)
Definition decode_type_def_or_ref (coded : Z) : outcome E Z :=
  let tag := Z.land coded 0x3 in
  let rid := Z.shiftr coded 2 in
  table ← (if tag =? 0 then Ok TABLE_TYPE_DEF
           else if tag =? 1 then Ok TABLE_TYPE_REF
           else if tag =? 2 then Ok TABLE_TYPE_SPEC else Panic);
  Ok (token_new table rid).
End coded.

(** ** Row counts and widths *)

Record RowCounts : Set := mk_RowCounts {
  n_module : Z; n_type_ref : Z; n_type_def : Z; n_field : Z; n_method_def : Z; n_param : Z;
  n_interface_impl : Z; n_member_ref : Z; n_constant : Z; n_custom_attribute : Z;
  n_class_layout : Z; n_field_layout : Z; n_standalone_sig : Z; n_module_ref : Z; n_type_spec : Z;
  n_impl_map : Z; n_field_rva : Z; n_assembly : Z; n_assembly_ref : Z; n_method_spec : Z;
  n_method_impl : Z; n_event_map : Z; n_event : Z; n_property_map : Z; n_property : Z;
  n_method_semantics : Z; n_generic_param : Z }.

Definition len {A} (l : list A) : Z := Z.of_nat (length l).

Definition row_counts (b : MetadataBuilder) : RowCounts :=
  {|
     n_module := len (t_module b); n_type_ref := len (t_type_ref b);
     n_type_def := len (t_type_def b); n_field := len (t_field b);
     n_method_def := len (t_method_def b); n_param := len (t_param b);
     n_interface_impl := len (t_interface_impl b); n_member_ref := len (t_member_ref b);
     n_constant := len (t_constant b); n_custom_attribute := len (t_custom_attribute b);
     n_class_layout := len (t_class_layout b); n_field_layout := len (t_field_layout b);
     n_standalone_sig := len (t_standalone_sig b); n_module_ref := len (t_module_ref b);
     n_type_spec := len (t_type_spec b); n_impl_map := len (t_impl_map b);
     n_field_rva := len (t_field_rva b); n_assembly := len (t_assembly b);
     n_assembly_ref := len (t_assembly_ref b); n_method_spec := len (t_method_spec b);
     n_method_impl := len (t_method_impl b); n_event_map := len (t_event_map b);
     n_event := len (t_event b); n_property_map := len (t_property_map b);
     n_property := len (t_property b); n_method_semantics := len (t_method_semantics b);
     n_generic_param := len (t_generic_param b) |}.

Definition simple_wide (rows : Z) : bool := 0xFFFF <? rows.
Definition coded_wide (tag_bits max_rows : Z) : bool := Z.shiftl 1 (16 - tag_bits) <=? max_rows.

Record Widths : Set := mk_Widths {
  heap_sizes : Z;
  str_wide : bool; guid_wide : bool; blob_wide : bool;
  type_def_wide : bool; field_wide : bool; method_def_wide : bool; param_wide : bool;
  module_ref_wide : bool; event_wide : bool; property_wide : bool;
  type_def_or_ref_wide : bool; resolution_scope_wide : bool; member_ref_parent_wide : bool;
  has_constant_wide : bool; method_def_or_ref_wide : bool; has_custom_attribute_wide : bool;
  custom_attribute_type_wide : bool; member_forwarded_wide : bool; has_semantics_wide : bool;
  type_or_method_def_wide : bool }.

(** [Widths::compute] *)
Definition compute_widths (sizes : RowCounts) (strings blobs : Heap) (guids : list Z) : Widths :=
  let str_wide := 0xFFFF <? len (heap_data strings) in
  let blob_wide := 0xFFFF <? len (heap_data blobs) in
  let guid_wide := 0xFFFF <? len guids in
  let heap_sizes := if str_wide then Z.lor 0 0x1 else 0 in
  let heap_sizes := if guid_wide then Z.lor heap_sizes 0x2 else heap_sizes in
  let heap_sizes := if blob_wide then Z.lor heap_sizes 0x4 else heap_sizes in
  let type_def_or_ref_max :=
    n_type_def sizes `max` n_type_ref sizes `max` n_type_spec sizes in
  let resolution_scope_max :=
    n_module sizes `max` n_module_ref sizes `max` n_assembly_ref sizes `max` n_type_ref sizes in
  let member_ref_parent_max :=
    n_type_def sizes `max` n_type_ref sizes `max` n_module_ref sizes `max` n_method_def sizes `max`
    n_type_spec sizes in
  let method_def_or_ref_max := n_method_def sizes `max` n_member_ref sizes in
  let has_constant_max := n_field sizes `max` n_param sizes `max` n_property sizes in
  let has_custom_attribute_max :=
    n_method_def sizes `max` n_field sizes `max` n_type_ref sizes `max` n_type_def sizes `max`
    n_param sizes `max` n_interface_impl sizes `max` n_member_ref sizes `max` n_module sizes `max`
    n_assembly sizes `max` n_assembly_ref sizes `max` n_type_spec sizes `max`
    n_generic_param sizes `max` n_event sizes `max` n_property sizes `max`
    n_standalone_sig sizes `max` n_module_ref sizes `max` n_method_spec sizes in
  let custom_attribute_type_max := n_method_def sizes `max` n_member_ref sizes in
  let member_forwarded_max := n_field sizes `max` n_method_def sizes in
  let has_semantics_max := n_event sizes `max` n_property sizes in
  let type_or_method_def_max := n_type_def sizes `max` n_method_def sizes in
  {| heap_sizes := heap_sizes; str_wide := str_wide; guid_wide := guid_wide; blob_wide := blob_wide;
     type_def_wide := simple_wide (n_type_def sizes);
     field_wide := simple_wide (n_field sizes);
     method_def_wide := simple_wide (n_method_def sizes);
     param_wide := simple_wide (n_param sizes);
     module_ref_wide := simple_wide (n_module_ref sizes);
     event_wide := simple_wide (n_event sizes);
     property_wide := simple_wide (n_property sizes);
     type_def_or_ref_wide := coded_wide 2 type_def_or_ref_max;
     resolution_scope_wide := coded_wide 2 resolution_scope_max;
     member_ref_parent_wide := coded_wide 3 member_ref_parent_max;
     has_constant_wide := coded_wide 2 has_constant_max;
     method_def_or_ref_wide := coded_wide 1 method_def_or_ref_max;
     has_custom_attribute_wide := coded_wide 5 has_custom_attribute_max;
     custom_attribute_type_wide := coded_wide 3 custom_attribute_type_max;
     member_forwarded_wide := coded_wide 1 member_forwarded_max;
     has_semantics_wide := coded_wide 1 has_semantics_max;
     type_or_method_def_wide := coded_wide 1 type_or_method_def_max |}.

Definition write_heap_idx (value : Z) (wide : bool) : list Z :=
  if wide then le_bytes 4 value else le_bytes 2 (wrap 16 value).
Definition write_simple_idx := write_heap_idx.
Definition write_coded_idx := write_heap_idx.

(** ** The rows of a table *)

(** [sort_by_key]: a stable sort. *)
Section sort.
Context {A K : Type} (le : K -> K -> bool) (key : A -> K).

Fixpoint insert_by (x : A) (l : list A) : list A :=
  match l with
  | [] => [x]
  | y :: l' => if le (key x) (key y) then x :: l else y :: insert_by x l'
  end.

Definition sort_by_key (l : list A) : list A := foldr insert_by [] l.
End sort.

(** Pairs in lexicographic order. *)
Definition pair_leb (a b : Z * Z) : bool := (fst a <? fst b) || ((fst a =? fst b) && (snd a <=? snd b)).

Definition write_rows {R} (write : R -> list Z) (rows : list R) : list Z := concat (map write rows).
Definition write_sorted_rows {R} (key : R -> Z) (write : R -> list Z) (rows : list R) : list Z :=
  concat (map write (sort_by_key Z.leb key rows)).

(** ** Writing rows *)

Definition write_module_row (w : Widths) (row : ModuleRow) : list Z :=
  le_bytes 2 0 ++ write_heap_idx (mor_name row) (str_wide w) ++
  write_heap_idx (mor_mvid row) (guid_wide w) ++ write_heap_idx 0 (guid_wide w) ++
  write_heap_idx 0 (guid_wide w).
Definition write_module_rows (b : MetadataBuilder) (w : Widths) : list Z :=
  write_rows (write_module_row w) (t_module b).

Definition write_type_ref_row (w : Widths) (row : TypeRefRow) : list Z :=
  write_coded_idx (trr_resolution_scope row) (resolution_scope_wide w) ++
  write_heap_idx (trr_name row) (str_wide w) ++ write_heap_idx (trr_namespace row) (str_wide w).
Definition write_type_ref_rows (b : MetadataBuilder) (w : Widths) : list Z :=
  write_rows (write_type_ref_row w) (t_type_ref b).

Definition write_type_def_row (w : Widths) (row : TypeDefRow) : list Z :=
  le_bytes 4 (tdr_flags row) ++ write_heap_idx (tdr_name row) (str_wide w) ++
  write_heap_idx (tdr_namespace row) (str_wide w) ++
  write_coded_idx (tdr_extends row) (type_def_or_ref_wide w) ++
  write_simple_idx (tdr_field_list row) (field_wide w) ++
  write_simple_idx (tdr_method_list row) (method_def_wide w).
Definition write_type_def_rows (b : MetadataBuilder) (w : Widths) : list Z :=
  write_rows (write_type_def_row w) (t_type_def b).

Definition write_field_row (w : Widths) (row : FieldRow) : list Z :=
  le_bytes 2 (fir_flags row) ++ write_heap_idx (fir_name row) (str_wide w) ++
  write_heap_idx (fir_signature row) (blob_wide w).
Definition write_field_rows (b : MetadataBuilder) (w : Widths) : list Z :=
  write_rows (write_field_row w) (t_field b).

Definition write_method_def_row (w : Widths) (row : MethodDefRow) : list Z :=
  le_bytes 4 (mdr_rva row) ++ le_bytes 2 (mdr_impl_flags row) ++ le_bytes 2 (mdr_flags row) ++
  write_heap_idx (mdr_name row) (str_wide w) ++ write_heap_idx (mdr_signature row) (blob_wide w) ++
  write_simple_idx (mdr_param_list row) (param_wide w).
Definition write_method_def_rows (b : MetadataBuilder) (w : Widths) : list Z :=
  write_rows (write_method_def_row w) (t_method_def b).

Definition write_param_row (w : Widths) (row : ParamRow) : list Z :=
  le_bytes 2 (par_flags row) ++ le_bytes 2 (par_sequence row) ++
  write_heap_idx (par_name row) (str_wide w).
Definition write_param_rows (b : MetadataBuilder) (w : Widths) : list Z :=
  write_rows (write_param_row w) (t_param b).

Definition write_interface_impl_row (w : Widths) (row : InterfaceImplRow) : list Z :=
  write_simple_idx (iir_class row) (type_def_wide w) ++
  write_coded_idx (iir_interface row) (type_def_or_ref_wide w).
Definition write_interface_impl_rows (b : MetadataBuilder) (w : Widths) : list Z :=
  write_sorted_rows iir_class (write_interface_impl_row w) (t_interface_impl b).

Definition write_member_ref_row (w : Widths) (row : MemberRefRow) : list Z :=
  write_coded_idx (mer_class row) (member_ref_parent_wide w) ++
  write_heap_idx (mer_name row) (str_wide w) ++ write_heap_idx (mer_signature row) (blob_wide w).
Definition write_member_ref_rows (b : MetadataBuilder) (w : Widths) : list Z :=
  write_rows (write_member_ref_row w) (t_member_ref b).

Definition write_constant_row (w : Widths) (row : ConstantRow) : list Z :=
  le_bytes 1 (cor_type_code row) ++ le_bytes 1 0 ++
  write_coded_idx (cor_parent row) (has_constant_wide w) ++
  write_heap_idx (cor_value row) (blob_wide w).
Definition write_constant_rows (b : MetadataBuilder) (w : Widths) : list Z :=
  write_sorted_rows cor_parent (write_constant_row w) (t_constant b).

Definition write_event_map_row (w : Widths) (row : EventMapRow) : list Z :=
  write_simple_idx (emr_parent row) (type_def_wide w) ++
  write_simple_idx (emr_event_list row) (event_wide w).
Definition write_event_map_rows (b : MetadataBuilder) (w : Widths) : list Z :=
  write_rows (write_event_map_row w) (t_event_map b).

Definition write_event_row (w : Widths) (row : EventRow) : list Z :=
  le_bytes 2 (evr_event_flags row) ++ write_heap_idx (evr_name row) (str_wide w) ++
  write_coded_idx (evr_event_type row) (type_def_or_ref_wide w).
Definition write_event_rows (b : MetadataBuilder) (w : Widths) : list Z :=
  write_rows (write_event_row w) (t_event b).

Definition write_property_map_row (w : Widths) (row : PropertyMapRow) : list Z :=
  write_simple_idx (pmr_parent row) (type_def_wide w) ++
  write_simple_idx (pmr_property_list row) (property_wide w).
Definition write_property_map_rows (b : MetadataBuilder) (w : Widths) : list Z :=
  write_rows (write_property_map_row w) (t_property_map b).

Definition write_property_row (w : Widths) (row : PropertyRow) : list Z :=
  le_bytes 2 (prr_flags row) ++ write_heap_idx (prr_name row) (str_wide w) ++
  write_heap_idx (prr_signature row) (blob_wide w).
Definition write_property_rows (b : MetadataBuilder) (w : Widths) : list Z :=
  write_rows (write_property_row w) (t_property b).

Definition write_method_semantics_row (w : Widths) (row : MethodSemanticsRow) : list Z :=
  le_bytes 2 (ser_semantics row) ++ write_simple_idx (ser_method row) (method_def_wide w) ++
  write_coded_idx (ser_association row) (has_semantics_wide w).
Definition write_method_semantics_rows (b : MetadataBuilder) (w : Widths) : list Z :=
  write_sorted_rows ser_association (write_method_semantics_row w) (t_method_semantics b).

Definition write_method_impl_row (w : Widths) (row : MethodImplRow) : list Z :=
  write_simple_idx (mir_class row) (type_def_wide w) ++
  write_coded_idx (mir_method_body row) (method_def_or_ref_wide w) ++
  write_coded_idx (mir_method_declaration row) (method_def_or_ref_wide w).
Definition write_method_impl_rows (b : MetadataBuilder) (w : Widths) : list Z :=
  write_sorted_rows mir_class (write_method_impl_row w) (t_method_impl b).

Definition write_custom_attribute_row (w : Widths) (row : CustomAttributeRow) : list Z :=
  write_coded_idx (car_parent row) (has_custom_attribute_wide w) ++
  write_coded_idx (car_ctor row) (custom_attribute_type_wide w) ++
  write_heap_idx (car_value row) (blob_wide w).
Definition write_custom_attribute_rows (b : MetadataBuilder) (w : Widths) : list Z :=
  write_sorted_rows car_parent (write_custom_attribute_row w) (t_custom_attribute b).

Definition write_class_layout_row (w : Widths) (row : ClassLayoutRow) : list Z :=
  le_bytes 2 (clr_packing_size row) ++ le_bytes 4 (clr_class_size row) ++
  write_simple_idx (clr_parent row) (type_def_wide w).
Definition write_class_layout_rows (b : MetadataBuilder) (w : Widths) : list Z :=
  write_sorted_rows clr_parent (write_class_layout_row w) (t_class_layout b).

Definition write_field_layout_row (w : Widths) (row : FieldLayoutRow) : list Z :=
  le_bytes 4 (flr_offset row) ++ write_simple_idx (flr_field row) (field_wide w).
Definition write_field_layout_rows (b : MetadataBuilder) (w : Widths) : list Z :=
  write_sorted_rows flr_field (write_field_layout_row w) (t_field_layout b).

Definition write_standalone_sig_row (w : Widths) (row : StandAloneSigRow) : list Z :=
  write_heap_idx (ssr_signature row) (blob_wide w).
Definition write_standalone_sig_rows (b : MetadataBuilder) (w : Widths) : list Z :=
  write_rows (write_standalone_sig_row w) (t_standalone_sig b).

Definition write_module_ref_row (w : Widths) (row : ModuleRefRow) : list Z :=
  write_heap_idx (mrr_name row) (str_wide w).
Definition write_module_ref_rows (b : MetadataBuilder) (w : Widths) : list Z :=
  write_rows (write_module_ref_row w) (t_module_ref b).

Definition write_type_spec_row (w : Widths) (row : TypeSpecRow) : list Z :=
  write_heap_idx (tsr_signature row) (blob_wide w).
Definition write_type_spec_rows (b : MetadataBuilder) (w : Widths) : list Z :=
  write_rows (write_type_spec_row w) (t_type_spec b).

Definition write_impl_map_row (w : Widths) (row : ImplMapRow) : list Z :=
  le_bytes 2 (imr_mapping_flags row) ++
  write_coded_idx (imr_member_forwarded row) (member_forwarded_wide w) ++
  write_heap_idx (imr_import_name row) (str_wide w) ++
  write_simple_idx (imr_import_scope row) (module_ref_wide w).
Definition write_impl_map_rows (b : MetadataBuilder) (w : Widths) : list Z :=
  write_sorted_rows imr_member_forwarded (write_impl_map_row w) (t_impl_map b).

Definition write_field_rva_row (w : Widths) (row : FieldRvaRow) : list Z :=
  le_bytes 4 (frr_rva row) ++ write_simple_idx (frr_field row) (field_wide w).
Definition write_field_rva_rows (b : MetadataBuilder) (w : Widths) : list Z :=
  write_sorted_rows frr_field (write_field_rva_row w) (t_field_rva b).

Definition write_assembly_row (w : Widths) (row : AssemblyRow) : list Z :=
  le_bytes 4 (asr_hash_alg_id row) ++ le_bytes 2 (asr_major row) ++ le_bytes 2 (asr_minor row) ++
  le_bytes 2 (asr_build row) ++ le_bytes 2 (asr_revision row) ++ le_bytes 4 (asr_flags row) ++
  write_heap_idx (asr_public_key row) (blob_wide w) ++
  write_heap_idx (asr_name row) (str_wide w) ++ write_heap_idx (asr_culture row) (str_wide w).
Definition write_assembly_rows (b : MetadataBuilder) (w : Widths) : list Z :=
  write_rows (write_assembly_row w) (t_assembly b).

Definition write_assembly_ref_row (w : Widths) (row : AssemblyRefRow) : list Z :=
  le_bytes 2 (arr_major row) ++ le_bytes 2 (arr_minor row) ++ le_bytes 2 (arr_build row) ++
  le_bytes 2 (arr_revision row) ++ le_bytes 4 (arr_flags row) ++
  write_heap_idx (arr_public_key_or_token row) (blob_wide w) ++
  write_heap_idx (arr_name row) (str_wide w) ++ write_heap_idx (arr_culture row) (str_wide w) ++
  write_heap_idx (arr_hash_value row) (blob_wide w).
Definition write_assembly_ref_rows (b : MetadataBuilder) (w : Widths) : list Z :=
  write_rows (write_assembly_ref_row w) (t_assembly_ref b).

Definition write_generic_param_row (w : Widths) (row : GenericParamRow) : list Z :=
  le_bytes 2 (gpr_number row) ++ le_bytes 2 (gpr_flags row) ++
  write_coded_idx (gpr_owner row) (type_or_method_def_wide w) ++
  write_heap_idx (gpr_name row) (str_wide w).
Definition write_generic_param_rows (b : MetadataBuilder) (w : Widths) : list Z :=
  concat (map (write_generic_param_row w)
    (sort_by_key pair_leb (fun r => (gpr_owner r, gpr_number r)) (t_generic_param b))).

Definition write_method_spec_row (w : Widths) (row : MethodSpecRow) : list Z :=
  write_coded_idx (msr_method row) (method_def_or_ref_wide w) ++
  write_heap_idx (msr_instantiation row) (blob_wide w).
Definition write_method_spec_rows (b : MetadataBuilder) (w : Widths) : list Z :=
  write_rows (write_method_spec_row w) (t_method_spec b).

(** ** The table stream *)

Definition table_rowcounts (sizes : RowCounts) : list (Z * Z) :=
  [(TABLE_MODULE, n_module sizes); (TABLE_TYPE_REF, n_type_ref sizes);
   (TABLE_TYPE_DEF, n_type_def sizes); (TABLE_FIELD, n_field sizes);
   (TABLE_METHOD_DEF, n_method_def sizes); (TABLE_PARAM, n_param sizes);
   (TABLE_INTERFACE_IMPL, n_interface_impl sizes); (TABLE_MEMBER_REF, n_member_ref sizes);
   (TABLE_CONSTANT, n_constant sizes); (TABLE_CUSTOM_ATTRIBUTE, n_custom_attribute sizes);
   (TABLE_CLASS_LAYOUT, n_class_layout sizes); (TABLE_FIELD_LAYOUT, n_field_layout sizes);
   (TABLE_STAND_ALONE_SIG, n_standalone_sig sizes); (TABLE_EVENT_MAP, n_event_map sizes);
   (TABLE_EVENT, n_event sizes); (TABLE_PROPERTY_MAP, n_property_map sizes);
   (TABLE_PROPERTY, n_property sizes); (TABLE_METHOD_SEMANTICS, n_method_semantics sizes);
   (TABLE_METHOD_IMPL, n_method_impl sizes); (TABLE_MODULE_REF, n_module_ref sizes);
   (TABLE_TYPE_SPEC, n_type_spec sizes); (TABLE_IMPL_MAP, n_impl_map sizes);
   (TABLE_FIELD_RVA, n_field_rva sizes); (TABLE_ASSEMBLY, n_assembly sizes);
   (TABLE_ASSEMBLY_REF, n_assembly_ref sizes); (TABLE_GENERIC_PARAM, n_generic_param sizes);
   (TABLE_METHOD_SPEC, n_method_spec sizes)].

(** The bits of the tables that have rows, and those of them that are written sorted. *)
Definition valid_mask (counts : list (Z * Z)) : Z :=
  foldl (fun valid '(id, count) => if 0 <? count then Z.lor valid (Z.shiftl 1 id) else valid) 0 counts.

Definition sorted_mask (counts : list (Z * Z)) : Z :=
  foldl (fun sorted '(id, count) =>
    if (0 <? count) && bool_decide (id ∈ SORTED_TABLES) then Z.lor sorted (Z.shiftl 1 id) else sorted)
    0 counts.

Definition serialize_tables (b : MetadataBuilder) (sizes : RowCounts) (widths : Widths) : list Z :=
  let counts := table_rowcounts sizes in
  le_bytes 4 0 ++ [2; 0; heap_sizes widths; 1] ++ le_bytes 8 (valid_mask counts) ++
  le_bytes 8 (sorted_mask counts) ++
  concat (map (fun '(_, count) => if 0 <? count then le_bytes 4 count else []) counts) ++
  write_module_rows b widths ++ write_type_ref_rows b widths ++ write_type_def_rows b widths ++
  write_field_rows b widths ++ write_method_def_rows b widths ++ write_param_rows b widths ++
  write_interface_impl_rows b widths ++ write_member_ref_rows b widths ++
  write_constant_rows b widths ++ write_custom_attribute_rows b widths ++
  write_class_layout_rows b widths ++ write_field_layout_rows b widths ++
  write_standalone_sig_rows b widths ++ write_event_map_rows b widths ++
  write_event_rows b widths ++ write_property_map_rows b widths ++ write_property_rows b widths ++
  write_method_semantics_rows b widths ++ write_method_impl_rows b widths ++
  write_module_ref_rows b widths ++ write_type_spec_rows b widths ++
  write_impl_map_rows b widths ++ write_field_rva_rows b widths ++ write_assembly_rows b widths ++
  write_assembly_ref_rows b widths ++ write_generic_param_rows b widths ++
  write_method_spec_rows b widths.

(** ** The metadata root *)

Definition pad4 (bytes : list Z) : list Z :=
  bytes ++ replicate (Z.to_nat (- len bytes mod 4)) 0.

(** The bytes of an ASCII string. *)
Definition ascii_bytes (s : string) : list Z :=
  map (fun c => Z.of_nat (Ascii.nat_of_ascii c)) (String.list_ascii_of_string s).

(** A name and its terminator, padded. *)
Definition padded_name (s : string) : list Z := pad4 (ascii_bytes s ++ [0]).

Definition VERSION : string := "v4.0.30319".

(** The headers of streams laid out from [running]: offset, size and name. *)
Fixpoint stream_headers (running : Z) (streams : list (string * list Z)) : list Z :=
  match streams with
  | [] => []
  | (name, bytes) :: streams =>
      le_bytes 4 running ++ le_bytes 4 (len bytes) ++ padded_name name ++
      stream_headers (running + len bytes) streams
  end.

Definition metadata_streams (b : MetadataBuilder) : list (string * list Z) :=
  let sizes := row_counts b in
  let widths := compute_widths sizes (h_strings b) (h_blobs b) (h_guids b) in
  [("#~", pad4 (serialize_tables b sizes widths)); ("#Strings", pad4 (heap_data (h_strings b)));
   ("#US", pad4 (heap_data (h_user_strings b))); ("#GUID", pad4 (h_guids b));
   ("#Blob", pad4 (heap_data (h_blobs b)))]%string.

Definition serialize (b : MetadataBuilder) : list Z :=
  let streams := metadata_streams b in
  let version := padded_name VERSION in
  let out := ascii_bytes "BSJB" ++ le_bytes 2 1 ++ le_bytes 2 1 ++ le_bytes 4 0 ++
             le_bytes 4 (len version) ++ version ++ le_bytes 2 0 ++ le_bytes 2 (len streams) in
  let header_total_len := sum_list_with (fun '(name, _) => 8 + length (padded_name name))%nat streams in
  out ++ stream_headers (len out + Z.of_nat header_total_len) streams ++ concat (map snd streams).

(** [type_system_row_counts] *)
Definition type_system_row_counts {E} (b : MetadataBuilder) : outcome E (list (Z * Z)) :=
  map_outcome (fun '(table, count) => count ← expect_u32 count; Ok (table, count))
    (List.filter (fun '(_, count) => 0 <? count) (table_rowcounts (row_counts b))).
