(* ===== verification/TablesRead.v ===== *)
(** * Metadata tables, as a reader finds them

    The table stream and the metadata root as ECMA-335 (II.22 and II.24.2) lays them out, read
    independently of the writer; what the writer of [Tables] writes reads back. *)

From S2P Require Import Prelude Interner Types Class IR Method Heaps Tables.
From stdpp Require Import sorting.
Local Open Scope Z_scope.

(** ** The schema *)

Inductive Column : Set :=
| CU8 | CU16 | CU32
| CStrings | CGuid | CBlob
| CIndex (table : Z)
(** The first row of a run, which may be empty and end the table. *)
| CRun (table : Z)
| CCoded (bits : Z) (targets : list Z)
(** A coded index that may be nil. *)
| CNullable (bits : Z) (targets : list Z).

(** Targets of coded indices, by tag. *)
Definition TypeDefOrRef : Column := CCoded 2 [0x02; 0x01; 0x1B].
Definition Extends : Column := CNullable 2 [0x02; 0x01; 0x1B].
Definition ResolutionScope : Column := CNullable 2 [0x00; 0x1A; 0x23; 0x01].
Definition MemberRefParent : Column := CCoded 3 [0x02; 0x01; 0x1A; 0x06; 0x1B].
Definition HasConstant : Column := CCoded 2 [0x04; 0x08; 0x17].
Definition HasCustomAttribute : Column :=
  CCoded 5 [0x06; 0x04; 0x01; 0x02; 0x08; 0x09; 0x0A; 0x00; 0x0E; 0x17; 0x14; 0x11; 0x1A; 0x1B; 0x20;
            0x23; 0x26; 0x27; 0x28; 0x2A; 0x2C; 0x2B].
Definition MethodDefOrRef : Column := CCoded 1 [0x06; 0x0A].
Definition MemberForwarded : Column := CCoded 1 [0x04; 0x06].
(** Tags 0, 1 and 4 are not used. *)
Definition CustomAttributeType : Column := CCoded 3 [0x3F; 0x3F; 0x06; 0x0A; 0x3F].
Definition HasSemantics : Column := CCoded 1 [0x14; 0x17].
Definition TypeOrMethodDef : Column := CCoded 1 [0x02; 0x06].

(** The columns of the tables the writer has. *)
Definition schema (table : Z) : option (list Column) :=
  match table with
  | 0x00 => Some [CU16; CStrings; CGuid; CGuid; CGuid]
  | 0x01 => Some [ResolutionScope; CStrings; CStrings]
  | 0x02 => Some [CU32; CStrings; CStrings; Extends; CRun 0x04; CRun 0x06]
  | 0x04 => Some [CU16; CStrings; CBlob]
  | 0x06 => Some [CU32; CU16; CU16; CStrings; CBlob; CRun 0x08]
  | 0x08 => Some [CU16; CU16; CStrings]
  | 0x09 => Some [CIndex 0x02; TypeDefOrRef]
  | 0x0A => Some [MemberRefParent; CStrings; CBlob]
  | 0x0B => Some [CU8; CU8; HasConstant; CBlob]
  | 0x0C => Some [HasCustomAttribute; CustomAttributeType; CBlob]
  | 0x0F => Some [CU16; CU32; CIndex 0x02]
  | 0x10 => Some [CU32; CIndex 0x04]
  | 0x11 => Some [CBlob]
  | 0x12 => Some [CIndex 0x02; CRun 0x14]
  | 0x14 => Some [CU16; CStrings; TypeDefOrRef]
  | 0x15 => Some [CIndex 0x02; CRun 0x17]
  | 0x17 => Some [CU16; CStrings; CBlob]
  | 0x18 => Some [CU16; CIndex 0x06; HasSemantics]
  | 0x19 => Some [CIndex 0x02; MethodDefOrRef; MethodDefOrRef]
  | 0x1A => Some [CStrings]
  | 0x1B => Some [CBlob]
  | 0x1C => Some [CU16; MemberForwarded; CStrings; CIndex 0x1A]
  | 0x1D => Some [CU32; CIndex 0x04]
  | 0x20 => Some [CU32; CU16; CU16; CU16; CU16; CU32; CBlob; CStrings; CStrings]
  | 0x23 => Some [CU16; CU16; CU16; CU16; CU32; CBlob; CStrings; CStrings; CBlob]
  | 0x2A => Some [CU16; CU16; TypeOrMethodDef; CStrings]
  | 0x2B => Some [MethodDefOrRef; CBlob]
  | _ => None
  end.

(** The row count of a table, 0 of one that is absent. *)
Definition count_of (counts : list (Z * Z)) (table : Z) : Z :=
  match List.find (fun '(t, _) => t =? table) counts with Some (_, n) => n | None => 0 end.

(** Whether a column has four bytes: by the [HeapSizes] byte, and by row counts (II.24.2.6). *)
Definition column_wide (heap_sizes : Z) (counts : list (Z * Z)) (c : Column) : bool :=
  match c with
  | CU8 | CU16 => false
  | CU32 => true
  | CStrings => Z.testbit heap_sizes 0
  | CGuid => Z.testbit heap_sizes 1
  | CBlob => Z.testbit heap_sizes 2
  | CIndex table | CRun table => 2 ^ 16 <=? count_of counts table
  | CCoded bits targets | CNullable bits targets => 2 ^ (16 - bits) <=? foldr Z.max 0 (map (count_of counts) targets)
  end.

Lemma run_wide hs counts t : column_wide hs counts (CRun t) = column_wide hs counts (CIndex t).
Proof. reflexivity. Qed.

Lemma nullable_wide hs counts bits targets :
  column_wide hs counts (CNullable bits targets) = column_wide hs counts (CCoded bits targets).
Proof. reflexivity. Qed.

Definition column_size (heap_sizes : Z) (counts : list (Z * Z)) (c : Column) : nat :=
  match c with
  | CU8 => 1
  | _ => if column_wide heap_sizes counts c then 4 else 2
  end.

Lemma run_size hs counts t : column_size hs counts (CRun t) = column_size hs counts (CIndex t).
Proof. reflexivity. Qed.

(** ** The reader *)

Definition read_int (n : nat) (l : list Z) : option (Z * list Z) :=
  if (length l <? n)%nat then None else Some (le_int (take n l), drop n l).

Fixpoint read_row (sizes : list nat) (l : list Z) : option (list Z * list Z) :=
  match sizes with
  | [] => Some ([], l)
  | n :: sizes => '(v, l) ← read_int n l; '(vs, l) ← read_row sizes l; Some (v :: vs, l)
  end.

Fixpoint read_rows (n : nat) (sizes : list nat) (l : list Z) : option (list (list Z) * list Z) :=
  match n with
  | O => Some ([], l)
  | S n => '(row, l) ← read_row sizes l; '(rows, l) ← read_rows n sizes l; Some (row :: rows, l)
  end.

Fixpoint read_counts (tables : list Z) (l : list Z) : option (list (Z * Z) * list Z) :=
  match tables with
  | [] => Some ([], l)
  | t :: tables => '(n, l) ← read_int 4 l; '(counts, l) ← read_counts tables l; Some ((t, n) :: counts, l)
  end.

Fixpoint read_bodies (size : Column -> nat) (counts : list (Z * Z)) (l : list Z)
    : option (list (Z * list (list Z)) * list Z) :=
  match counts with
  | [] => Some ([], l)
  | (t, n) :: counts =>
      columns ← schema t;
      '(rows, l) ← read_rows (Z.to_nat n) (map size columns) l;
      '(tables, l) ← read_bodies size counts l;
      Some ((t, rows) :: tables, l)
  end.

(** The bits of a mask, ascending. *)
Definition bits_of (mask : Z) : list Z := List.filter (Z.testbit mask) (seqZ 0 64).

Record TableStream : Set := mk_TableStream {
  ts_heap_sizes : Z; ts_sorted : list Z; ts_tables : list (Z * list (list Z)) }.

Definition read_tables (l : list Z) : option TableStream :=
  '(_, l) ← read_int 4 l;
  '(_, l) ← read_int 1 l;
  '(_, l) ← read_int 1 l;
  '(heap_sizes, l) ← read_int 1 l;
  '(_, l) ← read_int 1 l;
  '(valid, l) ← read_int 8 l;
  '(sorted, l) ← read_int 8 l;
  '(counts, l) ← read_counts (bits_of valid) l;
  '(tables, _) ← read_bodies (column_size heap_sizes counts) counts l;
  Some (mk_TableStream heap_sizes (bits_of sorted) tables).

(** *** The metadata root *)

(** A name up to its terminator; it takes a multiple of four bytes. *)
Definition read_name (l : list Z) : option (list Z * list Z) :=
  name ← read_cstr l;
  Some (name, drop (Z.to_nat ((len name + 1 + 3) / 4 * 4)) l).

(** Stream headers: name, offset from the root and size. *)
Fixpoint read_headers (n : nat) (l : list Z) : option (list (list Z * (Z * Z))) :=
  match n with
  | O => Some []
  | S n =>
      '(offset, l) ← read_int 4 l;
      '(size, l) ← read_int 4 l;
      '(name, l) ← read_name l;
      headers ← read_headers n l;
      Some ((name, (offset, size)) :: headers)
  end.

(** The streams of a metadata root, by name. *)
Definition read_root (root : list Z) : option (list (list Z * list Z)) :=
  '(magic, l) ← read_int 4 root;
  if negb (magic =? 0x424A5342) then None else
  '(_, l) ← read_int 2 l;
  '(_, l) ← read_int 2 l;
  '(_, l) ← read_int 4 l;
  '(version_length, l) ← read_int 4 l;
  let l := drop (Z.to_nat version_length) l in
  '(_, l) ← read_int 2 l;
  '(streams, l) ← read_int 2 l;
  headers ← read_headers (Z.to_nat streams) l;
  Some (map (fun '(name, (offset, size)) => (name, take (Z.to_nat size) (drop (Z.to_nat offset) root))) headers).

(** ** Row values, in the order of their columns *)

Definition module_values (r : ModuleRow) : list Z := [0; mor_name r; mor_mvid r; 0; 0].
Definition type_ref_values (r : TypeRefRow) : list Z :=
  [trr_resolution_scope r; trr_name r; trr_namespace r].
Definition type_def_values (r : TypeDefRow) : list Z :=
  [tdr_flags r; tdr_name r; tdr_namespace r; tdr_extends r; tdr_field_list r; tdr_method_list r].
Definition field_values (r : FieldRow) : list Z := [fir_flags r; fir_name r; fir_signature r].
Definition method_def_values (r : MethodDefRow) : list Z :=
  [mdr_rva r; mdr_impl_flags r; mdr_flags r; mdr_name r; mdr_signature r; mdr_param_list r].
Definition param_values (r : ParamRow) : list Z := [par_flags r; par_sequence r; par_name r].
Definition interface_impl_values (r : InterfaceImplRow) : list Z := [iir_class r; iir_interface r].
Definition member_ref_values (r : MemberRefRow) : list Z :=
  [mer_class r; mer_name r; mer_signature r].
Definition constant_values (r : ConstantRow) : list Z :=
  [cor_type_code r; 0; cor_parent r; cor_value r].
Definition custom_attribute_values (r : CustomAttributeRow) : list Z :=
  [car_parent r; car_ctor r; car_value r].
Definition class_layout_values (r : ClassLayoutRow) : list Z :=
  [clr_packing_size r; clr_class_size r; clr_parent r].
Definition field_layout_values (r : FieldLayoutRow) : list Z := [flr_offset r; flr_field r].
Definition standalone_sig_values (r : StandAloneSigRow) : list Z := [ssr_signature r].
Definition module_ref_values (r : ModuleRefRow) : list Z := [mrr_name r].
Definition type_spec_values (r : TypeSpecRow) : list Z := [tsr_signature r].
Definition impl_map_values (r : ImplMapRow) : list Z :=
  [imr_mapping_flags r; imr_member_forwarded r; imr_import_name r; imr_import_scope r].
Definition field_rva_values (r : FieldRvaRow) : list Z := [frr_rva r; frr_field r].
Definition assembly_values (r : AssemblyRow) : list Z :=
  [asr_hash_alg_id r; asr_major r; asr_minor r; asr_build r; asr_revision r; asr_flags r;
   asr_public_key r; asr_name r; asr_culture r].
Definition assembly_ref_values (r : AssemblyRefRow) : list Z :=
  [arr_major r; arr_minor r; arr_build r; arr_revision r; arr_flags r; arr_public_key_or_token r;
   arr_name r; arr_culture r; arr_hash_value r].
Definition method_spec_values (r : MethodSpecRow) : list Z := [msr_method r; msr_instantiation r].
Definition method_impl_values (r : MethodImplRow) : list Z :=
  [mir_class r; mir_method_body r; mir_method_declaration r].
Definition event_map_values (r : EventMapRow) : list Z := [emr_parent r; emr_event_list r].
Definition event_values (r : EventRow) : list Z :=
  [evr_event_flags r; evr_name r; evr_event_type r].
Definition property_map_values (r : PropertyMapRow) : list Z := [pmr_parent r; pmr_property_list r].
Definition property_values (r : PropertyRow) : list Z := [prr_flags r; prr_name r; prr_signature r].
Definition method_semantics_values (r : MethodSemanticsRow) : list Z :=
  [ser_semantics r; ser_method r; ser_association r].
Definition generic_param_values (r : GenericParamRow) : list Z :=
  [gpr_number r; gpr_flags r; gpr_owner r; gpr_name r].

(** The tables in the order of the stream; sorted ones by their key. *)
Definition contents (b : MetadataBuilder) : list (Z * list (list Z)) :=
  [(TABLE_MODULE, map module_values (t_module b));
   (TABLE_TYPE_REF, map type_ref_values (t_type_ref b));
   (TABLE_TYPE_DEF, map type_def_values (t_type_def b));
   (TABLE_FIELD, map field_values (t_field b));
   (TABLE_METHOD_DEF, map method_def_values (t_method_def b));
   (TABLE_PARAM, map param_values (t_param b));
   (TABLE_INTERFACE_IMPL, map interface_impl_values (sort_by_key Z.leb iir_class (t_interface_impl b)));
   (TABLE_MEMBER_REF, map member_ref_values (t_member_ref b));
   (TABLE_CONSTANT, map constant_values (sort_by_key Z.leb cor_parent (t_constant b)));
   (TABLE_CUSTOM_ATTRIBUTE, map custom_attribute_values (sort_by_key Z.leb car_parent (t_custom_attribute b)));
   (TABLE_CLASS_LAYOUT, map class_layout_values (sort_by_key Z.leb clr_parent (t_class_layout b)));
   (TABLE_FIELD_LAYOUT, map field_layout_values (sort_by_key Z.leb flr_field (t_field_layout b)));
   (TABLE_STAND_ALONE_SIG, map standalone_sig_values (t_standalone_sig b));
   (TABLE_EVENT_MAP, map event_map_values (t_event_map b));
   (TABLE_EVENT, map event_values (t_event b));
   (TABLE_PROPERTY_MAP, map property_map_values (t_property_map b));
   (TABLE_PROPERTY, map property_values (t_property b));
   (TABLE_METHOD_SEMANTICS, map method_semantics_values (sort_by_key Z.leb ser_association (t_method_semantics b)));
   (TABLE_METHOD_IMPL, map method_impl_values (sort_by_key Z.leb mir_class (t_method_impl b)));
   (TABLE_MODULE_REF, map module_ref_values (t_module_ref b));
   (TABLE_TYPE_SPEC, map type_spec_values (t_type_spec b));
   (TABLE_IMPL_MAP, map impl_map_values (sort_by_key Z.leb imr_member_forwarded (t_impl_map b)));
   (TABLE_FIELD_RVA, map field_rva_values (sort_by_key Z.leb frr_field (t_field_rva b)));
   (TABLE_ASSEMBLY, map assembly_values (t_assembly b));
   (TABLE_ASSEMBLY_REF, map assembly_ref_values (t_assembly_ref b));
   (TABLE_GENERIC_PARAM, map generic_param_values
      (sort_by_key pair_leb (fun r => (gpr_owner r, gpr_number r)) (t_generic_param b)));
   (TABLE_METHOD_SPEC, map method_spec_values (t_method_spec b))].

(** ** Reading back bytes *)

Lemma read_int_bytes n v rest : in_u (8 * Z.of_nat n) v -> read_int n (le_bytes n v ++ rest) = Some (v, rest).
Proof.
  intros Hv. unfold read_int. rewrite length_app, length_le_bytes. destruct (Nat.ltb_spec (n + length rest) n); [lia|].
  rewrite take_app_length', drop_app_length' by (by rewrite length_le_bytes). by rewrite le_int_le_bytes_u.
Qed.

Lemma read_byte v rest : in_u 8 v -> read_int 1 (v :: rest) = Some (v, rest).
Proof.
  intros Hv. pose proof (read_int_bytes 1 v rest Hv) as H. cbn [le_bytes app] in H.
  unfold in_u in Hv. by rewrite Z.mod_small in H.
Qed.

(** A row, column by column. *)
Definition encode_row (sizes : list nat) (vs : list Z) : list Z := concat (zip_with le_bytes sizes vs).

Definition fits (n : nat) (v : Z) : Prop := in_u (8 * Z.of_nat n) v.

Lemma read_row_encoded sizes vs rest :
  Forall2 fits sizes vs -> read_row sizes (encode_row sizes vs ++ rest) = Some (vs, rest).
Proof.
  induction 1 as [|n v sizes vs Hv _ IH]; [done|]. unfold encode_row in *. cbn [zip_with concat read_row].
  rewrite <- app_assoc, read_int_bytes by done. cbn [mbind option_bind]. by rewrite IH.
Qed.

Lemma read_rows_encoded sizes rows rest :
  Forall (Forall2 fits sizes) rows ->
  read_rows (length rows) sizes (concat (map (encode_row sizes) rows) ++ rest) = Some (rows, rest).
Proof.
  induction 1 as [|vs rows Hvs _ IH]; [done|]. cbn [map concat length read_rows].
  rewrite <- app_assoc, read_row_encoded by done. cbn [mbind option_bind]. by rewrite IH.
Qed.

Lemma read_counts_encoded counts rest :
  Forall (fun '(_, n) => in_u 32 n) counts ->
  read_counts (map fst counts) (concat (map (fun '(_, n) => le_bytes 4 n) counts) ++ rest) = Some (counts, rest).
Proof.
  induction 1 as [|[t n] counts Hn _ IH]; [done|]. cbn [map concat fst read_counts].
  rewrite <- app_assoc, read_int_bytes by done. cbn [mbind option_bind]. by rewrite IH.
Qed.

(** The bodies of the tables that have rows. *)
Lemma read_bodies_encoded size (tables : list (Z * list (list Z))) rest :
  Forall (fun '(t, rows) => exists columns, schema t = Some columns /\
    Forall (Forall2 fits (map size columns)) rows) tables ->
  read_bodies size (map (fun '(t, rows) => (t, len rows)) tables)
    (concat (map (fun '(t, rows) => concat (map (encode_row (map size (default [] (schema t)))) rows)) tables) ++ rest)
  = Some (tables, rest).
Proof.
  induction 1 as [|[t rows] tables (columns & Ht & Hrows) _ IH]; [done|]. cbn [map concat read_bodies].
  rewrite Ht. cbn [mbind option_bind default]. unfold len in *. rewrite Nat2Z.id, <- app_assoc, read_rows_encoded by done.
  cbn [mbind option_bind]. by rewrite IH.
Qed.

(** ** Masks *)

Lemma foldl_mask_bit (P : Z * Z -> bool) counts acc i :
  0 <= i -> Forall (fun e => 0 <= fst e) counts ->
  Z.testbit (foldl (fun m e => if P e then Z.lor m (Z.shiftl 1 (fst e)) else m) acc counts) i =
  Z.testbit acc i || existsb (fun e => P e && (fst e =? i)) counts.
Proof.
  intros Hi Hpos. revert acc. induction Hpos as [|e counts He _ IH]; intros acc; cbn [foldl existsb]; [by rewrite orb_false_r|].
  rewrite IH. destruct (P e); cbn [andb]; [|by rewrite orb_false_l].
  rewrite Z.lor_spec, orb_assoc, Z.shiftl_1_l, Z.pow2_bits_eqb by done. done.
Qed.

Lemma ascending_NoDup (l : list Z) : StronglySorted Z.lt l -> NoDup l.
Proof.
  induction 1 as [|x l _ IH Hx]; constructor; [|done]. intros Hin. rewrite list.Forall_forall in Hx.
  apply Hx in Hin. lia.
Qed.

Lemma ascending_ext (l1 l2 : list Z) :
  StronglySorted Z.lt l1 -> StronglySorted Z.lt l2 -> (forall i, i ∈ l1 <-> i ∈ l2) -> l1 = l2.
Proof.
  assert (AntiSymm eq Z.lt) by (intros x y ? ?; lia).
  intros H1 H2 Heq. apply (StronglySorted_unique Z.lt); [done..|].
  apply NoDup_Permutation; [| |done].
  - by apply ascending_NoDup.
  - by apply ascending_NoDup.
Qed.

Lemma seqZ_ascending a n : StronglySorted Z.lt (seqZ a n).
Proof.
  destruct (decide (0 <= n)) as [Hn|Hn]; [|rewrite seqZ_nil by lia; constructor].
  rewrite <- (Z2Nat.id n) by lia. revert a. induction (Z.to_nat n) as [|k IH]; intros a; [constructor|].
  rewrite seqZ_cons by lia. replace (Z.pred (Z.of_nat (S k))) with (Z.of_nat k) by lia.
  constructor; [apply IH|]. apply list.Forall_forall. intros x Hx%elem_of_seqZ. lia.
Qed.

Lemma filter_ascending P l : StronglySorted Z.lt l -> StronglySorted Z.lt (List.filter P l).
Proof.
  induction 1 as [|x l Hl IH Hx]; cbn [List.filter]; [constructor|]. destruct (P x); [|done].
  constructor; [done|]. rewrite list.Forall_forall in *. intros y [Hy _]%list_elem_of_In%filter_In. apply Hx.
  by apply list_elem_of_In.
Qed.

(** The set bits of a mask of ascending tables. *)
Lemma bits_of_mask (P : Z * Z -> bool) counts :
  StronglySorted Z.lt (map fst counts) -> Forall (fun e => 0 <= fst e < 64) counts ->
  bits_of (foldl (fun m e => if P e then Z.lor m (Z.shiftl 1 (fst e)) else m) 0 counts) =
  map fst (List.filter P counts).
Proof.
  intros Hs Hr. assert (Hpos : Forall (fun e => 0 <= fst e) counts) by (eapply list.Forall_impl; [exact Hr|]; cbn beta; intros; lia).
  apply ascending_ext.
  - apply filter_ascending, seqZ_ascending.
  - clear Hr Hpos. induction counts as [|e counts IH]; cbn [map List.filter] in *; [constructor|].
    inversion Hs as [|? ? Hs' Hall]; subst. destruct (P e); [|by apply IH]. cbn [map]. constructor; [by apply IH|].
    rewrite list.Forall_forall in *. intros y Hy. apply Hall. apply list_elem_of_fmap in Hy as (e' & -> & [Hin _]%list_elem_of_In%filter_In).
    apply list_elem_of_fmap. exists e'. by rewrite <- list_elem_of_In in Hin.
  - intros i. unfold bits_of. rewrite list_elem_of_In, filter_In, <- list_elem_of_In, elem_of_seqZ.
    split.
    + intros [Hi Hbit]. rewrite foldl_mask_bit in Hbit by (done || lia). rewrite Z.testbit_0_l in Hbit.
      apply existsb_exists in Hbit as (e & Hin & [HP <-%Z.eqb_eq]%andb_true_iff).
      apply list_elem_of_fmap. exists e. split; [done|]. by apply list_elem_of_In, filter_In.
    + intros (e & -> & [Hin HP]%list_elem_of_In%filter_In)%list_elem_of_fmap.
      pose proof Hr as Hr'. rewrite list.Forall_forall in Hr'. specialize (Hr' e (proj2 (list_elem_of_In _ _) Hin)).
      split; [lia|]. rewrite foldl_mask_bit by (done || lia). apply orb_true_iff. right. apply existsb_exists.
      exists e. by rewrite HP, Z.eqb_refl.
Qed.

(** ** Widths *)

Section widths.
Context (b : MetadataBuilder).

Local Notation sizes := (row_counts b).
Local Notation widths := (compute_widths sizes (h_strings b) (h_blobs b) (h_guids b)).

(** The row counts that a reader has: those of the tables with rows. *)
Definition present_counts : list (Z * Z) :=
  List.filter (fun e => 0 <? snd e) (table_rowcounts sizes).

Local Notation wide := (column_wide (heap_sizes widths) present_counts).

Lemma count_of_filter (counts : list (Z * Z)) t :
  NoDup (map fst counts) -> Forall (fun e => 0 <= snd e) counts ->
  count_of (List.filter (fun e => 0 <? snd e) counts) t = count_of counts t.
Proof.
  unfold count_of. induction counts as [|[t' n] counts IH]; intros Hd Hn; [done|].
  cbn [map] in Hd. inversion Hd as [|? ? Hnin Hd']; subst. inversion Hn as [|? ? Hn0 Hn']; subst. specialize (IH Hd' Hn').
  cbn [List.filter snd fst] in *. destruct (Z.ltb_spec 0 n); cbn [List.find].
  - by destruct (t' =? t).
  - rewrite IH. destruct (Z.eqb_spec t' t) as [->|]; [|done].
    destruct (List.find _ counts) as [[t2 n2]|] eqn:Hf; [|lia].
    apply find_some in Hf as [Hin ->%Z.eqb_eq]. destruct Hnin. apply list_elem_of_fmap.
    eexists. split; [|by apply list_elem_of_In]. done.
Qed.

Lemma tables_ascending : StronglySorted Z.lt (map fst (table_rowcounts sizes)).
Proof. repeat (constructor; [|repeat (constructor; [by vm_compute|]); constructor]). constructor. Qed.

Lemma counts_nonneg : Forall (fun e => 0 <= snd e) (table_rowcounts sizes).
Proof. repeat constructor; cbn; unfold len; lia. Qed.

Lemma present_count t : count_of present_counts t = count_of (table_rowcounts sizes) t.
Proof.
  apply count_of_filter; [|apply counts_nonneg]. apply ascending_NoDup, tables_ascending.
Qed.

Lemma heap_bits :
  Z.testbit (heap_sizes widths) 0 = str_wide widths /\
  Z.testbit (heap_sizes widths) 1 = guid_wide widths /\
  Z.testbit (heap_sizes widths) 2 = blob_wide widths.
Proof.
  cbn [compute_widths heap_sizes str_wide guid_wide blob_wide].
  by destruct (0xFFFF <? len (heap_data (h_strings b))), (0xFFFF <? len (h_guids b)),
    (0xFFFF <? len (heap_data (h_blobs b))).
Qed.

Lemma index_wide t n : count_of (table_rowcounts sizes) t = n -> wide (CIndex t) = simple_wide n.
Proof.
  intros <-. cbn [column_wide]. rewrite present_count. unfold simple_wide.
  apply Bool.eq_iff_eq_true. rewrite Z.leb_le, Z.ltb_lt. lia.
Qed.

Lemma coded_wide_ok bits targets n :
  0 <= bits < 16 ->
  (forall k, 0 < k -> k <= n <-> k <= foldr Z.max 0 (map (count_of (table_rowcounts sizes)) targets)) ->
  wide (CCoded bits targets) = coded_wide bits n.
Proof.
  intros Hb Hn. cbn [column_wide]. rewrite (map_ext _ _ present_count). unfold coded_wide.
  rewrite Z.shiftl_1_l. apply Bool.eq_iff_eq_true. rewrite !Z.leb_le. symmetry. apply Hn. lia.
Qed.

Ltac maxima :=
  intros; cbn -[Z.max Z.le]; unfold count_of; cbn -[Z.max Z.le]; rewrite !Z.max_le_iff;
  split; intros; repeat match goal with H : _ \/ _ |- _ => destruct H as [H|H] end; first [lia | tauto].

(** The widths of the writer are those a reader computes. *)
Lemma widths_agree :
  wide CStrings = str_wide widths /\ wide CGuid = guid_wide widths /\ wide CBlob = blob_wide widths /\
  wide (CIndex 0x02) = type_def_wide widths /\ wide (CIndex 0x04) = field_wide widths /\
  wide (CIndex 0x06) = method_def_wide widths /\ wide (CIndex 0x08) = param_wide widths /\
  wide (CIndex 0x1A) = module_ref_wide widths /\ wide (CIndex 0x14) = event_wide widths /\
  wide (CIndex 0x17) = property_wide widths /\ wide TypeDefOrRef = type_def_or_ref_wide widths /\
  wide ResolutionScope = resolution_scope_wide widths /\ wide Extends = type_def_or_ref_wide widths /\
  wide MemberRefParent = member_ref_parent_wide widths /\ wide HasConstant = has_constant_wide widths /\
  wide MethodDefOrRef = method_def_or_ref_wide widths /\
  wide HasCustomAttribute = has_custom_attribute_wide widths /\
  wide CustomAttributeType = custom_attribute_type_wide widths /\
  wide MemberForwarded = member_forwarded_wide widths /\ wide HasSemantics = has_semantics_wide widths /\
  wide TypeOrMethodDef = type_or_method_def_wide widths.
Proof.
  destruct heap_bits as (H1 & H2 & H3). split_and!; [done..| | | | | | | | | | | | | | | | | |].
  1-7: by apply index_wide.
  all: unfold ResolutionScope, Extends; rewrite ?nullable_wide; apply coded_wide_ok; [lia|maxima].
Qed.
End widths.

(** ** Sorting *)

Section sorting.
Context {A K : Type} (le : K -> K -> bool) (key : A -> K).
Hypothesis le_total : forall a b, le a b = true \/ le b a = true.
Hypothesis le_trans : forall a b c, le a b = true -> le b c = true -> le a c = true.

Lemma insert_by_permutation x l : insert_by le key x l ≡ₚ x :: l.
Proof.
  induction l as [|y l IH]; cbn; [done|]. destruct (le (key x) (key y)); [done|]. rewrite IH. constructor.
Qed.

Lemma sort_permutation l : sort_by_key le key l ≡ₚ l.
Proof. induction l as [|x l IH]; cbn; [done|]. rewrite insert_by_permutation. by constructor. Qed.

Lemma insert_by_sorted x l :
  StronglySorted (fun a b => le (key a) (key b) = true) l ->
  StronglySorted (fun a b => le (key a) (key b) = true) (insert_by le key x l).
Proof.
  induction 1 as [|y l Hl IH Hy]; cbn; [repeat constructor|]. destruct (le (key x) (key y)) eqn:E.
  - constructor; [by constructor|]. constructor; [done|]. eapply list.Forall_impl; [exact Hy|]. eauto.
  - constructor; [done|]. rewrite insert_by_permutation. constructor; [|done].
    destruct (le_total (key x) (key y)); congruence.
Qed.

Lemma sort_sorted l : StronglySorted (fun a b => le (key a) (key b) = true) (sort_by_key le key l).
Proof. induction l; cbn; [constructor|]. by apply insert_by_sorted. Qed.

(** Rows of one key keep their order. *)
Lemma insert_by_stable (P : A -> bool) x l :
  (forall a b, P a = true -> P b = true -> le (key a) (key b) = true) ->
  List.filter P (insert_by le key x l) = List.filter P (x :: l).
Proof.
  intros HP. induction l as [|y l IH]; cbn; [done|]. destruct (le (key x) (key y)) eqn:E; [done|].
  cbn in *. rewrite IH. destruct (P x) eqn:Hx, (P y) eqn:Hy; try done. rewrite HP in E by done. done.
Qed.

Lemma sort_stable (P : A -> bool) l :
  (forall a b, P a = true -> P b = true -> le (key a) (key b) = true) ->
  List.filter P (sort_by_key le key l) = List.filter P l.
Proof.
  intros HP. induction l as [|x l IH]; cbn [sort_by_key foldr]; [done|]. rewrite insert_by_stable by done.
  cbn [List.filter]. unfold sort_by_key in IH. by rewrite IH.
Qed.
End sorting.

Lemma length_sort {A K} (le : K -> K -> bool) (key : A -> K) l : length (sort_by_key le key l) = length l.
Proof. apply Permutation_length, sort_permutation. Qed.

Lemma pair_leb_spec a b :
  pair_leb a b = true <-> (fst a < fst b \/ fst a = fst b /\ snd a <= snd b).
Proof.
  unfold pair_leb. rewrite orb_true_iff, andb_true_iff, Z.ltb_lt, Z.eqb_eq, Z.leb_le. done.
Qed.

(** The columns that a table is sorted by (II.22). *)
Definition key_columns (table : Z) : option (nat * option nat) :=
  match table with
  | 0x09 => Some (0%nat, None) | 0x0B => Some (2%nat, None) | 0x0C => Some (0%nat, None)
  | 0x0F => Some (2%nat, None) | 0x10 => Some (1%nat, None) | 0x18 => Some (2%nat, None)
  | 0x19 => Some (0%nat, None) | 0x1C => Some (1%nat, None) | 0x1D => Some (1%nat, None)
  | 0x2A => Some (2%nat, Some 0%nat)
  | _ => None
  end.

Definition row_key (k : nat * option nat) (row : list Z) : Z * Z :=
  (nth (fst k) row 0, match snd k with Some c => nth c row 0 | None => 0 end).

Lemma sorted_values {A K} (values : A -> list Z) (key : A -> K) (le : K -> K -> bool) (k : nat * option nat) l :
  (forall r s, le (key r) (key s) = true -> pair_leb (row_key k (values r)) (row_key k (values s)) = true) ->
  StronglySorted (fun a b => le (key a) (key b) = true) l ->
  StronglySorted (fun a b => pair_leb (row_key k a) (row_key k b) = true) (map values l).
Proof.
  intros Hle. induction 1 as [|x l _ IH Hx]; cbn; constructor; [done|]. apply Forall_map.
  eapply list.Forall_impl; [exact Hx|]. cbn. auto.
Qed.

Lemma contents_sorted b table rows k :
  (table, rows) ∈ contents b -> key_columns table = Some k ->
  StronglySorted (fun r s => pair_leb (row_key k r) (row_key k s) = true) rows.
Proof.
  intros Hin. assert (H : Forall (fun e => forall k, key_columns (fst e) = Some k ->
    StronglySorted (fun r s => pair_leb (row_key k r) (row_key k s) = true) (snd e)) (contents b));
    [clear Hin k | rewrite list.Forall_forall in H; apply (H _ Hin)].
  unfold contents. repeat (apply list.Forall_cons_2; [intros k Hk; vm_compute in Hk; first [discriminate Hk | injection Hk as <-]; cbn [snd]|]);
    [..|apply list.Forall_nil_2].
  all: match goal with |- context [sort_by_key ?le ?key _] => apply (sorted_values _ key le) end.
  all: try (apply sort_sorted; [intros *; rewrite ?pair_leb_spec, ?Z.leb_le; lia|
                           intros *; rewrite ?pair_leb_spec, ?Z.leb_le; lia]).
  all: intros r s; rewrite pair_leb_spec, ?Z.leb_le; cbn; rewrite ?pair_leb_spec; cbn; lia.
Qed.

(** ** The table stream *)

Section stream.
Context (b : MetadataBuilder).

Local Notation sizes := (row_counts b).
Local Notation widths := (compute_widths sizes (h_strings b) (h_blobs b) (h_guids b)).

(** The size that a reader gives a column. *)
Definition size_of : Column -> nat := column_size (heap_sizes widths) (present_counts b).

Definition row_sizes (table : Z) : list nat := map size_of (default [] (schema table)).

(** Every value fits its column, and every count its four bytes. *)
Definition rows_fit : Prop :=
  Forall (fun '(table, rows) => Forall (Forall2 fits (row_sizes table)) rows) (contents b) /\
  Forall (fun '(_, n) => in_u 32 n) (table_rowcounts sizes).

#[global] Instance rows_fit_dec : Decision rows_fit.
Proof. unfold rows_fit. refine (and_dec _ _); apply list.Forall_dec; intros []; unfold fits; exact _. Defined.

Lemma write_idx v w : write_heap_idx v w = le_bytes (if w then 4 else 2) v.
Proof. unfold write_heap_idx. destruct w; [done|]. apply (le_bytes_wrap 2). Qed.

Lemma size_of_wide c w :
  c <> CU8 -> column_wide (heap_sizes widths) (present_counts b) c = w -> size_of c = (if w then 4 else 2)%nat.
Proof. intros Hc <-. unfold size_of, column_size. by destruct c. Qed.

Lemma sizes_agree :
  size_of CU8 = 1%nat /\ size_of CU16 = 2%nat /\ size_of CU32 = 4%nat /\
  size_of CStrings = (if str_wide widths then 4 else 2)%nat /\
  size_of CGuid = (if guid_wide widths then 4 else 2)%nat /\
  size_of CBlob = (if blob_wide widths then 4 else 2)%nat /\
  size_of (CIndex 0x02) = (if type_def_wide widths then 4 else 2)%nat /\
  size_of (CIndex 0x04) = (if field_wide widths then 4 else 2)%nat /\
  size_of (CIndex 0x06) = (if method_def_wide widths then 4 else 2)%nat /\
  size_of (CIndex 0x08) = (if param_wide widths then 4 else 2)%nat /\
  size_of (CIndex 0x1A) = (if module_ref_wide widths then 4 else 2)%nat /\
  size_of (CIndex 0x14) = (if event_wide widths then 4 else 2)%nat /\
  size_of (CIndex 0x17) = (if property_wide widths then 4 else 2)%nat /\
  size_of TypeDefOrRef = (if type_def_or_ref_wide widths then 4 else 2)%nat /\
  size_of Extends = (if type_def_or_ref_wide widths then 4 else 2)%nat /\
  size_of ResolutionScope = (if resolution_scope_wide widths then 4 else 2)%nat /\
  size_of MemberRefParent = (if member_ref_parent_wide widths then 4 else 2)%nat /\
  size_of HasConstant = (if has_constant_wide widths then 4 else 2)%nat /\
  size_of MethodDefOrRef = (if method_def_or_ref_wide widths then 4 else 2)%nat /\
  size_of HasCustomAttribute = (if has_custom_attribute_wide widths then 4 else 2)%nat /\
  size_of CustomAttributeType = (if custom_attribute_type_wide widths then 4 else 2)%nat /\
  size_of MemberForwarded = (if member_forwarded_wide widths then 4 else 2)%nat /\
  size_of HasSemantics = (if has_semantics_wide widths then 4 else 2)%nat /\
  size_of TypeOrMethodDef = (if type_or_method_def_wide widths then 4 else 2)%nat.
Proof.
  destruct (widths_agree b) as (S&G&B&I2&I4&I6&I8&I1A&I14&I17&C1&C2&C0&C3&C4&C5&C6&C7&C8&C9&C10).
  split; [reflexivity|]. split; [reflexivity|]. split; [reflexivity|].
  split_and!; (apply size_of_wide; [discriminate|]).
  - exact S. - exact G. - exact B. - exact I2. - exact I4. - exact I6. - exact I8. - exact I1A. - exact I14.
  - exact I17. - exact C1. - exact C0. - exact C2. - exact C3. - exact C4. - exact C5. - exact C6. - exact C7.
  - exact C8. - exact C9. - exact C10.
Qed.

(** The bodies of the tables. *)
Definition encode_tables (tables : list (Z * list (list Z))) : list Z :=
  concat (map (fun '(t, rows) => concat (map (encode_row (row_sizes t)) rows)) tables).

Definition nonempty (tables : list (Z * list (list Z))) : list (Z * list (list Z)) :=
  List.filter (fun e => 0 <? len (snd e)) tables.

Lemma encode_nonempty_tables tables : encode_tables (nonempty tables) = encode_tables tables.
Proof.
  unfold encode_tables, nonempty. induction tables as [|[t rows] tables IH]; [done|].
  cbn [List.filter snd map concat]. destruct rows as [|row rows]; [done|].
  replace (0 <? len (row :: rows)) with true by (symmetry; apply Z.ltb_lt; unfold len; cbn; lia).
  cbn [map concat]. by rewrite IH.
Qed.

(** What a row writer writes: the row, column by column. *)
Lemma rows_encoded {R} (write : R -> list Z) (values : R -> list Z) table rows :
  (forall r, write r = encode_row (row_sizes table) (values r)) ->
  concat (map write rows) = concat (map (encode_row (row_sizes table)) (map values rows)).
Proof. intros H. rewrite map_map. f_equal. by apply map_ext. Qed.

End stream.

Lemma size_of_run b t : size_of b (CRun t) = size_of b (CIndex t).
Proof. apply run_size. Qed.

Lemma bodies_encoded b :
  let widths := compute_widths (row_counts b) (h_strings b) (h_blobs b) (h_guids b) in
  encode_tables b (contents b) =
  write_module_rows b widths ++ write_type_ref_rows b widths ++ write_type_def_rows b widths ++
  write_field_rows b widths ++ write_method_def_rows b widths ++ write_param_rows b widths ++
  write_interface_impl_rows b widths ++ write_member_ref_rows b widths ++
  write_constant_rows b widths ++ write_custom_attribute_rows b widths ++
  write_class_layout_rows b widths ++ write_field_layout_rows b widths ++
  write_standalone_sig_rows b widths ++ write_event_map_rows b widths ++
  write_event_rows b widths ++ write_property_map_rows b widths ++ write_property_rows b widths ++
  write_method_semantics_rows b widths ++ write_method_impl_rows b widths ++
  write_module_ref_rows b widths ++ write_type_spec_rows b widths ++
  write_impl_map_rows b widths ++ write_field_rva_rows b widths ++ write_assembly_rows b widths ++
  write_assembly_ref_rows b widths ++ write_generic_param_rows b widths ++
  write_method_spec_rows b widths.
Proof.
  intros widths. pose proof (sizes_agree b) as H. fold widths in H.
  destruct H as (U1&U2&U4&S&G&B&I2&I4&I6&I8&I1A&I14&I17&C1&C0&C2&C3&C4&C5&C6&C7&C8&C9&C10).
  unfold encode_tables, contents. cbn [map concat]. rewrite app_nil_r.
  repeat match goal with |- _ ++ _ = _ ++ _ => f_equal end; symmetry; apply rows_encoded; intros r;
    unfold row_sizes; match goal with |- context [schema ?t] => let s := eval hnf in (schema t) in change (schema t) with s end;
    cbn [default from_option id map];
    match goal with |- ?w _ r = _ => unfold w end; unfold write_simple_idx, write_coded_idx;
    rewrite ?write_idx, ?size_of_run, ?U1, ?U2, ?U4, ?S, ?G, ?B, ?I2, ?I4, ?I6, ?I8, ?I1A, ?I14, ?I17, ?C0, ?C1, ?C2, ?C3, ?C4, ?C5, ?C6, ?C7, ?C8, ?C9, ?C10;
    unfold encode_row;
    match goal with |- _ = concat (zip_with _ _ ?l) => let l' := eval hnf in l in change l with l' end;
    cbn [zip_with concat]; rewrite ?app_nil_r; reflexivity.
Qed.

Lemma contents_counts b :
  map (fun e => (fst e, len (snd e))) (contents b) = table_rowcounts (row_counts b).
Proof.
  cbn [contents map fst snd table_rowcounts row_counts n_module n_type_ref n_type_def n_field n_method_def n_param
    n_interface_impl n_member_ref n_constant n_custom_attribute n_class_layout n_field_layout n_standalone_sig
    n_module_ref n_type_spec n_impl_map n_field_rva n_assembly n_assembly_ref n_method_spec n_method_impl n_event_map
    n_event n_property_map n_property n_method_semantics n_generic_param].
  unfold len. by rewrite !length_map, !length_sort.
Qed.

Lemma filter_map {A B} (f : A -> B) (P : B -> bool) l :
  List.filter P (map f l) = map f (List.filter (fun x => P (f x)) l).
Proof. induction l as [|x l IH]; cbn; [done|]. rewrite IH. by destruct (P (f x)). Qed.

Lemma nonempty_counts b : map (fun '(t, rows) => (t, len rows)) (nonempty (contents b)) = present_counts b.
Proof.
  unfold present_counts. rewrite <- contents_counts, filter_map. unfold nonempty. cbn [snd].
  apply map_ext. by intros [].
Qed.

Lemma filter_Forall {A} (Q : A -> Prop) (P : A -> bool) l : Forall Q l -> Forall Q (List.filter P l).
Proof. induction 1; cbn; [done|]. destruct (P x); [by constructor|done]. Qed.

Lemma in_u_mask (P : Z * Z -> bool) w counts :
  0 <= w -> Forall (fun e => 0 <= fst e < w) counts ->
  in_u w (foldl (fun m e => if P e then Z.lor m (Z.shiftl 1 (fst e)) else m) 0 counts).
Proof.
  intros Hw Hr. assert (H0 : in_u w 0) by (unfold in_u; pose proof (Z.pow_pos_nonneg 2 w); lia). revert H0.
  generalize 0 at 1 2 as acc. induction Hr as [|e counts He _ IH]; intros acc Hacc; [done|]. cbn [foldl]. apply IH.
  destruct (P e); [|done]. unfold in_u in *. split; [apply Z.lor_nonneg; split; [lia|apply Z.shiftl_nonneg; lia]|].
  destruct (decide (Z.lor acc (Z.shiftl 1 (fst e)) = 0)) as [->|Hn]; [lia|].
  apply Z.log2_lt_pow2; [pose proof (Z.lor_nonneg acc (Z.shiftl 1 (fst e))) as [_ ?]; rewrite Z.shiftl_1_l in *; pose proof (Z.pow_pos_nonneg 2 (fst e)); lia|].
  rewrite Z.log2_lor, Z.shiftl_1_l, Z.log2_pow2 by (rewrite ?Z.shiftl_1_l; try apply Z.pow_nonneg; lia).
  apply Z.max_lub_lt; [|lia]. destruct (decide (acc = 0)) as [->|]; [cbn; lia|]. apply Z.log2_lt_pow2; lia.
Qed.

Lemma foldl_ext_in {A B} (f g : A -> B -> A) l acc : (forall a x, f a x = g a x) -> foldl f acc l = foldl g acc l.
Proof. intros H. revert acc. induction l as [|x l IH]; intros acc; cbn; [done|]. by rewrite H. Qed.

Lemma valid_mask_bits counts :
  StronglySorted Z.lt (map fst counts) -> Forall (fun e => 0 <= fst e < 64) counts ->
  in_u 64 (valid_mask counts) /\
  bits_of (valid_mask counts) = map fst (List.filter (fun e => 0 <? snd e) counts).
Proof.
  intros Hs Hr. rewrite <- bits_of_mask by done.
  replace (valid_mask counts) with
    (foldl (fun m e => if (fun e => 0 <? snd e) e then Z.lor m (Z.shiftl 1 (fst e)) else m) 0 counts)
    by (apply foldl_ext_in; by intros ? []).
  split; [by apply in_u_mask|done].
Qed.

Lemma sorted_mask_bits counts :
  StronglySorted Z.lt (map fst counts) -> Forall (fun e => 0 <= fst e < 64) counts ->
  in_u 64 (sorted_mask counts) /\
  bits_of (sorted_mask counts) =
    List.filter (fun t => bool_decide (t ∈ SORTED_TABLES)) (map fst (List.filter (fun e => 0 <? snd e) counts)).
Proof.
  intros Hs Hr. rewrite filter_map.
  replace (List.filter _ (List.filter _ counts)) with
    (List.filter (fun e => (0 <? snd e) && bool_decide (fst e ∈ SORTED_TABLES)) counts).
  2: { clear. induction counts as [|e l IH]; [done|]. cbn [List.filter].
       destruct (0 <? snd e); cbn [List.filter andb]; [|done]. by rewrite IH. }
  rewrite <- bits_of_mask by done.
  replace (sorted_mask counts) with
    (foldl (fun m e => if (fun e => (0 <? snd e) && bool_decide (fst e ∈ SORTED_TABLES)) e
       then Z.lor m (Z.shiftl 1 (fst e)) else m) 0 counts)
    by (apply foldl_ext_in; by intros ? []).
  split; [by apply in_u_mask|done].
Qed.

Lemma bind_read {A B} (o : option A) x (f : A -> option B) r : o = Some x -> f x = r -> o ≫= f = r.
Proof. by intros -> <-. Qed.

Ltac reading by_lemma := eapply bind_read; [by_lemma|cbv beta iota].

Lemma header_read hs valid sorted counts body tables rest :
  in_u 8 hs -> in_u 64 valid -> in_u 64 sorted -> bits_of valid = map fst counts ->
  Forall (fun '(_, n) => in_u 32 n) counts ->
  read_bodies (column_size hs counts) counts body = Some (tables, rest) ->
  read_tables (le_bytes 4 0 ++ [2; 0; hs; 1] ++ le_bytes 8 valid ++ le_bytes 8 sorted ++
    concat (map (fun '(_, n) => le_bytes 4 n) counts) ++ body) =
  Some (mk_TableStream hs (bits_of sorted) tables).
Proof.
  intros Hhs Hv Hs Hb Hc Hbody. unfold read_tables.
  reading ltac:(by apply read_int_bytes). cbn [app].
  do 4 (reading ltac:(by apply read_byte)).
  do 2 (reading ltac:(by apply read_int_bytes)).
  rewrite Hb. reading ltac:(by apply read_counts_encoded). reading ltac:(exact Hbody). done.
Qed.

(** Those of the tables with rows that are declared sorted. *)
Definition present_sorted (b : MetadataBuilder) : list Z :=
  List.filter (fun t => bool_decide (t ∈ SORTED_TABLES)) (map fst (present_counts b)).

Section tables.
Context (b : MetadataBuilder).
Local Notation sizes := (row_counts b).
Local Notation widths := (compute_widths sizes (h_strings b) (h_blobs b) (h_guids b)).

Lemma ids_bounded : Forall (fun e => 0 <= fst e < 64) (table_rowcounts sizes).
Proof. repeat constructor; done. Qed.

Lemma valid_bits :
  in_u 64 (valid_mask (table_rowcounts sizes)) /\ bits_of (valid_mask (table_rowcounts sizes)) = map fst (present_counts b).
Proof. exact (valid_mask_bits _ (tables_ascending b) ids_bounded). Qed.

Lemma sorted_bits :
  in_u 64 (sorted_mask (table_rowcounts sizes)) /\
  bits_of (sorted_mask (table_rowcounts sizes)) = present_sorted b.
Proof. exact (sorted_mask_bits _ (tables_ascending b) ids_bounded). Qed.

Lemma heap_sizes_byte : in_u 8 (heap_sizes widths).
Proof.
  cbn [compute_widths heap_sizes].
  by destruct (0xFFFF <? len (heap_data (h_strings b))), (0xFFFF <? len (h_guids b)),
    (0xFFFF <? len (heap_data (h_blobs b))).
Qed.

Lemma schemas_known : Forall (fun e => is_Some (schema (fst e))) (contents b).
Proof. repeat constructor; by eexists. Qed.

Lemma bodies_read rest :
  rows_fit b ->
  read_bodies (column_size (heap_sizes widths) (present_counts b)) (present_counts b)
    (encode_tables b (nonempty (contents b)) ++ rest) = Some (nonempty (contents b), rest).
Proof.
  intros [Hfit _]. fold (size_of b). rewrite <- nonempty_counts.
  apply read_bodies_encoded, filter_Forall. eapply list.Forall_impl; [exact (List.Forall_and schemas_known Hfit)|].
  intros [t rows] [Ht Hrows]. cbn [fst] in Ht. unfold row_sizes in Hrows.
  destruct (schema t) as [columns|]; [by exists columns|done].
Qed.

Lemma count_words : 
  concat (map (fun '(_, count) => if 0 <? count then le_bytes 4 count else []) (table_rowcounts sizes)) =
  concat (map (fun '(_, n) => le_bytes 4 n) (present_counts b)).
Proof.
  unfold present_counts. generalize (table_rowcounts sizes). intros l. induction l as [|[t n] l IH]; [done|].
  cbn [map concat List.filter snd]. rewrite IH. by destruct (0 <? n).
Qed.

(** A reader of the stream finds the tables that have rows, with the rows as they were added. *)
Lemma tables_read rest :
  rows_fit b ->
  read_tables (serialize_tables b sizes widths ++ rest) =
  Some (mk_TableStream (heap_sizes widths) (present_sorted b) (nonempty (contents b))).
Proof.
  intros Hfit. unfold serialize_tables. cbv zeta. rewrite <- bodies_encoded, count_words, <- encode_nonempty_tables.
  destruct valid_bits as [Hv Hvb]. destruct sorted_bits as [Hs Hsb]. rewrite <- Hsb, <- !app_assoc.
  apply (header_read _ _ _ (present_counts b) _ _ rest heap_sizes_byte Hv Hs Hvb);
    [apply filter_Forall, Hfit|by apply bodies_read].
Qed.
End tables.

(** ** The root *)

Lemma length_pad4 l : len (pad4 l) = (len l + 3) / 4 * 4.
Proof.
  unfold pad4, len. rewrite length_app, length_replicate. 
  pose proof (Z.mod_pos_bound (- Z.of_nat (length l)) 4). rewrite Nat2Z.inj_add, Z2Nat.id by lia.
  pose proof (Z.div_mod (Z.of_nat (length l) + 3) 4). pose proof (Z.mod_pos_bound (Z.of_nat (length l) + 3) 4).
  pose proof (Z.div_mod (- Z.of_nat (length l)) 4). lia.
Qed.

Definition no_zero (l : list Z) : Prop := existsb (fun b => b =? 0) l = false.

Lemma read_padded_name s rest :
  no_zero (ascii_bytes s) -> read_name (padded_name s ++ rest) = Some (ascii_bytes s, rest).
Proof.
  intros Hs. unfold read_name. eapply bind_read.
  - unfold padded_name, pad4. rewrite <- (app_assoc (_ ++ [0])). apply read_cstr_app. by apply read_cstr_entry.
  - cbv beta. do 2 f_equal. apply drop_app_length'. unfold padded_name.
    pose proof (length_pad4 (ascii_bytes s ++ [0])) as H. unfold len in *. rewrite length_app in H. cbn [length] in H. lia.
Qed.

(** Where each stream is, when the first is at [running]. *)
Fixpoint stream_offsets (running : Z) (streams : list (string * list Z)) : list (list Z * (Z * Z)) :=
  match streams with
  | [] => []
  | (name, bytes) :: streams =>
      (ascii_bytes name, (running, len bytes)) :: stream_offsets (running + len bytes) streams
  end.

Lemma read_headers_encoded streams running rest :
  0 <= running -> running + len (concat (map snd streams)) < 2 ^ 32 ->
  Forall (fun '(name, _) => no_zero (ascii_bytes name)) streams ->
  read_headers (length streams) (stream_headers running streams ++ rest) = Some (stream_offsets running streams).
Proof.
  intros H0 H32 Hn. revert running H0 H32. induction Hn as [|[name bytes] streams Hn _ IH]; intros running H0 H32; [done|].
  cbn [stream_headers stream_offsets length read_headers map snd concat] in *.
  unfold len in *. rewrite length_app in H32. rewrite <- !app_assoc.
  reading ltac:(apply read_int_bytes; unfold in_u; lia). reading ltac:(apply read_int_bytes; unfold in_u; lia).
  reading ltac:(by apply read_padded_name). reading ltac:(apply IH; lia). done.
Qed.

Lemma slices streams pre :
  map (fun '(name, (offset, size)) =>
         (name, take (Z.to_nat size) (drop (Z.to_nat offset) (pre ++ concat (map snd streams)))))
    (stream_offsets (len pre) streams) =
  map (fun '(name, bytes) => (ascii_bytes name, bytes)) streams.
Proof.
  revert pre. induction streams as [|[name bytes] streams IH]; intros pre; [done|].
  cbn [stream_offsets map snd concat]. f_equal.
  - unfold len. rewrite !Nat2Z.id, drop_app_length, take_app_length. done.
  - specialize (IH (pre ++ bytes)). rewrite <- IH. unfold len. rewrite length_app, Nat2Z.inj_add. by rewrite <- app_assoc.
Qed.

Lemma length_stream_headers streams running :
  length (stream_headers running streams) =
  sum_list_with (fun '(name, _) => 8 + length (padded_name name))%nat streams.
Proof.
  revert running. induction streams as [|[name bytes] streams IH]; intros running; [done|].
  cbn [stream_headers sum_list_with]. rewrite !length_app, !length_le_bytes, IH. lia.
Qed.

(** The streams of the root are those that were written. *)
Lemma root_read b :
  len (serialize b) < 2 ^ 32 ->
  read_root (serialize b) = Some (map (fun '(name, bytes) => (ascii_bytes name, bytes)) (metadata_streams b)).
Proof.
  set (streams := metadata_streams b). intros H32.
  assert (Hnames : Forall (fun '(name, _) => no_zero (ascii_bytes name)) streams) by (repeat constructor).
  assert (Hlen : length streams = 5%nat) by done.
  unfold serialize in *. fold streams in H32 |- *. clearbody streams. cbv zeta in *.
  set (out := ascii_bytes "BSJB" ++ _) in *. set (total := sum_list_with _ streams) in *.
  set (headers := stream_headers _ streams) in *.
  assert (Hpre : len out + Z.of_nat total = len (out ++ headers)).
  { subst headers total. unfold len. rewrite length_app, length_stream_headers. lia. }
  rewrite <- (slices _ (out ++ headers)), <- Hpre, <- app_assoc. unfold read_root at 1.
  eapply bind_read.
  { unfold out. rewrite <- !app_assoc. change (ascii_bytes "BSJB") with (le_bytes 4 0x424A5342). by apply read_int_bytes. }
  cbv beta iota. cbn [negb Z.eqb Pos.eqb].
  do 3 (reading ltac:(by apply read_int_bytes)). reading ltac:(by apply read_int_bytes).
  rewrite drop_app_length' by reflexivity.
  do 2 (reading ltac:(apply read_int_bytes; unfold len; by rewrite ?Hlen)).
  unfold len at 1. rewrite Nat2Z.id. reading ltac:(apply read_headers_encoded; [unfold len; lia| |exact Hnames]).
  { rewrite Hpre. unfold len in *. rewrite app_assoc, length_app in H32. lia. }
  done.
Qed.


(** C11: the metadata root that the writer produces reads back, by a reader that follows ECMA-335
    (II.24.2) and that computes the column widths from the heap sizes byte and the row counts of the
    stream alone: it finds the five streams, and in the table stream exactly the tables that have rows,
    each with the rows that were added, column by column. Values must fit the columns, and the root
    four bytes. *)
Theorem metadata_reads_back b :
  rows_fit b -> len (serialize b) < 2 ^ 32 ->
  let widths := compute_widths (row_counts b) (h_strings b) (h_blobs b) (h_guids b) in
  exists tables,
    read_root (serialize b) =
      Some [(ascii_bytes "#~", tables); (ascii_bytes "#Strings", pad4 (heap_data (h_strings b)));
            (ascii_bytes "#US", pad4 (heap_data (h_user_strings b)));
            (ascii_bytes "#GUID", pad4 (h_guids b)); (ascii_bytes "#Blob", pad4 (heap_data (h_blobs b)))] /\
    read_tables tables =
      Some (mk_TableStream (heap_sizes widths) (present_sorted b) (nonempty (contents b))).
Proof.
  intros Hfit Hlen widths. eexists. rewrite root_read by done. split; [reflexivity|].
  by apply tables_read.
Qed.

Lemma nonempty_sorted b table rows k :
  (table, rows) ∈ nonempty (contents b) -> key_columns table = Some k ->
  StronglySorted (fun r s => pair_leb (row_key k r) (row_key k s) = true) rows.
Proof.
  unfold nonempty. rewrite list_elem_of_In, filter_In, <- list_elem_of_In. intros [Hin _]. by apply (contents_sorted b).
Qed.


(** *** A builder with rows *)

Definition sample_builder : MetadataBuilder :=
  let b := builder_default in
  let b := set_t_module b [mk_ModuleRow 1 1] in
  let b := set_h_guids b (replicate 16 7) in
  let b := set_t_type_def b [mk_TypeDefRow 0 9 0 0 1 1; mk_TypeDefRow 0x100001 15 20 5 1 2] in
  let b := set_t_type_ref b [mk_TypeRefRow 6 25 30] in
  let b := set_t_field b [mk_FieldRow 6 35 1; mk_FieldRow 0x16 40 1] in
  let b := set_t_method_def b [mk_MethodDefRow 0 0 0x16 45 5 1; mk_MethodDefRow 0x2050 0 0x16 50 5 1] in
  let b := set_t_interface_impl b [mk_InterfaceImplRow 2 5; mk_InterfaceImplRow 1 5] in
  let b := set_t_field_layout b [mk_FieldLayoutRow 4 2; mk_FieldLayoutRow 0 1] in
  let b := set_t_generic_param b [mk_GenericParamRow 1 0 4 60; mk_GenericParamRow 0 0 4 55] in
  set_t_assembly_ref b [mk_AssemblyRefRow 10 0 0 0 0 9 65 0 0].

Lemma metadata_reads_back_witness :
  rows_fit sample_builder /\ exists tables,
    read_root (serialize sample_builder) =
      Some [(ascii_bytes "#~", tables); (ascii_bytes "#Strings", [0; 0; 0; 0]); (ascii_bytes "#US", [0; 0; 0; 0]);
            (ascii_bytes "#GUID", replicate 16 7); (ascii_bytes "#Blob", [0; 0; 0; 0])] /\
    read_tables tables =
      Some (mk_TableStream 0 [0x09; 0x10; 0x2A]
        [(0x00, [[0; 1; 1; 0; 0]]); (0x01, [[6; 30; 25]]);
         (0x02, [[0; 9; 0; 0; 1; 1]; [0x100001; 15; 20; 5; 1; 2]]); (0x04, [[6; 35; 1]; [0x16; 40; 1]]);
         (0x06, [[0; 0; 0x16; 45; 5; 1]; [0x2050; 0; 0x16; 50; 5; 1]]); (0x09, [[1; 5]; [2; 5]]);
         (0x10, [[0; 1]; [4; 2]]); (0x23, [[10; 0; 0; 0; 0; 9; 65; 0; 0]]);
         (0x2A, [[0; 0; 4; 55]; [1; 0; 4; 60]])]).
Proof.
  assert (H : rows_fit sample_builder) by (apply (bool_decide_unpack _); by vm_compute).
  split; [exact H|]. destruct (metadata_reads_back sample_builder H) as (tables & Hr & Ht).
  { by vm_compute. }
  exists tables. split; [rewrite Hr; vm_compute; reflexivity|]. rewrite Ht. vm_compute. reflexivity.
Defined.


