(* ===== verification/Signature.v ===== *)
(** * Signature blobs (cilly/src/ir/pe_exporter/sig.rs)

    The ECMA-335 encoding of types, fields, properties, methods, locals and method instantiations.
    References to classes go through the resolver interface the source has as a trait. *)

From S2P Require Import Prelude Interner Types IR Arenas Walk Heaps.

(** ** Element types *)

Definition ET_VOID := 0x01.
Definition ET_BOOLEAN := 0x02.
Definition ET_CHAR := 0x03.
Definition ET_I1 := 0x04.
Definition ET_U1 := 0x05.
Definition ET_I2 := 0x06.
Definition ET_U2 := 0x07.
Definition ET_I4 := 0x08.
Definition ET_U4 := 0x09.
Definition ET_I8 := 0x0A.
Definition ET_U8 := 0x0B.
Definition ET_R4 := 0x0C.
Definition ET_R8 := 0x0D.
Definition ET_STRING := 0x0E.
Definition ET_PTR := 0x0F.
Definition ET_BYREF := 0x10.
Definition ET_VALUETYPE := 0x11.
Definition ET_CLASS := 0x12.
Definition ET_VAR := 0x13.
Definition ET_ARRAY := 0x14.
Definition ET_GENERICINST := 0x15.
Definition ET_I := 0x18.
Definition ET_U := 0x19.
Definition ET_FNPTR := 0x1B.
Definition ET_OBJECT := 0x1C.
Definition ET_SZARRAY := 0x1D.
Definition ET_MVAR := 0x1E.

Definition SIG_HASTHIS := 0x20.
Definition SIG_GENERIC := 0x10.
Definition SIG_DEFAULT := 0x00.
Definition SIG_FIELD := 0x06.
Definition SIG_LOCALS := 0x07.
Definition SIG_PROPERTY := 0x08.
Definition SIG_GENERICINST_METHOD := 0x0A.

(** ** The resolver *)

(** The trait: the coded index of a class reference; the resolver may intern. *)
Class TypeDefOrRefResolver (R : Type) : Type := {
  type_def_or_ref : forall {E}, Interned KClassRef -> R * Assembly -> (R * Assembly) * outcome E Z }.

(** The [&mut Assembly] and [&mut impl TypeDefOrRefResolver] an encoder takes. *)
Record SigState (R : Type) : Type := mk_SigState { sg_asm : Assembly; sg_resolver : R }.
Arguments mk_SigState {R}.
Arguments sg_asm {R}.
Arguments sg_resolver {R}.

#[export] Program Instance sig_state_has_asm R : HasAsm (SigState R) := {|
  asm_of := sg_asm;
  set_asm s a := mk_SigState a (sg_resolver s) |}.
Next Obligation. done. Qed.
Next Obligation. by intros ? []. Qed.

(** ** The encoders *)

(** Each returns the bytes it appends to [out]. *)
Section encode.
Context {R : Type} `{TypeDefOrRefResolver R} {E : Type}.

Definition resolve (cref : Interned KClassRef) : ST (SigState R) E Z := fun s =>
  let '((r, a), o) := type_def_or_ref cref (sg_resolver s, sg_asm s) in (mk_SigState a r, o).

Definition compressed (value : Z) : ST (SigState R) E (list Z) := lift (write_compressed_u32 value).
(** [write_compressed_u32(out, u32::try_from(n).unwrap())] *)
Definition compressed_len (n : nat) : ST (SigState R) E (list Z) :=
  n ← lift (expect_u32 (Z.of_nat n)); compressed n.

Section with_types.
Context (encode_type : Ty.t -> ST (SigState R) E (list Z)).

Definition encode_class (cref : Interned KClassRef) (is_valuetype : bool)
    : ST (SigState R) E (list Z) :=
  let kind := if is_valuetype then ET_VALUETYPE else ET_CLASS in
  c ← reads (fun s => class_ref (sg_asm s) cref);
  match cr_generics c with
  | [] =>
      code ← resolve cref;
      bytes ← compressed code;
      mret (kind :: bytes)
  | generics =>
      code ← resolve cref;
      bytes ← compressed code;
      count ← compressed_len (length generics);
      args ← map_st encode_type generics;
      mret (ET_GENERICINST :: kind :: bytes ++ count ++ concat args)
  end.

Definition encode_non_void_type (tpe : Ty.t) : ST (SigState R) E (list Z) :=
  match tpe with
  | Ty.Void =>
      name ← on_asm (alloc_string "RustVoid");
      cref ← on_asm (alloc_class_ref {| cr_name := name; cr_asm := None; cr_is_valuetype := true;
                                        cr_generics := [] |});
      encode_class cref true
  | _ => encode_type tpe
  end.

(** The [debug_assert_eq!] of the convention against the parameter count is not compiled into
    release builds; the theorems assume it. *)
Definition encode_method_sig (convention generic_params : Z) (sig : FnSig)
    : ST (SigState R) E (list Z) :=
  generic_count ← (if negb (generic_params =? 0) then compressed generic_params else mret []
                   : ST (SigState R) E (list Z));
  count ← compressed_len (length (inputs sig));
  ret ← encode_type (output sig);
  params ← map_st encode_non_void_type (inputs sig);
  mret (convention :: generic_count ++ count ++ ret ++ concat params).

Definition encode_field_sig (tpe : Ty.t) : ST (SigState R) E (list Z) :=
  bytes ← encode_non_void_type tpe; mret (SIG_FIELD :: bytes).

Definition encode_property_sig (has_this : bool) (tpe : Ty.t) : ST (SigState R) E (list Z) :=
  let convention := if has_this then Z.lor SIG_PROPERTY SIG_HASTHIS else SIG_PROPERTY in
  count ← compressed 0;
  bytes ← encode_type tpe;
  mret (convention :: count ++ bytes).

Definition encode_locals_sig (locals : list Ty.t) : ST (SigState R) E (list Z) :=
  count ← compressed_len (length locals);
  types ← map_st encode_non_void_type locals;
  mret (SIG_LOCALS :: count ++ concat types).

Definition encode_method_spec_sig (args : list Ty.t) : ST (SigState R) E (list Z) :=
  count ← compressed_len (length args);
  types ← map_st encode_type args;
  mret (SIG_GENERICINST_METHOD :: count ++ concat types).
End with_types.

(** [SIMDVector::class] *)
Definition simd_class (vector : Simd.vector) : ST Assembly E (Interned KClassRef) :=
  asm_name ← alloc_string "System.Runtime.Intrinsics";
  name ← alloc_string ("System.Runtime.Intrinsics.Vector" +:+ pretty (Simd.bits vector));
  alloc_class_ref {| cr_name := name; cr_asm := Some asm_name; cr_is_valuetype := true;
                     cr_generics := [Ty.of_simd_elem (Simd.v_elem vector)] |}.

(** The element type a class reference collapses to: [System.Object] and [System.String], of any
    assembly. *)
Definition collapsed asm (cref : Interned KClassRef) : outcome E (option Z) :=
  cr ← class_ref asm cref;
  match cr_is_valuetype cr, cr_generics cr with
  | false, [] =>
      name ← get_string asm (cr_name cr);
      Ok (if String.eqb name "System.Object" then Some ET_OBJECT
          else if String.eqb name "System.String" then Some ET_STRING
          else None)
  | _, _ => Ok None
  end.

Fixpoint encode_type (fuel : nat) (tpe : Ty.t) : ST (SigState R) E (list Z) :=
  match fuel with
  | O => no_fuel
  | S fuel' =>
      let rec := encode_type fuel' in
      let of_id i := t ← reads (fun s => get_type (sg_asm s) i); rec t in
      let value_class (m : ST Assembly E (Interned KClassRef)) :=
        cref ← on_asm m; encode_class rec cref true in
      match tpe with
      | Ty.Void => mret [ET_VOID]
      | Ty.Bool => mret [ET_BOOLEAN]
      | Ty.PlatformChar => mret [ET_CHAR]
      | Ty.PlatformString => mret [ET_STRING]
      | Ty.PlatformObject => mret [ET_OBJECT]
      | Ty.Int int =>
          match int with
          | Int.I8 => mret [ET_I1]
          | Int.U8 => mret [ET_U1]
          | Int.I16 => mret [ET_I2]
          | Int.U16 => mret [ET_U2]
          | Int.I32 => mret [ET_I4]
          | Int.U32 => mret [ET_U4]
          | Int.I64 => mret [ET_I8]
          | Int.U64 => mret [ET_U8]
          | Int.ISize => mret [ET_I]
          | Int.USize => mret [ET_U]
          | Int.I128 => value_class (bcl_class "System.Int128" "System.Runtime" true)
          | Int.U128 => value_class (bcl_class "System.UInt128" "System.Runtime" true)
          end
      | Ty.Float float =>
          match float with
          | Float.F32 => mret [ET_R4]
          | Float.F64 => mret [ET_R8]
          | Float.F16 => value_class (bcl_class "System.Half" "System.Runtime" true)
          | Float.F128 =>
              value_class (name ← alloc_string "f128";
                           alloc_class_ref {| cr_name := name; cr_asm := None;
                                              cr_is_valuetype := true; cr_generics := [] |})
          end
      | Ty.Ptr inner => bytes ← of_id inner; mret (ET_PTR :: bytes)
      | Ty.Ref inner => bytes ← of_id inner; mret (ET_BYREF :: bytes)
      | Ty.ClassRef cref =>
          short ← reads (fun s => collapsed (sg_asm s) cref);
          match short with
          | Some et => mret [et]
          | None =>
              cr ← reads (fun s => class_ref (sg_asm s) cref);
              encode_class rec cref (cr_is_valuetype cr)
          end
      | Ty.PlatformGeneric idx (Generic.MethodGeneric | Generic.TypeGeneric) =>
          bytes ← compressed idx; mret (ET_VAR :: bytes)
      | Ty.PlatformGeneric idx Generic.CallGeneric =>
          bytes ← compressed idx; mret (ET_MVAR :: bytes)
      | Ty.PlatformArray elem dims =>
          if dims =? 1 then bytes ← of_id elem; mret (ET_SZARRAY :: bytes)
          else
            bytes ← of_id elem;
            rank ← compressed dims;
            sizes ← compressed 0;
            bounds ← compressed 0;
            mret (ET_ARRAY :: bytes ++ rank ++ sizes ++ bounds)
      | Ty.FnPtr sig =>
          sig ← reads (fun s => get_sig (sg_asm s) sig);
          bytes ← encode_method_sig rec SIG_DEFAULT 0 sig;
          mret (ET_FNPTR :: bytes)
      | Ty.SIMDVector simdvec => value_class (simd_class simdvec)
      end
  end.
End encode.
