(* ===== verification/TablesOps.v ===== *)
(** * Populating the metadata tables (cilly/src/ir/pe_exporter/tables.rs)

    The operations of [MetadataBuilder] that add rows: names and signatures are interned, references
    are given one row each through caches, members are appended to the runs of the type that is open.
    [debug_assert]s are not modelled: they vanish in a release build. *)

From S2P Require Import Prelude Interner Types Class IR Method Heaps Signature Tables.
From Stdlib Require Import Ascii.

(** ** Names *)

(** [rfind('.')], and the two sides of it. *)
Fixpoint split_last_dot (name : string) : option (string * string) :=
  match name with
  | EmptyString => None
  | String c rest =>
      match split_last_dot rest with
      | Some (ns, base) => Some (String c ns, base)
      | None => if bool_decide (c = "."%char) then Some (EmptyString, rest) else None
      end
  end.

Definition split_namespace (name : string) : string * string :=
  match split_last_dot name with
  | Some p => p
  | None => (EmptyString, name)
  end.

(** 64-bit FNV-1a *)
Definition fnv1a (seed : Z) (data : list Z) : Z :=
  foldl (fun hash b => wrap 64 (Z.lxor hash b * 0x100000001b3)) seed data.

Definition CLR_METADATA_NAME_LIMIT : Z := 1023.

(** [is_char_boundary]: the end, or a byte that does not continue a character. *)
Definition is_char_boundary (bytes : list Z) (i : nat) : bool :=
  match bytes !! i with
  | Some b => negb ((0x80 <=? b) && (b <? 0xC0))
  | None => Nat.eqb i (length bytes)
  end.

(** [while head_end > 0 && !name.is_char_boundary(head_end)] *)
Fixpoint boundary_below (bytes : list Z) (i : nat) : nat :=
  match i with
  | O => O
  | S i' => if is_char_boundary bytes i then i else boundary_below bytes i'
  end.

Definition hex_digit (d : Z) : Ascii.ascii :=
  Ascii.ascii_of_nat (Z.to_nat (if d <? 10 then 48 + d else 87 + d)).

(** [{hash:016x}] *)
Definition hex16 (hash : Z) : string :=
  String.string_of_list_ascii
    (map (fun k => hex_digit (Z.land (Z.shiftr hash (4 * k)) 0xF)) (rev (seqZ 0 16))).

Definition dotnet_class_name (name : string) : string :=
  let bytes := ascii_bytes name in
  if len bytes <=? CLR_METADATA_NAME_LIMIT then name
  else
    let hash := fnv1a 0xcbf29ce484222325 bytes in
    let head_end := boundary_below bytes (Nat.min 900 (length bytes)) in
    (String.substring 0 head_end name +:+ "__h" +:+ hex16 hash)%string.

(** Two passes with different seeds. *)
Definition deterministic_mvid (name : string) : list Z :=
  let bytes := ascii_bytes name in
  le_bytes 8 (fnv1a 0xcbf29ce484222325 bytes) ++ le_bytes 8 (fnv1a 0x9e3779b97f4a7c15 bytes).

(** ** Identities of assemblies *)

Inductive AssemblyRefTarget : Set :=
| Bcl (version : Z * Z * Z * Z) (token : list Z)
| NameOnly.

Definition ECMA_PUBLIC_KEY_TOKEN : list Z := [0xB0; 0x3F; 0x5F; 0x7F; 0x11; 0xD5; 0x0A; 0x3A].
Definition EXTENSIONS_PUBLIC_KEY_TOKEN : list Z := [0xAD; 0xB9; 0x79; 0x38; 0x29; 0xDD; 0xAE; 0x60].
Definition NETSTANDARD_PUBLIC_KEY_TOKEN : list Z := [0xCC; 0x7B; 0x13; 0xFF; 0xCD; 0x2D; 0xDD; 0x51].
Definition MSCORLIB_PUBLIC_KEY_TOKEN : list Z := [0xB7; 0x7A; 0x5C; 0x56; 0x19; 0x34; 0xE0; 0x89].

Definition EXTENSIONS_FAMILY_PREFIXES : list string :=
  ["Microsoft.AspNetCore"; "Microsoft.Extensions"; "Microsoft.EntityFrameworkCore";
   "Microsoft.OpenApi"; "Microsoft.JSInterop"; "Microsoft.Net.Http.Headers"]%string.

Definition bcl_public_key_token (name : string) : option (list Z) :=
  if String.prefix "System" name || bool_decide (name ∈ ["mscorlib"; "netstandard"; "WindowsBase"]%string)
  then Some ECMA_PUBLIC_KEY_TOKEN
  else if existsb (fun prefix => String.prefix prefix name) EXTENSIONS_FAMILY_PREFIXES
  then Some EXTENSIONS_PUBLIC_KEY_TOKEN
  else None.

Definition bcl_assembly_version (runtime : DotnetRuntime.t) (name : string) : Z * Z * Z * Z :=
  if bool_decide (runtime = DotnetRuntime.UnityNetStandard21) then
    if bool_decide (name = "System.Runtime"%string) then (4, 1, 2, 0)
    else if bool_decide (name = "netstandard"%string) then (2, 1, 0, 0)
    else (4, 0, 0, 0)
  else DotnetRuntime.assembly_ver_tuple runtime.

Definition bcl_assembly_token (runtime : DotnetRuntime.t) (name : string) : list Z :=
  if bool_decide (runtime = DotnetRuntime.UnityNetStandard21) then
    if bool_decide (name = "netstandard"%string) then NETSTANDARD_PUBLIC_KEY_TOKEN
    else if bool_decide (name = "mscorlib"%string) then MSCORLIB_PUBLIC_KEY_TOKEN
    else ECMA_PUBLIC_KEY_TOKEN
  else default ECMA_PUBLIC_KEY_TOKEN (bcl_public_key_token name).

(** [MethodNullability] *)
Record MethodNullability : Set := mk_MethodNullability {
  mn_context : Z; mn_return_flag : option Z; mn_parameter_flags : list (option Z) }.

(** ** Steps *)

Section ops.
Context {E : Type}.
Local Notation M := (ST MetadataBuilder E).

Definition intern_string (s : string) : M Z := fun b =>
  let '(h, o) := strings_intern (ascii_bytes s) (h_strings b) in (set_h_strings b h, o).
Definition intern_blob (blob : list Z) : M Z := fun b =>
  let '(h, o) := blob_intern blob (h_blobs b) in (set_h_blobs b h, o).
Definition push_guid (guid : list Z) : M Z := fun b =>
  let '(h, o) := guid_push guid (h_guids b) in (set_h_guids b h, o).

Section rows.
Context {R : Type} (rows : MetadataBuilder -> list R) (assign : MetadataBuilder -> list R -> MetadataBuilder).

(** [Vec::push] *)
Definition append (row : R) : M unit := modify (fun b => assign b (rows b ++ [row])).
(** The row number of the last row. *)
Definition last_rid : M Z := reads (fun b => expect_u32 (len (rows b))).
(** The row number that the next row gets. *)
Definition next_rid : M Z := reads (fun b => expect_u32 (len (rows b) + 1)).
(** The row, then its token. *)
Definition add_row (table : Z) (row : R) : M Z :=
  _ ← append row; rid ← last_rid; mret (token_new table rid).
(** An assignment to the row of a number, from 1. *)
Definition update_row (rid : Z) (f : R -> R) : M unit := fun b =>
  if rid =? 0 then (b, Panic)
  else
    match rows b !! Z.to_nat (rid - 1) with
    | Some row => (assign b (<[Z.to_nat (rid - 1) := f row]> (rows b)), Ok tt)
    | None => (b, Panic)
    end.
End rows.

Definition assert_that (c : bool) : M unit := if c then mret tt else panic.

Definition set_is_lib_flag (v : bool) : M unit := modify (fun b => set_is_lib b v).
Definition set_runtime_kind (v : DotnetRuntime.t) : M unit := modify (fun b => set_runtime b v).
Definition set_public_name (name : option string) : M unit := modify (fun b => set_public_module_full_name b name).

(** The type of a namespace and a name. *)
Definition type_def_of (b : MetadataBuilder) (namespace name : string) : option Z :=
  names ← type_def_cache b !! namespace; (names : gmap string Z) !! name.
(** [entry(namespace).or_default().insert(name, token)] *)
Definition insert_type_def (namespace name : string) (token : Z) : M unit := modify (fun b =>
  let names := default ∅ (type_def_cache b !! namespace) in
  set_type_def_cache b (<[namespace := <[name := token]> names]> (type_def_cache b))).

(** [MetadataBuilder::new], on the default builder. *)
Definition new_builder : M unit :=
  name ← intern_string "<Module>";
  namespace ← intern_string "";
  _ ← append t_type_def set_t_type_def (mk_TypeDefRow 0 name namespace 0 1 1);
  insert_type_def "" "<Module>" (token_new TABLE_TYPE_DEF 1).

(** *** References *)

Definition assembly_ref (name : string) (target : AssemblyRefTarget) : M Z :=
  name_off ← intern_string name;
  '(version, key) ← (match target with
                     | Bcl version token => key ← intern_blob token; mret (version, key)
                     | NameOnly => mret ((0, 0, 0, 0), 0)
                     end : M ((Z * Z * Z * Z) * Z));
  let '(major, minor, build, revision) := version in
  token ← add_row t_assembly_ref set_t_assembly_ref TABLE_ASSEMBLY_REF
            (mk_AssemblyRefRow major minor build revision 0 key name_off 0 0);
  _ ← modify (fun b =>
        match assembly_ref_cache b !! name with
        | Some _ => b
        | None => set_assembly_ref_cache b (<[name := token]> (assembly_ref_cache b))
        end);
  mret token.

Definition find_or_create_assembly_ref (name : string) : M Z :=
  b ← ask;
  let unity := bool_decide (runtime b = DotnetRuntime.UnityNetStandard21) in
  let name := if unity && bool_decide (is_Some (bcl_public_key_token name)) then "netstandard"%string else name in
  match assembly_ref_cache b !! name with
  | Some token => mret token
  | None =>
      assembly_ref name
        (match bcl_public_key_token name, is_lib b with
         | Some token, true =>
             Bcl (bcl_assembly_version (runtime b) name)
               (if unity then bcl_assembly_token (runtime b) name else token)
         | _, _ => NameOnly
         end)
  end.

Definition system_runtime_assembly_ref : M Z := find_or_create_assembly_ref "System.Runtime".

(** A cached answer, or a new one that is remembered. *)
Definition cached (look : MetadataBuilder -> option Z) (make : M Z)
    (remember : Z -> MetadataBuilder -> MetadataBuilder) : M Z :=
  b ← ask;
  match look b with
  | Some token => mret token
  | None => token ← make; _ ← modify (remember token); mret token
  end.

Definition type_ref (resolution_scope : option Z) (namespace name : string) : M Z :=
  let key := (default 0 resolution_scope, namespace, name) in
  cached (fun b => type_ref_cache b !! key)
    (scope ← lift (encode_resolution_scope resolution_scope);
     namespace_off ← intern_string namespace;
     name_off ← intern_string name;
     add_row t_type_ref set_t_type_ref TABLE_TYPE_REF (mk_TypeRefRow scope namespace_off name_off))
    (fun token b => set_type_ref_cache b (<[key := token]> (type_ref_cache b))).

Definition intern_module_ref (lib : string) : M Z :=
  cached (fun b => module_ref_cache b !! lib)
    (name_off ← intern_string lib;
     add_row t_module_ref set_t_module_ref TABLE_MODULE_REF (mk_ModuleRefRow name_off))
    (fun token b => set_module_ref_cache b (<[lib := token]> (module_ref_cache b))).

Definition member_ref (class : Z) (name : string) (signature_blob : Z) : M Z :=
  let key := (class, name, signature_blob) in
  cached (fun b => member_ref_cache b !! key)
    (class_coded ← lift (encode_member_ref_parent class);
     name_off ← intern_string name;
     add_row t_member_ref set_t_member_ref TABLE_MEMBER_REF
       (mk_MemberRefRow class_coded name_off signature_blob))
    (fun token b => set_member_ref_cache b (<[key := token]> (member_ref_cache b))).

Definition type_spec (blob : Z) : M Z :=
  cached (fun b => type_spec_cache b !! blob)
    (add_row t_type_spec set_t_type_spec TABLE_TYPE_SPEC (mk_TypeSpecRow blob))
    (fun token b => set_type_spec_cache b (<[blob := token]> (type_spec_cache b))).

Definition standalone_sig (signature_blob : Z) : M Z :=
  cached (fun b => standalone_sig_cache b !! signature_blob)
    (add_row t_standalone_sig set_t_standalone_sig TABLE_STAND_ALONE_SIG (mk_StandAloneSigRow signature_blob))
    (fun token b => set_standalone_sig_cache b (<[signature_blob := token]> (standalone_sig_cache b))).

Definition method_spec (method instantiation_blob : Z) : M Z :=
  method_coded ← lift (encode_method_def_or_ref method);
  add_row t_method_spec set_t_method_spec TABLE_METHOD_SPEC (mk_MethodSpecRow method_coded instantiation_blob).

(** *** Types *)

Definition push_type_def (namespace name : string) (flags extends : Z) : M Z :=
  name_off ← intern_string name;
  namespace_off ← intern_string namespace;
  field_list ← next_rid t_field;
  method_list ← next_rid t_method_def;
  _ ← append t_type_def set_t_type_def
        (mk_TypeDefRow flags name_off namespace_off extends field_list method_list);
  rid ← last_rid t_type_def;
  let token := token_new TABLE_TYPE_DEF rid in
  b ← ask;
  _ ← (match type_def_of b namespace name with
       | Some _ => mret tt
       | None => insert_type_def namespace name token
       end : M unit);
  _ ← modify (fun b => set_current_type_def b (Some rid));
  mret token.

(** [for &interface in implements] *)
Fixpoint push_interfaces (rid : Z) (implements : list Z) : M unit :=
  match implements with
  | [] => mret tt
  | interface :: implements =>
      interface ← lift (encode_type_def_or_ref_token interface);
      _ ← append t_interface_impl set_t_interface_impl (mk_InterfaceImplRow rid interface);
      push_interfaces rid implements
  end.

Definition add_type_def (namespace name : string) (is_valuetype : bool) (extends : option Z)
    (pack size : option Z) (implements : list Z) : M Z :=
  let name := dotnet_class_name name in
  extends_coded ← (match extends with
                   | Some token => lift (encode_type_def_or_ref_token token)
                   | None => mret 0
                   end : M Z);
  let flags := 0x1 in
  let flags := if is_valuetype then Z.lor flags 0x100 else flags in
  let has_explicit_layout := bool_decide (is_Some pack) || bool_decide (is_Some size) in
  let flags := if has_explicit_layout then Z.lor flags 0x10 else flags in
  token ← push_type_def namespace name flags extends_coded;
  let rid := token_rid token in
  _ ← (if has_explicit_layout
       then append t_class_layout set_t_class_layout (mk_ClassLayoutRow (default 0 pack) (default 0 size) rid)
       else mret tt : M unit);
  _ ← push_interfaces rid implements;
  mret token.

(** [type_def_index], as the row number. *)
Definition type_def_index (token : Z) : M Z :=
  _ ← assert_that (token_table token =? TABLE_TYPE_DEF);
  mret (token_rid token).

Definition set_type_def_field_list (token : Z) : M unit :=
  rid ← type_def_index token;
  next ← next_rid t_field;
  _ ← update_row t_type_def set_t_type_def rid
        (fun r => mk_TypeDefRow (tdr_flags r) (tdr_name r) (tdr_namespace r) (tdr_extends r) next (tdr_method_list r));
  modify (fun b => set_current_type_def b (Some (token_rid token))).

Definition set_type_def_method_list (token : Z) : M unit :=
  rid ← type_def_index token;
  next ← next_rid t_method_def;
  update_row t_type_def set_t_type_def rid
    (fun r => mk_TypeDefRow (tdr_flags r) (tdr_name r) (tdr_namespace r) (tdr_extends r) (tdr_field_list r) next).

(** [flags |= set] and [flags &= !clear] of a [TypeDef] row. *)
Definition or_type_flags (rid set : Z) : M unit :=
  update_row t_type_def set_t_type_def rid
    (fun r => mk_TypeDefRow (Z.lor (tdr_flags r) set) (tdr_name r) (tdr_namespace r) (tdr_extends r)
                (tdr_field_list r) (tdr_method_list r)).
Definition clear_type_flags (rid clear : Z) : M unit :=
  update_row t_type_def set_t_type_def rid
    (fun r => mk_TypeDefRow (Z.land (tdr_flags r) (Z.lxor 0xFFFFFFFF clear)) (tdr_name r) (tdr_namespace r)
                (tdr_extends r) (tdr_field_list r) (tdr_method_list r)).

Definition set_type_def_access (token : Z) (access : Access.t) : M unit :=
  rid ← type_def_index token;
  _ ← clear_type_flags rid 0x7;
  match access with
  | Access.Extern | Access.Public => or_type_flags rid 0x1
  | _ => mret tt
  end.

Definition mark_type_def_interface (token : Z) : M unit :=
  let rid := token_rid token in
  _ ← or_type_flags rid (Z.lor 0x20 0x80);
  _ ← clear_type_flags rid 0x100;
  update_row t_type_def set_t_type_def rid
    (fun r => mk_TypeDefRow (tdr_flags r) (tdr_name r) (tdr_namespace r) 0 (tdr_field_list r) (tdr_method_list r)).

Definition add_blob_sized_valuetype (name : string) (extends size : Z) : M Z :=
  let '(namespace, name) := split_namespace name in
  let name := dotnet_class_name name in
  extends_coded ← lift (encode_type_def_or_ref_token extends);
  token ← push_type_def namespace name (Z.lor 0x100 0x10) extends_coded;
  _ ← append t_class_layout set_t_class_layout (mk_ClassLayoutRow 1 size (token_rid token));
  mret token.

Definition field_sig_for_valuetype_token (token : Z) : M Z :=
  coded ← lift (encode_type_def_or_ref_token token);
  bytes ← lift (write_compressed_u32 coded);
  intern_blob (SIG_FIELD :: ET_VALUETYPE :: bytes).

Definition find_type_def (b : MetadataBuilder) (raw_name : string) : option Z :=
  let raw_name := if bool_decide (raw_name = MAIN_MODULE) then default raw_name (public_module_full_name b)
                  else raw_name in
  let '(namespace, name) := split_namespace raw_name in
  type_def_of b namespace (dotnet_class_name name).

Definition unity_legacy_128_token (b : MetadataBuilder) (raw_name : string) : option Z :=
  if bool_decide (runtime b = DotnetRuntime.UnityNetStandard21) &&
     bool_decide (raw_name ∈ ["System.Int128"; "System.UInt128"]%string)
  then find_type_def b raw_name else None.

(** *** Members *)

Definition register_field_def (name signature token : Z) : M unit := modify (fun b =>
  match current_type_def b with
  | None => b
  | Some owner =>
      let key := (token_new TABLE_TYPE_DEF owner, name, signature) in
      match field_def_cache b !! key with
      | Some _ => b
      | None => set_field_def_cache b (<[key := token]> (field_def_cache b))
      end
  end).

Definition push_field (flags name signature : Z) : M Z :=
  token ← add_row t_field set_t_field TABLE_FIELD (mk_FieldRow flags name signature);
  _ ← register_field_def name signature token;
  mret token.

Definition push_method (flags impl_flags name signature : Z) : M Z :=
  param_list ← next_rid t_param;
  add_row t_method_def set_t_method_def TABLE_METHOD_DEF
    (mk_MethodDefRow 0 impl_flags flags name signature param_list).

Definition add_field (name : string) (signature_blob : Z) (offset : option Z) : M Z :=
  name_off ← intern_string name;
  token ← push_field 0x6 name_off signature_blob;
  _ ← (match offset with
       | Some offset => append t_field_layout set_t_field_layout (mk_FieldLayoutRow offset (token_rid token))
       | None => mret tt
       end : M unit);
  mret token.

Definition add_enum_value_field (signature_blob : Z) : M Z :=
  name ← intern_string "value__";
  push_field (Z.lor (Z.lor 0x6 0x0200) 0x0400) name signature_blob.

(** The element type and the bytes of an enum literal; other constants panic. *)
Definition literal_bytes (value : Const.t) : outcome E (Z * list Z) :=
  match value with
  | Const.I8 v => Ok (0x04, le_bytes 1 v)
  | Const.U8 v => Ok (0x05, le_bytes 1 v)
  | Const.I16 v => Ok (0x06, le_bytes 2 v)
  | Const.U16 v => Ok (0x07, le_bytes 2 v)
  | Const.I32 v => Ok (0x08, le_bytes 4 v)
  | Const.U32 v => Ok (0x09, le_bytes 4 v)
  | Const.I64 v => Ok (0x0A, le_bytes 8 v)
  | Const.U64 v => Ok (0x0B, le_bytes 8 v)
  | _ => Panic
  end.

Definition add_enum_literal_field (name : string) (signature_blob : Z) (value : Const.t) : M Z :=
  name ← intern_string name;
  token ← push_field (Z.lor (Z.lor (Z.lor 0x6 0x0010) 0x0040) 0x8000) name signature_blob;
  let rid := token_rid token in
  '(type_code, bytes) ← lift (literal_bytes value);
  value ← intern_blob bytes;
  _ ← append t_constant set_t_constant (mk_ConstantRow type_code (wrap 32 (Z.shiftl rid 2)) value);
  mret token.

(** A [CustomAttribute] row. *)
Definition push_custom_attribute (parent ctor value : Z) : M Z :=
  parent ← lift (encode_has_custom_attribute parent);
  ctor ← lift (encode_custom_attribute_type ctor);
  add_row t_custom_attribute set_t_custom_attribute TABLE_CUSTOM_ATTRIBUTE
    (mk_CustomAttributeRow parent ctor value).

Definition ATTR_ELEM_BOOLEAN : Z := 0x02.
Definition ATTR_ELEM_U1 : Z := 0x05.
Definition ATTR_ELEM_I4 : Z := 0x08.
Definition ATTR_ELEM_I8 : Z := 0x0A.
Definition ATTR_ELEM_STRING : Z := 0x0E.
Definition ATTR_NAMED_FIELD : Z := 0x53.
Definition ATTR_NAMED_PROPERTY : Z := 0x54.

Definition thread_static_ctor_ref : M Z :=
  scope ← system_runtime_assembly_ref;
  class ← type_ref (Some scope) "System" "ThreadStaticAttribute";
  count ← lift (write_compressed_u32 0);
  sig ← intern_blob (SIG_HASTHIS :: count ++ [0x01]);
  member_ref class ".ctor" sig.

Definition thread_static_attribute (field : Z) : M Z :=
  _ ← assert_that (token_table field =? TABLE_FIELD);
  ctor ← thread_static_ctor_ref;
  value ← intern_blob [0x01; 0x00; 0x00; 0x00];
  push_custom_attribute field ctor value.

Definition nullable_metadata_attribute (parent flag : Z) (context : bool) : M Z :=
  _ ← assert_that ((flag =? 1) || (flag =? 2));
  scope ← system_runtime_assembly_ref;
  class ← type_ref (Some scope) "System.Runtime.CompilerServices"
            (if context then "NullableContextAttribute" else "NullableAttribute");
  count ← lift (write_compressed_u32 1);
  signature ← intern_blob (SIG_HASTHIS :: count ++ [0x01; ATTR_ELEM_U1]);
  ctor ← member_ref class ".ctor" signature;
  value ← intern_blob [0x01; 0x00; flag; 0x00; 0x00];
  push_custom_attribute parent ctor value.

Definition add_static_field (name : string) (signature_blob : Z) (rva_data : option (list Z))
    (is_thread_static is_const : bool) : M Z :=
  let has_rva := bool_decide (is_Some rva_data) in
  let flags := Z.lor 0x6 0x10 in
  let flags := if is_const then Z.lor flags 0x20 else flags in
  let flags := if has_rva then Z.lor flags 0x100 else flags in
  name_off ← intern_string name;
  token ← push_field flags name_off signature_blob;
  _ ← (if has_rva then
         _ ← append t_field_rva set_t_field_rva (mk_FieldRvaRow 0 (token_rid token));
         modify (fun b => set_pending_field_rva b (<[token := len (t_field_rva b) - 1]> (pending_field_rva b)))
       else mret tt : M unit);
  _ ← (if is_thread_static then _ ← thread_static_attribute token; mret tt else mret tt : M unit);
  mret token.

(** [Param] rows of arguments, numbered from [i + 1]. *)
Definition push_param (method flags sequence name : Z) : M Z :=
  token ← add_row t_param set_t_param TABLE_PARAM (mk_ParamRow flags sequence name);
  _ ← modify (fun b => set_method_param_cache b (<[(method, sequence) := token]> (method_param_cache b)));
  mret token.

Definition expect_u16 (n : Z) : outcome E Z := if n <? 2 ^ 16 then Ok n else Panic.

Fixpoint push_params (method : Z) (out_params : list Z) (nullability : option MethodNullability) (i : nat)
    (names : list (option string)) : M unit :=
  match names with
  | [] => mret tt
  | pname :: names =>
      sequence ← lift (expect_u16 (Z.of_nat i + 1));
      name_off ← (match pname with Some n => intern_string n | None => mret 0 end : M Z);
      let flags := if bool_decide (sequence ∈ out_params) then 0x0002 else 0 in
      param ← push_param method flags sequence name_off;
      _ ← (match nullability with
           | None => mret tt
           | Some metadata =>
               flag ← lift (unwrap (mn_parameter_flags metadata !! i));
               match flag with
               | Some flag => _ ← nullable_metadata_attribute param flag false; mret tt
               | None => mret tt
               end
           end : M unit);
      push_params method out_params nullability (S i) names
  end.

Definition member_access (access : Access.t) : Z :=
  match access with
  | Access.Private => 0x1
  | Access.Assembly | Access.InternalExtern => 0x3
  | Access.Extern | Access.Public => 0x6
  end.

Definition call_conv_bits (call_conv : PInvokeCallConv) : Z :=
  match call_conv with
  | Winapi => 0x100 | Cdecl => 0x200 | Stdcall => 0x300 | Thiscall => 0x400 | Fastcall => 0x500
  end.

Definition PInvoke : Set := string * option string * PInvokeCallConv * bool.

(** The [MethodAttributes] and [MethodImplAttributes] of a new method. *)
Definition method_flags (access : Access.t) (is_static is_virtual is_ctor : bool) (pinvoke : option PInvoke) : Z :=
  let flags := member_access access in
  let flags := if is_static then Z.lor flags 0x10 else flags in
  let flags := if is_virtual then Z.lor flags (Z.lor 0x40 0x0100) else flags in
  let flags := if is_ctor then Z.lor flags (Z.lor 0x1000 0x0800) else flags in
  if bool_decide (is_Some pinvoke) then Z.lor flags 0x2000 else flags.

Definition method_impl_flags (pinvoke : option PInvoke) (aggressive_inline : bool) : Z :=
  let flags := if bool_decide (is_Some pinvoke) then 0x80 else 0x0 in
  if aggressive_inline then Z.lor flags 0x100 else flags.

(** The nullable context of a method, and the [Param] row of its return value. *)
Definition push_nullability (method : Z) (params : nat) (nullability : MethodNullability) : M unit :=
  _ ← assert_that ((mn_context nullability =? 1) || (mn_context nullability =? 2));
  _ ← assert_that (Nat.eqb (length (mn_parameter_flags nullability)) params);
  _ ← nullable_metadata_attribute method (mn_context nullability) true;
  match mn_return_flag nullability with
  | None => mret tt
  | Some flag =>
      return_param ← push_param method 0 0 0;
      _ ← nullable_metadata_attribute return_param flag false;
      mret tt
  end.

Definition push_impl_map (method : Z) (name : string) (pinvoke : PInvoke) : M unit :=
  let '(lib, entry_point, call_conv, preserve_errno) := pinvoke in
  module_ref ← intern_module_ref lib;
  let mapping_flags := Z.lor (Z.lor 0x1 0x4) (call_conv_bits call_conv) in
  let mapping_flags := if (preserve_errno : bool) then Z.lor mapping_flags 0x40 else mapping_flags in
  import_name ← intern_string (default name entry_point);
  member_forwarded ← lift (encode_member_forwarded method);
  append t_impl_map set_t_impl_map
    (mk_ImplMapRow mapping_flags member_forwarded import_name (token_rid module_ref)).

Definition add_method_with_access (name : string) (access : Access.t) (signature_blob : Z)
    (param_names : list (option string)) (out_params : list Z) (is_static is_virtual is_ctor : bool)
    (pinvoke : option PInvoke) (aggressive_inline : bool) (nullability : option MethodNullability) : M Z :=
  name_off ← intern_string name;
  token ← push_method (method_flags access is_static is_virtual is_ctor pinvoke)
            (method_impl_flags pinvoke aggressive_inline) name_off signature_blob;
  _ ← (match nullability with
       | Some nullability => push_nullability token (length param_names) nullability
       | None => mret tt
       end : M unit);
  _ ← push_params token out_params nullability 0 param_names;
  _ ← (match pinvoke with
       | Some pinvoke => push_impl_map token name pinvoke
       | None => mret tt
       end : M unit);
  mret token.

Definition add_method (name : string) (signature_blob : Z) (param_names : list (option string))
    (out_params : list Z) (is_static is_virtual is_ctor : bool) (pinvoke : option PInvoke)
    (aggressive_inline : bool) (nullability : option MethodNullability) : M Z :=
  add_method_with_access name Access.Public signature_blob param_names out_params is_static is_virtual is_ctor
    pinvoke aggressive_inline nullability.

(** [flags |= set] and [flags &= !clear] of a [MethodDef] row. *)
Definition or_method_flags (rid set : Z) : M unit :=
  update_row t_method_def set_t_method_def rid
    (fun r => mk_MethodDefRow (mdr_rva r) (mdr_impl_flags r) (Z.lor (mdr_flags r) set) (mdr_name r)
                (mdr_signature r) (mdr_param_list r)).
Definition clear_method_flags (rid clear : Z) : M unit :=
  update_row t_method_def set_t_method_def rid
    (fun r => mk_MethodDefRow (mdr_rva r) (mdr_impl_flags r) (Z.land (mdr_flags r) (Z.lxor 0xFFFF clear))
                (mdr_name r) (mdr_signature r) (mdr_param_list r)).

Definition mark_method_bit_preserving_float (token : Z) : M unit :=
  update_row t_method_def set_t_method_def (token_rid token)
    (fun r => mk_MethodDefRow (mdr_rva r) (Z.lor (mdr_impl_flags r) (Z.lor 0x0008 0x0040)) (mdr_flags r)
                (mdr_name r) (mdr_signature r) (mdr_param_list r)).
Definition mark_method_reuse_slot (method : Z) : M unit := clear_method_flags (token_rid method) 0x0100.
Definition mark_method_abstract (method : Z) : M unit := or_method_flags (token_rid method) 0x0400.
Definition mark_method_static_abstract (method : Z) : M unit :=
  or_method_flags (token_rid method) (Z.lor (Z.lor 0x40 0x80) 0x400).
Definition mark_method_special_name (method : Z) : M unit := or_method_flags (token_rid method) 0x0800.

Definition register_method_def (method : Interned KMethodRef) (token : Z) : M unit :=
  modify (fun b => set_method_def_cache b (<[method := token]> (method_def_cache b))).
Definition method_def_token (b : MetadataBuilder) (method : Interned KMethodRef) : option Z :=
  method_def_cache b !! method.

Definition set_method_body_rva (method rva : Z) : M unit :=
  _ ← assert_that (token_table method =? TABLE_METHOD_DEF);
  update_row t_method_def set_t_method_def (token_rid method)
    (fun r => mk_MethodDefRow rva (mdr_impl_flags r) (mdr_flags r) (mdr_name r) (mdr_signature r) (mdr_param_list r)).

Definition set_field_rva (field rva : Z) : M unit :=
  b ← ask;
  row ← lift (unwrap (pending_field_rva b !! field));
  update_row t_field_rva set_t_field_rva (row + 1) (fun r => mk_FieldRvaRow rva (frr_field r)).

(** *** Interfaces, overrides, generics *)

Definition interface_impl (class interface : Z) : M Z :=
  _ ← assert_that (token_table class =? TABLE_TYPE_DEF);
  interface ← lift (encode_type_def_or_ref_token interface);
  add_row t_interface_impl set_t_interface_impl TABLE_INTERFACE_IMPL (mk_InterfaceImplRow (token_rid class) interface).

Definition add_generic_param (owner number : Z) (name : string) : M Z :=
  name_off ← intern_string name;
  owner ← lift (encode_type_or_method_def owner);
  add_row t_generic_param set_t_generic_param TABLE_GENERIC_PARAM (mk_GenericParamRow number 0 owner name_off).

Definition add_method_impl (class body declaration : Z) : M unit :=
  _ ← assert_that (token_table class =? TABLE_TYPE_DEF);
  body ← lift (encode_method_def_or_ref body);
  declaration ← lift (encode_method_def_or_ref declaration);
  append t_method_impl set_t_method_impl (mk_MethodImplRow (token_rid class) body declaration).

(** *** Events and properties *)

(** A new member of a class goes to the run that is open, or opens the first run of the class. *)
Definition open_run {Map} (maps : MetadataBuilder -> list Map)
    (assign : MetadataBuilder -> list Map -> MetadataBuilder) (parent : Map -> Z) (mk : Z -> Z -> Map)
    (class next : Z) : M unit :=
  b ← ask;
  if existsb (fun r => parent r =? class) (maps b)
  then assert_that (bool_decide (parent <$> list.last (maps b) = Some class))
  else append maps assign (mk class next).

Definition push_semantics (semantics method association : Z) : M unit :=
  append t_method_semantics set_t_method_semantics (mk_MethodSemanticsRow semantics method association).

Definition add_event (class : Z) (name : string) (event_type add remove : Z) : M unit :=
  _ ← assert_that (token_table class =? TABLE_TYPE_DEF);
  _ ← mark_method_special_name add;
  _ ← mark_method_special_name remove;
  next ← next_rid t_event;
  _ ← open_run t_event_map set_t_event_map emr_parent mk_EventMapRow (token_rid class) next;
  name_off ← intern_string name;
  event_type ← lift (encode_type_def_or_ref_token event_type);
  event ← add_row t_event set_t_event TABLE_EVENT (mk_EventRow 0 name_off event_type);
  association ← lift (encode_has_semantics event);
  _ ← push_semantics 0x8 (token_rid add) association;
  push_semantics 0x10 (token_rid remove) association.

(** An accessor that may be absent. *)
Definition for_some (accessor : option Z) (f : Z -> M unit) : M unit :=
  match accessor with Some a => f a | None => mret tt end.

Definition add_property (class : Z) (name : string) (sig_blob : Z) (getter setter : option Z) : M Z :=
  _ ← assert_that (token_table class =? TABLE_TYPE_DEF);
  _ ← assert_that (bool_decide (is_Some getter) || bool_decide (is_Some setter));
  _ ← for_some getter mark_method_special_name;
  _ ← for_some setter mark_method_special_name;
  next ← next_rid t_property;
  _ ← open_run t_property_map set_t_property_map pmr_parent mk_PropertyMapRow (token_rid class) next;
  name_off ← intern_string name;
  property ← add_row t_property set_t_property TABLE_PROPERTY (mk_PropertyRow 0 name_off sig_blob);
  association ← lift (encode_has_semantics property);
  _ ← for_some getter (fun g => push_semantics 0x2 (token_rid g) association);
  _ ← for_some setter (fun s => push_semantics 0x1 (token_rid s) association);
  mret property.

Definition mark_property_nullable (property flag : Z) : M unit :=
  _ ← assert_that (token_table property =? TABLE_PROPERTY);
  _ ← nullable_metadata_attribute property flag false;
  mret tt.

(** *** The module and the assembly *)

Definition set_entry_point (method : Z) : M unit := modify (fun b => set_entry_point_ b (Some method)).

Definition set_module (name : string) (mvid : list Z) : M unit :=
  name_off ← intern_string name;
  mvid_idx ← push_guid mvid;
  modify (fun b =>
    set_t_module b (match t_module b with
                    | _ :: rows => mk_ModuleRow name_off mvid_idx :: rows
                    | [] => [mk_ModuleRow name_off mvid_idx]
                    end)).

Definition finish_module (assembly_name : string) : M unit :=
  set_module assembly_name (deterministic_mvid assembly_name).

Definition set_assembly (name : string) (version : Z * Z * Z * Z) : M Z :=
  let '(major, minor, build, revision) := version in
  name_off ← intern_string name;
  _ ← append t_assembly set_t_assembly (mk_AssemblyRow 0x8004 major minor build revision 0 0 name_off 0);
  mret (token_new TABLE_ASSEMBLY 1).
End ops.

(** [MetadataBuilder::new] *)
Definition MetadataBuilder_new : MetadataBuilder := fst (new_builder (E := Empty_set) builder_default).
