(* ===== verification/TablesGrow.v ===== *)
(** * How operations change the metadata tables

    Tables are seen through one interface ([Table]); what an operation may do to a builder is a preorder
    ([grows]): rows are added and never move, their names and references never change, heaps and caches
    keep what they hold. *)

From S2P Require Import Prelude Interner Types Class IR Method Heaps Tables TablesRead Signature TablesOps.
Local Open Scope Z_scope.

(** ** Tables *)

(** The rows of a table, as they were added. *)
Definition table_rows (b : MetadataBuilder) (table : Z) : list (list Z) :=
  match table with
  | 0x00 => map module_values (t_module b)
  | 0x01 => map type_ref_values (t_type_ref b)
  | 0x02 => map type_def_values (t_type_def b)
  | 0x04 => map field_values (t_field b)
  | 0x06 => map method_def_values (t_method_def b)
  | 0x08 => map param_values (t_param b)
  | 0x09 => map interface_impl_values (t_interface_impl b)
  | 0x0A => map member_ref_values (t_member_ref b)
  | 0x0B => map constant_values (t_constant b)
  | 0x0C => map custom_attribute_values (t_custom_attribute b)
  | 0x0F => map class_layout_values (t_class_layout b)
  | 0x10 => map field_layout_values (t_field_layout b)
  | 0x11 => map standalone_sig_values (t_standalone_sig b)
  | 0x12 => map event_map_values (t_event_map b)
  | 0x14 => map event_values (t_event b)
  | 0x15 => map property_map_values (t_property_map b)
  | 0x17 => map property_values (t_property b)
  | 0x18 => map method_semantics_values (t_method_semantics b)
  | 0x19 => map method_impl_values (t_method_impl b)
  | 0x1A => map module_ref_values (t_module_ref b)
  | 0x1B => map type_spec_values (t_type_spec b)
  | 0x1C => map impl_map_values (t_impl_map b)
  | 0x1D => map field_rva_values (t_field_rva b)
  | 0x20 => map assembly_values (t_assembly b)
  | 0x23 => map assembly_ref_values (t_assembly_ref b)
  | 0x2A => map generic_param_values (t_generic_param b)
  | 0x2B => map method_spec_values (t_method_spec b)
  | _ => []
  end.

(** Everything but the rows. *)
Definition rest (b : MetadataBuilder) :=
  (h_strings b, h_blobs b, h_guids b, h_user_strings b,
   (type_ref_cache b, type_def_cache b, member_ref_cache b, assembly_ref_cache b, module_ref_cache b,
    standalone_sig_cache b, calli_sig_cache b, locals_sig_cache b, type_spec_cache b, class_token_cache b),
   (method_def_cache b, field_def_cache b, method_param_cache b, pending_field_rva b, entry_point_ b,
    current_type_def b, is_lib b, runtime b, public_module_full_name b)).

(** A vector of the builder that holds the rows of one table. *)
Class Table {R : Type} (rows : MetadataBuilder -> list R)
    (assign : MetadataBuilder -> list R -> MetadataBuilder) : Type := {
  table_id : Z;
  row_values : R -> list Z;
  table_rows_own b : table_rows b table_id = map row_values (rows b);
  table_rows_assign b l t : table_rows (assign b l) t = if t =? table_id then map row_values l else table_rows b t;
  rows_assign b l : rows (assign b l) = l;
  rest_assign b l : rest (assign b l) = rest b;
  table_known : is_Some (schema table_id) }.

Ltac table_laws :=
  intros; first
    [ reflexivity
    | by eexists
    | match goal with |- table_rows _ ?t = _ =>
        destruct t as [|p|p]; [reflexivity| |reflexivity];
        do 6 (try (destruct p as [p|p|]; try reflexivity)) end ].

#[export] Program Instance module_table : Table t_module set_t_module := {| table_id := TABLE_MODULE; row_values := module_values |}.
Solve Obligations with table_laws.
#[export] Program Instance type_ref_table : Table t_type_ref set_t_type_ref := {| table_id := TABLE_TYPE_REF; row_values := type_ref_values |}.
Solve Obligations with table_laws.
#[export] Program Instance type_def_table : Table t_type_def set_t_type_def := {| table_id := TABLE_TYPE_DEF; row_values := type_def_values |}.
Solve Obligations with table_laws.
#[export] Program Instance field_table : Table t_field set_t_field := {| table_id := TABLE_FIELD; row_values := field_values |}.
Solve Obligations with table_laws.
#[export] Program Instance method_def_table : Table t_method_def set_t_method_def := {| table_id := TABLE_METHOD_DEF; row_values := method_def_values |}.
Solve Obligations with table_laws.
#[export] Program Instance param_table : Table t_param set_t_param := {| table_id := TABLE_PARAM; row_values := param_values |}.
Solve Obligations with table_laws.
#[export] Program Instance interface_impl_table : Table t_interface_impl set_t_interface_impl := {| table_id := TABLE_INTERFACE_IMPL; row_values := interface_impl_values |}.
Solve Obligations with table_laws.
#[export] Program Instance member_ref_table : Table t_member_ref set_t_member_ref := {| table_id := TABLE_MEMBER_REF; row_values := member_ref_values |}.
Solve Obligations with table_laws.
#[export] Program Instance constant_table : Table t_constant set_t_constant := {| table_id := TABLE_CONSTANT; row_values := constant_values |}.
Solve Obligations with table_laws.
#[export] Program Instance custom_attribute_table : Table t_custom_attribute set_t_custom_attribute := {| table_id := TABLE_CUSTOM_ATTRIBUTE; row_values := custom_attribute_values |}.
Solve Obligations with table_laws.
#[export] Program Instance class_layout_table : Table t_class_layout set_t_class_layout := {| table_id := TABLE_CLASS_LAYOUT; row_values := class_layout_values |}.
Solve Obligations with table_laws.
#[export] Program Instance field_layout_table : Table t_field_layout set_t_field_layout := {| table_id := TABLE_FIELD_LAYOUT; row_values := field_layout_values |}.
Solve Obligations with table_laws.
#[export] Program Instance standalone_sig_table : Table t_standalone_sig set_t_standalone_sig := {| table_id := TABLE_STAND_ALONE_SIG; row_values := standalone_sig_values |}.
Solve Obligations with table_laws.
#[export] Program Instance event_map_table : Table t_event_map set_t_event_map := {| table_id := TABLE_EVENT_MAP; row_values := event_map_values |}.
Solve Obligations with table_laws.
#[export] Program Instance event_table : Table t_event set_t_event := {| table_id := TABLE_EVENT; row_values := event_values |}.
Solve Obligations with table_laws.
#[export] Program Instance property_map_table : Table t_property_map set_t_property_map := {| table_id := TABLE_PROPERTY_MAP; row_values := property_map_values |}.
Solve Obligations with table_laws.
#[export] Program Instance property_table : Table t_property set_t_property := {| table_id := TABLE_PROPERTY; row_values := property_values |}.
Solve Obligations with table_laws.
#[export] Program Instance method_semantics_table : Table t_method_semantics set_t_method_semantics := {| table_id := TABLE_METHOD_SEMANTICS; row_values := method_semantics_values |}.
Solve Obligations with table_laws.
#[export] Program Instance method_impl_table : Table t_method_impl set_t_method_impl := {| table_id := TABLE_METHOD_IMPL; row_values := method_impl_values |}.
Solve Obligations with table_laws.
#[export] Program Instance module_ref_table : Table t_module_ref set_t_module_ref := {| table_id := TABLE_MODULE_REF; row_values := module_ref_values |}.
Solve Obligations with table_laws.
#[export] Program Instance type_spec_table : Table t_type_spec set_t_type_spec := {| table_id := TABLE_TYPE_SPEC; row_values := type_spec_values |}.
Solve Obligations with table_laws.
#[export] Program Instance impl_map_table : Table t_impl_map set_t_impl_map := {| table_id := TABLE_IMPL_MAP; row_values := impl_map_values |}.
Solve Obligations with table_laws.
#[export] Program Instance field_rva_table : Table t_field_rva set_t_field_rva := {| table_id := TABLE_FIELD_RVA; row_values := field_rva_values |}.
Solve Obligations with table_laws.
#[export] Program Instance assembly_table : Table t_assembly set_t_assembly := {| table_id := TABLE_ASSEMBLY; row_values := assembly_values |}.
Solve Obligations with table_laws.
#[export] Program Instance assembly_ref_table : Table t_assembly_ref set_t_assembly_ref := {| table_id := TABLE_ASSEMBLY_REF; row_values := assembly_ref_values |}.
Solve Obligations with table_laws.
#[export] Program Instance generic_param_table : Table t_generic_param set_t_generic_param := {| table_id := TABLE_GENERIC_PARAM; row_values := generic_param_values |}.
Solve Obligations with table_laws.
#[export] Program Instance method_spec_table : Table t_method_spec set_t_method_spec := {| table_id := TABLE_METHOD_SPEC; row_values := method_spec_values |}.
Solve Obligations with table_laws.
Lemma count_rows b t : count_of (table_rowcounts (row_counts b)) t = len (table_rows b t).
Proof.
  unfold len. destruct t as [|p|p]; [cbn; by rewrite length_map| |reflexivity].
  do 6 (try (destruct p as [p|p|]; try reflexivity)).
  all: cbn -[Z.of_nat]; unfold len; by rewrite length_map.
Qed.

(** The rows that a reader finds are those that were added. *)
Lemma contents_rows b t rows : (t, rows) ∈ contents b -> rows ≡ₚ table_rows b t.
Proof.
  intros Hin. assert (H : Forall (fun e => snd e ≡ₚ table_rows b (fst e)) (contents b));
    [|rewrite list.Forall_forall in H; by apply (H _ Hin)].
  unfold contents. repeat (apply list.Forall_cons_2; [cbn [fst snd]; rewrite ?sort_permutation; reflexivity|]).
  by apply list.Forall_nil_2.
Qed.

(** ** What operations do to a builder *)

(** The columns of a row that are never assigned again. *)
Definition lasting (table : Z) (row : list Z) : list Z :=
  match table with
  | 0x00 => []
  | 0x02 => take 2 (drop 1 row)
  | 0x06 => drop 3 row
  | 0x1D => drop 1 row
  | _ => row
  end.

Record grows (b b' : MetadataBuilder) : Prop := {
  grows_rows t : map (lasting t) (table_rows b t) `prefix_of` map (lasting t) (table_rows b' t);
  grows_strings : grows_to (h_strings b) (h_strings b');
  grows_blobs : grows_to (h_blobs b) (h_blobs b');
  grows_user : grows_to (h_user_strings b) (h_user_strings b');
  grows_guids : len (h_guids b) <= len (h_guids b');
  grows_type_refs : type_ref_cache b ⊆ type_ref_cache b';
  grows_member_refs : member_ref_cache b ⊆ member_ref_cache b';
  grows_assembly_refs : assembly_ref_cache b ⊆ assembly_ref_cache b';
  grows_module_refs : module_ref_cache b ⊆ module_ref_cache b';
  grows_standalone : standalone_sig_cache b ⊆ standalone_sig_cache b';
  grows_calli : calli_sig_cache b ⊆ calli_sig_cache b';
  grows_locals : locals_sig_cache b ⊆ locals_sig_cache b';
  grows_type_specs : type_spec_cache b ⊆ type_spec_cache b';
  grows_classes : class_token_cache b ⊆ class_token_cache b' }.

#[export] Instance builder_grows_preorder : PreOrder grows.
Proof.
  split.
  - intros b. by constructor.
  - intros a b c [] []. constructor; intros; try (etrans; eauto); lia.
Qed.

Lemma grows_count b b' t : grows b b' -> len (table_rows b t) <= len (table_rows b' t).
Proof.
  intros [H _ _ _ _ _ _ _ _ _ _ _ _ _]. specialize (H t). apply prefix_length in H. rewrite !length_map in H. unfold len. lia.
Qed.

Lemma grows_row b b' t i row :
  grows b b' -> table_rows b t !! i = Some row ->
  exists row', table_rows b' t !! i = Some row' /\ lasting t row' = lasting t row.
Proof.
  intros [H _ _ _ _ _ _ _ _ _ _ _ _ _] Hi. specialize (H t).
  assert (Hm : map (lasting t) (table_rows b' t) !! i = Some (lasting t row)).
  { eapply prefix_lookup_Some; [|exact H]. by rewrite list_lookup_fmap, Hi. }
  rewrite list_lookup_fmap in Hm. apply fmap_Some in Hm as (row' & -> & Hl). by exists row'.
Qed.

(** Assignments to what is not a row. *)
Lemma grows_rest b b' :
  (forall t, table_rows b t = table_rows b' t) -> 
  (let '(s, bl, g, u, (c1, _, c2, c3, c4, c5, c6, c7, c8, c9), _) := rest b in
   let '(s', bl', g', u', (c1', _, c2', c3', c4', c5', c6', c7', c8', c9'), _) := rest b' in
   grows_to s s' /\ grows_to bl bl' /\ grows_to u u' /\ len g <= len g' /\ c1 ⊆ c1' /\ c2 ⊆ c2' /\ c3 ⊆ c3' /\
   c4 ⊆ c4' /\ c5 ⊆ c5' /\ c6 ⊆ c6' /\ c7 ⊆ c7' /\ c8 ⊆ c8' /\ c9 ⊆ c9') ->
  grows b b'.
Proof. intros Hrows H. cbn in H. decompose [and] H. constructor; try done. intros t. by rewrite Hrows. Qed.

Section table_steps.
Context {R} {rows : MetadataBuilder -> list R} {assign : MetadataBuilder -> list R -> MetadataBuilder}
  `{T : !Table rows assign}.

Lemma rest_eq b b' : rest b = rest b' ->
  h_strings b = h_strings b' /\ h_blobs b = h_blobs b' /\ h_guids b = h_guids b' /\ h_user_strings b = h_user_strings b' /\
  type_ref_cache b = type_ref_cache b' /\ member_ref_cache b = member_ref_cache b' /\
  assembly_ref_cache b = assembly_ref_cache b' /\ module_ref_cache b = module_ref_cache b' /\
  standalone_sig_cache b = standalone_sig_cache b' /\ calli_sig_cache b = calli_sig_cache b' /\
  locals_sig_cache b = locals_sig_cache b' /\ type_spec_cache b = type_spec_cache b' /\
  class_token_cache b = class_token_cache b'.
Proof. intros [=]. split_and!; assumption. Qed.

Lemma grows_assign b l :
  map (lasting table_id) (map row_values (rows b)) `prefix_of` map (lasting table_id) (map row_values l) ->
  grows b (assign b l).
Proof.
  intros Hp.
  pose proof (rest_eq _ _ (rest_assign b l)) as Hr. decompose [and] Hr.
  constructor; try (match goal with H : ?f (assign b l) = _ |- context [?f (assign b l)] => rewrite H end; done || lia).
  - intros t. rewrite table_rows_assign. destruct (Z.eqb_spec t table_id) as [->|]; [by rewrite table_rows_own|done].
Qed.
End table_steps.

(** ** Steps of a relation *)

(** What stays the same. *)
Definition same {S X} (f : S -> X) : relation S := fun s s' => f s' = f s.

#[export] Instance same_preorder {S X} (f : S -> X) : PreOrder (same f).
Proof. split; [by intros s|]. intros a b c Hab Hbc. unfold same in *. congruence. Qed.

Section steps.
Context {E : Type} (Rel : relation MetadataBuilder) `{!PreOrder Rel}.
Local Notation M := (ST MetadataBuilder E).

Lemma steps_assert c : steps Rel (assert_that c : M unit).
Proof. intros b. destruct c; cbn; reflexivity. Qed.
Lemma steps_modify f : (forall b, Rel b (f b)) -> steps Rel (modify f : M unit).
Proof. intros H b. apply H. Qed.
Lemma steps_cached look (make : M Z) remember :
  steps Rel make -> steps (same look) make ->
  (forall b tok, look b = None -> Rel b (remember tok b)) -> steps Rel (cached look make remember).
Proof.
  intros Hm Hl Hr b. unfold cached, mbind, ST_bind, ask. destruct (look b) as [tok|] eqn:Hb; [cbn; reflexivity|].
  specialize (Hm b). specialize (Hl b). destruct (make b) as [b1 [tok|e| |]]; cbn in *; try done.
  etrans; [exact Hm|]. apply Hr. congruence.
Qed.
End steps.

Ltac stepping :=
  repeat first
    [ match goal with |- forall _, _ => intro end
    | progress cbv zeta
    | solve [eauto 2 with steps]
    | match goal with |- steps _ (_ ≫= _) => apply steps_bind; [exact _|..] end
    | apply steps_ret; exact _
    | apply steps_lift; exact _
    | apply steps_ask; exact _
    | apply steps_reads; exact _
    | apply steps_assert; exact _
    | match goal with |- steps _ (match ?x with _ => _ end) => destruct x end
    | match goal with |- steps _ (let '(_, _) := ?x in _) => destruct x end ].


(** *** What an operation leaves alone *)

Section leaves.
Context {E X : Type} (f : MetadataBuilder -> X).
Local Notation M := (ST MetadataBuilder E).

Lemma same_intern_string s : (forall b h, f (set_h_strings b h) = f b) -> steps (same f) (intern_string s : M Z).
Proof. intros H b. unfold intern_string. destruct (strings_intern _ _). apply H. Qed.
Lemma same_intern_blob s : (forall b h, f (set_h_blobs b h) = f b) -> steps (same f) (intern_blob s : M Z).
Proof. intros H b. unfold intern_blob. destruct (blob_intern _ _). apply H. Qed.
Lemma same_push_guid s : (forall b h, f (set_h_guids b h) = f b) -> steps (same f) (push_guid s : M Z).
Proof. intros H b. unfold push_guid. destruct (guid_push _ _). apply H. Qed.
Lemma same_append {R} (rows : MetadataBuilder -> list R) assign row :
  (forall b l, f (assign b l) = f b) -> steps (same f) (append rows assign row : M unit).
Proof. intros H b. apply H. Qed.
Lemma same_add_row {R} (rows : MetadataBuilder -> list R) assign table row :
  (forall b l, f (assign b l) = f b) -> steps (same f) (add_row rows assign table row : M Z).
Proof. intros H. unfold add_row. stepping; [exact _..|by apply same_append]. Qed.
Lemma same_update_row {R} (rows : MetadataBuilder -> list R) assign rid g :
  (forall b l, f (assign b l) = f b) -> steps (same f) (update_row rows assign rid g : M unit).
Proof. intros H b. unfold update_row. destruct (rid =? 0); [done|]. destruct (rows b !! _); [apply H|done]. Qed.
End leaves.

(** *** Growing *)

Lemma strings_intern_grows {E} s h : grows_to h (fst (strings_intern (E := E) s h)).
Proof.
  unfold strings_intern. destruct s as [|c s]; [done|]. destruct (existsb _ _); [done|].
  destruct (interned h !! _) eqn:Hi; [done|]. destruct (expect_u32 (E := E) _); try done.
  split; [by apply prefix_app_r|by apply insert_subseteq].
Qed.
Lemma blob_intern_grows {E} s h : grows_to h (fst (blob_intern (E := E) s h)).
Proof.
  unfold blob_intern. destruct s as [|c s]; [done|].
  destruct (interned h !! _) eqn:Hi; [done|]. destruct (_ ≫= _) as [[]| | |]; try done.
  split; [by apply prefix_app_r|by apply insert_subseteq].
Qed.
Lemma user_intern_grows {E} s h : grows_to h (fst (user_string_intern (E := E) s h)).
Proof.
  unfold user_string_intern. destruct (interned h !! _) eqn:Hi; [done|]. destruct (_ ≫= _) as [[]| | |]; try done.
  split; [by apply prefix_app_r|by apply insert_subseteq].
Qed.

Section growing.
Context {E : Type}.
Local Notation M := (ST MetadataBuilder E).

Lemma grows_intern_string s : steps grows (intern_string s : M Z).
Proof.
  intros b. unfold intern_string. pose proof (strings_intern_grows (E := E) (ascii_bytes s) (h_strings b)) as H.
  destruct (strings_intern _ _) as [h o]. by apply grows_rest.
Qed.
Lemma grows_intern_blob s : steps grows (intern_blob s : M Z).
Proof.
  intros b. unfold intern_blob. pose proof (blob_intern_grows (E := E) s (h_blobs b)) as H.
  destruct (blob_intern _ _) as [h o]. by apply grows_rest.
Qed.
Lemma grows_push_guid s : steps grows (push_guid s : M Z).
Proof.
  intros b. unfold push_guid, guid_push. apply grows_rest; [done|]. cbn. split_and!; try done.
  unfold len. rewrite length_app. lia.
Qed.

Section table.
Context {R} {rows : MetadataBuilder -> list R} {assign : MetadataBuilder -> list R -> MetadataBuilder}
  `{T : !Table rows assign}.

Lemma grows_append row : steps grows (append rows assign row : M unit).
Proof.
  intros b. change (grows b (assign b (rows b ++ [row]))). apply grows_assign. rewrite !map_app. by apply prefix_app_r. Qed.

Lemma grows_add_row table row : steps grows (add_row rows assign table row : M Z).
Proof. unfold add_row. stepping. apply grows_append. Qed.

Lemma grows_update_row rid f :
  (forall r, lasting table_id (row_values (f r)) = lasting table_id (row_values r)) ->
  steps grows (update_row rows assign rid f : M unit).
Proof.
  intros Hf b. unfold update_row. destruct (rid =? 0); [done|].
  destruct (rows b !! Z.to_nat (rid - 1)) as [row|] eqn:Hr; [|done]. change (grows b (assign b (<[Z.to_nat (rid - 1) := f row]> (rows b)))). apply grows_assign.
  rewrite !map_map, list_fmap_insert. rewrite Hf.
  rewrite list_insert_id; [done|]. by rewrite list_lookup_fmap, Hr.
Qed.
End table.
End growing.
#[export] Hint Resolve grows_intern_string grows_intern_blob grows_push_guid : steps.
#[export] Hint Extern 0 (steps grows (append _ _ _)) => apply grows_append : steps.
#[export] Hint Extern 0 (steps grows (add_row _ _ _ _)) => apply grows_add_row : steps.
#[export] Hint Extern 0 (steps grows (update_row _ _ _ _)) => by apply grows_update_row : steps.

(** Assignments of a cache or a flag. *)
Ltac assigned :=
  apply steps_modify; intros;
  repeat match goal with |- context [match ?x !! ?k with _ => _ end] => destruct (x !! k) eqn:? end;
  first [reflexivity | constructor; intros; try done; by apply insert_subseteq].

(** Making a row changes no cache. *)
Ltac row_step := first [by apply same_intern_string | by apply same_intern_blob | by apply same_add_row | by apply same_append].
Ltac cached_step := apply steps_cached; [exact _|by stepping|stepping; row_step|
  intros; constructor; intros; try done; by apply insert_subseteq].

(** Every operation grows the builder. *)
Section operations_grow.
Context {E : Type}.
Local Notation M := (ST MetadataBuilder E).

Lemma grows_insert_type_def ns n tok : steps grows (insert_type_def ns n tok : M unit).
Proof. unfold insert_type_def. assigned. Qed.

Lemma grows_assembly_ref name target : steps grows (assembly_ref name target : M Z).
Proof.
  unfold assembly_ref. stepping.
  assigned.
Qed.
Hint Resolve grows_insert_type_def grows_assembly_ref : steps.

Lemma grows_find_or_create_assembly_ref name : steps grows (find_or_create_assembly_ref name : M Z).
Proof. unfold find_or_create_assembly_ref. stepping. Qed.

Lemma grows_type_ref scope ns n : steps grows (type_ref scope ns n : M Z).
Proof. unfold type_ref. cached_step. Qed.
Lemma grows_intern_module_ref lib : steps grows (intern_module_ref lib : M Z).
Proof. unfold intern_module_ref. cached_step. Qed.
Lemma grows_member_ref class n sig : steps grows (member_ref class n sig : M Z).
Proof. unfold member_ref. cached_step. Qed.
Lemma grows_type_spec blob : steps grows (type_spec blob : M Z).
Proof. unfold type_spec. cached_step. Qed.
Lemma grows_standalone_sig blob : steps grows (standalone_sig blob : M Z).
Proof. unfold standalone_sig. cached_step. Qed.
Hint Resolve grows_find_or_create_assembly_ref grows_type_ref grows_intern_module_ref grows_member_ref
  grows_type_spec grows_standalone_sig : steps.

Lemma grows_push_type_def ns n flags extends : steps grows (push_type_def ns n flags extends : M Z).
Proof. unfold push_type_def. stepping. assigned. Qed.
Lemma grows_push_interfaces rid l : steps grows (push_interfaces rid l : M unit).
Proof. induction l as [|i l IH]; cbn [push_interfaces]; stepping. Qed.
Hint Resolve grows_push_type_def grows_push_interfaces : steps.

Lemma grows_add_type_def ns n v e p s i : steps grows (add_type_def ns n v e p s i : M Z).
Proof. unfold add_type_def. stepping. Qed.
Lemma grows_set_type_def_field_list tok : steps grows (set_type_def_field_list tok : M unit).
Proof. unfold set_type_def_field_list, type_def_index. stepping. assigned. Qed.
Lemma grows_set_type_def_method_list tok : steps grows (set_type_def_method_list tok : M unit).
Proof. unfold set_type_def_method_list, type_def_index. stepping. Qed.
Lemma grows_or_type_flags rid s : steps grows (or_type_flags rid s : M unit).
Proof. unfold or_type_flags. stepping. Qed.
Lemma grows_clear_type_flags rid s : steps grows (clear_type_flags rid s : M unit).
Proof. unfold clear_type_flags. stepping. Qed.
Hint Resolve grows_or_type_flags grows_clear_type_flags : steps.
Lemma grows_set_type_def_access tok a : steps grows (set_type_def_access tok a : M unit).
Proof. unfold set_type_def_access, type_def_index. stepping. Qed.
Lemma grows_mark_type_def_interface tok : steps grows (mark_type_def_interface tok : M unit).
Proof. unfold mark_type_def_interface. stepping. Qed.
Lemma grows_add_blob_sized_valuetype n e s : steps grows (add_blob_sized_valuetype n e s : M Z).
Proof. unfold add_blob_sized_valuetype. stepping. Qed.
Lemma grows_field_sig_for_valuetype_token tok : steps grows (field_sig_for_valuetype_token tok : M Z).
Proof. unfold field_sig_for_valuetype_token. stepping. Qed.

Lemma grows_register_field_def n s tok : steps grows (register_field_def n s tok : M unit).
Proof.
  unfold register_field_def. apply steps_modify. intros b. destruct (current_type_def b); [|reflexivity].
  destruct (field_def_cache b !! _); [reflexivity|]. by constructor.
Qed.
Hint Resolve grows_register_field_def : steps.
Lemma grows_push_field f n s : steps grows (push_field f n s : M Z).
Proof. unfold push_field. stepping. Qed.
Lemma grows_push_method f i n s : steps grows (push_method f i n s : M Z).
Proof. unfold push_method. stepping. Qed.
Hint Resolve grows_push_field grows_push_method : steps.
Lemma grows_add_field n s o : steps grows (add_field n s o : M Z).
Proof. unfold add_field. stepping. Qed.
Lemma grows_add_enum_value_field s : steps grows (add_enum_value_field s : M Z).
Proof. unfold add_enum_value_field. stepping. Qed.
Lemma grows_add_enum_literal_field n s v : steps grows (add_enum_literal_field n s v : M Z).
Proof. unfold add_enum_literal_field. stepping. Qed.
Lemma grows_push_custom_attribute p c v : steps grows (push_custom_attribute p c v : M Z).
Proof. unfold push_custom_attribute. stepping. Qed.
Hint Resolve grows_push_custom_attribute : steps.
Lemma grows_thread_static_attribute f : steps grows (thread_static_attribute f : M Z).
Proof. unfold thread_static_attribute, thread_static_ctor_ref, system_runtime_assembly_ref. stepping. Qed.
Lemma grows_nullable_metadata_attribute p f c : steps grows (nullable_metadata_attribute p f c : M Z).
Proof. unfold nullable_metadata_attribute, system_runtime_assembly_ref. stepping. Qed.
Hint Resolve grows_thread_static_attribute grows_nullable_metadata_attribute : steps.
Lemma grows_add_static_field n s r t c : steps grows (add_static_field n s r t c : M Z).
Proof. unfold add_static_field. stepping. assigned. Qed.
Lemma grows_push_param m f s n : steps grows (push_param m f s n : M Z).
Proof. unfold push_param. stepping. assigned. Qed.
Hint Resolve grows_push_param : steps.
Lemma grows_push_params m o nl i names : steps grows (push_params m o nl i names : M unit).
Proof. revert i. induction names as [|n names IH]; intros i; cbn [push_params]; stepping. Qed.
Lemma grows_push_nullability m p nl : steps grows (push_nullability m p nl : M unit).
Proof. unfold push_nullability. stepping. Qed.
Lemma grows_push_impl_map m n p : steps grows (push_impl_map m n p : M unit).
Proof. unfold push_impl_map. stepping. Qed.
Hint Resolve grows_push_params grows_push_nullability grows_push_impl_map : steps.
Lemma grows_add_method_with_access n a s ps o i1 i2 i3 p g nl :
  steps grows (add_method_with_access n a s ps o i1 i2 i3 p g nl : M Z).
Proof. unfold add_method_with_access. stepping. Qed.
Lemma grows_or_method_flags rid s : steps grows (or_method_flags rid s : M unit).
Proof. unfold or_method_flags. stepping. Qed.
Lemma grows_clear_method_flags rid s : steps grows (clear_method_flags rid s : M unit).
Proof. unfold clear_method_flags. stepping. Qed.
Lemma grows_mark_method_bit_preserving_float tok : steps grows (mark_method_bit_preserving_float tok : M unit).
Proof. unfold mark_method_bit_preserving_float. stepping. Qed.
Hint Resolve grows_or_method_flags grows_clear_method_flags : steps.
Lemma grows_mark_method_special_name tok : steps grows (mark_method_special_name tok : M unit).
Proof. unfold mark_method_special_name. stepping. Qed.
Lemma grows_set_method_body_rva m rva : steps grows (set_method_body_rva m rva : M unit).
Proof. unfold set_method_body_rva. stepping. Qed.
Lemma grows_register_method_def m tok : steps grows (register_method_def m tok : M unit).
Proof. unfold register_method_def. assigned. Qed.
Lemma grows_set_field_rva f rva : steps grows (set_field_rva f rva : M unit).
Proof. unfold set_field_rva. stepping. Qed.
Lemma grows_interface_impl c i : steps grows (interface_impl c i : M Z).
Proof. unfold interface_impl. stepping. Qed.
Lemma grows_add_generic_param o k n : steps grows (add_generic_param o k n : M Z).
Proof. unfold add_generic_param. stepping. Qed.
Lemma grows_add_method_impl c o d : steps grows (add_method_impl c o d : M unit).
Proof. unfold add_method_impl. stepping. Qed.
Lemma grows_method_spec m i : steps grows (method_spec m i : M Z).
Proof. unfold method_spec. stepping. Qed.
Hint Resolve grows_mark_method_special_name : steps.
Lemma grows_push_semantics x m a : steps grows (push_semantics x m a : M unit).
Proof. unfold push_semantics. stepping. Qed.
Lemma grows_open_run {Map} {maps : MetadataBuilder -> list Map} {assign} {T : Table maps assign} parent mk class next :
  steps grows (open_run maps assign parent mk class next : M unit).
Proof. unfold open_run. stepping. Qed.
Lemma grows_for_some a (f : Z -> M unit) : (forall x, steps grows (f x)) -> steps grows (for_some a f).
Proof. intros Hf. unfold for_some. stepping. Qed.
Hint Resolve grows_push_semantics : steps.
Hint Extern 0 (steps grows (open_run _ _ _ _ _ _)) => apply grows_open_run : steps.
Hint Extern 1 (steps grows (for_some _ _)) => apply grows_for_some : steps.
Lemma grows_add_event c n t a r : steps grows (add_event c n t a r : M unit).
Proof. unfold add_event. stepping. Qed.
Lemma grows_add_property c n s g t : steps grows (add_property c n s g t : M Z).
Proof. unfold add_property. stepping. Qed.
Lemma grows_module_row row : steps grows (modify (fun b =>
  set_t_module b (match t_module b with _ :: rows => row :: rows | [] => [row] end)) : M unit).
Proof.
  apply steps_modify. intros b. apply grows_assign.
  destruct (t_module b) as [|r l]; [by apply prefix_nil|]. cbn. reflexivity.
Qed.
Hint Resolve grows_module_row : steps.
Lemma grows_set_module n mvid : steps grows (set_module n mvid : M unit).
Proof. unfold set_module. stepping. Qed.
Lemma grows_set_assembly n v : steps grows (set_assembly n v : M Z).
Proof. unfold set_assembly. stepping. Qed.
End operations_grow.

#[export] Hint Resolve grows_insert_type_def grows_assembly_ref grows_find_or_create_assembly_ref
  grows_type_ref grows_intern_module_ref grows_member_ref grows_type_spec grows_standalone_sig
  grows_push_type_def grows_push_interfaces grows_add_type_def grows_set_type_def_field_list
  grows_set_type_def_method_list grows_or_type_flags grows_clear_type_flags grows_set_type_def_access
  grows_mark_type_def_interface grows_add_blob_sized_valuetype grows_field_sig_for_valuetype_token
  grows_register_field_def grows_push_field grows_push_method grows_add_field grows_add_enum_value_field
  grows_add_enum_literal_field grows_push_custom_attribute grows_thread_static_attribute
  grows_nullable_metadata_attribute grows_add_static_field grows_push_param grows_push_params
  grows_push_nullability grows_push_impl_map grows_add_method_with_access grows_or_method_flags
  grows_clear_method_flags grows_mark_method_bit_preserving_float grows_mark_method_special_name
  grows_set_method_body_rva grows_register_method_def grows_set_field_rva grows_interface_impl
  grows_add_generic_param grows_add_method_impl grows_method_spec grows_push_semantics
  grows_module_row grows_add_event grows_add_property
  grows_set_module grows_set_assembly : steps.
#[export] Hint Extern 0 (steps grows (open_run _ _ _ _ _ _)) => apply grows_open_run : steps.
#[export] Hint Extern 1 (steps grows (for_some _ _)) => apply grows_for_some : steps.
