(* ===== verification/TablesWf.v ===== *)
(** * Well-formed metadata tables

    What keeps the tables of a builder well-formed: every index a row holds names a row that exists,
    every offset an item of its heap, and a cache answers with the row its key describes.  [yields] is
    what one operation promises of the builder it ends in, with rules for the steps operations are made
    of. *)

From S2P Require Import Prelude Interner Types Class IR Method Heaps Tables TablesRead Signature TablesOps TablesGrow.
Local Open Scope Z_scope.

(** ** Well-formed builders *)

Definition text (b : MetadataBuilder) (off : Z) (s : string) : Prop :=
  Heaps.find (H := strings_format) (h_strings b) (ascii_bytes s) = Some off.
Definition blob (b : MetadataBuilder) (off : Z) (bytes : list Z) : Prop :=
  Heaps.find (H := blob_format) (h_blobs b) bytes = Some off.
Definition is_blob (b : MetadataBuilder) (off : Z) : Prop := exists bytes, blob b off bytes.

(** A token of one of the tables, to a row that exists. *)
Definition names (b : MetadataBuilder) (tables : list Z) (token : Z) : Prop :=
  exists t rid, t ∈ tables /\ 0 <= t < 256 /\ token = token_new t rid /\ 1 <= rid <= len (table_rows b t).

(** Some row that exists. *)
Definition valid (b : MetadataBuilder) (token : Z) : Prop := names b (seqZ 0 256) token.

(** A token to a row of a table, by the columns of the row that last. *)
Definition row_of (b : MetadataBuilder) (t token : Z) (columns : list Z) : Prop :=
  exists rid row, token = token_new t rid /\ 1 <= rid /\ table_rows b t !! Z.to_nat (rid - 1) = Some row /\
    lasting t row = columns.

(** A coded index to a row that exists. *)
Definition target (b : MetadataBuilder) (bits : Z) (targets : list Z) (v : Z) : Prop :=
  exists (tag : nat) t rid, targets !! tag = Some t /\ Z.of_nat tag < 2 ^ bits /\
    1 <= rid <= len (table_rows b t) /\ v = rid * 2 ^ bits + Z.of_nat tag.

(** What a column may hold. *)
Definition column_ok (b : MetadataBuilder) (c : Column) (v : Z) : Prop :=
  match c with
  | CU8 => in_u 8 v
  | CU16 => in_u 16 v
  | CU32 => in_u 32 v
  | CStrings => exists s, Heaps.find (H := strings_format) (h_strings b) s = Some v
  | CGuid => 0 <= v <= len (h_guids b) / 16
  | CBlob => is_blob b v
  | CIndex t => 1 <= v <= len (table_rows b t)
  | CRun t => 1 <= v <= len (table_rows b t) + 1
  | CCoded bits targets => target b bits targets v
  | CNullable bits targets => v = 0 \/ target b bits targets v
  end.

Definition row_ok (b : MetadataBuilder) (t : Z) (row : list Z) : Prop :=
  Forall2 (column_ok b) (default [] (schema t)) row.

Definition rows_ok (b : MetadataBuilder) : Prop := forall t, Forall (row_ok b t) (table_rows b t).

Definition heaps_ok (b : MetadataBuilder) : Prop :=
  heap_ok (H := strings_format) (h_strings b) /\ heap_ok (H := blob_format) (h_blobs b) /\
  forall k off, interned (h_user_strings b) !! k = Some off -> 0 <= off <= len (heap_data (h_user_strings b)).

(** What the entries of the caches of [c] say about the rows of [b]. *)
Definition type_ref_row b (scope : Z) (ns n : string) (token : Z) : Prop :=
  exists coded noff nsoff, row_of b TABLE_TYPE_REF token [coded; noff; nsoff] /\
    encode_resolution_scope (E := Empty_set) (if scope =? 0 then None else Some scope) = Ok coded /\
    text b noff n /\ text b nsoff ns.
Definition member_ref_row b (class : Z) (n : string) (sig token : Z) : Prop :=
  exists coded noff, row_of b TABLE_MEMBER_REF token [coded; noff; sig] /\
    encode_member_ref_parent (E := Empty_set) class = Ok coded /\ text b noff n.
Definition type_def_row b (ns n : string) (token : Z) : Prop :=
  exists noff nsoff, row_of b TABLE_TYPE_DEF token [noff; nsoff] /\ text b noff n /\ text b nsoff ns.
Definition assembly_ref_row b (n : string) (token : Z) : Prop :=
  exists row noff, row_of b TABLE_ASSEMBLY_REF token row /\ row !! 6%nat = Some noff /\ text b noff n.
Definition module_ref_row b (n : string) (token : Z) : Prop :=
  exists noff, row_of b TABLE_MODULE_REF token [noff] /\ text b noff n.

Definition TYPES : list Z := [TABLE_TYPE_DEF; TABLE_TYPE_REF; TABLE_TYPE_SPEC].

Record caches_ok (b c : MetadataBuilder) : Prop := {
  ok_type_refs scope ns n tok : type_ref_cache c !! (scope, ns, n) = Some tok -> type_ref_row b scope ns n tok;
  ok_member_refs class n sig tok : member_ref_cache c !! (class, n, sig) = Some tok -> member_ref_row b class n sig tok;
  ok_type_defs ns n tok : type_def_of c ns n = Some tok -> type_def_row b ns n tok;
  ok_assembly_refs n tok : assembly_ref_cache c !! n = Some tok -> assembly_ref_row b n tok;
  ok_module_refs n tok : module_ref_cache c !! n = Some tok -> module_ref_row b n tok;
  ok_type_specs sig tok : type_spec_cache c !! sig = Some tok -> row_of b TABLE_TYPE_SPEC tok [sig];
  ok_standalone sig tok : standalone_sig_cache c !! sig = Some tok -> row_of b TABLE_STAND_ALONE_SIG tok [sig];
  ok_calli key tok : calli_sig_cache c !! key = Some tok -> names b [TABLE_STAND_ALONE_SIG] tok;
  ok_locals key tok : locals_sig_cache c !! key = Some tok -> names b [TABLE_STAND_ALONE_SIG] tok;
  ok_classes cref tok : class_token_cache c !! cref = Some tok -> names b TYPES tok;
  ok_fields owner n sig tok : field_def_cache c !! (owner, n, sig) = Some tok ->
    exists flags, row_of b TABLE_FIELD tok [flags; n; sig];
  ok_params m sequence tok : method_param_cache c !! (m, sequence) = Some tok ->
    exists flags n, row_of b TABLE_PARAM tok [flags; sequence; n];
  ok_methods m tok : method_def_cache c !! m = Some tok -> names b [TABLE_METHOD_DEF] tok }.

Record wf (b : MetadataBuilder) : Prop := {
  wf_heaps : heaps_ok b; wf_rows : rows_ok b; wf_caches : caches_ok b b }.

(** *** What lasts *)

Lemma text_grows b b' off s : grows b b' -> text b off s -> text b' off s.
Proof. intros G. apply find_grows, grows_strings, G. Qed.
Lemma blob_grows b b' off s : grows b b' -> blob b off s -> blob b' off s.
Proof. intros G. apply find_grows, grows_blobs, G. Qed.
Lemma is_blob_grows b b' off : grows b b' -> is_blob b off -> is_blob b' off.
Proof. intros G [bytes H]. exists bytes. by eapply blob_grows. Qed.
Lemma names_grows b b' ts tok : grows b b' -> names b ts tok -> names b' ts tok.
Proof.
  intros G (t & rid & Ht & Hr & -> & Hb). pose proof (grows_count _ _ t G). exists t, rid.
  split_and!; [done|lia|lia|done|lia|lia].
Qed.
Lemma row_of_grows b b' t tok l : grows b b' -> row_of b t tok l -> row_of b' t tok l.
Proof.
  intros G (rid & row & -> & Hr & Hl & <-). destruct (grows_row _ _ _ _ _ G Hl) as (row' & Hl' & Heq).
  exists rid, row'. by split_and!.
Qed.
Lemma target_grows b b' bits targets v : grows b b' -> target b bits targets v -> target b' bits targets v.
Proof.
  intros G (tag & t & rid & Ht & Hb & Hr & ->). pose proof (grows_count _ _ t G). exists tag, t, rid.
  split_and!; [done|done|lia|lia|done].
Qed.
Lemma column_ok_grows b b' c v : grows b b' -> column_ok b c v -> column_ok b' c v.
Proof.
  intros G. destruct c; cbn; try done.
  - intros [s H]. exists s. by apply (find_grows _ _ _ _ (grows_strings _ _ G)).
  - pose proof (grows_guids _ _ G). pose proof (Z.div_le_mono (len (h_guids b)) (len (h_guids b')) 16). lia.
  - by apply is_blob_grows.
  - pose proof (grows_count _ _ table G). lia.
  - pose proof (grows_count _ _ table G). lia.
  - by apply target_grows.
  - intros [->|H]; [by left|right; by eapply target_grows].
Qed.
Lemma row_ok_grows b b' t row : grows b b' -> row_ok b t row -> row_ok b' t row.
Proof. intros G H. eapply Forall2_impl; [|exact H]. intros c v. by apply column_ok_grows. Qed.

Lemma row_of_names b t tok l : 0 <= t < 256 -> row_of b t tok l -> names b [t] tok.
Proof.
  intros Ht (rid & row & -> & Hr & Hl & _). apply lookup_lt_Some in Hl. exists t, rid. unfold len.
  split_and!; [by left|lia|lia|done|lia|lia].
Qed.
Lemma names_mono b ts ts' tok : ts ⊆ ts' -> names b ts tok -> names b ts' tok.
Proof. intros Hs (t & rid & Ht & H). exists t, rid. split; [by apply Hs|done]. Qed.
Lemma valid_names b ts tok : names b ts tok -> valid b tok.
Proof. intros (t & rid & Ht & Hr & H). exists t, rid. split; [|done]. apply elem_of_seqZ. lia. Qed.
Lemma valid_row b t tok l : 0 <= t < 256 -> row_of b t tok l -> valid b tok.
Proof. intros Ht Hr. eapply valid_names, row_of_names; done. Qed.
Lemma valid_grows b b' tok : grows b b' -> valid b tok -> valid b' tok.
Proof. apply names_grows. Qed.

#[local] Hint Resolve text_grows blob_grows names_grows row_of_grows : mono.

Lemma caches_ok_grows b b' c : grows b b' -> caches_ok b c -> caches_ok b' c.
Proof.
  intros G [H1 H2 H3 H4 H5 H6 H7 H8 H9 H10 H11 H12 H13]. constructor.
  - intros ? ? ? ? (x & y & z & ? & ? & ? & ?)%H1. exists x, y, z. split_and!; eauto with mono.
  - intros ? ? ? ? (x & y & ? & ? & ?)%H2. exists x, y. split_and!; eauto with mono.
  - intros ? ? ? (x & y & ? & ? & ?)%H3. exists x, y. split_and!; eauto with mono.
  - intros ? ? (x & y & ? & ? & ?)%H4. exists x, y. split_and!; eauto with mono.
  - intros ? ? (x & ? & ?)%H5. exists x. split_and!; eauto with mono.
  - eauto with mono.
  - eauto with mono.
  - eauto with mono.
  - eauto with mono.
  - eauto with mono.
  - intros ? ? ? ? (x & ?)%H11. exists x. eauto with mono.
  - intros ? ? ? (x & y & ?)%H12. exists x, y. eauto with mono.
  - eauto with mono.
Qed.

Lemma caches_ok_rest b c c' : rest c' = rest c -> caches_ok b c -> caches_ok b c'.
Proof.
  intros Hr [H1 H2 H3 H4 H5 H6 H7 H8 H9 H10 H11 H12 H13]. unfold rest in Hr. injection Hr. intros.
  assert (Hdef : forall ns n, type_def_of c' ns n = type_def_of c ns n) by (intros; unfold type_def_of; congruence).
  constructor; intros *; first
    [ rewrite Hdef; apply H3
    | match goal with He : ?f c' = ?f c |- ?f c' !! _ = _ -> _ => rewrite He end;
      first [apply H1|apply H2|apply H4|apply H5|apply H6|apply H7|apply H8|apply H9|apply H10|apply H11|apply H12|apply H13] ].
Qed.

(** *** Bounds

    Tokens have 24 bits of row number, offsets and counts 32.  Operations only grow a builder, so a
    builder that ends small was small all along. *)
Definition small (b : MetadataBuilder) : Prop :=
  (forall t, len (table_rows b t) < 2 ^ 24) /\ len (heap_data (h_strings b)) < 2 ^ 32 /\
  len (heap_data (h_blobs b)) < 2 ^ 32 /\ len (heap_data (h_user_strings b)) < 2 ^ 32 /\ len (h_guids b) < 2 ^ 32.

Lemma small_grows b b' : grows b b' -> small b' -> small b.
Proof.
  intros G (Ht & Hs & Hb & Hu & Hg).
  pose proof (prefix_length _ _ (proj1 (grows_user _ _ G))).
  pose proof (prefix_length _ _ (proj1 (grows_strings _ _ G))). pose proof (prefix_length _ _ (proj1 (grows_blobs _ _ G))).
  pose proof (grows_guids _ _ G). unfold small, len in *. split_and!; [|lia..].
  intros t. pose proof (grows_count _ _ t G) as Hc. specialize (Ht t). unfold len in *. lia.
Qed.

Lemma token_of_row b tables token : small b -> names b tables token ->
  token_table token ∈ tables /\ 1 <= token_rid token <= len (table_rows b (token_table token)) /\
  token_rid token < 2 ^ 24.
Proof.
  intros (Ht & _) (t & rid & Hin & Hr & -> & Hb). specialize (Ht t).
  destruct (token_parts t rid) as [-> ->]; [lia|lia|]. split_and!; [done|lia|lia|lia].
Qed.

(** ** What an operation promises *)

Definition yields {E A} (m : ST MetadataBuilder E A) (b : MetadataBuilder) (Q : A -> MetadataBuilder -> Prop) : Prop :=
  wf b -> forall b' o, m b = (b', o) -> small b' -> wf b' /\ grows b b' /\ forall a, o = Ok a -> Q a b'.

Section yields.
Context {E : Type}.
Local Notation M := (ST MetadataBuilder E).
Implicit Types b : MetadataBuilder.

Lemma yields_bind {A B} (m : M A) (f : A -> M B) b P Q :
  (forall a, steps grows (f a)) -> yields m b P ->
  (forall a b1, wf b1 -> grows b b1 -> small b1 -> P a b1 -> yields (f a) b1 Q) ->
  yields (m ≫= f) b Q.
Proof.
  intros Hg Hm Hf Hwf b' r Hr Hs. unfold mbind, ST_bind in Hr. destruct (m b) as [b1 o] eqn:Hma.
  assert (Hend : forall o' : outcome E B, (b1, o') = (b', r) -> small b1).
  { by intros o' [= <- _]. }
  destruct o as [a|e| |]; cycle 1.
  1-3: destruct (Hm Hwf _ _ Hma (Hend _ Hr)) as (? & ? & _); injection Hr as <- <-; split_and!; [done..|by intros ? [=]].
  pose proof (Hg a b1) as G. rewrite Hr in G. cbn in G. pose proof (small_grows _ _ G Hs) as Hs1.
  destruct (Hm Hwf _ _ Hma Hs1) as (Hwf1 & G1 & HP).
  destruct (Hf a b1 Hwf1 G1 Hs1 (HP _ eq_refl) Hwf1 _ _ Hr Hs) as (? & ? & ?). split_and!; [done|by etrans|done].
Qed.

Lemma yields_mono {A} (m : M A) b P Q :
  yields m b P -> (forall a b', wf b' -> grows b b' -> small b' -> P a b' -> Q a b') -> yields m b Q.
Proof. intros Hm HQ Hwf b' o Hr Hs. destruct (Hm Hwf _ _ Hr Hs) as (? & ? & ?). split_and!; auto. Qed.

(** A computation that leaves the builder. *)
Lemma yields_still {A} (m : M A) b Q :
  (forall b' o, m b = (b', o) -> b' = b /\ forall a, o = Ok a -> wf b -> Q a b) -> yields m b Q.
Proof. intros Hm Hwf b' o Hr _. destruct (Hm _ _ Hr) as [-> HQ]. split_and!; [done..|]. eauto. Qed.

Lemma yields_ret {A} (a : A) b Q : Q a b -> yields (mret a : M A) b Q.
Proof. intros HQ. apply yields_still. intros b' o [= <- <-]. split; [done|]. intros a' [= <-] _. exact HQ. Qed.
Lemma yields_assert c b Q : (c = true -> Q tt b) -> yields (assert_that c : M unit) b Q.
Proof. intros HQ. apply yields_still. intros b' o. unfold assert_that. destruct c; intros [= <- <-]; (split; [done|]); intros [] Ho; [auto|done]. Qed.
Lemma yields_step_bind {A B} (m : M A) (f : A -> M B) b Q :
  fst (m b) = b -> (forall a, snd (m b) = Ok a -> yields (f a) b Q) -> yields (m ≫= f) b Q.
Proof.
  intros Hb Hf Hwf b' r Hr. unfold mbind, ST_bind in Hr. destruct (m b) as [b1 o]. cbn in *. subst b1.
  destruct o as [a|e| |]; [by eapply Hf|..]; injection Hr as <- <-; (split; [done|]; split; [reflexivity|]; by intros ? [=]).
Qed.
Lemma yields_lift_bind {A B} (o : outcome E A) (f : A -> M B) b Q :
  (forall a, o = Ok a -> yields (f a) b Q) -> yields (lift o ≫= f) b Q.
Proof. intros Hf. by apply yields_step_bind. Qed.
Lemma yields_ask_bind {B} (f : MetadataBuilder -> M B) b Q : yields (f b) b Q -> yields (ask ≫= f) b Q.
Proof. intros Hf. apply yields_step_bind; [done|]. by intros ? [= <-]. Qed.
Lemma yields_assert_bind {B} c (f : unit -> M B) b Q :
  (c = true -> yields (f tt) b Q) -> yields (assert_that c ≫= f) b Q.
Proof. intros Hf. apply yields_step_bind; [by destruct c|]. destruct c; [|done]. intros [] _. by apply Hf. Qed.
Lemma yields_panic {A} b Q : yields (panic : M A) b Q.
Proof. apply yields_still. intros b' o [= <- <-]. by split. Qed.
Lemma yields_small {A} (m : M A) b Q : (wf b -> small b -> yields m b Q) -> steps grows m -> yields m b Q.
Proof.
  intros H Hg Hwf b' o Hr Hs. apply H; try done. eapply small_grows; [|exact Hs]. specialize (Hg b). by rewrite Hr in Hg.
Qed.

(** *** Heaps *)

Lemma wf_heap_step b b' :
  wf b -> grows b b' -> heaps_ok b' -> (forall t, table_rows b' t = table_rows b t) -> 
  (forall c, caches_ok c b -> caches_ok c b') -> wf b'.
Proof.
  intros [Hh Hr Hc] G Hh' Hrows Hcaches. split; [done| |].
  - intros t. rewrite Hrows. eapply list.Forall_impl; [apply Hr|]. intros row. by apply row_ok_grows.
  - apply Hcaches. by eapply caches_ok_grows.
Qed.

Lemma strings_intern_keeps s h h' (o : outcome E Z) :
  heap_ok (H := strings_format) h -> strings_intern s h = (h', o) ->
  heap_ok (H := strings_format) h' /\ forall off, o = Ok off -> Heaps.find (H := strings_format) h' s = Some off.
Proof.
  intros Hok Hi. destruct o as [off|e| |].
  1: destruct (intern_ok (H := strings_format) (E := E) _ _ _ _ Hok I Hi) as (? & _ & ?); split; [done|by intros ? [= <-]].
  all: split; [|done]; replace h' with h; [done|]; unfold strings_intern in Hi; destruct s; [done|];
    destruct (existsb _ _); [by injection Hi|]; destruct (interned h !! _); [by injection Hi|];
    destruct (expect_u32 (E := E) _); by injection Hi.
Qed.
Lemma blob_intern_keeps s h h' (o : outcome E Z) :
  heap_ok (H := blob_format) h -> blob_intern s h = (h', o) ->
  heap_ok (H := blob_format) h' /\ forall off, o = Ok off -> Heaps.find (H := blob_format) h' s = Some off.
Proof.
  intros Hok Hi. destruct o as [off|e| |].
  1: destruct (intern_ok (H := blob_format) (E := E) _ _ _ _ Hok I Hi) as (? & _ & ?); split; [done|by intros ? [= <-]].
  all: split; [|done]; replace h' with h; [done|]; unfold blob_intern in Hi; destruct s; [done|];
    destruct (interned h !! _); [by injection Hi|]; destruct (_ ≫= _) as [[]| | |]; by injection Hi.
Qed.

Lemma yields_intern_string s b Q :
  (forall off b', grows b b' -> text b' off s -> Q off b') -> yields (intern_string s : M Z) b Q.
Proof.
  intros HQ Hwf b' o Hr _. pose proof (grows_intern_string (E := E) s b) as G. rewrite Hr in G. cbn in G.
  unfold intern_string in Hr. destruct (strings_intern _ _) as [h o'] eqn:Hi. injection Hr as <- ->.
  destruct (wf_heaps _ Hwf) as (H1 & H2 & H3). destruct (strings_intern_keeps _ _ _ _ H1 Hi) as [Hok Hf].
  split_and!; [|done|intros off Hoff; apply HQ; [done|by apply Hf]].
  eapply (wf_heap_step b); [done|done|by split_and!|done|]. intros c []. by constructor.
Qed.
Lemma yields_intern_blob s b Q :
  (forall off b', grows b b' -> blob b' off s -> Q off b') -> yields (intern_blob s : M Z) b Q.
Proof.
  intros HQ Hwf b' o Hr _. pose proof (grows_intern_blob (E := E) s b) as G. rewrite Hr in G. cbn in G.
  unfold intern_blob in Hr. destruct (blob_intern _ _) as [h o'] eqn:Hi. injection Hr as <- ->.
  destruct (wf_heaps _ Hwf) as (H1 & H2 & H3). destruct (blob_intern_keeps _ _ _ _ H2 Hi) as [Hok Hf].
  split_and!; [|done|intros off Hoff; apply HQ; [done|by apply Hf]].
  eapply (wf_heap_step b); [done|done|by split_and!|done|]. intros c []. by constructor.
Qed.
Lemma yields_push_guid g b :
  length g = 16%nat -> yields (push_guid g : M Z) b (fun i b' => 0 <= i <= len (h_guids b') / 16).
Proof.
  intros Hg Hwf b' o Hr _. pose proof (grows_push_guid (E := E) g b) as G. rewrite Hr in G. cbn in G.
  unfold push_guid, guid_push in Hr. injection Hr as <- <-. split_and!; [|done|].
  - eapply (wf_heap_step b); [done|done|by destruct (wf_heaps _ Hwf) as (? & ? & ?)|done|]. intros c []. by constructor.
  - intros i [-> _]%expect_u32_ok. split; [apply Z.div_pos; lia|]. cbn. unfold len. lia.
Qed.

(** *** Rows *)

Section table.
Context {R} {rows : MetadataBuilder -> list R} {assign : MetadataBuilder -> list R -> MetadataBuilder}
  `{T : !Table rows assign}.

Lemma wf_assign b l :
  wf b -> grows b (assign b l) -> Forall (fun r => row_ok b table_id (row_values r)) l -> wf (assign b l).
Proof.
  intros [Hh Hr Hc] G Hl. split.
  - pose proof (rest_eq _ _ (rest_assign b l)) as H. decompose [and] H. unfold heaps_ok in *.
    repeat match goal with H : _ (assign b l) = _ |- _ => rewrite H end. done.
  - intros t. rewrite table_rows_assign. destruct (Z.eqb_spec t table_id) as [->|].
    + apply Forall_map. eapply list.Forall_impl; [exact Hl|]. intros r. by apply row_ok_grows.
    + eapply list.Forall_impl; [apply Hr|]. intros r. by apply row_ok_grows.
  - eapply caches_ok_rest; [by apply rest_assign|]. by eapply caches_ok_grows.
Qed.

Lemma rows_ok_of b : wf b -> Forall (fun r => row_ok b table_id (row_values r)) (rows b).
Proof. intros Hwf. pose proof (wf_rows _ Hwf table_id) as H. rewrite table_rows_own in H. exact (proj1 (List.Forall_map _ _ _) H). Qed.

Lemma yields_append row b Q :
  (wf b -> row_ok b table_id (row_values row)) ->
  (forall b', grows b b' -> b' = assign b (rows b ++ [row]) ->
     row_of b' table_id (token_new table_id (len (table_rows b' table_id))) (lasting table_id (row_values row)) ->
     Q tt b') ->
  yields (append rows assign row : M unit) b Q.
Proof.
  intros Hrow HQ Hwf b' o [= <- <-] _.
  assert (G : grows b (assign b (rows b ++ [row]))) by apply (grows_append (E := E) row b).
  split_and!; [|done|intros [] _].
  - apply wf_assign; [done|done|]. apply Forall_app. split; [by apply rows_ok_of|]. by constructor; [apply Hrow|].
  - apply HQ; [done|done|]. exists (len (table_rows (assign b (rows b ++ [row])) table_id)), (row_values row).
    rewrite table_rows_own, rows_assign, map_app. unfold len. rewrite length_app. cbn [length map].
    split_and!; [done|lia| |done]. rewrite lookup_app_r by lia. by replace (_ - _)%nat with 0%nat by lia.
Qed.

Lemma yields_add_row row b table Q :
  table = table_id -> (wf b -> row_ok b table_id (row_values row)) ->
  (forall tok b', grows b b' -> row_of b' table tok (lasting table (row_values row)) -> Q tok b') ->
  yields (add_row rows assign table row : M Z) b Q.
Proof.
  intros -> Hrow HQ. unfold add_row. eapply yields_bind; [intros []; stepping| |].
  - eapply (yields_append row b (fun _ b' => grows b b' /\ row_of b' table_id (token_new table_id (len (table_rows b' table_id)))
      (lasting table_id (row_values row)))); [done|]. intros b' ? _ ?. done.
  - intros [] b1 Hwf1 G1 Hs1 [_ Hrow1]. apply yields_step_bind; [done|]. intros rid [-> _]%expect_u32_ok.
    apply yields_ret. apply HQ; [done|]. rewrite table_rows_own in Hrow1. unfold len in *. by rewrite length_map in Hrow1.
Qed.

Lemma yields_update_row rid f b Q :
  (forall r, lasting table_id (row_values (f r)) = lasting table_id (row_values r)) ->
  (forall r, wf b -> row_ok b table_id (row_values r) -> row_ok b table_id (row_values (f r))) ->
  (forall b', grows b b' -> (0 <= rid -> 1 <= rid <= len (table_rows b' table_id)) -> Q tt b') ->
  yields (update_row rows assign rid f : M unit) b Q.
Proof.
  intros Hl Hf HQ Hwf b' o Hr _. pose proof (grows_update_row (E := E) rid f Hl b) as G. rewrite Hr in G. cbn in G.
  unfold update_row in Hr. destruct (Z.eqb_spec rid 0); [by injection Hr as <- <-|].
  destruct (rows b !! Z.to_nat (rid - 1)) as [r|] eqn:Hi; [|by injection Hr as <- <-]. injection Hr as <- <-.
  split_and!; [|done|]; cycle 1.
  { intros [] _. apply HQ; [done|]. intros Hpos. rewrite table_rows_own, rows_assign. unfold len.
    rewrite length_map, length_insert. apply lookup_lt_Some in Hi. lia. } apply wf_assign; [done|done|]. apply Forall_insert; [by apply rows_ok_of|].
  apply Hf; [done|]. pose proof (rows_ok_of _ Hwf) as Hok. rewrite list.Forall_forall in Hok. apply Hok.
  by eapply list_elem_of_lookup_2.
Qed.

Lemma yields_next_rid_bind {A} (f : Z -> M A) b Q :
  yields (f (len (table_rows b table_id) + 1)) b Q -> yields (next_rid rows ≫= f) b Q.
Proof.
  intros HQ. apply yields_step_bind; [done|]. intros k [-> _]%expect_u32_ok.
  rewrite table_rows_own in HQ. unfold len in *. by rewrite length_map in HQ.
Qed.
Lemma yields_last_rid_bind {A} (f : Z -> M A) b Q :
  yields (f (len (table_rows b table_id))) b Q -> yields (last_rid rows ≫= f) b Q.
Proof.
  intros HQ. apply yields_step_bind; [done|]. intros k [-> _]%expect_u32_ok.
  rewrite table_rows_own in HQ. unfold len in *. by rewrite length_map in HQ.
Qed.
End table.

(** *** Caches *)

Lemma yields_modify g b Q :
  steps grows (modify g : M unit) -> (forall t, table_rows (g b) t = table_rows b t) ->
  (h_strings (g b), h_blobs (g b), h_user_strings (g b)) = (h_strings b, h_blobs b, h_user_strings b) ->
  (wf b -> caches_ok b (g b)) -> (grows b (g b) -> Q tt (g b)) -> yields (modify g : M unit) b Q.
Proof.
  intros Hg Hrows Hh Hc HQ Hwf b' o [= <- <-] _. specialize (Hg b). cbn in Hg.
  split_and!; [|done|intros [] _; by apply HQ]. split.
  - injection Hh as H1 H2 H3. unfold heaps_ok. rewrite H1, H2, H3. apply Hwf.
  - intros t. rewrite Hrows. eapply list.Forall_impl; [apply (wf_rows _ Hwf)|]. intros row. by apply row_ok_grows.
  - eapply caches_ok_grows; [exact Hg|]. by apply Hc.
Qed.

Lemma yields_cached look make remember b (Q : Z -> MetadataBuilder -> Prop) :
  steps grows (cached look make remember : M Z) ->
  (wf b -> forall tok, look b = Some tok -> Q tok b) ->
  (steps grows make /\ yields make b Q) ->
  (forall b1 tok, wf b1 -> Q tok b1 -> (forall t, table_rows (remember tok b1) t = table_rows b1 t) /\
     (h_strings (remember tok b1), h_blobs (remember tok b1), h_user_strings (remember tok b1)) =
     (h_strings b1, h_blobs b1, h_user_strings b1) /\
     caches_ok b1 (remember tok b1) /\ (grows b1 (remember tok b1) -> Q tok (remember tok b1))) ->
  (forall b1 tok, look b1 = None -> grows b1 (remember tok b1)) -> steps (same look) make ->
  yields (cached look make remember : M Z) b Q.
Proof.
  intros Hg Hlook [Hgm Hmake] Hrem Hgrow Hsame. apply yields_ask_bind. destruct (look b) as [t|] eqn:Hl.
  { apply yields_still. intros b' o [= <- <-]. split; [done|]. intros ? [= <-] Hwf. by apply Hlook. }
  intros Hwf b' o Hr Hs. unfold mbind, ST_bind in Hr. destruct (make b) as [b1 o1] eqn:Hm.
  assert (Hend : forall o' : outcome E Z, (b1, o') = (b', o) -> small b1) by (by intros o' [= <- _]).
  destruct o1 as [t|e| |]; cycle 1.
  1-3: destruct (Hmake Hwf _ _ Hm (Hend _ Hr)) as (? & ? & _); injection Hr as <- <-; split_and!; [done..|by intros ? [=]].
  cbn in Hr. injection Hr as <- <-.
  assert (Hl1 : look b1 = None) by (specialize (Hsame b); rewrite Hm in Hsame; unfold same in Hsame; cbn in Hsame; congruence).
  pose proof (Hgrow b1 t Hl1) as G1. pose proof (small_grows _ _ G1 Hs) as Hs1.
  destruct (Hmake Hwf _ _ Hm Hs1) as (Hwf1 & G0 & HQ). specialize (HQ _ eq_refl).
  destruct (Hrem b1 t Hwf1 HQ) as (Hrows & Hh & Hc & HQ').
  split_and!; [|by etrans|intros ? [= <-]; by apply HQ']. split.
  - injection Hh as H1 H2 H3. unfold heaps_ok. rewrite H1, H2, H3. apply Hwf1.
  - intros t'. rewrite Hrows. eapply list.Forall_impl; [apply (wf_rows _ Hwf1)|]. intros row. by apply row_ok_grows.
  - by eapply caches_ok_grows.
Qed.
End yields.

(** ** Coded indices of tokens *)

Lemma find_tag (tags : list (Z * Z)) t p : List.find (fun '(t', _) => t' =? t) tags = Some p -> fst p = t /\ p ∈ tags.
Proof. intros [Hin Ht]%find_some. destruct p. apply Z.eqb_eq in Ht as ->. by rewrite list_elem_of_In. Qed.

Lemma lor_shifted a n v : 0 <= n -> 0 <= v < 2 ^ n -> Z.lor (a * 2 ^ n) v = a * 2 ^ n + v.
Proof.
  intros Hn Hv. symmetry. apply Z.add_nocarry_lor.
  apply Z.bits_inj'; intros i Hi; rewrite Z.land_spec, Z.mul_pow2_bits, Z.bits_0 by lia.
  destruct (Z.ltb_spec i n); [by rewrite (Z.testbit_neg_r a) by lia|].
  rewrite <- (Z.mod_small v (2 ^ n)), Z.mod_pow2_bits_high by lia. apply andb_false_r.
Qed.

Lemma coded_target {E} b bits tags targets tables token c :
  small b -> names b tables token -> 0 <= bits <= 5 ->
  Forall (fun '(t, tag) => 0 <= tag < 2 ^ bits /\ targets !! Z.to_nat tag = Some t) tags ->
  coded (E := E) bits tags token = Ok c -> target b bits targets c.
Proof.
  intros Hs Hn Hb Htags Hc. destruct (token_of_row _ _ _ Hs Hn) as (_ & Hr & Hr24).
  unfold coded, tag_of in Hc. destruct (List.find _ tags) as [[t tag]|] eqn:Hf; [|done].
  cbn in Hc. injection Hc as <-. apply find_tag in Hf as [Ht Hin]. cbn in Ht.
  rewrite list.Forall_forall in Htags. destruct (Htags _ Hin) as [Htag Htarget].
  exists (Z.to_nat tag), t, (token_rid token). rewrite Z2Nat.id by lia. rewrite <- Ht in Hr.
  split_and!; [done|lia|lia|lia|].
  rewrite Z.shiftl_mul_pow2 by lia. assert (2 ^ bits <= 2 ^ 5) by (apply Z.pow_le_mono_r; lia).
  rewrite wrap_id by (unfold in_u; nia). apply lor_shifted; lia.
Qed.

Lemma coded_any {E E'} bits tags token c : coded (E := E) bits tags token = Ok c -> coded (E := E') bits tags token = Ok c.
Proof. unfold coded, tag_of. destruct (List.find _ tags) as [[]|]; [|done]. cbn. by intros [= ->]. Qed.

Section encoded.
Context {E : Type} (b : MetadataBuilder) (token c : Z).
Hypothesis Hs : small b.
Hypothesis Hn : valid b token.

Ltac encoded := intros Hc; eapply coded_target; [exact Hs|exact Hn|lia| |exact Hc];
  repeat (apply list.Forall_cons_2; [split; [lia|reflexivity]|]); by apply list.Forall_nil_2.

Lemma type_def_or_ref_ok : encode_type_def_or_ref_token (E := E) token = Ok c -> column_ok b TypeDefOrRef c.
Proof. encoded. Qed.
Lemma member_ref_parent_ok : encode_member_ref_parent (E := E) token = Ok c -> column_ok b MemberRefParent c.
Proof. encoded. Qed.
Lemma method_def_or_ref_ok : encode_method_def_or_ref (E := E) token = Ok c -> column_ok b MethodDefOrRef c.
Proof. encoded. Qed.
Lemma has_custom_attribute_ok : encode_has_custom_attribute (E := E) token = Ok c -> column_ok b HasCustomAttribute c.
Proof. encoded. Qed.
Lemma custom_attribute_type_ok : encode_custom_attribute_type (E := E) token = Ok c -> column_ok b CustomAttributeType c.
Proof. encoded. Qed.
Lemma member_forwarded_ok : encode_member_forwarded (E := E) token = Ok c -> column_ok b MemberForwarded c.
Proof. encoded. Qed.
Lemma type_or_method_def_ok : encode_type_or_method_def (E := E) token = Ok c -> column_ok b TypeOrMethodDef c.
Proof. encoded. Qed.
Lemma has_semantics_ok : encode_has_semantics (E := E) token = Ok c -> column_ok b HasSemantics c.
Proof. encoded. Qed.
Lemma scope_of_token_ok : encode_resolution_scope (E := E) (Some token) = Ok c -> column_ok b ResolutionScope c.
Proof. intros Hc. right. revert Hc. encoded. Qed.
End encoded.

Lemma nullable_of_coded b bits targets v : column_ok b (CCoded bits targets) v -> column_ok b (CNullable bits targets) v.
Proof. by right. Qed.

Lemma names_nonzero b tables token : small b -> names b tables token -> token <> 0.
Proof. intros Hs Hn ->. destruct (token_of_row _ _ _ Hs Hn) as (_ & H & _). change (token_rid 0) with 0 in H. lia. Qed.

(** ** Rows of text, flags and references *)

Lemma text_column b off s : text b off s -> column_ok b CStrings off.
Proof. intros H. by exists (ascii_bytes s). Qed.
Lemma no_text b : column_ok b CStrings 0.
Proof. by exists []. Qed.
Lemma blob_column b off bytes : blob b off bytes -> is_blob b off.
Proof. intros H. by exists bytes. Qed.
Lemma no_blob b : is_blob b 0.
Proof. by exists []. Qed.

Lemma run_ends b t : column_ok b (CRun t) (len (table_rows b t) + 1).
Proof. cbn. unfold len. lia. Qed.

#[export] Hint Resolve run_ends text_column no_text blob_column no_blob nullable_of_coded type_def_or_ref_ok
  member_ref_parent_ok method_def_or_ref_ok has_custom_attribute_ok custom_attribute_type_ok member_forwarded_ok
  type_or_method_def_ok has_semantics_ok scope_of_token_ok : columns.

(** A row, column by column. *)
Ltac project :=
  match goal with
  | |- column_ok ?b ?c (?p ?r) =>
      let v := eval cbv beta iota delta [p] in (p r) in change (column_ok b c v)
  | _ => idtac
  end;
  try match goal with |- column_ok ?b CBlob ?v => change (is_blob b v) end.
Ltac columns :=
  intros; unfold row_ok;
  match goal with |- context [schema ?t] => let s := eval hnf in (schema t) in change (schema t) with s end;
  cbn [default from_option id];
  repeat apply List.Forall2_cons; [..|by apply List.Forall2_nil]; project;
  first [done | assumption | solve [eauto 3 with columns] | solve [cbn; unfold in_u in *; lia] | idtac].

(** A row that is assigned again, by the columns it had. *)
Ltac recolumns :=
  let r := fresh "r" in let H := fresh "H" in
  intros r ? H; destruct r; unfold row_ok in H;
  match type of H with Forall2 ?P ?s ?v =>
    let s := eval lazy in s in let v := eval lazy in v in change (Forall2 P s v) in H end;
  repeat match type of H with Forall2 _ (_ :: _) (_ :: _) =>
    let Hc := fresh "Hc" in apply list.Forall2_cons in H; destruct H as [Hc H] end;
  unfold row_ok;
  match goal with |- context [schema ?t] => let s := eval lazy in (default [] (schema t)) in change (default [] (schema t)) with s end;
  repeat apply List.Forall2_cons; [..|by apply List.Forall2_nil]; project;
  first [done | assumption | solve [eauto 3 with columns] | solve [cbn in *; unfold in_u in *; lia] | idtac].

Lemma type_ref_row_grows b b' scope ns n tok : grows b b' -> type_ref_row b scope ns n tok -> type_ref_row b' scope ns n tok.
Proof.
  intros G (x & y & z & ? & ? & ? & ?). exists x, y, z.
  split_and!; [by eapply row_of_grows|done|by eapply text_grows|by eapply text_grows].
Qed.
Lemma member_ref_row_grows b b' c n s tok : grows b b' -> member_ref_row b c n s tok -> member_ref_row b' c n s tok.
Proof.
  intros G (x & y & ? & ? & ?). exists x, y. split_and!; [by eapply row_of_grows|done|by eapply text_grows].
Qed.
Lemma type_def_row_grows b b' ns n tok : grows b b' -> type_def_row b ns n tok -> type_def_row b' ns n tok.
Proof.
  intros G (x & y & ? & ? & ?). exists x, y. split_and!; [by eapply row_of_grows|by eapply text_grows|by eapply text_grows].
Qed.
Lemma assembly_ref_row_grows b b' n tok : grows b b' -> assembly_ref_row b n tok -> assembly_ref_row b' n tok.
Proof. intros G (x & y & ? & ? & ?). exists x, y. split_and!; [by eapply row_of_grows|done|by eapply text_grows]. Qed.

(** Facts of an earlier state. *)
Ltac carry G :=
  repeat match type of G with grows ?b ?b' =>
    match goal with
    | H : text b _ _ |- _ => apply (text_grows _ _ _ _ G) in H
    | H : blob b _ _ |- _ => apply (blob_grows _ _ _ _ G) in H
    | H : is_blob b _ |- _ => apply (is_blob_grows _ _ _ G) in H
    | H : names b _ _ |- _ => apply (names_grows _ _ _ _ G) in H
    | H : valid b _ |- _ => apply (valid_grows _ _ _ G) in H
    | H : row_of b _ _ _ |- _ => apply (row_of_grows _ _ _ _ _ G) in H
    | H : column_ok b _ _ |- _ => apply (column_ok_grows _ _ _ _ G) in H
    | H : type_ref_row b _ _ _ _ |- _ => apply (type_ref_row_grows _ _ _ _ _ _ G) in H
    | H : member_ref_row b _ _ _ _ |- _ => apply (member_ref_row_grows _ _ _ _ _ _ G) in H
    | H : type_def_row b _ _ _ |- _ => apply (type_def_row_grows _ _ _ _ _ G) in H
    | H : assembly_ref_row b _ _ |- _ => apply (assembly_ref_row_grows _ _ _ _ G) in H
    end
  end.
