(* ===== verification/TablesTheory.v ===== *)
(** * Every operation keeps the tables well-formed

    One lemma per operation of [TablesOps]: what the token it returns names, from well-formed tables
    and arguments that name what exists.  [Op] lists the operations the exporter calls. *)

From S2P Require Import Prelude Interner Types Class IR Method Heaps Tables TablesRead Signature TablesOps TablesGrow TablesWf.
Local Open Scope Z_scope.

(** ** References *)

(** *** Tactics *)

(** The next step of a sequence, with what is known moved to the state it ends in. *)
Ltac after := let off := fresh "off" in let b1 := fresh "b" in let Hwf := fresh "Hwf" in
  let G := fresh "G" in let Hs := fresh "Hs" in let H := fresh "H" in
  intros off b1 Hwf G Hs H; cbv beta in H; carry G; cbv beta.

(** The numbers of tables. *)
Ltac plain_ids :=
  repeat match goal with |- context [@table_id ?R ?r ?a ?i] =>
    let t := eval lazy in (@table_id R r a i) in change (@table_id R r a i) with t end.

Ltac grown := first [solve [intros; stepping] | solve [intros; stepping; assigned]].

Ltac step :=
  lazymatch goal with
  | |- yields (intern_string ?s ≫= _) _ _ =>
      eapply yields_bind; [grown|apply (yields_intern_string s _ (fun off b' => text b' off s)); done|after]
  | |- yields (intern_blob ?s ≫= _) _ _ =>
      eapply yields_bind; [grown|apply (yields_intern_blob s _ (fun off b' => blob b' off s)); done|after]
  | |- yields (lift _ ≫= _) _ _ => apply yields_lift_bind; intros
  | |- yields (ask ≫= _) _ _ => apply yields_ask_bind
  | |- yields (assert_that _ ≫= _) _ _ => apply yields_assert_bind; intros
  | |- yields (next_rid _ ≫= _) _ _ => apply yields_next_rid_bind; plain_ids
  | |- yields (last_rid _ ≫= _) _ _ => apply yields_last_rid_bind; plain_ids
  | |- yields (mret _) _ _ => apply yields_ret
  end.

(** An entry of a cache. *)
Ltac cases :=
  repeat match goal with |- context [match ?x !! ?k with _ => _ end] => destruct (x !! k) eqn:? end.

Ltac remembers H :=
  let l := fresh in
  destruct (wf_caches _ H); constructor; try done; cbn; intros;
  match goal with l : _ !! _ = Some _ |- _ => apply lookup_insert_Some in l as [[? ?]|[_ ?]]; simplify_eq; eauto end.

Ltac remembering P :=
  apply (yields_modify _ _ P);
  [ assigned | intros; by cases | by cases
  | let H := fresh in intros H; cases; first [by apply H | remembers H | idtac] | try done ].

(** A call inside a sequence, and one that ends it. *)
Tactic Notation "call" uconstr(L) := eapply yields_bind; [grown|apply L|after].

Tactic Notation "tail" uconstr(L) := eapply yields_mono; [apply L|intros ? ? ? ? ?; cbv beta; intros ?].

(** A row that a cache remembers. *)
Ltac remembered :=
  intros b1 tok ? HQ; split_and!;
  [ done | done
  | destruct (wf_caches _ ltac:(eassumption)); constructor; try done; cbn; intros;
    match goal with l : _ !! _ = Some _ |- _ => apply lookup_insert_Some in l as [[? ?]|[_ ?]]; simplify_eq; eauto end
  | intros G; try (carry G); try done ].

(** A reference that is made once. *)
Ltac making Hwf :=
  apply yields_cached;
  [ cached_step
  | intros Hwf tok Hc
  | split; [stepping|apply yields_small; [intros _ Hs|stepping]]
  | remembered
  | intros; by constructor; intros; try done; apply insert_subseteq
  | stepping; row_step ].

Section references.
Context {E : Type}.
Local Notation M := (ST MetadataBuilder E).

(** A row whose columns last but for those of runs and flags. *)
Lemma yields_push {R} {rows : MetadataBuilder -> list R} {assign : MetadataBuilder -> list R -> MetadataBuilder}
    {T : Table rows assign} t row b :
  t = table_id -> (wf b -> row_ok b t (row_values row)) ->
  yields (append rows assign row : M unit) b
    (fun _ b' => row_of b' t (token_new t (len (table_rows b' t))) (lasting t (row_values row))).
Proof. intros -> H. by apply yields_append. Qed.

Lemma yields_assembly_ref n target b :
  match target with
  | Bcl (v1, v2, v3, v4) _ => in_u 16 v1 /\ in_u 16 v2 /\ in_u 16 v3 /\ in_u 16 v4
  | NameOnly => True
  end ->
  yields (assembly_ref n target : M Z) b (fun tok b' => assembly_ref_row b' n tok).
Proof.
  intros Ht. unfold assembly_ref. step.
  eapply yields_bind with (P := fun '((v1, v2, v3, v4), key) b' =>
    in_u 16 v1 /\ in_u 16 v2 /\ in_u 16 v3 /\ in_u 16 v4 /\ is_blob b' key).
  { grown. }
  { destruct target as [[[[v1 v2] v3] v4] tok|]; cbv beta iota.
    - step. apply yields_ret. destruct Ht as (?&?&?&?). split_and!; try done. by eapply blob_column.
    - apply yields_ret. split_and!; try done. apply no_blob. }
  intros [[[[v1 v2] v3] v4] key] b2 Hwf2 G2 Hs2 (?&?&?&?&?). carry G2.
  eapply yields_bind; [grown| |].
  { apply (yields_add_row _ _ _ (fun tok b' => assembly_ref_row b' n tok)); [done|columns|].
    intros tok b' G' Hrow. carry G'. exists [v1; v2; v3; v4; 0; key; off; 0; 0], off. done. }
  after. eapply yields_bind; [grown| |].
  { remembering (fun (_ : unit) (_ : MetadataBuilder) => True). }
  after. by apply yields_ret.
Qed.


Lemma bcl_version_u16 k n : let '(v1, v2, v3, v4) := bcl_assembly_version k n in
  in_u 16 v1 /\ in_u 16 v2 /\ in_u 16 v3 /\ in_u 16 v4.
Proof.
  unfold bcl_assembly_version. repeat case_bool_decide; try by (unfold in_u; lia).
  destruct k; cbn; unfold in_u; lia.
Qed.

Lemma yields_find_or_create n b :
  yields (find_or_create_assembly_ref n : M Z) b (fun tok b' => exists n', assembly_ref_row b' n' tok).
Proof.
  unfold find_or_create_assembly_ref. apply yields_ask_bind.
  set (n' := if _ : bool then "netstandard"%string else n). destruct (assembly_ref_cache b !! n') as [tok|] eqn:Hc.
  - apply yields_small; [|stepping]. intros Hwf Hs. apply yields_ret. exists n'.
    by apply (ok_assembly_refs _ _ (wf_caches _ Hwf)).
  - tail yields_assembly_ref; [|by exists n'].
    destruct (bcl_public_key_token n'); [|done]. destruct (is_lib b); [apply bcl_version_u16|done].
Qed.

Lemma assembly_ref_valid b n tok : assembly_ref_row b n tok -> valid b tok.
Proof. intros (row & noff & H & _). eapply valid_row; [|exact H]. unfold TABLE_ASSEMBLY_REF. lia. Qed.


Lemma yields_type_ref scope ns n b :
  match scope with Some tok => valid b tok | None => True end ->
  yields (type_ref scope ns n : M Z) b (fun tok b' => type_ref_row b' (default 0 scope) ns n tok).
Proof.
  intros Hv. unfold type_ref. apply yields_cached.
  - cached_step.
  - intros Hwf tok Hc. by apply (ok_type_refs _ _ (wf_caches _ Hwf)).
  - split; [stepping|]. apply yields_small; [intros _ Hs|stepping]. step. step. step.
    assert (Hcol : column_ok b ResolutionScope a /\
      encode_resolution_scope (E := Empty_set) (if default 0 scope =? 0 then None else Some (default 0 scope)) = Ok a).
    { destruct scope as [tok|]; cbn in *; [|injection H as <-; split; [by left|done]].
      destruct (Z.eqb_spec tok 0) as [->|]; [by destruct (names_nonzero _ _ _ Hs Hv)|].
      split; [by eapply scope_of_token_ok|]. by eapply coded_any. }
    destruct Hcol as [Hcol Henc]. carry G. carry G0. clear Hv.
    apply yields_add_row; [done|columns|]. intros tok b' G1 Hrow. carry G1.
    by exists a, off0, off.
  - remembered.
  - intros. by constructor; intros; try done; apply insert_subseteq.
  - stepping; row_step.
Qed.


Lemma yields_intern_module_ref lib b :
  yields (intern_module_ref lib : M Z) b (fun tok b' => module_ref_row b' lib tok).
Proof.
  unfold intern_module_ref. making Hwf.
  - by apply (ok_module_refs _ _ (wf_caches _ Hwf)).
  - step. apply yields_add_row; [done|columns|]. intros tok b' G1 Hrow. carry G1. by exists off.
Qed.

Lemma yields_member_ref class n sig b :
  valid b class -> is_blob b sig ->
  yields (member_ref class n sig : M Z) b (fun tok b' => member_ref_row b' class n sig tok).
Proof.
  intros Hv Hsig. unfold member_ref. making Hwf.
  - by apply (ok_member_refs _ _ (wf_caches _ Hwf)).
  - step. step.
    apply yields_add_row; [done|columns|]. intros tok b' G1 Hrow. carry G1.
    exists a, off. split_and!; [done|by eapply coded_any|done].
Qed.

Lemma yields_type_spec sig b :
  is_blob b sig -> yields (type_spec sig : M Z) b (fun tok b' => row_of b' TABLE_TYPE_SPEC tok [sig]).
Proof.
  intros Hsig. unfold type_spec. making Hwf.
  - by apply (ok_type_specs _ _ (wf_caches _ Hwf)).
  - apply yields_add_row; [done|columns|]. done.
Qed.

Lemma yields_standalone_sig sig b :
  is_blob b sig -> yields (standalone_sig sig : M Z) b (fun tok b' => row_of b' TABLE_STAND_ALONE_SIG tok [sig]).
Proof.
  intros Hsig. unfold standalone_sig. making Hwf.
  - by apply (ok_standalone _ _ (wf_caches _ Hwf)).
  - apply yields_add_row; [done|columns|]. done.
Qed.

Lemma yields_method_spec m inst b :
  valid b m -> is_blob b inst -> yields (method_spec m inst : M Z) b (fun tok b' => names b' [TABLE_METHOD_SPEC] tok).
Proof.
  intros Hv Hi. unfold method_spec. apply yields_small; [intros _ Hs|stepping]. step.
  apply yields_add_row; [done|columns|]. intros tok b' G1 Hrow. eapply row_of_names; [|exact Hrow]. unfold TABLE_METHOD_SPEC. lia.
Qed.
End references.

(** ** Types and members *)

Section members.
Context {E : Type}.
Local Notation M := (ST MetadataBuilder E).

Lemma yields_insert_type_def ns n tok b (Q : unit -> MetadataBuilder -> Prop) :
  (wf b -> type_def_row b ns n tok) -> (forall b', grows b b' -> Q tt b') ->
  yields (insert_type_def ns n tok : M unit) b Q.
Proof.
  intros Hrow HQ. unfold insert_type_def. apply (yields_modify _ _ Q); [assigned|done|done| |by apply HQ].
  intros Hwf. pose proof (wf_caches _ Hwf) as [Hok]. destruct (wf_caches _ Hwf). constructor; try done.
  intros ns' n' tok'. unfold type_def_of. cbn. destruct (decide (ns = ns')) as [<-|].
  - rewrite lookup_insert_eq. cbn. intros [[<- <-]|[_ Hc]]%lookup_insert_Some; [by apply Hrow|].
    apply ok_type_defs0. unfold type_def_of. destruct (type_def_cache b !! ns) as [m|]; cbn in *; [done|change ((∅ : gmap string Z) !! n' = Some tok') in Hc; by apply lookup_empty_Some in Hc].
  - rewrite lookup_insert_ne by done. apply ok_type_defs0.
Qed.

Lemma in_u_shiftr n a : 0 <= n -> in_u n a <-> 0 <= a /\ Z.shiftr a n = 0.
Proof.
  intros Hn. unfold in_u. rewrite Z.shiftr_div_pow2 by done. pose proof (Z.pow_pos_nonneg 2 n ltac:(lia) Hn).
  split; intros [? H']; (split; [done|]); [by apply Z.div_small|]. apply Z.div_small_iff in H'; lia.
Qed.
Lemma or_u n a c : 0 <= n -> in_u n a -> in_u n c -> in_u n (Z.lor a c).
Proof.
  intros Hn [? Ha]%in_u_shiftr [? Hc]%in_u_shiftr; try done. apply in_u_shiftr; [done|].
  rewrite Z.shiftr_lor, Ha, Hc. split; [by apply Z.lor_nonneg|done].
Qed.
Lemma and_u n a c : 0 <= n -> in_u n a -> 0 <= c -> in_u n (Z.land a c).
Proof.
  intros Hn [? Ha]%in_u_shiftr ?; try done. apply in_u_shiftr; [done|].
  rewrite Z.shiftr_land, Ha, Z.land_0_l. split; [apply Z.land_nonneg; lia|done].
Qed.

Lemma yields_push_type_def ns n flags extends b :
  in_u 32 flags -> column_ok b Extends extends ->
  yields (push_type_def ns n flags extends : M Z) b (fun tok b' => type_def_row b' ns n tok).
Proof.
  intros Hf He. unfold push_type_def. step. step. step. step. carry G. carry G0.
  eapply yields_bind; [grown|apply (yields_push TABLE_TYPE_DEF); [done|columns]|after].
  step. step. eapply yields_bind with (P := fun _ _ => True); [grown| |].
  { destruct (type_def_of b2 ns n); [by apply yields_ret|]. apply yields_insert_type_def; [|done].
    intros _. by exists off, off0. }
  after. eapply yields_bind; [grown| |after].
  { remembering (fun (_ : unit) (_ : MetadataBuilder) => True). }
  apply yields_ret. by exists off, off0.
Qed.

Lemma type_def_names b ns n tok : type_def_row b ns n tok -> names b [TABLE_TYPE_DEF] tok.
Proof. intros (noff & nsoff & H & _). eapply row_of_names; [|exact H]. unfold TABLE_TYPE_DEF. lia. Qed.

Lemma names_index b t tok : small b -> names b [t] tok -> token_table tok = t /\ column_ok b (CIndex t) (token_rid tok).
Proof.
  intros Hs Hn. destruct (token_of_row _ _ _ Hs Hn) as (Ht & Hr & _).
  apply list_elem_of_singleton in Ht. rewrite Ht in Hr. done.
Qed.

Lemma yields_push_interfaces rid l b :
  column_ok b (CIndex TABLE_TYPE_DEF) rid -> Forall (valid b) l ->
  yields (push_interfaces rid l : M unit) b (fun _ _ => True).
Proof.
  revert b. induction l as [|i l IH]; intros b Hr Hl; cbn [push_interfaces]; [by apply yields_ret|].
  apply list.Forall_cons in Hl as [Hi Hl]. apply yields_small; [intros _ Hs|stepping]. step.
  eapply yields_bind; [grown|apply (yields_push TABLE_INTERFACE_IMPL); [done|columns]|after].
  apply IH; [done|]. eapply list.Forall_impl; [exact Hl|]. intros tok. by apply valid_grows.
Qed.

Lemma yields_extends extends b :
  match extends with Some tok => valid b tok | None => True end ->
  yields (match extends with Some token => lift (encode_type_def_or_ref_token token) | None => mret 0 end : M Z) b
    (fun c b' => column_ok b' Extends c).
Proof.
  intros He. destruct extends as [tok|]; [|by apply yields_ret; left].
  apply yields_small; [intros _ Hs|stepping]. apply yields_still. intros b' o [= <- Hc]. split; [done|]. intros c Ho _.
  apply nullable_of_coded. eapply type_def_or_ref_ok; [done|done|]. by rewrite Hc.
Qed.

Definition sized (pack size : option Z) : Prop := in_u 16 (default 0 pack) /\ in_u 32 (default 0 size).

Lemma yields_add_type_def ns n v extends pack size l b :
  match extends with Some tok => valid b tok | None => True end -> sized pack size -> Forall (valid b) l ->
  yields (add_type_def ns n v extends pack size l : M Z) b
    (fun tok b' => type_def_row b' ns (dotnet_class_name n) tok).
Proof.
  intros He [Hp Hz] Hl. unfold add_type_def. call yields_extends; [done|].
  call yields_push_type_def; [by destruct v; destruct (_ || _)|done|].
  apply yields_small; [intros _ Hs2|stepping].
  destruct (names_index b1 TABLE_TYPE_DEF off0) as [_ Hrid]; [done|by eapply type_def_names|].
  eapply yields_bind with (P := fun _ _ => True); [grown| |after].
  { destruct (_ || _); [|by apply yields_ret].
    eapply yields_mono; [apply (yields_push TABLE_CLASS_LAYOUT); [done|columns]|done]. }
  eapply yields_bind; [grown|apply yields_push_interfaces; [done|]|after].
  { eapply list.Forall_impl; [exact Hl|]. intros tok Ht. by carry G; carry G0; carry G1. }
  by apply yields_ret.
Qed.

(** Rows assigned again. *)
Lemma yields_or_type_flags rid set b :
  in_u 32 set -> yields (or_type_flags rid set : M unit) b (fun _ _ => True).
Proof.
  intros Hset. apply yields_update_row; [done|recolumns|done]. by apply or_u.
Qed.
Lemma yields_clear_type_flags rid clear b :
  0 <= Z.lxor 0xFFFFFFFF clear -> yields (clear_type_flags rid clear : M unit) b (fun _ _ => True).
Proof. intros Hc. apply yields_update_row; [done|recolumns|done]. by apply and_u. Qed.

Lemma yields_type_def_index_bind {A} tok (f : Z -> M A) b Q :
  (token_table tok = TABLE_TYPE_DEF -> yields (f (token_rid tok)) b Q) -> yields (type_def_index tok ≫= f) b Q.
Proof.
  intros Hf. unfold type_def_index, assert_that.
  destruct (Z.eqb_spec (token_table tok) TABLE_TYPE_DEF); apply yields_step_bind; try done. intros rid [= <-]. by apply Hf.
Qed.

Lemma yields_set_type_def_field_list tok b : yields (set_type_def_field_list tok : M unit) b (fun _ _ => True).
Proof.
  unfold set_type_def_field_list. apply yields_type_def_index_bind. intros _. step.
  eapply yields_bind with (P := fun _ _ => True); [grown| |after].
  { apply yields_update_row; [done|recolumns|done]. }
  remembering (fun (_ : unit) (_ : MetadataBuilder) => True).
Qed.
Lemma yields_set_type_def_method_list tok b : yields (set_type_def_method_list tok : M unit) b (fun _ _ => True).
Proof.
  unfold set_type_def_method_list. apply yields_type_def_index_bind. intros _. step.
  apply yields_update_row; [done|recolumns|done].
Qed.
Lemma yields_set_type_def_access tok access b : yields (set_type_def_access tok access : M unit) b (fun _ _ => True).
Proof.
  unfold set_type_def_access. apply yields_type_def_index_bind. intros _.
  call yields_clear_type_flags; [done|]. destruct access; try (by apply yields_ret); by apply yields_or_type_flags.
Qed.
Lemma yields_mark_type_def_interface tok b : yields (mark_type_def_interface tok : M unit) b (fun _ _ => True).
Proof.
  unfold mark_type_def_interface. call yields_or_type_flags; [done|]. call yields_clear_type_flags; [done|].
  apply yields_update_row; [done|recolumns|done].
Qed.

Lemma yields_add_blob_sized_valuetype n extends size b :
  valid b extends -> in_u 32 size ->
  yields (add_blob_sized_valuetype n extends size : M Z) b
    (fun tok b' => type_def_row b' (fst (split_namespace n)) (dotnet_class_name (snd (split_namespace n))) tok).
Proof.
  intros He Hz. unfold add_blob_sized_valuetype. destruct (split_namespace n) as [ns n']. cbn [fst snd].
  apply yields_small; [intros _ Hs|stepping]. step.
  call yields_push_type_def; [done|by apply nullable_of_coded; eapply type_def_or_ref_ok|].
  destruct (names_index b0 TABLE_TYPE_DEF off) as [_ Hrid]; [done|by eapply type_def_names|].
  eapply yields_bind; [grown|apply (yields_push TABLE_CLASS_LAYOUT); [done|columns]|after].
  by apply yields_ret.
Qed.

Lemma yields_field_sig_for_valuetype_token tok b :
  yields (field_sig_for_valuetype_token tok : M Z) b (fun sig b' => is_blob b' sig).
Proof.
  unfold field_sig_for_valuetype_token. step. step. apply yields_intern_blob. intros off b' _ H'. by eapply blob_column.
Qed.

(** *** Members *)

Lemma yields_register_field_def n sig tok b :
  (exists flags, row_of b TABLE_FIELD tok [flags; n; sig]) ->
  yields (register_field_def n sig tok : M unit) b (fun _ _ => True).
Proof.
  intros Hrow. unfold register_field_def. apply (yields_modify _ _ (fun _ _ => True)).
  - apply (grows_register_field_def (E := E)).
  - intros t. destruct (current_type_def b); [|done]. by cases.
  - destruct (current_type_def b); [|done]. by cases.
  - intros Hwf. destruct (current_type_def b); [|by apply Hwf]. cases; [by apply Hwf|]. by remembers Hwf.
  - done.
Qed.

Lemma yields_push_field flags n sig b :
  in_u 16 flags -> column_ok b CStrings n -> is_blob b sig ->
  yields (push_field flags n sig : M Z) b (fun tok b' => row_of b' TABLE_FIELD tok [flags; n; sig]).
Proof.
  intros Hf Hn Hsig. unfold push_field.
  eapply yields_bind; [grown| |].
  { apply (yields_add_row _ _ _ (fun tok b' => row_of b' TABLE_FIELD tok [flags; n; sig])); [done|columns|done]. }
  after.
  call yields_register_field_def; [by exists flags|]. by apply yields_ret.
Qed.

Lemma yields_push_method flags impl n sig b :
  in_u 16 flags -> in_u 16 impl -> column_ok b CStrings n -> is_blob b sig ->
  yields (push_method flags impl n sig : M Z) b (fun tok b' => names b' [TABLE_METHOD_DEF] tok).
Proof.
  intros Hf Hi Hn Hsig. unfold push_method. step. apply yields_add_row; [done|columns|].
  intros tok b' _ Hrow. eapply row_of_names; [|exact Hrow]. unfold TABLE_METHOD_DEF. lia.
Qed.

Lemma row_index b t tok l : 0 <= t < 256 -> small b -> row_of b t tok l -> column_ok b (CIndex t) (token_rid tok).
Proof. intros Ht Hs Hr. eapply names_index; [done|]. by eapply row_of_names. Qed.

Lemma yields_add_field n sig offset b :
  is_blob b sig -> in_u 32 (default 0 offset) ->
  yields (add_field n sig offset : M Z) b (fun tok b' => names b' [TABLE_FIELD] tok).
Proof.
  intros Hsig Ho. unfold add_field. step. call yields_push_field; [done|by eapply text_column|done|].
  pose proof (row_index _ TABLE_FIELD _ _ ltac:(done) Hs0 H0) as Hrid.
  eapply yields_bind with (P := fun _ _ => True); [grown| |after].
  { destruct offset as [o|]; [|by apply yields_ret].
    eapply yields_mono; [apply (yields_push TABLE_FIELD_LAYOUT); [done|columns]|done]. }
  apply yields_ret. by eapply row_of_names.
Qed.

Lemma yields_add_enum_value_field sig b :
  is_blob b sig -> yields (add_enum_value_field sig : M Z) b (fun tok b' => names b' [TABLE_FIELD] tok).
Proof.
  intros Hsig. unfold add_enum_value_field. step. tail yields_push_field; [done|by eapply text_column|done|].
  by eapply row_of_names.
Qed.

Lemma yields_add_enum_literal_field n sig value b :
  is_blob b sig -> yields (add_enum_literal_field n sig value : M Z) b (fun tok b' => names b' [TABLE_FIELD] tok).
Proof.
  intros Hsig. unfold add_enum_literal_field. step. call yields_push_field; [done|by eapply text_column|done|].
  step. destruct a as [code bytes]. step.
  assert (Hrid : column_ok b2 HasConstant (wrap 32 (Z.shiftl (token_rid off0) 2))).
  { destruct (token_of_row b2 [TABLE_FIELD] off0) as (_ & Hr & Hr24); [done|by eapply row_of_names|].
    exists 0%nat, TABLE_FIELD, (token_rid off0).
    assert (Ht : token_table off0 = TABLE_FIELD) by (eapply names_index; [done|by eapply row_of_names]).
    rewrite Ht in Hr. rewrite Z.shiftl_mul_pow2 by lia. rewrite wrap_id by (unfold in_u; lia). split_and!; lia || done. }
  assert (Hcode : in_u 8 code) by (destruct value; cbn in H1; try done; injection H1 as <- <-; done).
  eapply yields_bind; [grown|apply (yields_push TABLE_CONSTANT); [done|columns]|after].
  apply yields_ret. by eapply row_of_names.
Qed.

Lemma yields_push_custom_attribute parent ctor value b :
  valid b parent -> valid b ctor -> is_blob b value ->
  yields (push_custom_attribute parent ctor value : M Z) b (fun tok b' => names b' [TABLE_CUSTOM_ATTRIBUTE] tok).
Proof.
  intros Hp Hc Hv. unfold push_custom_attribute. apply yields_small; [intros _ Hs|stepping]. step. step.
  apply yields_add_row; [done|columns|]. intros tok b' _ Hrow. by eapply row_of_names.
Qed.

Lemma type_ref_valid b scope ns n tok : type_ref_row b scope ns n tok -> valid b tok.
Proof. intros (x & y & z & H & _). by eapply valid_row; [|exact H]. Qed.
Lemma member_ref_valid b class n sig tok : member_ref_row b class n sig tok -> valid b tok.
Proof. intros (x & y & H & _). by eapply valid_row; [|exact H]. Qed.

(** The constructor of an attribute of the runtime. *)
Lemma yields_thread_static_attribute field b :
  valid b field -> yields (thread_static_attribute field : M Z) b (fun tok b' => names b' [TABLE_CUSTOM_ATTRIBUTE] tok).
Proof.
  intros Hf. unfold thread_static_attribute, thread_static_ctor_ref, system_runtime_assembly_ref. step.
  eapply yields_bind with (P := fun tok b' => valid b' tok); [grown| |after].
  - call yields_find_or_create. destruct H0 as [n' Hn'%assembly_ref_valid].
    call yields_type_ref; [done|]. step. step.
    tail yields_member_ref; [by eapply type_ref_valid|by eapply blob_column|by eapply member_ref_valid].
  - step. apply yields_push_custom_attribute; [done|done|by eapply blob_column].
Qed.

Lemma yields_nullable_metadata_attribute parent flag context b :
  valid b parent ->
  yields (nullable_metadata_attribute parent flag context : M Z) b (fun tok b' => names b' [TABLE_CUSTOM_ATTRIBUTE] tok).
Proof.
  intros Hp. unfold nullable_metadata_attribute, system_runtime_assembly_ref. step.
  call yields_find_or_create. destruct H0 as [n' Hn'%assembly_ref_valid].
  call yields_type_ref; [done|]. step. step.
  call yields_member_ref; [by eapply type_ref_valid|by eapply blob_column|].
  step. apply yields_push_custom_attribute; [done|by eapply member_ref_valid|by eapply blob_column].
Qed.

Lemma yields_add_static_field n sig rva thread const b :
  is_blob b sig -> yields (add_static_field n sig rva thread const : M Z) b (fun tok b' => names b' [TABLE_FIELD] tok).
Proof.
  intros Hsig. unfold add_static_field. step.
  call yields_push_field; [by destruct const, rva|by eapply text_column|done|].
  pose proof (row_index _ TABLE_FIELD _ _ ltac:(done) Hs0 H0) as Hrid.
  assert (Hn : names b1 [TABLE_FIELD] off0) by by eapply row_of_names.
  eapply yields_bind with (P := fun _ _ => True); [grown| |after].
  { destruct (bool_decide _); [|by apply yields_ret].
    eapply yields_bind; [grown|apply (yields_push TABLE_FIELD_RVA); [done|columns]|after].
    remembering (fun (_ : unit) (_ : MetadataBuilder) => True). }
  eapply yields_bind with (P := fun _ _ => True); [grown| |after].
  { destruct thread; [|by apply yields_ret]. call yields_thread_static_attribute; [by eapply valid_names|].
    by apply yields_ret. }
  by apply yields_ret.
Qed.
End members.

(** ** Methods, interfaces, events and properties *)

Section methods.
Context {E : Type}.
Local Notation M := (ST MetadataBuilder E).

Lemma yields_push_param method flags sequence n b :
  in_u 16 flags -> in_u 16 sequence -> column_ok b CStrings n ->
  yields (push_param method flags sequence n : M Z) b (fun tok b' => row_of b' TABLE_PARAM tok [flags; sequence; n]).
Proof.
  intros Hf Hq Hn. unfold push_param. eapply yields_bind; [grown| |].
  { apply (yields_add_row _ _ _ (fun tok b' => row_of b' TABLE_PARAM tok [flags; sequence; n])); [done|columns|done]. }
  after. eapply yields_bind; [grown| |after].
  { remembering (fun (_ : unit) (_ : MetadataBuilder) => True). }
  by apply yields_ret.
Qed.

Lemma yields_push_params method out nullability i names b :
  yields (push_params method out nullability i names : M unit) b (fun _ _ => True).
Proof.
  revert i b. induction names as [|n names IH]; intros i b; cbn [push_params]; [by apply yields_ret|]. step.
  assert (Ha : in_u 16 a).
  { unfold expect_u16 in H. destruct (Z.ltb_spec (Z.of_nat i + 1) (2 ^ 16)); [|done]. injection H as <-. unfold in_u. lia. }
  eapply yields_bind with (P := fun off b' => column_ok b' CStrings off); [grown| |after].
  { destruct n as [n|]; [|apply yields_ret, no_text]. apply yields_intern_string. intros off b' _. apply text_column. }
  call yields_push_param; [by case_bool_decide|done|done|].
  eapply yields_bind with (P := fun _ _ => True); [grown| |after].
  { destruct nullability as [nl|]; [|by apply yields_ret]. step. destruct a0 as [f|]; [|by apply yields_ret].
    call yields_nullable_metadata_attribute; [by eapply (valid_row _ TABLE_PARAM)|]. by apply yields_ret. }
  apply IH.
Qed.

Lemma yields_push_nullability method params nl b :
  valid b method -> yields (push_nullability method params nl : M unit) b (fun _ _ => True).
Proof.
  intros Hm. unfold push_nullability. step. step. call yields_nullable_metadata_attribute; [done|].
  destruct (mn_return_flag nl) as [f|]; [|by apply yields_ret].
  call yields_push_param; [done|done|apply no_text|].
  call yields_nullable_metadata_attribute; [by eapply (valid_row _ TABLE_PARAM)|]. by apply yields_ret.
Qed.

Lemma yields_push_impl_map method n pinvoke b :
  valid b method -> yields (push_impl_map method n pinvoke : M unit) b (fun _ _ => True).
Proof.
  intros Hm. unfold push_impl_map. destruct pinvoke as [[[lib entry] conv] errno]. call yields_intern_module_ref.
  destruct H as (noff & Hrow & Hlib). step. step.
  pose proof (row_index _ TABLE_MODULE_REF _ _ ltac:(done) Hs0 Hrow) as Hrid.
  assert (Hflags : in_u 16 (if errno then Z.lor (Z.lor (Z.lor 0x1 0x4) (call_conv_bits conv)) 0x40
    else Z.lor (Z.lor 0x1 0x4) (call_conv_bits conv))) by (by destruct errno, conv).
  eapply yields_mono; [apply (yields_push TABLE_IMPL_MAP); [done|columns]|done].
Qed.

Lemma yields_add_method_with_access n access sig params out st v c pinvoke inl nl b :
  is_blob b sig ->
  yields (add_method_with_access n access sig params out st v c pinvoke inl nl : M Z) b
    (fun tok b' => names b' [TABLE_METHOD_DEF] tok).
Proof.
  intros Hsig. unfold add_method_with_access. step.
  call yields_push_method; [by destruct access, st, v, c, pinvoke|by destruct pinvoke, inl|by eapply text_column|done|].
  eapply yields_bind with (P := fun _ _ => True); [grown| |after].
  { destruct nl as [nl|]; [|by apply yields_ret]. apply yields_push_nullability. by eapply valid_names. }
  call yields_push_params.
  eapply yields_bind with (P := fun _ _ => True); [grown| |after].
  { destruct pinvoke as [p|]; [|by apply yields_ret]. apply yields_push_impl_map. by eapply valid_names. }
  by apply yields_ret.
Qed.

(** Assignments to a row of [MethodDef]. *)
Lemma yields_or_method_flags rid set b :
  in_u 16 set -> yields (or_method_flags rid set : M unit) b
    (fun _ b' => 0 <= rid -> column_ok b' (CIndex TABLE_METHOD_DEF) rid).
Proof. intros Hset. apply yields_update_row; [done|recolumns|done]. by apply or_u. Qed.
Lemma yields_clear_method_flags rid clear b :
  0 <= Z.lxor 0xFFFF clear -> yields (clear_method_flags rid clear : M unit) b (fun _ _ => True).
Proof. intros Hc. apply yields_update_row; [done|recolumns|done]. by apply and_u. Qed.
Lemma yields_mark_method_bit_preserving_float tok b :
  yields (mark_method_bit_preserving_float tok : M unit) b (fun _ _ => True).
Proof. apply yields_update_row; [done|recolumns|done]. by apply or_u. Qed.
Lemma yields_mark_method_special_name tok b :
  yields (mark_method_special_name tok : M unit) b (fun _ b' => column_ok b' (CIndex TABLE_METHOD_DEF) (token_rid tok)).
Proof.
  unfold mark_method_special_name. tail yields_or_method_flags; [done|].
  match goal with H : _ -> _ |- _ => apply H end. unfold token_rid. by apply Z.land_nonneg; right.
Qed.
Lemma yields_set_method_body_rva method rva b :
  in_u 32 rva -> yields (set_method_body_rva method rva : M unit) b (fun _ _ => True).
Proof. intros Hr. unfold set_method_body_rva. step. apply yields_update_row; [done|recolumns|done]. Qed.
Lemma yields_set_field_rva field rva b :
  in_u 32 rva -> yields (set_field_rva field rva : M unit) b (fun _ _ => True).
Proof. intros Hr. unfold set_field_rva. step. step. apply yields_update_row; [done|recolumns|done]. Qed.
Lemma yields_register_method_def method tok b :
  names b [TABLE_METHOD_DEF] tok -> yields (register_method_def method tok : M unit) b (fun _ _ => True).
Proof. intros Hn. unfold register_method_def. remembering (fun (_ : unit) (_ : MetadataBuilder) => True). Qed.

Lemma valid_index b t tok : small b -> valid b tok -> (token_table tok =? t) = true -> column_ok b (CIndex t) (token_rid tok).
Proof. intros Hs Hv <-%Z.eqb_eq. by destruct (token_of_row _ _ _ Hs Hv) as (_ & H & _). Qed.

Lemma yields_interface_impl class interface b :
  valid b class -> valid b interface ->
  yields (interface_impl class interface : M Z) b (fun tok b' => names b' [TABLE_INTERFACE_IMPL] tok).
Proof.
  intros Hc Hi. unfold interface_impl. apply yields_small; [intros _ Hs|stepping]. step. step.
  apply (valid_index _ _ _ Hs Hc) in H. apply yields_add_row; [done|columns|].
  intros tok b' _ Hrow. by eapply row_of_names.
Qed.

Lemma yields_add_generic_param owner number n b :
  valid b owner -> in_u 16 number ->
  yields (add_generic_param owner number n : M Z) b (fun tok b' => names b' [TABLE_GENERIC_PARAM] tok).
Proof.
  intros Ho Hn. unfold add_generic_param. step. step. apply yields_add_row; [done|columns|].
  intros tok b' _ Hrow. by eapply row_of_names.
Qed.

Lemma yields_add_method_impl class body declaration b :
  valid b class -> valid b body -> valid b declaration ->
  yields (add_method_impl class body declaration : M unit) b (fun _ _ => True).
Proof.
  intros Hc Hb Hd. unfold add_method_impl. apply yields_small; [intros _ Hs|stepping]. step. step. step.
  apply (valid_index _ _ _ Hs Hc) in H.
  eapply yields_mono; [apply (yields_push TABLE_METHOD_IMPL); [done|columns]|done].
Qed.

(** *** Events and properties *)

Lemma yields_open_run {Map} {maps : MetadataBuilder -> list Map} {assign} {T : Table maps assign} t parent mk class next b :
  t = table_id -> (wf b -> row_ok b t (row_values (mk class next))) ->
  yields (open_run maps assign parent mk class next : M unit) b (fun _ _ => True).
Proof.
  intros Ht Hrow. unfold open_run. step. destruct (existsb _ _).
  - by apply yields_assert.
  - eapply yields_mono; [apply (yields_push t); [done|done]|done].
Qed.

Lemma yields_push_semantics semantics method association b :
  in_u 16 semantics -> column_ok b (CIndex TABLE_METHOD_DEF) method -> column_ok b HasSemantics association ->
  yields (push_semantics semantics method association : M unit) b (fun _ _ => True).
Proof.
  intros Hf Hm Ha. eapply yields_mono; [apply (yields_push TABLE_METHOD_SEMANTICS); [done|columns]|done].
Qed.

Lemma yields_add_event class n type add remove b :
  valid b class -> valid b type -> yields (add_event class n type add remove : M unit) b (fun _ _ => True).
Proof.
  intros Hc Ht. unfold add_event. apply yields_small; [intros _ Hs|stepping]. step.
  apply (valid_index _ _ _ Hs Hc) in H. clear Hc.
  call yields_mark_method_special_name.
  call yields_mark_method_special_name.
  step. eapply yields_bind; [grown|apply (yields_open_run TABLE_EVENT_MAP); [done|columns]|after].
  step. step.
  eapply yields_bind with (P := fun tok b' => valid b' tok); [grown| |after].
  { apply yields_add_row; [done|columns|]. intros tok b' _ Hrow. by eapply valid_row; [|exact Hrow]. }
  step. call yields_push_semantics; [done|done|by eauto 2 with columns|].
  apply yields_push_semantics; [done|done|by eauto 2 with columns].
Qed.

Lemma yields_for_some a (f : Z -> M unit) b (P : Z -> MetadataBuilder -> Prop) :
  (forall x, yields (f x) b (fun _ => P x)) ->
  yields (for_some a f) b (fun _ b' => match a with Some x => P x b' | None => True end).
Proof. intros Hf. destruct a as [x|]; [apply Hf|by apply yields_ret]. Qed.

(** An accessor names a method. *)
Definition accessor_ok b (a : option Z) : Prop :=
  match a with Some m => column_ok b (CIndex TABLE_METHOD_DEF) (token_rid m) | None => True end.
Lemma accessor_grows b b' a : grows b b' -> accessor_ok b a -> accessor_ok b' a.
Proof. intros G. destruct a; [by apply column_ok_grows|done]. Qed.

Lemma yields_mark_accessor a b : yields (for_some a mark_method_special_name : M unit) b (fun _ b' => accessor_ok b' a).
Proof.
  unfold accessor_ok.
  apply (yields_for_some a _ b (fun m b' => column_ok b' (CIndex TABLE_METHOD_DEF) (token_rid m))).
  intros m. apply yields_mark_method_special_name.
Qed.

Lemma yields_accessor_semantics a flag association b :
  in_u 16 flag -> accessor_ok b a -> column_ok b HasSemantics association ->
  yields (for_some a (fun m => push_semantics flag (token_rid m) association) : M unit) b (fun _ _ => True).
Proof. intros Hf Ha Hs. destruct a as [m|]; [by apply yields_push_semantics|by apply yields_ret]. Qed.

Lemma yields_add_property class n sig getter setter b :
  valid b class -> is_blob b sig ->
  yields (add_property class n sig getter setter : M Z) b (fun tok b' => valid b' tok).
Proof.
  intros Hc Hsig. unfold add_property. apply yields_small; [intros _ Hs|stepping]. step. step.
  apply (valid_index _ _ _ Hs Hc) in H. clear Hc.
  call yields_mark_accessor. call yields_mark_accessor. apply (accessor_grows _ _ _ G0) in H1.
  step. eapply yields_bind; [grown|apply (yields_open_run TABLE_PROPERTY_MAP); [done|columns]|after].
  apply (accessor_grows _ _ _ G1) in H1, H2. step. apply (accessor_grows _ _ _ G2) in H1, H2.
  eapply yields_bind with (P := fun tok b' => valid b' tok); [grown| |after].
  { apply yields_add_row; [done|columns|]. intros tok b' _ Hrow. by eapply valid_row; [|exact Hrow]. }
  apply (accessor_grows _ _ _ G3) in H1, H2.
  step. call yields_accessor_semantics; [done|done|by eauto 2 with columns|].
  apply (accessor_grows _ _ _ G4) in H1, H2.
  call yields_accessor_semantics; [done|done|by eauto 2 with columns|]. by apply yields_ret.
Qed.

Lemma yields_mark_property_nullable property flag b :
  valid b property -> yields (mark_property_nullable property flag : M unit) b (fun _ _ => True).
Proof.
  intros Hp. unfold mark_property_nullable. step. call yields_nullable_metadata_attribute; [done|]. by apply yields_ret.
Qed.

(** *** The module and the assembly *)

Lemma yields_set_module n mvid b :
  length mvid = 16%nat -> yields (set_module n mvid : M unit) b (fun _ _ => True).
Proof.
  intros Hm. unfold set_module. step. call yields_push_guid; [done|].
  intros Hwf' b' o [= <- <-] _. set (l := match t_module b1 with _ :: rows => _ | [] => _ end).
  assert (G1 : grows b1 (set_t_module b1 l)) by apply (grows_module_row (E := E) _ b1).
  split_and!; [|done|done]. apply wf_assign; [done|done|].
  assert (Hrow : row_ok b1 TABLE_MODULE (row_values (mk_ModuleRow off off0))) by columns.
  pose proof (rows_ok_of (rows := t_module) b1 Hwf') as Hrows. subst l.
  destruct (t_module b1) as [|r rows]; [by apply list.Forall_cons_2; [|apply list.Forall_nil_2]|].
  apply list.Forall_cons in Hrows as [_ Hrows]. by constructor.
Qed.

Lemma yields_set_assembly n version b :
  (let '(v1, v2, v3, v4) := version in in_u 16 v1 /\ in_u 16 v2 /\ in_u 16 v3 /\ in_u 16 v4) ->
  yields (set_assembly n version : M Z) b (fun _ _ => True).
Proof.
  intros Hv. unfold set_assembly. destruct version as [[[v1 v2] v3] v4]. destruct Hv as (?&?&?&?). step.
  eapply yields_bind; [grown|apply (yields_push TABLE_ASSEMBLY); [done|columns]|after]. by apply yields_ret.
Qed.
End methods.

(** ** Operations *)

(** The operations of the builder that the exporter calls. *)
Inductive Op : Type :=
| OString (s : string) | OBlob (bytes : list Z)
| OAssemblyRef (n : string) (target : AssemblyRefTarget) | OFindAssemblyRef (n : string)
| OTypeRef (scope : option Z) (ns n : string) | OModuleRef (lib : string)
| OMemberRef (class : Z) (n : string) (sig : Z) | OTypeSpec (sig : Z) | OStandaloneSig (sig : Z)
| OMethodSpec (method inst : Z)
| OTypeDef (ns n : string) (is_valuetype : bool) (extends pack size : option Z) (implements : list Z)
| OFieldList (tok : Z) | OMethodList (tok : Z) | OTypeAccess (tok : Z) (access : Access.t) | OMarkInterface (tok : Z)
| OBlobValuetype (n : string) (extends size : Z) | OValuetypeSig (tok : Z)
| OField (n : string) (sig : Z) (offset : option Z) | OEnumValue (sig : Z) | OEnumLiteral (n : string) (sig : Z) (v : Const.t)
| OStaticField (n : string) (sig : Z) (rva : option (list Z)) (thread_static const : bool)
| OMethod (n : string) (access : Access.t) (sig : Z) (params : list (option string)) (out : list Z)
    (is_static is_virtual is_ctor : bool) (pinvoke : option PInvoke) (inline : bool) (nullability : option MethodNullability)
| OBitPreserving (tok : Z) | OReuseSlot (tok : Z) | OAbstract (tok : Z) | OStaticAbstract (tok : Z) | OSpecialName (tok : Z)
| ORegister (method : Interned KMethodRef) (tok : Z) | OBodyRva (method rva : Z) | OFieldRva (field rva : Z)
| OInterfaceImpl (class interface : Z) | OGenericParam (owner number : Z) (n : string) | OMethodImpl (class body declaration : Z)
| OCustomAttribute (parent ctor value : Z)
| OEvent (class : Z) (n : string) (type add remove : Z) | OProperty (class : Z) (n : string) (sig : Z) (getter setter : option Z)
| OPropertyNullable (property flag : Z)
| OEntryPoint (method : Z) | OModule (n : string) (mvid : list Z) | OFinish (n : string)
| OAssembly (n : string) (version : Z * Z * Z * Z)
| OIsLib (v : bool) | ORuntime (v : DotnetRuntime.t) | OPublicName (n : option string).

Section run.
Context {E : Type}.
Local Notation M := (ST MetadataBuilder E).

Definition quietly (m : M unit) : M Z := _ ← m; mret 0.

Definition run_op (op : Op) : M Z :=
  match op with
  | OString s => intern_string s
  | OBlob bytes => intern_blob bytes
  | OAssemblyRef n target => assembly_ref n target
  | OFindAssemblyRef n => find_or_create_assembly_ref n
  | OTypeRef scope ns n => type_ref scope ns n
  | OModuleRef lib => intern_module_ref lib
  | OMemberRef class n sig => member_ref class n sig
  | OTypeSpec sig => type_spec sig
  | OStandaloneSig sig => standalone_sig sig
  | OMethodSpec method inst => method_spec method inst
  | OTypeDef ns n v extends pack size implements => add_type_def ns n v extends pack size implements
  | OFieldList tok => quietly (set_type_def_field_list tok)
  | OMethodList tok => quietly (set_type_def_method_list tok)
  | OTypeAccess tok access => quietly (set_type_def_access tok access)
  | OMarkInterface tok => quietly (mark_type_def_interface tok)
  | OBlobValuetype n extends size => add_blob_sized_valuetype n extends size
  | OValuetypeSig tok => field_sig_for_valuetype_token tok
  | OField n sig offset => add_field n sig offset
  | OEnumValue sig => add_enum_value_field sig
  | OEnumLiteral n sig v => add_enum_literal_field n sig v
  | OStaticField n sig rva thread_static const => add_static_field n sig rva thread_static const
  | OMethod n access sig params out s v c pinvoke inline nullability =>
      add_method_with_access n access sig params out s v c pinvoke inline nullability
  | OBitPreserving tok => quietly (mark_method_bit_preserving_float tok)
  | OReuseSlot tok => quietly (mark_method_reuse_slot tok)
  | OAbstract tok => quietly (mark_method_abstract tok)
  | OStaticAbstract tok => quietly (mark_method_static_abstract tok)
  | OSpecialName tok => quietly (mark_method_special_name tok)
  | ORegister method tok => quietly (register_method_def method tok)
  | OBodyRva method rva => quietly (set_method_body_rva method rva)
  | OFieldRva field rva => quietly (set_field_rva field rva)
  | OInterfaceImpl class interface => interface_impl class interface
  | OGenericParam owner number n => add_generic_param owner number n
  | OMethodImpl class body declaration => quietly (add_method_impl class body declaration)
  | OCustomAttribute parent ctor value => push_custom_attribute parent ctor value
  | OEvent class n type add remove => quietly (add_event class n type add remove)
  | OProperty class n sig getter setter => add_property class n sig getter setter
  | OPropertyNullable property flag => quietly (mark_property_nullable property flag)
  | OEntryPoint method => quietly (set_entry_point method)
  | OModule n mvid => quietly (set_module n mvid)
  | OFinish n => quietly (finish_module n)
  | OAssembly n version => set_assembly n version
  | OIsLib v => quietly (set_is_lib_flag v)
  | ORuntime v => quietly (set_runtime_kind v)
  | OPublicName n => quietly (set_public_name n)
  end.

(** What an operation is given: tokens and offsets that earlier operations returned, and integers
    of the widths of its parameters. *)
Definition op_ok (b : MetadataBuilder) (op : Op) : Prop :=
  match op with
  | OAssemblyRef _ (Bcl (v1, v2, v3, v4) _) => in_u 16 v1 /\ in_u 16 v2 /\ in_u 16 v3 /\ in_u 16 v4
  | OTypeRef (Some scope) _ _ => valid b scope
  | OMemberRef class _ sig => valid b class /\ is_blob b sig
  | OTypeSpec sig | OStandaloneSig sig | OEnumValue sig | OEnumLiteral _ sig _ | OStaticField _ sig _ _ _ => is_blob b sig
  | OMethodSpec method inst => valid b method /\ is_blob b inst
  | OTypeDef _ _ _ extends pack size implements =>
      match extends with Some tok => valid b tok | None => True end /\ sized pack size /\ Forall (valid b) implements
  | OBlobValuetype _ extends size => valid b extends /\ in_u 32 size
  | OField _ sig offset => is_blob b sig /\ in_u 32 (default 0 offset)
  | OMethod _ _ sig _ _ _ _ _ _ _ _ => is_blob b sig
  | ORegister _ tok => names b [TABLE_METHOD_DEF] tok
  | OBodyRva _ rva | OFieldRva _ rva => in_u 32 rva
  | OInterfaceImpl class interface => valid b class /\ valid b interface
  | OGenericParam owner number _ => valid b owner /\ in_u 16 number
  | OMethodImpl class body declaration => valid b class /\ valid b body /\ valid b declaration
  | OCustomAttribute parent ctor value => valid b parent /\ valid b ctor /\ is_blob b value
  | OEvent class _ type _ _ => valid b class /\ valid b type
  | OProperty class _ sig _ _ => valid b class /\ is_blob b sig
  | OPropertyNullable property _ => valid b property
  | OModule _ mvid => length mvid = 16%nat
  | OAssembly _ (v1, v2, v3, v4) => in_u 16 v1 /\ in_u 16 v2 /\ in_u 16 v3 /\ in_u 16 v4
  | _ => True
  end.

Lemma yields_quietly (m : M unit) b P : steps grows m -> yields m b P -> yields (quietly m) b (fun _ _ => True).
Proof. intros Hg Hm. unfold quietly. eapply yields_bind; [grown|exact Hm|]. intros [] b1 _ _ _ _. by apply yields_ret. Qed.
Lemma yields_any {A} (m : M A) b P : yields m b P -> yields m b (fun _ _ => True).
Proof. intros Hm. by eapply yields_mono. Qed.

Lemma yields_flag g b :
  (forall t, table_rows (g b) t = table_rows b t) ->
  (h_strings (g b), h_blobs (g b), h_user_strings (g b)) = (h_strings b, h_blobs b, h_user_strings b) ->
  steps grows (modify g : M unit) -> (caches_ok b b -> caches_ok b (g b)) ->
  yields (modify g : M unit) b (fun _ _ => True).
Proof. intros Hr Hh Hg Hc. apply (yields_modify _ _ (fun _ _ => True)); try done. intros Hwf. apply Hc, Hwf. Qed.
Ltac flag := apply yields_flag; [done|done|assigned|intros []; by constructor].


Lemma mvid_length n : length (deterministic_mvid n) = 16%nat.
Proof. unfold deterministic_mvid. by rewrite length_app, !length_le_bytes. Qed.

Lemma yields_blob bytes b : yields (intern_blob bytes : M Z) b (fun off b' => blob b' off bytes).
Proof. by apply yields_intern_blob. Qed.
Lemma yields_string s b : yields (intern_string s : M Z) b (fun off b' => text b' off s).
Proof. by apply yields_intern_string. Qed.

Lemma yields_finish_module n b : yields (finish_module n : M unit) b (fun _ _ => True).
Proof. apply yields_set_module, mvid_length. Qed.
Lemma yields_reuse_slot tok b : yields (mark_method_reuse_slot tok : M unit) b (fun _ _ => True).
Proof. by apply yields_clear_method_flags. Qed.
Lemma yields_abstract tok b : yields (mark_method_abstract tok : M unit) b (fun _ _ => True).
Proof. eapply yields_any. by apply yields_or_method_flags. Qed.
Lemma yields_static_abstract tok b : yields (mark_method_static_abstract tok : M unit) b (fun _ _ => True).
Proof. eapply yields_any. by apply yields_or_method_flags. Qed.

Lemma grows_set_entry_point m : steps grows (set_entry_point m : M unit).
Proof. unfold set_entry_point. assigned. Qed.
Lemma grows_set_is_lib v : steps grows (set_is_lib_flag v : M unit).
Proof. unfold set_is_lib_flag. assigned. Qed.
Lemma grows_set_runtime v : steps grows (set_runtime_kind v : M unit).
Proof. unfold set_runtime_kind. assigned. Qed.
Lemma grows_set_public_name n : steps grows (set_public_name n : M unit).
Proof. unfold set_public_name. assigned. Qed.
Lemma grows_mark_property_nullable p f : steps grows (mark_property_nullable p f : M unit).
Proof. unfold mark_property_nullable. stepping. Qed.
Hint Resolve grows_set_entry_point grows_set_is_lib grows_set_runtime grows_set_public_name grows_mark_property_nullable : steps.

Lemma yields_entry_point m b : yields (set_entry_point m : M unit) b (fun _ _ => True).
Proof. flag. Qed.
Lemma yields_is_lib v b : yields (set_is_lib_flag v : M unit) b (fun _ _ => True).
Proof. flag. Qed.
Lemma yields_runtime v b : yields (set_runtime_kind v : M unit) b (fun _ _ => True).
Proof. flag. Qed.
Lemma yields_public_name n b : yields (set_public_name n : M unit) b (fun _ _ => True).
Proof. flag. Qed.

Hint Resolve yields_blob yields_string yields_assembly_ref yields_find_or_create yields_type_ref
  yields_intern_module_ref yields_member_ref yields_type_spec yields_standalone_sig yields_method_spec
  yields_add_type_def yields_set_type_def_field_list yields_set_type_def_method_list yields_set_type_def_access
  yields_mark_type_def_interface yields_add_blob_sized_valuetype yields_field_sig_for_valuetype_token
  yields_add_field yields_add_enum_value_field yields_add_enum_literal_field yields_add_static_field
  yields_add_method_with_access yields_mark_method_bit_preserving_float yields_mark_method_special_name
  yields_register_method_def yields_set_method_body_rva yields_set_field_rva yields_interface_impl
  yields_add_generic_param yields_add_method_impl yields_push_custom_attribute yields_add_event
  yields_add_property yields_mark_property_nullable yields_set_module yields_set_assembly
  yields_finish_module yields_reuse_slot yields_abstract yields_static_abstract yields_entry_point yields_is_lib
  yields_runtime yields_public_name : yields.

(** Every operation keeps a builder well-formed. *)
Lemma run_op_yields op b : op_ok b op -> yields (run_op op) b (fun _ _ => True).
Proof.
  intros Hok. destruct op; cbn in *; try (eapply yields_quietly; [stepping|]);
    eapply yields_any; destruct_and?; eauto 2 with yields.
Qed.
Lemma grows_run_op op : steps grows (run_op op).
Proof. destruct op; cbn; try unfold quietly; stepping. Qed.
End run.
