(* ===== verification/TablesRuns.v ===== *)
(** * Runs of members (EventMap and PropertyMap)

    The events and properties of a class are the run that starts at the row its map names and ends where
    the next run starts (II.22.12, II.22.35).  A class has one run: it can be extended while it is the
    last one, and then the new member belongs to the class and the older members to theirs. *)

From S2P Require Import Prelude Interner Types Class IR Method Heaps Tables TablesRead Signature TablesOps TablesGrow TablesWf TablesTheory.
From stdpp Require Import sorting.
Local Open Scope Z_scope.

(** ** Reading runs *)

(** The class a member belongs to, by the classes and the starts of the runs. *)
Fixpoint owner (runs : list (Z * Z)) (member : Z) : option Z :=
  match runs with
  | [] => None
  | (class, start) :: runs' =>
      match runs' with
      | (_, next) :: _ => if (start <=? member) && (member <? next) then Some class else owner runs' member
      | [] => if start <=? member then Some class else None
      end
  end.

(** Runs of [n] members: none is empty, and each class has one. *)
Record runs_ok (runs : list (Z * Z)) (n : Z) : Prop := {
  runs_ascending : StronglySorted Z.lt (map snd runs);
  runs_within : Forall (fun start => 1 <= start <= n) (map snd runs);
  runs_distinct : NoDup (map fst runs) }.

(** Where a member of a class goes: the last run if it is the run of the class, a new one if the class
    has none. *)
Definition extend (runs : list (Z * Z)) (class next : Z) : option (list (Z * Z)) :=
  if bool_decide (class ∈ map fst runs)
  then if bool_decide (fst <$> list.last runs = Some class) then Some runs else None
  else Some (runs ++ [(class, next)]).

Lemma owner_below runs member : Forall (fun start => member < start) (map snd runs) -> owner runs member = None.
Proof.
  induction runs as [|[class start] runs IH]; [done|]. cbn [map snd]. intros [Hs Hr]%list.Forall_cons. cbn [owner].
  destruct runs as [|[c' next] runs]; destruct (Z.leb_spec start member); try lia; [done|]. by apply IH.
Qed.

Lemma owner_snoc runs class start member : StronglySorted Z.lt (map snd (runs ++ [(class, start)])) ->
  owner (runs ++ [(class, start)]) member = if start <=? member then Some class else owner runs member.
Proof.
  induction runs as [|[c s] runs IH]; [done|]. cbn [app map snd]. intros [Hsort Hall]%StronglySorted_inv.
  specialize (IH Hsort). destruct runs as [|[c' next] runs].
  - cbn in *. apply list.Forall_cons in Hall as [Hlt _].
    destruct (Z.leb_spec s member), (Z.ltb_spec member start), (Z.leb_spec start member); try lia; done.
  - change (((c', next) :: runs) ++ [(class, start)]) with ((c', next) :: (runs ++ [(class, start)])) in *.
    cbn [owner] in *. rewrite IH.
    assert (Hend : start <=? member = true -> next <= member).
    { intros Hm%Z.leb_le. cbn [map snd] in Hsort. apply StronglySorted_inv in Hsort as [_ Hlast].
      rewrite map_app in Hlast. apply Forall_app in Hlast as [_ Hlast]. cbn in Hlast.
      apply list.Forall_cons in Hlast as [Hlt _]. lia. }
    destruct (Z.leb_spec s member), (Z.ltb_spec member next), (Z.leb_spec start member); try done.
    specialize (Hend eq_refl). lia.
Qed.

(** The run of the last class holds the last members. *)
Lemma owner_last runs class start member : StronglySorted Z.lt (map snd runs) ->
  list.last runs = Some (class, start) -> start <= member -> owner runs member = Some class.
Proof.
  intros Hs Hl Hm. destruct runs as [|r runs] using rev_ind; [done|]. rewrite last_snoc in Hl. injection Hl as ->.
  rewrite owner_snoc by done. by apply Z.leb_le in Hm as ->.
Qed.

(** A new member belongs to the class it was added for, and the older ones to theirs. *)
Lemma extend_spec runs runs' n class :
  runs_ok runs n -> 0 <= n -> extend runs class (n + 1) = Some runs' ->
  runs_ok runs' (n + 1) /\ owner runs' (n + 1) = Some class /\
  forall member, member <= n -> owner runs' member = owner runs member.
Proof.
  intros [Ha Hw Hd] Hn. unfold extend. destruct (bool_decide_reflect (class ∈ map fst runs)) as [Hin|Hnin].
  - destruct (bool_decide_reflect (fst <$> list.last runs = Some class)) as [Hl|]; [|done]. intros [= <-].
    destruct (list.last runs) as [[c start]|] eqn:Hlast; [|done]. cbn in Hl. injection Hl as ->.
    split_and!; [|eapply owner_last; [done|done|]|done].
    + split; [done| |done]. eapply list.Forall_impl; [exact Hw|]. cbn. lia.
    + apply last_Some_elem_of in Hlast. rewrite list.Forall_forall in Hw.
      specialize (Hw start ltac:(apply list_elem_of_fmap; by exists (class, start))). cbn in Hw. lia.
  - intros [= <-].
    assert (Hs : StronglySorted Z.lt (map snd (runs ++ [(class, n + 1)]))).
    { rewrite map_app. cbn. clear -Ha Hw. induction (map snd runs) as [|s l IH]; cbn; [by repeat constructor|].
      apply StronglySorted_inv in Ha as [Ha Hall]. apply list.Forall_cons in Hw as [Hs Hw].
      constructor; [by apply IH|]. apply Forall_app. split; [done|]. repeat constructor. lia. }
    split_and!.
    + split; [done| |].
      * rewrite map_app. apply Forall_app. split; [eapply list.Forall_impl; [exact Hw|]; cbn; lia|]. repeat constructor; cbn; lia.
      * rewrite map_app. cbn. apply NoDup_app. split_and!; [done| |apply NoDup_singleton].
        intros x Hx ->%list_elem_of_singleton. done.
    + rewrite owner_snoc by done. by rewrite Z.leb_refl.
    + intros member Hm. rewrite owner_snoc by done. destruct (Z.leb_spec (n + 1) member); [lia|done].
Qed.

(** ** The operations *)

Section operations.
Context {E : Type}.
Local Notation M := (ST MetadataBuilder E).

Definition event_runs (b : MetadataBuilder) : list (Z * Z) := map (fun r => (emr_parent r, emr_event_list r)) (t_event_map b).
Definition property_runs (b : MetadataBuilder) : list (Z * Z) :=
  map (fun r => (pmr_parent r, pmr_property_list r)) (t_property_map b).

Section open.
Context {Map : Type} (maps : MetadataBuilder -> list Map) (assign : MetadataBuilder -> list Map -> MetadataBuilder).
Context (parent start : Map -> Z) (mk : Z -> Z -> Map).
Context (Hassign : forall b l, maps (assign b l) = l).
Context (Hparent : forall c s, parent (mk c s) = c) (Hstart : forall c s, start (mk c s) = s).

Local Notation runs b := (map (fun r => (parent r, start r)) (maps b)).

Lemma open_run_extends class next b :
  match extend (runs b) class next with
  | Some runs' => exists b', open_run (E := E) maps assign parent mk class next b = (b', Ok tt) /\ runs b' = runs' /\
      (b' = b \/ exists l, b' = assign b l)
  | None => open_run (E := E) maps assign parent mk class next b = (b, Panic)
  end.
Proof.
  assert (Hin : existsb (fun r => parent r =? class) (maps b) = bool_decide (class ∈ map fst (runs b))).
  { apply Bool.eq_iff_eq_true. rewrite bool_decide_eq_true, existsb_exists, map_map, list_elem_of_fmap. split.
    - intros (r & Hr & Hc%Z.eqb_eq). exists r. split; [done|by apply list_elem_of_In].
    - intros (r & -> & Hr%list_elem_of_In). exists r. split; [done|apply Z.eqb_refl]. }
  assert (Hlast : parent <$> list.last (maps b) = fst <$> list.last (runs b)).
  { rewrite fmap_last. by destruct (list.last (maps b)). }
  unfold extend, open_run, mbind, ST_bind, ask. rewrite Hin, <- Hlast.
  destruct (bool_decide (class ∈ _)); [destruct (bool_decide (_ = Some class))|].
  - exists b. split_and!; [done|done|by left].
  - done.
  - exists (assign b (maps b ++ [mk class next])). split_and!; [done| |right; by eexists].
    rewrite Hassign, map_app. cbn. by rewrite Hparent, Hstart.
Qed.
End open.

(** What the steps of [add_event] and [add_property] leave alone. *)
Definition event_tables (b : MetadataBuilder) := (t_event_map b, t_event b).
Definition property_tables (b : MetadataBuilder) := (t_property_map b, t_property b).

Lemma special_name_frame {X} (f : MetadataBuilder -> X) tok :
  (forall b l, f (set_t_method_def b l) = f b) -> steps (same f) (mark_method_special_name tok : M unit).
Proof. intros Hf. by apply same_update_row. Qed.
Lemma semantics_frame {X} (f : MetadataBuilder -> X) flag m a :
  (forall b l, f (set_t_method_semantics b l) = f b) -> steps (same f) (push_semantics flag m a : M unit).
Proof. intros Hf. by apply same_append. Qed.

(** A step that leaves [f] alone. *)
Lemma after_frame {A} {X} (f : MetadataBuilder -> X) (m : M A) b b1 o : steps (same f) m -> m b = (b1, o) -> f b1 = f b.
Proof. intros Hm Hr. specialize (Hm b). by rewrite Hr in Hm. Qed.

(** What adding a member to a class does to its tables. *)
Definition joins (runs : MetadataBuilder -> list (Z * Z)) (count : MetadataBuilder -> Z) (class : Z) (b b' : MetadataBuilder) : Prop :=
  count b' = count b + 1 /\ extend (runs b) class (count b + 1) = Some (runs b').

Lemma joins_spec runs count class b b' : joins runs count class b b' -> runs_ok (runs b) (count b) -> 0 <= count b ->
  runs_ok (runs b') (count b') /\ owner (runs b') (count b') = Some class /\
  forall member, member <= count b -> owner (runs b') member = owner (runs b) member.
Proof. intros [-> He] Hok Hn. by eapply extend_spec. Qed.

Definition events (b : MetadataBuilder) : Z := len (t_event b).
Definition properties (b : MetadataBuilder) : Z := len (t_property b).

Lemma add_event_joins class n type add remove b b' :
  add_event (E := E) class n type add remove b = (b', Ok tt) -> joins event_runs events (token_rid class) b b'.
Proof.
  intros Hr. unfold add_event in Hr.
  apply st_bind_ok in Hr as (b0 & [] & Ha & Hr). unfold assert_that in Ha. destruct (_ =? _); [|done]. injection Ha as <-.
  apply st_bind_ok in Hr as (b1 & [] & H1 & Hr). apply st_bind_ok in Hr as (b2 & [] & H2 & Hr).
  apply st_bind_ok in Hr as (b3 & next & Hnext & Hr). unfold next_rid, reads in Hnext.
  injection Hnext as <- [-> _]%expect_u32_ok.
  apply st_bind_ok in Hr as (b4 & [] & H4 & Hr). apply st_bind_ok in Hr as (b5 & off & H5 & Hr).
  apply st_bind_ok in Hr as (b6 & ty & [= <- _] & Hr). apply st_bind_ok in Hr as (b7 & tok & H7 & Hr).
  apply st_bind_ok in Hr as (b8 & a & [= <- _] & Hr). apply st_bind_ok in Hr as (b9 & [] & H9 & H10).
  assert (F2 : event_tables b2 = event_tables b).
  { etrans; [eapply after_frame, H2; by apply special_name_frame|]. eapply after_frame, H1. by apply special_name_frame. }
  assert (F5 : event_tables b5 = event_tables b4) by (eapply after_frame, H5; by apply same_intern_string).
  assert (F10 : event_tables b' = event_tables b7).
  { etrans; [eapply after_frame, H10; by apply semantics_frame|]. eapply after_frame, H9. by apply semantics_frame. }
  apply st_bind_ok in H7 as (b8 & [] & [= <-] & H7). apply st_bind_ok in H7 as (b10 & rid & Hrid & [= <- _]).
  injection Hrid as <- _.
  pose proof (open_run_extends t_event_map set_t_event_map emr_parent emr_event_list mk_EventMapRow ltac:(done) ltac:(done) ltac:(done)
    (token_rid class) (len (t_event b2) + 1) b2) as Hopen.
  injection F2 as F2a F2b. injection F5 as F5a F5b. injection F10 as F10a F10b. cbn in F10a, F10b.
  unfold joins, event_runs, events. rewrite F10a, F10b, F5a, F5b, <- F2a, <- F2b.
  destruct (extend _ _ _) as [runs'|] eqn:He; [|rewrite Hopen in H4; discriminate H4].
  destruct Hopen as (b4' & H4' & Hruns & Hb4). rewrite H4 in H4'. injection H4' as <-.
  assert (Hev : t_event b4 = t_event b2) by (by destruct Hb4 as [->|[l ->]]).
  rewrite Hev, Hruns. split; [unfold len; rewrite length_app; cbn; lia|done].
Qed.

Lemma for_some_frame {X} (f : MetadataBuilder -> X) accessor g :
  (forall a, steps (same f) (g a : M unit)) -> steps (same f) (for_some accessor g).
Proof. intros Hg. destruct accessor; [apply Hg|by intros b]. Qed.

Lemma add_property_joins class n sig getter setter b b' tok :
  add_property (E := E) class n sig getter setter b = (b', Ok tok) -> joins property_runs properties (token_rid class) b b'.
Proof.
  intros Hr. unfold add_property in Hr.
  apply st_bind_ok in Hr as (b0 & [] & Ha & Hr). unfold assert_that in Ha. destruct (_ =? _); [|done]. injection Ha as <-.
  apply st_bind_ok in Hr as (b0 & [] & Ha & Hr). unfold assert_that in Ha. destruct (_ || _); [|done]. injection Ha as <-.
  apply st_bind_ok in Hr as (b1 & [] & H1 & Hr). apply st_bind_ok in Hr as (b2 & [] & H2 & Hr).
  apply st_bind_ok in Hr as (b3 & next & Hnext & Hr). unfold next_rid, reads in Hnext.
  injection Hnext as <- [-> _]%expect_u32_ok.
  apply st_bind_ok in Hr as (b4 & [] & H4 & Hr). apply st_bind_ok in Hr as (b5 & off & H5 & Hr).
  apply st_bind_ok in Hr as (b7 & prop & H7 & Hr). apply st_bind_ok in Hr as (b8 & a & [= <- _] & Hr).
  apply st_bind_ok in Hr as (b9 & [] & H9 & Hr). apply st_bind_ok in Hr as (b10 & [] & H10 & [= <- _]).
  assert (F2 : property_tables b2 = property_tables b).
  { etrans; [eapply after_frame, H2|eapply after_frame, H1]; apply for_some_frame; intros; by apply special_name_frame. }
  assert (F5 : property_tables b5 = property_tables b4) by (eapply after_frame, H5; by apply same_intern_string).
  assert (F10 : property_tables b10 = property_tables b7).
  { etrans; [eapply after_frame, H10|eapply after_frame, H9]; apply for_some_frame; intros; by apply semantics_frame. }
  apply st_bind_ok in H7 as (b8 & [] & [= <-] & H7). apply st_bind_ok in H7 as (b11 & rid & Hrid & [= <- _]).
  injection Hrid as <- _.
  pose proof (open_run_extends t_property_map set_t_property_map pmr_parent pmr_property_list mk_PropertyMapRow
    ltac:(done) ltac:(done) ltac:(done) (token_rid class) (len (t_property b2) + 1) b2) as Hopen.
  injection F2 as F2a F2b. injection F5 as F5a F5b. injection F10 as F10a F10b. cbn in F10a, F10b.
  unfold joins, property_runs, properties. rewrite F10a, F10b, F5a, F5b, <- F2a, <- F2b.
  destruct (extend _ _ _) as [runs'|] eqn:He; [|rewrite Hopen in H4; discriminate H4].
  destruct Hopen as (b4' & H4' & Hruns & Hb4). rewrite H4 in H4'. injection H4' as <-.
  assert (Hev : t_property b4 = t_property b2) by (by destruct Hb4 as [->|[l ->]]).
  rewrite Hev, Hruns. split; [unfold len; rewrite length_app; cbn; lia|done].
Qed.
End operations.

(** *** The other operations *)

Ltac head_of t := match t with ?f _ => head_of f | _ => t end.

(** An operation that leaves alone what [f] looks at, by its definition. *)
Ltac left_alone :=
  repeat first
    [ done
    | match goal with |- forall _, _ => intro end
    | progress cbv zeta
    | solve [eauto 2 with steps]
    | match goal with |- steps _ (_ ≫= _) => apply steps_bind; [exact _|..] end
    | apply same_intern_string; done | apply same_intern_blob; done | apply same_push_guid; done
    | apply same_append; done | apply same_add_row; done | apply same_update_row; done
    | apply steps_ret; exact _ | apply steps_lift; exact _ | apply steps_ask; exact _
    | apply steps_reads; exact _ | apply steps_assert; exact _
    | match goal with |- steps _ (modify _) => apply steps_modify; intros; unfold same; repeat case_match; done end
    | match goal with |- steps _ (match ?x with _ => _ end) => destruct x end
    | match goal with |- steps _ (let '(_, _) := ?x in _) => destruct x end
    | match goal with |- steps _ ?m => let h := head_of m in unfold h end ].

Definition run_tables_of (b : MetadataBuilder) := (event_tables b, property_tables b).

Section alone.
Context {E : Type}.
Local Notation M := (ST MetadataBuilder E).

Lemma interfaces_alone rid implements : steps (same run_tables_of) (push_interfaces rid implements : M unit).
Proof. induction implements as [|i l IH]; cbn [push_interfaces]; left_alone. Qed.
Lemma params_alone method out nullability i params : steps (same run_tables_of) (push_params method out nullability i params : M unit).
Proof. revert i. induction params as [|p l IH]; intros i; cbn [push_params]; left_alone. Qed.
Hint Resolve interfaces_alone params_alone : steps.

Lemma run_op_alone op : match op with OEvent _ _ _ _ _ | OProperty _ _ _ _ _ => True | _ => steps (same run_tables_of) (run_op (E := E) op) end.
Proof. destruct op; try exact I; cbn [run_op]; unfold quietly; left_alone. Qed.
End alone.

(** ** Sequences of operations *)

(** The two kinds of member, with their runs, their rows, and the operation that adds one. *)
Inductive MemberKind : Set := Event | Property.
Definition runs_of (k : MemberKind) : MetadataBuilder -> list (Z * Z) :=
  match k with Event => event_runs | Property => property_runs end.
Definition members_of (k : MemberKind) : MetadataBuilder -> Z := match k with Event => events | Property => properties end.
Definition class_of (k : MemberKind) (op : Op) : option Z :=
  match k, op with
  | Event, OEvent class _ _ _ _ | Property, OProperty class _ _ _ _ => Some (token_rid class)
  | _, _ => None
  end.

Section sequences.
Context {E : Type}.
Local Notation M := (ST MetadataBuilder E).

Definition run_ops : list Op -> M unit := for_each (fun op => _ ← run_op op; mret tt).

Lemma event_leaves_properties class n type add remove :
  steps (same property_tables) (add_event class n type add remove : M unit).
Proof. left_alone. Qed.
Lemma property_leaves_events class n sig getter setter :
  steps (same event_tables) (add_property class n sig getter setter : M Z).
Proof. left_alone. Qed.

Lemma members_alone k b b' : run_tables_of b' = run_tables_of b -> runs_of k b' = runs_of k b /\ members_of k b' = members_of k b.
Proof.
  destruct k; injection 1; unfold event_runs, property_runs, events, properties; cbn; intros.
  - unfold event_runs, events. split; by f_equal.
  - unfold property_runs, properties. split; by f_equal.
Qed.

(** A member is added by the operation for it and by no other. *)
Lemma run_op_members k op b b' tok : run_op (E := E) op b = (b', Ok tok) ->
  match class_of k op with
  | Some class => joins (runs_of k) (members_of k) class b b'
  | None => runs_of k b' = runs_of k b /\ members_of k b' = members_of k b
  end.
Proof.
  intros Hr.
  assert (Hother : (match op with OEvent _ _ _ _ _ | OProperty _ _ _ _ _ => True | _ => run_tables_of b' = run_tables_of b end)).
  { pose proof (run_op_alone (E := E) op) as H. destruct op; try exact I; by eapply after_frame, Hr. }
  destruct op; try (destruct k; by apply members_alone).
  - cbn [run_op] in Hr. unfold quietly in Hr. apply st_bind_ok in Hr as (b1 & [] & Hr & [= <- _]).
    destruct k; cbn [class_of]; [by eapply add_event_joins|].
    assert (H : property_tables b1 = property_tables b) by (eapply after_frame, Hr; apply event_leaves_properties).
    injection H as Hm Hp. cbn. unfold property_runs, properties. by rewrite Hm, Hp.
  - cbn [run_op] in Hr. destruct k; cbn [class_of]; [|by eapply add_property_joins].
    assert (H : event_tables b' = event_tables b) by (eapply after_frame, Hr; apply property_leaves_events).
    injection H as Hm Hp. cbn. unfold event_runs, events. by rewrite Hm, Hp.
Qed.

Lemma members_nonneg k b : 0 <= members_of k b.
Proof. destruct k; cbn; unfold events, properties, len; lia. Qed.

(** C13: Any sequence of builder operations, with the events and properties of several classes among other
    operations, that runs to its end puts each added member in the run of the class it was added for, in
    the order of the additions, and leaves the members that were there in the runs they were in; the run
    starts stay ascending and inside the member table, and no class gets a second run. *)
Theorem members_join_their_class k ops b b' :
  runs_ok (runs_of k b) (members_of k b) -> run_ops ops b = (b', Ok tt) ->
  let added : list Z := omap (class_of k) ops in
  runs_ok (runs_of k b') (members_of k b') /\ members_of k b' = members_of k b + len added /\
  (forall member, member <= members_of k b -> owner (runs_of k b') member = owner (runs_of k b) member) /\
  (forall i class, added !! i = Some class -> owner (runs_of k b') (members_of k b + 1 + Z.of_nat i) = Some class).
Proof.
  cbv zeta. revert b. induction ops as [|op ops IH]; intros b Hok Hr; cbn [run_ops for_each] in Hr.
  { injection Hr as <-. cbn. split_and!; [done|unfold len; cbn; lia|done|by intros []]. }
  apply st_bind_ok in Hr as (b1 & [] & Hop & Hr). apply st_bind_ok in Hop as (b2 & tok & Hop & [= <-]).
  apply (run_op_members k) in Hop. cbn [omap list_omap].
  destruct (class_of k op) as [class|].
  - pose proof (joins_spec _ _ _ _ _ Hop Hok (members_nonneg _ _)) as (Hok1 & Hnew & Hold).
    destruct Hop as [Hn _]. destruct (IH _ Hok1 Hr) as (Hok' & Hn' & Hold' & Hnew').
    split_and!; [done|rewrite Hn', Hn; unfold len; cbn; lia|intros m Hm; rewrite Hold', Hold by lia; done|].
    intros [|i] c; cbn.
    + intros [= <-]. rewrite <- Hnew. replace (_ + 1 + Z.of_nat 0) with (members_of k b2) by lia. apply Hold'. lia.
    + intros Hi. rewrite <- (Hnew' _ _ Hi). f_equal. lia.
  - destruct Hop as [Hruns Hn]. rewrite <- Hruns, <- Hn in *. by apply IH.
Qed.

(** C14: An operation that would reopen the run of a class, because members of another class were added
    since, does not return: [add_event] and [add_property] stop instead of attributing the member to the
    other class. *)
Theorem closed_run_rejected k op b class b' tok : class_of k op = Some class ->
  class ∈ map fst (runs_of k b) -> fst <$> list.last (runs_of k b) <> Some class ->
  run_op (E := E) op b <> (b', Ok tok).
Proof.
  intros Hc Hin Hlast Hr. apply (run_op_members k) in Hr. rewrite Hc in Hr. destruct Hr as [_ He]. unfold extend in He.
  by rewrite bool_decide_eq_true_2, bool_decide_eq_false_2 in He.
Qed.
End sequences.

(** ** A module with two classes *)

Definition two_classes : list Op :=
  let accessor n := OMethod n Access.Public 1 [] [] false true false None false None in
  [ OTypeDef "" "A" false None None None []; OTypeDef "" "B" false None None None [];
    OBlob [0x20; 0x00; 0x01]; OBlob [0x28; 0x00; 0x08];
    accessor "add_E1"; accessor "remove_E1"; accessor "add_E2"; accessor "remove_E2"; accessor "get_P";
    OEvent (token_new TABLE_TYPE_DEF 2) "E1" (token_new TABLE_TYPE_DEF 2) (token_new TABLE_METHOD_DEF 1) (token_new TABLE_METHOD_DEF 2);
    OProperty (token_new TABLE_TYPE_DEF 3) "P" 5 (Some (token_new TABLE_METHOD_DEF 5)) None;
    OEvent (token_new TABLE_TYPE_DEF 2) "E2" (token_new TABLE_TYPE_DEF 2) (token_new TABLE_METHOD_DEF 3) (token_new TABLE_METHOD_DEF 4);
    OEvent (token_new TABLE_TYPE_DEF 3) "E3" (token_new TABLE_TYPE_DEF 2) (token_new TABLE_METHOD_DEF 3) (token_new TABLE_METHOD_DEF 4) ].

Definition two_classes_built : MetadataBuilder := fst (run_ops (E := unit) two_classes MetadataBuilder_new).

Example two_classes_returns : run_ops (E := unit) two_classes MetadataBuilder_new = (two_classes_built, Ok tt).
Proof. vm_compute. reflexivity. Qed.

(** The test of the source that adds an event to a closed run. *)
Example closed_run_panics :
  snd (run_op (E := unit) (OEvent (token_new TABLE_TYPE_DEF 2) "E4" 0x2000002 0x6000001 0x6000002) two_classes_built) = Panic.
Proof. vm_compute. reflexivity. Qed.

Lemma new_runs_ok k : runs_ok (runs_of k MetadataBuilder_new) (members_of k MetadataBuilder_new).
Proof. destruct k; vm_compute; by repeat constructor. Qed.

Lemma no_member k : members_of k MetadataBuilder_new = 0.
Proof. destruct k; vm_compute; reflexivity. Qed.

Lemma members_join_their_class_witness :
  owner (runs_of Event two_classes_built) (0 + 1 + 0) = Some 2 /\ owner (runs_of Event two_classes_built) (0 + 1 + 1) = Some 2 /\ owner (runs_of Event two_classes_built) (0 + 1 + 2) = Some 3.
Proof.
  destruct (members_join_their_class Event two_classes _ _ (new_runs_ok Event) two_classes_returns) as (_ & _ & _ & H).
  rewrite (no_member Event) in H.
  assert (Hadded : (omap (class_of Event) two_classes : list Z) = [2; 2; 3]) by (vm_compute; reflexivity).
  rewrite Hadded in H. split; [exact (H 0%nat 2 eq_refl)|split; [exact (H 1%nat 2 eq_refl)|exact (H 2%nat 3 eq_refl)]].
Defined.

Lemma closed_run_rejected_witness :
  run_op (E := unit) (OEvent (token_new TABLE_TYPE_DEF 2) "E4" 0x2000002 0x6000001 0x6000002) two_classes_built
  <> (two_classes_built, Ok 0).
Proof.
  refine (closed_run_rejected Event _ _ 2 _ _ _ _ _); [reflexivity|..].
  - apply (bool_decide_eq_true_1 _). vm_compute. reflexivity.
  - apply (bool_decide_eq_false_1 _). vm_compute. reflexivity.
Defined.
