(* ===== verification/SigTheory.v ===== *)
(** * Signature blobs decode to the types they were made from

    A decoder of signature blobs as a metadata reader has it, what a type denotes as a signature,
    and the round trip: what the encoders of [Signature] write, followed by anything, decodes as
    what the type denotes.  The client of the resolver sees only its laws. *)

From S2P Require Import Prelude Interner Types IR Arenas Walk MapTheory Heaps Signature.

(** ** Decoded signatures *)

Inductive SigType : Set :=
| SigPrim (et : Z)
| SigPtr (t : SigType)
| SigByRef (t : SigType)
| SigClass (is_valuetype : bool) (code : Z)
| SigGenericInst (is_valuetype : bool) (code : Z) (args : list SigType)
| SigVar (idx : Z)
| SigMVar (idx : Z)
| SigSzArray (t : SigType)
| SigArray (t : SigType) (rank : Z)
| SigFnPtr (convention generics : Z) (ret : SigType) (params : list SigType).

(** Element types of one byte. *)
Definition is_primitive (b : Z) : bool :=
  ((ET_VOID <=? b) && (b <=? ET_STRING)) || (b =? ET_I) || (b =? ET_U) || (b =? ET_OBJECT).

Definition parser (A : Type) : Type := list Z -> option (A * list Z).

(** [n] items in a row. *)
Fixpoint parse_many {A} (p : parser A) (n : nat) : parser (list A) := fun l =>
  match n with
  | O => Some ([], l)
  | S n => '(x, l) ← p l; '(xs, l) ← parse_many p n l; Some (x :: xs, l)
  end.

Definition parse_method (p : parser SigType) : parser (Z * Z * SigType * list SigType) := fun l =>
  match l with
  | [] => None
  | convention :: l =>
      '(generics, l) ← (if Z.land convention SIG_GENERIC =? 0 then Some (0, l)
                        else read_compressed_u32 l);
      '(count, l) ← read_compressed_u32 l;
      '(ret, l) ← p l;
      '(params, l) ← parse_many p (Z.to_nat count) l;
      Some (convention, generics, ret, params, l)
  end.

Fixpoint parse_type (fuel : nat) : parser SigType := fun l =>
  match fuel, l with
  | S fuel', b :: l =>
      let one (mk : SigType -> SigType) := '(t, l) ← parse_type fuel' l; Some (mk t, l) in
      if is_primitive b then Some (SigPrim b, l)
      else if b =? ET_PTR then one SigPtr
      else if b =? ET_BYREF then one SigByRef
      else if (b =? ET_VALUETYPE) || (b =? ET_CLASS) then
        '(code, l) ← read_compressed_u32 l; Some (SigClass (b =? ET_VALUETYPE) code, l)
      else if b =? ET_GENERICINST then
        match l with
        | kind :: l =>
            '(code, l) ← read_compressed_u32 l;
            '(count, l) ← read_compressed_u32 l;
            '(args, l) ← parse_many (parse_type fuel') (Z.to_nat count) l;
            Some (SigGenericInst (kind =? ET_VALUETYPE) code args, l)
        | [] => None
        end
      else if b =? ET_VAR then '(idx, l) ← read_compressed_u32 l; Some (SigVar idx, l)
      else if b =? ET_MVAR then '(idx, l) ← read_compressed_u32 l; Some (SigMVar idx, l)
      else if b =? ET_SZARRAY then one SigSzArray
      else if b =? ET_ARRAY then
        '(t, l) ← parse_type fuel' l;
        '(rank, l) ← read_compressed_u32 l;
        '(sizes, l) ← read_compressed_u32 l;
        '(bounds, l) ← read_compressed_u32 l;
        if (sizes =? 0) && (bounds =? 0) then Some (SigArray t rank, l) else None
      else if b =? ET_FNPTR then
        '(convention, generics, ret, params, l) ← parse_method (parse_type fuel') l;
        Some (SigFnPtr convention generics ret params, l)
      else None
  | _, _ => None
  end.

(** ** What types denote *)

(** The laws of a resolver: its tables only grow, and an index it gave stays the index of the
    class. *)
Class ResolverLaws (R : Type) `{TypeDefOrRefResolver R} : Type := {
  later : relation R;
  later_preorder :: PreOrder later;
  resolves : R -> Interned KClassRef -> Z -> Prop;
  resolve_grows {E} c r a r' a' (o : outcome E Z) :
    type_def_or_ref c (r, a) = ((r', a'), o) -> extends a a' /\ later r r';
  resolve_code {E} c r a r' a' code r'' :
    type_def_or_ref (E := E) c (r, a) = ((r', a'), Ok code) -> later r' r'' ->
    0 <= code /\ resolves r'' c code;
  resolve_fuelled {E} c r a : fuelled (snd (type_def_or_ref (E := E) c (r, a))) }.

(** Types of one element byte. *)
Definition primitive (t : Ty.t) : option Z :=
  match t with
  | Ty.Void => Some ET_VOID
  | Ty.Bool => Some ET_BOOLEAN
  | Ty.PlatformChar => Some ET_CHAR
  | Ty.PlatformString => Some ET_STRING
  | Ty.PlatformObject => Some ET_OBJECT
  | Ty.Int Int.I8 => Some ET_I1 | Ty.Int Int.U8 => Some ET_U1
  | Ty.Int Int.I16 => Some ET_I2 | Ty.Int Int.U16 => Some ET_U2
  | Ty.Int Int.I32 => Some ET_I4 | Ty.Int Int.U32 => Some ET_U4
  | Ty.Int Int.I64 => Some ET_I8 | Ty.Int Int.U64 => Some ET_U8
  | Ty.Int Int.ISize => Some ET_I | Ty.Int Int.USize => Some ET_U
  | Ty.Float Float.F32 => Some ET_R4 | Ty.Float Float.F64 => Some ET_R8
  | _ => None
  end.

(** Scalars that are value classes: their class's name, assembly and generic arguments. *)
Definition lowered (t : Ty.t) : option (string * option string * list Ty.t) :=
  match t with
  | Ty.Int Int.I128 => Some ("System.Int128"%string, Some "System.Runtime"%string, [])
  | Ty.Int Int.U128 => Some ("System.UInt128"%string, Some "System.Runtime"%string, [])
  | Ty.Float Float.F16 => Some ("System.Half"%string, Some "System.Runtime"%string, [])
  | Ty.Float Float.F128 => Some ("f128"%string, None, [])
  | Ty.SIMDVector v =>
      Some (("System.Runtime.Intrinsics.Vector" +:+ pretty (Simd.bits v))%string,
            Some "System.Runtime.Intrinsics"%string, [Ty.of_simd_elem (Simd.v_elem v)])
  | _ => None
  end.

Section denotes.
Context {R : Type} `{ResolverLaws R} (asm : Assembly) (r : R).

(** The class reference with this name, assembly and arguments. *)
Definition names_class (c : Interned KClassRef) (name : string) (asm_name : option string)
    (generics : list Ty.t) : Prop :=
  exists cr, class_refs asm !! slot c = Some cr /\ cr_is_valuetype cr = true /\ cr_generics cr = generics /\
    strings asm !! slot (cr_name cr) = Some name /\
    match asm_name, cr_asm cr with
    | Some n, Some i => strings asm !! slot i = Some n
    | None, None => True
    | _, _ => False
    end.

(** A plain class named [System.Object] or [System.String] has an element type of its own. *)
Definition short_form (cr : ClassRef) (et : Z) : Prop :=
  cr_is_valuetype cr = false /\ cr_generics cr = [] /\
  (strings asm !! slot (cr_name cr) = Some "System.Object"%string /\ et = ET_OBJECT \/
   strings asm !! slot (cr_name cr) = Some "System.String"%string /\ et = ET_STRING).

Inductive denotes : Ty.t -> SigType -> Prop :=
| d_prim t b : primitive t = Some b -> denotes t (SigPrim b)
| d_lowered t name asm_name generics c st :
    lowered t = Some (name, asm_name, generics) -> names_class c name asm_name generics ->
    class_denotes c true st -> denotes t st
| d_ptr i t st : types asm !! slot i = Some t -> denotes t st -> denotes (Ty.Ptr i) (SigPtr st)
| d_ref i t st : types asm !! slot i = Some t -> denotes t st -> denotes (Ty.Ref i) (SigByRef st)
| d_short c cr et :
    class_refs asm !! slot c = Some cr -> short_form cr et -> denotes (Ty.ClassRef c) (SigPrim et)
| d_class c cr st :
    class_refs asm !! slot c = Some cr -> (forall et, ~ short_form cr et) ->
    class_denotes c (cr_is_valuetype cr) st -> denotes (Ty.ClassRef c) st
| d_var idx k : k <> Generic.CallGeneric -> denotes (Ty.PlatformGeneric idx k) (SigVar idx)
| d_mvar idx : denotes (Ty.PlatformGeneric idx Generic.CallGeneric) (SigMVar idx)
| d_szarray i t st :
    types asm !! slot i = Some t -> denotes t st -> denotes (Ty.PlatformArray i 1) (SigSzArray st)
| d_array i t st dims :
    dims <> 1 -> types asm !! slot i = Some t -> denotes t st ->
    denotes (Ty.PlatformArray i dims) (SigArray st dims)
| d_fnptr s sig ret params :
    sigs asm !! slot s = Some sig -> denotes (output sig) ret ->
    Forall2 param_denotes (inputs sig) params ->
    denotes (Ty.FnPtr s) (SigFnPtr SIG_DEFAULT 0 ret params)
with class_denotes : Interned KClassRef -> bool -> SigType -> Prop :=
| d_plain c vt cr code :
    class_refs asm !! slot c = Some cr -> cr_generics cr = [] -> resolves r c code ->
    class_denotes c vt (SigClass vt code)
| d_generic c vt cr code args :
    class_refs asm !! slot c = Some cr -> cr_generics cr <> [] -> resolves r c code ->
    Forall2 denotes (cr_generics cr) args -> class_denotes c vt (SigGenericInst vt code args)
(** Where [void] is illegal, it is the value class [RustVoid] of the module. *)
with param_denotes : Ty.t -> SigType -> Prop :=
| d_param t st : t <> Ty.Void -> denotes t st -> param_denotes t st
| d_void c st :
    names_class c "RustVoid" None [] -> class_denotes c true st -> param_denotes Ty.Void st.
End denotes.

(** ** The moves of an encoder *)

Section moves.
Context {R : Type} `{ResolverLaws R} {E : Type}.

(** What an encoder does to its state, if interning and the resolver do it. *)
Section steps_of.
Context (Rel : relation (SigState R)) `{!PreOrder Rel}.
Context (Hasm : forall A (m : ST Assembly E A), steps extends m -> steps Rel (on_asm (S := SigState R) m)).
Context (Hresolve : forall c, steps Rel (resolve (E := E) c)).
Hint Resolve Hasm Hresolve : steps.

Lemma compressed_steps v : steps Rel (compressed (E := E) v).
Proof. apply steps_lift, _. Qed.
Lemma compressed_len_steps n : steps Rel (compressed_len (E := E) n).
Proof. apply steps_bind; [apply _|apply steps_lift, _|]. intros. apply compressed_steps. Qed.
Hint Resolve compressed_steps compressed_len_steps : steps.

Lemma simd_class_extends v : steps (E := E) extends (simd_class v).
Proof. unfold simd_class. steps_tac. Qed.
Hint Resolve simd_class_extends : steps.

Section with_types.
Context (enc : Ty.t -> ST (SigState R) E (list Z)) (Henc : forall t, steps Rel (enc t)).
Hint Resolve Henc : steps.

Lemma encode_class_steps c vt : steps Rel (encode_class enc c vt).
Proof. unfold encode_class. cbv zeta. steps_tac. Qed.
Hint Resolve encode_class_steps : steps.

Lemma encode_non_void_steps t : steps Rel (encode_non_void_type enc t).
Proof. unfold encode_non_void_type. steps_tac. Qed.
Hint Resolve encode_non_void_steps : steps.

Lemma encode_method_steps conv gp sig : steps Rel (encode_method_sig enc conv gp sig).
Proof. unfold encode_method_sig. steps_tac. Qed.
Lemma encode_field_steps t : steps Rel (encode_field_sig enc t).
Proof. unfold encode_field_sig. steps_tac. Qed.
Lemma encode_locals_steps l : steps Rel (encode_locals_sig enc l).
Proof. unfold encode_locals_sig. steps_tac. Qed.
Lemma encode_method_spec_steps l : steps Rel (encode_method_spec_sig enc l).
Proof. unfold encode_method_spec_sig. steps_tac. Qed.
End with_types.
Hint Resolve encode_class_steps encode_method_steps : steps.

Lemma encode_type_steps fuel t : steps Rel (encode_type (E := E) fuel t).
Proof.
  revert t. induction fuel as [|fuel IH]; intros t; cbn [encode_type]; [steps_tac|].
  cbv zeta. steps_tac.
Qed.
End steps_of.

Definition moves (s s' : SigState R) : Prop :=
  extends (sg_asm s) (sg_asm s') /\ later (sg_resolver s) (sg_resolver s').

#[export] Instance moves_preorder : PreOrder moves.
Proof.
  split; [intros s; split; reflexivity|]. intros a b c [? ?] [? ?]. split; by etrans.
Qed.

Lemma on_asm_moves {A} (m : ST Assembly E A) : steps extends m -> steps moves (on_asm (S := SigState R) m).
Proof.
  intros Hm s. specialize (Hm (sg_asm s)). unfold on_asm. cbn. destruct (m (sg_asm s)).
  split; [done|]. cbn. reflexivity.
Qed.

Lemma resolve_moves c : steps moves (resolve (E := E) c).
Proof.
  intros s. unfold resolve. destruct (type_def_or_ref c _) as [[r' a'] o] eqn:Hr.
  apply resolve_grows in Hr as [? ?]. by split.
Qed.
Hint Resolve on_asm_moves resolve_moves : steps.

Lemma compressed_moves v : steps moves (compressed (E := E) v).
Proof. apply compressed_steps; exact _. Qed.
Lemma compressed_len_moves n : steps moves (compressed_len (E := E) n).
Proof. apply compressed_len_steps; exact _. Qed.
Section with_types.
Context (enc : Ty.t -> ST (SigState R) E (list Z)) (Henc : forall t, steps moves (enc t)).
Lemma encode_class_moves c vt : steps moves (encode_class enc c vt).
Proof. apply encode_class_steps; auto with steps; exact _. Qed.
Lemma encode_non_void_moves t : steps moves (encode_non_void_type enc t).
Proof. apply encode_non_void_steps; auto with steps; exact _. Qed.
Lemma encode_method_moves conv gp sig : steps moves (encode_method_sig enc conv gp sig).
Proof. apply encode_method_steps; auto with steps; exact _. Qed.
Lemma encode_field_moves t : steps moves (encode_field_sig enc t).
Proof. apply encode_field_steps; auto with steps; exact _. Qed.
Lemma encode_locals_moves l : steps moves (encode_locals_sig enc l).
Proof. apply encode_locals_steps; auto with steps; exact _. Qed.
Lemma encode_method_spec_moves l : steps moves (encode_method_spec_sig enc l).
Proof. apply encode_method_spec_steps; auto with steps; exact _. Qed.
End with_types.
Lemma encode_type_moves fuel t : steps moves (encode_type (E := E) fuel t).
Proof. apply encode_type_steps; auto with steps; exact _. Qed.
End moves.

#[export] Hint Resolve on_asm_moves resolve_moves compressed_moves compressed_len_moves
  simd_class_extends encode_class_moves encode_non_void_moves encode_method_moves
  encode_type_moves : steps.

(** ** Parsing what was written *)

Section parses.

(** The bytes of a blob, whatever follows them, decode as the type. *)
Definition parses (st : SigType) (bs : list Z) : Prop :=
  bs <> [] /\ forall rest f, (length bs <= f)%nat -> parse_type f (bs ++ rest) = Some (st, rest).

Lemma parses_byte b : is_primitive b = true -> parses (SigPrim b) [b].
Proof.
  intros Hb. split; [done|]. intros rest [|f]; cbn [length]; [lia|]. intros _. cbn. by rewrite Hb.
Qed.

Lemma parse_many_concat sts bss f rest :
  Forall2 parses sts bss -> (length (concat bss) <= f)%nat ->
  parse_many (parse_type f) (length sts) (concat bss ++ rest) = Some (sts, rest).
Proof.
  intros H. revert rest. induction H as [|st bs sts bss [_ Hp] _ IH]; intros rest Hf; cbn; [done|].
  cbn in Hf. rewrite length_app in Hf. rewrite <- app_assoc, Hp by lia. cbn.
  by rewrite IH by lia.
Qed.

Lemma parses_prefixed mk b st bs :
  parses st bs ->
  (forall f l, parse_type (S f) (b :: l) = '(t, l) ← parse_type f l; Some (mk t, l)) ->
  parses (mk st) (b :: bs).
Proof.
  intros [_ Hp] Hb. split; [done|]. intros rest [|f]; cbn [length]; [lia|]. intros Hf.
  cbn [app]. rewrite Hb, Hp by lia. done.
Qed.
End parses.

Section compressed.
Context {R : Type} {E : Type}.

Lemma compressed_ok v (s s' : SigState R) bs :
  0 <= v -> compressed (E := E) v s = (s', Ok bs) ->
  s' = s /\ forall rest, read_compressed_u32 (bs ++ rest) = Some (v, rest).
Proof.
  intros Hv [= <- Hw]. split; [done|]. intros rest.
  by destruct (read_write_compressed _ _ rest Hv Hw) as [? _].
Qed.

Lemma compressed_len_ok n (s s' : SigState R) bs :
  compressed_len (E := E) n s = (s', Ok bs) ->
  s' = s /\ forall rest, read_compressed_u32 (bs ++ rest) = Some (Z.of_nat n, rest).
Proof.
  intros (s1 & m & Hm & H)%st_bind_ok. unfold lift in Hm. injection Hm as <- [-> _]%expect_u32_ok.
  by apply compressed_ok in H; [|lia].
Qed.
End compressed.

(** ** The round trip *)

(** Rust's types keep the numbers in a type in range. *)
Definition ty_ok (t : Ty.t) : Prop :=
  match t with
  | Ty.PlatformGeneric idx _ => 0 <= idx
  | Ty.PlatformArray _ dims => 0 <= dims
  | _ => True
  end.

Record types_ok (asm : Assembly) : Prop := {
  ok_types i t : types asm !! i = Some t -> ty_ok t;
  ok_generics i c : class_refs asm !! i = Some c -> Forall ty_ok (cr_generics c);
  ok_inputs i s : sigs asm !! i = Some s -> Forall ty_ok (inputs s);
  ok_output i s : sigs asm !! i = Some s -> ty_ok (output s) }.

Section roundtrip.
Context {R : Type} `{ResolverLaws R} {E : Type}.
(** The assembly and resolver the writer ends with. *)
Context (final : Assembly) (r : R) (Hok : types_ok final).

Local Notation until s := (moves s (mk_SigState final r)).
Local Notation denotes := (denotes final r).
Local Notation class_denotes := (class_denotes final r).
Local Notation param_denotes := (param_denotes final r).

(** An encoder writes what decodes as what its argument denotes. *)
Definition writes {A} (D : A -> SigType -> Prop) (ok : A -> Prop) (enc : A -> ST (SigState R) E (list Z)) : Prop :=
  forall t s s' bs, ok t -> until s' -> enc t s = (s', Ok bs) -> exists st, parses st bs /\ D t st.

Lemma map_writes {A} (D : A -> SigType -> Prop) ok enc l s s' bss :
  writes D ok enc -> (forall t, steps moves (enc t)) -> Forall ok l -> until s' ->
  map_st enc l s = (s', Ok bss) -> exists sts, Forall2 parses sts bss /\ Forall2 D l sts.
Proof.
  intros Hw Hm Hl Hu. revert s bss Hl. induction l as [|t l IH]; intros s bss; cbn [map_st].
  - intros _ [= <- <-]. by exists [].
  - intros [Ht Hl]%list.Forall_cons (s1 & bs & H1 & H2)%st_bind_ok.
    apply st_bind_ok in H2 as (s2 & bss' & H2 & [= <- <-]).
    pose proof (steps_map_st moves enc l Hm s1) as K. rewrite H2 in K. cbn in K.
    destruct (Hw t s s1 bs Ht ltac:(by etrans) H1) as (st & ? & ?).
    destruct (IH s1 bss' Hl H2) as (sts & ? & ?). exists (st :: sts). by split; constructor.
Qed.

Lemma until_class s (c : Interned KClassRef) cr : until s -> class_refs (sg_asm s) !! slot c = Some cr ->
  class_refs final !! slot c = Some cr.
Proof. intros [[] _]. cbn in *. intros. by eapply prefix_lookup_Some. Qed.
Lemma until_type s (i : Interned KType) t : until s -> types (sg_asm s) !! slot i = Some t -> types final !! slot i = Some t.
Proof. intros [[] _]. cbn in *. intros. by eapply prefix_lookup_Some. Qed.
Lemma until_string s (i : Interned KString) t : until s -> strings (sg_asm s) !! slot i = Some t -> strings final !! slot i = Some t.
Proof. intros [[] _]. cbn in *. intros. by eapply prefix_lookup_Some. Qed.
Lemma until_sig s (i : Interned KSig) t : until s -> sigs (sg_asm s) !! slot i = Some t -> sigs final !! slot i = Some t.
Proof. intros [[] _]. cbn in *. intros. by eapply prefix_lookup_Some. Qed.

Section with_types.
Context (enc : Ty.t -> ST (SigState R) E (list Z)) (Hmoves : forall t, steps moves (enc t)).
Context (Henc : writes denotes ty_ok enc).

Lemma class_kind vt : exists b, (if (vt : bool) then ET_VALUETYPE else ET_CLASS) = b /\
  is_primitive b = false /\ (b =? ET_PTR) = false /\ (b =? ET_BYREF) = false /\
  (b =? ET_VALUETYPE) || (b =? ET_CLASS) = true /\ (b =? ET_VALUETYPE) = vt.
Proof. destruct vt; eexists; by split_and!. Qed.

Lemma resolve_ok c s s' code :
  resolve (E := E) c s = (s', Ok code) -> until s' -> 0 <= code /\ resolves r c code.
Proof.
  unfold resolve. destruct (type_def_or_ref c _) as [[r' a'] o] eqn:Hr. intros [= <- ->] [_ Hl].
  by eapply resolve_code in Hr.
Qed.

Lemma class_writes c vt s s' bs :
  until s' -> encode_class enc c vt s = (s', Ok bs) ->
  exists st, parses st bs /\ class_denotes c vt st.
Proof.
  intros Hu (s1 & cr & Hcr & Hrun)%st_bind_ok. injection Hcr as <- Hcr%arena_get_ok.
  assert (Hin : until s -> class_refs final !! slot c = Some cr) by (intros; by eapply until_class).
  destruct (class_kind vt) as (kind & Hkind & K1 & K2 & K3 & K4 & K5).
  destruct (cr_generics cr) as [|g gs] eqn:Hg.
  - apply st_bind_ok in Hrun as (s1 & code & Hc & Hrun). apply st_bind_ok in Hrun as (s2 & cb & Hb & [= <- <-]).
    pose proof (resolve_moves (E := E) c s) as Ks. rewrite Hc in Ks. cbn in Ks.
    assert (until s1) as Hu1 by (by injection Hb as <- _).
    destruct (resolve_ok _ _ _ _ Hc Hu1) as [Hcode Hres]. apply compressed_ok in Hb as [-> Hread]; [|done].
    exists (SigClass vt code). split; [|eapply d_plain; [apply Hin; by etrans|done..]].
    split; [done|]. intros rest [|f]; cbn [length]; [lia|]. intros _. cbn [app].
    rewrite Hkind. cbn. rewrite K1, K2, K3, K4, Hread. cbn. by rewrite K5.
  - apply st_bind_ok in Hrun as (s1 & code & Hc & Hrun). apply st_bind_ok in Hrun as (s2 & cb & Hb & Hrun).
    apply st_bind_ok in Hrun as (s3 & nb & Hn & Hrun). apply st_bind_ok in Hrun as (s4 & args & Ha & [= <- <-]).
    apply compressed_len_ok in Hn as [-> Hreadn].
    pose proof (resolve_moves (E := E) c s) as Ks. rewrite Hc in Ks. cbn in Ks.
    pose proof (steps_map_st moves enc (g :: gs) Hmoves s2) as Ka. rewrite Ha in Ka. cbn in Ka.
    assert (s2 = s1) as -> by (by injection Hb).
    assert (until s1) as Hu1 by (by etrans).
    destruct (resolve_ok _ _ _ _ Hc Hu1) as [Hcode Hres]. apply compressed_ok in Hb as [_ Hread]; [|done].
    assert (until s) as Hu0 by (by etrans).
    assert (Forall ty_ok (g :: gs)) as Hgs by (rewrite <- Hg; by eapply ok_generics, Hin).
    destruct (map_writes denotes ty_ok enc (g :: gs) s1 s4 args Henc Hmoves Hgs Hu Ha) as (sts & Hp & Hd).
    exists (SigGenericInst vt code sts). split.
    + split; [done|]. intros rest [|f]; cbn [length]; [lia|]. rewrite !length_app. intros Hf. cbn [app].
      rewrite Hkind, <- !app_assoc. cbn. rewrite Hread. cbn. rewrite Hreadn. cbn.
      rewrite Nat2Z.id. pose proof (Forall2_length Hd) as Hlen. cbn [length] in Hlen. rewrite Hlen.
      rewrite parse_many_concat by (done || lia). cbn. by rewrite K5.
    + eapply d_generic; [by apply Hin|by rewrite Hg|done|by rewrite Hg].
Qed.

(** A string or class reference just interned. *)
Lemma interned_string name s s' i :
  on_asm (S := SigState R) (E := E) (alloc_string name) s = (s', Ok i) -> until s' ->
  moves s s' /\ strings final !! slot i = Some name.
Proof.
  intros Ha Hu. pose proof (on_asm_moves (E := E) _ (alloc_string_extends (E := E) name) s) as K.
  rewrite Ha in K. split; [done|]. apply on_asm_ok in Ha. unfold alloc_string, intern_in in Ha.
  destruct (arena_intern _ _) as [[vs [j b]]| | |] eqn:Hi; try done. injection Ha as Ha <-.
  apply arena_intern_spec in Hi as (_ & Hi & _). eapply until_string; [exact Hu|].
  unfold asm_of in Ha. cbn in Ha. by rewrite <- Ha.
Qed.

Lemma interned_class cr s s' c :
  on_asm (S := SigState R) (E := E) (alloc_class_ref cr) s = (s', Ok c) -> until s' ->
  moves s s' /\ class_refs final !! slot c = Some cr.
Proof.
  intros Ha Hu. pose proof (on_asm_moves (E := E) _ (alloc_class_ref_extends (E := E) cr) s) as K.
  rewrite Ha in K. split; [done|]. apply on_asm_ok in Ha. unfold alloc_class_ref, intern_in in Ha.
  destruct (arena_intern _ _) as [[vs [j b]]| | |] eqn:Hi; try done. injection Ha as Ha <-.
  apply arena_intern_spec in Hi as (_ & Hi & _). eapply until_class; [exact Hu|].
  unfold asm_of in Ha. cbn in Ha. by rewrite <- Ha.
Qed.

(** Running a computation of the assembly in steps or at once is the same. *)
Lemma on_asm_bind {A B} (m : ST Assembly E A) (k : A -> ST Assembly E B) (s s' : SigState R) b :
  on_asm (m ≫= k) s = (s', Ok b) ->
  exists s1 a, on_asm m s = (s1, Ok a) /\ on_asm (k a) s1 = (s', Ok b).
Proof.
  unfold on_asm. destruct ((m ≫= k) _) as [a o] eqn:Hr. intros [= <- ->].
  apply st_bind_ok in Hr as (a1 & x & Hm & Hk). cbn in *. rewrite Hm. eexists _, x. split; [done|].
  cbn. by rewrite Hk.
Qed.

Lemma non_void_writes : writes param_denotes ty_ok (encode_non_void_type enc).
Proof.
  intros t s s' bs Ht Hu. unfold encode_non_void_type.
  assert (t <> Ty.Void -> enc t s = (s', Ok bs) -> exists st, parses st bs /\ param_denotes t st) as Hother.
  { intros Hn Hrun. destruct (Henc t s s' bs Ht Hu Hrun) as (st & ? & ?). exists st.
    split; [done|by constructor]. }
  destruct t; try (by apply Hother).
  intros (s1 & i & H1 & H2)%st_bind_ok. apply st_bind_ok in H2 as (s2 & c & H2 & H3).
  pose proof (encode_class_moves enc Hmoves c true s2) as K3. rewrite H3 in K3. cbn in K3.
  assert (until s2) as Hu2 by (by etrans).
  destruct (interned_class _ _ _ _ H2 Hu2) as [K2 Hc].
  destruct (interned_string _ _ _ _ H1 ltac:(by etrans)) as [_ Hi].
  destruct (class_writes c true s2 s' bs Hu H3) as (st & ? & ?). exists st. split; [done|].
  eapply d_void; [|done]. eexists. by split_and!.
Qed.

Lemma method_writes conv gp sig s s' bs :
  (Z.land conv SIG_GENERIC =? 0) = (gp =? 0) -> 0 <= gp ->
  ty_ok (output sig) -> Forall ty_ok (inputs sig) -> until s' ->
  encode_method_sig enc conv gp sig s = (s', Ok bs) ->
  exists ret params, denotes (output sig) ret /\ Forall2 param_denotes (inputs sig) params /\
    (0 < length bs)%nat /\
    forall rest f, (length bs <= S f)%nat ->
      parse_method (parse_type f) (bs ++ rest) = Some (conv, gp, ret, params, rest).
Proof.
  intros Hconv Hgp Hout Hin Hu (s1 & gb & Hg & H1)%st_bind_ok.
  assert (s1 = s /\ forall rest, (if Z.land conv SIG_GENERIC =? 0 then Some (0, gb ++ rest)
            else read_compressed_u32 (gb ++ rest)) = Some (gp, rest)) as [-> Hgr].
  { rewrite Hconv. destruct (Z.eqb_spec gp 0) as [->|]; cbn in Hg.
    - by injection Hg as <- <-.
    - by apply compressed_ok in Hg. }
  apply st_bind_ok in H1 as (s2 & nb & [-> Hn]%compressed_len_ok & H1).
  apply st_bind_ok in H1 as (s3 & rb & Hr & H1). apply st_bind_ok in H1 as (s4 & ps & Hp & [= <- <-]).
  assert (forall t, steps moves (encode_non_void_type enc t)) as Hnv by (intros; by apply encode_non_void_moves).
  pose proof (steps_map_st moves _ (inputs sig) Hnv s3) as K. rewrite Hp in K. cbn in K.
  destruct (Henc (output sig) s s3 rb Hout ltac:(by etrans) Hr) as (ret & Hpr & Hdr).
  destruct (map_writes param_denotes ty_ok _ _ s3 s4 ps non_void_writes Hnv Hin Hu Hp) as (sts & Hps & Hds).
  exists ret, sts. split_and!; [done|done|cbn; lia|]. intros rest f. cbn [length]. rewrite !length_app.
  intros Hf. cbn [app parse_method]. rewrite <- !app_assoc, Hgr. cbn. rewrite Hn. cbn.
  rewrite (proj2 Hpr) by lia. cbn. rewrite Nat2Z.id, (Forall2_length Hds), parse_many_concat by (done || lia).
  done.
Qed.
End with_types.

Lemma value_class_writes fuel t name asm_name generics m s s' bs :
  lowered t = Some (name, asm_name, generics) -> writes denotes ty_ok (encode_type fuel) -> until s' ->
  (forall s s' c, on_asm (S := SigState R) (E := E) m s = (s', Ok c) -> until s' ->
     names_class final c name asm_name generics) ->
  (cref ← on_asm m; encode_class (encode_type fuel) cref true) s = (s', Ok bs) ->
  exists st, parses st bs /\ denotes t st.
Proof.
  intros Hl IH Hu Hm (s1 & c & H1 & H2)%st_bind_ok.
  assert (forall t, steps moves (encode_type (E := E) fuel t)) as Hmoves by (intros; apply encode_type_moves).
  pose proof (encode_class_moves _ Hmoves c true s1) as K. rewrite H2 in K. cbn in K.
  destruct (class_writes _ Hmoves IH c true s1 s' bs Hu H2) as (st & ? & ?). exists st.
  split; [done|]. eapply d_lowered; [exact Hl| |done]. eapply Hm; [exact H1|]. by etrans.
Qed.

Lemma bcl_class_names name s s' c :
  on_asm (S := SigState R) (E := E) (bcl_class name "System.Runtime" true) s = (s', Ok c) -> until s' ->
  names_class final c name (Some "System.Runtime"%string) [].
Proof.
  intros (s1 & i & H1 & Hr)%on_asm_bind Hu. apply on_asm_bind in Hr as (s2 & j & H2 & H3).
  destruct (interned_class _ _ _ _ H3 Hu) as [K3 Hc].
  destruct (interned_string _ _ _ _ H2 ltac:(by etrans)) as [K2 Hj].
  destruct (interned_string _ _ _ _ H1 ltac:(etrans; [|etrans]; eassumption)) as [_ Hi].
  eexists. by split_and!.
Qed.

Lemma f128_names s s' c :
  on_asm (S := SigState R) (E := E) (name ← alloc_string "f128";
    alloc_class_ref {| cr_name := name; cr_asm := None; cr_is_valuetype := true; cr_generics := [] |}) s =
    (s', Ok c) -> until s' ->
  names_class final c "f128" None [].
Proof.
  intros (s1 & i & H1 & H3)%on_asm_bind Hu.
  destruct (interned_class _ _ _ _ H3 Hu) as [K3 Hc].
  destruct (interned_string _ _ _ _ H1 ltac:(by etrans)) as [_ Hi].
  eexists. by split_and!.
Qed.

Lemma simd_class_names v s s' c :
  on_asm (S := SigState R) (E := E) (simd_class v) s = (s', Ok c) -> until s' ->
  names_class final c ("System.Runtime.Intrinsics.Vector" +:+ pretty (Simd.bits v))
    (Some "System.Runtime.Intrinsics"%string) [Ty.of_simd_elem (Simd.v_elem v)].
Proof.
  intros (s1 & i & H1 & Hr)%on_asm_bind Hu. apply on_asm_bind in Hr as (s2 & j & H2 & H3).
  destruct (interned_class _ _ _ _ H3 Hu) as [K3 Hc].
  destruct (interned_string _ _ _ _ H2 ltac:(by etrans)) as [K2 Hj].
  destruct (interned_string _ _ _ _ H1 ltac:(etrans; [|etrans]; eassumption)) as [_ Hi].
  eexists. by split_and!.
Qed.

(** The collapse of [System.Object] and [System.String]. *)
Lemma collapsed_ok s c o cr :
  collapsed (E := E) (sg_asm s) c = Ok o -> class_refs (sg_asm s) !! slot c = Some cr -> until s ->
  match o with
  | Some et => short_form final cr et /\ is_primitive et = true
  | None => forall et, ~ short_form final cr et
  end.
Proof.
  unfold collapsed, short_form. intros (cr' & Hcr%arena_get_ok & Hr)%bind_ok Hcr' Hu.
  rewrite Hcr in Hcr'. injection Hcr' as ->.
  destruct (cr_is_valuetype cr); [injection Hr as <-; by intros et (? & _)|].
  destruct (cr_generics cr); [|injection Hr as <-; by intros et (_ & ? & _)].
  apply bind_ok in Hr as (name & Hn%arena_get_ok & [= <-]). apply (until_string _ _ _ Hu) in Hn.
  destruct (String.eqb_spec name "System.Object") as [->|Ho]; [by split; [split_and!; [..|left]|]|].
  destruct (String.eqb_spec name "System.String") as [->|Hs]; [by split; [split_and!; [..|right]|]|].
  intros et (_ & _ & [[H1 _]|[H1 _]]); congruence.
Qed.

Lemma encode_type_writes fuel : writes denotes ty_ok (encode_type (E := E) fuel).
Proof.
  induction fuel as [|fuel IH]; intros t s s' bs Ht Hu; [done|]. cbn [encode_type]. cbv zeta.
  assert (forall b, primitive t = Some b -> is_primitive b = true ->
            (mret [b] : ST (SigState R) E _) s = (s', Ok bs) -> exists st, parses st bs /\ denotes t st) as Hprim.
  { intros b Hp Hb [= _ <-]. exists (SigPrim b). split; [by apply parses_byte|by constructor]. }
  assert (Hmoves : forall t, steps moves (encode_type (E := E) fuel t)) by (intros; apply encode_type_moves).
  assert (forall i s1 ib, until s1 ->
      (t ← reads (fun s => get_type (sg_asm s) i); encode_type (E := E) fuel t) s = (s1, Ok ib) ->
      exists t' st, types final !! slot i = Some t' /\ parses st ib /\ denotes t' st) as Hid.
  { intros i s1 ib Hu1 (s2 & t' & Ht' & Hr)%st_bind_ok. injection Ht' as <- Ht'%arena_get_ok.
    pose proof (Hmoves t' s) as K. rewrite Hr in K. cbn in K.
    apply (until_type _ _ _ ltac:(by etrans)) in Ht'.
    destruct (IH t' s s1 ib) as (st & ? & ?); [by eapply ok_types|done|done|]. by exists t', st. }
  destruct t as [i|i|int|c|float| | |idx k| | | |i dims|sg|v]; try (by eapply Hprim).
  - intros (s1 & ib & H1 & [= <- <-])%st_bind_ok. destruct (Hid i s1 ib Hu H1) as (t' & st & ? & ? & ?).
    exists (SigPtr st). split; [by apply (parses_prefixed SigPtr)|by econstructor].
  - intros (s1 & ib & H1 & [= <- <-])%st_bind_ok. destruct (Hid i s1 ib Hu H1) as (t' & st & ? & ? & ?).
    exists (SigByRef st). split; [by apply (parses_prefixed SigByRef)|by econstructor].
  - destruct int; try (by eapply Hprim); intros Hr;
      (eapply value_class_writes; [reflexivity|exact IH|exact Hu|apply bcl_class_names|exact Hr]).
  - intros (s1 & o & Ho & Hr)%st_bind_ok. injection Ho as <- Ho.
    assert (exists cr, class_refs (sg_asm s) !! slot c = Some cr) as [cr Hcr].
    { unfold collapsed in Ho. apply bind_ok in Ho as (cr & Hcr%arena_get_ok & _). by exists cr. }
    destruct o as [et|].
    + injection Hr as <- <-. destruct (collapsed_ok _ _ _ _ Ho Hcr Hu) as [Hs Hp].
      exists (SigPrim et). split; [by apply parses_byte|]. econstructor; [by eapply until_class|done].
    + apply st_bind_ok in Hr as (s1 & cr' & Hcr' & Hr). injection Hcr' as <- Hcr'%arena_get_ok.
      rewrite Hcr in Hcr'. injection Hcr' as <-.
      pose proof (encode_class_moves _ Hmoves c (cr_is_valuetype cr) s) as K. rewrite Hr in K. cbn in K.
      assert (until s) as Hu0 by (by etrans).
      destruct (class_writes _ Hmoves IH c _ s s' bs Hu Hr) as (st & ? & ?). exists st. split; [done|].
      eapply d_class; [by eapply until_class| |done]. by eapply (collapsed_ok _ _ None).
  - destruct float; try (by eapply Hprim); intros Hr;
      (eapply value_class_writes; [reflexivity|exact IH|exact Hu| |exact Hr]).
    + apply bcl_class_names.
    + apply f128_names.
  - assert (forall b mk, (forall f l, parse_type (S f) (b :: l) =
                '(idx, l) ← read_compressed_u32 l; Some (mk idx, l)) ->
        (bytes ← compressed idx; mret (b :: bytes) : ST (SigState R) E _) s = (s', Ok bs) ->
        parses (mk idx) bs) as Hvar.
    { intros b mk Hb (s1 & ib & [-> Hread]%compressed_ok & [= <- <-])%st_bind_ok; [|done].
      split; [done|]. intros rest [|f]; cbn [length]; [lia|]. intros _. cbn [app]. by rewrite Hb, Hread. }
    destruct k; intros Hr; eexists; (split; [eapply Hvar; [|exact Hr]|]); try done;
      by constructor.
  - destruct (Z.eqb_spec dims 1) as [->|Hd].
    + intros (s1 & ib & H1 & [= <- <-])%st_bind_ok. destruct (Hid i s1 ib Hu H1) as (t' & st & ? & ? & ?).
      exists (SigSzArray st). split; [by apply (parses_prefixed SigSzArray)|by econstructor].
    + intros (s1 & ib & H1 & Hr)%st_bind_ok.
      apply st_bind_ok in Hr as (s2 & rb & [-> Hrank]%compressed_ok & Hr); [|exact Ht].
      apply st_bind_ok in Hr as (s2 & zb & [-> Hz]%compressed_ok & Hr); [|done].
      apply st_bind_ok in Hr as (s2 & yb & [-> Hy]%compressed_ok & [= <- <-]); [|done].
      destruct (Hid i s1 ib Hu H1) as (t' & st & ? & [_ Hp] & ?).
      exists (SigArray st dims). split; [|by econstructor]. split; [done|].
      intros rest [|f]; cbn [length]; [lia|]. rewrite !length_app. intros Hf. cbn [app].
      rewrite <- !app_assoc. cbn. rewrite Hp by lia. cbn. rewrite Hrank. cbn. rewrite Hz. cbn. by rewrite Hy.
  - intros (s1 & sig & Hs & Hr)%st_bind_ok. injection Hs as <- Hs%arena_get_ok.
    apply st_bind_ok in Hr as (s1 & mb & Hr & [= <- <-]).
    pose proof (encode_method_moves _ Hmoves SIG_DEFAULT 0 sig s) as K. rewrite Hr in K. cbn in K.
    apply (until_sig _ _ _ ltac:(by etrans)) in Hs.
    destruct (method_writes _ Hmoves IH SIG_DEFAULT 0 sig s s1 mb) as (ret & ps & Hd1 & Hd2 & Hlen & Hp);
      [done|done|by eapply ok_output|by eapply ok_inputs|done|done|].
    exists (SigFnPtr SIG_DEFAULT 0 ret ps). split; [|by econstructor]. split; [done|].
    intros rest [|f]; cbn [length]; [lia|]. intros Hf. cbn [app].
    cbn [parse_type is_primitive]. cbn. rewrite Hp by lia. done.
  - intros Hr. eapply value_class_writes; [reflexivity|exact IH|exact Hu|apply simd_class_names|exact Hr].
Qed.
End roundtrip.

(** ** Termination *)

(** The ids a type holds are in the assembly. *)
Definition mentions_in (asm : Assembly) (t : Ty.t) : Prop :=
  match t with
  | Ty.Ptr i | Ty.Ref i | Ty.PlatformArray i _ => (slot i < length (types asm))%nat
  | Ty.ClassRef c => (slot c < length (class_refs asm))%nat
  | Ty.FnPtr s => (slot s < length (sigs asm))%nat
  | _ => True
  end.

(** Ranks that decrease along the types, classes and signatures a type mentions. *)
Record sig_ranks (asm : Assembly) := {
  rk_type : Interned KType -> nat;
  rk_class : Interned KClassRef -> nat;
  rk_sig : Interned KSig -> nat;
  rk t := match t with
    | Ty.Ptr i | Ty.Ref i | Ty.PlatformArray i _ => S (rk_type i)
    | Ty.ClassRef c => S (rk_class c)
    | Ty.FnPtr s => S (rk_sig s)
    | Ty.SIMDVector _ => 1%nat
    | _ => O
    end;
  rk_type_dec i t : types asm !! slot i = Some t -> mentions_in asm t /\ (rk t <= rk_type i)%nat;
  rk_class_dec c cr : class_refs asm !! slot c = Some cr ->
    Forall (fun g => mentions_in asm g /\ (rk g <= rk_class c)%nat) (cr_generics cr);
  rk_sig_dec s sig : sigs asm !! slot s = Some sig ->
    Forall (fun t => mentions_in asm t /\ (rk t <= rk_sig s)%nat) (output sig :: inputs sig) }.

Section termination.
Context {R : Type} `{ResolverLaws R} {E : Type} (base : Assembly) (K : sig_ranks base).

Local Notation rank := (rk base K).
Local Notation later_than s := (extends base (sg_asm s)).

(** [enc] ends on the types of the base assembly of at most this rank. *)
Definition ends_below (n : nat) (enc : Ty.t -> ST (SigState R) E (list Z)) : Prop :=
  forall t s, (rank t <= n)%nat -> mentions_in base t -> later_than s -> fuelled (snd (enc t s)).

Lemma resolve_st_fuelled c (s : SigState R) : fuelled (snd (resolve (E := E) c s)).
Proof.
  unfold resolve. pose proof (resolve_fuelled (E := E) c (sg_resolver s) (sg_asm s)) as Hf.
  by destruct (type_def_or_ref c _) as [[? ?] ?].
Qed.

Lemma compressed_fuelled v (s : SigState R) : fuelled (snd (compressed (E := E) v s)).
Proof. unfold compressed, lift, write_compressed_u32. cbn. by repeat case_match. Qed.

Lemma compressed_len_fuelled n (s : SigState R) : fuelled (snd (compressed_len (E := E) n s)).
Proof.
  apply fuelled_st_step; [unfold lift, expect_u32; cbn; by case_match|]. intros. apply compressed_fuelled.
Qed.

Lemma arena_fuelled {k V} `{!EqDecision V} (arena : Assembly -> list V) set v (s : SigState R) :
  fuelled (snd (on_asm (E := E) (A := Interned k) (intern_in arena set v) s)).
Proof.
  unfold on_asm, intern_in, arena_intern. cbn.
  destruct (arena_find _ _) as [n|]; cbn.
  - by destruct (id_for_zero_based n).
  - by destruct (id_for_zero_based _).
Qed.

Lemma map_st_fuelled {A} (enc : A -> ST (SigState R) E (list Z)) (P : A -> Prop) l s :
  (forall t, steps moves (enc t)) ->
  (forall t s, P t -> later_than s -> fuelled (snd (enc t s))) ->
  Forall P l -> later_than s -> fuelled (snd (map_st enc l s)).
Proof.
  intros Hm He Hl. revert s. induction Hl as [|t l Ht _ IH]; intros s Hs; cbn [map_st]; [done|].
  apply fuelled_st_step; [by apply He|]. intros s1 bs H1.
  pose proof (Hm t s) as [Hx _]. rewrite H1 in Hx. cbn in Hx.
  apply fuelled_st_step; [apply IH; by etrans|]. done.
Qed.

Section with_types.
Context (enc : Ty.t -> ST (SigState R) E (list Z)) (Hmoves : forall t, steps moves (enc t)).

(** [enc] ends on a type. *)
Definition ends (t : Ty.t) : Prop := forall s, later_than s -> fuelled (snd (enc t s)).

Lemma class_fuelled c vt s :
  (forall cr, class_refs (sg_asm s) !! slot c = Some cr -> Forall ends (cr_generics cr)) ->
  later_than s -> fuelled (snd (encode_class enc c vt s)).
Proof.
  intros Hg Hs. unfold encode_class. cbv zeta. apply fuelled_st_step.
  { unfold reads, class_ref. cbn. apply fuelled_unwrap. }
  intros s1 cr [= <- Hcr%arena_get_ok]. specialize (Hg cr Hcr).
  destruct (cr_generics cr) as [|g gs].
  - apply fuelled_st_step; [apply resolve_st_fuelled|]. intros s1 code _.
    apply fuelled_st_step; [apply compressed_fuelled|]. done.
  - apply fuelled_st_step; [apply resolve_st_fuelled|]. intros s1 code H1.
    pose proof (resolve_moves (E := E) c s) as [Hx _]. rewrite H1 in Hx. cbn in Hx.
    apply fuelled_st_step; [apply compressed_fuelled|]. intros s2 cb H2.
    assert (s2 = s1) as -> by (by injection H2).
    apply fuelled_st_step; [apply compressed_len_fuelled|]. intros s2 nb H3.
    assert (s2 = s1) as -> by (by apply compressed_len_ok in H3 as [? _]).
    apply fuelled_st_step; [|done].
    eapply map_st_fuelled; [done| |exact Hg|by etrans]. intros t s2 Ht. apply Ht.
Qed.

Lemma param_fuelled t s :
  ends t -> later_than s -> fuelled (snd (encode_non_void_type enc t s)).
Proof.
  intros Ht Hs. unfold encode_non_void_type. destruct t; try (by apply Ht).
  apply fuelled_st_step; [apply arena_fuelled|]. intros s1 i H1.
  pose proof (on_asm_moves (E := E) _ (alloc_string_extends (E := E) "RustVoid") s) as [Hx _].
  rewrite H1 in Hx. cbn in Hx.
  apply fuelled_st_step; [apply arena_fuelled|]. intros s2 c H2.
  set (cr := mk_ClassRef i None true []) in H2.
  pose proof (on_asm_moves (E := E) _ (alloc_class_ref_extends (E := E) cr) s1) as [Hy _].
  rewrite H2 in Hy. cbn in Hy.
  apply class_fuelled; [|by etrans; [|etrans]]. intros cr' Hcr'.
  destruct (interned_class (E := E) (sg_asm s2) (sg_resolver s2) cr s1 s2 c H2) as [_ Hc]; [by destruct s2|].
  rewrite Hc in Hcr'. injection Hcr' as <-. constructor.
Qed.
End with_types.

(** A scalar that is a value class. *)
Lemma value_class_fuelled enc m name asm_name generics (s : SigState R) :
  (forall t, steps moves (enc t)) -> Forall (ends enc) generics -> steps extends m ->
  (forall s, fuelled (snd (on_asm (S := SigState R) (E := E) m s))) ->
  (forall final r s s' c, on_asm (S := SigState R) (E := E) m s = (s', Ok c) ->
     moves s' (mk_SigState final r) -> names_class final c name asm_name generics) ->
  later_than s -> fuelled (snd ((cref ← on_asm m; encode_class enc cref true) s)).
Proof.
  intros Hmoves Hg Hext Hf Hn Hs. apply fuelled_st_step; [apply Hf|]. intros s1 c H1.
  pose proof (on_asm_moves (E := E) m Hext s) as [Hx _]. rewrite H1 in Hx. cbn in Hx.
  apply class_fuelled; [done| |by etrans]. intros cr Hc.
  destruct (Hn (sg_asm s1) (sg_resolver s1) _ _ _ H1) as (cr' & Hc' & _ & <- & _).
  { destruct s1. split; cbn; reflexivity. }
  rewrite Hc in Hc'. by injection Hc' as <-.
Qed.

Lemma on_asm_fuelled_bind {A B} (m : ST Assembly E A) (k : A -> ST Assembly E B) (s : SigState R) :
  (forall s, fuelled (snd (on_asm (S := SigState R) m s))) ->
  (forall a s, fuelled (snd (on_asm (S := SigState R) (k a) s))) ->
  fuelled (snd (on_asm (S := SigState R) (m ≫= k) s)).
Proof.
  intros Hm Hk. specialize (Hm s). unfold on_asm in *. cbn in *. unfold mbind, ST_bind.
  destruct (m (sg_asm s)) as [a1 [x| | |]]; cbn in *; try done.
  specialize (Hk x (mk_SigState a1 (sg_resolver s))). cbn in Hk. by destruct (k x a1).
Qed.

Lemma encode_type_ends fuel n : (n < fuel)%nat -> ends_below n (encode_type (E := E) fuel).
Proof.
  revert n. induction fuel as [|fuel IH]; intros n Hn t s Hr Hm Hs; [lia|]. cbn [encode_type]. cbv zeta.
  assert (Hmoves : forall t, steps moves (encode_type (E := E) fuel t)) by (intros; apply encode_type_moves).
  assert (Hid : forall i s, (rk_type base K i < fuel)%nat -> (slot i < length (types base))%nat -> later_than s ->
      fuelled (snd ((t ← reads (fun s => get_type (sg_asm s) i); encode_type (E := E) fuel t) s))).
  { intros i s1 Hi Hl Hs1. apply fuelled_st_step; [apply fuelled_unwrap|].
    intros s2 t' [= <- Ht'%arena_get_ok]. destruct (lookup_lt_is_Some_2 _ _ Hl) as [t0 Ht0].
    pose proof (prefix_lookup_Some _ _ _ _ Ht0 (ext_types _ _ Hs1)) as Ht1. rewrite Ht1 in Ht'.
    injection Ht' as <-. destruct (rk_type_dec base K _ _ Ht0) as [? ?].
    apply (IH (rk_type base K i)); done. }
  assert (Hends : forall t, (rank t < fuel)%nat -> mentions_in base t -> ends (encode_type (E := E) fuel) t).
  { intros t' Hr' Hm' s' Hs'. by apply (IH (rank t')). }
  destruct t as [i|i|int|c|float| | |idx k| | | |i dims|sg|v]; try done; cbn in Hr.
  - apply fuelled_st_step; [apply Hid; [lia|done|done]|done].
  - apply fuelled_st_step; [apply Hid; [lia|done|done]|done].
  - destruct int; try done;
      (eapply value_class_fuelled; [done|constructor|steps_tac| |intros; by eapply bcl_class_names|done]);
      intros; repeat (apply on_asm_fuelled_bind; intros); apply arena_fuelled.
  - apply fuelled_st_step.
    { unfold reads, collapsed, class_ref, get_string. cbn. apply fuelled_bind; [apply fuelled_unwrap|].
      intros cr _. destruct (cr_is_valuetype cr), (cr_generics cr); try done.
      apply fuelled_bind; [apply fuelled_unwrap|done]. }
    intros s1 [et|] [= <- _]; [done|]. apply fuelled_st_step; [apply fuelled_unwrap|].
    intros s1 cr [= <- Hcr%arena_get_ok]. apply class_fuelled; [done| |done].
    intros cr' Hcr'. rewrite Hcr in Hcr'. injection Hcr' as <-.
    destruct (lookup_lt_is_Some_2 _ _ Hm) as [c0 Hc0].
    pose proof (prefix_lookup_Some _ _ _ _ Hc0 (ext_class_refs _ _ Hs)) as Hc1.
    rewrite Hcr in Hc1. injection Hc1 as <-. pose proof (rk_class_dec base K _ _ Hc0) as Hg.
    eapply list.Forall_impl; [exact Hg|]. intros g [? ?]. apply Hends; [|done]. lia.
  - destruct float; try done.
    + eapply value_class_fuelled; [done|constructor|steps_tac| |intros; by eapply bcl_class_names|done].
      intros; repeat (apply on_asm_fuelled_bind; intros); apply arena_fuelled.
    + eapply value_class_fuelled; [done|constructor|steps_tac| |intros; by eapply f128_names|done].
      intros; repeat (apply on_asm_fuelled_bind; intros); apply arena_fuelled.
  - destruct k; (apply fuelled_st_step; [apply compressed_fuelled|done]).
  - destruct (dims =? 1).
    + apply fuelled_st_step; [apply Hid; [lia|done|done]|done].
    + apply fuelled_st_step; [apply Hid; [lia|done|done]|]. intros.
      repeat (apply fuelled_st_step; [apply compressed_fuelled|intros]). done.
  - apply fuelled_st_step; [apply fuelled_unwrap|]. intros s1 sig [= <- Hsig%arena_get_ok].
    destruct (lookup_lt_is_Some_2 _ _ Hm) as [s0 Hs0].
    pose proof (prefix_lookup_Some _ _ _ _ Hs0 (ext_sigs _ _ Hs)) as Hs1.
    rewrite Hsig in Hs1. injection Hs1 as <-.
    pose proof (rk_sig_dec base K _ _ Hs0) as [[? ?] Hin]%list.Forall_cons.
    apply fuelled_st_step; [|done]. unfold encode_method_sig. apply fuelled_st_step; [done|].
    intros s1 gb [= <- <-]. apply fuelled_st_step; [apply compressed_len_fuelled|].
    intros s1 nb [-> _]%compressed_len_ok.
    apply fuelled_st_step; [apply Hends; [lia|done|done]|]. intros s2 rb Hret.
    pose proof (Hmoves (output sig) s) as [Hx _]. rewrite Hret in Hx. cbn in Hx.
    apply fuelled_st_step; [|done].
    apply (map_st_fuelled _ (ends (encode_type (E := E) fuel)));
      [intros; by apply encode_non_void_moves|intros; by apply param_fuelled| |by etrans].
    eapply list.Forall_impl; [exact Hin|]. intros g [? ?]. apply Hends; [|done]. lia.
  - eapply value_class_fuelled; [done| |apply simd_class_extends| |intros; by eapply simd_class_names|done].
    + constructor; [|constructor]. apply Hends; [|by destruct (Simd.v_elem v)].
      destruct (Simd.v_elem v); cbn; lia.
    + intros; repeat (apply on_asm_fuelled_bind; intros); apply arena_fuelled.
Qed.
End termination.

(** ** Properties *)

Section properties.
Context {R : Type} `{ResolverLaws R} {E : Type}.

(** C32: a method signature, followed by anything, decodes as its convention, its generic count, what
    its return type denotes and what its parameters denote, a [void] parameter being the value class
    [RustVoid]; class indices are those of the resolver the writer ends with. *)
Theorem method_signature_roundtrip final r fuel conv gp sig s s' bs :
  types_ok final -> moves s' (mk_SigState final r) ->
  (Z.land conv SIG_GENERIC =? 0) = (gp =? 0) -> 0 <= gp ->
  ty_ok (output sig) -> Forall ty_ok (inputs sig) ->
  encode_method_sig (E := E) (encode_type fuel) conv gp sig s = (s', Ok bs) ->
  exists ret params, denotes final r (output sig) ret /\
    Forall2 (param_denotes final r) (inputs sig) params /\
    forall rest f, (length bs <= S f)%nat ->
      parse_method (parse_type f) (bs ++ rest) = Some (conv, gp, ret, params, rest).
Proof.
  intros Hok Hu Hc Hgp Ho Hi Hr.
  destruct (method_writes (E := E) final r Hok _ (encode_type_moves fuel)
    (encode_type_writes final r Hok fuel) conv gp sig s s' bs Hc Hgp Ho Hi Hu Hr)
    as (ret & params & ? & ? & _ & ?). by exists ret, params.
Qed.

Lemma param_never_void asm r t st : param_denotes asm r t st -> st <> SigPrim ET_VOID.
Proof.
  intros Hp. destruct Hp as [t st Ht Hd|c st Hn Hc]; [|by destruct Hc].
  destruct Hd as [t b Hb| ? ? ? ? ? ? ? ? Hc| | |c cr et Hcr (_ & _ & [[_ ->]|[_ ->]])
                 |? ? ? ? ? Hc| | | | |]; try done; try (by destruct Hc).
  intros [= ->]. destruct t; try done; [by destruct int|by destruct float].
Qed.


(** C36: encoding a type recurses at most as deep as its rank among the types, classes and signatures
    of the assembly, whatever the resolver interns in the meantime. *)
Theorem encode_type_terminates base (K : sig_ranks base) fuel t s :
  (rk base K t < fuel)%nat -> mentions_in base t -> extends base (sg_asm s) ->
  fuelled (snd (encode_type (E := E) fuel t s)).
Proof. intros Hr Hm Hs. by apply (encode_type_ends base K fuel (rk base K t)). Qed.
End properties.

(** ** Witnesses *)

(** A resolver that gives each class it is asked for the next row of one table of references. *)
#[export] Instance row_resolver : TypeDefOrRefResolver (list (Interned KClassRef)) := {|
  type_def_or_ref _ c '(rows, asm) :=
    match list_find (fun d => c = d) rows with
    | Some (i, _) => ((rows, asm), Ok (4 * (Z.of_nat i + 1) + 1))
    | None => ((rows ++ [c], asm), Ok (4 * (Z.of_nat (length rows) + 1) + 1))
    end |}.

#[export] Program Instance row_resolver_laws : ResolverLaws (list (Interned KClassRef)) := {|
  later := prefix;
  resolves rows c code := exists i, rows !! i = Some c /\ code = 4 * (Z.of_nat i + 1) + 1 |}.
Next Obligation.
  intros E c r a r' a' o. cbn. destruct (list_find _ r) as [[i d]|]; intros [= <- <- <-]; (split; [done|]).
  - done.
  - by apply prefix_app_r.
Qed.
Next Obligation.
  intros E c r a r' a' code r''. cbn. destruct (list_find _ r) as [[i d]|] eqn:Hf; intros [= <- <- <-] Hl.
  - apply list_find_Some in Hf as (Hi & -> & _). split; [lia|]. exists i.
    split; [by eapply prefix_lookup_Some|done].
  - split; [lia|]. exists (length r). split; [|done]. eapply prefix_lookup_Some; [|exact Hl].
    by apply list_lookup_middle.
Qed.
Next Obligation. intros E c r a. cbn. by destruct (list_find _ r) as [[i d]|]. Qed.

#[export] Instance ty_ok_dec t : Decision (ty_ok t).
Proof. destruct t; cbn; apply _. Defined.

Lemma types_ok_alt asm :
  Forall ty_ok (types asm) -> Forall (fun c => Forall ty_ok (cr_generics c)) (class_refs asm) ->
  Forall (fun s => Forall ty_ok (output s :: inputs s)) (sigs asm) -> types_ok asm.
Proof.
  rewrite !list.Forall_lookup. intros Ht Hc Hs. split; [exact Ht|exact Hc|..].
  - intros i s Hi. by apply (Hs i), list.Forall_cons in Hi as [_ ?].
  - intros i s Hi. by apply (Hs i), list.Forall_cons in Hi as [? _].
Qed.

(** [bool (int32*, void, int128)] *)
Definition sig_sample : Assembly := set_types empty_assembly [Ty.Int Int.I32].
Definition sample_sig : FnSig :=
  {| inputs := [Ty.Ptr 1%positive; Ty.Void; Ty.Int Int.I128]; output := Ty.Bool |}.

Definition sig_run : SigState (list (Interned KClassRef)) * outcome unit (list Z) :=
  encode_method_sig (encode_type 3) SIG_HASTHIS 0 sample_sig (mk_SigState sig_sample []).
Definition sig_final : Assembly := sg_asm (fst sig_run).
Definition sig_rows : list (Interned KClassRef) := sg_resolver (fst sig_run).

Lemma sig_final_ok : types_ok sig_final.
Proof. apply types_ok_alt; by_decide. Qed.

Lemma method_signature_roundtrip_witness :
  snd sig_run = Ok [0x20; 3; 0x02; 0x0F; 0x08; 0x11; 5; 0x11; 9] /\
  exists ret params, denotes sig_final sig_rows Ty.Bool ret /\
    Forall2 (param_denotes sig_final sig_rows) (inputs sample_sig) params /\
    forall rest f, (9 <= S f)%nat ->
      parse_method (parse_type f) ([0x20; 3; 0x02; 0x0F; 0x08; 0x11; 5; 0x11; 9] ++ rest) =
      Some (SIG_HASTHIS, 0, ret, params, rest).
Proof.
  split; [vm_compute; reflexivity|].
  apply (method_signature_roundtrip (E := unit) sig_final sig_rows 3 SIG_HASTHIS 0 sample_sig
    (mk_SigState sig_sample []) (fst sig_run) [0x20; 3; 0x02; 0x0F; 0x08; 0x11; 5; 0x11; 9]).
  - exact sig_final_ok.
  - unfold sig_final, sig_rows. destruct (fst sig_run). split; cbn; reflexivity.
  - reflexivity.
  - lia.
  - exact I.
  - by_decide.
  - vm_compute. reflexivity.
Defined.


Lemma sig_sample_ranks : sig_ranks sig_sample.
Proof.
  refine {| rk_type := fun _ => 0%nat; rk_class := fun _ => 0%nat; rk_sig := fun _ => 0%nat |}.
  - intros i t. cbn. destruct (slot i) as [|[|]]; cbn; try done. by intros [= <-].
  - by intros c cr.
  - by intros c sig.
Defined.

Lemma encode_type_terminates_witness :
  fuelled (snd (encode_type (E := unit) 2 (Ty.Ptr 1%positive) (mk_SigState sig_sample []))).
Proof.
  apply (encode_type_terminates (E := unit) sig_sample sig_sample_ranks);
    [vm_compute; lia|vm_compute; lia|reflexivity].
Defined.
