(* ===== verification/ClassTheory.v ===== *)
(** * Descriptions of classes stay consistent, and merge in any order

    Whatever sequence of operations describes a class, its members keep unique names and its
    attributes stay duplicate-free, and an authoritative kind is final.  Merging the partial
    descriptions that codegen shards hold of one class depends on their order only in the order of
    the merged lists, and fails for one order exactly when it fails for all. *)

From S2P Require Import Prelude Interner Types Class.

(** ** Operations as steps *)

Section steps.
Context {E : Type}.

Inductive class_step : ClassDef -> ClassDef -> Prop :=
| step_add_interface d i : class_step d (add_interface d i)
| step_add_event d e : class_step d (add_event d e)
| step_add_property d p : class_step d (add_property d p)
| step_add_attribute d a : class_step d (add_custom_attribute d a)
| step_add_field_attribute d n s a : class_step d (add_field_custom_attribute d n s a)
| step_retain d f : class_step d (retain_member_metadata d f)
| step_interface d : class_step d (with_interface d)
| step_authoritative d : class_step d (with_valuetype_authoritative d)
| step_extends d e : class_step d (set_extends d e)
| step_valuetype d b d' : set_is_valuetype (E := E) d b = Ok d' -> class_step d d'
| step_names d l d' : with_type_generic_names (E := E) d l = Ok d' -> class_step d d'
| step_with_enum d e d' : with_enum (E := E) d e = Ok d' -> class_step d d'
| step_set_enum d e d' : set_enum_def (E := E) d e = Ok d' -> class_step d d'
| step_fixed_array d l d' : with_fixed_array_layout (E := E) d l = Ok d' -> class_step d d'.

(** The groups of field attributes: one group a field, none empty, no attribute twice. *)
Definition groups_ok (l : list (Interned KString * bool * list CustomAttrDef)) : Prop :=
  NoDup (fst <$> l) /\ Forall (fun g => snd g <> [] /\ NoDup (snd g)) l.

Record class_ok (d : ClassDef) : Prop := {
  co_implements : NoDup (cd_implements d);
  co_events : NoDup (ev_name <$> cd_events d);
  co_properties : NoDup (prop_name <$> cd_properties d);
  co_attributes : NoDup (cd_custom_attributes d);
  co_groups : groups_ok (cd_field_custom_attributes d);
  co_names : cd_generic_names d = [] \/ Z.of_nat (length (cd_generic_names d)) = cd_generics d }.

Lemma assert_ok b (u : unit) : assert (E := E) b = Ok u <-> b = true.
Proof. destruct b, u; cbn; split; congruence. Qed.

Lemma new_class_ok name vt g ex fs sfs acc sz al ov :
  class_ok (ClassDef_new name vt g ex fs sfs acc sz al ov).
Proof. split; cbn; try constructor; cbn; constructor. Qed.

Lemma existsb_name {A} (f : A -> positive) (n : positive) l :
  existsb (fun x => bool_decide (f x = n)) l = false -> n ∉ (f <$> l).
Proof.
  intros H [x [-> Hx]]%list_elem_of_fmap. pose proof (existsb_false _ _ H x Hx) as Hb. cbn in Hb.
  by rewrite bool_decide_eq_false in Hb.
Qed.

(** Adding under a name that is not taken. *)
Lemma add_named_NoDup {A} (f : A -> positive) (x : A) l :
  NoDup (f <$> l) -> existsb (fun y => bool_decide (f y = f x)) l = false -> NoDup (f <$> l ++ [x]).
Proof. intros Hl Hx. rewrite fmap_app. apply NoDup_snoc; [done|]. by apply existsb_name. Qed.

Lemma NoDup_fmap_filter {A B} (f : A -> B) (p : A -> bool) l :
  NoDup (f <$> l) -> NoDup (f <$> List.filter p l).
Proof.
  induction l as [|x l IH]; cbn; [done|]. intros [Hx Hl]%list.NoDup_cons.
  destruct (p x); cbn; [|by apply IH]. apply list.NoDup_cons. split; [|by apply IH].
  intros (y & Hy & Hin)%list_elem_of_fmap. apply Hx, list_elem_of_fmap. exists y. split; [done|].
  apply list_elem_of_In, filter_In in Hin as [? _]. by apply list_elem_of_In.
Qed.

Lemma is_group_true n s g : is_group n s g = true <-> fst g = (n, s).
Proof. apply bool_decide_eq_true. Qed.

Lemma push_attr_keys n s a l :
  fst <$> push_attr n s a l = (fst <$> l) \/
  ((n, s) ∉ (fst <$> l)) /\ fst <$> push_attr n s a l = (fst <$> l) ++ [(n, s)].
Proof.
  induction l as [|g l IH]; [right; split; [apply not_elem_of_nil|done]|].
  cbn [push_attr]. destruct (is_group n s g) eqn:Hg; [by left|].
  destruct IH as [IH|[Hn IH]]; rewrite fmap_cons; [left; by f_equal/=|right]. split; [|by f_equal/=].
  rewrite fmap_cons, not_elem_of_cons. split; [|done]. intros Heq.
  by rewrite (proj2 (is_group_true n s g)) in Hg.
Qed.

Lemma push_attr_ok n s a l :
  groups_ok l -> a ∉ concat (map snd (List.filter (is_group n s) l)) ->
  groups_ok (push_attr n s a l).
Proof.
  intros [Hk Hg] Ha. split.
  - destruct (push_attr_keys n s a l) as [->|[Hn ->]]; [done|]. by apply NoDup_snoc.
  - clear Hk. induction l as [|g l IH]; cbn [push_attr].
    + constructor; [|constructor]. split; [done|apply NoDup_singleton].
    + apply list.Forall_cons in Hg as [[Hne Hnd] Hg]. cbn [List.filter] in Ha.
      destruct (is_group n s g); cbn in Ha.
      * apply not_elem_of_app in Ha as [Ha _]. constructor; [|done]. cbn.
        split; [by destruct (snd g)|by apply NoDup_snoc].
      * constructor; [done|]. by apply IH.
Qed.

Lemma class_step_ok d d' : class_ok d -> class_step d d' -> class_ok d'.
Proof.
  intros [Hi He Hp Ha Hg Hn] Hs.
  destruct Hs as [d i|d e|d p|d a|d n s a|d f|d|d|d e|d b d' H|d l d' H|d e d' H|d e d' H|d l d' H].
  - unfold add_interface. case_bool_decide; split; cbn; try done. by apply NoDup_snoc.
  - unfold add_event. destruct (existsb _ _) eqn:Hx; split; try done. by apply add_named_NoDup.
  - unfold add_property. destruct (existsb _ _) eqn:Hx; split; try done. by apply add_named_NoDup.
  - unfold add_custom_attribute. case_bool_decide; split; cbn; try done. by apply NoDup_snoc.
  - unfold add_field_custom_attribute. case_bool_decide; split; cbn; try done. by apply push_attr_ok.
  - split; cbn; try done; by apply NoDup_fmap_filter.
  - by split.
  - by split.
  - by split.
  - unfold set_is_valuetype in H. destruct (cd_is_valuetype_authoritative d).
    + apply bind_ok in H as (_ & _ & [= <-]). by split.
    + injection H as <-. by split.
  - apply bind_ok in H as (u & Hb%assert_ok & [= <-]). split; cbn; try done.
    apply Z.eqb_eq in Hb. by right.
  - repeat apply bind_ok in H as (? & _ & H). injection H as <-. by split.
  - unfold set_enum_def in H. destruct (cd_enum_def d).
    + apply bind_ok in H as (_ & _ & [= <-]). by split.
    + injection H as <-. by split.
  - repeat apply bind_ok in H as (? & _ & H). injection H as <-. by split.
Qed.

Lemma class_steps_ok d d' : rtc class_step d d' -> class_ok d -> class_ok d'.
Proof. induction 1; [done|]. intros. by eauto using class_step_ok. Qed.

Lemma retained_members_live d f m :
  m ∈ iter_member_method_refs (retain_member_metadata d f) -> f m = true.
Proof.
  unfold iter_member_method_refs. cbn. intros [Hm|Hm]%elem_of_app.
  all: apply list_elem_of_In, in_concat in Hm as (l & (x & <- & Hx)%in_map_iff & Hm).
  all: apply filter_In in Hx as [_ [H1 H2]%andb_true_iff].
  - destruct Hm as [<-|[<-|[]]]; done.
  - apply in_app_iff in Hm as [Hm|Hm]; [destruct (prop_getter x)|destruct (prop_setter x)];
      (destruct Hm as [<-|[]] || destruct Hm); done.
Qed.

(** An authoritative kind is final. *)
Lemma class_step_kind d d' :
  class_step d d' -> cd_is_valuetype_authoritative d = true ->
  cd_is_valuetype_authoritative d' = true /\ cd_is_valuetype d' = cd_is_valuetype d.
Proof.
  intros Hs Hauth.
  destruct Hs as [d i|d e|d p|d a|d n s a|d f|d|d|d e|d b d' H|d l d' H|d e d' H|d e d' H|d l d' H];
    try (repeat apply bind_ok in H as (? & _ & H); injection H as <-); try done.
  - unfold add_interface. by case_bool_decide.
  - unfold add_event. by destruct (existsb _ _).
  - unfold add_property. by destruct (existsb _ _).
  - unfold add_custom_attribute. by case_bool_decide.
  - unfold add_field_custom_attribute. by case_bool_decide.
  - unfold set_is_valuetype in H. rewrite Hauth in H. by apply bind_ok in H as (_ & _ & [= <-]).
  - unfold set_enum_def in H. destruct (cd_enum_def d).
    + by apply bind_ok in H as (_ & _ & [= <-]).
    + by injection H as <-.
Qed.

Lemma class_steps_kind d d' :
  rtc class_step d d' -> cd_is_valuetype_authoritative d = true ->
  cd_is_valuetype d' = cd_is_valuetype d.
Proof.
  induction 1 as [|d d1 d' Hs _ IH]; [done|]. intros Ha.
  destruct (class_step_kind _ _ Hs Ha) as [Ha1 <-]. by apply IH.
Qed.
End steps.

(** ** Merging *)

Section merge.
Context {E : Type}.

(** Two optional opinions do not contradict each other. *)
Definition agree {A} (o1 o2 : option A) : Prop := forall x y, o1 = Some x -> o2 = Some y -> x = y.
Definition join {A} (o1 o2 : option A) : option A := match o1 with Some _ => o1 | None => o2 end.

Lemma merge_optional_alt {A} `{!EqDecision A} (o1 o2 : option A) :
  agree o1 o2 /\ merge_optional (E := E) o1 o2 = Ok (join o1 o2) \/
  ~ agree o1 o2 /\ merge_optional (E := E) o1 o2 = Panic.
Proof.
  unfold agree. destruct o1 as [x|], o2 as [y|]; cbn; try (left; split; [congruence|done]).
  case_bool_decide as Hx; cbn; [left; split; [congruence|done]|right; split; [|done]].
  intros H. by apply Hx, H.
Qed.

Lemma agree_join {A} (o1 o2 o3 : option A) :
  agree o1 o2 -> (agree (join o1 o2) o3 <-> agree o1 o3 /\ agree o2 o3).
Proof. unfold agree. destruct o1, o2; cbn; naive_solver. Qed.

Lemma agree_sym {A} (o1 o2 : option A) : agree o1 o2 <-> agree o2 o1.
Proof. unfold agree. split; intros H x y ? ?; symmetry; by apply H. Qed.

Lemma join_swap {A} (o1 o2 o3 : option A) : agree o2 o3 -> join (join o1 o2) o3 = join (join o1 o3) o2.
Proof. intros H. destruct o1, o2 as [x|], o3 as [y|]; cbn; try done. by rewrite (H x y). Qed.

Lemma join_comm {A} (o1 o2 : option A) : agree o1 o2 -> join o1 o2 = join o2 o1.
Proof. apply (join_swap None). Qed.

(** The parts every description of one class must share. *)
Definition identity (d : ClassDef) :=
  (cd_name d, cd_is_valuetype d, cd_generics d, cd_generic_names d, cd_is_interface d, cd_access d).

(** The parts a description may leave open. *)
Record opinions_agree (a b : ClassDef) : Prop := {
  oa_extends : agree (cd_extends a) (cd_extends b);
  oa_enum : agree (cd_enum_def a) (cd_enum_def b);
  oa_size : agree (cd_explict_size a) (cd_explict_size b);
  oa_align : agree (cd_align a) (cd_align b);
  oa_array : agree (cd_fixed_array_layout a) (cd_fixed_array_layout b) }.

Definition compatible (a b : ClassDef) : Prop :=
  identity a = identity b /\ opinions_agree a b /\ cd_methods b = [].

Definition joined (a b : ClassDef) : ClassDef :=
  {| cd_name := cd_name a; cd_is_valuetype := cd_is_valuetype a;
     cd_is_valuetype_authoritative := cd_is_valuetype_authoritative a || cd_is_valuetype_authoritative b;
     cd_generics := cd_generics a; cd_extends := join (cd_extends a) (cd_extends b);
     cd_implements := cd_implements a ++ cd_implements b; cd_fields := cd_fields a ++ cd_fields b;
     cd_static_fields := cd_static_fields a ++ cd_static_fields b; cd_methods := cd_methods a;
     cd_access := cd_access a; cd_explict_size := join (cd_explict_size a) (cd_explict_size b);
     cd_align := join (cd_align a) (cd_align b);
     cd_has_nonveralpping_layout := cd_has_nonveralpping_layout a && cd_has_nonveralpping_layout b;
     cd_is_interface := cd_is_interface a; cd_events := cd_events a ++ cd_events b;
     cd_generic_names := cd_generic_names a; cd_properties := cd_properties a ++ cd_properties b;
     cd_custom_attributes := cd_custom_attributes a ++ cd_custom_attributes b;
     cd_field_custom_attributes := cd_field_custom_attributes a ++ cd_field_custom_attributes b;
     cd_enum_def := join (cd_enum_def a) (cd_enum_def b);
     cd_fixed_array_layout := join (cd_fixed_array_layout a) (cd_fixed_array_layout b) |}.

Lemma assert_cases b (u : unit) :
  assert (E := E) b = Ok tt /\ b = true \/ assert (E := E) b = Panic /\ b = false.
Proof. destruct b; auto. Qed.

(** One assertion, or one optional opinion, of [merge_defs]. *)
Ltac merge_case :=
  match goal with
  | |- context [assert ?b] =>
      let H := fresh "Hb" in
      destruct (assert_cases b tt) as [[-> H]|[-> H]]; cbn [mbind outcome_bind];
      [rewrite ?bool_decide_eq_true, ?Z.eqb_eq in H
      |right; split; [rewrite ?bool_decide_eq_false, ?Z.eqb_neq in H|done]]
  | |- context [merge_optional ?x ?y] =>
      let H := fresh "Ha" in
      destruct (merge_optional_alt x y) as [[H ->]|[H ->]]; cbn [mbind outcome_bind];
      [|right; split; [|done]]
  end.

Lemma merge_defs_alt a b :
  compatible a b /\ merge_defs (E := E) a b = Ok (joined a b) \/
  ~ compatible a b /\ merge_defs (E := E) a b = Panic.
Proof.
  unfold merge_defs. repeat merge_case; unfold compatible, identity;
    try (intros [Hid [[] Hm]]; congruence); try (intros [Hid [[] Hm]]; done).
  left. split; [|done]. split_and!; [congruence|by split|done].
Qed.

(** Equal up to the order of the member lists. *)
Record class_equiv (a b : ClassDef) : Prop := {
  ce_identity : identity a = identity b;
  ce_authoritative : cd_is_valuetype_authoritative a = cd_is_valuetype_authoritative b;
  ce_extends : cd_extends a = cd_extends b;
  ce_enum : cd_enum_def a = cd_enum_def b;
  ce_size : cd_explict_size a = cd_explict_size b;
  ce_align : cd_align a = cd_align b;
  ce_array : cd_fixed_array_layout a = cd_fixed_array_layout b;
  ce_overlap : cd_has_nonveralpping_layout a = cd_has_nonveralpping_layout b;
  ce_methods : cd_methods a = cd_methods b;
  ce_implements : cd_implements a ≡ₚ cd_implements b;
  ce_fields : cd_fields a ≡ₚ cd_fields b;
  ce_static_fields : cd_static_fields a ≡ₚ cd_static_fields b;
  ce_events : cd_events a ≡ₚ cd_events b;
  ce_properties : cd_properties a ≡ₚ cd_properties b;
  ce_attributes : cd_custom_attributes a ≡ₚ cd_custom_attributes b;
  ce_field_attributes : cd_field_custom_attributes a ≡ₚ cd_field_custom_attributes b }.

#[export] Instance class_equiv_equivalence : Equivalence class_equiv.
Proof.
  split.
  - intros a. by split.
  - intros a b []. by split.
  - intros a b c [] []. split; by etrans.
Qed.

Lemma joined_equiv a a' b : class_equiv a a' -> class_equiv (joined a b) (joined a' b).
Proof.
  intros [Hid Hau Hex Hen Hsz Hal Har Hov Hme Him Hfi Hsf Hev Hpr Hat Hfa]. unfold identity in Hid.
  injection Hid as ?????. split; cbn; unfold identity; cbn; try congruence; by apply Permutation_app_tail.
Qed.

Lemma compatible_equiv a a' b : class_equiv a a' -> (compatible a b <-> compatible a' b).
Proof.
  intros [Hid _ Hex Hen Hsz Hal Har _ _ _ _ _ _ _ _ _]. unfold compatible. rewrite Hid.
  enough (opinions_agree a b <-> opinions_agree a' b) as -> by done.
  split; intros [H1 H2 H3 H4 H5]; split; rewrite ?Hex, ?Hen, ?Hsz, ?Hal, ?Har in *; done.
Qed.

Lemma compatible_joined a b c :
  compatible a b -> (compatible (joined a b) c <-> compatible a c /\ opinions_agree b c).
Proof.
  intros (Hid & [] & Hm). unfold compatible. assert (identity (joined a b) = identity a) as -> by done.
  split.
  - intros (? & [H1 H2 H3 H4 H5] & ?). cbn in *.
    apply agree_join in H1 as [], H2 as [], H3 as [], H4 as [], H5 as []; try done.
  - intros ((? & [] & ?) & []). split_and!; [done| |done]. split; cbn; by apply agree_join.
Qed.

Lemma opinions_agree_sym a b : opinions_agree a b -> opinions_agree b a.
Proof. intros []. split; by apply agree_sym. Qed.

Lemma joined_swap a b c : opinions_agree b c ->
  class_equiv (joined (joined a b) c) (joined (joined a c) b).
Proof.
  intros []. split; cbn; try by apply join_swap.
  all: try done.
  - by rewrite <- !orb_assoc, (orb_comm (cd_is_valuetype_authoritative b)).
  - by rewrite <- !andb_assoc, (andb_comm (cd_has_nonveralpping_layout b)).
  - rewrite <- !app_assoc. apply Permutation_app_head, Permutation_app_comm.
  - rewrite <- !app_assoc. apply Permutation_app_head, Permutation_app_comm.
  - rewrite <- !app_assoc. apply Permutation_app_head, Permutation_app_comm.
  - rewrite <- !app_assoc. apply Permutation_app_head, Permutation_app_comm.
  - rewrite <- !app_assoc. apply Permutation_app_head, Permutation_app_comm.
  - rewrite <- !app_assoc. apply Permutation_app_head, Permutation_app_comm.
  - rewrite <- !app_assoc. apply Permutation_app_head, Permutation_app_comm.
Qed.

Lemma joined_comm a b : compatible a b -> cd_methods a = [] -> class_equiv (joined a b) (joined b a).
Proof.
  intros (Hid & [] & Hm) Hma. pose proof Hid as Hid'. unfold identity in Hid'. injection Hid' as ??????.
  split; unfold identity; cbn; try (by apply join_comm); try apply Permutation_app_comm; try congruence.
  - apply orb_comm.
  - apply andb_comm.
Qed.

(** Both runs panic, or both give equivalent classes. *)
Inductive same_outcome : outcome E (option ClassDef) -> outcome E (option ClassDef) -> Prop :=
| same_panic : same_outcome Panic Panic
| same_none : same_outcome (Ok None) (Ok None)
| same_class c c' : class_equiv c c' -> same_outcome (Ok (Some c)) (Ok (Some c')).

Inductive acc_equiv : option ClassDef -> option ClassDef -> Prop :=
| acc_none : acc_equiv None None
| acc_some c c' : class_equiv c c' -> acc_equiv (Some c) (Some c').

Lemma acc_equiv_refl acc : acc_equiv acc acc.
Proof. by destruct acc; constructor. Qed.

Lemma merge_shards_equiv shards acc acc' :
  acc_equiv acc acc' -> same_outcome (merge_shards acc shards) (merge_shards acc' shards).
Proof.
  revert acc acc'. induction shards as [|d shards IH]; intros acc acc' H; cbn.
  { destruct H; by constructor. }
  destruct H as [|c c' H]; cbn; [apply IH, acc_equiv_refl|].
  destruct (merge_defs_alt c d) as [[Hc ->]|[Hc ->]], (merge_defs_alt c' d) as [[Hc' ->]|[Hc' ->]];
    rewrite (compatible_equiv c c' d H) in Hc; try done; cbn.
  - apply IH. constructor. by apply joined_equiv.
  - constructor.
Qed.

(** Two neighbouring shards may be exchanged. *)
Lemma merge_shards_swap a b shards acc :
  cd_methods a = [] -> cd_methods b = [] ->
  same_outcome (merge_shards acc (a :: b :: shards)) (merge_shards acc (b :: a :: shards)).
Proof.
  intros Ha Hb. destruct acc as [c|]; cbn.
  - destruct (merge_defs_alt c a) as [[Hca ->]|[Hca ->]], (merge_defs_alt c b) as [[Hcb ->]|[Hcb ->]]; cbn.
    + destruct (merge_defs_alt (joined c a) b) as [[Hab ->]|[Hab ->]],
        (merge_defs_alt (joined c b) a) as [[Hba ->]|[Hba ->]]; cbn.
      * apply merge_shards_equiv. constructor. apply joined_swap. by apply compatible_joined in Hab as [_ ?].
      * destruct Hba. apply compatible_joined; [done|]. split; [done|]. apply opinions_agree_sym.
        by apply compatible_joined in Hab as [_ ?].
      * destruct Hab. apply compatible_joined; [done|]. split; [done|]. apply opinions_agree_sym.
        by apply compatible_joined in Hba as [_ ?].
      * constructor.
    + destruct (merge_defs_alt (joined c a) b) as [[Hab ->]|[Hab ->]]; cbn; [|constructor].
      destruct Hcb. by apply compatible_joined in Hab as [? _].
    + destruct (merge_defs_alt (joined c b) a) as [[Hba ->]|[Hba ->]]; cbn; [|constructor].
      destruct Hca. by apply compatible_joined in Hba as [? _].
    + constructor.
  - destruct (merge_defs_alt a b) as [[Hab ->]|[Hab ->]], (merge_defs_alt b a) as [[Hba ->]|[Hba ->]]; cbn.
    + apply merge_shards_equiv. constructor. by apply joined_comm.
    + destruct Hba, Hab as (? & ? & ?). split_and!; [done|by apply opinions_agree_sym|done].
    + destruct Hab, Hba as (? & ? & ?). split_and!; [done|by apply opinions_agree_sym|done].
    + constructor.
Qed.

(** Merging on top of [c] succeeds exactly when [c] and the shards are pairwise compatible. *)
Lemma merge_shards_alt c shards :
  Forall (fun d => cd_methods d = []) shards ->
  (Forall (compatible c) shards /\ ForallOrdPairs compatible shards) /\
    (exists o, merge_shards (E := E) (Some c) shards = Ok o) \/
  ~ (Forall (compatible c) shards /\ ForallOrdPairs compatible shards) /\
    merge_shards (E := E) (Some c) shards = Panic.
Proof.
  intros Hm. revert c. induction Hm as [|d shards Hd Hm IH]; intros c; cbn.
  { left. split; [by split; constructor|by eexists]. }
  destruct (merge_defs_alt c d) as [[Hc ->]|[Hc ->]]; cbn.
  - assert (Forall (compatible (joined c d)) shards <->
            Forall (compatible c) shards /\ Forall (compatible d) shards) as Hj.
    { rewrite <- list.Forall_and. apply list.Forall_iff. intros x. rewrite (compatible_joined _ _ _ Hc).
      destruct Hc as (Hid & _ & _). split; [intros [[? [??]] ?]|intros [? (? & ? & ?)]];
        [|by split]. split; [by split_and!|]. split_and!; [congruence|done|done]. }
    destruct (IH (joined c d)) as [[[H1 H2] Ho]|[Hn Hp]]; [left|right]; (split; [|done]).
    + apply Hj in H1 as [? ?]. split; [by constructor|by constructor].
    + intros [[_ ?]%list.Forall_cons H2]. inversion H2; subst. apply Hn. split; [by apply Hj|done].
  - right. split; [|done]. by intros [[? _]%list.Forall_cons _].
Qed.

#[local] Instance same_outcome_trans : Transitive same_outcome.
Proof.
  intros x y z H. destruct H as [| |c c' H]; [done..|]. intros H'. inversion H'; subst. constructor. by etrans.
Qed.

Lemma merge_shards_perm shards shards' acc :
  shards ≡ₚ shards' -> Forall (fun d => cd_methods d = []) shards ->
  same_outcome (merge_shards acc shards) (merge_shards acc shards').
Proof.
  intros Hp. revert acc. induction Hp as [|d l l' _ IH|a b l|l1 l2 l3 H12 IH1 _ IH2]; intros acc Hm.
  - apply merge_shards_equiv, acc_equiv_refl.
  - apply list.Forall_cons in Hm as [_ Hm]. cbn. destruct acc as [c|]; cbn; [|by apply IH].
    destruct (merge_defs_alt c d) as [[_ ->]|[_ ->]]; cbn; [by apply IH|constructor].
  - apply list.Forall_cons in Hm as [Hb Hm]. apply list.Forall_cons in Hm as [Ha _].
    by apply merge_shards_swap.
  - etrans; [by apply IH1|]. apply IH2. by rewrite <- H12.
Qed.
End merge.

(** ** Properties *)

Section properties.
Context {E : Type}.

(** C31: whatever operations describe a class after its creation, its interfaces, event names,
    property names and attributes are free of duplicates, field attributes are kept in one group a
    field, its generic names match its arity; and once its kind is authoritative it never changes.
    Dropping the members whose accessors are gone leaves only live accessors. *)
Theorem described_class_consistent name vt g ex fs sfs acc sz al ov d :
  rtc (class_step (E := E)) (ClassDef_new name vt g ex fs sfs acc sz al ov) d ->
  class_ok d /\
  (forall d', rtc (class_step (E := E)) d d' -> cd_is_valuetype_authoritative d = true ->
     cd_is_valuetype d' = cd_is_valuetype d) /\
  (forall f m, m ∈ iter_member_method_refs (retain_member_metadata d f) -> f m = true).
Proof.
  intros Hs. split_and!.
  - eapply class_steps_ok; [exact Hs|apply new_class_ok].
  - intros d' Hd'. by apply (class_steps_kind (E := E)).
  - intros f m. apply retained_members_live.
Qed.


End properties.

(** ** Witnesses *)

(** A class with one event and one property, described by two entry points. *)
Definition sample_event : EventDef := mk_EventDef 2%positive (Ty.ClassRef 1%positive) 1%positive 2%positive.
Definition sample_class : ClassDef :=
  ClassDef_new 1%positive false 0 None [(Ty.Bool, 3%positive, Some 0)] [] Access.Public None None true.

(** A re-opening shard with no opinion on the base, and the authoritative one. *)
Definition sample_shards : list ClassDef :=
  [set_events sample_class [sample_event];
   with_valuetype_authoritative (set_extends sample_class (Some 4%positive));
   add_interface sample_class 5%positive].

Lemma described_class_consistent_witness :
  class_ok (add_event (add_event sample_class sample_event) sample_event).
Proof.
  apply (described_class_consistent (E := unit) 1%positive false 0 None
    [(Ty.Bool, 3%positive, Some 0)] [] Access.Public None None true).
  eapply rtc_l; [apply step_add_event|]. eapply rtc_l; [apply step_add_event|]. apply rtc_refl.
Defined.


