(* ===== verification/Layout.v ===== *)
(** * The layout check of class definitions (cilly/src/ir/class.rs, [ClassDef::layout_check])

    A class with overlapping storage may hold managed references only where every field that starts
    at the same offset has the same type.  The fields are grouped by offset in a hash map, whose
    iteration order is a parameter: it only decides which of several errors is reported.  The
    operations of asm.rs that add a definition follow. *)

From S2P Require Import Prelude Interner Types Class IR Assign.

Inductive LayoutError : Set :=
| ManagedRefInOverlapingField (owner field name : string).

(** The iteration order of a [HashMap]'s values. *)
Class HashMapOrder := {
  hash_values {A} : gmap Z A -> list A;
  hash_values_perm {A} (m : gmap Z A) : hash_values m ≡ₚ (map_to_list m).*2 }.

Section layout.
Context {hash_order : HashMapOrder} (mfuel : nat).
Implicit Types asm : Assembly.

Local Notation field_group := (list (Ty.t * Interned KString)).

(** [Err(LayoutError::ManagedRefInOverlapingField { .. })] *)
Definition overlap_error {A} asm (self : ClassDef) (t : Ty.t) (name : Interned KString)
    : outcome LayoutError A :=
  owner ← get_string asm (cd_name self);
  field ← mangle mfuel asm t;
  name ← get_string asm name;
  Err (ManagedRefInOverlapingField owner field name).

(** The loop that groups the fields by offset, and rejects references without one. *)
Fixpoint group_fields asm (self : ClassDef) (fields : list (Ty.t * Interned KString * option Z))
    (by_offset : gmap Z field_group) : outcome LayoutError (gmap Z field_group) :=
  match fields with
  | [] => Ok by_offset
  | (t, name, None) :: fields =>
      gcref ← contains_gcref asm t;
      if (gcref : bool) then overlap_error asm self t name else group_fields asm self fields by_offset
  | (t, name, Some off) :: fields =>
      group_fields asm self fields (<[off := default [] (by_offset !! off) ++ [(t, name)]]> by_offset)
  end.

(** The fields of a group against the type of its first. *)
Fixpoint check_same asm (self : ClassDef) (first_ty : Ty.t) (group : field_group)
    : outcome LayoutError unit :=
  match group with
  | [] => Ok tt
  | (t, name) :: group =>
      if bool_decide (t = first_ty) then check_same asm self first_ty group
      else overlap_error asm self t name
  end.

Fixpoint check_groups asm (self : ClassDef) (groups : list field_group) : outcome LayoutError unit :=
  match groups with
  | [] => Ok tt
  | group :: groups =>
      any ← any_outcome (fun '(t, _) => contains_gcref asm t) group;
      if negb (any : bool) then check_groups asm self groups
      else
        match group with
        | [] => Panic
        | (first_ty, _) :: _ => _ ← check_same asm self first_ty group; check_groups asm self groups
        end
  end.

Definition layout_check asm (self : ClassDef) : outcome LayoutError unit :=
  if negb (cd_has_nonveralpping_layout self) then
    by_offset ← group_fields asm self (cd_fields self) ∅;
    check_groups asm self (hash_values by_offset)
  else Ok tt.

(** ** Adding definitions (asm.rs) *)

(** [str::contains] *)
Definition contains (s sub : string) : bool := bool_decide (is_Some (String.index 0 sub s)).

(** [Assembly::class_def], less the cache of the link preflight it resets. *)
Definition class_def (def : ClassDef) : ST Assembly LayoutError (Interned KClassRef) :=
  _ ← reads (fun asm => layout_check asm def);
  cref ← lift (class_ref_to def);
  cref ← alloc_class_ref cref;
  asm ← ask;
  match class_defs asm !! cref with
  | Some _ =>
      name ← reads (fun asm => get_string asm (cd_name def));
      if contains name "core.ffi.c_void" || contains name "RustVoid" || bool_decide (name = "f128"%string)
      then mret cref else panic
  | None => _ ← modify (fun asm => set_class_defs asm (<[cref := def]> (class_defs asm))); mret cref
  end.

(** [Result::unwrap] *)
Definition unwrap_result {S E1 E2 A} (m : ST S E1 A) : ST S E2 A := fun s =>
  match m s with
  | (s, Ok a) => (s, Ok a)
  | (s, NoFuel) => (s, NoFuel)
  | (s, _) => (s, Panic)
  end.

Definition main_module {E} : ST Assembly E (Interned KClassRef) :=
  main_module ← alloc_string MAIN_MODULE;
  let definition := ClassDef_new main_module false 0 None [] [] Access.Public None None true in
  cref ← lift (class_ref_to definition);
  cref ← alloc_class_ref cref;
  asm ← ask;
  match class_defs asm !! cref with
  | Some _ => mret cref
  | None => unwrap_result (class_def definition)
  end.

#[local] Arguments contains_gcref {E} asm self : simpl never.

(** ** What the check decides *)

(** The fields that start at an offset. *)
Definition fields_at (off : Z) (fields : list (Ty.t * Interned KString * option Z)) : field_group :=
  omap (fun '(t, name, o) => if bool_decide (o = Some off) then Some (t, name) else None) fields.

(** No field holds a reference, or all have one type. *)
Definition uniform asm (group : field_group) : Prop :=
  Forall (fun p => contains_gcref (E := LayoutError) asm (fst p) = Ok false) group \/
  exists t, contains_gcref (E := LayoutError) asm t = Ok true /\ Forall (fun p => fst p = t) group.

Definition layout_ok asm (self : ClassDef) : Prop :=
  cd_has_nonveralpping_layout self = true \/
  (forall t name, (t, name, None) ∈ cd_fields self -> contains_gcref (E := LayoutError) asm t = Ok false) /\
  (forall off, uniform asm (fields_at off (cd_fields self))).

Lemma overlap_error_not_ok {A} asm self t name (a : A) : overlap_error asm self t name <> Ok a.
Proof.
  unfold overlap_error. intros (? & _ & H)%bind_ok. apply bind_ok in H as (? & _ & H).
  by apply bind_ok in H as (? & _ & H).
Qed.

Lemma any_outcome_ok {A} (f : A -> outcome LayoutError bool) l b :
  any_outcome f l = Ok b -> if b then exists x, x ∈ l /\ f x = Ok true else Forall (fun x => f x = Ok false) l.
Proof.
  induction l as [|x l IH]; cbn; [intros [= <-]; constructor|]. intros (c & Hc & H)%bind_ok. destruct c.
  - injection H as <-. exists x. by split; [left|].
  - apply IH in H. destruct b; [|by constructor]. destruct H as (y & ? & ?). exists y. by split; [right|].
Qed.

Lemma any_outcome_all_false {A} (f : A -> outcome LayoutError bool) l :
  Forall (fun x => f x = Ok false) l -> any_outcome f l = Ok false.
Proof. induction 1 as [|x l Hx _ IH]; cbn; [done|]. rewrite Hx. apply IH. Qed.

Lemma check_same_ok asm self t group :
  check_same asm self t group = Ok tt <-> Forall (fun p => fst p = t) group.
Proof.
  induction group as [|[t' n] group IH]; cbn; [by split|]. case_bool_decide as Ht.
  - rewrite IH, list.Forall_cons. cbn. by split; [|intros [_ ?]].
  - split; [intros H; by apply overlap_error_not_ok in H|by intros [? _]%list.Forall_cons].
Qed.

Lemma check_groups_ok asm self groups :
  check_groups asm self groups = Ok tt <-> Forall (uniform asm) groups.
Proof.
  induction groups as [|g groups IH]; cbn; [by split|]. rewrite bind_ok, list.Forall_cons, <- IH. split.
  - intros (any & Hany & H). apply any_outcome_ok in Hany. destruct any; cbn in H.
    + destruct g as [|[t n] g]; [done|]. apply bind_ok in H as ([] & Hs%check_same_ok & ->). split; [|done].
      right. exists t. destruct Hany as ([t' n'] & Hin & Ht'). split; [|done].
      rewrite list.Forall_forall in Hs. by rewrite <- (Hs _ Hin).
    + split; [|done]. left. eapply list.Forall_impl; [exact Hany|]. by intros [].
  - intros [[Hg|(t & Ht & Hg)] H].
    + exists false. split; [|done]. apply any_outcome_all_false.
      eapply list.Forall_impl; [exact Hg|]. by intros [].
    + destruct g as [|[t' n] g]; [by exists false|]. exists true.
      pose proof Hg as [Ht' _]%list.Forall_cons. cbn in Ht'. subst t'. cbn. rewrite Ht. cbn.
      split; [done|]. apply bind_ok. exists tt. split; [|done]. change (check_same asm self t ((t, n) :: g) = Ok tt).
      by apply check_same_ok.
Qed.

Lemma group_fields_offsets asm self fields m m' t name :
  group_fields asm self fields m = Ok m' ->
  (t, name, None) ∈ fields -> contains_gcref (E := LayoutError) asm t = Ok false.
Proof.
  intros H. revert m H t name.
  induction fields as [|[[t n] [off|]] fields IH]; intros m H t' n' Hin; cbn in H.
  - by apply not_elem_of_nil in Hin.
  - apply elem_of_cons in Hin as [Hin|Hin]; [done|]. by eapply IH.
  - apply bind_ok in H as ([] & Ht & H); [by apply overlap_error_not_ok in H|].
    apply elem_of_cons in Hin as [[= <- <-]|Hin]; [done|]. by eapply IH.
Qed.

Lemma group_fields_total asm self fields m :
  (forall t name, (t, name, None) ∈ fields -> contains_gcref (E := LayoutError) asm t = Ok false) ->
  exists m', group_fields asm self fields m = Ok m'.
Proof.
  revert m. induction fields as [|[[t n] [off|]] fields IH]; intros m H; cbn; [by eexists| |].
  - apply IH. intros. eapply H. by right.
  - rewrite (H t n) by by left. cbn. apply IH. intros. eapply H. by right.
Qed.

(** The groups are the fields at each offset, appended to what the map held. *)
Lemma group_fields_lookup asm self fields m m' off :
  group_fields asm self fields m = Ok m' ->
  default [] (m' !! off) = default [] (m !! off) ++ fields_at off fields.
Proof.
  revert m. induction fields as [|[[t n] [o|]] fields IH]; intros m H; cbn in H.
  - injection H as <-. cbn. by rewrite app_nil_r.
  - apply IH in H as Hl. cbn. destruct (decide (o = off)) as [->|Hne].
    + rewrite lookup_insert_eq in Hl. rewrite bool_decide_true by done. cbn in Hl.
      by rewrite Hl, <- app_assoc.
    + rewrite lookup_insert_ne in Hl by done. by rewrite bool_decide_false by congruence.
  - apply bind_ok in H as ([] & _ & H); [by apply overlap_error_not_ok in H|]. by apply IH in H.
Qed.

Lemma groups_uniform asm (m : gmap Z field_group) :
  Forall (uniform asm) (hash_values m) <-> forall off, uniform asm (default [] (m !! off)).
Proof.
  rewrite hash_values_perm, list.Forall_forall. split.
  - intros H off. destruct (m !! off) as [g|] eqn:Hg; cbn; [|left; constructor]. apply H.
    apply list_elem_of_fmap. exists (off, g). split; [done|]. by apply elem_of_map_to_list.
  - intros H g ([off g'] & -> & Hg%elem_of_map_to_list)%list_elem_of_fmap. specialize (H off).
    cbn in Hg. by rewrite Hg in H.
Qed.

Lemma layout_check_iff asm self : layout_check asm self = Ok tt <-> layout_ok asm self.
Proof.
  unfold layout_check, layout_ok. destruct (cd_has_nonveralpping_layout self); cbn; [by split; [left|]|].
  split.
  - intros (m & Hm & Hc)%bind_ok. right. split; [intros t name; by eapply group_fields_offsets|].
    intros off. apply check_groups_ok in Hc. pose proof (proj1 (groups_uniform asm m) Hc off) as Hu.
    by rewrite (group_fields_lookup _ _ _ _ _ off Hm), lookup_empty in Hu.
  - intros [?|[Hn Hu]]; [done|]. destruct (group_fields_total asm self (cd_fields self) ∅ Hn) as [m Hm].
    apply bind_ok. exists m. split; [done|]. apply check_groups_ok, (groups_uniform asm m). intros off.
    rewrite (group_fields_lookup _ _ _ _ _ off Hm), lookup_empty. apply Hu.
Qed.

(** ** What an error names *)

(** The error names a field of the group and its type. *)
Definition names asm (e : LayoutError) (t : Ty.t) (name : Interned KString) : Prop :=
  exists owner field n, e = ManagedRefInOverlapingField owner field n /\
    mangle (E := LayoutError) mfuel asm t = Ok field /\ get_string (E := LayoutError) asm name = Ok n.

(** Some field of the group holds a reference. *)
Definition holds_ref asm (group : field_group) : Prop :=
  exists p, p ∈ group /\ contains_gcref (E := LayoutError) asm (fst p) = Ok true.

Lemma bind_err {A B} (m : outcome LayoutError A) (f : A -> outcome LayoutError B) e :
  m ≫= f = Err e <-> m = Err e \/ exists a, m = Ok a /\ f a = Err e.
Proof. destruct m; cbn; naive_solver. Qed.

Lemma arena_get_not_err {k V} (vs : list V) (id : Interned k) e : arena_get (E := LayoutError) vs id <> Err e.
Proof. unfold arena_get. by destruct (vs !! slot id). Qed.

Lemma any_outcome_not_err {A} (f : A -> outcome LayoutError bool) l e :
  (forall x, x ∈ l -> f x <> Err e) -> any_outcome f l <> Err e.
Proof.
  induction l as [|x l IH]; cbn; [done|]. intros Hf [H|([] & _ & H)]%bind_err.
  - by apply (Hf x); [left|].
  - done.
  - revert H. apply IH. intros. apply Hf. by right.
Qed.

Lemma contains_gcref_not_err asm t e : contains_gcref (E := LayoutError) asm t <> Err e.
Proof.
  unfold contains_gcref. generalize 65%nat as fuel. intros fuel. revert t.
  induction fuel as [|fuel IH]; intros t; cbn; [done|]. destruct t; try done.
  intros [H|(c & _ & H)]%bind_err; [by apply arena_get_not_err in H|].
  destruct (negb _); [done|]. destruct (class_ref_to_def asm _) as [d|]; [|done].
  revert H. apply any_outcome_not_err. intros [[t' n'] o'] _. apply IH.
Qed.

Lemma mangle_not_err asm fuel t e : mangle (E := LayoutError) fuel asm t <> Err e.
Proof.
  revert t. induction fuel as [|fuel IH]; intros t; cbn; [done|].
  assert (forall l, map_outcome (mangle (E := LayoutError) fuel asm) l <> Err e) as Hl.
  { induction l as [|x l IHl]; cbn; [done|]. intros [H|(? & _ & H)]%bind_err; [by apply IH in H|].
    apply bind_err in H as [H|(? & _ & H)]; [by apply IHl in H|done]. }
  destruct t; try done; repeat (intros H; apply bind_err in H as [H|(? & _ & H)]; revert H);
    try done; try apply arena_get_not_err; try apply IH; try apply Hl.
  destruct (cr_asm _); [|done]. intros [H|(? & _ & H)]%bind_err; [by apply arena_get_not_err in H|done].
Qed.

Lemma overlap_error_names {A} asm self t name e :
  overlap_error (A := A) asm self t name = Err e -> names asm e t name.
Proof.
  unfold overlap_error. intros [H|(owner & _ & H)]%bind_err; [by apply arena_get_not_err in H|].
  apply bind_err in H as [H|(field & Hf & H)]; [by apply mangle_not_err in H|].
  apply bind_err in H as [H|(n & Hn & [= <-])]; [by apply arena_get_not_err in H|].
  by exists owner, field, n.
Qed.

Lemma check_groups_names asm self groups e :
  check_groups asm self groups = Err e ->
  exists group p p', group ∈ groups /\ p ∈ group /\ p' ∈ group /\ fst p <> fst p' /\
    holds_ref asm group /\ names asm e (fst p) (snd p).
Proof.
  induction groups as [|g groups IH]; cbn; [done|]. intros [H|(any & Hany & H)]%bind_err.
  { exfalso. revert H. apply any_outcome_not_err. intros [t n] _. apply contains_gcref_not_err. }
  apply any_outcome_ok in Hany. destruct any; cbn in H.
  - destruct g as [|[t n] g]; [done|]. apply bind_err in H as [H|(_ & _ & H)].
    + destruct Hany as ([t' n'] & Hin & Hg). exists ((t, n) :: g).
      assert (exists p, p ∈ ((t, n) :: g) /\ fst p <> t /\ names asm e (fst p) (snd p)) as (p & Hp & Hne & Hnm).
      { revert H. generalize ((t, n) :: g) as l. induction l as [|[t1 n1] l IHl]; cbn; [done|].
        case_bool_decide as Ht; intros H.
        - destruct (IHl H) as (p & ? & ?). exists p. by split; [right|].
        - apply overlap_error_names in H. exists (t1, n1). by split; [left|]. }
      exists p, (t, n). split_and!; [by left|done|by left|done|by exists (t', n')|done].
    + destruct (IH H) as (g' & p & p' & ? & ?). exists g', p, p'. by split; [right|].
  - destruct (IH H) as (g' & p & p' & ? & ?). exists g', p, p'. by split; [right|].
Qed.

Lemma group_fields_names asm self fields m e :
  group_fields asm self fields m = Err e ->
  exists t name, (t, name, None) ∈ fields /\ contains_gcref (E := LayoutError) asm t = Ok true /\
    names asm e t name.
Proof.
  revert m. induction fields as [|[[t n] [off|]] fields IH]; intros m; cbn; [done| |].
  - intros (t' & n' & ? & ?)%IH. exists t', n'. by split; [right|].
  - intros [H|([] & Ht & H)]%bind_err; [by apply contains_gcref_not_err in H| |].
    + apply overlap_error_names in H. exists t, n. by split; [left|].
    + apply IH in H as (t' & n' & ? & ?). exists t', n'. by split; [right|].
Qed.

(** C30: the layout check accepts exactly the classes without overlapping storage, and those whose
    reference-holding fields all have an offset shared only with fields of their own type; an error
    names a field that holds a reference without having an offset, or one whose type differs from
    another field at its offset, where some field holds a reference. *)
Theorem layout_check_spec asm self :
  (layout_check asm self = Ok tt <-> layout_ok asm self) /\
  (forall e, layout_check asm self = Err e ->
     (exists t name, (t, name, None) ∈ cd_fields self /\
        contains_gcref (E := LayoutError) asm t = Ok true /\ names asm e t name) \/
     (exists off p p', let group := fields_at off (cd_fields self) in
        p ∈ group /\ p' ∈ group /\ fst p <> fst p' /\ holds_ref asm group /\ names asm e (fst p) (snd p))).
Proof.
  split; [apply layout_check_iff|]. intros e. unfold layout_check. destruct (negb _); [|done].
  intros [H|(m & Hm & H)]%bind_err; [left; by apply group_fields_names in H|right].
  apply check_groups_names in H as (g & p & p' & Hg & Hp). rewrite hash_values_perm in Hg.
  apply list_elem_of_fmap in Hg as ([off g'] & -> & Hoff%elem_of_map_to_list). exists off, p, p'.
  pose proof (group_fields_lookup _ _ _ _ _ off Hm) as Hl. cbn in Hp, Hoff.
  rewrite Hoff, lookup_empty in Hl. cbn in Hl. by rewrite <- Hl.
Qed.
End layout.

#[export] Program Instance map_order : HashMapOrder := {| hash_values A m := (map_to_list m).*2 |}.
Next Obligation. done. Qed.

(** A value class with an object at offset 0 and an integer at offset 4, inside the eight bytes of
    the reference. *)
Definition torn_class : ClassDef :=
  ClassDef_new 1%positive true 0 None
    [(Ty.PlatformObject, 1%positive, Some 0); (Ty.Int Int.I32, 1%positive, Some 4)] [] Access.Public
    (Some 8) None false.

(** Only fields that start at the same offset are compared: storage that overlaps a reference from
    another offset passes. *)
Example overlap_at_other_offset_accepted :
  layout_check 10 empty_assembly torn_class = Ok tt.
Proof. reflexivity. Qed.

(** ** Witness *)

(** The same fields at one offset are refused, and the error names the second. *)
Lemma layout_check_spec_witness :
  let d := ClassDef_new 1%positive true 0 None
    [(Ty.PlatformObject, 1%positive, Some 0); (Ty.Int Int.I32, 2%positive, Some 0)] [] Access.Public
    (Some 8) None false in
  let asm := set_strings empty_assembly ["Torn"; "word"]%string in
  layout_check 10 asm d = Err (ManagedRefInOverlapingField "Torn" "i32" "word") /\ ~ layout_ok asm d /\
  layout_ok empty_assembly torn_class.
Proof.
  split; [reflexivity|]. split.
  - intros H. apply (layout_check_spec 10) in H. discriminate.
  - exact (proj1 (proj1 (layout_check_spec 10 empty_assembly torn_class)) eq_refl).
Defined.
