(* ===== verification/Cil.v ===== *)
(** * CIL instructions as a reader has them (ECMA-335, Partition III)

    The one- and two-byte opcodes with the shape of their operands, the encoding of an instruction
    and a decoder, and what instructions pop and push.  It is the specification the body writer is
    proved against; the short branches and [switch], which the writer never emits, are left out. *)

From S2P Require Import Prelude.

(** ** Instructions *)

(** Operands as numbers; [Rel] is the distance of a branch from the end of its instruction. *)
Inductive Operand : Set :=
| NoOperand
| U8 (v : Z)
| I8 (v : Z)
| U16 (v : Z)
| I32 (v : Z)
| I64 (v : Z)
| R4 (bits : Z)
| R8 (bits : Z)
| Tok (token : Z)
| Rel (offset : Z).

(** Two-byte opcodes [0xFE b] are written [0xFE00 + b]. *)
Record Instr : Set := mk_Instr { opcode : Z; operand : Operand }.

#[export] Instance Operand_eq_dec : EqDecision Operand.
Proof. solve_decision. Defined.
#[export] Instance Instr_eq_dec : EqDecision Instr.
Proof. solve_decision. Defined.

Inductive Shape : Set := ShNone | ShU8 | ShI8 | ShU16 | ShI32 | ShI64 | ShR4 | ShR8 | ShTok | ShRel.

#[export] Instance Shape_eq_dec : EqDecision Shape.
Proof. solve_decision. Defined.

Definition between (lo hi op : Z) : bool := (lo <=? op) && (op <=? hi).

(** The operand of an opcode. *)
Definition shape_of (op : Z) : option Shape :=
  if between 0x00 0x0D op then Some ShNone        (* nop, break, ldarg.0 .. stloc.3 *)
  else if between 0x0E 0x13 op then Some ShU8     (* ldarg.s .. stloc.s *)
  else if between 0x14 0x1E op then Some ShNone   (* ldnull, ldc.i4.m1 .. ldc.i4.8 *)
  else if op =? 0x1F then Some ShI8               (* ldc.i4.s *)
  else if op =? 0x20 then Some ShI32              (* ldc.i4 *)
  else if op =? 0x21 then Some ShI64              (* ldc.i8 *)
  else if op =? 0x22 then Some ShR4               (* ldc.r4 *)
  else if op =? 0x23 then Some ShR8               (* ldc.r8 *)
  else if between 0x25 0x26 op then Some ShNone   (* dup, pop *)
  else if between 0x27 0x29 op then Some ShTok    (* jmp, call, calli *)
  else if op =? 0x2A then Some ShNone             (* ret *)
  else if between 0x38 0x44 op then Some ShRel    (* br .. blt.un *)
  else if between 0x46 0x6E op then Some ShNone   (* ldind.*, stind.*, arithmetic, conv.* *)
  else if between 0x6F 0x75 op then Some ShTok    (* callvirt, cpobj, ldobj, ldstr, newobj, castclass, isinst *)
  else if op =? 0x76 then Some ShNone             (* conv.r.un *)
  else if op =? 0x79 then Some ShTok              (* unbox *)
  else if op =? 0x7A then Some ShNone             (* throw *)
  else if between 0x7B 0x81 op then Some ShTok    (* ldfld .. stobj *)
  else if between 0x82 0x8B op then Some ShNone   (* conv.ovf.*.un *)
  else if between 0x8C 0x8D op then Some ShTok    (* box, newarr *)
  else if op =? 0x8E then Some ShNone             (* ldlen *)
  else if op =? 0x8F then Some ShTok              (* ldelema *)
  else if between 0x90 0xA2 op then Some ShNone   (* ldelem.*, stelem.* *)
  else if between 0xA3 0xA5 op then Some ShTok    (* ldelem, stelem, unbox.any *)
  else if between 0xB3 0xBA op then Some ShNone   (* conv.ovf.* *)
  else if op =? 0xD0 then Some ShTok              (* ldtoken *)
  else if between 0xD1 0xDC op then Some ShNone   (* conv.u2 .. endfinally *)
  else if op =? 0xDD then Some ShRel              (* leave *)
  else if between 0xDF 0xE0 op then Some ShNone   (* stind.i, conv.u *)
  else if between 0xFE00 0xFE05 op then Some ShNone (* arglist, ceq .. clt.un *)
  else if between 0xFE06 0xFE07 op then Some ShTok  (* ldftn, ldvirtftn *)
  else if between 0xFE09 0xFE0E op then Some ShU16  (* ldarg .. stloc *)
  else if op =? 0xFE0F then Some ShNone           (* localloc *)
  else if op =? 0xFE11 then Some ShNone           (* endfilter *)
  else if op =? 0xFE12 then Some ShU8             (* unaligned. *)
  else if between 0xFE13 0xFE14 op then Some ShNone (* volatile., tail. *)
  else if between 0xFE15 0xFE16 op then Some ShTok  (* initobj, constrained. *)
  else if between 0xFE17 0xFE18 op then Some ShNone (* cpblk, initblk *)
  else if op =? 0xFE1A then Some ShNone           (* rethrow *)
  else if op =? 0xFE1C then Some ShTok            (* sizeof *)
  else if between 0xFE1D 0xFE1E op then Some ShNone (* refanytype, readonly. *)
  else None.

(** ** Encoding and decoding *)

Definition opcode_bytes (op : Z) : list Z :=
  if op <? 256 then [op] else [0xFE; op - 0xFE00].

Definition operand_bytes (o : Operand) : list Z :=
  match o with
  | NoOperand => []
  | U8 v | I8 v => le_bytes 1 v
  | U16 v => le_bytes 2 v
  | I32 v | R4 v | Tok v | Rel v => le_bytes 4 v
  | I64 v | R8 v => le_bytes 8 v
  end.

Definition encode (i : Instr) : list Z := opcode_bytes (opcode i) ++ operand_bytes (operand i).

Definition encode_all (is_ : list Instr) : list Z := concat (map encode is_).

(** The bytes of an operand, and how they are read. *)
Definition shape_size (s : Shape) : nat :=
  match s with
  | ShNone => 0 | ShU8 | ShI8 => 1 | ShU16 => 2 | ShI32 | ShR4 | ShTok | ShRel => 4 | ShI64 | ShR8 => 8
  end.

Definition read_operand (s : Shape) (l : list Z) : Operand :=
  let u := le_int l in
  match s with
  | ShNone => NoOperand
  | ShU8 => U8 u | ShI8 => I8 (swrap 8 u) | ShU16 => U16 u | ShI32 => I32 (swrap 32 u)
  | ShI64 => I64 (swrap 64 u) | ShR4 => R4 u | ShR8 => R8 u | ShTok => Tok u
  | ShRel => Rel (swrap 32 u)
  end.

Definition decode_operand (op : Z) (l : list Z) : option (Instr * list Z) :=
  s ← shape_of op;
  if (length l <? shape_size s)%nat then None
  else Some (mk_Instr op (read_operand s (take (shape_size s) l)), drop (shape_size s) l).

Definition decode (l : list Z) : option (Instr * list Z) :=
  match l with
  | [] => None
  | b :: l =>
      if b =? 0xFE then
        match l with [] => None | b :: l => decode_operand (0xFE00 + b) l end
      else decode_operand b l
  end.

(** A stream of instructions; the fuel is the number of bytes. *)
Fixpoint decode_stream (fuel : nat) (l : list Z) : option (list Instr) :=
  match l, fuel with
  | [], _ => Some []
  | _, O => None
  | _, S fuel => '(i, l) ← decode l; cons i <$> decode_stream fuel l
  end.

Definition decode_all (l : list Z) : option (list Instr) := decode_stream (length l) l.

(** The operand is one of the opcode and in range. *)
Definition operand_ok (s : Shape) (o : Operand) : Prop :=
  match s, o with
  | ShNone, NoOperand => True
  | ShU8, U8 v => in_u 8 v
  | ShI8, I8 v => in_s 8 v
  | ShU16, U16 v => in_u 16 v
  | ShI32, I32 v | ShRel, Rel v => in_s 32 v
  | ShI64, I64 v => in_s 64 v
  | ShR4, R4 v | ShTok, Tok v => in_u 32 v
  | ShR8, R8 v => in_u 64 v
  | _, _ => False
  end.

Definition instr_ok (i : Instr) : Prop :=
  exists s, shape_of (opcode i) = Some s /\ operand_ok s (operand i).

Lemma between_iff lo hi op : between lo hi op = true <-> lo <= op <= hi.
Proof. unfold between. rewrite andb_true_iff, !Z.leb_le. done. Qed.

Lemma shape_of_range op s : shape_of op = Some s -> (0 <= op < 256 /\ op <> 0xFE) \/ 0xFE00 <= op < 0xFF00.
Proof.
  unfold shape_of. repeat case_match; intros; try done;
    rewrite ?between_iff, ?Z.eqb_eq in *; lia.
Qed.

Lemma read_operand_bytes s o : operand_ok s o ->
  length (operand_bytes o) = shape_size s /\ read_operand s (operand_bytes o) = o.
Proof.
  destruct s, o; cbn [operand_ok]; try done; intros H; (split; [apply length_le_bytes|]);
    unfold read_operand, operand_bytes; f_equal.
  1, 3, 6, 7, 8: by apply le_int_le_bytes_u.
  all: apply swrap_le_int; [lia|done].
Qed.

Lemma decode_operand_bytes op s o rest : shape_of op = Some s -> operand_ok s o ->
  decode_operand op (operand_bytes o ++ rest) = Some (mk_Instr op o, rest).
Proof.
  intros Hs [Hl Hr]%read_operand_bytes. unfold decode_operand. rewrite Hs. cbn [mbind option_bind].
  rewrite length_app, Hl. destruct (Nat.ltb_spec (shape_size s + length rest) (shape_size s)); [lia|].
  by rewrite take_app_length', drop_app_length', Hr.
Qed.

Lemma decode_encode i rest : instr_ok i -> decode (encode i ++ rest) = Some (i, rest).
Proof.
  intros (s & Hs & Ho). destruct i as [op o]. cbn [opcode operand] in *. unfold encode, opcode_bytes.
  cbn [opcode operand]. destruct (shape_of_range _ _ Hs) as [[? ?]|?].
  - destruct (Z.ltb_spec op 256); [|lia]. cbn [app decode].
    destruct (Z.eqb_spec op 0xFE); [lia|]. by apply (decode_operand_bytes op s).
  - destruct (Z.ltb_spec op 256); [lia|]. cbn [app decode]. rewrite Z.eqb_refl.
    replace (0xFE00 + (op - 0xFE00)) with op by lia. by apply (decode_operand_bytes op s).
Qed.

Lemma encode_nonempty i : exists b l, encode i = b :: l.
Proof. unfold encode, opcode_bytes. destruct (opcode i <? 256); cbn; eauto. Qed.

Lemma length_encode_pos i : (0 < length (encode i))%nat.
Proof. destruct (encode_nonempty i) as (b & l & ->). cbn. lia. Qed.

Lemma decode_stream_step fuel i l : instr_ok i ->
  decode_stream (S fuel) (encode i ++ l) = cons i <$> decode_stream fuel l.
Proof.
  intros Hi. cbn [decode_stream]. rewrite decode_encode by done.
  destruct (encode_nonempty i) as (b & l' & ->). done.
Qed.

Lemma decode_stream_encode l fuel : Forall instr_ok l -> (length l <= fuel)%nat ->
  decode_stream fuel (encode_all l) = Some l.
Proof.
  intros Hl. revert fuel. induction Hl as [|i l Hi Hl IH]; intros fuel Hf; [by destruct fuel|].
  cbn [length] in Hf. destruct fuel as [|fuel]; [lia|].
  unfold encode_all. cbn [map concat]. rewrite decode_stream_step by done.
  unfold encode_all in IH. rewrite IH by lia. done.
Qed.

Lemma length_encode_all l : (length l <= length (encode_all l))%nat.
Proof.
  induction l as [|i l IH]; [done|]. unfold encode_all in *. cbn [map concat length].
  rewrite length_app. pose proof (length_encode_pos i). lia.
Qed.

Lemma decode_all_encode l : Forall instr_ok l -> decode_all (encode_all l) = Some l.
Proof. intros. apply decode_stream_encode; [done|apply length_encode_all]. Qed.

Lemma encode_all_app l l' : encode_all (l ++ l') = encode_all l ++ encode_all l'.
Proof. unfold encode_all. by rewrite map_app, concat_app. Qed.

(** ** Stack depths *)

(** What the metadata says of a token in the instruction stream: how many values a call through it
    takes and leaves. *)
Definition Arity : Type := Z -> option (nat * nat).

(** The values an instruction pops and pushes; [rets] is 1 in a method that returns a value. *)
Definition effect (arity : Arity) (rets : nat) (i : Instr) : option (nat * nat) :=
  let op := opcode i in
  if (op =? 0x28) || (op =? 0x6F) || (op =? 0x73) || (op =? 0x29) then  (* call, callvirt, newobj, calli *)
    match operand i with
    | Tok t => '(pops, pushes) ← arity t; Some ((if op =? 0x29 then S pops else pops), pushes)
    | _ => None
    end
  else if between 0x00 0x01 op then Some (0, 0)%nat      (* nop, break *)
  else if between 0x02 0x09 op then Some (0, 1)%nat      (* ldarg.N, ldloc.N *)
  else if between 0x0A 0x0D op then Some (1, 0)%nat      (* stloc.N *)
  else if (op =? 0x10) || (op =? 0x13) then Some (1, 0)%nat (* starg.s, stloc.s *)
  else if between 0x0E 0x12 op then Some (0, 1)%nat      (* ldarg.s, ldarga.s, ldloc.s, ldloca.s *)
  else if between 0x14 0x23 op then Some (0, 1)%nat      (* constants *)
  else if op =? 0x25 then Some (1, 2)%nat                (* dup *)
  else if op =? 0x26 then Some (1, 0)%nat                (* pop *)
  else if op =? 0x2A then Some (rets, 0)%nat             (* ret *)
  else if op =? 0x38 then Some (0, 0)%nat                (* br *)
  else if between 0x39 0x3A op then Some (1, 0)%nat      (* brfalse, brtrue *)
  else if between 0x3B 0x44 op then Some (2, 0)%nat      (* beq .. blt.un *)
  else if between 0x46 0x50 op then Some (1, 1)%nat      (* ldind.* *)
  else if between 0x51 0x57 op then Some (2, 0)%nat      (* stind.* *)
  else if between 0x58 0x64 op then Some (2, 1)%nat      (* binary arithmetic *)
  else if between 0x65 0x6E op then Some (1, 1)%nat      (* neg, not, conv.* *)
  else if op =? 0x70 then Some (2, 0)%nat                (* cpobj *)
  else if op =? 0x71 then Some (1, 1)%nat                (* ldobj *)
  else if op =? 0x72 then Some (0, 1)%nat                (* ldstr *)
  else if between 0x74 0x76 op then Some (1, 1)%nat      (* castclass, isinst, conv.r.un *)
  else if op =? 0x7A then Some (1, 0)%nat                (* throw *)
  else if between 0x7B 0x7C op then Some (1, 1)%nat      (* ldfld, ldflda *)
  else if op =? 0x7D then Some (2, 0)%nat                (* stfld *)
  else if between 0x7E 0x7F op then Some (0, 1)%nat      (* ldsfld, ldsflda *)
  else if op =? 0x80 then Some (1, 0)%nat                (* stsfld *)
  else if op =? 0x81 then Some (2, 0)%nat                (* stobj *)
  else if between 0x8C 0x8E op then Some (1, 1)%nat      (* box, newarr, ldlen *)
  else if op =? 0x9A then Some (2, 1)%nat                (* ldelem.ref *)
  else if between 0x9B 0xA2 op then Some (3, 0)%nat      (* stelem.* *)
  else if op =? 0xA3 then Some (2, 1)%nat                (* ldelem *)
  else if op =? 0xA4 then Some (3, 0)%nat                (* stelem *)
  else if op =? 0xA5 then Some (1, 1)%nat                (* unbox.any *)
  else if op =? 0xD0 then Some (0, 1)%nat                (* ldtoken *)
  else if between 0xD1 0xD3 op then Some (1, 1)%nat      (* conv.u2, conv.u1, conv.i *)
  else if op =? 0xDD then Some (0, 0)%nat                (* leave *)
  else if op =? 0xDF then Some (2, 0)%nat                (* stind.i *)
  else if op =? 0xE0 then Some (1, 1)%nat                (* conv.u *)
  else if between 0xFE01 0xFE05 op then Some (2, 1)%nat  (* ceq .. clt.un *)
  else if op =? 0xFE06 then Some (0, 1)%nat              (* ldftn *)
  else if (op =? 0xFE0B) || (op =? 0xFE0E) then Some (1, 0)%nat (* starg, stloc *)
  else if between 0xFE09 0xFE0D op then Some (0, 1)%nat  (* ldarg, ldarga, ldloc, ldloca *)
  else if op =? 0xFE0F then Some (1, 1)%nat              (* localloc *)
  else if op =? 0xFE13 then Some (0, 0)%nat              (* volatile. *)
  else if op =? 0xFE15 then Some (1, 0)%nat              (* initobj *)
  else if between 0xFE17 0xFE18 op then Some (3, 0)%nat  (* cpblk, initblk *)
  else if op =? 0xFE1A then Some (0, 0)%nat              (* rethrow *)
  else if op =? 0xFE1C then Some (0, 1)%nat              (* sizeof *)
  else None.

(** The depth after a straight run from depth [d], and the deepest the stack got; [None] on an
    underflow. *)
Fixpoint depths (arity : Arity) (rets : nat) (l : list Instr) (d : nat) : option (nat * nat) :=
  match l with
  | [] => Some (d, d)
  | i :: l =>
      '(pops, pushes) ← effect arity rets i;
      if (d <? pops)%nat then None
      else '(d', m) ← depths arity rets l (d - pops + pushes); Some (d', Nat.max d m)
  end.

Lemma depths_app arity rets l l' d d1 m1 d2 m2 :
  depths arity rets l d = Some (d1, m1) -> depths arity rets l' d1 = Some (d2, m2) ->
  depths arity rets (l ++ l') d = Some (d2, Nat.max m1 m2).
Proof.
  revert d m1. induction l as [|i l IH]; intros d m1; cbn [app depths].
  - intros [= <- <-] H. rewrite H. do 2 f_equal.
    enough (d <= m2)%nat by lia. destruct l'; cbn [depths] in H; [simplify_eq; lia|].
    destruct (effect _ _ _) as [[]|]; cbn in H; [|done]. case_match; [done|].
    destruct (depths _ _ _ _) as [[]|]; cbn in H; [simplify_eq; lia|done].
  - destruct (effect arity rets i) as [[pops pushes]|]; cbn [mbind option_bind]; [|done].
    destruct (d <? pops)%nat; [done|].
    destruct (depths arity rets l _) as [[dd mm]|] eqn:Hd; cbn [mbind option_bind]; [|done].
    intros [= -> <-] H. rewrite (IH _ _ Hd H). cbn. do 2 f_equal. lia.
Qed.
