(* ===== verification/CilSem.v ===== *)
(** * The evaluation of CIL instructions on the stack (ECMA-335, Partition III)

    The integer, native and floating slots of the evaluation stack, and what the instructions that
    load, compute and convert do to them.  Pointers are 64 bits wide on the target. *)

From S2P Require Import Prelude Interner Types IR Block BlockTheory Opt OptSem Cil.
From Stdlib Require Import Floats.SpecFloat.

(** ** Slots *)

(** Integers by their bits, as unsigned numbers; an address keeps its provenance. *)
Inductive cell : Set :=
| S32 (bits : Z)
| S64 (bits : Z)
| SNative (bits : Z)
| SFloat (float : Float.t) (x : spec_float)
| SAddr (a : address)
| SStruct (s : Z).

#[export] Instance slot_eq_dec : EqDecision cell.
Proof. solve_decision. Defined.

(** The cell a typed value is held in; 128-bit integers are objects of the class library. *)
Definition slot_of (v : value) : option cell :=
  match v with
  | VInt i z =>
      match i with
      | Int.I8 | Int.U8 | Int.I16 | Int.U16 | Int.I32 | Int.U32 => Some (S32 (wrap 32 z))
      | Int.I64 | Int.U64 => Some (S64 (wrap 64 z))
      | Int.ISize | Int.USize => Some (SNative (wrap 64 z))
      | Int.I128 | Int.U128 => None
      end
  | VBool b => Some (S32 (Z.b2z b))
  | VFloat f x => Some (SFloat f x)
  | VAddr a => Some (SAddr a)
  | VStruct s => Some (SStruct s)
  end.

(** ** Constants *)

(** [ldc.i4] in its forms, [ldc.i8], [ldc.r4] and [ldc.r8]. *)
Definition ldc (i : Instr) : option cell :=
  match operand i with
  | NoOperand => if between 0x15 0x1E (opcode i) then Some (S32 (wrap 32 (opcode i - 0x16))) else None
  | I8 v => if opcode i =? 0x1F then Some (S32 (wrap 32 v)) else None
  | I32 v => if opcode i =? 0x20 then Some (S32 (wrap 32 v)) else None
  | I64 v => if opcode i =? 0x21 then Some (S64 (wrap 64 v)) else None
  | R4 bits => if opcode i =? 0x22 then Some (SFloat Float.F32 (f32_of_bits bits)) else None
  | R8 bits => if opcode i =? 0x23 then Some (SFloat Float.F64 (f64_of_bits bits)) else None
  | _ => None
  end.

(** ** Conversions *)

(** The bits of an integer cell and its width. *)
Definition int_slot (s : cell) : option (Z * Z) :=
  match s with S32 z => Some (32, z) | S64 z | SNative z => Some (64, z) | _ => None end.

(** [conv.<int>]: the low bits of the value, extended as the target's signedness says; widening
    extends a 32-bit cell the same way. *)
Definition conv (op : Z) (s : cell) : option cell :=
  '(w, z) ← int_slot s;
  let signed := swrap w z in
  if op =? 0x67 then Some (S32 (wrap 32 (swrap 8 z)))
  else if op =? 0x68 then Some (S32 (wrap 32 (swrap 16 z)))
  else if op =? 0x69 then Some (S32 (wrap 32 z))
  else if op =? 0x6A then Some (S64 (wrap 64 signed))
  else if op =? 0x6D then Some (S32 (wrap 32 z))
  else if op =? 0x6E then Some (S64 (wrap 64 z))
  else if op =? 0xD1 then Some (S32 (wrap 16 z))
  else if op =? 0xD2 then Some (S32 (wrap 8 z))
  else if op =? 0xD3 then Some (SNative (wrap 64 signed))
  else if op =? 0xE0 then Some (SNative (wrap 64 z))
  else None.

(** A constant as the writer loads it: one instruction, or one and a conversion. *)
Definition load (l : list Instr) : option cell :=
  match l with
  | [i] => ldc i
  | [i; j] => if bool_decide (operand j = NoOperand) then s ← ldc i; conv (opcode j) s else None
  | _ => None
  end.

(** ** Binary operations *)

Definition compare_slots (unsigned : bool) (a b : cell) : option (option comparison) :=
  match a, b with
  | S32 x, S32 y =>
      Some (Some (if unsigned then Z.compare x y else Z.compare (swrap 32 x) (swrap 32 y)))
  | S64 x, S64 y | SNative x, SNative y =>
      Some (Some (if unsigned then Z.compare x y else Z.compare (swrap 64 x) (swrap 64 y)))
  | SFloat f x, SFloat g y => if bool_decide (f = g) then Some (SFcompare x y) else None
  | _, _ => None
  end.

(** Arithmetic of two slots of one width; [Rem] and [RemUn] are undefined on zero, and [Rem] on
    the one quotient that overflows. *)
Definition arith (op : Z) (w x y : Z) : option Z :=
  if op =? 0x58 then Some (wrap w (x + y))
  else if op =? 0x59 then Some (wrap w (x - y))
  else if op =? 0x5A then Some (wrap w (x * y))
  else if op =? 0x5D then
    if (y =? 0) || ((swrap w x =? - 2 ^ (w - 1)) && (swrap w y =? -1)) then None
    else Some (wrap w (Z.rem (swrap w x) (swrap w y)))
  else if op =? 0x5E then if y =? 0 then None else Some (wrap w (Z.rem x y))
  else None.

(** Addresses move by whole numbers only when they carry no provenance. *)
Definition add_slot (a : address) (n : Z) : option cell :=
  if n =? 0 then Some (SAddr a)
  else match a with ARaw p => Some (SAddr (ARaw (wrap 64 (p + n)))) | _ => None end.

Definition binary (op : Z) (a b : cell) : option cell :=
  let test (un : bool) (t : comparison -> bool) :=
    o ← compare_slots un a b;
    Some (S32 (Z.b2z (match o with Some c => t c | None => un end))) in
  if op =? 0xFE01 then
    o ← compare_slots false a b;
    Some (S32 (Z.b2z (match o with Some c => is_eq c | None => false end)))
  else if op =? 0xFE02 then test false is_gt
  else if op =? 0xFE03 then test true is_gt
  else if op =? 0xFE04 then test false is_lt
  else if op =? 0xFE05 then test true is_lt
  else
    match a, b with
    | S32 x, S32 y => S32 <$> arith op 32 x y
    | S64 x, S64 y => S64 <$> arith op 64 x y
    | SNative x, SNative y => SNative <$> arith op 64 x y
    | SAddr p, SNative n =>
        if op =? 0x58 then add_slot p (swrap 64 n)
        else if op =? 0x59 then add_slot p (- swrap 64 n) else None
    | SNative n, SAddr p => if op =? 0x58 then add_slot p (swrap 64 n) else None
    | _, _ => None
    end.
