(* ===== verification/Body.v ===== *)
(** * Method bodies as bytes (cilly/src/ir/pe_exporter/body.rs)

    The emitter: instructions appended to a buffer, labels and branch operands recorded and patched
    in a second pass, exception clauses, [.maxstack], and the fat method header and exception section
    of ECMA-335.  Metadata tokens come from the interface [TokenSink], the trait of tables.rs. *)

From S2P Require Import Prelude Interner Types IR Walk Assign Block Method Opt Heaps Layout Signature Cil.

(** ** The token interface (tables.rs, [TokenSink]) *)

Class TokenSink (T : Type) : Type := {
  method_token {E} : Interned KMethodRef -> list Ty.t -> ST (T * Assembly) E Z;
  field_token {E} : Interned KField -> ST (T * Assembly) E Z;
  static_field_token {E} : Interned KStatic -> ST (T * Assembly) E Z;
  user_string_token {E} : string -> ST T E Z;
  calli_sig_token {E} : string -> list Z -> ST (T * Assembly) E Z;
  locals_sig_token {E} : list Ty.t -> ST (T * Assembly) E Z;
  type_token {E} : Ty.t -> ST (T * Assembly) E Z;
  type_def_or_ref_token {E} : Interned KClassRef -> ST (T * Assembly) E Z }.

(** The [Resolver] of [calli_sig_token]. *)
#[export] Instance sink_resolver T `{TokenSink T} : TypeDefOrRefResolver T := {|
  type_def_or_ref E := type_def_or_ref_token |}.

(** ** The emitter *)

Module Label.
Inductive t : Set :=
| Block (id : Z)
| HandlerLeave (block sub : Z)
| ProtectedLeave (block sub : Z)
| TerminateDone (n : Z)
| Marker (n : Z).

#[global] Instance eq_dec : EqDecision t.
Proof. solve_decision. Defined.
#[global] Program Instance countable : Countable t :=
  inj_countable' (fun l => match l with
    | Block id => inl (inl id) | HandlerLeave b s => inl (inr (b, s, true))
    | ProtectedLeave b s => inl (inr (b, s, false)) | TerminateDone n => inr (n, true)
    | Marker n => inr (n, false)
    end)
  (fun c => match c with
    | inl (inl id) => Block id | inl (inr (b, s, true)) => HandlerLeave b s
    | inl (inr (b, s, false)) => ProtectedLeave b s | inr (n, true) => TerminateDone n
    | inr (n, false) => Marker n
    end) _.
Next Obligation. by intros []. Qed.
End Label.

Record PendingClause : Set := mk_Clause {
  try_start : Label.t; try_end : Label.t; handler_start : Label.t; handler_end : Label.t }.

(** pdb.rs *)
Record SequencePoint : Set := mk_SequencePoint {
  il_offset : Z; document_path : string; line : Z; col : Z; end_line : Z; end_col : Z;
  is_hidden : bool }.

Record Emitter (T : Type) : Type := mk_Emitter {
  em_asm : Assembly;
  em_tokens : T;
  em_out : list Z;
  label_offsets : gmap Label.t Z;
  branch_fixups : list (Z * Label.t);
  clauses : list PendingClause;
  marker_counter : Z;
  terminate_region_counter : Z;
  sequence_points : list SequencePoint }.
Arguments mk_Emitter {T}.
Arguments em_asm {T}.
Arguments em_tokens {T}.
Arguments em_out {T}.
Arguments label_offsets {T}.
Arguments branch_fixups {T}.
Arguments clauses {T}.
Arguments marker_counter {T}.
Arguments terminate_region_counter {T}.
Arguments sequence_points {T}.

#[export] Program Instance emitter_has_asm T : HasAsm (Emitter T) := {|
  asm_of := em_asm;
  set_asm s a := mk_Emitter a (em_tokens s) (em_out s) (label_offsets s) (branch_fixups s) (clauses s)
    (marker_counter s) (terminate_region_counter s) (sequence_points s) |}.
Next Obligation. done. Qed.
Next Obligation. by intros ? []. Qed.

(** [utilis::encode]: a number in base 61; 64 digits are more than a [u64] has. *)
Definition CHARS : string := "0123456789abcdefghijklmnoprstuwvxyzABCDEFGHIJKLMNOPRSTUWVXYZ_".

Fixpoint encode_digits (fuel : nat) (int : Z) : string :=
  match fuel with
  | O => ""
  | S fuel => if int =? 0 then "" else
      match String.get (Z.to_nat (int mod 61)) CHARS with
      | Some c => String c (encode_digits fuel (int / 61))
      | None => ""
      end
  end.
Definition encode_u64 (int : Z) : string := encode_digits 64 int.

Section emitter.
Context {T : Type} `{TokenSink T} {hash_order : HashMapOrder} {E : Type}.
(** Fuel of signatures and mangling. *)
Context (sfuel mfuel : nat).

Local Notation M := (ST (Emitter T) E).

Definition set_out (s : Emitter T) (out : list Z) : Emitter T :=
  mk_Emitter (em_asm s) (em_tokens s) out (label_offsets s) (branch_fixups s) (clauses s)
    (marker_counter s) (terminate_region_counter s) (sequence_points s).

(** A query of the sink, which takes the assembly too. *)
Definition on_sink {A} (m : ST (T * Assembly) E A) : M A := fun s =>
  let '((t, a), r) := m (em_tokens s, em_asm s) in
  (mk_Emitter a t (em_out s) (label_offsets s) (branch_fixups s) (clauses s)
     (marker_counter s) (terminate_region_counter s) (sequence_points s), r).

Definition string_token (msg : string) : M Z :=
  on_sink (fun '(t, a) => let '(t, r) := user_string_token msg t in ((t, a), r)).

(** The signature encoder, with the sink as its resolver. *)
Definition on_sig {A} (m : ST (SigState T) E A) : M A :=
  on_sink (fun '(t, a) =>
    let '(s, r) := m (mk_SigState a t) in ((sg_resolver s, sg_asm s), r)).

(** *** Bytes and labels *)

Definition push (bs : list Z) : M unit := modify (fun s => set_out s (em_out s ++ bs)).
Definition push_u8 (b : Z) : M unit := push [b].
Definition push_i32 (v : Z) : M unit := push (le_bytes 4 v).
Definition push_u32 (v : Z) : M unit := push (le_bytes 4 v).
Definition push_i64 (v : Z) : M unit := push (le_bytes 8 v).
Definition push_token (tok : Z) : M unit := push_u32 tok.
Definition push_ext (sub : Z) : M unit := _ ← push_u8 0xFE; push_u8 sub.
Definition push_volatile_prefix : M unit := push_ext 0x13.

(** [u32::try_from(self.out.len())] *)
Definition out_len : M Z := reads (fun s => expect_u32 (Z.of_nat (length (em_out s)))).

Definition define_label (label : Label.t) : M unit :=
  off ← out_len;
  modify (fun s => mk_Emitter (em_asm s) (em_tokens s) (em_out s) (<[label := off]> (label_offsets s))
    (branch_fixups s) (clauses s) (marker_counter s) (terminate_region_counter s) (sequence_points s)).

Definition here : M Label.t :=
  s ← ask;
  let lbl := Label.Marker (marker_counter s) in
  _ ← modify (fun s => mk_Emitter (em_asm s) (em_tokens s) (em_out s) (label_offsets s)
        (branch_fixups s) (clauses s) (marker_counter s + 1) (terminate_region_counter s)
        (sequence_points s));
  _ ← define_label lbl;
  mret lbl.

Definition push_branch (opcode : Z) (target : Label.t) : M unit :=
  _ ← push_u8 opcode;
  operand_off ← out_len;
  _ ← push_i32 0;
  modify (fun s => mk_Emitter (em_asm s) (em_tokens s) (em_out s) (label_offsets s)
    (branch_fixups s ++ [(operand_off, target)]) (clauses s) (marker_counter s)
    (terminate_region_counter s) (sequence_points s)).

Definition push_clause (c : PendingClause) : M unit :=
  modify (fun s => mk_Emitter (em_asm s) (em_tokens s) (em_out s) (label_offsets s)
    (branch_fixups s) (clauses s ++ [c]) (marker_counter s) (terminate_region_counter s)
    (sequence_points s)).

(** [i32::try_from(rel).expect(..)] *)
Definition expect_i32 (n : Z) : outcome E Z :=
  if (- 2 ^ 31 <=? n) && (n <? 2 ^ 31) then Ok n else Panic.

Definition overwrite (off : nat) (bs out : list Z) : list Z :=
  take off out ++ bs ++ drop (off + length bs) out.

Definition resolve_label (s : Emitter T) (label : Label.t) : outcome E Z :=
  unwrap (label_offsets s !! label).

Definition patch_branch (fixup : Z * Label.t) : M unit :=
  let '(operand_off, target) := fixup in
  target_off ← reads (fun s => resolve_label s target);
  rel ← lift (expect_i32 (target_off - (operand_off + 4)));
  modify (fun s => set_out s (overwrite (Z.to_nat operand_off) (le_bytes 4 rel) (em_out s))).

Definition patch_branches : M unit :=
  s ← ask;
  let fixups := branch_fixups s in
  _ ← modify (fun s => mk_Emitter (em_asm s) (em_tokens s) (em_out s) (label_offsets s) [] (clauses s)
        (marker_counter s) (terminate_region_counter s) (sequence_points s));
  for_each patch_branch fixups.

(** *** Tokens *)

Definition method_token_for_mref (mref : Interned KMethodRef) : M Z :=
  m ← reads (fun s => get_mref (em_asm s) mref);
  on_sink (method_token mref (mr_generics m)).

Definition emit_token_op (opcode : Z) (tpe : Ty.t) : M unit :=
  tok ← on_sink (type_token tpe);
  _ ← push_u8 opcode;
  push_token tok.

Definition bcl_class_ref (name : string) (is_valuetype : bool) : M (Interned KClassRef) :=
  on_asm (asm_name ← alloc_string "System.Runtime";
          type_name ← alloc_string name;
          alloc_class_ref {| cr_name := type_name; cr_asm := Some asm_name;
                             cr_is_valuetype := is_valuetype; cr_generics := [] |}).
Definition bcl_valuetype_ref (name : string) : M (Interned KClassRef) := bcl_class_ref name true.

Definition emit_bcl_obj (opcode : Z) (name : string) : M unit :=
  cref ← bcl_valuetype_ref name;
  emit_token_op opcode (Ty.ClassRef cref).

(** A method of a base class, by its signature. *)
Definition bcl_method (cref : Interned KClassRef) (name : string) (input : list Ty.t) (out : Ty.t)
    (kind : MethodKind.t) : M Z :=
  mref ← on_asm (sig ← asm_sig input out; new_methodref cref name sig kind []);
  method_token_for_mref mref.

Definition emit_int128_op_implicit (cref : Interned KClassRef) (from : Ty.t) : M unit :=
  tok ← bcl_method cref "op_Implicit" [from] (Ty.ClassRef cref) MethodKind.Static;
  _ ← push_u8 0x28;
  push_token tok.

Definition emit_int128_ctor (cref : Interned KClassRef) : M unit :=
  tok ← bcl_method cref ".ctor" [Ty.ClassRef cref; Ty.Int Int.U64; Ty.Int Int.U64] Ty.Void
          MethodKind.Constructor;
  _ ← push_u8 0x73;
  push_token tok.

Definition system_exception_ctor : M Z :=
  cref ← bcl_class_ref "System.Exception" false;
  bcl_method cref ".ctor" [Ty.ClassRef cref; Ty.PlatformString] Ty.Void MethodKind.Constructor.

Definition environment_failfast : M Z :=
  cref ← bcl_class_ref "System.Environment" false;
  bcl_method cref "FailFast" [Ty.PlatformString] Ty.Void MethodKind.Static.

Definition system_object_token : M Z :=
  cref ← bcl_class_ref "System.Object" false;
  on_sink (type_token (Ty.ClassRef cref)).

Definition const_blob_field_token (data : Interned KBuffer) : M Z :=
  main_module ← on_asm (main_module mfuel);
  bytes ← reads (fun s => get_const_data (em_asm s) data);
  let n := Z.max (Z.of_nat (length bytes)) 1 in
  sfld ← on_asm (
    field_name ← alloc_string ("c_" +:+ encode_u64 (inner data));
    blob_ty_name ← alloc_string ("__rcl_const_blob_" +:+ pretty n);
    blob_cref ← alloc_class_ref {| cr_name := blob_ty_name; cr_asm := None; cr_is_valuetype := true;
                                   cr_generics := [] |};
    alloc_sfld {| static_owner := main_module; static_name := field_name;
                  static_tpe := Ty.ClassRef blob_cref |});
  on_sink (static_field_token sfld).

Definition emit_calli_sig_token (fn_sig : Interned KSig) : M Z :=
  sig_val ← reads (fun s => get_sig (em_asm s) fn_sig);
  ins ← reads (fun s => map_outcome (mangle mfuel (em_asm s)) (inputs sig_val));
  out ← reads (fun s => mangle mfuel (em_asm s) (output sig_val));
  let semantic_key := ("(" +:+ String.concat "," ins +:+ ")->" +:+ out)%string in
  blob ← on_sig (encode_method_sig (encode_type sfuel) SIG_DEFAULT 0 sig_val);
  on_sink (calli_sig_token semantic_key blob).

(** *** Indices and constants *)

Definition emit_compact_index (index : Z) (compact : Z) (short wide : Z) : M unit :=
  if index <=? 3 then push_u8 (compact + index)
  else if index <=? 255 then _ ← push_u8 short; push_u8 (wrap 8 index)
  else _ ← push_ext wide; push_u32 index.

Definition emit_short_index (index short wide : Z) : M unit :=
  if index <=? 255 then _ ← push_u8 short; push_u8 (wrap 8 index)
  else _ ← push_ext wide; push_u32 index.

Definition emit_ldloc (loc : Z) : M unit := emit_compact_index loc 0x06 0x11 0x0C.
Definition emit_ldloca (loc : Z) : M unit := emit_short_index loc 0x12 0x0D.
Definition emit_ldarg (arg : Z) : M unit := emit_compact_index arg 0x02 0x0E 0x09.
Definition emit_ldarga (arg : Z) : M unit := emit_short_index arg 0x0F 0x0A.
Definition emit_stloc (loc : Z) : M unit := emit_compact_index loc 0x0A 0x13 0x0E.
Definition emit_starg (arg : Z) : M unit := emit_short_index arg 0x10 0x0B.

Definition push_short_form_ldc (val : Z) : M unit := push_u8 (0x16 + val).

Definition emit_ldc_i4_signed (val : Z) : M unit :=
  if val =? -1 then push_u8 0x15
  else if between 0 8 val then push_short_form_ldc val
  else if between 9 127 val then _ ← push_u8 0x1F; push_u8 (wrap 8 val)
  else _ ← push_u8 0x20; push_i32 val.

Definition emit_ldc_i4_i8_band (val : Z) : M unit :=
  if val =? -1 then push_u8 0x15
  else if between 0 8 val then push_short_form_ldc val
  else _ ← push_u8 0x1F; push_u8 (wrap 8 val).

Definition emit_ldc_i4_unsigned (val : Z) : M unit :=
  if between 0 8 val then emit_ldc_i4_signed val
  else if between 9 127 val then _ ← push_u8 0x1F; push_u8 (wrap 8 val)
  else _ ← push_u8 0x20; push_i32 val.

Definition emit_ldc_i8_via_i4_with_conv (val trailing_conv : Z) : M unit :=
  _ ← (if between (- 2 ^ 31) (2 ^ 31 - 1) val then emit_ldc_i4_signed val
       else _ ← push_u8 0x21; push_i64 val);
  push_u8 trailing_conv.

Definition emit_ldc_i8_via_i4 (val : Z) : M unit := emit_ldc_i8_via_i4_with_conv val 0x6A.

Definition emit_ldc_u64 (val : Z) : M unit :=
  if between 0 8 val then _ ← emit_ldc_i4_signed val; push_u8 0x6E
  else if between 9 127 val then _ ← push_u8 0x1F; _ ← push_u8 (wrap 8 val); push_u8 0x6E
  else if between 128 4294967295 val then _ ← push_u8 0x20; _ ← push_i32 val; push_u8 0x6E
  else _ ← push_u8 0x21; push_i64 val.

Definition emit_ldc_usize (val : Z) : M unit :=
  if between 0 8 val then _ ← emit_ldc_i4_signed val; push_u8 0xE0
  else if between 9 127 val then _ ← push_u8 0x1F; _ ← push_u8 (wrap 8 val); push_u8 0xE0
  else if between 128 2147483647 val then _ ← push_u8 0x20; _ ← push_i32 val; push_u8 0xE0
  else _ ← push_u8 0x21; _ ← push_i64 val; push_u8 0xE0.

(** The two halves of a 128-bit value and the constructor that joins them. *)
Definition emit_int128_halves (cref : Interned KClassRef) (val : Z) : M unit :=
  let low := Z.land (wrap 128 val) (2 ^ 64 - 1) in
  let high := Z.shiftr (wrap 128 val) 64 in
  _ ← push_u8 0x21; _ ← push_i64 high;
  _ ← push_u8 0x21; _ ← push_i64 low;
  emit_int128_ctor cref.

Definition emit_i128 (val : Z) : M unit :=
  cref ← bcl_valuetype_ref "System.Int128";
  if val =? -1 then _ ← push_u8 0x15; emit_int128_op_implicit cref (Ty.Int Int.I32)
  else if between 0 8 val then
    _ ← push_short_form_ldc val; emit_int128_op_implicit cref (Ty.Int Int.I32)
  else if between 9 127 val then
    _ ← push_u8 0x1F; _ ← push_u8 (wrap 8 val); emit_int128_op_implicit cref (Ty.Int Int.I32)
  else if between (-2147483648) (-1) val || between 128 2147483647 val then
    _ ← push_u8 0x20; _ ← push_i32 val; emit_int128_op_implicit cref (Ty.Int Int.I32)
  else if between (-9223372036854775808) (-2147483649) val
          || between 2147483648 9223372036854775807 val then
    _ ← push_u8 0x21; _ ← push_i64 val; emit_int128_op_implicit cref (Ty.Int Int.I64)
  else emit_int128_halves cref val.

Definition emit_u128 (val : Z) : M unit :=
  cref ← bcl_valuetype_ref "System.UInt128";
  if between 0 8 val then
    _ ← emit_ldc_i4_signed val; emit_int128_op_implicit cref (Ty.Int Int.U32)
  else if between 9 127 val then
    _ ← push_u8 0x1F; _ ← push_u8 (wrap 8 val); emit_int128_op_implicit cref (Ty.Int Int.U32)
  else if between 128 4294967295 val then
    _ ← push_u8 0x20; _ ← push_i32 val; emit_int128_op_implicit cref (Ty.Int Int.U32)
  else if between 4294967296 18446744073709551615 val then
    _ ← push_u8 0x21; _ ← push_i64 val; emit_int128_op_implicit cref (Ty.Int Int.U64)
  else emit_int128_halves cref val.

Definition emit_const (cst : Const.t) : M unit :=
  match cst with
  | Const.ByteBuffer data _ =>
      tok ← const_blob_field_token data; _ ← push_u8 0x7F; push_token tok
  | Const.Null _ => push_u8 0x14
  | Const.I8 v => emit_ldc_i4_i8_band v
  | Const.I16 v | Const.I32 v => emit_ldc_i4_signed v
  | Const.I64 v => emit_ldc_i8_via_i4 v
  | Const.ISize v => emit_ldc_i8_via_i4_with_conv v 0xD3
  | Const.U8 v | Const.U16 v => emit_ldc_i4_signed v
  | Const.U32 v => emit_ldc_i4_unsigned v
  | Const.U64 v => emit_ldc_u64 v
  | Const.USize v => emit_ldc_usize v
  | Const.I128 v => emit_i128 v
  | Const.U128 v => emit_u128 v
  | Const.PlatformString s =>
      s ← reads (fun st => get_string (em_asm st) s);
      tok ← string_token s; _ ← push_u8 0x72; push_token tok
  | Const.Bool v => push_u8 (if v then 0x17 else 0x16)
  | Const.F32 bits => _ ← push_u8 0x22; push (le_bytes 4 bits)
  | Const.F64 bits => _ ← push_u8 0x23; push (le_bytes 8 bits)
  end.

(** *** Operators *)

Definition emit_binop (op : BinOp.t) : M unit :=
  match op with
  | BinOp.Add => push_u8 0x58 | BinOp.Eq => push_ext 0x01 | BinOp.Sub => push_u8 0x59
  | BinOp.Mul => push_u8 0x5A | BinOp.Gt => push_ext 0x02 | BinOp.GtUn => push_ext 0x03
  | BinOp.Lt => push_ext 0x04 | BinOp.LtUn => push_ext 0x05 | BinOp.Or => push_u8 0x60
  | BinOp.XOr => push_u8 0x61 | BinOp.And => push_u8 0x5F | BinOp.Rem => push_u8 0x5D
  | BinOp.RemUn => push_u8 0x5E | BinOp.Shl => push_u8 0x62 | BinOp.Shr => push_u8 0x63
  | BinOp.ShrUn => push_u8 0x64 | BinOp.DivUn => push_u8 0x5C | BinOp.Div => push_u8 0x5B
  end.

(** The [todo!] of 128-bit targets panics. *)
Definition emit_int_cast (target : Int.t) (extend : ExtendKind.t) : M unit :=
  match target, extend with
  | Int.U8, ExtendKind.ZeroExtend | Int.I8, ExtendKind.ZeroExtend => push_u8 0xD2
  | Int.U8, ExtendKind.SignExtend | Int.I8, ExtendKind.SignExtend => push_u8 0x67
  | Int.U16, ExtendKind.ZeroExtend | Int.I16, ExtendKind.ZeroExtend => push_u8 0xD1
  | Int.U16, ExtendKind.SignExtend | Int.I16, ExtendKind.SignExtend => push_u8 0x68
  | Int.U32, ExtendKind.ZeroExtend | Int.I32, ExtendKind.ZeroExtend => push_u8 0x6D
  | Int.U32, ExtendKind.SignExtend | Int.I32, ExtendKind.SignExtend => push_u8 0x69
  | Int.U64, ExtendKind.ZeroExtend | Int.I64, ExtendKind.ZeroExtend => push_u8 0x6E
  | Int.U64, ExtendKind.SignExtend | Int.I64, ExtendKind.SignExtend => push_u8 0x6A
  | Int.USize, ExtendKind.SignExtend | Int.ISize, ExtendKind.SignExtend => push_u8 0xD3
  | Int.USize, ExtendKind.ZeroExtend | Int.ISize, ExtendKind.ZeroExtend => push_u8 0xE0
  | Int.U128, _ | Int.I128, _ => panic
  end.

Definition emit_float_cast (target : Float.t) (is_signed : bool) : M unit :=
  match target, is_signed with
  | Float.F16, _ => panic
  | Float.F32, true => push_u8 0x6B
  | Float.F32, false => _ ← push_u8 0x76; push_u8 0x6B
  | Float.F64, true => push_u8 0x6C
  | Float.F64, false => _ ← push_u8 0x76; push_u8 0x6C
  | Float.F128, _ => panic
  end.

Definition emit_ldind (tpe : Ty.t) (volatile : bool) : M unit :=
  _ ← (if volatile then push_volatile_prefix else mret tt);
  match tpe with
  | Ty.Ptr _ | Ty.FnPtr _ => push_u8 0x4D
  | Ty.Ref _ => panic
  | Ty.Int int =>
      match int with
      | Int.U8 => push_u8 0x47 | Int.U16 => push_u8 0x49 | Int.U32 => push_u8 0x4B
      | Int.U64 | Int.I64 => push_u8 0x4C
      | Int.U128 => emit_bcl_obj 0x71 "System.UInt128"
      | Int.USize | Int.ISize => push_u8 0x4D
      | Int.I8 => push_u8 0x46 | Int.I16 => push_u8 0x48 | Int.I32 => push_u8 0x4A
      | Int.I128 => emit_bcl_obj 0x71 "System.Int128"
      end
  | Ty.ClassRef _ => emit_token_op 0x71 tpe
  | Ty.Float float =>
      match float with
      | Float.F16 => emit_bcl_obj 0x71 "System.Half"
      | Float.F32 => push_u8 0x4E | Float.F64 => push_u8 0x4F
      | Float.F128 => emit_token_op 0x71 tpe
      end
  | Ty.PlatformString | Ty.PlatformObject | Ty.PlatformArray _ _ => push_u8 0x50
  | Ty.PlatformChar => push_u8 0x49
  | Ty.PlatformGeneric _ _ => panic
  | Ty.Bool => push_u8 0x46
  | Ty.Void => panic
  | Ty.SIMDVector _ => emit_token_op 0x71 tpe
  end.

Definition emit_throw_new_exception (msg : string) : M unit :=
  str_tok ← string_token msg;
  _ ← push_u8 0x72;
  _ ← push_token str_tok;
  ctor_tok ← system_exception_ctor;
  _ ← push_u8 0x73;
  _ ← push_token ctor_tok;
  push_u8 0x7A.

Definition emit_stind (tpe : Ty.t) (volatile : bool) : M unit :=
  _ ← (if volatile then push_volatile_prefix else mret tt);
  match tpe with
  | Ty.Ptr _ | Ty.FnPtr _ => push_u8 0xDF
  | Ty.Ref _ => panic
  | Ty.Int int =>
      match int with
      | Int.U8 | Int.I8 => push_u8 0x52 | Int.U16 | Int.I16 => push_u8 0x53
      | Int.U32 | Int.I32 => push_u8 0x54 | Int.U64 | Int.I64 => push_u8 0x55
      | Int.U128 => emit_bcl_obj 0x81 "System.UInt128"
      | Int.I128 => emit_bcl_obj 0x81 "System.Int128"
      | Int.USize | Int.ISize => push_u8 0xDF
      end
  | Ty.ClassRef cref_idx =>
      c ← reads (fun s => class_ref (em_asm s) cref_idx);
      if cr_is_valuetype c then emit_token_op 0x81 tpe else push_u8 0x51
  | Ty.Float float =>
      match float with
      | Float.F16 => emit_bcl_obj 0x81 "System.Half"
      | Float.F32 => push_u8 0x56 | Float.F64 => push_u8 0x57
      | Float.F128 => emit_token_op 0x81 tpe
      end
  | Ty.PlatformString | Ty.PlatformObject | Ty.PlatformArray _ _ => push_u8 0x51
  | Ty.PlatformChar => push_u8 0x53
  | Ty.PlatformGeneric _ _ => panic
  | Ty.Bool => push_u8 0x52
  | Ty.Void =>
      _ ← push_u8 0x26; _ ← push_u8 0x26;
      emit_throw_new_exception "Attempted to wrtie to a zero-sized type(void)."
  | Ty.SIMDVector _ => emit_token_op 0x81 tpe
  end.

Definition emit_locaalloc_aligned (tpe : Interned KType) (align : Z) : M unit :=
  tpe_val ← reads (fun s => get_type (em_asm s) tpe);
  tok ← on_sink (type_token tpe_val);
  _ ← push_ext 0x1C; _ ← push_token tok;
  _ ← push_u8 0x21; _ ← push_i64 align;
  _ ← push_u8 0xD3; _ ← push_u8 0x58; _ ← push_ext 0x0F; _ ← push_u8 0x25;
  _ ← push_u8 0x21; _ ← push_i64 align;
  _ ← push_u8 0x58;
  _ ← push_u8 0x21; _ ← push_i64 align;
  _ ← push_u8 0x5D; _ ← push_u8 0x59;
  _ ← push_u8 0x21; _ ← push_i64 align;
  _ ← push_u8 0x58; push_u8 0xE0.

Definition emit_call_like (mref : Interned KMethodRef) (is_root_call : bool) : M unit :=
  m ← reads (fun s => get_mref (em_asm s) mref);
  if is_root_call && bool_decide (mr_kind m = MethodKind.Constructor) then panic
  else
    tok ← method_token_for_mref mref;
    _ ← push_u8 (match mr_kind m with
                 | MethodKind.Static | MethodKind.Instance => 0x28
                 | MethodKind.Virtual => 0x6F
                 | MethodKind.Constructor => 0x73
                 end);
    push_token tok.

(** An operand's type, by id. *)
Definition emit_token_op_of (opcode : Z) (tpe : Interned KType) : M unit :=
  t ← reads (fun s => get_type (em_asm s) tpe); emit_token_op opcode t.

Definition emit_field_op (opcode : Z) (field : Interned KField) : M unit :=
  tok ← on_sink (field_token field); _ ← push_u8 opcode; push_token tok.
Definition emit_static_op (opcode : Z) (sfld : Interned KStatic) : M unit :=
  tok ← on_sink (static_field_token sfld); _ ← push_u8 opcode; push_token tok.

(** *** Nodes *)

Definition emit_calli (emit_node : Interned KNode -> M unit) (fn_ptr : Interned KNode)
    (fn_sig : Interned KSig) (args : list (Interned KNode)) : M unit :=
  _ ← for_each emit_node args;
  _ ← emit_node fn_ptr;
  tok ← emit_calli_sig_token fn_sig;
  _ ← push_u8 0x29;
  push_token tok.

Fixpoint emit_node (fuel : nat) (id : Interned KNode) : M unit :=
  match fuel with
  | O => no_fuel
  | S fuel' =>
      let emit := emit_node fuel' in
      node ← fetch_node id;
      match node with
      | CILNode.Const cst => emit_const cst
      | CILNode.BinOp lhs rhs op => _ ← emit lhs; _ ← emit rhs; emit_binop op
      | CILNode.UnOp arg un =>
          _ ← emit arg; push_u8 (match un with UnOp.Not => 0x66 | UnOp.Neg => 0x65 end)
      | CILNode.LdLoc loc => emit_ldloc loc
      | CILNode.LdLocA loc => emit_ldloca loc
      | CILNode.LdArg arg => emit_ldarg arg
      | CILNode.LdArgA arg => emit_ldarga arg
      | CILNode.Call mref args _ => _ ← for_each emit args; emit_call_like mref false
      | CILNode.IntCast input target extend => _ ← emit input; emit_int_cast target extend
      | CILNode.FloatCast input target is_signed => _ ← emit input; emit_float_cast target is_signed
      | CILNode.RefToPtr input => _ ← emit input; push_u8 0xE0
      | CILNode.PtrCast val _ => emit val
      | CILNode.LdFieldAddress addr field => _ ← emit addr; emit_field_op 0x7C field
      | CILNode.LdField addr field => _ ← emit addr; emit_field_op 0x7B field
      | CILNode.LdInd addr tpe volatile =>
          _ ← emit addr;
          tpe_val ← reads (fun s => get_type (em_asm s) tpe);
          emit_ldind tpe_val volatile
      | CILNode.SizeOf tpe =>
          tpe_val ← reads (fun s => get_type (em_asm s) tpe);
          if bool_decide (tpe_val = Ty.Void) then push_u8 0x16
          else tok ← on_sink (type_token tpe_val); _ ← push_ext 0x1C; push_token tok
      | CILNode.GetException => mret tt
      | CILNode.IsInst val tpe => _ ← emit val; emit_token_op_of 0x75 tpe
      | CILNode.CheckedCast val tpe => _ ← emit val; emit_token_op_of 0x74 tpe
      | CILNode.CallI fn_ptr sig args => emit_calli emit fn_ptr sig args
      | CILNode.LocAlloc size => _ ← emit size; push_ext 0x0F
      | CILNode.LdStaticField sfld => emit_static_op 0x7E sfld
      | CILNode.LdStaticFieldAddress sfld => emit_static_op 0x7F sfld
      | CILNode.LdFtn ftn => tok ← method_token_for_mref ftn; _ ← push_ext 0x06; push_token tok
      | CILNode.LdTypeToken tok_ty => emit_token_op_of 0xD0 tok_ty
      | CILNode.LdLen array => _ ← emit array; push_u8 0x8E
      | CILNode.LocAllocAlgined tpe align => emit_locaalloc_aligned tpe align
      | CILNode.LdElelemRef array index => _ ← emit array; _ ← emit index; push_u8 0x9A
      | CILNode.LdElem array index elem =>
          _ ← emit array; _ ← emit index; emit_token_op_of 0xA3 elem
      | CILNode.UnboxAny object tpe => _ ← emit object; emit_token_op_of 0xA5 tpe
      | CILNode.Box value tpe => _ ← emit value; emit_token_op_of 0x8C tpe
      | CILNode.NewArr elem len => _ ← emit len; emit_token_op_of 0x8D elem
      end
  end.

(** *** Roots *)

Section roots.
(** Fuel of the expressions of a root. *)
Context (nfuel : nat).
Local Notation node := (emit_node nfuel).

Definition branch_label (target sub_target : Z) (has_handler is_handler : bool) : Label.t :=
  if sub_target =? 0 then Label.Block target
  else if is_handler then Label.HandlerLeave target sub_target
  else if has_handler then Label.ProtectedLeave target sub_target
  else Label.Block sub_target.

Definition emit_binary_branch (lhs rhs : Interned KNode) (opcode : Z) (label : Label.t) : M unit :=
  _ ← node lhs; _ ← node rhs; push_branch opcode label.

(** [Ordered | Signed] against [Unordered | Unsigned]. *)
Definition cmp_opcode (kind : CmpKind.t) (ordered unordered : Z) : Z :=
  match kind with
  | CmpKind.Ordered | CmpKind.Signed => ordered
  | CmpKind.Unordered | CmpKind.Unsigned => unordered
  end.

Definition emit_branch (target sub_target : Z) (cond : option BranchCond.t)
    (is_handler has_handler : bool) : M unit :=
  let label := branch_label target sub_target has_handler is_handler in
  match cond with
  | Some (BranchCond.Eq a b) => emit_binary_branch a b 0x3B label
  | Some (BranchCond.Ne a b) => emit_binary_branch a b 0x40 label
  | Some (BranchCond.Lt a b kind) => emit_binary_branch a b (cmp_opcode kind 0x3F 0x44) label
  | Some (BranchCond.Gt a b kind) => emit_binary_branch a b (cmp_opcode kind 0x3D 0x42) label
  | Some (BranchCond.Le a b kind) => emit_binary_branch a b (cmp_opcode kind 0x3E 0x43) label
  | Some (BranchCond.Ge a b kind) => emit_binary_branch a b (cmp_opcode kind 0x3C 0x41) label
  | Some (BranchCond.IsTrue c) => _ ← node c; push_branch 0x3A label
  | Some (BranchCond.IsFalse c) => _ ← node c; push_branch 0x39 label
  | None => push_branch 0x38 label
  end.

Definition next_terminate_region : M Z :=
  s ← ask;
  let n := terminate_region_counter s in
  _ ← modify (fun s => mk_Emitter (em_asm s) (em_tokens s) (em_out s) (label_offsets s)
        (branch_fixups s) (clauses s) (marker_counter s) (n + 1) (sequence_points s));
  mret n.

Definition emit_terminate_region (emit_root : Interned KRoot -> bool -> bool -> M unit)
    (protected : Interned KRoot) (reason : Z) (is_handler has_handler : bool) : M unit :=
  lbl_id ← next_terminate_region;
  let done := Label.TerminateDone lbl_id in
  try_start ← here;
  _ ← emit_root protected is_handler has_handler;
  _ ← push_branch 0xDD done;
  try_end ← here;
  handler_start ← here;
  _ ← push_u8 0x26;
  let msg := (if (reason =? 1)%Z
    then "Rust panicked while running a destructor during unwinding (panic in a destructor during cleanup); aborted."
    else "Rust unwinding crossed a `nounwind` ABI boundary (panic in a function that cannot unwind); aborted.")%string in
  str_tok ← string_token msg;
  _ ← push_u8 0x72;
  _ ← push_token str_tok;
  failfast_tok ← environment_failfast;
  _ ← push_u8 0x28;
  _ ← push_token failfast_tok;
  _ ← push_ext 0x1A;
  handler_end ← here;
  _ ← define_label done;
  _ ← push_u8 0x00;
  push_clause (mk_Clause try_start try_end handler_start handler_end).

Definition push_sequence_point (line_start line_len col_start col_len : Z) (file : Interned KString)
    : M unit :=
  il_offset ← out_len;
  file_path ← reads (fun s => get_string (em_asm s) file);
  let p := {| il_offset := il_offset; document_path := file_path; line := line_start;
              col := col_start; end_line := wrap 32 (line_start + line_len);
              end_col := wrap 32 (col_start + col_len); is_hidden := false |} in
  modify (fun s => mk_Emitter (em_asm s) (em_tokens s) (em_out s) (label_offsets s)
    (branch_fixups s) (clauses s) (marker_counter s) (terminate_region_counter s)
    (sequence_points s ++ [p])).

(** The element store by element type. *)
Definition emit_stelem (elem_val : Ty.t) : M unit :=
  match elem_val with
  | Ty.Int (Int.I8 | Int.U8) | Ty.Bool => push_u8 0x9C
  | Ty.Int (Int.I16 | Int.U16) => push_u8 0x9D
  | Ty.Int (Int.I32 | Int.U32) => push_u8 0x9E
  | Ty.Int (Int.I64 | Int.U64) => push_u8 0x9F
  | Ty.Int (Int.ISize | Int.USize) => push_u8 0x9B
  | Ty.Float Float.F32 => push_u8 0xA0
  | Ty.Float Float.F64 => push_u8 0xA1
  | _ => emit_token_op 0xA4 elem_val
  end.

Fixpoint emit_root (fuel : nat) (id : Interned KRoot) (is_handler has_handler : bool) : M unit :=
  match fuel with
  | O => no_fuel
  | S fuel' =>
      root ← fetch_root id;
      match root with
      | CILRoot.StLoc loc val => _ ← node val; emit_stloc loc
      | CILRoot.StArg loc val => _ ← node val; emit_starg loc
      | CILRoot.Ret val => _ ← node val; push_u8 0x2A
      | CILRoot.Pop val => _ ← node val; push_u8 0x26
      | CILRoot.Throw val => _ ← node val; push_u8 0x7A
      | CILRoot.VoidRet => push_u8 0x2A
      | CILRoot.Break => push_u8 0x01
      | CILRoot.Nop => push_u8 0x00
      | CILRoot.InitFragmentBoundary => mret tt
      | CILRoot.Branch target sub_target cond =>
          emit_branch target sub_target cond is_handler has_handler
      | CILRoot.SourceFileInfo line_start line_len col_start col_len file =>
          push_sequence_point line_start line_len col_start col_len file
      | CILRoot.SetField field addr val => _ ← node addr; _ ← node val; emit_field_op 0x7D field
      | CILRoot.Call mref args _ => _ ← for_each node args; emit_call_like mref true
      | CILRoot.CpObj src dst tpe => _ ← node src; _ ← node dst; emit_token_op_of 0x70 tpe
      | CILRoot.InitObj addr tpe =>
          _ ← node addr;
          tpe_val ← reads (fun s => get_type (em_asm s) tpe);
          tok ← on_sink (type_token tpe_val); _ ← push_ext 0x15; push_token tok
      | CILRoot.StInd addr val tpe volatile => _ ← node addr; _ ← node val; emit_stind tpe volatile
      | CILRoot.InitBlk dst val count => _ ← node dst; _ ← node val; _ ← node count; push_ext 0x18
      | CILRoot.CpBlk dst src len => _ ← node dst; _ ← node src; _ ← node len; push_ext 0x17
      | CILRoot.CallI fn_ptr sig args => emit_calli node fn_ptr sig args
      | CILRoot.TerminateRegion protected reason =>
          emit_terminate_region (emit_root fuel') protected reason is_handler has_handler
      | CILRoot.ExitSpecialRegion target source =>
          if is_handler then
            _ ← define_label (Label.HandlerLeave source target);
            push_branch 0xDD (Label.Block target)
          else if has_handler then
            _ ← define_label (Label.ProtectedLeave source target);
            push_branch 0xDD (Label.Block target)
          else mret tt
      | CILRoot.ReThrow => push_ext 0x1A
      | CILRoot.SetStaticField field val => _ ← node val; emit_static_op 0x80 field
      | CILRoot.Unreachable msg =>
          s ← reads (fun s => get_string (em_asm s) msg); emit_throw_new_exception s
      | CILRoot.StElem array index value elem =>
          _ ← node array; _ ← node index; _ ← node value;
          elem_val ← reads (fun s => get_type (em_asm s) elem);
          emit_stelem elem_val
      end
  end.

(** *** Whole bodies *)

(** One handler: its blocks, with a [pop] of the exception unless it is used. *)
Definition emit_handler_block (rfuel : nat) (block_id : Z) (hblock : BasicBlock) : M unit :=
  _ ← define_label (Label.HandlerLeave block_id (Block.block_id hblock));
  for_each (fun root => emit_root rfuel root true false) (bb_roots hblock).

(** One block of a body, with its handler inline. *)
Definition emit_block (ifuel rfuel : nat) (block : BasicBlock) : M unit :=
  let has_handler := bool_decide (is_Some (handler block)) in
  try_start ← (match handler block with
               | Some _ => l ← here; mret (Some l)
               | None => mret None
               end : M (option Label.t));
  _ ← define_label (Label.Block (Block.block_id block));
  _ ← for_each (fun root => emit_root rfuel root false has_handler) (bb_roots block);
  match handler block with
  | None => mret tt
  | Some handler =>
      try_end ← here;
      handler_start ← here;
      uses ← reads (fun s => uses_get_exception ifuel (em_asm s) handler);
      _ ← (if negb (uses : bool) then push_u8 0x26 else mret tt);
      _ ← for_each (emit_handler_block rfuel (Block.block_id block)) handler;
      handler_end ← here;
      try_start ← lift (unwrap try_start);
      push_clause (mk_Clause try_start try_end handler_start handler_end)
  end.
End roots.
End emitter.

Definition COR_IL_METHOD_FAT_FORMAT : Z := 0x3.
Definition COR_IL_METHOD_INIT_LOCALS : Z := 0x10.
Definition COR_IL_METHOD_MORE_SECTS : Z := 0x8.
Definition FAT_HEADER_SIZE_WORDS : Z := 3.
Definition COR_IL_METHOD_SECT_EHTABLE : Z := 0x1.
Definition COR_IL_METHOD_SECT_FAT_FORMAT : Z := 0x40.

Record AssembledBody : Set := mk_Body {
  ab_bytes : list Z;
  ab_sequence_points : list SequencePoint;
  ab_locals_signature : option Z;
  ab_locals : list (option string);
  ab_code_len : Z }.

(** Zeros up to a length divisible by four. *)
Definition align4 (bytes : list Z) : list Z :=
  bytes ++ replicate (Z.to_nat (- Z.of_nat (length bytes) mod 4)) 0.

Definition clause_bytes (catch_type : Z) (c : Z * Z * Z * Z) : list Z :=
  let '(try_start, try_end, handler_start, handler_end) := c in
  le_bytes 4 0 ++ le_bytes 4 try_start ++ le_bytes 4 (try_end - try_start) ++
  le_bytes 4 handler_start ++ le_bytes 4 (handler_end - handler_start) ++ le_bytes 4 catch_type.

(** The fat header, the code and the exception section. *)
Definition finish_body {E} (code : list Z) (maxstack : Z) (locals_tok : option Z)
    (clauses : list (Z * Z * Z * Z)) (catch_type : Z) (sequence_points : list SequencePoint)
    : outcome E AssembledBody :=
  let has_eh := bool_decide (clauses <> []) in
  let flags := Z.lor COR_IL_METHOD_FAT_FORMAT COR_IL_METHOD_INIT_LOCALS in
  let flags := if has_eh then Z.lor flags COR_IL_METHOD_MORE_SECTS else flags in
  let flags_and_size := Z.lor flags (Z.shiftl FAT_HEADER_SIZE_WORDS 12) in
  code_size ← expect_u32 (Z.of_nat (length code));
  let bytes := le_bytes 2 flags_and_size ++ le_bytes 2 (Z.min maxstack 0xFFFF) ++
               le_bytes 4 code_size ++ le_bytes 4 (default 0 locals_tok) ++ code in
  bytes ← (if has_eh then
    data_size ← expect_u32 (4 + Z.of_nat (length clauses) * 24);
    Ok (align4 bytes ++
        [Z.lor COR_IL_METHOD_SECT_EHTABLE COR_IL_METHOD_SECT_FAT_FORMAT; Z.land data_size 0xFF;
         Z.land (Z.shiftr data_size 8) 0xFF; Z.land (Z.shiftr data_size 16) 0xFF] ++
        concat (map (clause_bytes catch_type) clauses))
  else Ok bytes);
  Ok (mk_Body bytes sequence_points None [] code_size).

(** *** [.maxstack] *)

Section maxstack.
Context {E : Type}.

(** The number of elements [CILIter] yields for a root. *)
Definition root_size (ifuel : nat) asm (root : Interned KRoot) : outcome E Z :=
  r ← get_root asm root;
  l ← cil_iter_collect ifuel asm [ElemRoot r];
  Ok (Z.of_nat (length l)).

(** [Iterator::max], 0 of an empty one. *)
Definition maximum (l : list Z) : Z := foldr Z.max 0 l.

Definition compute_maxstack_from_body (ifuel : nat) asm (blocks : list BasicBlock) : outcome E Z :=
  sizes ← map_outcome (root_size ifuel asm) (concat (map iter_roots blocks));
  Ok (maximum (map (fun n => wrap 32 (n + 10)) sizes)).

Definition compute_maxstack (ifuel : nat) asm (resolved : MethodImpl) : outcome E Z :=
  match resolved with
  | MethodBody blocks _ => compute_maxstack_from_body ifuel asm blocks
  | RegionBody blocks cleanup_blocks _ _ =>
      sizes ← map_outcome (root_size ifuel asm) (concat (map bb_roots (blocks ++ cleanup_blocks)));
      expect_u32 (maximum (map (fun n => n + 10) sizes))
  | Extern _ _ _ _ => Ok 0
  | AliasFor _ => Panic
  | Missing => Ok 3
  end.
End maxstack.

(** *** Assembling a method *)

Section assemble.
Context {T : Type} `{TokenSink T} {hash_order : HashMapOrder} {E : Type}.
Context (sfuel mfuel nfuel rfuel ifuel : nat).

Local Notation M := (ST (Emitter T) E).

Definition new_emitter (asm : Assembly) (tokens : T) : Emitter T :=
  mk_Emitter asm tokens [] ∅ [] [] 0 0 [].

Definition resolve_clause (s : Emitter T) (c : PendingClause) : outcome E (Z * Z * Z * Z) :=
  a ← resolve_label s (try_start c);
  b ← resolve_label s (try_end c);
  c1 ← resolve_label s (handler_start c);
  d ← resolve_label s (handler_end c);
  Ok (a, b, c1, d).

(** The code of a body: emitted and patched. *)
Definition emit_body (blocks : list BasicBlock) : M unit :=
  _ ← for_each (emit_block sfuel mfuel nfuel ifuel rfuel) blocks;
  patch_branches.

Definition local_name (s : Emitter T) (l : LocalDef) : outcome E (option string) :=
  match fst l with
  | Some n => n ← get_string (em_asm s) n; Ok (Some n)
  | None => Ok None
  end.

Definition assemble_method_body (blocks : list BasicBlock) (locals : list LocalDef)
    : M AssembledBody :=
  _ ← emit_body blocks;
  maxstack ← reads (fun s => compute_maxstack_from_body ifuel (em_asm s) blocks);
  locals_types ← reads (fun s => map_outcome (fun '(_, t) => get_type (em_asm s) t) locals);
  locals_tok ← (match locals_types with
                | [] => mret None
                | _ => tok ← on_sink (locals_sig_token locals_types); mret (Some tok)
                end : M (option Z));
  resolved ← reads (fun s => map_outcome (resolve_clause s) (clauses s));
  catch_type ← (match resolved with [] => mret 0 | _ => system_object_token end : M Z);
  local_names ← reads (fun s => map_outcome (local_name s) locals);
  s ← ask;
  body ← lift (finish_body (em_out s) maxstack locals_tok resolved catch_type (sequence_points s));
  mret (mk_Body (ab_bytes body) (ab_sequence_points body) locals_tok local_names (ab_code_len body)).

Context `{HashOrder}.

(** [assemble_method], of a method whose implementation is already resolved. *)
Definition assemble_method (name : Interned KString) (mimpl : MethodImpl) (bfuel vfuel : nat)
    : M AssembledBody :=
  match mimpl with
  | MethodBody _ _ | RegionBody _ _ _ _ =>
      body ← on_asm (materialize_legacy_body bfuel ifuel vfuel mimpl);
      '(blocks, locals) ← lift (unwrap body);
      assemble_method_body blocks locals
  | Extern _ _ _ _ => mret (mk_Body [] [] None [] 0)
  | AliasFor _ => panic
  | Missing =>
      name ← reads (fun s => get_string (em_asm s) name);
      _ ← emit_throw_new_exception ("missing methiod " +:+ name);
      s ← ask;
      lift (finish_body (em_out s) 3 None [] 0 [])
  end.
End assemble.
