(* ===== verification/BodySpec.v ===== *)
(** * What a method body encodes

    The specification of the body writer: the instructions a node, a root and a block stand for, as
    relations over the final assembly and the final tables of the token sink, with labels and
    exception clauses still symbolic; and the layout of labelled code. *)

From S2P Require Import Prelude Interner Types IR Arenas Walk Assign Block Method Opt Layout Heaps.
From S2P Require Import Signature SigTheory Cil OptSem CilSem Body.

(** ** Growth of assemblies *)

(** Every arena is extended; definitions may be added. *)
Record grows (asm asm' : Assembly) : Prop := {
  gr_strings : strings asm `prefix_of` strings asm';
  gr_types : types asm `prefix_of` types asm';
  gr_class_refs : class_refs asm `prefix_of` class_refs asm';
  gr_class_defs : class_defs asm ⊆ class_defs asm';
  gr_nodes : nodes asm `prefix_of` nodes asm';
  gr_roots : roots asm `prefix_of` roots asm';
  gr_sigs : sigs asm `prefix_of` sigs asm';
  gr_method_refs : method_refs asm `prefix_of` method_refs asm';
  gr_fields : fields asm `prefix_of` fields asm';
  gr_statics : statics asm `prefix_of` statics asm';
  gr_const_data : const_data asm `prefix_of` const_data asm' }.

#[export] Instance grows_preorder : PreOrder grows.
Proof. split; [intros asm; by split|]. intros a b c [] []. split; etrans; eauto. Qed.

Lemma extends_grows a b : extends a b -> grows a b.
Proof. intros []. split; try done. by rewrite ext_class_defs. Qed.

(** ** The laws of a token sink *)

Inductive TokenQuery : Type :=
| TokMethod (mref : Interned KMethodRef) (generics : list Ty.t)
| TokField (field : Interned KField)
| TokStatic (field : Interned KStatic)
| TokString (s : string)
| TokCalli (key : string) (blob : list Z)
| TokLocals (locals : list Ty.t)
| TokType (tpe : Ty.t).

Section law.
Context {T : Type} (later : relation T) (sound : T -> Prop) (token_of : T -> TokenQuery -> Z -> Prop).

(** A query grows the tables, and the token it gives is the token of the query in all sound tables
    that follow. *)
Definition sink_law (q : TokenQuery) (m : forall E, ST (T * Assembly) E Z) : Prop :=
  forall E s s' o, m E s = (s', o) ->
    grows (snd s) (snd s') /\ later (fst s) (fst s') /\
    (forall tok t, o = Ok tok -> later (fst s') t -> sound t -> in_u 32 tok /\ token_of t q tok).
End law.

Class TokenSinkLaws (T : Type) `{TokenSink T} : Type := {
  sink_resolver_laws :: ResolverLaws T;
  sound : T -> Prop;
  token_of : T -> TokenQuery -> Z -> Prop;
  method_token_law m g : sink_law later sound token_of (TokMethod m g) (fun E => method_token m g);
  field_token_law f : sink_law later sound token_of (TokField f) (fun E => field_token f);
  static_field_token_law f : sink_law later sound token_of (TokStatic f) (fun E => static_field_token f);
  calli_sig_token_law key blob :
    sink_law later sound token_of (TokCalli key blob) (fun E => calli_sig_token key blob);
  locals_sig_token_law l : sink_law later sound token_of (TokLocals l) (fun E => locals_sig_token l);
  type_token_law t : sink_law later sound token_of (TokType t) (fun E => type_token t);
  user_string_token_law s : sink_law later sound token_of (TokString s)
    (fun E '(t, a) => let '(t, r) := user_string_token s t in ((t, a), r)) }.

(** ** Instructions of a node *)

(** Instructions without an operand. *)
Definition op (opcode : Z) : Instr := mk_Instr opcode NoOperand.

Definition binop_opcode (o : BinOp.t) : Z :=
  match o with
  | BinOp.Add => 0x58 | BinOp.Sub => 0x59 | BinOp.Mul => 0x5A | BinOp.Div => 0x5B
  | BinOp.DivUn => 0x5C | BinOp.Rem => 0x5D | BinOp.RemUn => 0x5E | BinOp.And => 0x5F
  | BinOp.Or => 0x60 | BinOp.XOr => 0x61 | BinOp.Shl => 0x62 | BinOp.Shr => 0x63
  | BinOp.ShrUn => 0x64 | BinOp.Eq => 0xFE01 | BinOp.Gt => 0xFE02 | BinOp.GtUn => 0xFE03
  | BinOp.Lt => 0xFE04 | BinOp.LtUn => 0xFE05
  end.

(** [conv.<int>], signed or unsigned as the cast extends. *)
Definition conv_opcode (target : Int.t) (extend : ExtendKind.t) : option Z :=
  let pick signed unsigned :=
    Some (match extend with ExtendKind.SignExtend => signed | ExtendKind.ZeroExtend => unsigned end) in
  match Int.bits target with
  | Some 8 => pick 0x67 0xD2
  | Some 16 => pick 0x68 0xD1
  | Some 32 => pick 0x69 0x6D
  | Some 64 => pick 0x6A 0x6E
  | None => pick 0xD3 0xE0
  | _ => None
  end.

Definition float_conv (target : Float.t) (is_signed : bool) : option (list Instr) :=
  let prefix := if is_signed then [] else [op 0x76] in
  match target with
  | Float.F32 => Some (prefix ++ [op 0x6B])
  | Float.F64 => Some (prefix ++ [op 0x6C])
  | _ => None
  end.

(** Loads and stores through a pointer that one opcode does. *)
Definition ldind_opcode (t : Ty.t) : option Z :=
  match t with
  | Ty.Int Int.I8 | Ty.Bool => Some 0x46
  | Ty.Int Int.U8 => Some 0x47
  | Ty.Int Int.I16 => Some 0x48
  | Ty.Int Int.U16 | Ty.PlatformChar => Some 0x49
  | Ty.Int Int.I32 => Some 0x4A
  | Ty.Int Int.U32 => Some 0x4B
  | Ty.Int (Int.I64 | Int.U64) => Some 0x4C
  | Ty.Int (Int.ISize | Int.USize) | Ty.Ptr _ | Ty.FnPtr _ => Some 0x4D
  | Ty.Float Float.F32 => Some 0x4E
  | Ty.Float Float.F64 => Some 0x4F
  | Ty.PlatformString | Ty.PlatformObject | Ty.PlatformArray _ _ => Some 0x50
  | _ => None
  end.

Definition stind_opcode (t : Ty.t) : option Z :=
  match t with
  | Ty.PlatformString | Ty.PlatformObject | Ty.PlatformArray _ _ => Some 0x51
  | Ty.Int (Int.I8 | Int.U8) | Ty.Bool => Some 0x52
  | Ty.Int (Int.I16 | Int.U16) | Ty.PlatformChar => Some 0x53
  | Ty.Int (Int.I32 | Int.U32) => Some 0x54
  | Ty.Int (Int.I64 | Int.U64) => Some 0x55
  | Ty.Float Float.F32 => Some 0x56
  | Ty.Float Float.F64 => Some 0x57
  | Ty.Int (Int.ISize | Int.USize) | Ty.Ptr _ | Ty.FnPtr _ => Some 0xDF
  | _ => None
  end.

Definition stelem_opcode (t : Ty.t) : option Z :=
  match t with
  | Ty.Int (Int.ISize | Int.USize) => Some 0x9B
  | Ty.Int (Int.I8 | Int.U8) | Ty.Bool => Some 0x9C
  | Ty.Int (Int.I16 | Int.U16) => Some 0x9D
  | Ty.Int (Int.I32 | Int.U32) => Some 0x9E
  | Ty.Int (Int.I64 | Int.U64) => Some 0x9F
  | Ty.Float Float.F32 => Some 0xA0
  | Ty.Float Float.F64 => Some 0xA1
  | _ => None
  end.

(** The class of the library that holds a type in memory, for types without an opcode. *)
Definition object_name (t : Ty.t) : option string :=
  match t with
  | Ty.Int Int.I128 => Some "System.Int128"%string
  | Ty.Int Int.U128 => Some "System.UInt128"%string
  | Ty.Float Float.F16 => Some "System.Half"%string
  | _ => None
  end.

Definition call_opcode (kind : MethodKind.t) : Z :=
  match kind with
  | MethodKind.Static | MethodKind.Instance => 0x28
  | MethodKind.Virtual => 0x6F
  | MethodKind.Constructor => 0x73
  end.

(** The argument or local an instruction names, in the one-byte, short and wide forms. *)
Definition index_of (compact : option Z) (short wide : Z) (i : Instr) : option Z :=
  match operand i with
  | NoOperand => c ← compact; if between c (c + 3) (opcode i) then Some (opcode i - c) else None
  | U8 v => if opcode i =? short then Some v else None
  | U16 v => if opcode i =? 0xFE00 + wide then Some v else None
  | _ => None
  end.

(** One instruction that names the index; the wide form is followed by two [nop]s. *)
Definition indexed (compact : option Z) (short wide n : Z) (l : list Instr) : Prop :=
  exists i, index_of compact short wide i = Some n /\ (l = [i] \/ l = [i; op 0; op 0]).

(** The slot an integer, boolean or floating constant loads. *)
Definition const_slot (c : Const.t) : option cell := v ← const_value c; slot_of v.

(** Numbers as Rust's types keep them, and no more than the 65536 arguments and locals that an
    instruction can name. *)
Definition const_ok (c : Const.t) : Prop :=
  match c with
  | Const.F32 bits => in_u 32 bits
  | Const.F64 bits => in_u 64 bits
  | _ => match int_const c with Some (i, z) => int_in i z | None => True end
  end.

Definition node_ok (n : CILNode.t) : Prop :=
  match n with
  | CILNode.Const c => const_ok c
  | CILNode.LdLoc n | CILNode.LdLocA n | CILNode.LdArg n | CILNode.LdArgA n => in_u 16 n
  | _ => True
  end.

Definition root_ok (r : CILRoot.t) : Prop :=
  match r with CILRoot.StLoc n _ | CILRoot.StArg n _ => in_u 16 n | _ => True end.

Record body_ok (asm : Assembly) : Prop := {
  ok_nodes i n : nodes asm !! i = Some n -> node_ok n;
  ok_roots i r : roots asm !! i = Some r -> root_ok r }.

Lemma body_ok_alt asm : Forall node_ok (nodes asm) -> Forall root_ok (roots asm) -> body_ok asm.
Proof. rewrite !list.Forall_lookup. intros Hn Hr. split; intros i x Hx; [by eapply Hn|by eapply Hr]. Qed.

Section code.
Context {T : Type} `{TokenSinkLaws T}.
(** What the writer ends with. *)
Context (fin : Assembly) (t : T) (sfuel : nat).

(** An instruction with the token of a query. *)
Definition tok_code (opcode : Z) (q : TokenQuery) (l : list Instr) : Prop :=
  exists tok, in_u 32 tok /\ token_of t q tok /\ l = [mk_Instr opcode (Tok tok)].

(** A class of [System.Runtime], and a method of it by its signature. *)
Definition bcl_named (c : Interned KClassRef) (name : string) (is_valuetype : bool) : Prop :=
  exists cr a, class_refs fin !! slot c = Some cr /\ strings fin !! slot (cr_name cr) = Some name /\
    cr_asm cr = Some a /\ strings fin !! slot a = Some "System.Runtime"%string /\
    cr_is_valuetype cr = is_valuetype /\ cr_generics cr = [].

Definition bcl_call (opcode : Z) (c : Interned KClassRef) (name : string) (input : list Ty.t)
    (out : Ty.t) (kind : MethodKind.t) (l : list Instr) : Prop :=
  exists m mr, method_refs fin !! slot m = Some mr /\ mr_class mr = c /\
    strings fin !! slot (mr_name mr) = Some name /\
    sigs fin !! slot (mr_sig mr) = Some (mk_FnSig input out) /\ mr_kind mr = kind /\
    mr_generics mr = [] /\ tok_code opcode (TokMethod m []) l.

(** 128-bit constants: a smaller constant converted by the class, or its halves joined. *)
Definition int128_code (name : string) (v : Z) (l : list Instr) : Prop :=
  exists c, bcl_named c name true /\
  ((exists i int s call, l = i :: call /\ ldc i = Some s /\ slot_of (VInt int v) = Some s /\
      int_in int v /\
      bcl_call 0x28 c "op_Implicit" [Ty.Int int] (Ty.ClassRef c) MethodKind.Static call) \/
   (exists i j high low call, l = i :: j :: call /\ ldc i = Some (S64 high) /\ ldc j = Some (S64 low) /\
      wrap 128 v = high * 2 ^ 64 + low /\
      bcl_call 0x73 c ".ctor" [Ty.ClassRef c; Ty.Int Int.U64; Ty.Int Int.U64] Ty.Void
        MethodKind.Constructor call)).

(** The static field that holds a constant buffer. *)
Definition buffer_field (data : Interned KBuffer) (f : Interned KStatic) : Prop :=
  exists sf owner blob bytes, statics fin !! slot f = Some sf /\
    class_refs fin !! slot (static_owner sf) = Some owner /\
    strings fin !! slot (cr_name owner) = Some MAIN_MODULE /\
    strings fin !! slot (static_name sf) = Some ("c_" +:+ encode_u64 (inner data))%string /\
    const_data fin !! slot data = Some bytes /\
    (exists c n, static_tpe sf = Ty.ClassRef c /\ class_refs fin !! slot c = Some blob /\
       strings fin !! slot (cr_name blob) = Some n /\
       n = ("__rcl_const_blob_" +:+ pretty (Z.max (Z.of_nat (length bytes)) 1))%string).

Definition const_code (c : Const.t) (l : list Instr) : Prop :=
  match c with
  | Const.I128 v => int128_code "System.Int128" v l
  | Const.U128 v => int128_code "System.UInt128" v l
  | Const.Null _ => l = [op 0x14]
  | Const.PlatformString s =>
      exists str, strings fin !! slot s = Some str /\ tok_code 0x72 (TokString str) l
  | Const.ByteBuffer data _ => exists f, buffer_field data f /\ tok_code 0x7F (TokStatic f) l
  | _ => load l = const_slot c /\ const_slot c <> None
  end.

(** An access through a pointer: by opcode, or as an object of its type or the library's class. *)
Definition access_code (by_opcode : Ty.t -> option Z) (object : Z) (tpe : Ty.t) (l : list Instr) : Prop :=
  match by_opcode tpe with
  | Some o => l = [op o]
  | None =>
      match object_name tpe with
      | Some name => exists c, bcl_named c name true /\ tok_code object (TokType (Ty.ClassRef c)) l
      | None => tok_code object (TokType tpe) l
      end
  end.

Definition prefixed (volatile : bool) (l : list Instr) : list Instr :=
  if volatile then op 0xFE13 :: l else l.

Definition type_code (opcode : Z) (tpe : Interned KType) (l : list Instr) : Prop :=
  exists ty, types fin !! slot tpe = Some ty /\ tok_code opcode (TokType ty) l.

(** A call-site signature, as the signature writer encodes it. *)
Definition calli_code (sig : Interned KSig) (l : list Instr) : Prop :=
  exists fs key blob s s', sigs fin !! slot sig = Some fs /\
    encode_method_sig (E := unit) (encode_type sfuel) SIG_DEFAULT 0 fs s = (s', Ok blob) /\
    grows (sg_asm s') fin /\ later (sg_resolver s') t /\ tok_code 0x29 (TokCalli key blob) l.

(** The operands of a node in the order they are evaluated. *)
Definition eval_operands (n : CILNode.t) : list (Interned KNode) :=
  match n with
  | CILNode.CallI fn_ptr _ args => args ++ [fn_ptr]
  | n => CILNode.operands n
  end.

Definition call_code (m : Interned KMethodRef) (l : list Instr) : Prop :=
  exists mr, method_refs fin !! slot m = Some mr /\
    tok_code (call_opcode (mr_kind mr)) (TokMethod m (mr_generics mr)) l.

(** What a node does with the values of its operands. *)
Definition own_code (n : CILNode.t) (l : list Instr) : Prop :=
  match n with
  | CILNode.Const c => const_code c l
  | CILNode.BinOp _ _ o => l = [op (binop_opcode o)]
  | CILNode.UnOp _ o => l = [op (match o with UnOp.Neg => 0x65 | UnOp.Not => 0x66 end)]
  | CILNode.LdLoc n => indexed (Some 0x06) 0x11 0x0C n l
  | CILNode.LdLocA n => indexed None 0x12 0x0D n l
  | CILNode.LdArg n => indexed (Some 0x02) 0x0E 0x09 n l
  | CILNode.LdArgA n => indexed None 0x0F 0x0A n l
  | CILNode.Call m _ _ => call_code m l
  | CILNode.IntCast _ target extend => exists o, conv_opcode target extend = Some o /\ l = [op o]
  | CILNode.FloatCast _ target is_signed => float_conv target is_signed = Some l
  | CILNode.RefToPtr _ => l = [op 0xE0]
  | CILNode.PtrCast _ _ | CILNode.GetException => l = []
  | CILNode.LdFieldAddress _ f => tok_code 0x7C (TokField f) l
  | CILNode.LdField _ f => tok_code 0x7B (TokField f) l
  | CILNode.LdInd _ tpe volatile =>
      exists ty body, types fin !! slot tpe = Some ty /\ access_code ldind_opcode 0x71 ty body /\
        l = prefixed volatile body
  | CILNode.SizeOf tpe =>
      exists ty, types fin !! slot tpe = Some ty /\
        if bool_decide (ty = Ty.Void) then l = [op 0x16] else tok_code 0xFE1C (TokType ty) l
  | CILNode.IsInst _ tpe => type_code 0x75 tpe l
  | CILNode.CheckedCast _ tpe => type_code 0x74 tpe l
  | CILNode.CallI _ sig _ => calli_code sig l
  | CILNode.LocAlloc _ => l = [op 0xFE0F]
  | CILNode.LdStaticField f => tok_code 0x7E (TokStatic f) l
  | CILNode.LdStaticFieldAddress f => tok_code 0x7F (TokStatic f) l
  | CILNode.LdFtn m =>
      exists mr, method_refs fin !! slot m = Some mr /\ tok_code 0xFE06 (TokMethod m (mr_generics mr)) l
  | CILNode.LdTypeToken tpe => type_code 0xD0 tpe l
  | CILNode.LdLen _ => l = [op 0x8E]
  | CILNode.LocAllocAlgined tpe align =>
      exists size, type_code 0xFE1C tpe size /\
        let a := mk_Instr 0x21 (I64 (swrap 64 align)) in
        l = size ++ [a; op 0xD3; op 0x58; op 0xFE0F; op 0x25; a; op 0x58; a; op 0x5D; op 0x59; a;
                     op 0x58; op 0xE0]
  | CILNode.LdElelemRef _ _ => l = [op 0x9A]
  | CILNode.LdElem _ _ elem => type_code 0xA3 elem l
  | CILNode.UnboxAny _ tpe => type_code 0xA5 tpe l
  | CILNode.NewArr elem _ => type_code 0x8D elem l
  | CILNode.Box _ tpe => type_code 0x8C tpe l
  end.

(** The code of a tree: the operands' in order, then the node's own. *)
Inductive node_code : CILNode.t -> list Instr -> Prop :=
| node_code_intro n kids codes own :
    Forall2 (fun id kid => nodes fin !! slot id = Some kid) (eval_operands n) kids ->
    Forall2 node_code kids codes -> own_code n own -> node_code n (concat codes ++ own).
End code.

(** ** Labelled code *)

Inductive Item : Set :=
| IInstr (i : Instr)
| ILabel (l : Label.t)
| IBranch (opcode : Z) (target : Label.t).

(** The bytes of an item before branches are patched. *)
Definition item_bytes (i : Item) : list Z :=
  match i with
  | IInstr i => encode i
  | ILabel _ => []
  | IBranch opcode _ => encode (mk_Instr opcode (Rel 0))
  end.

Definition items_bytes (l : list Item) : list Z := concat (map item_bytes l).

(** The positions labels are defined at, and the operands to patch, of code laid out from [pos]. *)
Fixpoint items_labels (pos : nat) (l : list Item) (m : gmap Label.t Z) : gmap Label.t Z :=
  match l with
  | [] => m
  | i :: l =>
      items_labels (pos + length (item_bytes i)) l
        (match i with ILabel label => <[label := Z.of_nat pos]> m | _ => m end)
  end.

Fixpoint items_fixups (pos : nat) (l : list Item) : list (Z * Label.t) :=
  match l with
  | [] => []
  | i :: l =>
      match i with
      | IBranch _ label => [(Z.of_nat (pos + 1), label)]
      | _ => []
      end ++ items_fixups (pos + length (item_bytes i)) l
  end.

(** ** Roots and blocks *)

Definition branch_opcode (c : option BranchCond.t) : Z :=
  let un (k : CmpKind.t) (ordered unordered : Z) :=
    match k with
    | CmpKind.Ordered | CmpKind.Signed => ordered
    | CmpKind.Unordered | CmpKind.Unsigned => unordered
    end in
  match c with
  | None => 0x38
  | Some (BranchCond.IsFalse _) => 0x39
  | Some (BranchCond.IsTrue _) => 0x3A
  | Some (BranchCond.Eq _ _) => 0x3B
  | Some (BranchCond.Ge _ _ k) => un k 0x3C 0x41
  | Some (BranchCond.Gt _ _ k) => un k 0x3D 0x42
  | Some (BranchCond.Le _ _ k) => un k 0x3E 0x43
  | Some (BranchCond.Lt _ _ k) => un k 0x3F 0x44
  | Some (BranchCond.Ne _ _) => 0x40
  end.

Section roots.
Context {T : Type} `{TokenSinkLaws T}.
Context (fin : Assembly) (t : T) (sfuel ifuel : nat).

(** [ldstr msg; newobj Exception::.ctor(string); throw]. *)
Definition throw_code (msg : string) (l : list Instr) : Prop :=
  exists c str new, bcl_named fin c "System.Exception" false /\ tok_code t 0x72 (TokString msg) str /\
    bcl_call fin t 0x73 c ".ctor" [Ty.ClassRef c; Ty.PlatformString] Ty.Void MethodKind.Constructor new /\
    l = str ++ new ++ [op 0x7A].

Definition store_code (tpe : Ty.t) (l : list Instr) : Prop :=
  match tpe with
  | Ty.Void =>
      exists body, throw_code "Attempted to wrtie to a zero-sized type(void)." body /\
        l = op 0x26 :: op 0x26 :: body
  | Ty.ClassRef c =>
      exists cr, class_refs fin !! slot c = Some cr /\
        if cr_is_valuetype cr then tok_code t 0x81 (TokType tpe) l else l = [op 0x51]
  | _ => access_code fin t stind_opcode 0x81 tpe l
  end.

(** What a root that neither branches nor protects does with the values of its operands. *)
Definition root_own (r : CILRoot.t) (l : list Instr) : Prop :=
  match r with
  | CILRoot.StLoc n _ => indexed (Some 0x0A) 0x13 0x0E n l
  | CILRoot.StArg n _ => indexed None 0x10 0x0B n l
  | CILRoot.Ret _ | CILRoot.VoidRet => l = [op 0x2A]
  | CILRoot.Pop _ => l = [op 0x26]
  | CILRoot.Throw _ => l = [op 0x7A]
  | CILRoot.Break => l = [op 0x01]
  | CILRoot.Nop => l = [op 0x00]
  | CILRoot.InitFragmentBoundary | CILRoot.SourceFileInfo _ _ _ _ _ => l = []
  | CILRoot.SetField f _ _ => tok_code t 0x7D (TokField f) l
  | CILRoot.Call m _ _ => call_code fin t m l
  | CILRoot.StInd _ _ tpe volatile => exists body, store_code tpe body /\ l = prefixed volatile body
  | CILRoot.InitBlk _ _ _ => l = [op 0xFE18]
  | CILRoot.CpBlk _ _ _ => l = [op 0xFE17]
  | CILRoot.CallI _ sig _ => calli_code fin t sfuel sig l
  | CILRoot.ReThrow => l = [op 0xFE1A]
  | CILRoot.SetStaticField f _ => tok_code t 0x80 (TokStatic f) l
  | CILRoot.CpObj _ _ tpe => type_code fin t 0x70 tpe l
  | CILRoot.Unreachable msg =>
      exists str, strings fin !! slot msg = Some str /\ throw_code str l
  | CILRoot.InitObj _ tpe => type_code fin t 0xFE15 tpe l
  | CILRoot.StElem _ _ _ elem =>
      exists ty, types fin !! slot elem = Some ty /\
        match stelem_opcode ty with
        | Some o => l = [op o]
        | None => tok_code t 0xA4 (TokType ty) l
        end
  | CILRoot.Branch _ _ _ | CILRoot.ExitSpecialRegion _ _ | CILRoot.TerminateRegion _ _ => False
  end.

(** The handler of a terminate region: drop the exception, [Environment.FailFast], [rethrow]. *)
Definition failfast_code (l : list Instr) : Prop :=
  exists c msg str call, bcl_named fin c "System.Environment" false /\
    tok_code t 0x72 (TokString msg) str /\
    bcl_call fin t 0x28 c "FailFast" [Ty.PlatformString] Ty.Void MethodKind.Static call /\
    l = op 0x26 :: str ++ call ++ [op 0xFE1A].

(** The codes of the operands of a root. *)
Definition operand_codes (r : CILRoot.t) (codes : list (list Instr)) : Prop :=
  exists kids,
    Forall2 (fun id kid => nodes fin !! slot id = Some kid) (CILRoot.visit_nodes r) kids /\
    Forall2 (node_code fin t sfuel) kids codes.

(** A root inside a handler ([is_handler]) or a protected block ([has_handler]): its items, and the
    clauses it opens and closes.  Terminate regions are numbered from the first number on, up to the
    second. *)
Inductive root_code (is_handler has_handler : bool) :
    CILRoot.t -> Z -> Z -> list Item -> list PendingClause -> Prop :=
| root_plain r n codes own :
    operand_codes r codes -> root_own r own ->
    root_code is_handler has_handler r n n (map IInstr (concat codes ++ own)) []
| root_branch target sub_target cond n codes :
    operand_codes (CILRoot.Branch target sub_target cond) codes ->
    root_code is_handler has_handler (CILRoot.Branch target sub_target cond) n n
      (map IInstr (concat codes) ++
       [IBranch (branch_opcode cond) (branch_label target sub_target has_handler is_handler)]) []
| root_exit target source n :
    root_code is_handler has_handler (CILRoot.ExitSpecialRegion target source) n n
      (if is_handler then [ILabel (Label.HandlerLeave source target); IBranch 0xDD (Label.Block target)]
       else if has_handler then
         [ILabel (Label.ProtectedLeave source target); IBranch 0xDD (Label.Block target)]
       else []) []
| root_terminate id protected reason n n' items cs handler m0 m1 m2 m3 :
    roots fin !! slot id = Some protected ->
    root_code is_handler has_handler protected (n + 1) n' items cs -> failfast_code handler ->
    root_code is_handler has_handler (CILRoot.TerminateRegion id reason) n n'
      (ILabel (Label.Marker m0) :: items ++
       [IBranch 0xDD (Label.TerminateDone n); ILabel (Label.Marker m1); ILabel (Label.Marker m2)] ++
       map IInstr handler ++
       [ILabel (Label.Marker m3); ILabel (Label.TerminateDone n); IInstr (op 0x00)])
      (cs ++ [mk_Clause (Label.Marker m0) (Label.Marker m1) (Label.Marker m2) (Label.Marker m3)]).

(** Roots one after the other. *)
Inductive roots_code (is_handler has_handler : bool) :
    list (Interned KRoot) -> Z -> Z -> list Item -> list PendingClause -> Prop :=
| roots_nil n : roots_code is_handler has_handler [] n n [] []
| roots_cons id r rest n n1 n2 items cs items' cs' :
    roots fin !! slot id = Some r -> root_code is_handler has_handler r n n1 items cs ->
    roots_code is_handler has_handler rest n1 n2 items' cs' ->
    roots_code is_handler has_handler (id :: rest) n n2 (items ++ items') (cs ++ cs').

(** The blocks of a handler, each behind its label. *)
Inductive handler_code (block : Z) :
    list BasicBlock -> Z -> Z -> list Item -> list PendingClause -> Prop :=
| handler_nil n : handler_code block [] n n [] []
| handler_cons b rest n n1 n2 items cs items' cs' :
    roots_code true false (bb_roots b) n n1 items cs -> handler_code block rest n1 n2 items' cs' ->
    handler_code block (b :: rest) n n2
      (ILabel (Label.HandlerLeave block (block_id b)) :: items ++ items') (cs ++ cs').

(** A block, and the handler of a protected one right after it; a handler that does not use the
    caught exception starts by dropping it. *)
Inductive block_code : BasicBlock -> Z -> Z -> list Item -> list PendingClause -> Prop :=
| block_plain b n n1 items cs :
    handler b = None -> roots_code false false (bb_roots b) n n1 items cs ->
    block_code b n n1 (ILabel (Label.Block (block_id b)) :: items) cs
| block_protected b h n n1 n2 items cs asm used hitems hcs m0 m1 m2 m3 :
    handler b = Some h -> roots_code false true (bb_roots b) n n1 items cs ->
    grows asm fin -> uses_get_exception (E := unit) ifuel asm h = Ok used ->
    handler_code (block_id b) h n1 n2 hitems hcs ->
    block_code b n n2
      (ILabel (Label.Marker m0) :: ILabel (Label.Block (block_id b)) :: items ++
       [ILabel (Label.Marker m1); ILabel (Label.Marker m2)] ++
       (if used : bool then [] else [IInstr (op 0x26)]) ++ hitems ++
       [ILabel (Label.Marker m3)])
      (cs ++ hcs ++ [mk_Clause (Label.Marker m0) (Label.Marker m1) (Label.Marker m2) (Label.Marker m3)]).

Inductive blocks_code : list BasicBlock -> Z -> Z -> list Item -> list PendingClause -> Prop :=
| blocks_nil n : blocks_code [] n n [] []
| blocks_cons b rest n n1 n2 items cs items' cs' :
    block_code b n n1 items cs -> blocks_code rest n1 n2 items' cs' ->
    blocks_code (b :: rest) n n2 (items ++ items') (cs ++ cs').
End roots.
