(* ===== verification/TablesSink.v ===== *)
(** * Metadata tokens for signatures and method bodies (cilly/src/ir/pe_exporter/tables.rs)

    How the builder answers the references of a program: classes to [TypeDef], [TypeRef] and [TypeSpec]
    tokens, methods and fields to definitions or [MemberRef]s, signatures to [StandAloneSig] rows, and
    custom attributes, whose types and constructors are references too. *)

From S2P Require Import Prelude Interner Types Class IR Walk Assign Heaps Signature Tables TablesOps Body.
From Stdlib Require Import Ascii.

(** The Unicode scalar values of the UTF-8 bytes of a string. *)
Fixpoint utf8_scalars (bytes : list Z) : list Z :=
  match bytes with
  | [] => []
  | b :: l =>
      if b <? 0x80 then b :: utf8_scalars l
      else
        match l with
        | b1 :: l1 =>
            if b <? 0xE0 then Z.lor (Z.shiftl (Z.land b 0x1F) 6) (Z.land b1 0x3F) :: utf8_scalars l1
            else
              match l1 with
              | b2 :: l2 =>
                  if b <? 0xF0 then
                    Z.lor (Z.lor (Z.shiftl (Z.land b 0x0F) 12) (Z.shiftl (Z.land b1 0x3F) 6)) (Z.land b2 0x3F)
                      :: utf8_scalars l2
                  else
                    match l2 with
                    | b3 :: l3 =>
                        Z.lor (Z.lor (Z.lor (Z.shiftl (Z.land b 0x07) 18) (Z.shiftl (Z.land b1 0x3F) 12))
                                 (Z.shiftl (Z.land b2 0x3F) 6)) (Z.land b3 0x3F) :: utf8_scalars l3
                    | [] => []
                    end
              | [] => []
              end
        | [] => []
        end
  end.

Definition has_char (c : ascii) (s : string) : bool := bool_decide (c ∈ String.list_ascii_of_string s).

Section resolver.
Context {E : Type}.
Local Notation M := (ST (MetadataBuilder * Assembly) E).

Definition on_tables {A} (m : ST MetadataBuilder E A) : M A := fun '(b, a) =>
  let '(b, o) := m b in ((b, a), o).
Definition on_assembly {A} (m : ST Assembly E A) : M A := fun '(b, a) =>
  let '(a, o) := m a in ((b, a), o).
Definition get_asm {A} (f : Assembly -> outcome E A) : M A := reads (fun s => f (snd s)).

(** The definition an open class reference of this name has. *)
Fixpoint open_candidates (candidates : list string) (raw_name : string) (is_valuetype : bool) (arity : Z)
    : M (option ClassDef) :=
  match candidates with
  | [] => mret None
  | candidate :: candidates =>
      name_id ← on_assembly (alloc_string candidate);
      open_id ← on_assembly (alloc_class_ref (mk_ClassRef name_id None is_valuetype []));
      def ← get_asm (fun a => Ok (class_ref_to_def a open_id));
      match def with
      | Some def => if cd_generics def =? arity then mret (Some def) else panic
      | None => open_candidates candidates raw_name is_valuetype arity
      end
  end.

Definition find_open_generic_def (cref : Interned KClassRef) : M (option ClassDef) :=
  class_ref ← get_asm (fun a => class_ref a cref);
  if bool_decide (is_Some (cr_asm class_ref)) || bool_decide (cr_generics class_ref = [])
  then mret None
  else
    let arity := len (cr_generics class_ref) in
    raw_name ← get_asm (fun a => get_string a (cr_name class_ref));
    let candidates :=
      raw_name :: (if has_char "`" raw_name then [] else [(raw_name +:+ "`" +:+ pretty arity)%string]) in
    open_candidates candidates raw_name (cr_is_valuetype class_ref) arity.

(** The token of a class, without its generic arguments. *)
Definition open_class_token (cref : Interned KClassRef) : M Z :=
  cr ← get_asm (fun a => class_ref a cref);
  raw_name ← get_asm (fun a => get_string a (cr_name cr));
  s ← ask;
  match unity_legacy_128_token (fst s) raw_name with
  | Some token => mret token
  | None =>
      match class_ref_to_def (snd s) cref with
      | Some _ => lift (unwrap (find_type_def (fst s) raw_name))
      | None =>
          def ← find_open_generic_def cref;
          match def with
          | Some def =>
              def_name ← get_asm (fun a => get_string a (cd_name def));
              s ← ask;
              lift (unwrap (find_type_def (fst s) def_name))
          | None =>
              scope ← (match cr_asm cr with
                       | Some asm_name =>
                           name ← get_asm (fun a => get_string a asm_name);
                           token ← on_tables (find_or_create_assembly_ref name);
                           mret (Some token)
                       | None => mret None
                       end : M (option Z));
              let full_name :=
                if bool_decide (cr_generics cr = []) then raw_name
                else (raw_name +:+ "`" +:+ pretty (len (cr_generics cr)))%string in
              let '(namespace, name) := split_namespace full_name in
              on_tables (type_ref scope namespace name)
          end
      end
  end.

Definition builder_type_def_or_ref (cref : Interned KClassRef) : M Z :=
  s ← ask;
  match class_token_cache (fst s) !! cref with
  | Some token => lift (encode_type_def_or_ref_token token)
  | None =>
      token ← open_class_token cref;
      _ ← on_tables (modify (fun b => set_class_token_cache b (<[cref := token]> (class_token_cache b))));
      lift (encode_type_def_or_ref_token token)
  end.
End resolver.

#[export] Instance builder_resolver : TypeDefOrRefResolver MetadataBuilder := {|
  type_def_or_ref E := builder_type_def_or_ref |}.

Section sink.
Context (mfuel sfuel : nat) {E : Type}.
Local Notation M := (ST (MetadataBuilder * Assembly) E).

(** An encoder, with the builder as its resolver, and its bytes in the blob heap. *)
Definition with_resolver {A} (m : ST (SigState MetadataBuilder) E A) : M A := fun '(b, a) =>
  let '(s, o) := m (mk_SigState a b) in ((sg_resolver s, sg_asm s), o).
Definition encoded_blob (m : ST (SigState MetadataBuilder) E (list Z)) : M Z :=
  blob ← with_resolver m; on_tables (intern_blob blob).

Definition class_ref_token (cref : Interned KClassRef) : M Z :=
  cr ← get_asm (fun a => class_ref a cref);
  match cr_generics cr with
  | [] => coded ← builder_type_def_or_ref cref; lift (decode_type_def_or_ref coded)
  | _ => off ← encoded_blob (encode_type sfuel (Ty.ClassRef cref)); on_tables (type_spec off)
  end.

(** *** Custom attributes *)

Definition arg_kind (v : CustomAttrArg) : Z :=
  match v with
  | AttrStr _ => ATTR_ELEM_STRING
  | AttrBool _ => ATTR_ELEM_BOOLEAN
  | AttrU8 _ => ATTR_ELEM_U1
  | AttrI32 _ => ATTR_ELEM_I4
  | AttrI64 _ => ATTR_ELEM_I8
  end.

(** A length-prefixed string of the assembly. *)
Definition ser_string (asm : Assembly) (s : Interned KString) : outcome E (list Z) :=
  text ← get_string asm s;
  n ← expect_u32 (len (ascii_bytes text));
  prefix ← write_compressed_u32 n;
  Ok (prefix ++ ascii_bytes text).

Definition encode_custom_attr_fixed_arg (asm : Assembly) (v : CustomAttrArg) : outcome E (list Z) :=
  match v with
  | AttrStr s => ser_string asm s
  | AttrBool b => Ok [Z.b2z b]
  | AttrU8 value => Ok [value]
  | AttrI32 i => Ok (le_bytes 4 i)
  | AttrI64 i => Ok (le_bytes 8 i)
  end.

Definition encode_named_arg (asm : Assembly) (named : CustomAttrNamedArg) : outcome E (list Z) :=
  name ← ser_string asm (na_name named);
  value ← encode_custom_attr_fixed_arg asm (na_value named);
  Ok ([match na_kind named with NamedField => ATTR_NAMED_FIELD | NamedProperty => ATTR_NAMED_PROPERTY end;
       arg_kind (na_value named)] ++ name ++ value).

(** The [CustomAttrib] blob. *)
Definition custom_attribute_blob (asm : Assembly) (attr : CustomAttrDef) : outcome E (list Z) :=
  args ← map_outcome (encode_custom_attr_fixed_arg asm) (ctor_args attr);
  n ← expect_u16 (len (named_args attr));
  named ← map_outcome (encode_named_arg asm) (named_args attr);
  Ok (le_bytes 2 0x0001 ++ concat args ++ le_bytes 2 n ++ concat named).

Definition add_custom_attribute (parent : Z) (attr : CustomAttrDef) : M Z :=
  attr_type_tok ← class_ref_token (attr_type attr);
  n ← lift (expect_u32 (len (ctor_args attr)));
  count ← lift (write_compressed_u32 n);
  sig_off ← on_tables (intern_blob (SIG_HASTHIS :: count ++ [0x01] ++ map arg_kind (ctor_args attr)));
  ctor ← on_tables (member_ref attr_type_tok ".ctor" sig_off);
  blob ← get_asm (fun asm => custom_attribute_blob asm attr);
  value ← on_tables (intern_blob blob);
  on_tables (push_custom_attribute parent ctor value).

(** [token_for_sequence] *)
Definition token_for_sequence (method sequence : Z) : ST MetadataBuilder E Z :=
  b ← ask;
  match method_param_cache b !! (method, sequence) with
  | Some token => mret token
  | None => _ ← assert_that (sequence =? 0); push_param method 0 0 0
  end.

Definition add_attributes (parent : Z) (attrs : list CustomAttrDef) : M unit :=
  for_each (fun attr => _ ← add_custom_attribute parent attr; mret tt) attrs.

Fixpoint add_parameter_attributes (method : Z) (index : nat) (attrs : list (list CustomAttrDef)) : M unit :=
  match attrs with
  | [] => mret tt
  | attributes :: attrs =>
      _ ← (match attributes with
           | [] => mret tt
           | _ =>
               sequence ← lift (expect_u16 (Z.of_nat index + 1));
               parameter ← on_tables (token_for_sequence method sequence);
               add_attributes parameter attributes
           end : M unit);
      add_parameter_attributes method (S index) attrs
  end.

Definition add_method_custom_attributes (method : Z) (method_attributes return_attributes : list CustomAttrDef)
    (parameter_attributes : list (list CustomAttrDef)) : M unit :=
  _ ← on_tables (assert_that (token_table method =? TABLE_METHOD_DEF));
  s ← ask;
  _ ← on_tables (assert_that (token_rid method <=? len (t_method_def (fst s))));
  _ ← add_attributes method method_attributes;
  _ ← (match return_attributes with
       | [] => mret tt
       | _ =>
           return_param ← on_tables (token_for_sequence method 0);
           add_attributes return_param return_attributes
       end : M unit);
  add_parameter_attributes method 0 parameter_attributes.

(** *** Methods *)

(** The unsigned native integers of Interlocked, which the netstandard facade spells signed. *)
Definition signed_twin (i : Int.t) : option Int.t :=
  match i with
  | Int.U32 => Some Int.I32
  | Int.U64 => Some Int.I64
  | Int.USize => Some Int.ISize
  | _ => None
  end.

Definition project_type (tpe : Ty.t) : M Ty.t :=
  match tpe with
  | Ty.Int i => mret (Ty.Int (default i (signed_twin i)))
  | Ty.Ref inner =>
      t ← get_asm (fun a => get_type a inner);
      match t with
      | Ty.Int i =>
          match signed_twin i with
          | Some signed => signed ← on_assembly (alloc_type (Ty.Int signed)); mret (Ty.Ref signed)
          | None => mret tpe
          end
      | _ => mret tpe
      end
  | Ty.Ptr inner =>
      t ← get_asm (fun a => get_type a inner);
      if bool_decide (t = Ty.Int Int.USize)
      then signed ← on_assembly (alloc_type (Ty.Int Int.ISize)); mret (Ty.Ptr signed)
      else mret tpe
  | _ => mret tpe
  end.

(** The receiver that the signature of a non-static method starts with; slicing past the end panics. *)
Definition strip_receiver (is_static : bool) (sig : FnSig) : outcome E FnSig :=
  if is_static then Ok sig
  else match inputs sig with
       | [] => Panic
       | _ :: args => Ok (mk_FnSig args (output sig))
       end.

Definition member_ref_of_method (method : Interned KMethodRef) (generic_args : list Ty.t) : M Z :=
  mr ← get_asm (fun a => get_mref a method);
  class_tok ← class_ref_token (mr_class mr);
  class ← get_asm (fun a => class_ref a (mr_class mr));
  class_name ← get_asm (fun a => get_string a (cr_name class));
  name ← get_asm (fun a => get_string a (mr_name mr));
  fnsig ← get_asm (fun a => get_sig a (mr_sig mr));
  s ← ask;
  fnsig ← (if bool_decide (runtime (fst s) = DotnetRuntime.UnityNetStandard21) &&
              bool_decide (class_name = "System.Threading.Interlocked"%string)
           then ins ← map_st project_type (inputs fnsig);
                out ← project_type (output fnsig);
                mret (mk_FnSig ins out)
           else mret fnsig : M FnSig);
  let is_static := bool_decide (mr_kind mr = MethodKind.Static) in
  let convention := if is_static then SIG_DEFAULT else SIG_HASTHIS in
  '(convention, generic_param_count) ←
    (match generic_args with
     | [] => mret (convention, 0)
     | _ => n ← lift (expect_u32 (len generic_args)); mret (Z.lor convention SIG_GENERIC, n)
     end : M (Z * Z));
  sig ← lift (strip_receiver is_static fnsig);
  sig_off ← encoded_blob (encode_method_sig (encode_type sfuel) convention generic_param_count sig);
  on_tables (member_ref class_tok name sig_off).

Definition builder_method_token (method : Interned KMethodRef) (generic_args : list Ty.t) : M Z :=
  s ← ask;
  base ← (match method_def_cache (fst s) !! method with
          | Some token => mret token
          | None => member_ref_of_method method generic_args
          end : M Z);
  match generic_args with
  | [] => mret base
  | _ =>
      inst_off ← encoded_blob (encode_method_spec_sig (encode_type sfuel) generic_args);
      on_tables (method_spec base inst_off)
  end.

(** *** Fields *)

Definition field_def_token (b : MetadataBuilder) (owner name_offset signature_offset : Z) : option Z :=
  field_def_cache b !! (owner, name_offset, signature_offset).

Definition field_like_token (owner : Interned KClassRef) (name_idx : Interned KString) (tpe : Ty.t) : M Z :=
  name ← get_asm (fun a => get_string a name_idx);
  sig_off ← encoded_blob (encode_field_sig (encode_type sfuel) tpe);
  s ← ask;
  found ← (if bool_decide (is_Some (class_ref_to_def (snd s) owner))
           then owner ← class_ref_token owner;
                name_offset ← on_tables (intern_string name);
                s ← ask;
                mret (field_def_token (fst s) owner name_offset sig_off)
           else mret None : M (option Z));
  match found with
  | Some token => mret token
  | None => class_tok ← class_ref_token owner; on_tables (member_ref class_tok name sig_off)
  end.

Definition builder_field_token (field : Interned KField) : M Z :=
  desc ← get_asm (fun a => get_field a field);
  field_like_token (field_owner desc) (field_name desc) (field_tpe desc).

Definition builder_static_field_token (field : Interned KStatic) : M Z :=
  desc ← get_asm (fun a => get_static_field a field);
  field_like_token (static_owner desc) (static_name desc) (static_tpe desc).

(** *** Strings and signatures *)

Definition builder_user_string_token (s : string) : ST MetadataBuilder E Z := fun b =>
  let '(h, o) := Heaps.user_string_token (utf8_scalars (ascii_bytes s)) (h_user_strings b) in (set_h_user_strings b h, o).

Definition builder_calli_sig_token (semantic_key : string) (sig_blob : list Z) : ST MetadataBuilder E Z :=
  cached (fun b => calli_sig_cache b !! semantic_key)
    (off ← intern_blob sig_blob; standalone_sig off)
    (fun token b => set_calli_sig_cache b (<[semantic_key := token]> (calli_sig_cache b))).

Definition builder_locals_sig_token (locals : list Ty.t) : M Z :=
  semantic_key ← get_asm (fun a => map_outcome (mangle mfuel a) locals);
  s ← ask;
  match locals_sig_cache (fst s) !! semantic_key with
  | Some token => mret token
  | None =>
      off ← encoded_blob (encode_locals_sig (encode_type sfuel) locals);
      token ← on_tables (standalone_sig off);
      _ ← on_tables (modify (fun b => set_locals_sig_cache b (<[semantic_key := token]> (locals_sig_cache b))));
      mret token
  end.

Definition builder_type_token (tpe : Ty.t) : M Z :=
  match tpe with
  | Ty.ClassRef cref => class_ref_token cref
  | other => off ← encoded_blob (encode_type sfuel other); on_tables (type_spec off)
  end.
End sink.

(** [impl TokenSink for MetadataBuilder], with fuel for mangling and for signatures. *)
Definition builder_sink (mfuel sfuel : nat) : TokenSink MetadataBuilder := {|
  method_token E := builder_method_token sfuel;
  field_token E := builder_field_token sfuel;
  static_field_token E := builder_static_field_token sfuel;
  user_string_token E := builder_user_string_token;
  calli_sig_token E key blob := on_tables (builder_calli_sig_token key blob);
  locals_sig_token E := builder_locals_sig_token mfuel sfuel;
  type_token E := builder_type_token sfuel;
  type_def_or_ref_token E := builder_type_def_or_ref |}.
