(* ===== verification/TablesSinkTheory.v ===== *)
(** * The builder is a lawful token sink

    The queries of [TablesSink] answer with tokens of rows that describe what was asked for, in all
    well-formed tables that follow: [MetadataBuilder] meets the laws of [ResolverLaws] and
    [TokenSinkLaws], so that what is proved of signatures and method bodies for any sink holds of the
    builder. *)

From S2P Require Import Prelude Interner Types Class IR Arenas Walk Assign Method Heaps Tables TablesRead Signature.
From S2P Require Import TablesOps TablesGrow TablesWf TablesTheory SigTheory Body BodySpec TablesSink.
Local Open Scope Z_scope.

(** ** What a query does *)

(** The methods and fields of the module, which queries do not add. *)
Definition definitions (b : MetadataBuilder) := (method_def_cache b, field_def_cache b).

(** What follows a state of the tables: rows and caches stay, and so does well-formedness. *)
Record follows (b b' : MetadataBuilder) : Prop := {
  fo_grows : TablesGrow.grows b b';
  fo_definitions : definitions b' = definitions b;
  fo_wf : wf b -> small b' -> wf b' }.

#[export] Instance follows_preorder : PreOrder follows.
Proof.
  split; [intros b; by split|]. intros a b c [G1 M1 W1] [G2 M2 W2].
  split; [by etrans|congruence|]. intros Hwf Hs. apply W2; [apply W1; [done|by eapply small_grows]|done].
Qed.

(** The tables and the assembly. *)
Definition both (s s' : MetadataBuilder * Assembly) : Prop := follows (fst s) (fst s') /\ extends (snd s) (snd s').

#[export] Instance both_preorder : PreOrder both.
Proof. split; [intros s; by split|]. intros a b c [? ?] [? ?]. split; by etrans. Qed.

(** A query moves along [both], and what it answers has [Q]. *)
Definition answers {S E A} (Rel : relation S) (m : ST S E A) (s : S) (Q : A -> S -> Prop) : Prop :=
  forall s' o, m s = (s', o) -> Rel s s' /\ forall x, o = Ok x -> Q x s'.

Section answers.
Context {S : Type} (Rel : relation S) `{!PreOrder Rel} {E : Type}.

Lemma answers_ret {A} (x : A) s (Q : A -> S -> Prop) : Q x s -> answers Rel (mret x : ST S E A) s Q.
Proof. intros HQ s' o [= <- <-]. split; [reflexivity|]. intros y [= <-]. exact HQ. Qed.
Lemma answers_bind {A B} (m : ST S E A) (f : A -> ST S E B) s P (Q : B -> S -> Prop) :
  answers Rel m s P -> (forall x s1, Rel s s1 -> P x s1 -> answers Rel (f x) s1 Q) -> answers Rel (m ≫= f) s Q.
Proof.
  intros Hm Hf s' o Hr. unfold mbind, ST_bind in Hr. destruct (m s) as [s1 o1] eqn:H1.
  destruct (Hm _ _ H1) as [R1 HP]. destruct o1 as [x|e| |].
  - destruct (Hf x s1 R1 (HP _ eq_refl) _ _ Hr) as [R2 HQ]. split; [by etrans|done].
  - injection Hr as <- <-. by split; [|intros ? [=]].
  - injection Hr as <- <-. by split; [|intros ? [=]].
  - injection Hr as <- <-. by split; [|intros ? [=]].
Qed.
Lemma answers_mono {A} (m : ST S E A) s P (Q : A -> S -> Prop) :
  answers Rel m s P -> (forall x s', Rel s s' -> P x s' -> Q x s') -> answers Rel m s Q.
Proof. intros Hm HQ s' o Hr. destruct (Hm _ _ Hr) as [R HP]. split; [done|]. eauto. Qed.
Lemma answers_steps {A} (m : ST S E A) s : steps Rel m -> answers Rel m s (fun _ _ => True).
Proof. intros Hm s' o Hr. specialize (Hm s). rewrite Hr in Hm. by split. Qed.
Lemma steps_answers {A} (m : ST S E A) Q : (forall s, answers Rel m s Q) -> steps Rel m.
Proof. intros Hm s. destruct (m s) as [s' o] eqn:Hr. by destruct (Hm s _ _ Hr). Qed.
Lemma answers_reads {A} (f : S -> outcome E A) s (Q : A -> S -> Prop) :
  (forall x, f s = Ok x -> Q x s) -> answers Rel (reads f) s Q.
Proof. intros HQ s' o [= <- <-]. split; [reflexivity|done]. Qed.
Lemma answers_lift {A} (o : outcome E A) s (Q : A -> S -> Prop) :
  (forall x, o = Ok x -> Q x s) -> answers Rel (lift o) s Q.
Proof. intros HQ s' o' [= <- <-]. split; [reflexivity|done]. Qed.
Lemma answers_ask_bind {B} (f : S -> ST S E B) s (Q : B -> S -> Prop) :
  answers Rel (f s) s Q -> answers Rel (ask ≫= f) s Q.
Proof. intros Hf s' o Hr. by apply Hf. Qed.
End answers.

(** *** On the tables *)

Section tables.
Context {E : Type}.
Local Notation MB := (ST MetadataBuilder E).
Local Notation M := (ST (MetadataBuilder * Assembly) E).
Implicit Types b : MetadataBuilder.

Lemma answers_tables {A} (m : MB A) s (Q : A -> MetadataBuilder * Assembly -> Prop) :
  answers follows m (fst s) (fun x b => Q x (b, snd s)) -> answers both (on_tables m) s Q.
Proof.
  intros Hm s' o Hr. destruct s as [b a]. unfold on_tables in Hr. destruct (m b) as [b' o'] eqn:Hmb. injection Hr as <- <-.
  destruct (Hm _ _ Hmb) as [F HQ]. by split.
Qed.
Lemma steps_tables {A} (m : MB A) : steps follows m -> steps both (on_tables m).
Proof. intros Hm [b a]. unfold on_tables. specialize (Hm b). destruct (m b). by split. Qed.
Lemma steps_assembly {A} (m : ST Assembly E A) : steps extends m -> steps both (on_assembly m).
Proof. intros Hm [b a]. unfold on_assembly. specialize (Hm a). destruct (m a). by split. Qed.

Lemma follows_yields {A} (m : MB A) b (Q : A -> MetadataBuilder -> Prop) :
  steps TablesGrow.grows m -> steps (same definitions) m ->
  yields m b (fun _ _ => True) -> (forall b' x, m b = (b', Ok x) -> Q x b') -> answers follows m b Q.
Proof.
  intros Hg Hm Hy HQ b' o Hr. specialize (Hg b). specialize (Hm b). rewrite Hr in Hg, Hm. split.
  - split; [done|done|]. intros Hwf Hs. by destruct (Hy Hwf _ _ Hr Hs).
  - intros x ->. eauto.
Qed.

(** What a cache answers, it holds. *)
Lemma cached_found look (make : MB Z) remember b b' tok :
  (forall b t, look (remember t b) = Some t) -> cached look make remember b = (b', Ok tok) -> look b' = Some tok.
Proof.
  intros Hl Hr. unfold cached in Hr. apply st_bind_ok in Hr as (b0 & ? & [= <- <-] & Hr).
  destruct (look b) as [t|] eqn:Hb; [by injection Hr as <- <-|].
  apply st_bind_ok in Hr as (b1 & t & Hm & Hr). apply st_bind_ok in Hr as (b2 & [] & [= <-] & [= <- <-]). apply Hl.
Qed.
End tables.

(** ** The operations that queries use *)

Section operations.
Context {E : Type}.
Local Notation MB := (ST MetadataBuilder E).
Implicit Types b : MetadataBuilder.

(** The methods of the module are registered elsewhere. *)
Ltac untouched := stepping; first [row_step | by apply same_add_row | by apply steps_modify | idtac].

Lemma blob_found s h h' off : blob_intern (E := E) s h = (h', Ok off) -> Heaps.find (H := blob_format) h' s = Some off.
Proof.
  unfold blob_intern, Heaps.find. destruct s as [|c s]; [by intros [= <- <-]|].
  change (heap_implicit (c :: s)) with false. cbv iota.
  destruct (interned h !! (c :: s)) as [o|] eqn:Ho; [by intros [= <- <-]|].
  destruct (_ ≫= _) as [[o prefix]| | |]; intros [= <- <-]. apply lookup_insert_eq.
Qed.

Lemma answers_intern_blob s b : answers follows (intern_blob s : MB Z) b (fun off b' => blob b' off s).
Proof.
  apply follows_yields; [stepping|untouched|by apply yields_intern_blob|].
  intros b' off Hr. unfold intern_blob in Hr. destruct (blob_intern _ _) as [h o] eqn:Hi. injection Hr as <- ->.
  by apply blob_found in Hi.
Qed.
Lemma answers_intern_string s b : answers follows (intern_string s : MB Z) b (fun _ _ => True).
Proof. apply follows_yields; [stepping|untouched|by apply yields_intern_string|done]. Qed.

Lemma found_row {R} {rows : MetadataBuilder -> list R} {assign} {T : Table rows assign} t row b b' tok :
  t = table_id -> add_row rows assign t row b = (b', Ok (E := E) tok) -> row_of b' t tok (lasting t (row_values row)).
Proof.
  intros -> Hr. unfold add_row in Hr. apply st_bind_ok in Hr as (b1 & [] & [= <-] & Hr).
  apply st_bind_ok in Hr as (b2 & rid & [= <- Hrid] & [= <- <-]). apply expect_u32_ok in Hrid as [-> _].
  exists (len (rows (assign b (rows b ++ [row])))), (row_values row).
  rewrite table_rows_own, rows_assign, map_app. unfold len. rewrite length_app. cbn [length map].
  split_and!; [done|lia| |done]. rewrite lookup_app_r by (rewrite length_map; lia).
  rewrite length_map. by replace (_ - _)%nat with 0%nat by lia.
Qed.

(** The assembly a scope names. *)
Definition assembly_known b (tok : Z) : Prop := exists n, assembly_ref_cache b !! n = Some tok.

Lemma assembly_valid b tok : wf b -> assembly_known b tok -> valid b tok.
Proof. intros Hwf [n Hn]. eapply assembly_ref_valid, (ok_assembly_refs _ _ (wf_caches _ Hwf)), Hn. Qed.

Lemma found_assembly_ref n target b b' tok :
  assembly_ref_cache b !! n = None -> assembly_ref n target b = (b', Ok (E := E) tok) -> assembly_ref_cache b' !! n = Some tok.
Proof.
  intros Hn Hr. unfold assembly_ref in Hr. apply st_bind_ok in Hr as (b1 & off & H1 & Hr).
  apply st_bind_ok in Hr as (b2 & [[[[v1 v2] v3] v4] key] & H2 & Hr).
  apply st_bind_ok in Hr as (b3 & t & H3 & Hr). apply st_bind_ok in Hr as (b4 & [] & [= <-] & [= <- <-]).
  assert (K1 : steps (same assembly_ref_cache) (intern_string n : MB Z)) by row_step.
  assert (K2 : forall key, steps (same assembly_ref_cache) (intern_blob key : MB Z)) by (intros; row_step).
  specialize (K1 b). rewrite H1 in K1. cbn in K1.
  assert (Hb2 : same assembly_ref_cache b1 b2).
  { destruct target as [v key'|]; [|by injection H2 as <-].
    apply st_bind_ok in H2 as (b5 & k & H5 & [= <- _]). specialize (K2 key' b1). by rewrite H5 in K2. }
  pose proof (same_add_row (E := E) assembly_ref_cache t_assembly_ref set_t_assembly_ref TABLE_ASSEMBLY_REF
    (mk_AssemblyRefRow v1 v2 v3 v4 0 key off 0 0) ltac:(done) b2) as K3. rewrite H3 in K3.
  unfold same in *. cbn in *. assert (Hn3 : assembly_ref_cache b3 !! n = None) by congruence.
  rewrite Hn3. cbn. apply lookup_insert_eq.
Qed.

Lemma answers_find_or_create n b : answers follows (find_or_create_assembly_ref n : MB Z) b (fun tok b' => assembly_known b' tok).
Proof.
  apply follows_yields; [stepping| | |].
  - unfold find_or_create_assembly_ref, assembly_ref. untouched. apply steps_modify. intros b0.
    by destruct (assembly_ref_cache b0 !! _).
  - eapply yields_mono; [apply yields_find_or_create|done].
  - intros b' tok Hr. unfold find_or_create_assembly_ref in Hr.
    apply st_bind_ok in Hr as (b0 & ? & [= <- <-] & Hr). cbv zeta in Hr.
    match type of Hr with context [assembly_ref_cache b !! ?k] => set (n' := k) in *; destruct (assembly_ref_cache b !! n') eqn:Hn end.
    + injection Hr as <- <-. by exists n'.
    + exists n'. by eapply found_assembly_ref.
Qed.

Lemma answers_type_ref scope ns n b :
  (forall tok, scope = Some tok -> assembly_known b tok) ->
  answers follows (type_ref scope ns n : MB Z) b (fun tok b' => type_ref_cache b' !! (default 0 scope, ns, n) = Some tok).
Proof.
  intros Hk. apply follows_yields; [stepping|unfold type_ref, cached; untouched| |].
  - apply yields_small; [|stepping]. intros Hwf _. eapply yields_mono; [apply yields_type_ref|done].
    destruct scope; [|done]. apply assembly_valid; auto.
  - intros b' tok. apply cached_found. intros. apply lookup_insert_eq.
Qed.

Lemma answers_type_spec sig b : is_blob b sig ->
  answers follows (type_spec sig : MB Z) b (fun tok b' => type_spec_cache b' !! sig = Some tok).
Proof.
  intros Hs. apply follows_yields; [stepping|unfold type_spec, cached; untouched| |].
  - eapply yields_mono; [by apply yields_type_spec|done].
  - intros b' tok. apply cached_found. intros. apply lookup_insert_eq.
Qed.
Lemma answers_standalone_sig sig b : is_blob b sig ->
  answers follows (standalone_sig sig : MB Z) b (fun tok b' => standalone_sig_cache b' !! sig = Some tok).
Proof.
  intros Hs. apply follows_yields; [stepping|unfold standalone_sig, cached; untouched| |].
  - eapply yields_mono; [by apply yields_standalone_sig|done].
  - intros b' tok. apply cached_found. intros. apply lookup_insert_eq.
Qed.
Lemma answers_member_ref class n sig b : (wf b -> small b -> valid b class) -> is_blob b sig ->
  answers follows (member_ref class n sig : MB Z) b (fun tok b' => member_ref_cache b' !! (class, n, sig) = Some tok).
Proof.
  intros Hc Hs. apply follows_yields; [stepping|unfold member_ref, cached; untouched| |].
  - apply yields_small; [|stepping]. intros Hwf Hsm. eapply yields_mono; [apply yields_member_ref; auto|done].
  - intros b' tok. apply cached_found. intros. apply lookup_insert_eq.
Qed.
Lemma answers_method_spec method inst b : (wf b -> small b -> valid b method) -> is_blob b inst ->
  answers follows (method_spec method inst : MB Z) b
    (fun tok b' => exists coded, encode_method_def_or_ref (E := E) method = Ok coded /\ row_of b' TABLE_METHOD_SPEC tok [coded; inst]).
Proof.
  intros Hm Hi. apply follows_yields; [stepping|unfold method_spec; untouched| |].
  - apply yields_small; [|stepping]. intros Hwf Hsm. eapply yields_mono; [apply yields_method_spec; auto|done].
  - intros b' tok (b1 & coded & [= <- Hc] & Hr)%st_bind_ok. exists coded. split; [done|].
    by apply (found_row TABLE_METHOD_SPEC) in Hr.
Qed.
End operations.

(** ** Classes *)

Section classes.
Context {E : Type}.
Local Notation M := (ST (MetadataBuilder * Assembly) E).
Implicit Types (b : MetadataBuilder) (s : MetadataBuilder * Assembly).

(** A token that a cache of types holds. *)
Definition type_known b (tok : Z) : Prop :=
  (exists key, type_ref_cache b !! key = Some tok) \/ (exists ns n, type_def_of b ns n = Some tok).

Lemma type_known_names b tok : wf b -> type_known b tok -> names b TYPES tok.
Proof.
  intros Hwf [[[[scope ns] n] Hk]|(ns & n & Hk)].
  - apply (ok_type_refs _ _ (wf_caches _ Hwf)) in Hk as (x & y & z & Hrow & _).
    eapply names_mono; [|eapply row_of_names; [|exact Hrow]]; [|done]. set_solver.
  - apply (ok_type_defs _ _ (wf_caches _ Hwf)), type_def_names in Hk. eapply names_mono; [|exact Hk]. set_solver.
Qed.

Lemma find_type_def_known b n tok : find_type_def b n = Some tok -> type_known b tok.
Proof. unfold find_type_def. destruct (split_namespace _) as [ns n']. intros Hf. right. eauto. Qed.

Lemma steps_candidates l n v k : steps both (open_candidates l n v k : M (option ClassDef)).
Proof.
  induction l as [|c l IH]; cbn [open_candidates]; [apply steps_ret; exact _|].
  apply steps_bind; [exact _|apply steps_assembly, alloc_string_extends|]. intros name_id.
  apply steps_bind; [exact _|apply steps_assembly, alloc_class_ref_extends|]. intros open_id.
  apply steps_bind; [exact _|apply steps_reads; exact _|]. intros [def|]; [|exact IH].
  destruct (_ =? _); [apply steps_ret|apply steps_panic]; exact _.
Qed.
Lemma steps_find_open c : steps both (find_open_generic_def c : M (option ClassDef)).
Proof.
  unfold find_open_generic_def. apply steps_bind; [exact _|apply steps_reads; exact _|]. intros cr.
  destruct (_ || _); [apply steps_ret; exact _|]. apply steps_bind; [exact _|apply steps_reads; exact _|].
  intros n. apply steps_candidates.
Qed.

Lemma answers_open_class_token c s :
  answers both (open_class_token c : M Z) s (fun tok s' => type_known (fst s') tok).
Proof.
  unfold open_class_token.
  apply (answers_bind _ _ _ _ (fun _ _ => True)); [apply answers_reads; [exact _|done]|]. intros cr s1 _ _.
  apply (answers_bind _ _ _ _ (fun _ _ => True)); [apply answers_reads; [exact _|done]|]. intros raw s2 _ _.
  apply answers_ask_bind. destruct (unity_legacy_128_token (fst s2) raw) as [tok|] eqn:Hu.
  { apply answers_ret; [exact _|]. unfold unity_legacy_128_token in Hu. case_match; [|done].
    by eapply find_type_def_known. }
  destruct (class_ref_to_def (snd s2) c) as [d|].
  { apply answers_lift; [exact _|]. intros tok Ht. destruct (find_type_def (fst s2) raw) eqn:Hf; [|done].
    injection Ht as <-. by eapply find_type_def_known. }
  apply (answers_bind _ _ _ _ (fun _ _ => True)); [apply answers_steps, steps_find_open|]. intros [def|] s3 _ _.
  { apply (answers_bind _ _ _ _ (fun _ _ => True)); [apply answers_reads; [exact _|done]|]. intros n s4 _ _.
    apply answers_ask_bind, answers_lift; [exact _|]. intros tok Ht. destruct (find_type_def (fst s4) n) eqn:Hf; [|done].
    injection Ht as <-. by eapply find_type_def_known. }
  apply (answers_bind _ _ _ _ (fun scope s' => forall tok, scope = Some tok -> assembly_known (fst s') tok)).
  { destruct (cr_asm cr) as [a|]; [|by apply answers_ret; [exact _|]].
    apply (answers_bind _ _ _ _ (fun _ _ => True)); [apply answers_reads; [exact _|done]|]. intros n s4 _ _.
    apply (answers_bind _ _ _ _ (fun tok s' => assembly_known (fst s') tok)).
    { apply answers_tables. eapply answers_mono; [apply answers_find_or_create|done]. }
    intros tok s5 _ Htok. apply answers_ret; [exact _|]. by intros ? [= <-]. }
  intros scope s4 _ Hscope. cbv zeta. destruct (split_namespace _) as [ns n]. apply answers_tables.
  eapply answers_mono; [by apply answers_type_ref|]. intros tok b' _ Hc. left. eexists. exact Hc.
Qed.

(** What finding a class leaves alone. *)
Section leaves.
Context {X : Type} (f : MetadataBuilder -> X).
Context (Hstrings : forall b h, f (set_h_strings b h) = f b) (Hblobs : forall b h, f (set_h_blobs b h) = f b).
Context (Hassemblies : forall b l, f (set_t_assembly_ref b l) = f b) (Hassembly : forall b m, f (set_assembly_ref_cache b m) = f b).
Context (Htypes : forall b l, f (set_t_type_ref b l) = f b) (Htype : forall b m, f (set_type_ref_cache b m) = f b).

Definition of_tables s := f (fst s).

Lemma same_tables {A} (m : ST MetadataBuilder E A) : steps (same f) m -> steps (same of_tables) (on_tables m).
Proof. intros Hm [b a]. unfold on_tables. specialize (Hm b). by destruct (m b). Qed.
Lemma same_assembly {A} (m : ST Assembly E A) : steps (same of_tables) (on_assembly m).
Proof. intros [b a]. unfold on_assembly. by destruct (m a). Qed.

Lemma same_candidates l n v k : steps (same of_tables) (open_candidates l n v k : M (option ClassDef)).
Proof. induction l as [|c l IH]; cbn [open_candidates]; stepping; apply same_assembly. Qed.
Lemma same_find_open c : steps (same of_tables) (find_open_generic_def c : M (option ClassDef)).
Proof.
  unfold find_open_generic_def. apply steps_bind; [exact _|apply steps_reads; exact _|]. intros cr.
  destruct (_ || _); [apply steps_ret; exact _|]. apply steps_bind; [exact _|apply steps_reads; exact _|].
  intros n. apply same_candidates.
Qed.
Hint Resolve same_find_open : steps.
Lemma same_open_class_token c : steps (same of_tables) (open_class_token c : M Z).
Proof.
  unfold open_class_token. stepping; apply same_tables.
  - unfold find_or_create_assembly_ref, assembly_ref.
    stepping; first [apply same_intern_string, Hstrings | apply same_intern_blob, Hblobs | apply same_add_row, Hassemblies | idtac].
    apply steps_modify. intros b0. unfold same. match goal with |- context [assembly_ref_cache b0 !! ?k] => destruct (assembly_ref_cache b0 !! k) end; [done|apply Hassembly].
  - unfold type_ref, cached. stepping; first [apply same_intern_string, Hstrings|apply same_add_row, Htypes|apply steps_modify; intros; apply Htype].
Qed.
End leaves.

(** What the resolver answers for a class. *)
Definition class_code b (c : Interned KClassRef) (code : Z) : Prop :=
  exists tok, class_token_cache b !! c = Some tok /\ encode_type_def_or_ref_token (E := Empty_set) tok = Ok code.

Lemma class_code_grows b b' c code : TablesGrow.grows b b' -> class_code b c code -> class_code b' c code.
Proof. intros G (tok & Hc & He). exists tok. split; [|done]. by eapply lookup_weaken, grows_classes. Qed.

Lemma remember_class b c tok : class_token_cache b !! c = None -> (wf b -> names b TYPES tok) ->
  follows b (set_class_token_cache b (<[c := tok]> (class_token_cache b))).
Proof.
  intros Hn Ht.
  assert (G : TablesGrow.grows b (set_class_token_cache b (<[c := tok]> (class_token_cache b)))).
  { constructor; intros; try done. by apply insert_subseteq. }
  split; [done|done|]. intros Hwf _. specialize (Ht Hwf). destruct Hwf as [Hh Hr Hc]. split; [done| |].
  - intros t. eapply list.Forall_impl; [apply Hr|]. intros row. by apply row_ok_grows.
  - eapply caches_ok_grows; [exact G|]. destruct Hc. constructor; try done. cbn.
    intros c' tok' [[<- <-]|[_ ?]]%lookup_insert_Some; eauto.
Qed.

Lemma answers_type_def_or_ref c s :
  answers both (builder_type_def_or_ref c : M Z) s (fun code s' => class_code (fst s') c code).
Proof.
  unfold builder_type_def_or_ref. apply answers_ask_bind. destruct (class_token_cache (fst s) !! c) as [tok|] eqn:Hc.
  { apply answers_lift; [exact _|]. intros code He. exists tok. split; [done|by eapply coded_any]. }
  apply (answers_bind _ _ _ _ (fun tok s' => type_known (fst s') tok /\ class_token_cache (fst s') !! c = None)).
  { intros s' o Hr. destruct (answers_open_class_token c s _ _ Hr) as [R HQ]. split; [done|]. intros tok Ho.
    split; [by apply HQ|]. pose proof (same_open_class_token class_token_cache ltac:(done) ltac:(done) ltac:(done) ltac:(done) ltac:(done) ltac:(done) c s) as K.
    rewrite Hr in K. unfold same, of_tables in K. cbn in K. by rewrite K. }
  intros tok [b1 a1] _ [Hk Hn]. cbn in Hk, Hn.
  apply (answers_bind _ _ _ _ (fun _ s' => class_token_cache (fst s') !! c = Some tok)).
  { intros s' o Hr. injection Hr as <- <-. split; [|intros [] _; apply lookup_insert_eq]. split; [|done].
    apply remember_class; [done|]. intros Hwf. by apply type_known_names. }
  intros [] s2 _ Hs2. apply answers_lift; [exact _|]. intros code He. exists tok. split; [done|by eapply coded_any].
Qed.
End classes.

(** ** The resolver *)

(** No query runs out of fuel before its encoders do. *)
Section fuelled.
Context {E : Type}.
Local Notation MB := (ST MetadataBuilder E).
Local Notation M := (ST (MetadataBuilder * Assembly) E).

Lemma fuelled_tables {A} (m : MB A) : st_fuelled m -> st_fuelled (on_tables m).
Proof. intros Hm [b a]. unfold on_tables. specialize (Hm b). by destruct (m b). Qed.
Lemma fuelled_assembly {A} (m : ST Assembly E A) : st_fuelled m -> st_fuelled (on_assembly m).
Proof. intros Hm [b a]. unfold on_assembly. specialize (Hm a). by destruct (m a). Qed.
Lemma fuelled_arena {k V} (vs : list V) (id : Interned k) : fuelled (arena_get (E := E) vs id).
Proof. unfold arena_get. by destruct (vs !! _). Qed.
Lemma fuelled_coded bits tags tok : fuelled (coded (E := E) bits tags tok).
Proof. unfold coded, tag_of. by destruct (List.find _ _) as [[]|]. Qed.
Lemma fuelled_u32 n : fuelled (expect_u32 (E := E) n).
Proof. unfold expect_u32. by destruct (n <? _). Qed.
Lemma fuelled_intern_string s : st_fuelled (intern_string s : MB Z).
Proof.
  intros b. unfold intern_string, strings_intern. destruct (ascii_bytes s); [done|].
  destruct (existsb _ _); [done|]. destruct (_ !! _); [done|]. by destruct (expect_u32 _).
Qed.
Lemma fuelled_intern_blob s : st_fuelled (intern_blob s : MB Z).
Proof.
  intros b. unfold intern_blob, blob_intern. destruct s; [done|].
  destruct (_ !! _); [done|]. by destruct (_ ≫= _) as [[]| | |].
Qed.
Lemma fuelled_add_row {R} (rows : MetadataBuilder -> list R) assign t row : st_fuelled (add_row rows assign t row : MB Z).
Proof.
  unfold add_row. apply st_fuelled_bind; [done|]. intros []. apply st_fuelled_bind; [|done].
  apply st_fuelled_reads. intros b. apply fuelled_u32.
Qed.

Ltac fuelling :=
  repeat first
    [ match goal with |- forall _, _ => intro end | progress cbv zeta | done
    | match goal with
      | |- st_fuelled (match ?x with _ => _ end) => destruct x
      | |- st_fuelled (_ ≫= _) => apply st_fuelled_bind
      | |- st_fuelled (reads _) => apply st_fuelled_reads
      | |- st_fuelled (get_asm _) => apply st_fuelled_reads
      | |- st_fuelled (lift _) => apply st_fuelled_lift
      | |- st_fuelled (on_assembly _) => apply fuelled_assembly
      | |- st_fuelled (on_tables _) => apply fuelled_tables
      end
    | apply fuelled_intern_string | apply fuelled_intern_blob | apply fuelled_add_row
    | apply fuelled_arena | apply fuelled_coded | apply fuelled_unwrap ].

Lemma fuelled_find_or_create n : st_fuelled (find_or_create_assembly_ref n : MB Z).
Proof. unfold find_or_create_assembly_ref, assembly_ref. fuelling. Qed.
Lemma fuelled_type_ref scope ns n : st_fuelled (type_ref scope ns n : MB Z).
Proof. unfold type_ref, cached. fuelling. unfold encode_resolution_scope. destruct scope; [apply fuelled_coded|done]. Qed.

Lemma fuelled_alloc_string n : st_fuelled (alloc_string (E := E) n).
Proof. intros a. unfold alloc_string, intern_in, arena_intern. by repeat case_match; cbn in *; simplify_eq; destruct (id_for_zero_based _). Qed.
Lemma fuelled_alloc_class_ref n : st_fuelled (alloc_class_ref (E := E) n).
Proof. intros a. unfold alloc_class_ref, intern_in, arena_intern. by repeat case_match; cbn in *; simplify_eq; destruct (id_for_zero_based _). Qed.
Lemma fuelled_find_open c : st_fuelled (find_open_generic_def c : M (option ClassDef)).
Proof.
  unfold find_open_generic_def. fuelling. set (l := _ :: _). clearbody l. induction l as [|x l IH]; cbn [open_candidates]; [done|].
  fuelling; [apply fuelled_alloc_string|apply fuelled_alloc_class_ref].
Qed.
Lemma fuelled_type_def_or_ref c : st_fuelled (builder_type_def_or_ref c : M Z).
Proof.
  unfold builder_type_def_or_ref, open_class_token.
  fuelling; first [apply fuelled_find_open | apply fuelled_find_or_create | apply fuelled_type_ref].
Qed.
End fuelled.

#[export] Program Instance builder_resolver_laws : ResolverLaws MetadataBuilder := {|
  later := follows;
  resolves := class_code |}.
Next Obligation.
  intros E c r a r' a' o Hr. by destruct (answers_type_def_or_ref c (r, a) _ _ Hr) as [[? ?] _].
Qed.
Next Obligation.
  intros E c r a r' a' code r'' Hr Hl. destruct (answers_type_def_or_ref c (r, a) _ _ Hr) as [_ HQ].
  specialize (HQ _ eq_refl). cbn in HQ. split; [|by eapply class_code_grows; [apply Hl|exact HQ]].
  destruct HQ as (tok & _ & Hc). unfold encode_type_def_or_ref_token, coded, tag_of in Hc.
  destruct (List.find _ _) as [[t tag]|] eqn:Hf; [|done]. cbn in Hc. injection Hc as <-.
  apply Z.lor_nonneg. split; [by apply wrap_in_u|]. apply find_tag in Hf as [_ Hin].
  revert Hin. rewrite !elem_of_cons. intros [[= _ ->]|[[= _ ->]|[[= _ ->]|Hin]]]; [done..|]. by apply elem_of_nil in Hin.
Qed.
Next Obligation. intros E c r a. apply fuelled_type_def_or_ref. Qed.

(** ** Tokens *)

Definition class_answer (b : MetadataBuilder) (c : Interned KClassRef) (tok : Z) : Prop :=
  (exists code, class_code b c code /\ decode_type_def_or_ref (E := Empty_set) code = Ok tok) \/
  (exists sig, is_blob b sig /\ type_spec_cache b !! sig = Some tok).

Lemma class_answer_grows b b' c tok : TablesGrow.grows b b' -> class_answer b c tok -> class_answer b' c tok.
Proof.
  intros G [(code & Hc & Hd)|(sig & Hs & Hc)]; [left|right].
  - exists code. split; [by eapply class_code_grows|done].
  - exists sig. split; [by eapply is_blob_grows|by eapply lookup_weaken, grows_type_specs].
Qed.

(** A decoded class is the class that was encoded. *)
Lemma decode_encoded {E E'} b tok code tok' : small b -> names b TYPES tok ->
  encode_type_def_or_ref_token (E := E) tok = Ok code -> decode_type_def_or_ref (E := E') code = Ok tok' -> tok' = tok.
Proof.
  intros Hs Hn. destruct (token_of_row _ _ _ Hs Hn) as (Ht & Hr & Hr24).
  assert (Htok : tok = token_new (token_table tok) (token_rid tok)).
  { destruct Hn as (t & rid & _ & Hb & -> & Hlt). assert (rid < 2 ^ 24) by (destruct Hs as [Hs _]; specialize (Hs t); lia).
    by destruct (token_parts t rid) as [-> ->]; [lia|lia|]. }
  unfold encode_type_def_or_ref_token, coded, tag_of. set (rid := token_rid tok) in *.
  assert (Hcode : forall tag, 0 <= tag < 4 -> 
    Z.lor (wrap 32 (Z.shiftl rid 2)) tag = rid * 2 ^ 2 + tag /\ Z.land (rid * 2 ^ 2 + tag) 3 = tag /\
    Z.shiftr (rid * 2 ^ 2 + tag) 2 = rid).
  { intros tag Htag. rewrite Z.shiftl_mul_pow2 by lia. rewrite wrap_id by (unfold in_u; lia).
    rewrite lor_shifted by lia. split; [done|]. change 3 with (Z.ones 2).
    rewrite Z.land_ones, Z.shiftr_div_pow2 by lia. split.
    - rewrite Z.add_comm, Z.mod_add by lia. by apply Z.mod_small.
    - rewrite Z.add_comm, Z.div_add by lia. rewrite Z.div_small by lia. lia. }
  unfold TYPES in Ht. rewrite !elem_of_cons in Ht.
  destruct Ht as [Ht|[Ht|[Ht|Ht]]]; [..|by apply elem_of_nil in Ht];
    rewrite Ht; cbn [List.find]; rewrite ?Z.eqb_refl; cbn; intros [= <-]; unfold decode_type_def_or_ref;
    match goal with |- context [Z.lor _ ?tag] => destruct (Hcode tag) as (-> & -> & ->); [lia|] end;
    cbn; intros [= <-]; rewrite Htok, Ht; done.
Qed.

Lemma class_answer_ok b c tok : wf b -> small b -> class_answer b c tok -> names b TYPES tok.
Proof.
  intros Hwf Hs [(code & (tok0 & Hc & He) & Hd)|(sig & _ & Hc)].
  - apply (ok_classes _ _ (wf_caches _ Hwf)) in Hc. by rewrite (decode_encoded _ _ _ _ Hs Hc He Hd).
  - apply (ok_type_specs _ _ (wf_caches _ Hwf)) in Hc. eapply names_mono; [|by eapply row_of_names; [|exact Hc]]. set_solver.
Qed.

(** A member that is referred to. *)
Definition member_answer (b : MetadataBuilder) (tok : Z) : Prop :=
  exists class n sig, member_ref_cache b !! (class, n, sig) = Some tok.

Lemma member_answer_grows b b' tok : TablesGrow.grows b b' -> member_answer b tok -> member_answer b' tok.
Proof. intros G (class & n & sig & Hc). exists class, n, sig. by eapply lookup_weaken, grows_member_refs. Qed.
Lemma member_answer_ok b tok : wf b -> member_answer b tok -> names b [TABLE_MEMBER_REF] tok.
Proof.
  intros Hwf (class & n & sig & Hc). apply (ok_member_refs _ _ (wf_caches _ Hwf)) in Hc as (x & y & Hrow & _).
  by eapply row_of_names; [|exact Hrow].
Qed.

(** The token a method has without its generic arguments. *)
Definition method_base (b : MetadataBuilder) (m : Interned KMethodRef) (tok : Z) : Prop := method_def_cache b !! m = Some tok \/ member_answer b tok.

Definition method_answer (b : MetadataBuilder) (m : Interned KMethodRef) (generics : list Ty.t) (tok : Z) : Prop :=
  match generics with
  | [] => method_base b m tok
  | _ => exists base coded inst, method_base b m base /\
      encode_method_def_or_ref (E := Empty_set) base = Ok coded /\ is_blob b inst /\ row_of b TABLE_METHOD_SPEC tok [coded; inst]
  end.

(** Steps whose answers are not needed. *)
Ltac moved R :=
  repeat match goal with
    | H : class_answer (fst _) _ _ |- _ => apply (class_answer_grows _ _ _ _ (fo_grows _ _ (proj1 R))) in H
    | H : member_answer (fst _) _ |- _ => apply (member_answer_grows _ _ _ (fo_grows _ _ (proj1 R))) in H
    | H : is_blob (fst _) _ |- _ => apply (is_blob_grows _ _ _ (fo_grows _ _ (proj1 R))) in H
    end.
Tactic Notation "answered" uconstr(P) := apply (answers_bind _ _ _ _ P); [|let x := fresh "x" in let s' := fresh "s" in
  let R := fresh "R" in let H := fresh "H" in intros x s' R H; moved R; cbv beta in H].
Ltac quiet := answered (fun _ _ => True).
Ltac reading := apply answers_reads; [exact _|done].

Section queries.
Context (mfuel sfuel : nat) {E : Type}.
Local Notation M := (ST (MetadataBuilder * Assembly) E).
Implicit Types (b : MetadataBuilder) (s : MetadataBuilder * Assembly).

Lemma steps_resolver {A} (m : ST (SigState MetadataBuilder) E A) : steps moves m -> steps both (with_resolver m).
Proof.
  intros Hm [b a]. unfold with_resolver. specialize (Hm (mk_SigState a b)). destruct (m _) as [s o]. destruct Hm. by split.
Qed.

Lemma answers_encoded_blob (m : ST (SigState MetadataBuilder) E (list Z)) s : steps moves m ->
  answers both (encoded_blob m) s (fun off s' => is_blob (fst s') off).
Proof.
  intros Hm. unfold encoded_blob.
  apply (answers_bind _ _ _ _ (fun _ _ => True)); [by apply answers_steps, steps_resolver|]. intros bytes s1 _ _.
  apply answers_tables. eapply answers_mono; [apply answers_intern_blob|]. intros off b' _ H'. by exists bytes.
Qed.

Lemma answers_class_ref_token c s :
  answers both (class_ref_token sfuel c : M Z) s (fun tok s' => class_answer (fst s') c tok).
Proof.
  unfold class_ref_token.
  apply (answers_bind _ _ _ _ (fun _ _ => True)); [apply answers_reads; [exact _|done]|]. intros cr s1 _ _.
  destruct (cr_generics cr).
  - apply (answers_bind _ _ _ _ (fun code s' => class_code (fst s') c code)); [apply answers_type_def_or_ref|].
    intros code s2 _ Hc. apply answers_lift; [exact _|]. intros tok Hd. left. exists code. split; [done|].
    unfold decode_type_def_or_ref in *. repeat case_match; cbn in *; congruence.
  - apply (answers_bind _ _ _ _ (fun off s' => is_blob (fst s') off)); [apply answers_encoded_blob, encode_type_moves|].
    intros off s2 _ Hoff. apply answers_tables. eapply answers_mono; [by apply answers_type_spec|].
    intros tok b' F Hc. right. exists off. split; [by eapply is_blob_grows; [apply F|]|exact Hc].
Qed.

Lemma steps_project_type t : steps both (project_type t : M Ty.t).
Proof.
  unfold project_type. destruct t; try (apply steps_ret; exact _).
  - apply steps_bind; [exact _|apply steps_reads; exact _|]. intros t. case_bool_decide; [|apply steps_ret; exact _].
    apply steps_bind; [exact _|apply steps_assembly, alloc_type_extends|]. intros. apply steps_ret; exact _.
  - apply steps_bind; [exact _|apply steps_reads; exact _|]. intros t. destruct t; try (apply steps_ret; exact _).
    destruct (signed_twin _); [|apply steps_ret; exact _].
    apply steps_bind; [exact _|apply steps_assembly, alloc_type_extends|]. intros. apply steps_ret; exact _.
Qed.

Lemma answers_member c class n sig (s : MetadataBuilder * Assembly) :
  class_answer (fst s) c class -> is_blob (fst s) sig ->
  answers both (on_tables (member_ref class n sig) : M Z) s (fun tok s' => member_answer (fst s') tok).
Proof.
  intros Hc Hs. apply answers_tables. eapply answers_mono; [apply answers_member_ref; [|done]|].
  - intros Hwf Hsm. by eapply valid_names, class_answer_ok.
  - intros tok b' _ Hk. by exists class, n, sig.
Qed.

Lemma answers_member_ref_of_method m generics s :
  answers both (member_ref_of_method sfuel m generics : M Z) s (fun tok s' => member_answer (fst s') tok).
Proof.
  unfold member_ref_of_method. quiet; [reading|].
  answered (fun tok s' => class_answer (fst s') (mr_class x) tok); [apply answers_class_ref_token|].
  quiet; [reading|]. quiet; [reading|]. quiet; [reading|]. quiet; [reading|].
  apply answers_ask_bind. quiet.
  { destruct (_ && _); [|by apply answers_ret; [exact _|]].
    quiet; [apply answers_steps, steps_map_st; [exact _|]; intros; apply steps_project_type|].
    quiet; [apply answers_steps, steps_project_type|]. by apply answers_ret; [exact _|]. }
  cbv zeta. quiet.
  { destruct generics; [by apply answers_ret; [exact _|]|]. quiet; [by apply answers_lift; [exact _|]|].
    by apply answers_ret; [exact _|]. }
  destruct x6 as [convention count]. quiet; [by apply answers_lift; [exact _|]|].
  answered (fun off s' => is_blob (fst s') off); [apply answers_encoded_blob, encode_method_moves, encode_type_moves|].
  by eapply answers_member.
Qed.

Lemma method_base_follows b b' m tok : follows b b' -> method_base b m tok -> method_base b' m tok.
Proof.
  intros [G D _] [H|H]; [left|right].
  - unfold definitions in D. injection D as D _. by rewrite D.
  - by eapply member_answer_grows.
Qed.
Lemma method_base_valid b m tok : wf b -> method_base b m tok -> names b [TABLE_METHOD_DEF; TABLE_MEMBER_REF] tok.
Proof.
  intros Hwf [H|H].
  - apply (ok_methods _ _ (wf_caches _ Hwf)) in H. eapply names_mono; [|exact H]. set_solver.
  - apply member_answer_ok in H; [|done]. eapply names_mono; [|exact H]. set_solver.
Qed.

Lemma answers_method_token m generics s :
  answers both (builder_method_token sfuel m generics : M Z) s (fun tok s' => method_answer (fst s') m generics tok).
Proof.
  unfold builder_method_token. apply answers_ask_bind.
  answered (fun tok s' => method_base (fst s') m tok).
  { destruct (method_def_cache (fst s) !! m) eqn:Hm; [by apply answers_ret; [exact _|left]|].
    eapply answers_mono; [apply answers_member_ref_of_method|]. intros tok s' _ Hk. by right. }
  destruct generics as [|g gs]; [by apply answers_ret; [exact _|]|].
  answered (fun off s' => is_blob (fst s') off); [apply answers_encoded_blob, encode_method_spec_moves, encode_type_moves|].
  apply (method_base_follows _ _ _ _ (proj1 R0)) in H. apply answers_tables.
  eapply answers_mono; [apply answers_method_spec; [|done]|].
  - intros Hwf Hs. eapply valid_names, method_base_valid; done.
  - intros tok b' F (coded & He & Hrow). exists x, coded, x0. split_and!; [by eapply method_base_follows|by eapply coded_any| |done].
    by eapply is_blob_grows; [apply F|].
Qed.
End queries.

(** *** Fields, strings and signatures *)

Definition field_answer (b : MetadataBuilder) (tok : Z) : Prop :=
  (exists key, field_def_cache b !! key = Some tok) \/ member_answer b tok.

Lemma field_answer_follows b b' tok : follows b b' -> field_answer b tok -> field_answer b' tok.
Proof.
  intros [G D _] [[key H]|H]; [left|right].
  - exists key. unfold definitions in D. injection D as _ D. by rewrite D.
  - by eapply member_answer_grows.
Qed.
Lemma field_answer_ok b tok : wf b -> field_answer b tok -> names b [TABLE_FIELD; TABLE_MEMBER_REF] tok.
Proof.
  intros Hwf [[[[owner n] sig] H]|H].
  - apply (ok_fields _ _ (wf_caches _ Hwf)) in H as [flags Hrow].
    eapply names_mono; [|by eapply row_of_names; [|exact Hrow]]. set_solver.
  - apply member_answer_ok in H; [|done]. eapply names_mono; [|exact H]. set_solver.
Qed.

Section more_queries.
Context (mfuel sfuel : nat) {E : Type}.
Local Notation M := (ST (MetadataBuilder * Assembly) E).
Implicit Types (b : MetadataBuilder) (s : MetadataBuilder * Assembly).

Lemma answers_field_like owner n tpe s :
  answers both (field_like_token sfuel owner n tpe : M Z) s (fun tok s' => field_answer (fst s') tok).
Proof.
  unfold field_like_token. quiet; [reading|].
  answered (fun off s' => is_blob (fst s') off); [apply answers_encoded_blob, encode_field_moves, encode_type_moves|].
  apply answers_ask_bind.
  apply (answers_bind _ _ _ _ (fun (found : option Z) (s' : MetadataBuilder * Assembly) =>
    match found with Some tok => field_answer (fst s') tok | None => True end)).
  { destruct (bool_decide _); [|by apply answers_ret; [exact _|]].
    answered (fun tok s' => class_answer (fst s') owner tok); [apply answers_class_ref_token|].
    quiet; [apply answers_tables; eapply answers_mono; [apply answers_intern_string|done]|].
    apply answers_ask_bind, answers_ret; [exact _|]. destruct (field_def_token _ _ _ _) eqn:Hf; [|done].
    left. eexists. exact Hf. }
  intros [tok|] s2 R2 Hfound; moved R2; [by apply answers_ret; [exact _|]|].
  answered (fun tok s' => class_answer (fst s') owner tok); [apply answers_class_ref_token|].
  eapply answers_mono; [by eapply answers_member|]. intros tok s' _ Hk. by right.
Qed.
Lemma answers_field_token f s :
  answers both (builder_field_token sfuel f : M Z) s (fun tok s' => field_answer (fst s') tok).
Proof. unfold builder_field_token. quiet; [reading|]. apply answers_field_like. Qed.
Lemma answers_static_field_token f s :
  answers both (builder_static_field_token sfuel f : M Z) s (fun tok s' => field_answer (fst s') tok).
Proof. unfold builder_static_field_token. quiet; [reading|]. apply answers_field_like. Qed.

(** Strings are held by their heap. *)
Definition string_answer b (str : string) (tok : Z) : Prop :=
  exists off, interned (h_user_strings b) !! utf8_scalars (ascii_bytes str) = Some off /\ tok = token_new TABLE_USER_STRING off.

Lemma answers_user_string str b :
  answers follows (builder_user_string_token str : ST MetadataBuilder E Z) b (fun tok b' => string_answer b' str tok).
Proof.
  intros b' o Hr. unfold builder_user_string_token, Heaps.user_string_token in Hr.
  match type of Hr with (let '(_, _) := ?x in _) = _ => destruct x as [h o'] eqn:Hm end. injection Hr as <- ->. unfold mbind, ST_bind in Hm.
  pose proof (user_intern_grows (E := E) (utf8_scalars (ascii_bytes str)) (h_user_strings b)) as G.
  assert (Hh : interned h = interned (h_user_strings b) /\ heap_data h = heap_data (h_user_strings b) \/
    interned h = <[utf8_scalars (ascii_bytes str) := len (heap_data (h_user_strings b))]> (interned (h_user_strings b)) /\
    heap_data (h_user_strings b) `prefix_of` heap_data h).
  { unfold user_string_intern in *. destruct (interned (h_user_strings b) !! _) eqn:Hi.
    - injection Hm as <- _. by left.
    - destruct (_ ≫= _) as [[off prefix]| | |] eqn:Hk; [|injection Hm as <- _; by left..].
      injection Hm as <- _. right. cbn in *. split; [|by apply prefix_app_r].
      apply bind_ok in Hk as (n & _ & Hk). apply bind_ok in Hk as (k & [Hlen _]%expect_u32_ok & Hk).
      apply bind_ok in Hk as (p & _ & [= <- <-]). unfold len. by rewrite Hlen. }
  assert (G' : grows_to (h_user_strings b) h).
  { destruct (user_string_intern _ _) as [h1 []]; injection Hm as <- _; exact G. }
  assert (TablesGrow.grows b (set_h_user_strings b h)) as Gb by (apply grows_rest; [done|]; by split_and!).
  split.
  - split; [done|done|]. intros [Hheaps Hrows Hcaches] _. split.
    + destruct Hheaps as (H1 & H2 & H3). split_and!; [done..|]. cbn.
      destruct Hh as [[-> ->]|[-> Hp]]; [done|]. apply prefix_length in Hp. intros k off.
      intros [[<- <-]|[_ Hk]]%lookup_insert_Some; [unfold len; lia|]. apply H3 in Hk. unfold len in *. lia.
    + intros t. eapply list.Forall_impl; [apply Hrows|]. intros row. by apply row_ok_grows.
    + eapply caches_ok_grows; [exact Gb|]. destruct Hcaches. by constructor.
  - intros tok ->. destruct (user_string_intern _ _) as [h1 []] eqn:Hi; [|discriminate Hm..]. injection Hm as <- <-.
    exists a. split; [|done]. cbn. unfold user_string_intern in Hi.
    destruct (interned (h_user_strings b) !! _) eqn:Hk; [by injection Hi as <- <-|].
    destruct (_ ≫= _) as [[off prefix]| | |]; [|discriminate Hi..]. injection Hi as <- <-. apply lookup_insert_eq.
Qed.

(** Signatures are held by caches of their own. *)
Lemma answers_calli key bytes b :
  answers follows (builder_calli_sig_token key bytes : ST MetadataBuilder E Z) b
    (fun tok b' => calli_sig_cache b' !! key = Some tok).
Proof.
  apply follows_yields.
  - unfold builder_calli_sig_token. apply steps_cached; [exact _|stepping| |].
    + unfold standalone_sig, cached. stepping; first [row_step|by apply steps_modify].
    + intros. constructor; intros; try done. by apply insert_subseteq.
  - unfold builder_calli_sig_token, standalone_sig, cached. stepping; first [row_step|by apply steps_modify].
  - apply (yields_mono _ _ (fun tok b' => names b' [TABLE_STAND_ALONE_SIG] tok)); [|done]. apply yields_cached.
    + apply steps_cached; [exact _|stepping| |].
      * unfold standalone_sig, cached. stepping; first [row_step|by apply steps_modify].
      * intros. constructor; intros; try done. by apply insert_subseteq.
    + intros Hwf tok Hc. by apply (ok_calli _ _ (wf_caches _ Hwf) _ _ Hc).
    + split; [stepping|]. step. tail yields_standalone_sig; [by eapply blob_column|]. by eapply row_of_names.
    + remembered.
    + intros. constructor; intros; try done. by apply insert_subseteq.
    + unfold standalone_sig, cached. stepping; first [row_step|by apply steps_modify].
  - intros b' tok. apply cached_found. intros. apply lookup_insert_eq.
Qed.

Lemma same_encoded_locals l : steps (same (of_tables locals_sig_cache))
  (encoded_blob (encode_locals_sig (encode_type sfuel) l) : M Z).
Proof.
  unfold encoded_blob. apply steps_bind; [exact _| |intros; apply same_tables, same_intern_blob; done].
  intros [b a]. unfold with_resolver.
  pose (Rel := same (fun s : SigState MetadataBuilder => locals_sig_cache (sg_resolver s))).
  assert (Hm : steps Rel (encode_locals_sig (E := E) (R := MetadataBuilder) (encode_type sfuel) l)).
  { assert (Hasm : forall A (m : ST Assembly E A), steps extends m -> steps Rel (on_asm (S := SigState MetadataBuilder) m)).
    { intros A m _ s. unfold on_asm. cbn. by destruct (m (sg_asm s)). }
    assert (Hres : forall c, steps Rel (resolve (E := E) c)).
    { intros c s. unfold resolve. cbn [type_def_or_ref builder_resolver].
      assert (K : steps (same (of_tables locals_sig_cache)) (builder_type_def_or_ref (E := E) c)).
      { unfold builder_type_def_or_ref. stepping; [by apply same_open_class_token|].
        apply same_tables. by apply steps_modify. }
      specialize (K (sg_resolver s, sg_asm s)). by destruct (builder_type_def_or_ref c _) as [[r' a'] o]. }
    assert (PreOrder Rel) by (unfold Rel; exact _).
    apply encode_locals_steps; try done. intros t. by apply encode_type_steps. }
  specialize (Hm (mk_SigState a b)). by destruct (encode_locals_sig _ _ _).
Qed.

Lemma remember_locals b key tok : locals_sig_cache b !! key = None -> (wf b -> names b [TABLE_STAND_ALONE_SIG] tok) ->
  follows b (set_locals_sig_cache b (<[key := tok]> (locals_sig_cache b))).
Proof.
  intros Hn Ht.
  assert (G : TablesGrow.grows b (set_locals_sig_cache b (<[key := tok]> (locals_sig_cache b)))).
  { constructor; intros; try done. by apply insert_subseteq. }
  split; [done|done|]. intros Hwf _. specialize (Ht Hwf). destruct Hwf as [Hh Hr Hc]. split; [done| |].
  - intros t. eapply list.Forall_impl; [apply Hr|]. intros row. by apply row_ok_grows.
  - eapply caches_ok_grows; [exact G|]. destruct Hc. constructor; try done. cbn.
    intros c' tok' [[<- <-]|[_ ?]]%lookup_insert_Some; eauto.
Qed.

Lemma answers_locals l s :
  answers both (builder_locals_sig_token mfuel sfuel l : M Z) s
    (fun tok s' => exists key, locals_sig_cache (fst s') !! key = Some tok).
Proof.
  unfold builder_locals_sig_token. quiet; [reading|]. rename x into key. apply answers_ask_bind.
  destruct (locals_sig_cache (fst s0) !! key) as [tok|] eqn:Hc; [apply answers_ret; [exact _|by exists key]|].
  apply (answers_bind _ _ _ _ (fun off s' => is_blob (fst s') off /\ locals_sig_cache (fst s') !! key = None)).
  { intros s' o Hr. destruct (answers_encoded_blob _ s0 (encode_locals_moves _ (encode_type_moves sfuel) l) _ _ Hr) as [R' HQ].
    split; [done|]. intros off Ho. split; [by apply HQ|].
    pose proof (same_encoded_locals l s0) as K. rewrite Hr in K. unfold same, of_tables in K. cbn in K. by rewrite K. }
  intros off [b1 a1] _ [Hoff Hn]. cbn in Hoff, Hn.
  apply (answers_bind _ _ _ _ (fun tok s' => standalone_sig_cache (fst s') !! off = Some tok /\ locals_sig_cache (fst s') !! key = None)).
  { apply answers_tables. intros b' o Hr. destruct (answers_standalone_sig off b1 Hoff _ _ Hr) as [F HQ]. split; [done|].
    intros tok Ho. split; [by apply HQ|].
    assert (K : steps (same locals_sig_cache) (standalone_sig (E := E) off)).
    { unfold standalone_sig, cached. stepping; first [row_step|by apply steps_modify]. }
    specialize (K b1). cbn in Hr. rewrite Hr in K. unfold same in K. cbn in *. by rewrite K. }
  intros tok [b2 a2] _ [Hs Hn2]. cbn in Hs, Hn2.
  apply (answers_bind _ _ _ _ (fun _ s' => locals_sig_cache (fst s') !! key = Some tok)).
  { intros s' o Hr. injection Hr as <- <-. split; [|intros [] _; apply lookup_insert_eq]. split; [|done].
    apply remember_locals; [done|]. intros Hwf. by eapply row_of_names; [|by apply (ok_standalone _ _ (wf_caches _ Hwf))]. }
  intros [] s3 _ Hk. apply answers_ret; [exact _|]. by exists key.
Qed.

Definition type_answer b (t : Ty.t) (tok : Z) : Prop :=
  match t with
  | Ty.ClassRef c => class_answer b c tok
  | _ => exists sig, is_blob b sig /\ type_spec_cache b !! sig = Some tok
  end.

Lemma answers_type_token t s :
  answers both (builder_type_token sfuel t : M Z) s (fun tok s' => type_answer (fst s') t tok).
Proof.
  assert (Hother : forall t, answers both (off ← encoded_blob (encode_type sfuel t); on_tables (type_spec off) : M Z) s
    (fun tok s' => exists sig, is_blob (fst s') sig /\ type_spec_cache (fst s') !! sig = Some tok)).
  { intros t'. answered (fun off s' => is_blob (fst s') off); [apply answers_encoded_blob, encode_type_moves|].
    apply answers_tables. eapply answers_mono; [by apply answers_type_spec|].
    intros tok b' F Hc. exists x. split; [by eapply is_blob_grows; [apply F|]|exact Hc]. }
  destruct t; try apply Hother. apply answers_class_ref_token.
Qed.
End more_queries.

(** ** The laws *)

Definition answer (b : MetadataBuilder) (q : TokenQuery) (tok : Z) : Prop :=
  match q with
  | TokMethod m generics => method_answer b m generics tok
  | TokField _ | TokStatic _ => field_answer b tok
  | TokString str => string_answer b str tok
  | TokCalli key _ => calli_sig_cache b !! key = Some tok
  | TokLocals _ => exists key, locals_sig_cache b !! key = Some tok
  | TokType t => type_answer b t tok
  end.

(** The tables a token of a query may name. *)
Definition targets (q : TokenQuery) : list Z :=
  match q with
  | TokMethod _ [] => [TABLE_METHOD_DEF; TABLE_MEMBER_REF]
  | TokMethod _ _ => [TABLE_METHOD_SPEC]
  | TokField _ | TokStatic _ => [TABLE_FIELD; TABLE_MEMBER_REF]
  | TokString _ => []
  | TokCalli _ _ | TokLocals _ => [TABLE_STAND_ALONE_SIG]
  | TokType (Ty.ClassRef _) => TYPES
  | TokType _ => [TABLE_TYPE_SPEC]
  end.

Lemma answer_follows b b' q tok : follows b b' -> answer b q tok -> answer b' q tok.
Proof.
  intros F. pose proof (fo_grows _ _ F) as G. destruct q as [m g|f|f|str|key bytes|l|t]; cbn.
  - destruct g as [|g gs]; [by apply method_base_follows|].
    intros (base & coded & inst & Hb & He & Hi & Hrow). exists base, coded, inst.
    split_and!; [by eapply method_base_follows|done|by eapply is_blob_grows|by eapply row_of_grows].
  - by apply field_answer_follows.
  - by apply field_answer_follows.
  - intros (off & Ho & ->). exists off. split; [|done]. by eapply lookup_weaken, (grows_user _ _ G).
  - intros Hc. by eapply lookup_weaken, grows_calli.
  - intros [key Hc]. exists key. by eapply lookup_weaken, grows_locals.
  - assert (Hsig : (exists sig, is_blob b sig /\ type_spec_cache b !! sig = Some tok) ->
      exists sig, is_blob b' sig /\ type_spec_cache b' !! sig = Some tok).
    { intros (sig & Hs & Hc). exists sig. split; [by eapply is_blob_grows|by eapply lookup_weaken, grows_type_specs]. }
    destruct t; cbn; try apply Hsig. by apply class_answer_grows.
Qed.

(** What answers in well-formed tables name. *)
Lemma answer_names b q tok : wf b -> small b -> answer b q tok ->
  match q with TokString _ => True | _ => names b (targets q) tok end.
Proof.
  intros Hwf Hs. destruct q as [m g|f|f|str|key bytes|l|t]; cbn.
  - destruct g as [|g gs]; [by apply method_base_valid|]. intros (base & coded & inst & _ & _ & _ & Hrow).
    by eapply row_of_names; [|exact Hrow].
  - by apply field_answer_ok.
  - by apply field_answer_ok.
  - done.
  - apply (ok_calli _ _ (wf_caches _ Hwf)).
  - intros [k Hk]. by eapply (ok_locals _ _ (wf_caches _ Hwf)).
  - assert (Hsig : (exists sig, is_blob b sig /\ type_spec_cache b !! sig = Some tok) -> names b [TABLE_TYPE_SPEC] tok).
    { intros (sig & _ & Hc). by eapply row_of_names; [|by apply (ok_type_specs _ _ (wf_caches _ Hwf))]. }
    destruct t; cbn; try apply Hsig. by apply class_answer_ok.
Qed.

(** The token of a query: its answer, a row of a table it may name. *)
Definition token_row (b : MetadataBuilder) (q : TokenQuery) (tok : Z) : Prop :=
  answer b q tok /\ match q with TokString _ => True | _ => names b (targets q) tok end.

Definition sound_tables (b : MetadataBuilder) : Prop := wf b /\ small b.

Lemma token_new_u32 t rid : in_u 32 rid -> in_u 32 (token_new t rid).
Proof. intros Hr. unfold token_new. apply or_u; [lia|by apply wrap_in_u|done]. Qed.

Lemma answer_sound b q tok : sound_tables b -> answer b q tok -> in_u 32 tok /\ token_row b q tok.
Proof.
  intros [Hwf Hs] Ha. pose proof (answer_names _ _ _ Hwf Hs Ha) as Hn. split; [|done].
  assert (Hu : forall tables, names b tables tok -> in_u 32 tok).
  { intros tables (t & rid & _ & _ & -> & Hr). apply token_new_u32. destruct Hs as [Hs _]. specialize (Hs t). unfold in_u. lia. }
  destruct q; try (by eapply Hu). destruct Ha as (off & Ho & ->). apply token_new_u32.
  apply (wf_heaps _ Hwf) in Ho. destruct Hs as (_ & _ & _ & Hs & _). unfold in_u. lia.
Qed.

Lemma query_law q (m : forall E, ST (MetadataBuilder * Assembly) E Z) :
  (forall E s, answers both (m E) s (fun tok s' => answer (fst s') q tok)) -> sink_law follows sound_tables token_row q m.
Proof.
  intros Hm E s s' o Hr. destruct (Hm E s _ _ Hr) as [[F X] HQ]. split_and!; [by apply extends_grows|done|].
  intros tok t Ho Hl Hs. apply answer_sound; [done|]. eapply answer_follows; [exact Hl|]. by apply HQ.
Qed.

(** The builder is a lawful token sink. *)
#[export] Program Instance builder_sink_laws mfuel sfuel :
    @TokenSinkLaws MetadataBuilder (builder_sink mfuel sfuel) := {|
  sink_resolver_laws := builder_resolver_laws;
  sound := sound_tables;
  token_of := token_row |}.
Next Obligation. intros. apply query_law. intros. apply answers_method_token. Qed.
Next Obligation. intros. apply query_law. intros. apply answers_field_token. Qed.
Next Obligation. intros. apply query_law. intros. apply answers_static_field_token. Qed.
Next Obligation. intros. apply query_law. intros. apply answers_tables, answers_calli. Qed.
Next Obligation. intros. apply query_law. intros. apply answers_locals. Qed.
Next Obligation. intros. apply query_law. intros. apply answers_type_token. Qed.
Next Obligation.
  intros. apply query_law. intros E [t a] s' o Hr. cbn in Hr. destruct (builder_user_string_token s t) as [t' r] eqn:Hk.
  injection Hr as <- <-. destruct (answers_user_string s t _ _ Hk) as [F HQ]. by split.
Qed.
