(* ===== verification/BodyTables.v ===== *)
(** * A token sink of one table

    The simplest token sink: every query gets the number of its row in one table.  It shows that the
    laws of [TokenSinkLaws] can be met, and is the sink of the examples. *)

From S2P Require Import Prelude Interner Types IR Heaps Signature SigTheory Cil Body BodySpec.
Local Open Scope Z_scope.

#[export] Instance TokenQuery_eq_dec : EqDecision TokenQuery.
Proof. solve_decision. Defined.

Definition rows : Type := list TokenQuery.

(** The row of a query, a new one if it has none. *)
Definition row_of (q : TokenQuery) (r : rows) : rows * Z :=
  match list_find (fun d => q = d) r with
  | Some (i, _) => (r, Z.of_nat i)
  | None => (r ++ [q], Z.of_nat (length r))
  end.

Definition row_token {E} (q : TokenQuery) : ST rows E Z := fun r =>
  let '(r', i) := row_of q r in (r', expect_u32 i).

Definition row_query {E} (q : TokenQuery) : ST (rows * Assembly) E Z := fun '(r, asm) =>
  let '(r', o) := row_token q r in ((r', asm), o).

#[export] Instance row_sink : TokenSink rows := {|
  method_token E m g := row_query (TokMethod m g);
  field_token E f := row_query (TokField f);
  static_field_token E f := row_query (TokStatic f);
  user_string_token E s := row_token (TokString s);
  calli_sig_token E key blob := row_query (TokCalli key blob);
  locals_sig_token E l := row_query (TokLocals l);
  type_token E t := row_query (TokType t);
  type_def_or_ref_token E c := row_query (TokType (Ty.ClassRef c)) |}.

Definition row_at (r : rows) (q : TokenQuery) (tok : Z) : Prop := r !! Z.to_nat tok = Some q.

Lemma row_of_spec q r r' i : row_of q r = (r', i) -> r `prefix_of` r' /\ 0 <= i /\ row_at r' q i.
Proof.
  unfold row_of, row_at. destruct (list_find _ r) as [[j d]|] eqn:Hf; intros [= <- <-]; rewrite Nat2Z.id.
  - apply list_find_Some in Hf as (Hj & -> & _). split_and!; [done|lia|done].
  - split_and!; [by apply prefix_app_r|lia|]. by apply list_lookup_middle.
Qed.

Lemma row_query_law q : sink_law prefix (fun _ => True) row_at q (fun E => row_query q).
Proof.
  intros E [r asm] s' o. unfold row_query, row_token. destruct (row_of q r) as [r' i] eqn:Hr.
  apply row_of_spec in Hr as (Hp & Hi & Hat). unfold expect_u32. intros [= <- <-]. cbn.
  split_and!; [reflexivity|done|]. intros tok t.
  destruct (Z.ltb_spec i (2 ^ 32)); intros [= <-] Hl _. split; [done|].
  by eapply prefix_lookup_Some.
Qed.

#[export] Program Instance row_sink_resolver_laws : ResolverLaws rows := {|
  later := prefix;
  resolves r c code := row_at r (TokType (Ty.ClassRef c)) code |}.
Next Obligation.
  intros E c r a r' a' o Hr. cbn in Hr. destruct (row_query_law (TokType (Ty.ClassRef c)) E (r, a) _ _ Hr) as (_ & Hl & _).
  split; [|done]. unfold row_query in Hr. destruct (row_token _ r) as [? ?]. by injection Hr as _ <- _.
Qed.
Next Obligation.
  intros E c r a r' a' code r'' Hr Hl. cbn in Hr.
  destruct (row_query_law (TokType (Ty.ClassRef c)) E (r, a) _ _ Hr) as (_ & _ & Hok).
  by destruct (Hok code r'' eq_refl Hl I) as [[? _] ?].
Qed.
Next Obligation.
  intros E c r a. cbn. unfold row_query, row_token. destruct (row_of _ r) as [r' i]. cbn. unfold expect_u32.
  by destruct (i <? 2 ^ 32).
Qed.

#[export] Program Instance row_sink_laws : TokenSinkLaws rows := {| sound _ := True; token_of := row_at |}.
Next Obligation. intros. apply row_query_law. Qed.
Next Obligation. intros. apply row_query_law. Qed.
Next Obligation. intros. apply row_query_law. Qed.
Next Obligation. intros. apply row_query_law. Qed.
Next Obligation. intros. apply row_query_law. Qed.
Next Obligation. intros. apply row_query_law. Qed.
Next Obligation. intros. apply row_query_law. Qed.
