(* ===== verification/BodyTheory.v ===== *)
(** * The body writer writes what bodies encode

    Emission against the relations of [BodySpec]: every operation of the emitter appends the bytes of
    labelled code, records its labels and operands at their positions, and leaves everything else. *)

From S2P Require Import Prelude Interner Types Class IR Arenas Walk Assign Block Method Opt Layout Heaps.
From S2P Require Import Signature SigTheory Cil OptSem CilSem Body BodySpec.

(** ** Writing bytes *)

Section writes.
Context {T : Type} `{TokenSinkLaws T} {hash_order : HashMapOrder} {E : Type}.
(** What the writer ends with. *)
Context (fin : Assembly) (t : T).

Local Notation M := (ST (Emitter T) E).

(** The assembly and the tables only grow. *)
Definition ext (s s' : Emitter T) : Prop :=
  grows (em_asm s) (em_asm s') /\ later (em_tokens s) (em_tokens s').

Definition until (s : Emitter T) : Prop := grows (em_asm s) fin /\ later (em_tokens s) t /\ sound t.

#[export] Instance ext_preorder : PreOrder ext.
Proof.
  split; [intros s; split; reflexivity|]. intros a b c [? ?] [? ?]. split; by etrans.
Qed.

Lemma until_ext s s' : ext s s' -> until s' -> until s.
Proof. intros [? ?] (? & ? & ?). split_and!; [by etrans..|done]. Qed.

(** Bytes were appended and nothing else happened to the code. *)
Record wrote (s : Emitter T) (bs : list Z) (s' : Emitter T) : Prop := {
  w_out : em_out s' = em_out s ++ bs;
  w_labels : label_offsets s' = label_offsets s;
  w_fixups : branch_fixups s' = branch_fixups s;
  w_clauses : clauses s' = clauses s;
  w_markers : marker_counter s' = marker_counter s;
  w_regions : terminate_region_counter s' = terminate_region_counter s }.

Lemma wrote_refl s : wrote s [] s.
Proof. split; rewrite ?app_nil_r; done. Qed.

Lemma wrote_trans s s1 s' bs1 bs2 : wrote s bs1 s1 -> wrote s1 bs2 s' -> wrote s (bs1 ++ bs2) s'.
Proof. intros [] []. split; try congruence. rewrite app_assoc. congruence. Qed.

Definition writes {A} (m : M A) (P : A -> list Z -> Prop) : Prop :=
  forall s s' o, m s = (s', o) ->
    ext s s' /\ forall a, o = Ok a -> until s' -> exists bs, wrote s bs s' /\ P a bs.

Lemma writes_ret {A} (a : A) (P : A -> list Z -> Prop) : P a [] -> writes (mret a) P.
Proof.
  intros HP s s' o [= <- <-]. split; [reflexivity|]. intros ? [= <-] _. exists []. by split; [apply wrote_refl|].
Qed.

Lemma writes_panic {A} (P : A -> list Z -> Prop) : writes panic P.
Proof. intros s s' o [= <- <-]. split; [reflexivity|]. intros ? [=]. Qed.

Lemma writes_weaken {A} (m : M A) (P Q : A -> list Z -> Prop) :
  writes m P -> (forall a bs, P a bs -> Q a bs) -> writes m Q.
Proof.
  intros Hm HPQ s s' o Hr. destruct (Hm _ _ _ Hr) as [? Hok]. split; [done|]. intros a Ho Hu.
  destruct (Hok a Ho Hu) as (bs & ? & ?). eauto.
Qed.

(** The bytes of a sequence, with what the first step established at hand in the end. *)
Lemma writes_bind {A B} (m : M A) (f : A -> M B) P R :
  writes m P -> (forall a, writes (f a) (fun b bs2 => forall bs1, P a bs1 -> R b (bs1 ++ bs2))) ->
  writes (m ≫= f) R.
Proof.
  intros Hm Hf s s' o Hr. unfold mbind, ST_bind in Hr. destruct (m s) as [s1 o1] eqn:H1.
  destruct (Hm _ _ _ H1) as [X1 Hok1]. destruct o1 as [a| | |].
  - destruct (Hf a _ _ _ Hr) as [X2 Hok2]. split; [by etrans|]. intros b Hb Hu.
    destruct (Hok2 b Hb Hu) as (bs2 & W2 & HP2). destruct (Hok1 a eq_refl (until_ext _ _ X2 Hu)) as (bs1 & W1 & HP1).
    exists (bs1 ++ bs2). split; [by eapply wrote_trans|by apply HP2].
  - injection Hr as <- <-. by split.
  - injection Hr as <- <-. by split.
  - injection Hr as <- <-. by split.
Qed.

(** *** Steps *)

Lemma push_writes bs : writes (push bs) (fun _ l => l = bs).
Proof.
  intros s s' o [= <- <-]. split; [split; reflexivity|]. intros ? _ _. exists bs. split; [|done]. by split.
Qed.

Lemma reads_writes {A} (f : Emitter T -> outcome E A) (P : A -> Prop) :
  (forall s a, f s = Ok a -> until s -> P a) -> writes (reads f) (fun a l => l = [] /\ P a).
Proof.
  intros Hf s s' o [= <- <-]. split; [reflexivity|]. intros a Ha Hu. exists [].
  split; [apply wrote_refl|]. split; [done|]. by eapply Hf.
Qed.

(** A value read from an arena is there in the end. *)
Lemma arena_writes {k V} (arena : Assembly -> list V) (id : Interned k) :
  (forall a b, grows a b -> arena a `prefix_of` arena b) ->
  writes (reads (fun s => arena_get (arena (em_asm s)) id))
    (fun v l => l = [] /\ arena fin !! slot id = Some v).
Proof.
  intros Hg. apply (reads_writes (fun s => arena_get (arena (em_asm s)) id)
    (fun v => arena fin !! slot id = Some v)).
  intros s a Ha%arena_get_ok [Hu _]. by eapply prefix_lookup_Some; [|by apply Hg].
Qed.

Lemma on_asm_writes {A} (m : ST Assembly E A) (P : A -> Prop) :
  (forall a, grows a (fst (m a))) ->
  (forall a a' x, m a = (a', Ok x) -> grows a' fin -> P x) ->
  writes (on_asm m) (fun x l => l = [] /\ P x).
Proof.
  intros Hm HP s s' o Hr. unfold on_asm in Hr. cbn in Hr. pose proof (Hm (em_asm s)) as K.
  destruct (m (em_asm s)) as [a' r] eqn:Hrun. injection Hr as <- <-. cbn in K.
  split; [split; [done|reflexivity]|]. intros x -> [Hu _]. exists []. split; [by split; rewrite ?app_nil_r|].
  split; [done|]. by eapply HP.
Qed.

Lemma sink_writes q (m : forall E, ST (T * Assembly) E Z) :
  sink_law later sound token_of q m ->
  writes (on_sink (m E)) (fun tok l => l = [] /\ in_u 32 tok /\ token_of t q tok).
Proof.
  intros Hm s s' o Hr. unfold on_sink in Hr.
  destruct (m E (em_tokens s, em_asm s)) as [[t' a'] r] eqn:Hrun. injection Hr as <- <-.
  destruct (Hm _ _ _ _ Hrun) as (? & ? & Htok). split; [by split|]. intros tok Ho (_ & Hl & Hsound). cbn in *.
  exists []. split; [by split; rewrite ?app_nil_r|]. split; [done|]. by apply Htok.
Qed.

(** *** Interning *)

(** A computation of the assembly that only adds to it. *)
Definition interns {E' A} (m : ST Assembly E' A) (P : A -> Prop) : Prop :=
  forall a a' o, m a = (a', o) -> grows a a' /\ forall x, o = Ok x -> grows a' fin -> P x.

Lemma interns_ret {E' A} (x : A) (P : A -> Prop) : P x -> interns (mret x : ST Assembly E' A) P.
Proof. intros HP a a' o [= <- <-]. split; [reflexivity|]. by intros ? [= <-] _. Qed.

Lemma interns_lift {E' A} (o : outcome E' A) : interns (lift o) (fun x => o = Ok x).
Proof. intros a a' o' [= <- <-]. split; [reflexivity|]. by intros x -> _. Qed.

Lemma interns_panic {E' A} (P : A -> Prop) : interns (panic : ST Assembly E' A) P.
Proof. intros a a' o' [= <- <-]. split; [reflexivity|]. by intros x [=]. Qed.

Lemma interns_ask {E'} : interns (ask : ST Assembly E' Assembly) (fun _ => True).
Proof. intros a a' o' [= <- <-]. by split; [reflexivity|]. Qed.

Lemma interns_reads {E' A} (f : Assembly -> outcome E' A) : interns (reads f) (fun _ => True).
Proof. intros a a' o' [= <- <-]. by split; [reflexivity|]. Qed.

Lemma interns_bind {E' A B} (m : ST Assembly E' A) (f : A -> ST Assembly E' B) P R :
  interns m P -> (forall x, interns (f x) (fun y => P x -> R y)) -> interns (m ≫= f) R.
Proof.
  intros Hm Hf a a' o Hr. unfold mbind, ST_bind in Hr. destruct (m a) as [a1 o1] eqn:H1.
  destruct (Hm _ _ _ H1) as [X1 Hok1]. destruct o1 as [x| | |].
  - destruct (Hf x _ _ _ Hr) as [X2 Hok2]. split; [by etrans|]. intros y Hy Hu.
    apply (Hok2 y Hy Hu). apply Hok1; [done|]. by etrans.
  - injection Hr as <- <-. by split.
  - injection Hr as <- <-. by split.
  - injection Hr as <- <-. by split.
Qed.

Lemma interns_weaken {E' A} (m : ST Assembly E' A) (P Q : A -> Prop) :
  interns m P -> (forall x, P x -> Q x) -> interns m Q.
Proof. intros Hm HPQ a a' o Hr. destruct (Hm _ _ _ Hr) as [? Hok]. eauto 6. Qed.

Lemma interns_alloc {E'} {k : kind} {V} `{!EqDecision V} (arena : Assembly -> list V)
    (set : Assembly -> list V -> Assembly) (v : V) :
  (forall a vs, arena a `prefix_of` vs -> grows a (set a vs)) -> (forall a vs, arena (set a vs) = vs) ->
  (forall a b, grows a b -> arena a `prefix_of` arena b) ->
  interns (intern_in (E := E') (k := k) arena set v) (fun id => arena fin !! slot id = Some v).
Proof.
  intros Hset Hget Hmono a a' o. unfold intern_in.
  destruct (arena_intern (arena a) v) as [[vs [id b]]| | |] eqn:Hi; intros [= <- <-];
    try (split; [reflexivity|]; by intros ? [=]).
  apply arena_intern_spec in Hi as (Hp & Hid & _). split; [by apply Hset|]. intros ? [= <-] Hu.
  apply Hmono in Hu. rewrite Hget in Hu. by eapply prefix_lookup_Some.
Qed.

Lemma interns_string {E'} v : interns (alloc_string (E := E') v) (fun id => strings fin !! slot id = Some v).
Proof. by apply interns_alloc; [intros a vs ?; split|..|intros ? ? []]. Qed.
Lemma interns_class {E'} v : interns (alloc_class_ref (E := E') v) (fun id => class_refs fin !! slot id = Some v).
Proof. by apply interns_alloc; [intros a vs ?; split|..|intros ? ? []]. Qed.
Lemma interns_sig {E'} v : interns (alloc_sig (E := E') v) (fun id => sigs fin !! slot id = Some v).
Proof. by apply interns_alloc; [intros a vs ?; split|..|intros ? ? []]. Qed.
Lemma interns_methodref {E'} v : interns (alloc_methodref (E := E') v) (fun id => method_refs fin !! slot id = Some v).
Proof. by apply interns_alloc; [intros a vs ?; split|..|intros ? ? []]. Qed.
Lemma interns_sfld {E'} v : interns (alloc_sfld (E := E') v) (fun id => statics fin !! slot id = Some v).
Proof. by apply interns_alloc; [intros a vs ?; split|..|intros ? ? []]. Qed.

Lemma interned_writes {A} (m : ST Assembly E A) (P : A -> Prop) :
  interns m P -> writes (on_asm m) (fun x l => l = [] /\ P x).
Proof.
  intros Hm. apply on_asm_writes.
  - intros a. destruct (m a) as [a' o] eqn:Hr. by destruct (Hm _ _ _ Hr).
  - intros a a' x Hr. destruct (Hm _ _ _ Hr) as [_ Hok]. by apply Hok.
Qed.

Lemma interns_bcl n vt : interns (E' := E)
  (asm_name ← alloc_string "System.Runtime"; type_name ← alloc_string n;
   alloc_class_ref {| cr_name := type_name; cr_asm := Some asm_name; cr_is_valuetype := vt;
                      cr_generics := [] |}) (fun c => bcl_named fin c n vt).
Proof.
  eapply interns_bind; [apply interns_string|]. intros a. eapply interns_bind; [apply interns_string|].
  intros n'. eapply interns_weaken; [apply interns_class|]. intros c Hc Hn Ha. cbn beta in *.
  eexists _, a. by split_and!.
Qed.

Lemma interns_new_methodref c n sig kind g : interns (E' := E) (new_methodref c n sig kind g)
  (fun m => exists mr, method_refs fin !! slot m = Some mr /\ mr_class mr = c /\
     strings fin !! slot (mr_name mr) = Some n /\ mr_sig mr = sig /\ mr_kind mr = kind /\
     mr_generics mr = g).
Proof.
  eapply interns_bind; [apply interns_string|]. intros n'. eapply interns_weaken; [apply interns_methodref|].
  intros m Hm Hn. cbn beta in *. eexists. by split_and!.
Qed.

Lemma interns_class_def mfuel def : interns (class_def mfuel def)
  (fun c => exists cr, class_refs fin !! slot c = Some cr /\ cr_name cr = cd_name def).
Proof.
  eapply interns_bind; [apply interns_reads|]. intros u.
  eapply interns_bind; [apply interns_lift|]. intros cr. eapply interns_bind; [apply interns_class|].
  intros c. intros a a' o. unfold mbind, ST_bind, ask. intros Hr.
  assert (Hfin : class_refs fin !! slot c = Some cr -> class_ref_to (E := LayoutError) def = Ok cr ->
    exists cr, class_refs fin !! slot c = Some cr /\ cr_name cr = cd_name def).
  { intros Hc Hcr. exists cr. split; [done|]. unfold class_ref_to in Hcr.
    apply bind_ok in Hcr as (_ & _ & [= <-]). done. }
  destruct (class_defs a !! c) eqn:Hd.
  - unfold reads in Hr. destruct (get_string a (cd_name def)) as [n| | |];
      [|injection Hr as <- <-; split; [reflexivity|by intros ? [=]]..].
    destruct (_ || _); injection Hr as <- <-; (split; [reflexivity|]); [|by intros ? [=]].
    intros ? [= <-] _ Hc Hcr _. by apply Hfin.
  - injection Hr as <- <-. split; [|intros ? [= <-] _ Hc Hcr _; by apply Hfin].
    split; try done. by apply insert_subseteq.
Qed.

Lemma interns_main_module mfuel : interns (E' := E) (main_module mfuel)
  (fun c => exists cr, class_refs fin !! slot c = Some cr /\ strings fin !! slot (cr_name cr) = Some MAIN_MODULE).
Proof.
  eapply interns_bind; [apply interns_string|]. intros n.
  eapply interns_bind; [apply interns_lift|]. intros cr. eapply interns_bind; [apply interns_class|].
  intros c. eapply interns_bind; [apply interns_ask|]. intros a.
  destruct (class_defs a !! c) eqn:Hd.
  - apply interns_ret. intros _ Hc [= <-] Hn. by eexists.
  - intros b b' o. unfold unwrap_result. destruct (class_def mfuel _ b) as [b1 o1] eqn:Hr.
    destruct (interns_class_def _ _ _ _ _ Hr) as [Hg Hok].
    destruct o1 as [c'| | |]; intros [= <- <-]; (split; [done|]); intros x [=]. subst.
    intros Hu _ _ _ Hn. destruct (Hok x eq_refl Hu) as (cr' & ? & Hnm). exists cr'.
    split; [done|]. by rewrite Hnm.
Qed.

(** *** Constants and indices *)

(** The bytes are instructions that satisfy the specification. *)
Definition code (P : list Instr -> Prop) (bs : list Z) : Prop :=
  exists l, Forall instr_ok l /\ bs = encode_all l /\ P l.

Lemma code_weaken (P Q : list Instr -> Prop) bs : code P bs -> (forall l, P l -> Q l) -> code Q bs.
Proof. intros (l & ? & ? & ?) HPQ. exists l. auto. Qed.

Lemma op_ok o : shape_of o = Some ShNone -> instr_ok (op o).
Proof. intros. by exists ShNone. Qed.

Lemma push_ext_writes sub : writes (push_ext sub) (fun _ l => l = [0xFE; sub]).
Proof.
  unfold push_ext. eapply writes_bind; [apply push_writes|]. intros u.
  eapply writes_weaken; [apply push_writes|]. by intros ? ? -> ? ->.
Qed.

(** An instruction in the bytes of its opcode and operand. *)
Lemma code_one (P : list Instr -> Prop) o x bs :
  instr_ok (mk_Instr o x) -> bs = opcode_bytes o ++ operand_bytes x -> P [mk_Instr o x] -> code P bs.
Proof.
  intros Hok -> HP. exists [mk_Instr o x]. split_and!; [by constructor| |done].
  unfold encode_all, encode. cbn [map concat opcode operand]. by rewrite app_nil_r.
Qed.

Lemma code_app (P Q R : list Instr -> Prop) bs bs' :
  code P bs -> code Q bs' -> (forall l l', P l -> Q l' -> R (l ++ l')) -> code R (bs ++ bs').
Proof.
  intros (l & ? & -> & ?) (l' & ? & -> & ?) HR. exists (l ++ l'). split_and!; [by apply Forall_app|by rewrite encode_all_app|auto].
Qed.

Lemma code_op (P : list Instr -> Prop) o : shape_of o = Some ShNone -> o < 256 -> P [op o] -> code P [o].
Proof.
  intros Hs Ho HP. eapply (code_one P o NoOperand); [by apply op_ok| |done]. unfold opcode_bytes.
  by destruct (Z.ltb_spec o 256); [|lia].
Qed.

Lemma push_op_writes o (P : list Instr -> Prop) :
  shape_of o = Some ShNone -> o < 256 -> P [op o] -> writes (push_u8 o) (fun _ => code P).
Proof.
  intros. eapply writes_weaken; [apply push_writes|]. intros ? ? ->. by apply code_op.
Qed.

Lemma push_ext_op_writes b (P : list Instr -> Prop) :
  shape_of (0xFE00 + b) = Some ShNone -> 0 <= b -> P [op (0xFE00 + b)] ->
  writes (push_ext b) (fun _ => code P).
Proof.
  intros Hs Hb HP. eapply writes_weaken; [apply push_ext_writes|]. intros ? ? ->.
  eapply (code_one P (0xFE00 + b) NoOperand); [by apply op_ok| |done]. unfold opcode_bytes.
  destruct (Z.ltb_spec (0xFE00 + b) 256); [lia|].
  cbn. do 2 f_equal. lia.
Qed.

Lemma wide_index_bytes n : in_u 16 n -> le_bytes 4 n = le_bytes 2 n ++ [0; 0].
Proof.
  intros [? Hn]. change (2 ^ 16) with 65536 in Hn. cbn [le_bytes app].
  rewrite (Z.div_div n 256 256) by lia. change (256 * 256) with 65536.
  by rewrite (Z.div_small n 65536) by lia.
Qed.

Lemma wide_code n wide compact short bs :
  in_u 16 n -> shape_of (0xFE00 + wide) = Some ShU16 -> 0 <= wide ->
  bs = [0xFE; wide] ++ le_bytes 4 n -> code (indexed compact short wide n) bs.
Proof.
  intros Hn Hs Hw ->. exists [mk_Instr (0xFE00 + wide) (U16 n); op 0; op 0]. split_and!.
  - constructor; [by exists ShU16|]. by repeat constructor; apply op_ok.
  - rewrite wide_index_bytes by done. unfold encode_all, encode, opcode_bytes. cbn [map concat opcode operand operand_bytes].
    destruct (Z.ltb_spec (0xFE00 + wide) 256); [lia|]. replace (0xFE00 + wide - 0xFE00) with wide by lia. done.
  - eexists. split; [|by right]. unfold index_of. cbn [operand opcode]. by rewrite Z.eqb_refl.
Qed.

Lemma short_code n short compact wide bs :
  in_u 8 n -> shape_of short = Some ShU8 -> short < 256 -> bs = [short; wrap 8 n] ->
  code (indexed compact short wide n) bs.
Proof.
  intros Hn Hs Hb ->. eapply (code_one _ short (U8 n)); [by exists ShU8| |].
  - unfold opcode_bytes. by destruct (Z.ltb_spec short 256); [|lia].
  - eexists. split; [|by left]. unfold index_of. cbn [operand opcode]. by rewrite Z.eqb_refl.
Qed.

Lemma emit_short_index_writes n short wide compact :
  in_u 16 n -> shape_of short = Some ShU8 -> short < 256 -> shape_of (0xFE00 + wide) = Some ShU16 -> 0 <= wide ->
  writes (emit_short_index n short wide) (fun _ => code (indexed compact short wide n)).
Proof.
  intros Hn ????. unfold emit_short_index. destruct (Z.leb_spec n 255).
  - eapply writes_bind; [apply push_writes|]. intros u. eapply writes_weaken; [apply push_writes|].
    intros ? ? -> ? ->. apply short_code; try done. unfold in_u in *. change (2 ^ 8) with 256. lia.
  - eapply writes_bind; [apply push_ext_writes|]. intros u. eapply writes_weaken; [apply push_writes|].
    intros ? ? -> ? ->. by apply wide_code.
Qed.

Lemma emit_compact_index_writes n compact short wide :
  in_u 16 n -> (forall k, 0 <= k <= 3 -> shape_of (compact + k) = Some ShNone) -> compact < 250 ->
  shape_of short = Some ShU8 -> short < 256 -> shape_of (0xFE00 + wide) = Some ShU16 -> 0 <= wide ->
  writes (emit_compact_index n compact short wide) (fun _ => code (indexed (Some compact) short wide n)).
Proof.
  intros Hn Hc ?????. unfold emit_compact_index. destruct (Z.leb_spec n 3).
  - unfold in_u in Hn. apply push_op_writes; [apply Hc; lia|lia|]. eexists. split; [|by left].
    unfold index_of. cbn [operand opcode op mbind option_bind]. rewrite (proj2 (between_iff _ _ _)) by lia.
    f_equal. lia.
  - by apply (emit_short_index_writes n short wide (Some compact)).
Qed.

(** A range with its bound computed. *)
Ltac in_range :=
  unfold in_u, in_s in *;
  repeat match goal with
  | |- context [2 ^ ?n] => let x := eval vm_compute in (2 ^ n) in change (2 ^ n) with x
  | H : context [2 ^ ?n] |- _ => let x := eval vm_compute in (2 ^ n) in change (2 ^ n) with x in H
  end; lia.

(** One instruction that loads the constant. *)
Definition loads (s : cell) (l : list Instr) : Prop := exists i, l = [i] /\ ldc i = Some s.

Lemma ldc_small v : between 0 8 v = true -> code (loads (S32 (wrap 32 v))) [0x16 + v].
Proof.
  rewrite between_iff. intros Hv. assert (v = 0 \/ v = 1 \/ v = 2 \/ v = 3 \/ v = 4 \/ v = 5 \/ v = 6 \/ v = 7 \/ v = 8) as K by lia.
  repeat destruct K as [->|K]; [..|subst v]; (apply code_op; [done..|]; by eexists).
Qed.

Lemma ldc_s v : in_s 8 v -> code (loads (S32 (wrap 32 v))) [0x1F; wrap 8 v].
Proof. intros. eapply (code_one _ 0x1F (I8 v)); [by exists ShI8|done|]. by eexists. Qed.

Lemma ldc_i4 v : code (loads (S32 (wrap 32 v))) (0x20 :: le_bytes 4 v).
Proof.
  eapply (code_one _ 0x20 (I32 (swrap 32 v))); [exists ShI32; split; [done|by apply swrap_in_s]| |].
  - cbn [operand_bytes]. change (opcode_bytes 32) with [32]. cbn [app]. f_equal.
    rewrite <- (le_bytes_wrap 4 v), <- (le_bytes_wrap 4 (swrap 32 v)). change (8 * Z.of_nat 4) with 32.
    by rewrite wrap_swrap.
  - eexists. split; [done|]. unfold ldc. cbn. by rewrite wrap_swrap.
Qed.

Lemma ldc_i8 v : code (loads (S64 (wrap 64 v))) (0x21 :: le_bytes 8 v).
Proof.
  eapply (code_one _ 0x21 (I64 (swrap 64 v))); [exists ShI64; split; [done|by apply swrap_in_s]| |].
  - cbn [operand_bytes]. change (opcode_bytes 33) with [33]. cbn [app]. f_equal.
    rewrite <- (le_bytes_wrap 8 v), <- (le_bytes_wrap 8 (swrap 64 v)). change (8 * Z.of_nat 8) with 64.
    by rewrite wrap_swrap.
  - eexists. split; [done|]. unfold ldc. cbn [operand opcode]. change (33 =? 33) with true.
    cbn match. by rewrite wrap_swrap.
Qed.

Ltac pushes := repeat (eapply writes_bind; [first [apply push_writes | apply push_ext_writes]|intros ?]);
  eapply writes_weaken; [first [apply push_writes | apply push_ext_writes]|]; cbn beta; intros; subst.

Lemma emit_ldc_i4_signed_writes v :
  writes (emit_ldc_i4_signed v) (fun _ => code (loads (S32 (wrap 32 v)))).
Proof.
  unfold emit_ldc_i4_signed. destruct (Z.eqb_spec v (-1)) as [->|].
  { apply push_op_writes; [done..|]. by eexists. }
  destruct (between 0 8 v) eqn:?; [pushes; by apply ldc_small|].
  destruct (between 9 127 v) eqn:Hb; pushes; [|apply ldc_i4].
  apply between_iff in Hb. apply ldc_s. in_range.
Qed.

Lemma emit_ldc_i4_i8_band_writes v : in_s 8 v ->
  writes (emit_ldc_i4_i8_band v) (fun _ => code (loads (S32 (wrap 32 v)))).
Proof.
  intros. unfold emit_ldc_i4_i8_band. destruct (Z.eqb_spec v (-1)) as [->|].
  { apply push_op_writes; [done..|]. by eexists. }
  destruct (between 0 8 v) eqn:?; pushes; [by apply ldc_small|by apply ldc_s].
Qed.

Lemma emit_ldc_i4_unsigned_writes v :
  writes (emit_ldc_i4_unsigned v) (fun _ => code (loads (S32 (wrap 32 v)))).
Proof.
  unfold emit_ldc_i4_unsigned. destruct (between 0 8 v) eqn:?; [apply emit_ldc_i4_signed_writes|].
  destruct (between 9 127 v) eqn:Hb; pushes; [|apply ldc_i4].
  apply between_iff in Hb. apply ldc_s. in_range.
Qed.

Lemma loads_conv s s' cv bs :
  code (loads s) bs -> conv cv s = Some s' -> shape_of cv = Some ShNone -> cv < 256 ->
  code (fun l => load l = Some s') (bs ++ [cv]).
Proof.
  intros Hb Hc Hs Hcv. eapply (code_app _ (fun l => l = [op cv])); [exact Hb|by apply code_op|].
  intros l l' (i & -> & Hi) ->. cbn. by rewrite Hi.
Qed.

Lemma loads_load s bs : code (loads s) bs -> code (fun l => load l = Some s) bs.
Proof. intros Hb. eapply code_weaken; [exact Hb|]. by intros l (i & -> & ?). Qed.

(** Widening a 32-bit constant, by sign or by zeros. *)
Lemma conv_signed v cv mk : (cv, mk) = (0x6A, S64) \/ (cv, mk) = (0xD3, SNative) ->
  (in_s 32 v -> conv cv (S32 (wrap 32 v)) = Some (mk (wrap 64 v))) /\
  (in_s 64 v -> conv cv (S64 (wrap 64 v)) = Some (mk (wrap 64 v))).
Proof.
  intros [[= -> ->]|[= -> ->]]; (split; intros Hv; unfold conv; cbn -[wrap swrap];
    rewrite swrap_wrap, swrap_id by (done || lia); done).
Qed.

Lemma conv_unsigned v cv mk : (cv, mk) = (0x6E, S64) \/ (cv, mk) = (0xE0, SNative) ->
  in_u 32 v -> conv cv (S32 (wrap 32 v)) = Some (mk (wrap 64 v)).
Proof. intros [[= -> ->]|[= -> ->]] Hv; unfold conv; cbn -[wrap swrap]; by rewrite (wrap_id 32). Qed.

Lemma emit_ldc_i8_via_i4_with_conv_writes v cv mk :
  (cv, mk) = (0x6A, S64) \/ (cv, mk) = (0xD3, SNative) -> in_s 64 v ->
  writes (emit_ldc_i8_via_i4_with_conv v cv) (fun _ => code (fun l => load l = Some (mk (wrap 64 v)))).
Proof.
  intros Hcv Hv. unfold emit_ldc_i8_via_i4_with_conv. destruct (conv_signed v cv mk Hcv) as [C1 C2].
  assert (shape_of cv = Some ShNone /\ cv < 256) as [? ?] by (by destruct Hcv as [[= -> _]|[= -> _]]).
  destruct (between (- 2 ^ 31) (2 ^ 31 - 1) v) eqn:Hb.
  - apply between_iff in Hb. eapply writes_bind; [apply emit_ldc_i4_signed_writes|]. intros u. pushes.
    eapply loads_conv; [done| |done..]. apply C1. in_range.
  - eapply (writes_bind _ _ (fun _ => code (loads (S64 (wrap 64 v))))); [pushes; apply ldc_i8|]. intros u. pushes. eapply loads_conv; [done| |done..]. by apply C2.
Qed.

Lemma emit_ldc_u64_writes v : in_u 64 v ->
  writes (emit_ldc_u64 v) (fun _ => code (fun l => load l = Some (S64 (wrap 64 v)))).
Proof.
  intros Hv. unfold emit_ldc_u64. pose proof (conv_unsigned v 0x6E S64 (or_introl eq_refl)) as C.
  destruct (between 0 8 v) eqn:H1.
  { apply between_iff in H1. eapply writes_bind; [apply emit_ldc_i4_signed_writes|]. intros u. pushes.
    eapply loads_conv; [done| |done..]. apply C. in_range. }
  destruct (between 9 127 v) eqn:H2.
  { apply between_iff in H2. pushes. apply (loads_conv (S32 (wrap 32 v)) _ _ [0x1F; wrap 8 v]); [|apply C; in_range|done..].
    apply ldc_s. in_range. }
  destruct (between 128 4294967295 v) eqn:H3.
  { apply between_iff in H3. pushes. apply (loads_conv (S32 (wrap 32 v)) _ _ (0x20 :: le_bytes 4 v)); [apply ldc_i4|apply C; in_range|done..]. }
  pushes. apply loads_load, ldc_i8.
Qed.

Lemma emit_ldc_usize_writes v : in_u 64 v ->
  writes (emit_ldc_usize v) (fun _ => code (fun l => load l = Some (SNative (wrap 64 v)))).
Proof.
  intros Hv. unfold emit_ldc_usize. pose proof (conv_unsigned v 0xE0 SNative (or_intror eq_refl)) as C.
  destruct (between 0 8 v) eqn:H1.
  { apply between_iff in H1. eapply writes_bind; [apply emit_ldc_i4_signed_writes|]. intros u. pushes.
    eapply loads_conv; [done| |done..]. apply C. in_range. }
  destruct (between 9 127 v) eqn:H2.
  { apply between_iff in H2. pushes. apply (loads_conv (S32 (wrap 32 v)) _ _ [0x1F; wrap 8 v]); [|apply C; in_range|done..].
    apply ldc_s. in_range. }
  destruct (between 128 2147483647 v) eqn:H3.
  { apply between_iff in H3. pushes. apply (loads_conv (S32 (wrap 32 v)) _ _ (0x20 :: le_bytes 4 v)); [apply ldc_i4|apply C; in_range|done..]. }
  pushes. apply (loads_conv (S64 (wrap 64 v)) _ _ (0x21 :: le_bytes 8 v)); [apply ldc_i8| |done..].
  unfold conv. cbn -[wrap swrap]. by rewrite !(wrap_id 64 v).
Qed.

(** *** Tokens *)

(** A token is looked up, then written behind its opcode. *)
Lemma token_op_writes (m : M Z) (Q : Z -> Prop) o (P : list Instr -> Prop) :
  writes m (fun tok l => l = [] /\ in_u 32 tok /\ Q tok) -> shape_of o = Some ShTok -> o < 256 ->
  (forall tok, in_u 32 tok -> Q tok -> P [mk_Instr o (Tok tok)]) ->
  writes (tok ← m; _ ← push_u8 o; push_token tok) (fun _ => code P).
Proof.
  intros Hm Hs Ho HP. eapply writes_bind; [exact Hm|]. intros tok. pushes.
  match goal with K : _ /\ _ |- _ => destruct K as (-> & ? & ?) end.
  eapply (code_one P o (Tok tok)); [by exists ShTok| |auto]. unfold opcode_bytes.
  by destruct (Z.ltb_spec o 256); [|lia].
Qed.

Lemma token_ext_writes (m : M Z) (Q : Z -> Prop) b (P : list Instr -> Prop) :
  writes m (fun tok l => l = [] /\ in_u 32 tok /\ Q tok) -> shape_of (0xFE00 + b) = Some ShTok -> 0 <= b ->
  (forall tok, in_u 32 tok -> Q tok -> P [mk_Instr (0xFE00 + b) (Tok tok)]) ->
  writes (tok ← m; _ ← push_ext b; push_token tok) (fun _ => code P).
Proof.
  intros Hm Hs Ho HP. eapply writes_bind; [exact Hm|]. intros tok. pushes.
  match goal with K : _ /\ _ |- _ => destruct K as (-> & ? & ?) end.
  eapply (code_one P (0xFE00 + b) (Tok tok)); [by exists ShTok| |auto]. unfold opcode_bytes.
  destruct (Z.ltb_spec (0xFE00 + b) 256); [lia|]. by replace (0xFE00 + b - 0xFE00) with b by lia.
Qed.

Lemma type_op_writes o tpe : shape_of o = Some ShTok -> o < 256 ->
  writes (emit_token_op o tpe) (fun _ => code (tok_code t o (TokType tpe))).
Proof.
  intros. eapply token_op_writes; [apply (sink_writes (TokType tpe) (fun E => type_token tpe)), type_token_law|done..|].
  intros tok ? ?. by exists tok.
Qed.

Lemma string_token_writes msg :
  writes (string_token msg) (fun tok l => l = [] /\ in_u 32 tok /\ token_of t (TokString msg) tok).
Proof.
  apply (sink_writes (TokString msg) (fun E '(t, a) => let '(t, r) := user_string_token msg t in ((t, a), r))),
    user_string_token_law.
Qed.

Lemma get_mref_writes m :
  writes (reads (fun s => get_mref (em_asm s) m)) (fun mr l => l = [] /\ method_refs fin !! slot m = Some mr).
Proof. apply (arena_writes method_refs m). by intros ? ? []. Qed.

Lemma get_type_writes i :
  writes (reads (fun s => get_type (em_asm s) i)) (fun ty l => l = [] /\ types fin !! slot i = Some ty).
Proof. apply (arena_writes types i). by intros ? ? []. Qed.

Lemma get_string_writes i :
  writes (reads (fun s => get_string (em_asm s) i)) (fun s l => l = [] /\ strings fin !! slot i = Some s).
Proof. apply (arena_writes strings i). by intros ? ? []. Qed.

Lemma method_token_writes m :
  writes (method_token_for_mref m) (fun tok l => l = [] /\ in_u 32 tok /\
    exists mr, method_refs fin !! slot m = Some mr /\ token_of t (TokMethod m (mr_generics mr)) tok).
Proof.
  eapply writes_bind; [apply get_mref_writes|]. intros mr.
  eapply writes_weaken; [apply (sink_writes (TokMethod m (mr_generics mr)) (fun E => method_token m (mr_generics mr))), method_token_law|].
  intros tok bs (-> & ? & ?) ? (-> & ?). split_and!; [done..|]. by exists mr.
Qed.

Lemma bcl_class_writes n vt :
  writes (bcl_class_ref n vt) (fun c l => l = [] /\ bcl_named fin c n vt).
Proof. apply interned_writes, interns_bcl. Qed.

(** The token of a method of the library. *)
Definition bcl_method_token (c : Interned KClassRef) n input out kind (tok : Z) : Prop :=
  exists m mr, method_refs fin !! slot m = Some mr /\ mr_class mr = c /\
    strings fin !! slot (mr_name mr) = Some n /\
    sigs fin !! slot (mr_sig mr) = Some (mk_FnSig input out) /\ mr_kind mr = kind /\
    mr_generics mr = [] /\ token_of t (TokMethod m []) tok.

Lemma bcl_method_writes c n input out kind :
  writes (bcl_method c n input out kind)
    (fun tok l => l = [] /\ in_u 32 tok /\ bcl_method_token c n input out kind tok).
Proof.
  eapply writes_bind.
  { apply interned_writes. eapply interns_bind; [apply interns_sig|]. intros sig.
    eapply interns_weaken; [apply interns_new_methodref|]. cbn beta.
    instantiate (1 := fun m => exists mr, method_refs fin !! slot m = Some mr /\ mr_class mr = c /\
      strings fin !! slot (mr_name mr) = Some n /\
      sigs fin !! slot (mr_sig mr) = Some (mk_FnSig input out) /\ mr_kind mr = kind /\ mr_generics mr = []).
    intros m (mr & ? & ? & ? & Hsig & ? & ?) Hs. exists mr. rewrite Hsig. by split_and!. }
  intros m. eapply writes_weaken; [apply method_token_writes|].
  intros tok bs (-> & ? & mr & Hm & ?) ? (-> & mr' & Hm' & ? & ? & ? & ? & Hg).
  rewrite Hm in Hm'. injection Hm' as ->. split_and!; [done..|]. exists m, mr'. rewrite Hg in *. by split_and!.
Qed.

Lemma bcl_call_code o c n input out kind tok :
  in_u 32 tok -> bcl_method_token c n input out kind tok ->
  bcl_call fin t o c n input out kind [mk_Instr o (Tok tok)].
Proof. intros ? (m & mr & ? & ? & ? & ? & ? & ? & ?). exists m, mr. split_and!; [done..|]. by exists tok. Qed.

Lemma op_implicit_writes c from :
  writes (emit_int128_op_implicit c from) (fun _ => code
    (bcl_call fin t 0x28 c "op_Implicit" [from] (Ty.ClassRef c) MethodKind.Static)).
Proof. eapply token_op_writes; [apply bcl_method_writes|done..|]. intros. by apply bcl_call_code. Qed.

Lemma int128_ctor_writes c :
  writes (emit_int128_ctor c) (fun _ => code
    (bcl_call fin t 0x73 c ".ctor" [Ty.ClassRef c; Ty.Int Int.U64; Ty.Int Int.U64] Ty.Void MethodKind.Constructor)).
Proof. eapply token_op_writes; [apply bcl_method_writes|done..|]. intros. by apply bcl_call_code. Qed.

(** *** 128-bit constants *)

Lemma int128_small name v int c cell bs1 bs2 :
  code (loads cell) bs1 -> slot_of (VInt int v) = Some cell -> int_in int v ->
  code (bcl_call fin t 0x28 c "op_Implicit" [Ty.Int int] (Ty.ClassRef c) MethodKind.Static) bs2 ->
  bcl_named fin c name true -> code (int128_code fin t name v) (bs1 ++ bs2).
Proof.
  intros H1 Hs Hv H2 Hc. eapply code_app; [exact H1|exact H2|]. intros l l' (i & -> & Hi) Hcall.
  exists c. split; [done|]. left. by exists i, int, cell, l'.
Qed.

Lemma int128_halves name v c :
  writes (emit_int128_halves c v) (fun _ bs => bcl_named fin c name true -> code (int128_code fin t name v) bs).
Proof.
  unfold emit_int128_halves. repeat (eapply writes_bind; [apply push_writes|intros ?]).
  eapply writes_weaken; [apply int128_ctor_writes|]. cbn beta. intros ? bs Hcall ? -> ? -> ? -> ? -> Hc.
  set (low := Z.land _ _). set (high := Z.shiftr _ _).
  assert (Hlow : low = wrap 128 v mod 2 ^ 64) by (subst low; change (2 ^ 64 - 1) with (Z.ones 64); by rewrite Z.land_ones by lia).
  assert (Hhigh : high = wrap 128 v / 2 ^ 64) by (subst high; by rewrite Z.shiftr_div_pow2 by lia).
  assert (Hw : 0 <= wrap 128 v < 2 ^ 128) by (by apply wrap_in_u).
  rewrite app_assoc. change ([0x21] ++ le_bytes 8 high) with (0x21 :: le_bytes 8 high).
  rewrite (app_assoc [0x21]). change ([0x21] ++ le_bytes 8 low) with (0x21 :: le_bytes 8 low).
  eapply code_app; [apply ldc_i8| |].
  { eapply (code_app _ _ (fun l => exists l1 l2, l = l1 ++ l2 /\ loads (S64 (wrap 64 low)) l1 /\
      bcl_call fin t 0x73 c ".ctor" [Ty.ClassRef c; Ty.Int Int.U64; Ty.Int Int.U64] Ty.Void
        MethodKind.Constructor l2)); [apply ldc_i8|exact Hcall|]. eauto. }
  intros l l' (i & -> & Hi) (? & call & -> & (j & -> & Hj) & Hcl). exists c. split; [done|]. right.
  exists i, j, (wrap 64 high), (wrap 64 low), call. split_and!; [done..| |done].
  assert (0 <= high < 2 ^ 64).
  { rewrite Hhigh. split; [by apply Z.div_pos; lia|]. apply Z.div_lt_upper_bound; [lia|].
    rewrite <- Z.pow_add_r by lia. exact (proj2 Hw). }
  assert (0 <= low < 2 ^ 64) by (rewrite Hlow; apply Z.mod_pos_bound; lia).
  rewrite (wrap_id 64 high), (wrap_id 64 low) by done. rewrite Hhigh, Hlow, Z.mul_comm. apply Z.div_mod. lia.
Qed.

Ltac int128_band int bytes :=
  cbn beta in *; eapply (int128_small _ _ int _ _ bytes); [..|eassumption|eassumption].

Lemma emit_i128_writes v : in_s 128 v ->
  writes (emit_i128 v) (fun _ => code (int128_code fin t "System.Int128" v)).
Proof.
  intros Hv. unfold emit_i128. eapply writes_bind; [apply bcl_class_writes|]. intros c.
  destruct (Z.eqb_spec v (-1)) as [->|].
  { eapply writes_bind; [apply push_writes|]. intros u. eapply writes_weaken; [apply op_implicit_writes|].
    intros ? ? ? ? -> ? [-> ?]. int128_band Int.I32 [0x15]; [|done|unfold int_in; cbn; in_range].
    apply code_op; [done..|]. by eexists. }
  destruct (between 0 8 v) eqn:H1.
  { eapply writes_bind; [apply push_writes|]. intros u. eapply writes_weaken; [apply op_implicit_writes|].
    intros ? ? ? ? -> ? [-> ?]. int128_band Int.I32 [0x16 + v]; [by apply ldc_small|done|].
    apply between_iff in H1. unfold int_in. cbn. in_range. }
  destruct (between 9 127 v) eqn:H2; [apply between_iff in H2|].
  { eapply writes_bind; [apply push_writes|]. intros u. eapply writes_bind; [apply push_writes|]. intros u'.
    eapply writes_weaken; [apply op_implicit_writes|].
    intros ? ? ? ? -> ? -> ? [-> ?]. int128_band Int.I32 [0x1F; wrap 8 v]; [apply ldc_s; in_range|done|].
    unfold int_in. cbn. in_range. }
  destruct (between _ _ v || between 128 _ v) eqn:H3; [rewrite orb_true_iff, !between_iff in H3|].
  { eapply writes_bind; [apply push_writes|]. intros u. eapply writes_bind; [apply push_writes|]. intros u'.
    eapply writes_weaken; [apply op_implicit_writes|].
    intros ? ? ? ? -> ? -> ? [-> ?]. int128_band Int.I32 (0x20 :: le_bytes 4 v); [apply ldc_i4|done|].
    unfold int_in. cbn. in_range. }
  destruct (between _ _ v || between 2147483648 _ v) eqn:H4; [rewrite orb_true_iff, !between_iff in H4|].
  { eapply writes_bind; [apply push_writes|]. intros u. eapply writes_bind; [apply push_writes|]. intros u'.
    eapply writes_weaken; [apply op_implicit_writes|].
    intros ? ? ? ? -> ? -> ? [-> ?]. int128_band Int.I64 (0x21 :: le_bytes 8 v); [apply ldc_i8|done|].
    unfold int_in. cbn. in_range. }
  eapply writes_weaken; [apply int128_halves|]. intros ? bs Hbs ? [-> ?]. by apply Hbs.
Qed.

Lemma emit_u128_writes v : in_u 128 v ->
  writes (emit_u128 v) (fun _ => code (int128_code fin t "System.UInt128" v)).
Proof.
  intros Hv. unfold emit_u128. eapply writes_bind; [apply bcl_class_writes|]. intros c.
  destruct (between 0 8 v) eqn:H1; [apply between_iff in H1|].
  { eapply writes_bind; [apply emit_ldc_i4_signed_writes|]. intros u.
    eapply writes_weaken; [apply op_implicit_writes|].
    intros ? ? ? ? ? ? [-> ?]. int128_band Int.U32 bs1; [eassumption|done|].
    unfold int_in. cbn. in_range. }
  destruct (between 9 127 v) eqn:H2; [apply between_iff in H2|].
  { eapply writes_bind; [apply push_writes|]. intros u. eapply writes_bind; [apply push_writes|]. intros u'.
    eapply writes_weaken; [apply op_implicit_writes|].
    intros ? ? ? ? -> ? -> ? [-> ?]. int128_band Int.U32 [0x1F; wrap 8 v]; [apply ldc_s; in_range|done|].
    unfold int_in. cbn. in_range. }
  destruct (between 128 _ v) eqn:H3; [apply between_iff in H3|].
  { eapply writes_bind; [apply push_writes|]. intros u. eapply writes_bind; [apply push_writes|]. intros u'.
    eapply writes_weaken; [apply op_implicit_writes|].
    intros ? ? ? ? -> ? -> ? [-> ?]. int128_band Int.U32 (0x20 :: le_bytes 4 v); [apply ldc_i4|done|].
    unfold int_in. cbn. in_range. }
  destruct (between 4294967296 _ v) eqn:H4; [apply between_iff in H4|].
  { eapply writes_bind; [apply push_writes|]. intros u. eapply writes_bind; [apply push_writes|]. intros u'.
    eapply writes_weaken; [apply op_implicit_writes|].
    intros ? ? ? ? -> ? -> ? [-> ?]. int128_band Int.U64 (0x21 :: le_bytes 8 v); [apply ldc_i8|done|].
    unfold int_in. cbn. in_range. }
  eapply writes_weaken; [apply int128_halves|]. intros ? bs Hbs ? [-> ?]. by apply Hbs.
Qed.

(** *** Constants *)

Lemma const_blob_writes mfuel data :
  writes (const_blob_field_token mfuel data) (fun tok l => l = [] /\ in_u 32 tok /\
    exists f, buffer_field fin data f /\ token_of t (TokStatic f) tok).
Proof.
  unfold const_blob_field_token. eapply writes_bind; [apply interned_writes, interns_main_module|]. intros owner.
  eapply writes_bind; [apply (arena_writes const_data data); by intros ? ? []|]. intros bytes.
  eapply writes_bind.
  { apply interned_writes. eapply interns_bind; [apply interns_string|]. intros fname.
    eapply interns_bind; [apply interns_string|]. intros bname.
    eapply interns_bind; [apply interns_class|]. intros bcref.
    eapply interns_weaken; [apply interns_sfld|]. cbn beta.
    instantiate (1 := fun f => exists fname bname c, statics fin !! slot f = Some (mk_StaticFieldDesc owner fname (Ty.ClassRef c)) /\
      strings fin !! slot fname = Some ("c_" +:+ encode_u64 (inner data))%string /\
      class_refs fin !! slot c = Some (mk_ClassRef bname None true []) /\
      strings fin !! slot bname = Some ("__rcl_const_blob_" +:+ pretty (Z.max (Z.of_nat (length bytes)) 1))%string).
    intros f ????. by exists fname, bname, bcref. }
  intros f. eapply writes_weaken; [apply (sink_writes (TokStatic f) (fun E => static_field_token f)), static_field_token_law|].
  cbn beta. intros tok bs (-> & ? & ?) ? (-> & fname & bname & c & ? & ? & ? & ?) ? (-> & ?) ? (-> & cr & ? & ?).
  split_and!; [done..|]. exists f. split; [|done].
  eexists _, cr, _, bytes. split_and!; [done..|]. by exists c, ("__rcl_const_blob_" +:+ pretty (Z.max (Z.of_nat (length bytes)) 1))%string.
Qed.

Lemma load_const_code c s bs : const_slot c = Some s -> code (fun l => load l = Some s) bs ->
  match c with Const.I128 _ | Const.U128 _ | Const.Null _ | Const.PlatformString _ | Const.ByteBuffer _ _ => False | _ => True end ->
  code (const_code fin t c) bs.
Proof.
  intros Hs Hc Hk. eapply code_weaken; [exact Hc|]. intros l Hl. destruct c; try done; cbn [const_code]; by rewrite Hl, Hs.
Qed.

Lemma const_slot_int c i z : int_const c = Some (i, z) -> int_in i z -> const_slot c = slot_of (VInt i z).
Proof.
  intros Hc Hz. unfold const_slot, const_value. destruct c; try done; rewrite Hc; cbn [mbind option_bind];
    by rewrite bool_decide_eq_true_2.
Qed.

Lemma emit_const_writes mfuel c : const_ok c ->
  writes (emit_const mfuel c) (fun _ => code (const_code fin t c)).
Proof.
  intros Hc. destruct c as [v|v|v|v|v|v|v|v|v|v|v|v|s|b|bits|bits|cls|data tpe]; cbn [emit_const];
    match type of Hc with const_ok ?c =>
      try (pose proof (const_slot_int c _ _ eq_refl Hc) as Hs; cbn [slot_of] in Hs;
           unfold const_ok in Hc; cbn [int_const] in Hc) end.
  1: eapply writes_weaken; [by apply emit_ldc_i4_i8_band_writes|].
  2, 3: eapply writes_weaken; [apply emit_ldc_i4_signed_writes|].
  4: eapply writes_weaken; [by apply (emit_ldc_i8_via_i4_with_conv_writes _ _ S64); [left|]|].
  5: by apply emit_i128_writes.
  5: eapply writes_weaken; [by apply (emit_ldc_i8_via_i4_with_conv_writes _ _ SNative); [right|]|].
  6, 7: eapply writes_weaken; [apply emit_ldc_i4_signed_writes|].
  8: eapply writes_weaken; [apply emit_ldc_i4_unsigned_writes|].
  9: eapply writes_weaken; [by apply emit_ldc_u64_writes|].
  10: by apply emit_u128_writes.
  10: eapply writes_weaken; [by apply emit_ldc_usize_writes|].
  1-10: intros ? bs Hb; by eapply load_const_code; [exact Hs|first [exact Hb|apply loads_load; exact Hb]|].
  - eapply writes_bind; [apply get_string_writes|]. intros str.
    eapply writes_weaken; [eapply token_op_writes; [apply string_token_writes|done..|]|].
    + intros tok ? ?. by instantiate (1 := tok_code t 0x72 (TokString str)); exists tok.
    + intros ? bs Hb ? (-> & ?). eapply code_weaken; [exact Hb|]. intros l ?. by exists str.
  - destruct b; (apply push_op_writes; [done..|]); by split.
  - cbn in Hc. pushes. eapply (code_one _ 0x22 (R4 bits)); [by exists ShR4|done|]. by split.
  - cbn in Hc. pushes. eapply (code_one _ 0x23 (R8 bits)); [by exists ShR8|done|]. by split.
  - by apply push_op_writes.
  - eapply token_op_writes; [apply const_blob_writes|done..|]. intros tok ? (f & ? & ?). exists f.
    split; [done|]. by exists tok.
Qed.

(** *** Operators *)

Ltac one_op := first [apply push_op_writes | apply push_ext_op_writes]; done.

Lemma emit_binop_writes o : writes (emit_binop o) (fun _ => code (fun l => l = [op (binop_opcode o)])).
Proof. destruct o; one_op. Qed.

Lemma emit_int_cast_writes target extend : writes (emit_int_cast target extend)
  (fun _ => code (fun l => exists o, conv_opcode target extend = Some o /\ l = [op o])).
Proof.
  destruct target, extend; cbn [emit_int_cast]; try apply writes_panic;
    (apply push_op_writes; [done..|by eexists]).
Qed.

Lemma two_ops_writes a b (P : list Instr -> Prop) :
  shape_of a = Some ShNone -> a < 256 -> shape_of b = Some ShNone -> b < 256 -> P [op a; op b] ->
  writes (_ ← push_u8 a; push_u8 b) (fun _ => code P).
Proof.
  intros. pushes. eapply (code_app (fun l => l = [op a]) (fun l => l = [op b])); [by apply code_op..|].
  by intros ? ? -> ->.
Qed.

Lemma emit_float_cast_writes target sg : writes (emit_float_cast target sg)
  (fun _ => code (fun l => float_conv target sg = Some l)).
Proof.
  destruct target, sg; cbn [emit_float_cast]; try apply writes_panic;
    first [one_op | apply two_ops_writes; done].
Qed.

Lemma code_prefixed (P : list Instr -> Prop) bs :
  code P bs -> code (fun l => exists body, P body /\ l = op 0xFE13 :: body) ([0xFE; 0x13] ++ bs).
Proof.
  intros Hb. eapply (code_app (fun l => l = [op 0xFE13])); [|exact Hb|].
  - by apply (code_one _ 0xFE13 NoOperand); [apply op_ok|..].
  - intros ? l -> ?. by exists l.
Qed.

(** The [volatile.] prefix, and the access. *)
Lemma prefixed_writes (volatile : bool) (m : M unit) (P : list Instr -> Prop) :
  writes m (fun _ => code P) ->
  writes (_ ← (if volatile then push_volatile_prefix else mret tt); m)
    (fun _ => code (fun l => exists body, P body /\ l = prefixed volatile body)).
Proof.
  intros Hm. destruct volatile.
  - eapply writes_bind; [apply push_ext_writes|]. intros u. eapply writes_weaken; [exact Hm|].
    intros ? bs Hb ? ->. by apply code_prefixed.
  - eapply writes_bind; [by apply (writes_ret tt (fun _ l => l = []))|]. intros u. eapply writes_weaken; [exact Hm|].
    intros ? bs Hb ? ->. eapply code_weaken; [exact Hb|]. intros l ?. by exists l.
Qed.

Lemma bcl_obj_writes o n : shape_of o = Some ShTok -> o < 256 ->
  writes (emit_bcl_obj o n)
    (fun _ => code (fun l => exists c, bcl_named fin c n true /\ tok_code t o (TokType (Ty.ClassRef c)) l)).
Proof.
  intros. eapply writes_bind; [apply bcl_class_writes|]. intros c. eapply writes_weaken; [by apply type_op_writes|].
  intros ? bs Hb ? (-> & ?). eapply code_weaken; [exact Hb|]. intros l ?. by exists c.
Qed.

Ltac access := first
  [ apply writes_panic
  | by apply push_op_writes
  | by apply (bcl_obj_writes 0x71) | by apply (bcl_obj_writes 0x81)
  | by apply (type_op_writes 0x71) | by apply (type_op_writes 0x81) ].

Lemma emit_ldind_writes ty volatile : writes (emit_ldind ty volatile)
  (fun _ => code (fun l => exists body, access_code fin t ldind_opcode 0x71 ty body /\ l = prefixed volatile body)).
Proof.
  apply prefixed_writes. destruct ty as [| |int| |float| | | | | | | | |]; try access; [destruct int|destruct float]; access.
Qed.

Lemma emit_throw_writes msg : writes (emit_throw_new_exception msg) (fun _ => code (throw_code fin t msg)).
Proof.
  unfold emit_throw_new_exception. eapply writes_bind; [apply string_token_writes|]. intros str.
  eapply writes_bind; [apply push_writes|]. intros u. eapply writes_bind; [apply push_writes|]. intros u'.
  eapply writes_bind.
  { eapply writes_bind; [apply bcl_class_writes|]. intros c. eapply writes_weaken; [apply bcl_method_writes|].
    instantiate (1 := fun tok l => l = [] /\ in_u 32 tok /\ exists c, bcl_named fin c "System.Exception" false /\
      bcl_method_token c ".ctor" [Ty.ClassRef c; Ty.PlatformString] Ty.Void MethodKind.Constructor tok).
    intros tok bs (-> & ? & ?) ? (-> & ?). split_and!; [done..|]. by exists c. }
  intros ctor. pushes. 
  repeat match goal with K : _ /\ _ |- _ => destruct K; subst | K : exists _, _ |- _ => destruct K as [c K] end.
  cbn [app]. change (0x72 :: ?x) with ([0x72] ++ x).
  exists [mk_Instr 0x72 (Tok str); mk_Instr 0x73 (Tok ctor); op 0x7A]. split_and!.
  - by repeat constructor; eexists.
  - unfold encode_all, encode. cbn [map concat opcode operand operand_bytes]. cbn. done.
  - exists c, [mk_Instr 0x72 (Tok str)], [mk_Instr 0x73 (Tok ctor)]. split_and!; [done| |by apply bcl_call_code|done].
    by exists str.
Qed.

Lemma emit_stind_writes ty volatile : writes (emit_stind ty volatile)
  (fun _ => code (fun l => exists body, store_code fin t ty body /\ l = prefixed volatile body)).
Proof.
  apply prefixed_writes.
  destruct ty as [| |int|c|float| | | | | | | | |]; try access; [destruct int| |destruct float|]; try access.
  all: cbn [store_code].
  - eapply writes_bind; [apply (arena_writes class_refs c); by intros ? ? []|]. intros cr.
    destruct (cr_is_valuetype cr) eqn:Hv; (eapply writes_weaken; [first [by apply (type_op_writes 0x81)|by apply (push_op_writes 0x51 (fun l => l = [op 0x51]))]|]);
      intros ? bs Hb ? (-> & ?); (eapply code_weaken; [exact Hb|]); intros l Hl; exists cr; by rewrite Hv.
  - eapply writes_bind; [apply push_writes|]. intros u. eapply writes_bind; [apply push_writes|]. intros u'.
    eapply writes_weaken; [apply emit_throw_writes|]. intros ? bs Hb ? -> ? ->.
    eapply (code_app (fun l => l = [op 0x26])); [by apply code_op|eapply (code_app (fun l => l = [op 0x26])); [by apply code_op|exact Hb|]|].
    + intros l l' -> Hl. by instantiate (1 := fun l => exists body, throw_code fin t "Attempted to wrtie to a zero-sized type(void)." body /\ l = op 0x26 :: body); exists l'.
    + intros l l' -> (body & ? & ->). by exists body.
Qed.

Lemma emit_stelem_writes ty : writes (emit_stelem ty) (fun _ => code (fun l =>
  match stelem_opcode ty with Some o => l = [op o] | None => tok_code t 0xA4 (TokType ty) l end)).
Proof.
  destruct ty as [| |int| |float| | | | | | | | |]; [| |destruct int| |destruct float|..];
    first [by apply push_op_writes | by apply (type_op_writes 0xA4)].
Qed.

Lemma call_like_writes m root : writes (emit_call_like m root) (fun _ => code (call_code fin t m)).
Proof.
  unfold emit_call_like. eapply writes_bind; [apply get_mref_writes|]. intros mr.
  destruct (root && _); [apply writes_panic|].
  eapply writes_bind; [apply method_token_writes|]. intros tok.
  replace (match mr_kind mr with MethodKind.Static | MethodKind.Instance => 0x28 | MethodKind.Virtual => 0x6F
    | MethodKind.Constructor => 0x73 end) with (call_opcode (mr_kind mr)) by (by destruct (mr_kind mr)).
  eapply writes_bind; [apply push_writes|]. intros u. eapply writes_weaken; [apply push_writes|].
  intros ? ? -> ? -> ? (-> & ? & mr' & Hm' & ?) ? (-> & Hm). rewrite Hm in Hm'. injection Hm' as <-.
  eapply (code_one _ (call_opcode (mr_kind mr)) (Tok tok)).
  - exists ShTok. by destruct (mr_kind mr).
  - by destruct (mr_kind mr).
  - exists mr. split; [done|]. by exists tok.
Qed.

Lemma type_of_writes o i : shape_of o = Some ShTok -> o < 256 ->
  writes (emit_token_op_of o i) (fun _ => code (type_code fin t o i)).
Proof.
  intros. eapply writes_bind; [apply get_type_writes|]. intros ty. eapply writes_weaken; [by apply type_op_writes|].
  intros ? bs Hb ? (-> & ?). eapply code_weaken; [exact Hb|]. intros l ?. by exists ty.
Qed.

Lemma field_op_writes o f : shape_of o = Some ShTok -> o < 256 ->
  writes (emit_field_op o f) (fun _ => code (tok_code t o (TokField f))).
Proof.
  intros. eapply token_op_writes; [apply (sink_writes (TokField f) (fun E => field_token f)), field_token_law|done..|].
  intros tok ? ?. by exists tok.
Qed.

Lemma static_op_writes o f : shape_of o = Some ShTok -> o < 256 ->
  writes (emit_static_op o f) (fun _ => code (tok_code t o (TokStatic f))).
Proof.
  intros. eapply token_op_writes; [apply (sink_writes (TokStatic f) (fun E => static_field_token f)), static_field_token_law|done..|].
  intros tok ? ?. by exists tok.
Qed.

Lemma type_ext_writes b i : shape_of (0xFE00 + b) = Some ShTok -> 0 <= b ->
  writes (ty ← reads (fun s => get_type (em_asm s) i); tok ← on_sink (type_token ty); _ ← push_ext b; push_token tok)
    (fun _ => code (type_code fin t (0xFE00 + b) i)).
Proof.
  intros. eapply writes_bind; [apply get_type_writes|]. intros ty.
  eapply writes_weaken; [eapply token_ext_writes; [apply (sink_writes (TokType ty) (fun E => type_token ty)), type_token_law|done..|]|].
  - intros tok ? ?. by instantiate (1 := tok_code t (0xFE00 + b) (TokType ty)); exists tok.
  - intros ? bs Hb ? (-> & ?). eapply code_weaken; [exact Hb|]. intros l ?. by exists ty.
Qed.

Lemma i64_instr_ok v : instr_ok (mk_Instr 0x21 (I64 (swrap 64 v))).
Proof. exists ShI64. split; [done|by apply swrap_in_s]. Qed.

Lemma i64_bytes v : 0x21 :: le_bytes 8 v = encode (mk_Instr 0x21 (I64 (swrap 64 v))).
Proof.
  unfold encode. cbn [opcode operand operand_bytes]. change (opcode_bytes 0x21) with [0x21]. cbn [app]. f_equal.
  rewrite <- (le_bytes_wrap 8 v), <- (le_bytes_wrap 8 (swrap 64 v)). change (8 * Z.of_nat 8) with 64.
  by rewrite wrap_swrap.
Qed.

Lemma locaalloc_aligned_writes tpe align : writes (emit_locaalloc_aligned tpe align)
  (fun _ => code (own_code fin t 0 (CILNode.LocAllocAlgined tpe align))).
Proof.
  unfold emit_locaalloc_aligned. eapply writes_bind; [apply get_type_writes|]. intros ty.
  eapply writes_bind; [apply (sink_writes (TokType ty) (fun E => type_token ty)), type_token_law|]. intros tok.
  repeat (eapply writes_bind; [first [apply push_writes | apply push_ext_writes]|intros ?]).
  eapply writes_weaken; [apply push_writes|]. cbn beta. intros. subst.
  repeat match goal with K : _ /\ _ |- _ => destruct K; subst end.
  set (size := [mk_Instr 0xFE1C (Tok tok)]). set (a' := mk_Instr 0x21 (I64 (swrap 64 align))).
  exists (size ++ [a'; op 0xD3; op 0x58; op 0xFE0F; op 0x25; a'; op 0x58; a'; op 0x5D; op 0x59; a'; op 0x58; op 0xE0]).
  split_and!.
  - subst size a'. cbn [app]. repeat constructor; try (by apply op_ok); try apply i64_instr_ok. by exists ShTok.
  - pose proof (i64_bytes align) as Hb. fold a' in Hb. unfold encode_all, size. cbn [map concat app]. rewrite <- !Hb.
    cbn [app]. done.
  - exists size. split; [|done]. exists ty. split; [done|]. by exists tok.
Qed.

(** *** Facts that hold before the instructions are written *)

Definition appends {A} (m : M A) : Prop := writes m (fun _ _ => True).

Lemma writes_appends {A} (m : M A) P : writes m P -> appends m.
Proof. intros Hm. by eapply writes_weaken. Qed.

Lemma appends_bind {A B} (m : M A) (f : A -> M B) : appends m -> (forall a, appends (f a)) -> appends (m ≫= f).
Proof.
  intros Hm Hf. eapply writes_bind; [exact Hm|]. intros a. eapply writes_weaken; [apply Hf|]. by intros.
Qed.

Lemma push_appends bs : appends (push bs).
Proof. eapply writes_appends, push_writes. Qed.

(** A specification that needs a fact the bytes do not. *)
Lemma writes_given {A} (m : M A) (P : A -> list Z -> Prop) (Q : Prop) :
  appends m -> (Q -> writes m P) -> writes m (fun a bs => Q -> P a bs).
Proof.
  intros Ha Hm s s' o Hr. destruct (Ha _ _ _ Hr) as [Hext Hok]. split; [done|]. intros a Ho Hu.
  destruct (Hok a Ho Hu) as (bs & Hw & _). exists bs. split; [done|]. intros HQ.
  destruct (Hm HQ _ _ _ Hr) as [_ Hok']. destruct (Hok' a Ho Hu) as (bs' & Hw' & HP).
  destruct Hw, Hw'. assert (bs = bs') as -> by (apply (app_inv_head (em_out s)); congruence). done.
Qed.

Ltac appends_tac :=
  repeat (intros; match goal with
  | |- appends (_ ≫= _) => apply appends_bind; [|intros ?]
  | |- appends (mbind _ _) => apply appends_bind; [|intros ?]
  | |- appends (if ?b then _ else _) => destruct b
  | |- appends _ => first
      [ apply push_appends
      | eapply writes_appends; first [ apply bcl_class_writes | apply op_implicit_writes | apply int128_ctor_writes
          | apply emit_ldc_i4_signed_writes | apply emit_ldc_i4_unsigned_writes | apply get_string_writes
          | apply string_token_writes | apply const_blob_writes ] ]
  end).

Lemma emit_const_appends mfuel c : appends (emit_const mfuel c).
Proof.
  destruct c; cbn [emit_const];
    unfold emit_ldc_i4_i8_band, push_short_form_ldc, emit_ldc_i8_via_i4, emit_ldc_i8_via_i4_with_conv,
      emit_i128, emit_u128, emit_int128_halves, emit_ldc_u64, emit_ldc_usize; appends_tac.
Qed.

Lemma emit_short_index_appends n a b : appends (emit_short_index n a b).
Proof. unfold emit_short_index, push_ext. appends_tac. Qed.
Lemma emit_compact_index_appends n c a b : appends (emit_compact_index n c a b).
Proof. unfold emit_compact_index, push_ext. appends_tac. Qed.
End writes.

Ltac pushes := repeat (eapply writes_bind; [first [apply push_writes | apply push_ext_writes]|intros ?]);
  eapply writes_weaken; [first [apply push_writes | apply push_ext_writes]|]; cbn beta; intros; subst.
