(* ===== verification/BodyEmit.v ===== *)
(** * Nodes, roots and blocks written as labelled code

    The emitter's recursions against [node_code], [root_code] and [blocks_code]. *)

From S2P Require Import Prelude Interner Types Class IR Arenas Walk Assign Block Method Opt Layout Heaps.
From S2P Require Import Signature SigTheory Cil OptSem CilSem Body BodySpec BodyTheory.

Section nodes.
Context {T : Type} `{TokenSinkLaws T} {hash_order : HashMapOrder}.
Context (fin : Assembly) (t : T) (sfuel mfuel : nat).
Context (Hfin : body_ok fin).

Local Notation M := (ST (Emitter T) unit).
Local Notation writes := (writes (E := unit) fin t).

(** ** Nodes *)

Lemma for_each_writes {A} (f : A -> M unit) (D : A -> list Instr -> Prop) l :
  (forall x, writes (f x) (fun _ => code (D x))) ->
  writes (for_each f l) (fun _ => code (fun is_ => exists codes, Forall2 D l codes /\ is_ = concat codes)).
Proof.
  intros Hf. induction l as [|x l IH]; cbn [for_each].
  - apply writes_ret. exists []. split_and!; [constructor|done|]. by exists [].
  - eapply writes_bind; [apply Hf|]. intros u. eapply writes_weaken; [exact IH|].
    intros ? bs Hb bs1 Hb1. eapply code_app; [exact Hb1|exact Hb|]. intros l1 l2 H1 (codes & H2 & ->).
    exists (l1 :: codes). split; [by constructor|done].
Qed.

Lemma on_sig_writes {A} (m : ST (SigState T) unit A) : steps moves m ->
  writes (on_sig m) (fun a l => l = [] /\ exists s s', m s = (s', Ok a) /\
    grows (sg_asm s') fin /\ later (sg_resolver s') t).
Proof.
  intros Hm s s' o Hr. unfold on_sig, on_sink in Hr.
  specialize (Hm (mk_SigState (em_asm s) (em_tokens s))).
  destruct (m (mk_SigState (em_asm s) (em_tokens s))) as [s1 r] eqn:Hrun. injection Hr as <- <-.
  destruct Hm as [Hg Hl]. split; [split; [by apply extends_grows|done]|]. intros a -> (? & ? & _).
  exists []. split; [by split; rewrite ?app_nil_r|]. split; [done|]. by eexists _, s1.
Qed.

Lemma calli_token_writes sig :
  writes (tok ← emit_calli_sig_token sfuel mfuel sig; _ ← push_u8 0x29; push_token tok)
    (fun _ => code (calli_code fin t sfuel sig)).
Proof.
  eapply (token_op_writes fin t _ (fun tok => exists fs key blob s s',
      sigs fin !! slot sig = Some fs /\
      encode_method_sig (E := unit) (encode_type sfuel) SIG_DEFAULT 0 fs s = (s', Ok blob) /\
      grows (sg_asm s') fin /\ later (sg_resolver s') t /\ token_of t (TokCalli key blob) tok)); [|done|done|].
  - eapply writes_bind; [apply (arena_writes fin t sigs sig); by intros ? ? []|]. intros fs.
    eapply writes_bind; [by apply (reads_writes fin t _ (fun _ => True))|]. intros ins.
    eapply writes_bind; [by apply (reads_writes fin t _ (fun _ => True))|]. intros out.
    cbv zeta. eapply writes_bind; [apply on_sig_writes, encode_method_moves, encode_type_moves|]. intros blob.
    set (key := ("(" +:+ _)%string).
    eapply writes_weaken; [apply (sink_writes fin t (TokCalli key blob) (fun E => calli_sig_token key blob)), calli_sig_token_law|].
    cbn beta. intros tok bs (-> & ? & ?) ? (-> & s & s' & ? & ? & ?) ? (-> & _) ? (-> & _) ? (-> & ?).
    split_and!; [done..|]. by exists fs, key, blob, s, s'.
  - intros tok ? (fs & key & blob & s & s' & ? & ? & ? & ? & ?).
    exists fs, key, blob, s, s'. split_and!; [done..|]. by exists tok.
Qed.

(** The code of the node an id names. *)
Definition id_code (id : Interned KNode) (l : list Instr) : Prop :=
  exists n, nodes fin !! slot id = Some n /\ node_code fin t sfuel n l.

Lemma fetch_node_writes id :
  writes (fetch_node id) (fun n l => l = [] /\ nodes fin !! slot id = Some n).
Proof. apply (arena_writes fin t nodes id). by intros ? ? []. Qed.

(** Operands, then the node's own instructions. *)
Lemma node_code_operands n codes own :
  Forall2 id_code (eval_operands n) codes -> own_code fin t sfuel n own ->
  node_code fin t sfuel n (concat codes ++ own).
Proof.
  intros Hc Ho.
  assert (exists kids, Forall2 (fun id kid => nodes fin !! slot id = Some kid) (eval_operands n) kids /\
    Forall2 (node_code fin t sfuel) kids codes) as (kids & Hk & Hkc).
  { clear Ho. induction Hc as [|id c ids codes (k & Hk & Hkc) _ (kids & ? & ?)]; [by exists []|].
    exists (k :: kids). by split; constructor. }
  by econstructor.
Qed.

Lemma node_with (m : M unit) n ops (D : list Instr -> Prop) :
  eval_operands n = ops -> (forall l, D l -> own_code fin t sfuel n l) ->
  writes m (fun _ => code (fun l => exists codes own, Forall2 id_code ops codes /\ D own /\ l = concat codes ++ own)) ->
  writes m (fun _ => code (node_code fin t sfuel n)).
Proof.
  intros <- HD Hm. eapply writes_weaken; [exact Hm|]. intros ? bs Hb. eapply code_weaken; [exact Hb|].
  intros l (codes & own & Hc & Ho & ->). by apply node_code_operands, HD.
Qed.

Section level.
Context (emit : Interned KNode -> M unit) (Hemit : forall id, writes (emit id) (fun _ => code (id_code id))).

Local Notation with_operands ops D :=
  (fun l => exists codes own, Forall2 id_code ops codes /\ D own /\ l = concat codes ++ own).

Lemma no_operand (m : M unit) (D : list Instr -> Prop) :
  writes m (fun _ => code D) -> writes m (fun _ => code (with_operands [] D)).
Proof.
  intros Hm. eapply writes_weaken; [exact Hm|]. intros ? bs Hb. eapply code_weaken; [exact Hb|].
  intros l ?. by exists [], l.
Qed.

Lemma next_operand id ops (m : M unit) (D : list Instr -> Prop) :
  writes m (fun _ => code (with_operands ops D)) ->
  writes (_ ← emit id; m) (fun _ => code (with_operands (id :: ops) D)).
Proof.
  intros Hm. eapply writes_bind; [apply Hemit|]. intros u. eapply writes_weaken; [exact Hm|].
  intros ? bs Hb bs1 Hb1. eapply code_app; [exact Hb1|exact Hb|]. intros l1 l2 H1 (codes & own & Hc & HD & ->).
  exists (l1 :: codes), own. split_and!; [by constructor|done|by rewrite app_assoc].
Qed.

Lemma operand_list ids ops (m : M unit) (D : list Instr -> Prop) :
  writes m (fun _ => code (with_operands ops D)) ->
  writes (_ ← for_each emit ids; m) (fun _ => code (with_operands (ids ++ ops) D)).
Proof.
  intros Hm. eapply writes_bind; [by apply for_each_writes|]. intros u. eapply writes_weaken; [exact Hm|].
  intros ? bs Hb bs1 Hb1. eapply code_app; [exact Hb1|exact Hb|].
  intros l1 l2 (codes1 & H1 & ->) (codes & own & Hc & HD & ->). exists (codes1 ++ codes), own.
  split_and!; [by apply Forall2_app|done|by rewrite concat_app, app_assoc].
Qed.
End level.

Lemma no_fuel_writes {A} (P : A -> list Z -> Prop) : writes no_fuel P.
Proof. intros s s' o [= <- <-]. split; [reflexivity|]. intros ? [=]. Qed.

(** The own instructions of a node that only a range makes encodable. *)
Lemma given_node (m : M unit) n (D : list Instr -> Prop) :
  appends fin t m -> (node_ok n -> writes m (fun _ => code D)) ->
  eval_operands n = [] -> (forall l, D l -> own_code fin t sfuel n l) ->
  writes m (fun _ bs => node_ok n -> code (node_code fin t sfuel n) bs).
Proof.
  intros Ha Hm Hops HD. apply writes_given; [done|]. intros Hn.
  by apply (node_with m n [] D), no_operand, Hm.
Qed.

Lemma any_node (m : M unit) n :
  writes m (fun _ => code (node_code fin t sfuel n)) ->
  writes m (fun _ bs => node_ok n -> code (node_code fin t sfuel n) bs).
Proof. intros Hm. by eapply writes_weaken. Qed.

Tactic Notation "own" uconstr(lem) :=
  apply no_operand; eapply writes_weaken; [apply lem; done | by intros ? bs Hb].
(** The operands a node evaluates, and the specification of what follows them. *)
Tactic Notation "node" uconstr(ops) uconstr(D) :=
  apply any_node, (node_with _ _ ops D); [done..|]; repeat (apply next_operand; [done|]).
Ltac own_op := apply no_operand; first [apply push_op_writes | apply push_ext_op_writes]; done.

Lemma compact_shape c k : c = 0x02 \/ c = 0x06 \/ c = 0x0A -> 0 <= k <= 3 -> shape_of (c + k) = Some ShNone.
Proof. intros Hc Hk. unfold shape_of. by rewrite (proj2 (between_iff 0x00 0x0D _)) by lia. Qed.

Lemma sizeof_writes ty :
  writes (tpe_val ← reads (fun s => get_type (em_asm s) ty);
          if bool_decide (tpe_val = Ty.Void) then push_u8 0x16
          else tok ← on_sink (type_token tpe_val); _ ← push_ext 0x1C; push_token tok)
    (fun _ => code (own_code fin t sfuel (CILNode.SizeOf ty))).
Proof.
  eapply writes_bind; [apply get_type_writes|]. intros tv.
  destruct (bool_decide (tv = Ty.Void)) eqn:Hv.
  - eapply writes_weaken; [by apply (push_op_writes fin t 0x16 (fun l => l = [op 0x16]))|].
    intros ? bs Hb ? (-> & ?). eapply code_weaken; [exact Hb|]. intros l ->. exists tv. by rewrite Hv.
  - eapply writes_weaken; [eapply (token_ext_writes fin t _ _ 0x1C (tok_code t 0xFE1C (TokType tv)));
      [apply (sink_writes fin t (TokType tv) (fun E => type_token tv)), type_token_law|done..|]|].
    { intros tok ? ?. by exists tok. }
    intros ? bs Hb ? (-> & ?). eapply code_weaken; [exact Hb|]. intros l ?. exists tv. by rewrite Hv.
Qed.

Lemma emit_node_writes fuel id :
  writes (emit_node sfuel mfuel fuel id) (fun _ => code (id_code id)).
Proof.
  revert id. induction fuel as [|fuel IH]; intros id; cbn [emit_node]; [apply no_fuel_writes|].
  eapply writes_bind; [apply fetch_node_writes|]. intros n.
  enough (Hn : forall m : M unit, writes m (fun _ bs => node_ok n -> code (node_code fin t sfuel n) bs) ->
    writes m (fun _ bs2 => forall bs1, bs1 = [] /\ nodes fin !! slot id = Some n -> code (id_code id) (bs1 ++ bs2))).
  2: { intros m Hm. eapply writes_weaken; [exact Hm|]. intros ? bs Hb ? (-> & Hn).
       eapply code_weaken; [by apply Hb; eapply ok_nodes|]. intros l ?. by exists n. }
  apply Hn. clear Hn.
  destruct n as [c|lhs rhs o|v o|l|l|l|l|m args p|i tg e|i tg sg|v|v r|a f|a f|a ty vol|ty| |v ty|v ty|fp sg args|sz|sf|sf|m|ty|arr|ty al|arr ix|arr ix el|ob ty|el len|v ty].
  - apply (given_node _ _ (const_code fin t c)); [apply emit_const_appends|apply emit_const_writes|done|done].
  - node [lhs; rhs] (fun l => l = [op (binop_opcode o)]). own emit_binop_writes.
  - node [v] (own_code fin t sfuel (CILNode.UnOp v o)). destruct o; own_op.
  - apply (given_node _ _ (indexed (Some 0x06) 0x11 0x0C l)); [apply emit_compact_index_appends| |done..].
    intros Hl. apply emit_compact_index_writes; try done. intros. apply compact_shape; tauto.
  - apply (given_node _ _ (indexed None 0x12 0x0D l)); [apply emit_short_index_appends| |done..].
    intros Hl. by apply emit_short_index_writes.
  - apply (given_node _ _ (indexed (Some 0x02) 0x0E 0x09 l)); [apply emit_compact_index_appends| |done..].
    intros Hl. apply emit_compact_index_writes; try done. intros. apply compact_shape; tauto.
  - apply (given_node _ _ (indexed None 0x0F 0x0A l)); [apply emit_short_index_appends| |done..].
    intros Hl. by apply emit_short_index_writes.
  - apply any_node, (node_with _ _ (args ++ []) (call_code fin t m)); [by rewrite app_nil_r|done|].
    apply operand_list; [done|]. own call_like_writes.
  - node [i] (own_code fin t sfuel (CILNode.IntCast i tg e)). own emit_int_cast_writes.
  - node [i] (own_code fin t sfuel (CILNode.FloatCast i tg sg)). own emit_float_cast_writes.
  - node [v] (fun l => l = [op 0xE0]). own_op.
  - node [v] (fun l => l = []). eapply writes_weaken; [apply IH|]. intros ? bs Hb. eapply code_weaken; [exact Hb|].
    intros l ?. exists [l], []. split_and!; [by repeat constructor|done|by rewrite app_nil_r; cbn; rewrite app_nil_r].
  - node [a] (own_code fin t sfuel (CILNode.LdFieldAddress a f)). own (field_op_writes fin t 0x7C).
  - node [a] (own_code fin t sfuel (CILNode.LdField a f)). own (field_op_writes fin t 0x7B).
  - node [a] (own_code fin t sfuel (CILNode.LdInd a ty vol)). apply no_operand.
    eapply writes_bind; [apply get_type_writes|]. intros tv. eapply writes_weaken; [apply emit_ldind_writes|].
    intros ? bs Hb ? (-> & ?). eapply code_weaken; [exact Hb|]. intros l (body & ? & ->). by exists tv, body.
  - node [] (own_code fin t sfuel (CILNode.SizeOf ty)). apply no_operand, sizeof_writes.
  - apply any_node, (node_with _ _ [] (fun l => l = [])); [done..|]. apply no_operand, writes_ret.
    by exists [].
  - node [v] (own_code fin t sfuel (CILNode.IsInst v ty)). own (type_of_writes fin t 0x75).
  - node [v] (own_code fin t sfuel (CILNode.CheckedCast v ty)). own (type_of_writes fin t 0x74).
  - apply any_node, (node_with _ _ (args ++ [fp]) (calli_code fin t sfuel sg)); [done..|].
    apply operand_list; [done|]. apply next_operand; [done|]. apply no_operand, calli_token_writes.
  - node [sz] (fun l => l = [op 0xFE0F]). own_op.
  - node [] (own_code fin t sfuel (CILNode.LdStaticField sf)). own (static_op_writes fin t 0x7E).
  - node [] (own_code fin t sfuel (CILNode.LdStaticFieldAddress sf)). own (static_op_writes fin t 0x7F).
  - node [] (own_code fin t sfuel (CILNode.LdFtn m)). apply no_operand. eapply token_ext_writes; [apply method_token_writes|done..|].
    intros tok ? (mr & ? & ?). exists mr. split; [done|]. by exists tok.
  - node [] (own_code fin t sfuel (CILNode.LdTypeToken ty)). own (type_of_writes fin t 0xD0).
  - node [arr] (fun l => l = [op 0x8E]). own_op.
  - node [] (own_code fin t sfuel (CILNode.LocAllocAlgined ty al)). own locaalloc_aligned_writes.
  - node [arr; ix] (fun l => l = [op 0x9A]). own_op.
  - node [arr; ix] (own_code fin t sfuel (CILNode.LdElem arr ix el)). own (type_of_writes fin t 0xA3).
  - node [ob] (own_code fin t sfuel (CILNode.UnboxAny ob ty)). own (type_of_writes fin t 0xA5).
  - node [len] (own_code fin t sfuel (CILNode.NewArr el len)). own (type_of_writes fin t 0x8D).
  - node [v] (own_code fin t sfuel (CILNode.Box v ty)). own (type_of_writes fin t 0x8C).
Qed.
End nodes.
