(* ===== verification/CilEval.v ===== *)
(** * Running instructions on typed values

    Straight-line code run on the evaluation stack, and the agreement of its conversions, arithmetic
    and comparisons of cells with the meaning of casts and operators on typed values. *)

From S2P Require Import Prelude Interner Types Class IR Arenas Walk MapTheory Assign Block BlockTheory Method Opt.
From S2P Require Import OptSem Layout Heaps Signature SigTheory Cil CilSem Body BodySpec.
Local Open Scope Z_scope.

(** ** Running instructions *)

(** The cells of locals and arguments. *)
Record Frame : Type := mk_Frame { f_local : Z -> option cell; f_arg : Z -> option cell }.

(** What a load pushes. *)
Definition pushed (fr : Frame) (i : Instr) : option cell :=
  match index_of (Some 0x06) 0x11 0x0C i, index_of (Some 0x02) 0x0E 0x09 i,
        index_of None 0x12 0x0D i, index_of None 0x0F 0x0A i with
  | Some n, _, _, _ => f_local fr n
  | _, Some n, _, _ => f_arg fr n
  | _, _, Some n, _ => Some (SAddr (ALocal n))
  | _, _, _, Some n => Some (SAddr (AArg n))
  | None, None, None, None => ldc i
  end.

Definition is_binary (o : Z) : bool :=
  between 0x58 0x5A o || between 0x5D 0x5E o || between 0xFE01 0xFE05 o.

Definition is_convert (o : Z) : bool := between 0x67 0x6E o || between 0xD1 0xD3 o || (o =? 0xE0).

(** Conversions of cells; an address keeps its provenance as a native integer. *)
Definition convert (o : Z) (c : cell) : option cell :=
  match c with SAddr a => if o =? 0xE0 then Some (SAddr a) else None | _ => conv o c end.

Definition exec_instr (fr : Frame) (i : Instr) (st : list cell) : option (list cell) :=
  if bool_decide (i = op 0) then Some st
  else if is_binary (opcode i) then
    match st with b :: a :: st => c ← binary (opcode i) a b; Some (c :: st) | _ => None end
  else if is_convert (opcode i) then
    match st with a :: st => c ← convert (opcode i) a; Some (c :: st) | _ => None end
  else c ← pushed fr i; Some (c :: st).

Fixpoint exec (fr : Frame) (l : list Instr) (st : list cell) : option (list cell) :=
  match l with
  | [] => Some st
  | i :: l => st ← exec_instr fr i st; exec fr l st
  end.

Lemma exec_app fr l l' st st1 : exec fr l st = Some st1 -> exec fr (l ++ l') st = exec fr l' st1.
Proof.
  revert st. induction l as [|i l IH]; intros st; cbn [exec app]; [by intros [= ->]|].
  destruct (exec_instr fr i st); cbn [mbind option_bind]; [apply IH|done].
Qed.

(** ** Values and their cells *)

(** Integers within their type, and of at most 64 bits: others are objects. *)
Definition value_ok (v : value) : Prop :=
  match v with VInt i z => int_in i z /\ slot_of v <> None | _ => True end.

(** A value held in a cell. *)
Definition held (v : value) (c : cell) : Prop := value_ok v /\ slot_of v = Some c.

Lemma held_exists v : value_ok v -> exists c, held v c.
Proof.
  destruct v as [i z|b|f x|a|s]; intros Hv; try by eexists; split.
  pose proof Hv as [_ Hs]. destruct (slot_of (VInt i z)) as [c|] eqn:Hc; [|done]. by exists c.
Qed.

(** The constructor and the width of the cell of an integer type. *)
Definition int_cell (i : Int.t) : option (Z -> cell) :=
  match i with
  | Int.I8 | Int.U8 | Int.I16 | Int.U16 | Int.I32 | Int.U32 => Some S32
  | Int.I64 | Int.U64 => Some S64
  | Int.ISize | Int.USize => Some SNative
  | Int.I128 | Int.U128 => None
  end.

Lemma slot_of_int i z : slot_of (VInt i z) = (fun mk => mk (wrap (slot_width i) z)) <$> int_cell i.
Proof. by destruct i. Qed.

Lemma int_cell_slot i mk z : int_cell i = Some mk -> int_slot (mk z) = Some (slot_width i, z).
Proof. destruct i; by intros [= <-]. Qed.

Lemma wrap_int_norm i k z : 0 <= k <= int_width i -> wrap k (int_norm i z) = wrap k z.
Proof.
  intros Hk. pose proof (int_width_pos i). unfold int_norm. destruct (Int.is_signed i).
  - rewrite <- (wrap_narrow k (int_width i)), wrap_swrap, wrap_narrow by lia. done.
  - by apply wrap_narrow.
Qed.

(** *** Casts *)

(** Casts to 8 and 16 bits extend as the target's sign asks. *)
Definition canonical_cast (target : Int.t) (extend : ExtendKind.t) : Prop :=
  32 <= int_width target \/
  Int.is_signed target = bool_decide (extend = ExtendKind.SignExtend).

Lemma cast_cell target extend o i z c :
  canonical_cast target extend -> conv_opcode target extend = Some o -> held (VInt i z) c ->
  exists c', held (VInt target (int_cast target extend i z)) c' /\ conv o c = Some c'.
Proof.
  intros Hcan Ho [[Hi _] Hc]. rewrite slot_of_int in Hc. destruct (int_cell i) as [mk|] eqn:Hmk; [|done].
  injection Hc as <-.
  assert (Hw : slot_width i = 32 \/ slot_width i = 64) by (destruct i; try done; auto).
  unfold held, value_ok. pose proof (int_norm_in target) as Hin. unfold int_cast.
  set (inner := if slot_width i <? int_width target then _ else z).
  assert (Hslot : exists c', slot_of (VInt target (int_norm target inner)) = Some c' /\
    conv o (mk (wrap (slot_width i) z)) = Some c').
  2: { destruct Hslot as (c' & H1 & H2). exists c'. split_and!; [apply Hin|by rewrite H1|done..]. }
  unfold conv. rewrite (int_cell_slot _ _ _ Hmk). cbn [mbind option_bind].
  clear Hmk Hin mk Hi. subst inner.
  destruct target, extend; vm_compute in Ho; try done; injection Ho as <-;
    try (destruct Hcan as [Hcan|Hcan]; [vm_compute in Hcan; done|vm_compute in Hcan; done]).
  all: eexists; (split; [reflexivity|]); cbn [slot_of]; cbn -[wrap swrap int_norm Z.ltb slot_width].
  all: do 2 f_equal; destruct Hw as [Hw|Hw]; rewrite Hw;
    repeat match goal with |- context [?a <? ?b] => let r := eval vm_compute in (a <? b) in change (a <? b) with r end;
    cbn match; rewrite ?(wrap_int_norm _ 64), ?(wrap_int_norm _ 32) by (cbn; lia);
    try (unfold int_norm; cbn [Int.is_signed]; change (int_width Int.I8) with 8; change (int_width Int.U8) with 8;
         change (int_width Int.I16) with 16; change (int_width Int.U16) with 16);
    rewrite ?wrap_narrow, ?swrap_narrow, ?swrap_wrap, ?wrap_wide by lia; rewrite ?wrap_swrap by lia; done.
Qed.

(** *** Binary operations *)

Lemma compare_cells un a b r ca cb :
  compare_values un a b = Some r -> held a ca -> held b cb -> compare_slots un ca cb = Some r.
Proof.
  intros Hr [_ Ha] [_ Hb]. destruct a as [i x|x|f x|p|p], b as [j y|y|g y|q|q]; try done; cbn [compare_values] in Hr.
  - case_bool_decide as Hij; [subst j|done]. rewrite slot_of_int in Ha, Hb.
    destruct (int_cell i) as [mk|] eqn:Hmk; [|done]. injection Ha as <-. injection Hb as <-.
    assert (slot_width i = 32 /\ mk = S32 \/ slot_width i = 64 /\ (mk = S64 \/ mk = SNative)) as Hw
      by (destruct i; cbn in Hmk; simplify_eq; auto).
    rewrite <- Hr. destruct Hw as [[Hw ->]|[Hw [-> | ->]]]; rewrite Hw; cbn [compare_slots];
      by rewrite !swrap_wrap by done.
  - injection Ha as <-. injection Hb as <-. rewrite <- Hr. by destruct un, x, y.
  - case_bool_decide as Hfg; [subst g|done]. injection Ha as <-. injection Hb as <-. rewrite <- Hr.
    cbn [compare_slots]. by rewrite bool_decide_eq_true_2.
Qed.

Lemma arith_cells o i mk x y :
  int_cell i = Some mk -> ~ between 0xFE01 0xFE05 o = true ->
  binary o (mk x) (mk y) = mk <$> arith o (slot_width i) x y.
Proof.
  intros Hmk Ho. unfold binary.
  assert (H : forall k, 0xFE01 <= k <= 0xFE05 -> (o =? k) = false).
  { intros k Hk. apply Z.eqb_neq. intros ->. apply Ho. by apply between_iff. }
  rewrite !H by lia. destruct i; cbn in Hmk; by simplify_eq.
Qed.

Lemma rem_in_range i a b : int_in i a -> int_in i b -> b <> 0 -> int_in i (Z.rem a b).
Proof.
  intros Ha Hb Hnz. pose proof (Z.rem_bound_abs a b Hnz) as Habs. unfold int_in in *.
  assert (Z.abs (Z.rem a b) <= Z.abs a) by (rewrite <- Z.rem_abs by done; apply Z.rem_le; lia).
  destruct (Int.is_signed i).
  - unfold in_s in *. destruct (Z.le_gt_cases 0 a).
    + pose proof (Z.rem_nonneg a b Hnz). lia.
    + pose proof (Z.rem_nonpos a b Hnz). lia.
  - unfold in_u in *. pose proof (Z.rem_nonneg a b Hnz). lia.
Qed.

(** Results of one integer type, in its cell. *)
Lemma held_int i mk r : int_cell i = Some mk -> int_in i r -> held (VInt i r) (mk (wrap (slot_width i) r)).
Proof. intros Hmk Hr. unfold held, value_ok. rewrite slot_of_int, Hmk. done. Qed.

Lemma arith_ok o i mk x y r v :
  (o, r) = (BinOp.Add, x + y) \/ (o, r) = (BinOp.Sub, x - y) \/ (o, r) = (BinOp.Mul, x * y) ->
  int_cell i = Some mk -> int_arith i r = Some v ->
  exists c, held v c /\ binary (binop_opcode o) (mk (wrap (slot_width i) x)) (mk (wrap (slot_width i) y)) = Some c.
Proof.
  intros Ho Hmk Hv. exists (mk (wrap (slot_width i) r)). unfold int_arith in Hv.
  assert (Hr : v = VInt i (int_norm i r) /\ wrap (slot_width i) (int_norm i r) = wrap (slot_width i) r).
  { case_match eqn:Hnarrow; [done|]. injection Hv as <-. split; [done|]. unfold slot_width.
    destruct (Z.ltb_spec (int_width i) 32); cbn [andb] in Hnarrow.
    - apply negb_false_iff, bool_decide_eq_true_1 in Hnarrow. by rewrite int_norm_id.
    - apply wrap_int_norm. lia. }
  destruct Hr as [-> Hr]. split.
  - rewrite <- Hr. apply held_int; [done|apply int_norm_in].
  - destruct Ho as [Ho|[Ho|Ho]]; injection Ho as -> ->; rewrite (arith_cells _ _ _ _ _ Hmk) by done;
      unfold arith; cbn [binop_opcode]; cbn -[wrap slot_width]; do 2 f_equal.
    + apply wrap_add.
    + unfold wrap. by rewrite <- Zminus_mod.
    + apply wrap_mul.
Qed.

Lemma rem_ok o i mk x y v :
  o = BinOp.Rem \/ o = BinOp.RemUn -> int_cell i = Some mk -> int_in i x -> int_in i y ->
  int_rem o i x y = Some v ->
  exists c, held v c /\ binary (binop_opcode o) (mk (wrap (slot_width i) x)) (mk (wrap (slot_width i) y)) = Some c.
Proof.
  intros Ho Hmk Hx Hy Hv. unfold int_rem in Hv.
  destruct (negb _ || _) eqn:H1; [done|]. apply orb_false_iff in H1 as [Hs%negb_false_iff%eqb_prop Hz%Z.eqb_neq].
  destruct (_ && _) eqn:H2; [done|]. injection Hv as <-.
  exists (mk (wrap (slot_width i) (Z.rem x y))). split; [by apply held_int; [|apply rem_in_range]|].
  rewrite (arith_cells _ _ _ _ _ Hmk) by (by destruct Ho as [-> | ->]).
  assert (Hw : 0 < int_width i <= slot_width i) by (unfold slot_width; pose proof (int_width_pos i); lia).
  set (w := slot_width i) in *.
  unfold int_in in Hx, Hy. destruct Ho as [-> | ->]; cbn in Hs; rewrite <- Hs in *; cbn [andb] in H2.
  - assert (Hwide : forall z, in_s (int_width i) z -> swrap w (wrap w z) = z).
    { intros z Hin. rewrite swrap_wrap by lia. apply swrap_id; [lia|]. unfold in_s in *.
      pose proof (Z.pow_le_mono_r 2 (int_width i - 1) (w - 1)). lia. }
    unfold arith. change (binop_opcode BinOp.Rem) with 0x5D. cbn -[wrap swrap w]. rewrite !Hwide by done.
    apply Z.eqb_neq in H2. 
    assert (wrap w y =? 0 = false) as ->.
    { apply Z.eqb_neq. intros Hy0. apply Hz. rewrite <- (Hwide y) by done. rewrite Hy0. unfold swrap.
      rewrite Z.add_0_l, Z.mod_small; [lia|]. pose proof (pow2_pos (w - 1)). pose proof (pow2_split w). lia. }
    replace (y =? -1) with false by (symmetry; by apply Z.eqb_neq). by rewrite andb_false_r.
  - assert (Hwide : forall z, in_u (int_width i) z -> wrap w z = z).
    { intros z Hin. apply wrap_id. unfold in_u in *. pose proof (Z.pow_le_mono_r 2 (int_width i) w). lia. }
    unfold arith. change (binop_opcode BinOp.RemUn) with 0x5E. cbn -[wrap w]. rewrite (Hwide x), (Hwide y) by done.
    apply Z.eqb_neq in Hz. by rewrite Hz.
Qed.

(** *** Addresses *)

Lemma move_ok p m m' v :
  (m' =? 0) = (m =? 0) -> wrap 64 m' = wrap 64 m -> add_address p m = Some v ->
  exists c, held v c /\ add_slot p m' = Some c.
Proof.
  unfold add_address, add_slot. intros -> Hm Hv. destruct (m =? 0); [injection Hv as <-; by eexists|].
  destruct p as [| | |p]; try done. injection Hv as <-. eexists. split; [done|].
  by rewrite <- (wrap_add 64 p m'), Hm, wrap_add.
Qed.

Lemma native_cell i : int_cell i = Some SNative -> i = Int.USize \/ i = Int.ISize.
Proof. intros H%(f_equal (fmap (fun mk => mk 0))). destruct i; try done; auto. Qed.

(** The signed offset of a native cell. *)
Lemma offset_zero i n : int_in i n -> int_cell i = Some SNative -> (swrap 64 (wrap 64 n) =? 0) = (n =? 0).
Proof.
  intros Hin Hi. rewrite swrap_wrap by done. destruct (Z.eqb_spec n 0) as [->|Hn]; [done|].
  apply Z.eqb_neq. intros H0. assert (H : wrap 64 n = 0) by (by rewrite <- (wrap_swrap 64), H0).
  destruct (native_cell _ Hi) as [-> | ->]; unfold int_in in Hin; cbn -[in_u in_s] in Hin.
  - by rewrite wrap_id in H.
  - by rewrite swrap_id in H0.
Qed.

Lemma offset_bits n : wrap 64 (swrap 64 (wrap 64 n)) = wrap 64 n.
Proof. by rewrite swrap_wrap, wrap_swrap. Qed.

Lemma offset_neg_bits n : wrap 64 (- swrap 64 (wrap 64 n)) = wrap 64 (- n).
Proof.
  rewrite swrap_wrap by done. pose proof (wrap_swrap 64 n eq_refl) as H. unfold wrap in *.
  rewrite <- (Z.sub_0_l (swrap 64 n)), <- (Z.sub_0_l n), Zminus_mod, H, <- Zminus_mod. done.
Qed.

Lemma slot_width_native i : int_cell i = Some SNative -> slot_width i = 64.
Proof. by intros [-> | ->]%native_cell. Qed.

Definition is_comparison (o : BinOp.t) : bool :=
  match o with
  | BinOp.Eq | BinOp.Lt | BinOp.LtUn | BinOp.Gt | BinOp.GtUn => true
  | _ => false
  end.

Lemma comparison_cell o a b v ca cb :
  is_comparison o = true -> compare_op o a b = Some v -> held a ca -> held b cb ->
  exists c, held v c /\ binary (binop_opcode o) ca cb = Some c.
Proof.
  intros Ho Hv Ha Hb.
  assert (Hcmp : forall un (t : comparison -> bool) w,
    (o' ← compare_values un a b; Some (VBool (match o' with Some c => t c | None => w end))) = Some v ->
    exists c, held v c /\
      (o' ← compare_slots un ca cb; Some (S32 (Z.b2z (match o' with Some c => t c | None => w end)))) = Some c).
  { intros un t w (r & Hr & [= <-])%bind_Some. rewrite (compare_cells _ _ _ _ _ _ Hr Ha Hb). by eexists. }
  destruct o; try discriminate Ho; unfold compare_op in Hv; unfold binary; cbn [binop_opcode].
  all: first [apply (Hcmp false is_eq false Hv) | apply (Hcmp false is_lt false Hv) | apply (Hcmp true is_lt true Hv)
    | apply (Hcmp false is_gt false Hv) | apply (Hcmp true is_gt true Hv)].
Qed.

Lemma binop_int_value o i j x y : is_comparison o = false ->
  binop_value o (VInt i x) (VInt j y) =
  if bool_decide (i = j) && bool_decide (int_in i x) && bool_decide (int_in i y) then
    match o with
    | BinOp.Add => int_arith i (x + y)
    | BinOp.Sub => int_arith i (x - y)
    | BinOp.Mul => int_arith i (x * y)
    | BinOp.Rem | BinOp.RemUn => int_rem o i x y
    | _ => None
    end
  else None.
Proof. by destruct o, i. Qed.

(** A binary operation, on the cells of its operands. *)
Lemma binop_cell o a b v ca cb :
  binop_value o a b = Some v -> held a ca -> held b cb ->
  exists c, held v c /\ binary (binop_opcode o) ca cb = Some c.
Proof.
  intros Hv Ha Hb.
  destruct (is_comparison o) eqn:Ho.
  { apply (comparison_cell o a b); [done| |done..]. by destruct o. }
  destruct Ha as [Hva Hca], Hb as [Hvb Hcb].
  destruct a as [i x|x|f x|p|p], b as [j y|y|g y|q|q]; try discriminate Hca; try discriminate Hcb;
    try (destruct o; discriminate); try (destruct o, i; discriminate); try (destruct o, j; discriminate).
  - rewrite binop_int_value in Hv by done. case_match eqn:Hall; [|done].
    apply andb_true_iff in Hall as [[->%bool_decide_eq_true Hx%bool_decide_eq_true]%andb_true_iff Hy%bool_decide_eq_true].
    rewrite slot_of_int in Hca, Hcb. destruct (int_cell j) as [mk|] eqn:Hmk; [|done].
    injection Hca as <-. injection Hcb as <-.
    destruct o; try discriminate Ho; try discriminate Hv; first [by eapply rem_ok; eauto | by eapply arith_ok; eauto].
  - assert (Hv' : int_cell i = Some SNative /\ o = BinOp.Add /\ add_address q x = Some v)
      by (destruct o, i; first [discriminate|by repeat split]).
    destruct Hv' as (Hi & -> & Hadd). rewrite slot_of_int, Hi in Hca. injection Hca as <-. injection Hcb as <-.
    destruct Hva as [Hx _]. rewrite slot_width_native by done.
    apply (move_ok q x); [by eapply offset_zero|apply offset_bits|done].
  - assert (Hv' : int_cell j = Some SNative /\
      (o = BinOp.Add /\ add_address p y = Some v \/ o = BinOp.Sub /\ add_address p (- y) = Some v))
      by (destruct o, j; first [discriminate|split; [done|]; first [by left|by right]]).
    destruct Hv' as (Hj & Hadd). rewrite slot_of_int, Hj in Hcb. injection Hca as <-. injection Hcb as <-.
    destruct Hvb as [Hy _]. rewrite slot_width_native by done. destruct Hadd as [[-> Hadd]|[-> Hadd]].
    + apply (move_ok p y); [by eapply offset_zero|apply offset_bits|done].
    + apply (move_ok p (- y)); [|apply offset_neg_bits|done].
      pose proof (offset_zero j y Hy Hj). lia.
Qed.


(** ** Instructions *)

(** Instructions without an operand, by their opcode. *)
Definition plain (lo hi : Z) (i : Instr) : Prop := operand i = NoOperand /\ lo <= opcode i <= hi.

Lemma index_of_none compact short wide i :
  (forall c, compact = Some c -> operand i = NoOperand -> between c (c + 3) (opcode i) = false) ->
  (operand i = NoOperand \/ ldc i <> None) -> index_of compact short wide i = None.
Proof.
  destruct i as [o x]. unfold index_of, ldc. cbn [opcode operand]. intros Hc Hx.
  destruct x; try done; try (by destruct Hx).
  destruct compact as [c|]; cbn [mbind option_bind]; [|done]. by rewrite Hc.
Qed.

Lemma ldc_opcode i c : ldc i = Some c -> 0x15 <= opcode i <= 0x23.
Proof.
  destruct i as [o x]. unfold ldc. cbn [opcode operand].
  destruct x; try done; try (case_match eqn:H; [|done]; intros _; try apply between_iff in H; lia).
Qed.

Lemma is_binary_range o : is_binary o = true -> 0x58 <= o <= 0x5E \/ 0xFE01 <= o <= 0xFE05.
Proof. unfold is_binary. rewrite !orb_true_iff, !between_iff. lia. Qed.

Lemma not_binary o : (o < 0x58 \/ 0x5E < o < 0xFE01 \/ 0xFE05 < o) -> is_binary o = false.
Proof. intros Ho. apply not_true_is_false. intros H%is_binary_range. lia. Qed.

Lemma not_convert o : (o < 0x67 \/ 0x6E < o < 0xD1 \/ 0xD3 < o < 0xE0 \/ 0xE0 < o) -> is_convert o = false.
Proof.
  intros Ho. apply not_true_is_false. unfold is_convert. rewrite !orb_true_iff, !between_iff, Z.eqb_eq. lia.
Qed.

Lemma not_nop i : opcode i <> 0 -> bool_decide (i = op 0) = false.
Proof. intros Hi. apply bool_decide_eq_false. by intros ->. Qed.

Lemma not_between lo hi o : ~ (lo <= o <= hi) -> between lo hi o = false.
Proof. intros Ho. apply not_true_is_false. by rewrite between_iff. Qed.

Section frame.
Context (fr : Frame).

Lemma pushed_plain i : operand i = NoOperand \/ ldc i <> None -> 0x0A <= opcode i -> pushed fr i = ldc i.
Proof.
  intros Hx Ho. unfold pushed.
  rewrite !index_of_none; try exact Hx; try (intros c [=]; fail); [done|intros c [= <-] _; apply not_between; lia..].
Qed.

Lemma exec_ldc i c st : ldc i = Some c -> exec_instr fr i st = Some (c :: st).
Proof.
  intros Hi. pose proof (ldc_opcode _ _ Hi). unfold exec_instr.
  rewrite not_nop, not_binary, not_convert, pushed_plain by (try rewrite Hi; try lia; by right). by rewrite Hi.
Qed.

Lemma convert_opcode o s c : convert o s = Some c -> is_convert o = true.
Proof.
  unfold convert, conv. destruct s; cbn [int_slot mbind option_bind]; try done; cbv zeta;
    repeat (case Z.eqb_spec; [by intros ->|intros _]); done.
Qed.

Lemma exec_convert o s c st : convert o s = Some c -> exec fr [op o] (s :: st) = Some (c :: st).
Proof.
  intros Hc. pose proof (convert_opcode _ _ _ Hc) as Ho. pose proof Ho as Hr.
  unfold is_convert in Hr. rewrite !orb_true_iff, !between_iff, Z.eqb_eq in Hr.
  cbn [exec]. unfold exec_instr.
  rewrite not_nop, not_binary by (cbn [op opcode]; lia). cbn [opcode op]. by rewrite Ho, Hc.
Qed.

Lemma conv_convert o s c : conv o s = Some c -> convert o s = Some c.
Proof. by destruct s. Qed.

(** A constant, loaded. *)
Lemma exec_load l c st : load l = Some c -> exec fr l st = Some (c :: st).
Proof.
  destruct l as [|i [|j [|]]]; cbn [load]; try done.
  - intros Hi. cbn [exec]. by rewrite (exec_ldc _ _ _ Hi).
  - case_bool_decide as Hj; [|done]. intros (s & Hi & Hc)%bind_Some. cbn [exec]. rewrite (exec_ldc _ _ _ Hi).
    cbn [mbind option_bind]. destruct j as [o x]. cbn [operand opcode] in *. subst x.
    by apply exec_convert, conv_convert.
Qed.

Lemma exec_binary o a b c st :
  binary (binop_opcode o) a b = Some c -> exec fr [op (binop_opcode o)] (b :: a :: st) = Some (c :: st).
Proof.
  intros Hc. cbn [exec]. unfold exec_instr. rewrite not_nop by (by destruct o). cbn [opcode op].
  assert (is_binary (binop_opcode o) = true) as -> by (destruct o; try done; by destruct a, b).
  by rewrite Hc.
Qed.

(** *** Locals and arguments *)

Lemma index_of_inv compact short wide i n :
  index_of compact short wide i = Some n ->
  (exists c k, compact = Some c /\ i = op (c + k) /\ n = k /\ (k = 0 \/ k = 1 \/ k = 2 \/ k = 3)) \/
  i = mk_Instr short (U8 n) \/ i = mk_Instr (0xFE00 + wide) (U16 n).
Proof.
  destruct i as [o x]. unfold index_of. cbn [opcode operand]. destruct x; try done.
  - destruct compact as [c|]; cbn [mbind option_bind]; [|done].
    destruct (between _ _ _) eqn:Hb; [|done]. apply between_iff in Hb. intros [= <-]. left.
    exists c, (o - c). split_and!; [done|unfold op; f_equal; lia|done|lia].
  - destruct (Z.eqb_spec o short) as [->|]; [|done]. intros [= <-]. auto.
  - destruct (Z.eqb_spec o (0xFE00 + wide)) as [->|]; [|done]. intros [= <-]. auto.
Qed.

(** The forms of one load, and the [nop]s after the wide one. *)
Lemma exec_indexed compact short wide n l c st :
  (compact, short, wide, c) ∈
    [(Some 0x06, 0x11, 0x0C, f_local fr n); (Some 0x02, 0x0E, 0x09, f_arg fr n);
     (None, 0x12, 0x0D, Some (SAddr (ALocal n))); (None, 0x0F, 0x0A, Some (SAddr (AArg n)))] ->
  indexed compact short wide n l -> exec fr l st = (fun c => c :: st) <$> c.
Proof.
  intros Hin (i & Hi & Hl).
  assert (Hexec : forall rest, exec fr (i :: rest) st = st' ← (fun c => c :: st) <$> c; exec fr rest st').
  { intros rest. apply index_of_inv in Hi.
    repeat (apply elem_of_cons in Hin as [Hin|Hin]; [injection Hin as -> -> -> ->|]); [..|by apply elem_of_nil in Hin].
    all: destruct Hi as [(c & k & [=] & Hop & -> & Hk)|[-> | ->]]; subst;
      try (destruct Hk as [->|[->|[->| ->]]]); cbn [exec]; f_equal;
      unfold exec_instr, pushed; cbn; reflexivity. }
  destruct Hl as [-> | ->]; rewrite Hexec; by destruct c.
Qed.
End frame.
