(* ===== verification/BodyEval.v ===== *)
(** * What emitted expressions compute

    The code of arithmetic expressions, run on the cells of the evaluation stack, computes the cell
    of the value the expression denotes. *)

From S2P Require Import Prelude Interner Types Class IR Arenas Walk MapTheory Assign Block BlockTheory Method Opt.
From S2P Require Import OptSem Layout Heaps Signature SigTheory Cil CilSem Body BodySpec CilEval BodyTables BodyTheory BodyEmit.
Local Open Scope Z_scope.

(** ** Expressions *)

(** Trees of constants, locals, arguments, casts and arithmetic. *)
Inductive simple (asm : Assembly) : CILNode.t -> Prop :=
| simple_const c : const_slot c <> None -> simple asm (CILNode.Const c)
| simple_loc n : simple asm (CILNode.LdLoc n)
| simple_arg n : simple asm (CILNode.LdArg n)
| simple_loc_address n : simple asm (CILNode.LdLocA n)
| simple_arg_address n : simple asm (CILNode.LdArgA n)
| simple_ref_to_ptr a x : nodes asm !! slot a = Some x -> simple asm x -> simple asm (CILNode.RefToPtr a)
| simple_cast a x target extend : nodes asm !! slot a = Some x -> simple asm x ->
    canonical_cast target extend -> simple asm (CILNode.IntCast a target extend)
| simple_binop a b o x y : nodes asm !! slot a = Some x -> simple asm x ->
    nodes asm !! slot b = Some y -> simple asm y -> simple asm (CILNode.BinOp a b o).

(** The frame holds the values of the environment. *)
Definition frame_holds (env : Env) (fr : Frame) : Prop :=
  (forall n v, e_local env n = Some v -> exists c, f_local fr n = Some c /\ held v c) /\
  (forall n v, e_arg env n = Some v -> exists c, f_arg fr n = Some c /\ held v c).

Lemma const_held c v : const_value c = Some v -> slot_of v <> None -> value_ok v.
Proof.
  intros Hv Hs. unfold value_ok. destruct v as [i z| | | |]; try done. split; [|done].
  unfold const_value in Hv.
  destruct c; cbn in Hv; try done; case_bool_decide; by simplify_eq.
Qed.

Section eval.
Context {T : Type} `{TokenSinkLaws T}.
Context (fin : Assembly) (t : T) (sfuel : nat) (env : Env) (fr : Frame) (Hfr : frame_holds env fr).

(** The code pushes the cell of the value. *)
Definition computes (l : list Instr) (v : value) : Prop :=
  exists c, held v c /\ forall st, exec fr l st = Some (c :: st).

Lemma leaf_code n l : node_code fin t sfuel n l -> eval_operands n = [] -> own_code fin t sfuel n l.
Proof.
  destruct 1 as [n kids codes own Hk Hc Ho]. intros Hops. rewrite Hops in Hk.
  inversion Hk. subst. by inversion Hc; subst.
Qed.

Lemma unary_code n l a x : node_code fin t sfuel n l -> eval_operands n = [a] -> nodes fin !! slot a = Some x ->
  exists l1 own, node_code fin t sfuel x l1 /\ own_code fin t sfuel n own /\ l = l1 ++ own.
Proof.
  destruct 1 as [n kids codes own Hk Hc Ho]. intros Hops Hx. rewrite Hops in Hk.
  apply Forall2_cons_inv_l in Hk as (x' & k' & Hx' & ->%Forall2_nil_inv_l & ->). simplify_eq.
  apply Forall2_cons_inv_l in Hc as (l1 & k' & Hl1 & ->%Forall2_nil_inv_l & ->).
  exists l1, own. split_and!; [done..|]. cbn. by rewrite app_nil_r.
Qed.

Lemma binary_code n l a b x y :
  node_code fin t sfuel n l -> eval_operands n = [a; b] ->
  nodes fin !! slot a = Some x -> nodes fin !! slot b = Some y ->
  exists l1 l2 own, node_code fin t sfuel x l1 /\ node_code fin t sfuel y l2 /\
    own_code fin t sfuel n own /\ l = l1 ++ l2 ++ own.
Proof.
  destruct 1 as [n kids codes own Hk Hc Ho]. intros Hops Hx Hy. rewrite Hops in Hk.
  apply Forall2_cons_inv_l in Hk as (x' & k' & Hx' & (y' & k'' & Hy' & ->%Forall2_nil_inv_l & ->)%Forall2_cons_inv_l & ->). simplify_eq.
  apply Forall2_cons_inv_l in Hc as (l1 & k' & Hl1 & (l2 & k'' & Hl2 & ->%Forall2_nil_inv_l & ->)%Forall2_cons_inv_l & ->).
  exists l1, l2, own. split_and!; [done..|]. cbn. by rewrite app_nil_r, <- app_assoc.
Qed.

Lemma const_code_load c l : const_code fin t c l -> const_slot c <> None -> CilSem.load l = const_slot c.
Proof.
  intros Hl Hc. destruct c; try apply Hl; exfalso; apply Hc; unfold const_slot, const_value; try done;
    cbn [int_const mbind option_bind]; by case_bool_decide.
Qed.

Lemma indexed_computes compact short wide n l c v :
  (compact, short, wide, c) ∈
    [(Some 0x06, 0x11, 0x0C, f_local fr n); (Some 0x02, 0x0E, 0x09, f_arg fr n);
     (None, 0x12, 0x0D, Some (SAddr (ALocal n))); (None, 0x0F, 0x0A, Some (SAddr (AArg n)))] ->
  indexed compact short wide n l -> (exists c', c = Some c' /\ held v c') -> computes l v.
Proof.
  intros Hin Hl (c' & -> & Hc). exists c'. split; [done|]. intros st. by rewrite (exec_indexed _ _ _ _ _ _ _ _ Hin Hl).
Qed.

Lemma node_computes n : simple fin n -> forall k l v,
  node_code fin t sfuel n l -> denote (alg env) k fin n = Some v -> computes l v.
Proof.
  destruct Hfr as [Hlocal Harg].
  induction 1 as [c Hc|n|n|n|n|a x Ha Hx IHx|a x target extend Ha Hx IHx Hcan|a b o x y Ha Hx IHx Hb Hy IHy];
    intros [|k] l v Hl; try done; rewrite denote_S;
    cbn [CILNode.operands CILNode.visit_child_nodes mapM mbind option_bind skeleton mret option_ret alg].
  - intros Hv. apply leaf_code in Hl; [|done]. 
    assert (Hld : CilSem.load l = const_slot c) by (by eapply const_code_load).
    unfold const_slot in Hc, Hld. rewrite Hv in Hc, Hld. cbn in Hc, Hld. destruct (slot_of v) as [s|] eqn:Hs; [|done].
    exists s. split; [split; [by eapply const_held; [exact Hv|rewrite Hs]|done]|]. intros st. by apply exec_load.
  - intros Hv. apply leaf_code in Hl; [|done]. eapply indexed_computes; [|exact Hl|by apply Hlocal]. set_solver.
  - intros Hv. apply leaf_code in Hl; [|done]. eapply indexed_computes; [|exact Hl|by apply Harg]. set_solver.
  - intros [= <-]. apply leaf_code in Hl; [|done]. eapply indexed_computes; [|exact Hl|by eexists]. set_solver.
  - intros [= <-]. apply leaf_code in Hl; [|done]. eapply indexed_computes; [|exact Hl|by eexists]. set_solver.
  - intros Hv. apply unary_code with (a := a) (x := x) in Hl as (l1 & own & Hl1 & -> & ->); [|done..].
    unfold denote_id in Hv. rewrite Ha in Hv. apply bind_Some in Hv as (vs & (w & Hw & [= <-])%bind_Some & Hv).
    destruct (IHx _ _ _ Hl1 Hw) as (c & Hc & Hrun). destruct w as [| | |p|]; try done. injection Hv as <-.
    destruct Hc as [? [= <-]]. exists (SAddr p). split; [done|]. intros st. rewrite (exec_app _ _ _ _ _ (Hrun st)).
    by apply exec_convert.
  - intros Hv. apply unary_code with (a := a) (x := x) in Hl as (l1 & own & Hl1 & (o & Ho & ->) & ->); [|done..].
    unfold denote_id in Hv. rewrite Ha in Hv. apply bind_Some in Hv as (vs & (w & Hw & [= <-])%bind_Some & Hv).
    destruct (IHx _ _ _ Hl1 Hw) as (c & Hc & Hrun). destruct w as [i z| | | |]; try done.
    case_bool_decide; [|done]. injection Hv as <-. destruct (cast_cell _ _ _ _ _ _ Hcan Ho Hc) as (c' & Hc' & Hconv).
    exists c'. split; [done|]. intros st. rewrite (exec_app _ _ _ _ _ (Hrun st)). by apply exec_convert, conv_convert.
  - intros Hv. apply binary_code with (a := a) (b := b) (x := x) (y := y) in Hl as (l1 & l2 & own & Hl1 & Hl2 & -> & ->); [|done..].
    unfold denote_id in Hv. rewrite Ha, Hb in Hv.
    apply bind_Some in Hv as (vs & (w1 & Hw1 & (ws & (w2 & Hw2 & [= <-])%bind_Some & [= <-])%bind_Some)%bind_Some & Hv).
    destruct (IHx _ _ _ Hl1 Hw1) as (c1 & Hc1 & Hrun1). destruct (IHy _ _ _ Hl2 Hw2) as (c2 & Hc2 & Hrun2).
    destruct (binop_cell _ _ _ _ _ _ Hv Hc1 Hc2) as (c & Hc & Hbin). exists c. split; [done|]. intros st.
    rewrite (exec_app _ _ _ _ _ (Hrun1 st)), (exec_app _ _ _ _ _ (Hrun2 _)). by apply exec_binary.
Qed.
End eval.

Lemma simple_prefix asm asm' n : nodes asm `prefix_of` nodes asm' -> simple asm n -> simple asm' n.
Proof.
  intros Hp. induction 1;
    [by apply simple_const|apply simple_loc|apply simple_arg|apply simple_loc_address|apply simple_arg_address|eapply simple_ref_to_ptr|eapply simple_cast|eapply simple_binop];
    eauto using prefix_lookup_Some.
Qed.


(** ** A sample *)

(** [(arg300 as u64) * 3 < local1]. *)
Definition expression_sample : Assembly :=
  set_nodes empty_assembly
    [CILNode.LdArg 300; CILNode.IntCast 1%positive Int.U64 ExtendKind.ZeroExtend;
     CILNode.Const (Const.U64 3); CILNode.BinOp 2%positive 3%positive BinOp.Mul;
     CILNode.LdLoc 1; CILNode.BinOp 4%positive 5%positive BinOp.LtUn].

Definition sample_env : Env :=
  mk_Env (fun n => if n =? 1 then Some (VInt Int.U64 (2 ^ 33)) else None)
    (fun n => if n =? 300 then Some (VInt Int.U32 (2 ^ 32 - 1)) else None)
    (fun _ => None) (fun _ _ => None) (fun _ => None) (fun _ => false) (fun _ _ => None) (fun _ _ => None).

Definition sample_frame : Frame :=
  mk_Frame (fun n => if n =? 1 then Some (S64 (2 ^ 33)) else None)
    (fun n => if n =? 300 then Some (S32 (2 ^ 32 - 1)) else None).

Lemma sample_frame_holds : frame_holds sample_env sample_frame.
Proof.
  split; intros n v Hn; cbn in Hn; (case_match eqn:Hk; [|done]); apply Z.eqb_eq in Hk as ->;
    injection Hn as <-; eexists; (split; [reflexivity|]); by vm_compute.
Qed.

Definition expression_end : Emitter rows :=
  fst (emit_node (E := unit) 5 5 5 6%positive (new_emitter expression_sample [])).

Lemma expression_ok asm : nodes asm = nodes expression_sample -> roots asm = [] -> body_ok asm.
Proof.
  intros Hn Hr. apply body_ok_alt; rewrite ?Hn, ?Hr; repeat constructor; cbn; unfold int_in; cbn; done.
Qed.

Lemma expression_simple n : nodes expression_sample !! 5%nat = Some n -> simple expression_sample n.
Proof.
  intros [= <-]. eapply simple_binop; [reflexivity| |reflexivity|apply simple_loc].
  eapply simple_binop; [reflexivity| |reflexivity|by apply simple_const].
  eapply simple_cast; [reflexivity|apply simple_arg|left; cbn; lia].
Qed.

