(* ===== verification/BodyLabels.v ===== *)
(** * Labels, branches and exception clauses of emitted code

    Code laid out as labelled items: where its labels are, what patching the branch operands makes
    of it, and the ranges of its exception clauses, the inner ones first. *)

From S2P Require Import Prelude Interner Types IR Arenas Walk Assign Block Method Opt Layout Heaps.
From S2P Require Import Signature SigTheory Cil OptSem CilSem Body BodySpec.
From stdpp Require Import sorting.
Local Open Scope Z_scope.

(** ** Layout *)

Lemma items_bytes_app a b : items_bytes (a ++ b) = items_bytes a ++ items_bytes b.
Proof. unfold items_bytes. by rewrite map_app, concat_app. Qed.

Lemma items_bytes_cons i l : items_bytes (i :: l) = item_bytes i ++ items_bytes l.
Proof. done. Qed.

Lemma items_bytes_instrs l : items_bytes (map IInstr l) = encode_all l.
Proof. unfold items_bytes, encode_all. by rewrite map_map. Qed.

Lemma items_labels_app p a b m :
  items_labels p (a ++ b) m = items_labels (p + length (items_bytes a)) b (items_labels p a m).
Proof.
  revert p m. induction a as [|i a IH]; intros p m; cbn [app items_labels].
  - by rewrite Nat.add_0_r.
  - rewrite IH, items_bytes_cons, length_app. f_equal. lia.
Qed.

Lemma items_fixups_app p a b :
  items_fixups p (a ++ b) = items_fixups p a ++ items_fixups (p + length (items_bytes a)) b.
Proof.
  revert p. induction a as [|i a IH]; intros p; cbn [app items_fixups].
  - by rewrite Nat.add_0_r.
  - rewrite IH, items_bytes_cons, length_app, <- app_assoc. do 3 f_equal. lia.
Qed.

Lemma items_labels_instrs p l m : items_labels p (map IInstr l) m = m.
Proof. revert p. induction l as [|i l IH]; intros p; cbn; [done|apply IH]. Qed.

Lemma items_fixups_instrs p l : items_fixups p (map IInstr l) = [].
Proof. revert p. induction l as [|i l IH]; intros p; cbn; [done|apply IH]. Qed.

(** The labels items define, in order. *)
Definition labels_of (l : list Item) : list Label.t :=
  omap (fun i => match i with ILabel l => Some l | _ => None end) l.

Lemma labels_of_app a b : labels_of (a ++ b) = labels_of a ++ labels_of b.
Proof. apply omap_app. Qed.

Lemma labels_of_instrs l : labels_of (map IInstr l) = [].
Proof. by induction l. Qed.

Lemma items_labels_other p l label m : label ∉ labels_of l -> items_labels p l m !! label = m !! label.
Proof.
  revert p m. induction l as [|i l IH]; intros p m Hl; cbn [items_labels]; [done|].
  destruct i; cbn [labels_of omap list_omap] in Hl; rewrite IH; try done; [|set_solver].
  apply lookup_insert_ne. set_solver.
Qed.

(** A label stands where it is last defined. *)
Lemma items_labels_last p a label b m :
  label ∉ labels_of b ->
  items_labels p (a ++ ILabel label :: b) m !! label = Some (Z.of_nat (p + length (items_bytes a))).
Proof.
  intros Hb. rewrite items_labels_app. cbn [items_labels]. rewrite items_labels_other by done.
  by rewrite lookup_insert_eq.
Qed.

#[export] Instance Item_eq_dec : EqDecision Item.
Proof. solve_decision. Defined.

Lemma elem_of_labels_of label l : label ∈ labels_of l <-> ILabel label ∈ l.
Proof.
  unfold labels_of. rewrite list_elem_of_omap. split.
  - intros ([]& ? & Hi); by simplify_eq.
  - intros ?. by exists (ILabel label).
Qed.

(** A position comes from the last definition. *)
Lemma items_labels_inv p l label q : items_labels p l ∅ !! label = Some q ->
  exists a b, l = a ++ ILabel label :: b /\ label ∉ labels_of b.
Proof.
  intros Hq. destruct (decide (label ∈ labels_of l)) as [Hl|Hl].
  - apply elem_of_labels_of in Hl. apply list_elem_of_split_r in Hl as (a & b & -> & Hb).
    exists a, b. by rewrite elem_of_labels_of.
  - by rewrite items_labels_other, lookup_empty in Hq.
Qed.

(** ** Patched code *)

Definition item_ok (i : Item) : Prop :=
  match i with
  | IInstr i => instr_ok i
  | ILabel _ => True
  | IBranch opcode _ => shape_of opcode = Some ShRel
  end.

(** The instructions of items at [pos] with the distances the labels give. *)
Definition resolved_item (labels : gmap Label.t Z) (pos : nat) (i : Item) : option (list Instr) :=
  match i with
  | IInstr i => Some [i]
  | ILabel _ => Some []
  | IBranch opcode label =>
      p ← labels !! label; Some [mk_Instr opcode (Rel (p - Z.of_nat (pos + 5)))]
  end.

Fixpoint resolved (labels : gmap Label.t Z) (pos : nat) (l : list Item) : option (list Instr) :=
  match l with
  | [] => Some []
  | i :: l =>
      is_ ← resolved_item labels pos i;
      rest ← resolved labels (pos + length (item_bytes i)) l;
      Some (is_ ++ rest)
  end.

Lemma branch_opcode_byte o : shape_of o = Some ShRel -> o < 256.
Proof.
  intros Hs. destruct (shape_of_range _ _ Hs) as [[? ?]|Hr]; [lia|]. exfalso. revert Hs. unfold shape_of.
  repeat case_match; try done; rewrite ?between_iff, ?Z.eqb_eq in *; lia.
Qed.

Lemma branch_bytes o r : shape_of o = Some ShRel -> encode (mk_Instr o (Rel r)) = o :: le_bytes 4 r.
Proof.
  intros Hs%branch_opcode_byte. unfold encode, opcode_bytes. cbn [opcode operand operand_bytes].
  by destruct (Z.ltb_spec o 256); [|lia].
Qed.

Lemma resolved_item_length labels pos i is_ :
  item_ok i -> resolved_item labels pos i = Some is_ -> length (encode_all is_) = length (item_bytes i).
Proof.
  destruct i as [i|l|o l]; cbn [resolved_item item_bytes]; intros Hi Hr.
  - injection Hr as <-. unfold encode_all. cbn. by rewrite app_nil_r.
  - by injection Hr as <-.
  - destruct (labels !! l); [|done]. injection Hr as <-. unfold encode_all. cbn [map concat].
    rewrite app_nil_r, !branch_bytes by done. cbn [length]. by rewrite !length_le_bytes.
Qed.

Lemma resolved_length labels pos l is_ :
  Forall item_ok l -> resolved labels pos l = Some is_ -> length (encode_all is_) = length (items_bytes l).
Proof.
  intros Hl. revert pos is_. induction Hl as [|i l Hi Hl IH]; intros pos is_; cbn [resolved]; [by intros [= <-]|].
  intros (is1 & H1 & (rest & H2 & [= <-])%bind_Some)%bind_Some.
  rewrite encode_all_app, items_bytes_cons, !length_app, (IH _ _ H2). f_equal. by eapply resolved_item_length.
Qed.

Lemma resolved_app labels pos a b is_ : resolved labels pos (a ++ b) = Some is_ ->
  exists is1 is2 : list Instr, resolved labels pos a = Some is1 /\ resolved labels (pos + length (items_bytes a)) b = Some is2 /\ is_ = is1 ++ is2.
Proof.
  revert pos is_. induction a as [|i a IH]; intros pos is_; cbn [app resolved].
  - intros Hr. exists [], is_. by rewrite Nat.add_0_r.
  - intros (is1 & -> & (rest & (is2 & is3 & H2 & H3 & ->)%IH & [= <-])%bind_Some)%bind_Some.
    cbn [mbind option_bind]. rewrite H2. cbn [mbind option_bind]. exists (is1 ++ is2), is3.
    split_and!; [done| |by rewrite app_assoc]. rewrite items_bytes_cons, length_app, Nat.add_assoc. done.
Qed.

(** Instructions among items; labels take no room. *)
Definition instr_count (l : list Item) : nat :=
  length (omap (fun i => match i with ILabel _ => None | _ => Some tt end) l).

Lemma resolved_count labels pos l is_ : resolved labels pos l = Some is_ -> length is_ = instr_count l.
Proof.
  revert pos is_. induction l as [|i l IH]; intros pos is_; cbn [resolved]; [by intros [= <-]|].
  intros (is1 & H1 & (rest & H2%IH & [= <-])%bind_Some)%bind_Some. rewrite length_app, H2.
  destruct i as [| |o l']; cbn in H1; try (by injection H1 as <-).
  by apply bind_Some in H1 as (p & _ & [= <-]).
Qed.

(** The branch at index [k] of a stream goes to the instruction at index [j]. *)
Definition lands (is_ : list Instr) (k j : nat) : Prop :=
  exists o rel, is_ !! k = Some (mk_Instr o (Rel rel)) /\
    Z.of_nat (length (encode_all (take (S k) is_))) + rel = Z.of_nat (length (encode_all (take j is_))).

Lemma take_count labels a b is_ : resolved labels 0 (a ++ b) = Some is_ -> Forall item_ok (a ++ b) ->
  length (encode_all (take (instr_count a) is_)) = length (items_bytes a).
Proof.
  intros (is1 & is2 & H1 & H2 & ->)%resolved_app [Ha _]%Forall_app.
  rewrite <- (resolved_count _ _ _ _ H1), take_app_length. by eapply resolved_length.
Qed.

Lemma resolved_instr labels a i b is_ :
  resolved labels 0 (a ++ IInstr i :: b) = Some is_ -> is_ !! instr_count a = Some i.
Proof.
  intros (is1 & is2 & H1 & H2 & ->)%resolved_app. cbn [resolved resolved_item mbind option_bind] in H2.
  apply bind_Some in H2 as (rest & _ & [= <-]). rewrite <- (resolved_count _ _ _ _ H1).
  by rewrite lookup_app_r, Nat.sub_diag.
Qed.

Lemma resolved_branch labels pos a o label b is_ :
  resolved labels pos (a ++ IBranch o label :: b) = Some is_ -> exists q, labels !! label = Some q.
Proof.
  intros (is1 & is2 & _ & H2 & _)%resolved_app. cbn [resolved resolved_item] in H2.
  apply bind_Some in H2 as (is3 & (q & Hq & _)%bind_Some & _). by exists q.
Qed.

(** A branch lands where its label is last defined. *)
Lemma resolved_lands items is_ a o label b a' b' :
  Forall item_ok items -> resolved (items_labels 0 items ∅) 0 items = Some is_ ->
  items = a ++ IBranch o label :: b -> items = a' ++ ILabel label :: b' -> label ∉ labels_of b' ->
  lands is_ (instr_count a) (instr_count a').
Proof.
  intros Hok Hr Ha Ha' Hb'.
  assert (Hp : items_labels 0 items ∅ !! label = Some (Z.of_nat (length (items_bytes a')))).
  { rewrite Ha'. by rewrite items_labels_last. }
  set (m := items_labels 0 items ∅) in *.
  assert (Hpos : length (encode_all (take (instr_count a') is_)) = length (items_bytes a')).
  { apply (take_count m _ (ILabel label :: b')); by rewrite <- Ha'. }
  pose proof Hr as Hr'. rewrite Ha in Hr'. destruct (resolved_app _ _ _ _ _ Hr') as (is1 & is2 & H1 & H2 & ->).
  cbn [resolved resolved_item] in H2. rewrite Hp in H2. cbn [mbind option_bind] in H2.
  apply bind_Some in H2 as (rest & _ & [= <-]). rewrite Ha in Hok. apply Forall_app in Hok as [Hoka Hokb].
  apply Forall_cons_1 in Hokb as [Ho _]. cbn in Ho. rewrite <- (resolved_count _ _ _ _ H1).
  eexists o, _. split; [by rewrite lookup_app_r, Nat.sub_diag|].
  rewrite Hpos. rewrite take_app, take_ge by lia. replace (S (length is1) - length is1)%nat with 1%nat by lia.
  cbn [take app]. rewrite encode_all_app, length_app, (resolved_length _ _ _ _ Hoka H1).
  unfold encode_all. cbn [map concat]. rewrite app_nil_r, branch_bytes by done. cbn [length].
  rewrite length_le_bytes. cbn [app] in *. lia.
Qed.

(** *** The second pass *)

Section patching.
Context {T E : Type}.
Local Notation M := (ST (Emitter T) E).

Lemma overwrite_at pre bs bs' rest : length bs = length bs' ->
  overwrite (length pre) bs' (pre ++ bs ++ rest) = pre ++ bs' ++ rest.
Proof.
  intros Hl. unfold overwrite. rewrite take_app_length. f_equal. f_equal.
  rewrite drop_app. rewrite (drop_ge pre) by lia. cbn [app].
  replace (length pre + length bs' - length pre)%nat with (length bs) by lia. by rewrite drop_app_length.
Qed.

Lemma set_out_same (s : Emitter T) : set_out s (em_out s) = s.
Proof. by destruct s. Qed.

Lemma set_out_twice (s : Emitter T) a b : set_out (set_out s a) b = set_out s b.
Proof. done. Qed.

(** One operand: the label's distance from the end of its instruction. *)
Lemma patch_branch_ok (s s' : Emitter T) pre o label rest :
  shape_of o = Some ShRel -> em_out s = pre ++ encode (mk_Instr o (Rel 0)) ++ rest ->
  patch_branch (E := E) (Z.of_nat (length pre + 1), label) s = (s', Ok tt) ->
  exists p, label_offsets s !! label = Some p /\ in_s 32 (p - Z.of_nat (length pre + 5)) /\
    s' = set_out s (pre ++ encode (mk_Instr o (Rel (p - Z.of_nat (length pre + 5)))) ++ rest).
Proof.
  intros Ho Hout. unfold patch_branch. intros (s1 & p & H1 & H2)%st_bind_ok.
  injection H1 as <- Hp. unfold resolve_label in Hp.
  destruct (label_offsets s !! label) as [q|] eqn:Hq; [injection Hp as <-|done].
  apply st_bind_ok in H2 as (s2 & rel & H2 & H3). injection H2 as <- Hrel.
  unfold expect_i32 in Hrel. case_match eqn:Hrng; [injection Hrel as <-|done].
  apply andb_true_iff in Hrng as [?%Z.leb_le ?%Z.ltb_lt]. injection H3 as <-.
  replace (q - (Z.of_nat (length pre + 1) + 4)) with (q - Z.of_nat (length pre + 5)) in * by lia.
  exists q. split_and!; [done|split; [|done]; by change (- 2 ^ (32 - 1)) with (- 2 ^ 31)|]. f_equal.
  rewrite Hout, !branch_bytes by done. rewrite Nat2Z.id. cbn [app].
  rewrite !(cons_middle o), !app_assoc. replace (length pre + 1)%nat with (length (pre ++ [o])) by (rewrite length_app; cbn; lia).
  rewrite <- !(app_assoc (pre ++ [o])). apply overwrite_at. by rewrite !length_le_bytes.
Qed.

Lemma patch_all l : forall (s s' : Emitter T) pre rest,
  Forall item_ok l -> em_out s = pre ++ items_bytes l ++ rest ->
  for_each (patch_branch (E := E)) (items_fixups (length pre) l) s = (s', Ok tt) ->
  exists is_, resolved (label_offsets s) (length pre) l = Some is_ /\ Forall instr_ok is_ /\
    s' = set_out s (pre ++ encode_all is_ ++ rest).
Proof.
  induction l as [|i l IH]; intros s s' pre rest Hok Hout Hr.
  - injection Hr as <-. exists []. split_and!; [done..|].
    change (encode_all [] ++ rest) with (items_bytes [] ++ rest). rewrite <- Hout. by rewrite set_out_same.
  - apply Forall_cons_1 in Hok as [Hi Hl]. rewrite items_bytes_cons, <- app_assoc in Hout.
    enough (exists is1 s1, resolved_item (label_offsets s) (length pre) i = Some is1 /\ Forall instr_ok is1 /\
      s1 = set_out s (pre ++ encode_all is1 ++ items_bytes l ++ rest) /\
      for_each (patch_branch (E := E)) (items_fixups (length (pre ++ encode_all is1)) l) s1 = (s', Ok tt))
      as (is1 & s1 & H1 & Hok1 & -> & H2).
    { set (s1 := set_out s _) in H2.
      assert (Hout1 : em_out s1 = (pre ++ encode_all is1) ++ items_bytes l ++ rest) by (cbn; by rewrite <- !app_assoc).
      destruct (IH _ _ _ _ Hl Hout1 H2) as (is2 & H3 & Hok2 & ->).
      exists (is1 ++ is2). cbn [resolved]. rewrite H1. cbn [mbind option_bind].
      rewrite length_app, (resolved_item_length _ _ _ _ Hi H1) in H3. change (label_offsets s1) with (label_offsets s) in H3.
      rewrite H3. split_and!; [done|by apply Forall_app|]. unfold s1. rewrite set_out_twice, encode_all_app.
      by rewrite <- !app_assoc. }
    cbn [items_fixups] in Hr. destruct i as [i|lb|o lb]; cbn [item_bytes app] in *.
    + exists [i], s. rewrite length_app. unfold encode_all. cbn [map concat]. rewrite app_nil_r.
      split_and!; [done|by constructor| |done]. by rewrite <- Hout, set_out_same.
    + exists [], s. change (encode_all []) with (@nil Z). rewrite app_nil_r. cbn [app length] in *. rewrite Nat.add_0_r in Hr.
      split_and!; [done..| |done]. by rewrite <- Hout, set_out_same.
    + cbn [for_each] in Hr. apply st_bind_ok in Hr as (s1 & [] & Hp & Hr).
      destruct (patch_branch_ok _ _ _ _ _ _ Hi Hout Hp) as (p & Hp1 & Hp2 & ->).
      eexists [_], _. cbn [resolved_item]. rewrite Hp1. cbn [mbind option_bind]. unfold encode_all.
        cbn [map concat]. rewrite app_nil_r. split_and!; [done| |done|].
      * constructor; [by exists ShRel|constructor].
      * rewrite length_app. by rewrite !branch_bytes in * by done.
Qed.

(** Patching leaves the assembly and the tables. *)
Lemma patch_branches_frame (s s' : Emitter T) o : patch_branches (E := E) s = (s', o) ->
  em_asm s' = em_asm s /\ em_tokens s' = em_tokens s.
Proof.
  set (same := fun s s' : Emitter T => em_asm s' = em_asm s /\ em_tokens s' = em_tokens s).
  assert (PreOrder same) by (split; [by intros ?|intros ? ? ? [? ?] [? ?]; split; congruence]).
  assert (Hp : steps same (patch_branches (E := E))).
  { apply (steps_bind same); [by intros ?|]. intros s0. apply (steps_bind same); [by intros ?|]. intros _.
    apply (steps_for_each same). intros [off l]. repeat (apply (steps_bind same); [by intros ?|intros ?]). by intros ?. }
  intros Hr. specialize (Hp s). by rewrite Hr in Hp.
Qed.

(** The second pass turns the bytes of items into the code their labels make of them. *)
Lemma patch_branches_ok (s s' : Emitter T) l :
  Forall item_ok l -> em_out s = items_bytes l -> branch_fixups s = items_fixups 0 l ->
  patch_branches (E := E) s = (s', Ok tt) ->
  exists is_, resolved (label_offsets s) 0 l = Some is_ /\ Forall instr_ok is_ /\
    em_out s' = encode_all is_ /\ label_offsets s' = label_offsets s /\ clauses s' = clauses s /\
    sequence_points s' = sequence_points s.
Proof.
  intros Hok Hout Hfix. unfold patch_branches. intros (s1 & ? & [= <- <-] & (s2 & u & [= <- <-] & Hr)%st_bind_ok)%st_bind_ok.
  rewrite Hfix in Hr. match type of Hr with _ ?s0 = _ => assert (H0 : em_out s0 = [] ++ items_bytes l ++ []) by (cbn; by rewrite app_nil_r) end.
  destruct (patch_all l _ _ [] [] Hok H0 Hr) as (is_ & Hr' & Hi & ->).
  exists is_. cbn [em_out set_out app]. by rewrite app_nil_r.
Qed.
End patching.
