(* ===== verification/BodyClauses.v ===== *)
(** * The exception clauses of emitted code

    Where the clauses of [root_code] and [blocks_code] lie: inside the code they belong to, a
    handler right after what it protects, and a clause after every clause inside its two ranges. *)

From S2P Require Import Prelude Interner Types IR Arenas Walk Assign Block Method Opt Layout Heaps.
From S2P Require Import Signature SigTheory Cil OptSem CilSem Body BodySpec BodyLabels.
From stdpp Require Import sorting.
Local Open Scope Z_scope.

(** ** Clauses as ranges *)

(** Try start and end, handler start and end. *)
Definition interval : Type := Z * Z * Z * Z.

Definition within (lo hi : Z) (iv : interval) : Prop :=
  let '(ts, te, hs, he) := iv in lo <= ts <= te /\ te <= hs <= he /\ he <= hi.

(** ECMA-335 II.19: the clause comes before those that enclose it. *)
Definition inner_first (a b : interval) : Prop :=
  let '(ts, te, hs, he) := b in
  let '(ts', _, _, he') := a in
  he' <= ts \/ (ts <= ts' /\ he' <= te) \/ (hs <= ts' /\ he' <= he).

Definition clause_at (m : gmap Label.t Z) (c : PendingClause) (iv : interval) : Prop :=
  let '(ts, te, hs, he) := iv in
  m !! try_start c = Some ts /\ m !! try_end c = Some te /\
  m !! handler_start c = Some hs /\ m !! handler_end c = Some he.

Definition well_nested (m : gmap Label.t Z) (lo hi : Z) (cs : list PendingClause) : Prop :=
  exists ivs, Forall2 (clause_at m) cs ivs /\ Forall (within lo hi) ivs /\ StronglySorted inner_first ivs.

Lemma within_mono lo hi lo' hi' iv : lo' <= lo -> hi <= hi' -> within lo hi iv -> within lo' hi' iv.
Proof. destruct iv as [[[]]]; cbn. lia. Qed.

Lemma nested_nil m lo hi : well_nested m lo hi [].
Proof. by exists []; repeat constructor. Qed.

Lemma nested_mono m lo hi lo' hi' cs : lo' <= lo -> hi <= hi' -> well_nested m lo hi cs -> well_nested m lo' hi' cs.
Proof.
  intros ?? (ivs & ? & Hw & ?). exists ivs. split_and!; try done.
  eapply list.Forall_impl; [exact Hw|]. intros iv. by apply within_mono.
Qed.

Lemma nested_app m lo mid hi cs cs' :
  lo <= mid <= hi -> well_nested m lo mid cs -> well_nested m mid hi cs' -> well_nested m lo hi (cs ++ cs').
Proof.
  intros Hm (ivs & H1 & W1 & S1) (ivs' & H2 & W2 & S2). exists (ivs ++ ivs'). split_and!.
  - by apply Forall2_app.
  - apply Forall_app. split; (eapply list.Forall_impl; [done|]); intros iv; apply within_mono; lia.
  - apply StronglySorted_app. split_and!; [|done..]. intros a b Ha Hb.
    rewrite Forall_forall in W1, W2. specialize (W1 a Ha). specialize (W2 b Hb).
    destruct a as [[[]]], b as [[[]]]; cbn in *. lia.
Qed.

(** A clause after those inside its two ranges. *)
Lemma nested_clause m lo ts te hs he hi cs cs' c :
  clause_at m c (ts, te, hs, he) -> lo <= ts <= te -> te <= hs <= he -> he <= hi ->
  well_nested m ts te cs -> well_nested m hs he cs' -> well_nested m lo hi (cs ++ cs' ++ [c]).
Proof.
  intros Hc ??? (ivs & H1 & W1 & S1) (ivs' & H2 & W2 & S2). exists (ivs ++ ivs' ++ [(ts, te, hs, he)]).
  rewrite Forall_forall in W1, W2. split_and!.
  - apply Forall2_app; [done|]. apply Forall2_app; [done|]. constructor; [exact Hc|constructor].
  - rewrite !Forall_app, !Forall_forall. split_and!.
    + intros iv Hiv. eapply within_mono; [..|by apply W1]; lia.
    + intros iv Hiv. eapply within_mono; [..|by apply W2]; lia.
    + intros iv ->%list_elem_of_singleton. cbn. lia.
  - rewrite !StronglySorted_app. split_and!; [|done| |done|by repeat constructor].
    + intros a b Ha [Hb| ->%list_elem_of_singleton]%elem_of_app; specialize (W1 a Ha).
      * specialize (W2 b Hb). destruct a as [[[]]], b as [[[]]]; cbn in *. lia.
      * destruct a as [[[]]]; cbn in *. lia.
    + intros a b Ha ->%list_elem_of_singleton. specialize (W2 a Ha). destruct a as [[[]]]; cbn in *. lia.
Qed.

(** ** The positions of markers *)

Definition markers_of (l : list Item) : list Z :=
  omap (fun i => match i with ILabel (Label.Marker k) => Some k | _ => None end) l.

Lemma markers_of_app a b : markers_of (a ++ b) = markers_of a ++ markers_of b.
Proof. apply omap_app. Qed.

Lemma markers_of_instrs l : markers_of (map IInstr l) = [].
Proof. by induction l. Qed.

Lemma elem_of_labels_marker k l : Label.Marker k ∈ labels_of l <-> k ∈ markers_of l.
Proof.
  unfold labels_of, markers_of. rewrite !list_elem_of_omap. split; intros (i & ? & Hi); exists i; (split; [done|]).
  - destruct i; by simplify_eq.
  - destruct i as [|[]|]; by simplify_eq.
Qed.

(** The labels of the map stand where the items have them. *)
Definition places (m : gmap Label.t Z) (pos : nat) (l : list Item) : Prop :=
  forall a k b, l = a ++ ILabel (Label.Marker k) :: b ->
    m !! Label.Marker k = Some (Z.of_nat (pos + length (items_bytes a))).

Lemma places_app m pos a b :
  places m pos (a ++ b) -> places m pos a /\ places m (pos + length (items_bytes a)) b.
Proof.
  intros Hp. split.
  - intros x k y ->. apply (Hp x k (y ++ b)). by rewrite <- app_assoc.
  - intros x k y ->. rewrite (Hp (a ++ x) k y); [|by rewrite <- app_assoc].
    rewrite items_bytes_app, length_app. do 2 f_equal. lia.
Qed.

Lemma places_marker m pos k l : places m pos (ILabel (Label.Marker k) :: l) ->
  m !! Label.Marker k = Some (Z.of_nat pos) /\ places m pos l.
Proof.
  intros Hp. split.
  - rewrite (Hp [] k l eq_refl). do 2 f_equal. cbn. lia.
  - by apply (places_app m pos [ILabel (Label.Marker k)]) in Hp as [_ Hp]; cbn in Hp; rewrite Nat.add_0_r in Hp.
Qed.

(** Markers defined once stand where they are defined. *)
Lemma items_labels_places pos l m : NoDup (markers_of l) -> places (items_labels pos l m) pos l.
Proof.
  intros Hn a k b ->. apply items_labels_last. rewrite elem_of_labels_marker.
  rewrite markers_of_app in Hn. by apply NoDup_app in Hn as (_ & _ & [Hk _]%NoDup_cons).
Qed.

(** ** The clauses of code *)

Definition end_of (pos : nat) (l : list Item) : Z := Z.of_nat (pos + length (items_bytes l)).

(** The clauses of items placed anywhere are nested in the range of the items. *)
Definition nests (l : list Item) (cs : list PendingClause) : Prop :=
  forall m pos, places m pos l -> well_nested m (Z.of_nat pos) (end_of pos l) cs.

Lemma nests_none l : nests l [].
Proof. intros m pos _. apply nested_nil. Qed.

Lemma nests_app l l' cs cs' : nests l cs -> nests l' cs' -> nests (l ++ l') (cs ++ cs').
Proof.
  intros H H' m pos [Hp Hp']%places_app. apply H in Hp. apply H' in Hp'. unfold end_of in *.
  rewrite items_bytes_app, length_app. eapply nested_app; [|exact Hp|]; [lia|]. by rewrite Nat.add_assoc.
Qed.

Lemma nests_cons i l cs : nests l cs -> nests (i :: l) cs.
Proof. intros H. by apply (nests_app [i] l [] cs), H; apply nests_none. Qed.

(** A protected range and its handler, with the clause behind both. *)
Lemma nests_protected m0 m1 m2 m3 body hbody tail cs hcs :
  nests body cs -> nests hbody hcs ->
  nests (ILabel (Label.Marker m0) :: body ++
         [ILabel (Label.Marker m1); ILabel (Label.Marker m2)] ++ hbody ++ ILabel (Label.Marker m3) :: tail)
    (cs ++ hcs ++ [mk_Clause (Label.Marker m0) (Label.Marker m1) (Label.Marker m2) (Label.Marker m3)]).
Proof.
  intros H H' m pos [H0 [Hb Hp]%places_app]%places_marker. cbn [app] in Hp.
  apply places_marker in Hp as [H1 [H2 [Hh [H3 _]%places_marker]%places_app]%places_marker].
  apply H in Hb. apply H' in Hh. unfold end_of in *.
  rewrite !items_bytes_cons, !items_bytes_app, !items_bytes_cons. cbn [item_bytes app].
  rewrite !length_app. cbn [items_bytes map concat length].
  eapply (nested_clause m _ _ _ _ _ _ cs hcs); [by split_and!|..|exact Hb|exact Hh]; lia.
Qed.

Section code.
Context {T : Type} `{TokenSinkLaws T}.
Context (fin : Assembly) (t : T) (sfuel ifuel : nat).

Lemma root_nests ih hh r n n' is_ cs : root_code fin t sfuel ih hh r n n' is_ cs -> nests is_ cs.
Proof.
  intros Hr. induction Hr as [| | |id p rs n n' items cs h m0 m1 m2 m3 _ _ IH _]; try apply nests_none.
  replace (items ++ _) with ((items ++ [IBranch 0xDD (Label.TerminateDone n)]) ++
    [ILabel (Label.Marker m1); ILabel (Label.Marker m2)] ++ map IInstr h ++
    ILabel (Label.Marker m3) :: [ILabel (Label.TerminateDone n); IInstr (op 0x00)]) by (by rewrite <- !app_assoc).
  apply (nests_protected _ _ _ _ _ _ _ cs []); [|apply nests_none].
  rewrite <- (app_nil_r cs). apply nests_app; [done|apply nests_none].
Qed.

Lemma roots_nests ih hh l n n' is_ cs : roots_code fin t sfuel ih hh l n n' is_ cs -> nests is_ cs.
Proof. induction 1; [apply nests_none|]. apply nests_app; [by eapply root_nests|done]. Qed.

Lemma handler_nests bid l n n' is_ cs : handler_code fin t sfuel bid l n n' is_ cs -> nests is_ cs.
Proof.
  induction 1; [apply nests_none|]. apply nests_cons, nests_app; [by eapply roots_nests|done].
Qed.

Lemma block_nests b n n' is_ cs : block_code fin t sfuel ifuel b n n' is_ cs -> nests is_ cs.
Proof.
  intros Hb. destruct Hb as [b n n1 items cs _ Hr|b h n n1 n2 items cs asm used hitems hcs m0 m1 m2 m3 _ Hr _ _ Hh].
  - by apply nests_cons; eapply roots_nests.
  - change (ILabel (Label.Block (block_id b)) :: items ++ ?x)
      with ((ILabel (Label.Block (block_id b)) :: items) ++ x).
    rewrite (app_assoc (if used then _ else _)). apply nests_protected.
    + by apply nests_cons; eapply roots_nests.
    + destruct used; [|apply nests_cons]; by eapply handler_nests.
Qed.

Lemma blocks_nests l n n' is_ cs : blocks_code fin t sfuel ifuel l n n' is_ cs -> nests is_ cs.
Proof. induction 1; [apply nests_none|]. apply nests_app; [by eapply block_nests|done]. Qed.
End code.
