(* ===== verification/BodyDepth.v ===== *)
(** * The evaluation stack of emitted code

    How deep the code of nodes, roots and blocks makes the stack, against the sizes of the trees that
    [.maxstack] is computed from. *)

From S2P Require Import Prelude Interner Types Class IR Arenas Walk Assign Block Method Opt Layout Heaps.
From S2P Require Import Signature SigTheory Cil OptSem CilSem Body BodySpec BodyLabels BodyClauses.
Local Open Scope Z_scope.

(** ** Sizes of trees *)

Section sizes.
Context {E : Type} (asm : Assembly).

(** The number of elements below an element, itself included. *)
Inductive spans : CILIterElem -> nat -> Prop :=
| spans_intro e children sizes :
    elem_children (E := E) asm e = Ok children -> Forall2 spans children sizes ->
    spans e (S (sum_list sizes)).

Lemma collect_spans fuel es l : cil_iter_collect (E := E) fuel asm es = Ok l ->
  exists sizes, Forall2 spans es sizes /\ length l = sum_list sizes.
Proof.
  revert es l. induction fuel as [|fuel IH]; intros es l; cbn [cil_iter_collect]; [done|].
  intros (next & Hn & Hl)%bind_ok. destruct es as [|e es]; cbn [cil_iter_next] in Hn.
  - injection Hn as <-. injection Hl as <-. by exists [].
  - apply bind_ok in Hn as (children & Hc & [= <-]). apply bind_ok in Hl as (rest & Hr & [= <-]).
    destruct (IH _ _ Hr) as (sizes & Hs & Hlen). apply Forall2_app_inv_l in Hs as (s1 & s2 & H1 & H2 & ->).
    exists (S (sum_list s1) :: s2). split; [constructor; [by econstructor|done]|].
    pose proof (sum_list_with_app id s1 s2). cbn in *. lia.
Qed.

Lemma root_size_spans ifuel root z : root_size (E := E) ifuel asm root = Ok z ->
  exists r k, roots asm !! slot root = Some r /\ spans (ElemRoot r) k /\ z = Z.of_nat k.
Proof.
  intros (r & Hr%arena_get_ok & (l & Hl & [= <-])%bind_ok)%bind_ok.
  destruct (collect_spans _ _ _ Hl) as (sizes & Hs & Hlen).
  apply Forall2_cons_inv_l in Hs as (k & ks & Hk & Hnil & ->). inversion Hnil; subst.
  exists r, k. split_and!; [done..|]. rewrite Hlen. cbn. f_equal. lia.
Qed.

Lemma child_elem {k A} (arena : list A) (mk : A -> CILIterElem) (get : Interned k -> outcome E A) ids children sizes :
  (forall id a, get id = Ok a -> arena !! slot id = Some a) ->
  map_outcome (fun id => n ← get id; Ok (mk n)) ids = Ok children ->
  Forall2 spans children sizes ->
  exists kids, Forall2 (fun id kid => arena !! slot id = Some kid) ids kids /\
    Forall2 (fun kid n => spans (mk kid) n) kids sizes.
Proof.
  intros Hget Hm%map_outcome_Forall2. revert sizes.
  induction Hm as [|id c ids cs (n & Hn & [= <-])%bind_ok _ IH]; intros sizes Hs.
  - inversion Hs; subst. by exists [].
  - apply Forall2_cons_inv_l in Hs as (x & xs & Hx & Hxs & ->). destruct (IH _ Hxs) as (kids & ? & ?).
    exists (n :: kids). split; constructor; auto.
Qed.

Lemma node_spans n k : spans (ElemNode n) k ->
  exists kids sizes, Forall2 (fun id kid => nodes asm !! slot id = Some kid) (CILNode.visit_child_nodes n) kids /\
    Forall2 (fun kid s => spans (ElemNode kid) s) kids sizes /\ k = S (sum_list sizes).
Proof.
  inversion 1 as [e children sizes Hc Hs]; subst. cbn [elem_children] in Hc.
  destruct (child_elem (nodes asm) ElemNode (get_node asm) _ _ _ (fun id a => proj1 (arena_get_ok _ _ _)) Hc Hs)
    as (kids & ? & ?). by exists kids, sizes.
Qed.

Lemma root_spans r k : spans (ElemRoot r) k ->
  exists kids sizes subs subsizes,
    Forall2 (fun id kid => nodes asm !! slot id = Some kid) (CILRoot.visit_nodes r) kids /\
    Forall2 (fun kid s => spans (ElemNode kid) s) kids sizes /\
    Forall2 (fun id sub => roots asm !! slot id = Some sub) (CILRoot.visit_child_roots r) subs /\
    Forall2 (fun sub s => spans (ElemRoot sub) s) subs subsizes /\
    k = S (sum_list sizes + sum_list subsizes).
Proof.
  inversion 1 as [e children sizes Hc Hs]; subst. cbn [elem_children] in Hc.
  apply bind_ok in Hc as (ns & Hns & (rs & Hrs & [= <-])%bind_ok).
  apply Forall2_app_inv_l in Hs as (s1 & s2 & H1 & H2 & ->).
  destruct (child_elem (nodes asm) ElemNode (get_node asm) _ _ _ (fun id a => proj1 (arena_get_ok _ _ _)) Hns H1)
    as (kids & ? & ?).
  destruct (child_elem (roots asm) ElemRoot (get_root asm) _ _ _ (fun id a => proj1 (arena_get_ok _ _ _)) Hrs H2)
    as (subs & ? & ?).
  exists kids, s1, subs, s2. split_and!; try done. by rewrite (sum_list_with_app id).
Qed.
End sizes.

(** ** Runs of instructions *)

Section runs.
Context (arity : Arity) (rets : nat).

(** The run takes depth [d] to [d'], never underflows and stays at or below [top]. *)
Definition takes (l : list Instr) (d d' top : nat) : Prop :=
  exists m, depths arity rets l d = Some (d', m) /\ (m <= top)%nat.

Lemma takes_nil d top : (d <= top)%nat -> takes [] d d top.
Proof. intros. by exists d. Qed.

Lemma takes_app l l' d d1 d2 top : takes l d d1 top -> takes l' d1 d2 top -> takes (l ++ l') d d2 top.
Proof.
  intros (m & H & ?) (m' & H' & ?). exists (Nat.max m m'). split; [by eapply depths_app|lia].
Qed.

Lemma takes_mono l d d' top top' : takes l d d' top -> (top <= top')%nat -> takes l d d' top'.
Proof. intros (m & ? & ?) ?. exists m. split; [done|lia]. Qed.

Lemma takes_cons i l pops pushes d d' top :
  effect arity rets i = Some (pops, pushes) -> (pops <= d <= top)%nat ->
  takes l (d - pops + pushes) d' top -> takes (i :: l) d d' top.
Proof.
  intros He ? (m & Hm & ?). exists (Nat.max d m). cbn [depths]. rewrite He. cbn [mbind option_bind].
  destruct (Nat.ltb_spec d pops); [lia|]. rewrite Hm. cbn. split; [done|lia].
Qed.

Lemma takes_one i pops pushes d d' top :
  effect arity rets i = Some (pops, pushes) -> (pops <= d)%nat -> d' = (d - pops + pushes)%nat ->
  (d <= top)%nat -> (d' <= top)%nat -> takes [i] d d' top.
Proof. intros He ? -> ? ?. eapply takes_cons; [exact He|lia|]. by apply takes_nil. Qed.
End runs.

(** One instruction whose effect evaluates. *)
Ltac step := first
  [ eapply takes_one; [reflexivity|lia..]
  | eapply takes_cons; [reflexivity|lia|] ].

(** ** What the metadata says of calls *)

(** The values a call takes from the stack and leaves on it; [newobj] makes the receiver itself. *)
Definition method_arity (kind : MethodKind.t) (fs : FnSig) : nat * nat :=
  match kind with
  | MethodKind.Constructor => (length (inputs fs) - 1, 1)
  | _ => (length (inputs fs), if bool_decide (output fs = Ty.Void) then 0 else 1)
  end%nat.

Section arity.
Context {T : Type} `{TokenSinkLaws T}.
Context (fin : Assembly) (t : T) (arity : Arity).

(** The arities of tokens are those of the signatures they stand for. *)
Record arity_ok : Prop := {
  ar_method m mr fs tok :
    method_refs fin !! slot m = Some mr -> sigs fin !! slot (mr_sig mr) = Some fs ->
    token_of t (TokMethod m (mr_generics mr)) tok -> arity tok = Some (method_arity (mr_kind mr) fs);
  ar_calli fuel fs key blob s s' tok :
    encode_method_sig (E := unit) (encode_type fuel) SIG_DEFAULT 0 fs s = (s', Ok blob) ->
    grows (sg_asm s') fin -> later (sg_resolver s') t -> token_of t (TokCalli key blob) tok ->
    arity tok = Some (method_arity MethodKind.Static fs) }.
End arity.

(** ** Nodes *)

Section nodes.
Context {T : Type} `{TokenSinkLaws T}.
Context (fin : Assembly) (t : T) (sfuel : nat) (arity : Arity) (rets : nat).
Context (Har : arity_ok fin t arity).

Local Notation takes := (takes arity rets).

(** Calls take as many values as they are given and leave one; the caught exception is only stored
    by the root that starts a handler; and the index of [LdElelemRef] is left out of the traversal
    that sizes a tree. *)
Definition call_balanced (kind : MethodKind.t) (fs : FnSig) (args : list (Interned KNode)) (out : nat) : Prop :=
  method_arity kind fs = (length args, out).

Definition own_balanced (n : CILNode.t) : Prop :=
  match n with
  | CILNode.Call m args _ => exists mr fs, method_refs fin !! slot m = Some mr /\
      sigs fin !! slot (mr_sig mr) = Some fs /\ call_balanced (mr_kind mr) fs args 1
  | CILNode.CallI _ sig args =>
      exists fs, sigs fin !! slot sig = Some fs /\ call_balanced MethodKind.Static fs args 1
  | CILNode.GetException | CILNode.LdElelemRef _ _ => False
  | _ => True
  end.

Inductive balanced : CILNode.t -> Prop :=
| balanced_intro n : own_balanced n ->
    (forall id kid, id ∈ eval_operands n -> nodes fin !! slot id = Some kid -> balanced kid) -> balanced n.

Lemma tok_takes o q l d d' top : tok_code t o q l ->
  (forall tok, token_of t q tok -> takes [mk_Instr o (Tok tok)] d d' top) -> takes l d d' top.
Proof. intros (tok & _ & Htok & ->) Hl. by apply Hl. Qed.

Lemma call_takes m mr fs args out l d top :
  method_refs fin !! slot m = Some mr -> sigs fin !! slot (mr_sig mr) = Some fs ->
  call_balanced (mr_kind mr) fs args out -> (out <= 1)%nat -> call_code fin t m l ->
  (d + length args <= top)%nat -> (d + out <= top)%nat -> takes l (d + length args) (d + out) top.
Proof.
  intros Hm Hs Hb Ho (mr' & Hm' & Hl) ??. rewrite Hm in Hm'. injection Hm' as <-.
  apply (tok_takes _ _ _ _ _ _ Hl). intros tok Htok. pose proof (ar_method _ _ _ Har _ _ _ _ Hm Hs Htok) as Ha.
  rewrite Hb in Ha. eapply (takes_one _ _ _ (length args) out); [|lia..].
  destruct (mr_kind mr); unfold effect; cbn [opcode operand call_opcode]; by rewrite Ha.
Qed.

Lemma calli_takes sig fs args out l d top :
  sigs fin !! slot sig = Some fs -> call_balanced MethodKind.Static fs args out ->
  calli_code fin t sfuel sig l -> (d + length args + 1 <= top)%nat -> (d + out <= top)%nat ->
  takes l (d + length args + 1) (d + out) top.
Proof.
  intros Hs Hb (fs' & key & blob & s & s' & Hs' & Henc & Hg & Hl & Hcode) ??. rewrite Hs in Hs'. injection Hs' as <-.
  apply (tok_takes _ _ _ _ _ _ Hcode). intros tok Htok.
  pose proof (ar_calli _ _ _ Har _ _ _ _ _ _ _ Henc Hg Hl Htok) as Ha. rewrite Hb in Ha.
  eapply (takes_one _ _ _ (S (length args)) out); [|lia..]. unfold effect. cbn [opcode operand]. by rewrite Ha.
Qed.

(** The calls the writer makes up, by the signature it gives them. *)
Lemma bcl_call_takes o c name input out kind l d top :
  bcl_call fin t o c name input out kind l -> o = call_opcode kind ->
  let '(pops, pushes) := method_arity kind (mk_FnSig input out) in
  (d + pops <= top)%nat -> (d + pushes <= top)%nat -> takes l (d + pops) (d + pushes) top.
Proof.
  intros (m & mr & Hm & Hc & Hn & Hs & Hk & Hg & Hl) ->. destruct (method_arity _ _) as [pops pushes] eqn:Ha.
  intros ??. apply (tok_takes _ _ _ _ _ _ Hl). intros tok Htok. rewrite <- Hg in Htok.
  pose proof (ar_method _ _ _ Har _ _ _ _ Hm Hs Htok) as Hat. rewrite Hk, Ha in Hat.
  eapply (takes_one _ _ _ pops pushes); [|lia..].
  destruct kind; unfold effect; cbn [opcode operand call_opcode]; by rewrite Hat.
Qed.

Lemma ldc_effect i s : ldc i = Some s -> effect arity rets i = Some (0, 1)%nat.
Proof.
  destruct i as [o [|v|v|v|v|v|v|v|v|v]]; unfold ldc; cbn [opcode operand]; try done;
    (case_match; [|done]); intros _; [|by apply Z.eqb_eq in H1 as ->..].
  apply between_iff in H1. assert (o = 0x15 \/ o = 0x16 \/ o = 0x17 \/ o = 0x18 \/ o = 0x19 \/ o = 0x1A \/ o = 0x1B \/ o = 0x1C \/ o = 0x1D \/ o = 0x1E) as K by lia.
  by repeat destruct K as [->|K]; subst.
Qed.

Lemma conv_effect j c s s' : operand j = NoOperand -> conv (opcode j) s = Some s' ->
  effect arity rets (mk_Instr (opcode j) c) = Some (1, 1)%nat.
Proof.
  intros _. unfold conv. destruct (int_slot s) as [[w z]|]; cbn [mbind option_bind]; [|done].
  repeat (case_match; [by match goal with K : (_ =? _) = true |- _ => apply Z.eqb_eq in K as -> end|]). done.
Qed.

Lemma indexed_takes compact short wide n l pops pushes d top :
  (forall c k, compact = Some c -> 0 <= k <= 3 -> effect arity rets (mk_Instr (c + k) NoOperand) = Some (pops, pushes)) ->
  (forall v, effect arity rets (mk_Instr short (U8 v)) = Some (pops, pushes)) ->
  (forall v, effect arity rets (mk_Instr (0xFE00 + wide) (U16 v)) = Some (pops, pushes)) ->
  indexed compact short wide n l -> (d + pops <= top)%nat -> (d + pushes <= top)%nat ->
  takes l (d + pops) (d + pushes) top.
Proof.
  intros Hc Hs Hw (i & Hi & Hl) ??.
  assert (He : effect arity rets i = Some (pops, pushes)).
  { destruct i as [o x]. unfold index_of in Hi. cbn [opcode operand] in Hi. destruct x; try done.
    - destruct compact as [c|]; [|done]. cbn [mbind option_bind] in Hi. case_match eqn:Hb; [|done].
      apply between_iff in Hb. replace o with (c + (o - c)) by lia. apply Hc; [done|lia].
    - case_match eqn:Hb; [|done]. apply Z.eqb_eq in Hb as ->. apply Hs.
    - case_match eqn:Hb; [|done]. apply Z.eqb_eq in Hb as ->. apply Hw. }
  destruct Hl as [-> | ->].
  - eapply takes_one; [exact He|lia..].
  - eapply takes_cons; [exact He|lia|]. replace (d + pops - pops + pushes)%nat with (d + pushes)%nat by lia.
    do 2 step.
Qed.

Lemma compact_effect c k pops pushes :
  (c, (pops, pushes)) = (0x02, (0, 1)%nat) \/ (c, (pops, pushes)) = (0x06, (0, 1)%nat) \/
    (c, (pops, pushes)) = (0x0A, (1, 0)%nat) ->
  0 <= k <= 3 -> effect arity rets (mk_Instr (c + k) NoOperand) = Some (pops, pushes).
Proof.
  intros Hc Hk. assert (k = 0 \/ k = 1 \/ k = 2 \/ k = 3) as K by lia.
  destruct Hc as [Hc|[Hc|Hc]]; injection Hc as -> -> ->; by repeat destruct K as [->|K]; subst.
Qed.

Lemma int128_takes name v l d : int128_code fin t name v l -> takes l d (S d) (d + 3).
Proof.
  intros (c & _ & [(i & int & s & call & -> & Hi & _ & _ & Hcall)|(i & j & hi & lo & call & -> & Hi & Hj & _ & Hcall)]).
  - eapply takes_cons; [by eapply ldc_effect|lia|].
    pose proof (bcl_call_takes _ _ _ _ _ _ _ d (d + 3) Hcall eq_refl) as Hb. cbn in Hb.
    rewrite bool_decide_eq_false_2 in Hb by done.
    replace (d - 0 + 1)%nat with (d + 1)%nat by lia. replace (S d) with (d + 1)%nat by lia. apply Hb; lia.
  - eapply takes_cons; [by eapply ldc_effect|lia|]. eapply takes_cons; [by eapply ldc_effect|lia|].
    pose proof (bcl_call_takes _ _ _ _ _ _ _ d (d + 3) Hcall eq_refl) as Hb. cbn in Hb.
    replace (d - 0 + 1 - 0 + 1)%nat with (d + 2)%nat by lia. replace (S d) with (d + 1)%nat by lia. apply Hb; lia.
Qed.

Lemma load_takes l s d top : load l = Some s -> (S d <= top)%nat -> takes l d (S d) top.
Proof.
  intros Hl ?. destruct l as [|i [|j [|]]]; cbn [load] in Hl; try done.
  - eapply takes_one; [by eapply ldc_effect|lia..].
  - case_match eqn:Hj; [|done]. apply bool_decide_eq_true_1 in Hj. apply bind_Some in Hl as (s' & Hi & Hc).
    eapply takes_cons; [by eapply ldc_effect|lia|]. destruct j as [o x]. cbn [operand opcode] in *.
    eapply takes_one; [by eapply (conv_effect (mk_Instr o x))|lia..].
Qed.

Lemma const_takes c l d : const_code fin t c l -> takes l d (S d) (d + 3).
Proof.
  assert (Hload : forall l, load l = const_slot c /\ const_slot c <> None -> takes l d (S d) (d + 3)).
  { intros l' [Hl Hs]. destruct (const_slot c) as [s|]; [|done]. by eapply load_takes; [exact Hl|lia]. }
  destruct c; cbn [const_code]; try apply Hload; try apply int128_takes.
  - intros (str & _ & Hl). apply (tok_takes _ _ _ _ _ _ Hl). intros. step.
  - intros ->. step.
  - intros (f & _ & Hl). apply (tok_takes _ _ _ _ _ _ Hl). intros. step.
Qed.

Lemma type_takes o ty l d pops pushes top : type_code fin t o ty l ->
  (forall tok, effect arity rets (mk_Instr o (Tok tok)) = Some (pops, pushes)) ->
  (d + pops <= top)%nat -> (d + pushes <= top)%nat -> takes l (d + pops) (d + pushes) top.
Proof.
  intros (tv & _ & Hl) He ??. apply (tok_takes _ _ _ _ _ _ Hl). intros tok _. eapply takes_one; [apply He|lia..].
Qed.

Lemma access_takes by_opcode object tpe l d pops pushes top : access_code fin t by_opcode object tpe l ->
  (forall o, by_opcode tpe = Some o -> effect arity rets (op o) = Some (pops, pushes)) ->
  (forall tok, effect arity rets (mk_Instr object (Tok tok)) = Some (pops, pushes)) ->
  (d + pops <= top)%nat -> (d + pushes <= top)%nat -> takes l (d + pops) (d + pushes) top.
Proof.
  unfold access_code. intros Hl Ho He ??. destruct (by_opcode tpe) as [o|].
  - subst l. eapply takes_one; [by apply Ho|lia..].
  - destruct (object_name tpe).
    + destruct Hl as (c & _ & Hl). apply (tok_takes _ _ _ _ _ _ Hl). intros tok _. eapply takes_one; [apply He|lia..].
    + apply (tok_takes _ _ _ _ _ _ Hl). intros tok _. eapply takes_one; [apply He|lia..].
Qed.

Lemma prefixed_takes volatile l d d' top : (d <= top)%nat -> takes l d d' top -> takes (prefixed volatile l) d d' top.
Proof.
  intros ? Hl. destruct volatile; [|done]. eapply takes_cons; [reflexivity|lia|]. by rewrite Nat.sub_0_r, Nat.add_0_r.
Qed.

Ltac tok_step K := apply (tok_takes _ _ _ _ _ _ K); intros; step.

(** The node's own instructions: its operands become its value. *)
Lemma own_takes n l d : own_balanced n -> own_code fin t sfuel n l ->
  takes l (d + length (eval_operands n)) (S d) (d + length (eval_operands n) + 3).
Proof.
  intros Hb Hl. rewrite <- (Nat.add_1_r d).
  destruct n as [c|lhs rhs o|v o|n|n|n|n|m args p|i tg e|i tg sg|v|v r|a f|a f|a ty vol|ty| |v ty|v ty|fp sg args|sz|sf|sf|m|ty|arr|ty al|arr ix|arr ix el|ob ty|el len|v ty];
    cbn [own_code own_balanced] in Hb, Hl; try done; try (subst l; cbn [eval_operands CILNode.operands CILNode.visit_child_nodes length]; step).
  all: cbn [eval_operands CILNode.operands CILNode.visit_child_nodes length].
  - rewrite Nat.add_0_r, Nat.add_1_r. by apply (const_takes c).
  - subst l. destruct o; step.
  - subst l. destruct o; step.
  - eapply (indexed_takes _ _ _ _ _ 0 1); [..|exact Hl|lia|lia]; try done. intros c k [= <-] ?. apply compact_effect; tauto.
  - by eapply (indexed_takes _ _ _ _ _ 0 1); [..|exact Hl|lia|lia].
  - eapply (indexed_takes _ _ _ _ _ 0 1); [..|exact Hl|lia|lia]; try done. intros c k [= <-] ?. apply compact_effect; tauto.
  - by eapply (indexed_takes _ _ _ _ _ 0 1); [..|exact Hl|lia|lia].
  - destruct Hb as (mr & fs & Hm & Hs & Hb). eapply call_takes; [exact Hm|exact Hs|exact Hb|lia|exact Hl|lia..].
  - destruct Hl as (o & Ho & ->). unfold conv_opcode in Ho.
    destruct tg, e; vm_compute in Ho; simplify_eq; step.
  - unfold float_conv in Hl. destruct tg, sg; simplify_eq; cbn [app]; repeat step.
  - subst l. apply takes_nil. lia.
  - tok_step Hl.
  - tok_step Hl.
  - destruct Hl as (ty' & body & _ & Hl & ->). apply prefixed_takes; [lia|].
    eapply access_takes; [exact Hl|..|lia|lia]; [|done].
    intros o Ho. destruct ty' as [| |int| |float| | | | | | | | |]; try destruct int; try destruct float; cbn in Ho; by simplify_eq.
  - destruct Hl as (ty' & _ & Hl). destruct (bool_decide (ty' = Ty.Void)); [subst l; step|tok_step Hl].
  - eapply type_takes; [exact Hl|done|lia..].
  - eapply type_takes; [exact Hl|done|lia..].
  - destruct Hb as (fs & Hs & Hb). rewrite length_app. cbn [length].
    rewrite Nat.add_assoc. eapply calli_takes; [exact Hs|exact Hb|exact Hl|lia..].
  - tok_step Hl.
  - tok_step Hl.
  - destruct Hl as (mr & _ & Hl). tok_step Hl.
  - eapply type_takes; [exact Hl|done|lia..].
  - destruct Hl as (size & Hs & ->). eapply takes_app; [eapply (type_takes _ _ _ _ 0 1); [exact Hs|done|lia..]|].
    repeat step.
  - eapply (type_takes _ _ _ d 2 1); [exact Hl|done|lia..].
  - eapply type_takes; [exact Hl|done|lia..].
  - eapply type_takes; [exact Hl|done|lia..].
  - eapply type_takes; [exact Hl|done|lia..].
Qed.

(** *** Trees *)

Context (asm : Assembly) (Hasm : grows asm fin).

Lemma eval_operands_children n : own_balanced n -> CILNode.visit_child_nodes n ≡ₚ eval_operands n.
Proof. destruct n; cbn; try done. intros _. apply Permutation_cons_append. Qed.

(** Codes of operands one after the other: each leaves a value. *)
Lemma operands_take codes sizes d :
  Forall2 (fun l k => (0 < k)%nat /\ forall d, takes l d (S d) (d + k + 2)) codes sizes ->
  takes (concat codes) d (d + length codes) (d + sum_list sizes + 2) /\ (length codes <= sum_list sizes)%nat.
Proof.
  intros H2. revert d. induction H2 as [|l k codes sizes [Hk Hl] _ IH]; intros d; cbn.
  - split; [|lia]. rewrite Nat.add_0_r. apply takes_nil. lia.
  - destruct (IH (S d)) as [IH' Hlen]. split; [|lia].
    eapply takes_app; [eapply takes_mono; [apply Hl|lia]|].
    replace (d + S (length codes))%nat with (S d + length codes)%nat by lia.
    eapply takes_mono; [exact IH'|lia].
Qed.

Lemma Forall2_permutation {A B} (R : A -> B -> Prop) l l' m :
  l ≡ₚ l' -> Forall2 R l m -> exists m', Forall2 R l' m' /\ m ≡ₚ m'.
Proof.
  intros Hp. revert m. induction Hp as [|x l l' _ IH|x y l|l1 l2 l3 _ IH1 _ IH2]; intros m Hm.
  - inversion Hm; subst. by exists [].
  - apply Forall2_cons_inv_l in Hm as (z & m1 & Hz & Hm & ->). destruct (IH _ Hm) as (m' & ? & ?).
    exists (z :: m'). split; [by constructor|by constructor].
  - apply Forall2_cons_inv_l in Hm as (z & m1 & Hz & Hm & ->).
    apply Forall2_cons_inv_l in Hm as (w & m2 & Hw & Hm & ->).
    exists (w :: z :: m2). split; [by repeat constructor|constructor].
  - destruct (IH1 _ Hm) as (m2 & Hm2 & ?). destruct (IH2 _ Hm2) as (m3 & ? & ?). exists m3.
    split; [done|by etrans].
Qed.

Lemma sum_list_permutation l l' : l ≡ₚ l' -> sum_list l = sum_list l'.
Proof. induction 1; cbn in *; lia. Qed.

Notation spans := (spans (E := unit) asm).

Lemma spans_pos e k : spans e k -> (0 < k)%nat.
Proof. inversion 1. lia. Qed.

(** The codes of operands, each with the size of its tree. *)
Lemma operand_sizes (ids : list (Interned KNode)) kids codes (sizes : list nat) (R : CILNode.t -> list Instr -> nat -> Prop) :
  Forall2 (fun id kid => nodes fin !! slot id = Some kid) ids kids ->
  Forall2 (node_code fin t sfuel) kids codes ->
  Forall2 (fun id s => exists kid, nodes fin !! slot id = Some kid /\ spans (ElemNode kid) s) ids sizes ->
  (forall id kid code s, id ∈ ids -> nodes fin !! slot id = Some kid -> s ∈ sizes ->
     node_code fin t sfuel kid code -> spans (ElemNode kid) s -> R kid code s) ->
  Forall2 (fun code s => exists kid, R kid code s) codes sizes.
Proof.
  clear Har Hasm. intros Hk. revert codes sizes.
  induction Hk as [|id kid ids kids Hid _ IH]; intros codes sizes Hc Hs HR.
  - inversion Hc; subst. inversion Hs; subst. constructor.
  - apply Forall2_cons_inv_l in Hc as (c & cs & Hc & Hcs & ->).
    apply Forall2_cons_inv_l in Hs as (x & xs & (kid' & Hid' & Hx) & Hxs & ->).
    rewrite Hid in Hid'. injection Hid' as <-. constructor.
    + exists kid. eapply HR; [|exact Hid|..]; try done; set_solver.
    + eapply IH; [done..|]. intros. eapply HR; try done; set_solver.
Qed.

(** Sized operands of an earlier assembly are sized operands. *)
Lemma kid_sizes (ids : list (Interned KNode)) kids sizes :
  Forall2 (fun id kid => nodes asm !! slot id = Some kid) ids kids ->
  Forall2 (fun kid s => spans (ElemNode kid) s) kids sizes ->
  Forall2 (fun id s => exists kid, nodes fin !! slot id = Some kid /\ spans (ElemNode kid) s) ids sizes.
Proof.
  intros Hk. revert sizes. induction Hk as [|id kid ids kids Hid _ IHk]; intros sizes Hks.
  - inversion Hks; constructor.
  - apply Forall2_cons_inv_l in Hks as (x & xs & Hx & Hxs & ->). constructor; [|by apply IHk].
    exists kid. split; [|done]. eapply prefix_lookup_Some; [exact Hid|apply Hasm].
Qed.

(** The code of a tree leaves its value, and needs no more room than its size and two. *)
Lemma node_takes k : forall n l d, spans (ElemNode n) k -> node_code fin t sfuel n l -> balanced n ->
  takes l d (S d) (d + k + 2).
Proof.
  induction (lt_wf k) as [k _ IH]. intros n l d Hs Hc Hb.
  apply node_spans in Hs as (kids & sizes & Hk & Hks & ->).
  destruct Hc as [n kids' codes own Hk' Hcodes Hown]. destruct Hb as [n Hob Hkb].
  assert (Hids : Forall2 (fun id s => exists kid, nodes fin !! slot id = Some kid /\ spans (ElemNode kid) s)
    (CILNode.visit_child_nodes n) sizes).
  { by apply (kid_sizes _ kids). }
  destruct (Forall2_permutation _ _ _ _ (eval_operands_children n Hob) Hids) as (sizes' & Hids' & Hp).
  pose proof (sum_list_permutation _ _ Hp) as Hsum.
  assert (Hcs : Forall2 (fun code s => (0 < s)%nat /\ forall d, takes code d (S d) (d + s + 2)) codes sizes').
  { assert (HR : forall id kid code s, id ∈ eval_operands n -> nodes fin !! slot id = Some kid -> s ∈ sizes' ->
      node_code fin t sfuel kid code -> spans (ElemNode kid) s ->
      (0 < s)%nat /\ forall d, takes code d (S d) (d + s + 2)).
    { intros id kid code s Hin Hid Hsin Hcode Hsp. split; [by eapply spans_pos|]. intros d'.
      apply (IH s) with (n := kid); [|done|done|by eapply Hkb].
      rewrite <- Hp in Hsin. by apply Nat.lt_succ_r, sum_list_elem. }
    eapply Forall2_impl; [|exact (operand_sizes _ _ _ _ (fun _ code s => _) Hk' Hcodes Hids' HR)].
    by intros ? ? (? & ?). }
  destruct (operands_take codes sizes' d Hcs) as [Hops Hlen].
  assert (length (eval_operands n) = length codes) as Hl
    by (rewrite (Forall2_length Hk'), (Forall2_length Hcodes); done).
  eapply takes_app; [eapply takes_mono; [exact Hops|lia]|].
  pose proof (own_takes n own d Hob Hown) as Ho. rewrite Hl in Ho. eapply takes_mono; [exact Ho|]. lia.
Qed.
End nodes.
