(* ===== verification/BodyStack.v ===== *)
(** * [.maxstack] is enough

    Roots, handlers and whole bodies on the evaluation stack: no instruction of an emitted body
    underflows the stack, roots leave it empty, and it never gets deeper than the header says. *)

From S2P Require Import Prelude Interner Types Class IR Arenas Walk Assign Block Method Opt Layout Heaps.
From S2P Require Import Signature SigTheory Cil OptSem CilSem Body BodySpec BodyLabels BodyClauses BodyDepth.
Local Open Scope Z_scope.

(** ** Runs of labelled code *)

Section items.
Context (arity : Arity) (rets : nat) (starts : Label.t -> bool).

(** The depth after a run of items and the deepest it gets; where a handler starts, the stack holds
    the caught exception alone. *)
Fixpoint item_depths (l : list Item) (d : nat) : option (nat * nat) :=
  match l with
  | [] => Some (d, d)
  | ILabel label :: l =>
      if starts label then '(d', m) ← item_depths l 1; Some (d', Nat.max d m) else item_depths l d
  | i :: l =>
      '(pops, pushes) ← effect arity rets
        (match i with IInstr i => i | IBranch o _ => mk_Instr o (Rel 0) | ILabel _ => op 0 end);
      if (d <? pops)%nat then None
      else '(d', m) ← item_depths l (d - pops + pushes); Some (d', Nat.max d m)
  end.

Definition runs (l : list Item) (d d' top : nat) : Prop :=
  exists m, item_depths l d = Some (d', m) /\ (m <= top)%nat.

Lemma runs_nil d top : (d <= top)%nat -> runs [] d d top.
Proof. intros. by exists d. Qed.

Lemma item_depths_least l d d' m : item_depths l d = Some (d', m) -> (d <= m)%nat.
Proof.
  revert d d' m. induction l as [|i l IH]; intros d d' m; cbn [item_depths]; [by intros [= <- <-]|].
  destruct i as [i|label|o label].
  - destruct (effect _ _ _) as [[]|]; cbn; [|done]. case_match; [done|].
    destruct (item_depths _ _) as [[]|]; cbn; [|done]. intros. simplify_eq. lia.
  - destruct (starts label); [|apply IH]. destruct (item_depths _ _) as [[]|]; cbn; [|done]. intros. simplify_eq. lia.
  - destruct (effect _ _ _) as [[]|]; cbn; [|done]. case_match; [done|].
    destruct (item_depths _ _) as [[]|]; cbn; [|done]. intros. simplify_eq. lia.
Qed.

Lemma item_depths_app l l' d d1 m1 d2 m2 :
  item_depths l d = Some (d1, m1) -> item_depths l' d1 = Some (d2, m2) ->
  item_depths (l ++ l') d = Some (d2, Nat.max m1 m2).
Proof.
  revert d m1. induction l as [|i l IH]; intros d m1; cbn [app item_depths].
  - intros [= <- <-] H. rewrite H. apply item_depths_least in H. do 2 f_equal. lia.
  - intros H H'. destruct i as [i|label|o label].
    + destruct (effect _ _ _) as [[]|]; cbn in *; [|done]. case_match; [done|].
      destruct (item_depths l _) as [[]|] eqn:Hl; cbn in *; [|done]. simplify_eq. rewrite (IH _ _ Hl H'). cbn.
      do 2 f_equal. lia.
    + destruct (starts label); [|by apply IH].
      destruct (item_depths l _) as [[]|] eqn:Hl; cbn in *; [|done]. simplify_eq. rewrite (IH _ _ Hl H'). cbn.
      do 2 f_equal. lia.
    + destruct (effect _ _ _) as [[]|]; cbn in *; [|done]. case_match; [done|].
      destruct (item_depths l _) as [[]|] eqn:Hl; cbn in *; [|done]. simplify_eq. rewrite (IH _ _ Hl H'). cbn.
      do 2 f_equal. lia.
Qed.

Lemma runs_app l l' d d1 d2 top : runs l d d1 top -> runs l' d1 d2 top -> runs (l ++ l') d d2 top.
Proof.
  intros (m & H & ?) (m' & H' & ?). exists (Nat.max m m'). split; [by eapply item_depths_app|lia].
Qed.

Lemma runs_mono l d d' top top' : runs l d d' top -> (top <= top')%nat -> runs l d d' top'.
Proof. intros (m & ? & ?) ?. exists m. split; [done|lia]. Qed.

Lemma runs_instrs l d d' top : takes arity rets l d d' top -> runs (map IInstr l) d d' top.
Proof.
  intros (m & Hm & ?). exists m. split; [|done]. clear -Hm. revert d d' m Hm.
  induction l as [|i l IH]; intros d d' m; cbn [depths map item_depths]; [done|].
  destruct (effect arity rets i) as [[pops pushes]|]; cbn; [|done]. case_match; [done|].
  destruct (depths _ _ l _) as [[]|] eqn:Hl; cbn; [|done]. intros [= <- <-]. by rewrite (IH _ _ _ Hl).
Qed.

Lemma runs_label label l d d' top : starts label = false -> runs l d d' top -> runs (ILabel label :: l) d d' top.
Proof. intros Hs (m & ? & ?). exists m. cbn [item_depths]. by rewrite Hs. Qed.

Lemma runs_start label l d d' top :
  starts label = true -> (d <= top)%nat -> runs l 1 d' top -> runs (ILabel label :: l) d d' top.
Proof.
  intros Hs ? (m & Hm & ?). exists (Nat.max d m). cbn [item_depths]. rewrite Hs, Hm. cbn. split; [done|lia].
Qed.

Lemma runs_branch o label l pops pushes d d' top :
  effect arity rets (mk_Instr o (Rel 0)) = Some (pops, pushes) -> (pops <= d <= top)%nat ->
  runs l (d - pops + pushes) d' top -> runs (IBranch o label :: l) d d' top.
Proof.
  intros He ? (m & Hm & ?). exists (Nat.max d m). cbn [item_depths]. rewrite He. cbn [mbind option_bind].
  destruct (Nat.ltb_spec d pops); [lia|]. rewrite Hm. cbn. split; [done|lia].
Qed.

(** *** Where handlers start *)

(** The clauses of items start their handlers at markers of the items. *)
Definition local (l : list Item) (cs : list PendingClause) : Prop :=
  forall c, c ∈ cs -> exists k, handler_start c = Label.Marker k /\ k ∈ markers_of l.

(** The labels of the items at which handlers start are those of the clauses. *)
Definition agrees (l : list Item) (cs : list PendingClause) : Prop :=
  NoDup (markers_of l) /\
  forall label, label ∈ labels_of l -> starts label = true <-> label ∈ map handler_start cs.

Lemma local_app a b cs cs' : local a cs -> local b cs' -> local (a ++ b) (cs ++ cs').
Proof.
  intros Ha Hb c [Hc|Hc]%elem_of_app; [destruct (Ha c Hc) as (k & ? & ?)|destruct (Hb c Hc) as (k & ? & ?)];
    exists k; rewrite markers_of_app, elem_of_app; auto.
Qed.

Lemma local_nil a : local a [].
Proof. by intros c ?%elem_of_nil. Qed.

Lemma local_cons i a cs : local a cs -> local (i :: a) cs.
Proof. intros Ha. by apply (local_app [i] a [] cs), Ha; apply local_nil. Qed.

Lemma local_start a cs label : local a cs -> label ∈ map handler_start cs ->
  exists k, label = Label.Marker k /\ k ∈ markers_of a.
Proof. intros Ha (c & -> & Hc)%list_elem_of_fmap. by apply Ha. Qed.

Lemma agrees_app a b cs cs' : local a cs -> local b cs' -> agrees (a ++ b) (cs ++ cs') -> agrees a cs /\ agrees b cs'.
Proof.
  intros Ha Hb [Hn Hs]. rewrite markers_of_app in Hn. apply list.NoDup_app in Hn as (Hna & Hdis & Hnb).
  rewrite map_app in Hs. split; (split; [done|]); intros label Hl.
  - rewrite Hs by (rewrite labels_of_app; apply elem_of_app; by left). rewrite elem_of_app. split; [|tauto].
    intros [?|Hc]; [done|]. destruct (local_start _ _ _ Hb Hc) as (k & -> & Hk).
    by apply elem_of_labels_marker, Hdis in Hl.
  - rewrite Hs by (rewrite labels_of_app; apply elem_of_app; by right). rewrite elem_of_app. split; [|tauto].
    intros [Hc|?]; [|done]. destruct (local_start _ _ _ Ha Hc) as (k & -> & Hk).
    apply elem_of_labels_marker in Hl. by apply Hdis in Hk.
Qed.

(** Labels of the clauses of other items are no starts. *)
Lemma agrees_label i l cs : local l cs -> agrees (i :: l) cs -> agrees l cs /\
  (forall label, i = ILabel label -> starts label = false).
Proof.
  intros Hl Ha. destruct (agrees_app [i] l [] cs (local_nil _) Hl Ha) as [H1 H2]. split; [done|].
  intros label ->. apply not_true_iff_false. destruct H1 as [_ H1]. rewrite H1 by (by left).
  apply not_elem_of_nil.
Qed.

Lemma agrees_permutation l cs cs' : cs ≡ₚ cs' -> agrees l cs -> agrees l cs'.
Proof. intros Hp [? Hs]. split; [done|]. intros label Hl. by rewrite <- Hp, Hs. Qed.

Lemma agrees_none l : agrees l [] -> forall label, label ∈ labels_of l -> starts label = false.
Proof. intros [_ Hs] label Hl. apply not_true_iff_false. rewrite Hs by done. apply not_elem_of_nil. Qed.

(** A protected range and its handler. *)
Definition protected_items (m0 m1 m2 m3 : Z) (body hbody tail : list Item) : list Item :=
  ILabel (Label.Marker m0) :: body ++ [ILabel (Label.Marker m1); ILabel (Label.Marker m2)] ++
    hbody ++ ILabel (Label.Marker m3) :: tail.

Definition protected_clause (m0 m1 m2 m3 : Z) : PendingClause :=
  mk_Clause (Label.Marker m0) (Label.Marker m1) (Label.Marker m2) (Label.Marker m3).

Lemma handler_local m0 m1 m2 m3 hbody tail hcs : local hbody hcs ->
  local (ILabel (Label.Marker m2) :: hbody ++ ILabel (Label.Marker m3) :: tail) (protected_clause m0 m1 m2 m3 :: hcs).
Proof.
  intros Hh. apply (local_app [_] _ [_]).
  - intros x ->%list_elem_of_singleton. exists m2. by split; [|left].
  - rewrite <- (app_nil_r hcs). by apply local_app, local_nil.
Qed.

Lemma protected_local m0 m1 m2 m3 body hbody tail cs hcs : local body cs -> local hbody hcs ->
  local (protected_items m0 m1 m2 m3 body hbody tail) (cs ++ hcs ++ [protected_clause m0 m1 m2 m3]).
Proof.
  intros Hb Hh. apply local_cons, local_app; [done|]. apply local_cons.
  intros x Hx. apply (handler_local m0 m1 m2 m3 hbody tail hcs Hh). by rewrite Permutation_cons_append.
Qed.

Lemma protected_agrees m0 m1 m2 m3 body hbody tail cs hcs : local body cs -> local hbody hcs ->
  agrees (protected_items m0 m1 m2 m3 body hbody tail) (cs ++ hcs ++ [protected_clause m0 m1 m2 m3]) ->
  agrees body cs /\ agrees hbody hcs /\ agrees tail [] /\ starts (Label.Marker m0) = false /\
  starts (Label.Marker m1) = false /\ starts (Label.Marker m2) = true /\ starts (Label.Marker m3) = false.
Proof.
  intros Hb Hh Ha. set (c := protected_clause m0 m1 m2 m3) in *.
  pose proof (handler_local m0 m1 m2 m3 hbody tail hcs Hh) as Hrest. fold c in Hrest.
  apply (agrees_permutation _ _ (cs ++ c :: hcs)) in Ha; [|by rewrite <- Permutation_cons_append].
  unfold protected_items in Ha. cbn [app] in Ha.
  apply agrees_label in Ha as [Ha H0]; [|by apply local_app, local_cons].
  apply agrees_app in Ha as [Hbody Ha]; [|done|by apply local_cons].
  apply agrees_label in Ha as [Ha H1]; [|done].
  apply (agrees_app [_] _ [c] hcs) in Ha as [[_ H2] Ha].
  - rewrite <- (app_nil_r hcs) in Ha. apply agrees_app in Ha as [Hhb Ha]; [|done|apply local_nil].
    apply agrees_label in Ha as [Htail H3]; [|apply local_nil].
    split_and!; try done; [by apply H0|by apply H1|apply H2; by left|by apply H3].
  - intros x ->%list_elem_of_singleton. exists m2. by split; [|left].
  - rewrite <- (app_nil_r hcs). by apply local_app, local_nil.
Qed.

Lemma protected_runs m0 m1 m2 m3 body hbody tail cs hcs d top :
  let c := protected_clause m0 m1 m2 m3 in
  local body cs -> local hbody hcs ->
  agrees (protected_items m0 m1 m2 m3 body hbody tail) (cs ++ hcs ++ [c]) ->
  (agrees body cs -> runs body d 0 top) -> (agrees hbody hcs -> runs hbody 1 0 top) ->
  (agrees tail [] -> runs tail 0 0 top) ->
  runs (protected_items m0 m1 m2 m3 body hbody tail) d 0 top.
Proof.
  intros c Hb Hh Ha Hbody Hhandler Htail.
  destruct (protected_agrees _ _ _ _ _ _ _ _ _ Hb Hh Ha) as (A1 & A2 & A3 & S0 & S1 & S2 & S3).
  apply runs_label; [done|]. eapply runs_app; [by apply Hbody|]. cbn [app].
  apply runs_label; [done|]. apply runs_start; [done|lia|]. eapply runs_app; [by apply Hhandler|].
  apply runs_label; [done|]. by apply Htail.
Qed.
End items.

(** ** Roots *)

Section roots.
Context {T : Type} `{TokenSinkLaws T}.
Context (fin : Assembly) (t : T) (sfuel ifuel : nat) (arity : Arity) (rets : nat).
Context (Har : arity_ok fin t arity) (asm : Assembly) (Hasm : grows asm fin).

Local Notation takes := (takes arity rets).
Local Notation spans := (spans (E := unit) asm).
Local Notation balanced := (balanced fin).

(** Calls for effect leave nothing, and methods return a value or not. *)
Definition root_own_balanced (r : CILRoot.t) : Prop :=
  match r with
  | CILRoot.Call m args _ => exists mr fs, method_refs fin !! slot m = Some mr /\
      sigs fin !! slot (mr_sig mr) = Some fs /\ call_balanced (mr_kind mr) fs args 0
  | CILRoot.CallI _ sig args =>
      exists fs, sigs fin !! slot sig = Some fs /\ call_balanced MethodKind.Static fs args 0
  | CILRoot.Ret _ => rets = 1%nat
  | CILRoot.VoidRet => rets = 0%nat
  | _ => True
  end.

Inductive root_balanced : CILRoot.t -> Prop :=
| root_balanced_intro r : root_own_balanced r ->
    (forall id kid, id ∈ CILRoot.visit_nodes r -> nodes fin !! slot id = Some kid -> balanced kid) ->
    (forall id sub, id ∈ CILRoot.visit_child_roots r -> roots fin !! slot id = Some sub -> root_balanced sub) ->
    root_balanced r.

Lemma throw_takes msg l d : throw_code fin t msg l -> takes l d d (d + 1).
Proof.
  intros (c & str & new & _ & (tok & _ & _ & ->) & Hnew & ->). cbn [app].
  eapply takes_cons; [reflexivity|lia|]. replace (d - 0 + 1)%nat with (d + 1)%nat by lia.
  eapply takes_app.
  - pose proof (bcl_call_takes fin t arity rets Har _ _ _ _ _ _ _ d (d + 1) Hnew eq_refl) as Hb. cbn in Hb. apply Hb; lia.
  - eapply takes_one; [reflexivity|lia..].
Qed.

Lemma failfast_takes l top : (1 <= top)%nat -> failfast_code fin t l -> takes l 1 0 top.
Proof.
  intros ? (c & msg & str & call & _ & (tok & _ & _ & ->) & Hcall & ->). cbn [app].
  do 2 (eapply takes_cons; [reflexivity|lia|]). eapply takes_app.
  - pose proof (bcl_call_takes fin t arity rets Har _ _ _ _ _ _ _ 0 top Hcall eq_refl) as Hb. cbn in Hb.
    rewrite bool_decide_eq_true_2 in Hb by done. apply Hb; lia.
  - eapply takes_one; [reflexivity|lia..].
Qed.

Lemma store_takes tpe l d : store_code fin t tpe l -> takes l (d + 2) d (d + 3).
Proof.
  intros Hl.
  assert (Hacc : access_code fin t stind_opcode 0x81 tpe l -> takes l (d + 2) d (d + 3)).
  { intros Ha. pose proof (access_takes fin t arity rets _ _ _ _ d 2 0 (d + 3) Ha) as Hb. rewrite Nat.add_0_r in Hb.
    apply Hb; [|done|lia|lia]. intros o Ho.
    destruct tpe as [| |int| |float| | | | | | | | |]; try destruct int; try destruct float; cbn in Ho; by simplify_eq. }
  destruct tpe; try by apply Hacc.
  all: cbn [store_code] in Hl.
  - destruct Hl as (cr & _ & Hl). destruct (cr_is_valuetype cr).
    + apply (tok_takes t arity rets _ _ _ _ _ _ Hl). intros tok _. eapply takes_one; [reflexivity|lia..].
    + subst l. eapply takes_one; [reflexivity|lia..].
  - destruct Hl as (body & Hl & ->). do 2 (eapply takes_cons; [reflexivity|lia|]).
    replace (d + 2 - 1 + 0 - 1 + 0)%nat with d by lia. eapply takes_mono; [by eapply throw_takes|lia].
Qed.

(** The root's own instructions consume its operands. *)
Lemma root_own_takes r l : root_own_balanced r -> root_own fin t sfuel r l ->
  takes l (length (CILRoot.visit_nodes r)) 0 (length (CILRoot.visit_nodes r) + 3).
Proof.
  intros Hb Hl.
  destruct r as [n v|n v|v|v|v| | | | |target sub cond|a b c d f|f addr v|m args p|addr v ty vol|a b c|a b c|fp sg args|tg src|id' reason| |f v|a b ty|msg|a ty|a ix v el];
    cbn [root_own root_own_balanced] in Hb, Hl; try done;
    try (subst l; cbn [CILRoot.visit_nodes length]; step).
  all: cbn [CILRoot.visit_nodes length].
  - eapply (indexed_takes arity rets _ _ _ _ _ 1 0 0); [..|exact Hl|lia|lia]; try done.
    intros c k [= <-] ?. apply compact_effect; tauto.
  - by eapply (indexed_takes arity rets _ _ _ _ _ 1 0 0); [..|exact Hl|lia|lia].
  - subst l. apply takes_nil. lia.
  - subst l. apply takes_nil. lia.
  - apply (tok_takes t arity rets _ _ _ _ _ _ Hl). intros tok _. step.
  - destruct Hb as (mr & fs & Hm & Hs & Hb).
    by apply (call_takes fin t arity rets Har _ _ _ _ 0 _ 0 _ Hm Hs Hb); [lia| |lia|lia].
  - destruct Hl as (body & Hl & ->). apply prefixed_takes; [lia|].
    eapply takes_mono; [by apply (store_takes ty _ 0)|lia].
  - destruct Hb as (fs & Hs & Hb). rewrite length_app. cbn [length].
    apply (calli_takes fin t sfuel arity rets Har _ _ _ 0 _ 0 _ Hs Hb Hl); lia.
  - apply (tok_takes t arity rets _ _ _ _ _ _ Hl). intros tok _. step.
  - apply (type_takes fin t arity rets _ _ _ 0 2 0 _ Hl); [done|lia..].
  - destruct Hl as (str & _ & Hl). eapply takes_mono; [by apply (throw_takes str _ 0)|lia].
  - apply (type_takes fin t arity rets _ _ _ 0 1 0 _ Hl); [done|lia..].
  - destruct Hl as (ty & _ & Hl). destruct (stelem_opcode ty) as [o|] eqn:Ho.
    + subst l. destruct ty as [| |int| |float| | | | | | | | |]; try destruct int; try destruct float;
        cbn in Ho; simplify_eq; step.
    + apply (tok_takes t arity rets _ _ _ _ _ _ Hl). intros tok _. step.
Qed.

Lemma root_operands_take r k codes :
  spans (ElemRoot r) k -> operand_codes fin t sfuel r codes ->
  (forall id kid, id ∈ CILRoot.visit_nodes r -> nodes fin !! slot id = Some kid -> balanced kid) ->
  takes (concat codes) 0 (length (CILRoot.visit_nodes r)) (k + 1) /\ (length (CILRoot.visit_nodes r) < k)%nat.
Proof.
  intros Hs (kids' & Hk' & Hcodes) Hb.
  apply root_spans in Hs as (kids & sizes & subs & subsizes & Hk & Hks & _ & _ & ->).
  assert (Hids : Forall2 (fun id s => exists kid, nodes fin !! slot id = Some kid /\ spans (ElemNode kid) s)
    (CILRoot.visit_nodes r) sizes).
  { by apply (kid_sizes fin asm Hasm _ kids). }
  assert (HR : forall id kid code s, id ∈ CILRoot.visit_nodes r -> nodes fin !! slot id = Some kid -> s ∈ sizes ->
    node_code fin t sfuel kid code -> spans (ElemNode kid) s ->
    (0 < s)%nat /\ forall d, takes code d (S d) (d + s + 2)).
  { intros id kid code s Hin Hid _ Hcode Hsp. split; [by eapply spans_pos|]. intros d.
    eapply (node_takes fin t sfuel arity rets Har asm Hasm); [exact Hsp|exact Hcode|by eapply Hb]. }
  pose proof (operand_sizes fin t sfuel asm _ _ _ _ (fun _ code s => (0 < s)%nat /\ forall d, takes code d (S d) (d + s + 2)) Hk' Hcodes Hids HR) as Hcs.
  destruct (operands_take arity rets codes sizes 0) as [Hops Hlen].
  { eapply Forall2_impl; [|exact Hcs]. by intros ? ? (? & ?). }
  rewrite (Forall2_length Hk'), (Forall2_length Hcodes). cbn in Hops. split; [|lia].
  eapply takes_mono; [exact Hops|lia].
Qed.

Context (starts : Label.t -> bool).
Local Notation runs := (runs arity rets starts).
Local Notation agrees := (agrees starts).

Lemma branch_effect cond : effect arity rets (mk_Instr (branch_opcode cond) (Rel 0)) =
  Some (length (CILRoot.visit_nodes (CILRoot.Branch 0 0 cond)), 0%nat).
Proof. destruct cond as [[c|c|a b|a b|a b k|a b k|a b k|a b k]|]; try done; by destruct k. Qed.

(** A root leaves the stack empty, and needs no more room than its size and two. *)
Lemma root_runs ih hh r n n' items cs k :
  root_code fin t sfuel ih hh r n n' items cs -> spans (ElemRoot r) k -> root_balanced r ->
  local items cs /\ (agrees items cs -> runs items 0 0 (k + 2)).
Proof.
  intros Hr. revert k.
  induction Hr as [r n codes own Hops Hown|tg sub cond n codes Hops|tg src n|id p rs n n' items cs h m0 m1 m2 m3 Hp Hr IH Hh];
    intros k Hs Hb.
  - split; [apply local_nil|]. intros _. destruct Hb as [r Ho Hk _].
    destruct (root_operands_take _ _ _ Hs Hops Hk) as [Ht Hl]. apply runs_instrs. eapply takes_app; [eapply takes_mono; [exact Ht|lia]|].
    eapply takes_mono; [by apply root_own_takes|lia].
  - split; [apply local_nil|]. intros _. inversion Hb as [r Ho Hk _]; subst.
    destruct (root_operands_take _ _ _ Hs Hops Hk) as [Ht Hl].
    eapply runs_app; [apply runs_instrs; eapply takes_mono; [exact Ht|lia]|].
    eapply runs_branch; [apply branch_effect|cbn in *; lia|]. cbn. rewrite Nat.sub_diag. apply runs_nil. lia.
  - split; [apply local_nil|]. intros Ha. destruct ih; [|destruct hh]; [| |apply runs_nil; lia].
    1, 2: apply runs_label; [eapply agrees_none; [exact Ha|by left]|];
      eapply runs_branch; [reflexivity|lia|]; apply runs_nil; lia.
  - apply root_spans in Hs as (_ & sizes & subs & subsizes & _ & _ & Hsub & Hsubs & ->). cbn [CILRoot.visit_child_roots] in Hsub.
    apply Forall2_cons_inv_l in Hsub as (p' & ps & Hp' & Hps & ->). inversion Hps; subst.
    apply Forall2_cons_inv_l in Hsubs as (k & ks & Hk & Hks & ->). inversion Hks; subst. cbn [sum_list_with].
    assert (p' = p) as ->.
    { assert (roots fin !! slot id = Some p') as Hf by (eapply prefix_lookup_Some; [exact Hp'|apply Hasm]). congruence. }
    inversion Hb as [r Ho _ Hsubb]; subst. destruct (IH k Hk) as [Hloc Hrun]; [by eapply Hsubb; [left|]|].
    set (body := items ++ [IBranch 0xDD (Label.TerminateDone n)]).
    set (tail := [ILabel (Label.TerminateDone n); IInstr (op 0x00)]).
    assert (Hbody : local body (cs ++ [])) by (apply local_app; [exact Hloc|apply local_nil]).
    rewrite app_nil_r in Hbody.
    assert (Hshape : ILabel (Label.Marker m0) :: items ++
       [IBranch 0xDD (Label.TerminateDone n); ILabel (Label.Marker m1); ILabel (Label.Marker m2)] ++
       map IInstr h ++ ILabel (Label.Marker m3) :: tail = protected_items m0 m1 m2 m3 body (map IInstr h) tail)
      by (unfold protected_items, body; by rewrite <- !app_assoc).
    subst tail. rewrite Hshape. split; [exact (protected_local _ _ _ _ _ _ _ cs [] Hbody (local_nil _))|].
    intros Ha. apply (protected_runs arity rets starts _ _ _ _ _ _ _ cs [] _ _ Hbody (local_nil _) Ha).
    + intros Hab. rewrite <- (app_nil_r cs) in Hab. apply agrees_app in Hab as [Hab _]; [|done|apply local_nil].
      eapply runs_app; [eapply runs_mono; [by apply Hrun|cbn; lia]|].
      eapply runs_branch; [reflexivity|lia|]. apply runs_nil. lia.
    + intros _. apply runs_instrs. apply failfast_takes; [lia|done].
    + intros Ht. apply runs_label; [eapply agrees_none; [exact Ht|by left]|].
      apply (runs_instrs arity rets starts [op 0x00]). eapply takes_one; [reflexivity|lia..].
Qed.

(** ** Whole bodies *)

Definition id_balanced (id : Interned KRoot) : Prop := forall r, roots fin !! slot id = Some r -> root_balanced r.

(** The root that stores the caught exception first. *)
Definition catches (id : Interned KRoot) : Prop :=
  exists n e, roots fin !! slot id = Some (CILRoot.StLoc n e) /\ nodes fin !! slot e = Some CILNode.GetException.

(** A handler either never names the caught exception or stores it first, and only then. *)
Definition handler_balanced (h : list BasicBlock) : Prop :=
  Forall id_balanced (concat (map bb_roots h)) \/
  exists b rest r0 rs, h = b :: rest /\ bb_roots b = r0 :: rs /\ catches r0 /\
    Forall id_balanced (rs ++ concat (map bb_roots rest)).

Definition block_balanced (b : BasicBlock) : Prop :=
  Forall id_balanced (bb_roots b) /\ forall h, handler b = Some h -> handler_balanced h.

(** The root's tree is small enough for the depth. *)
Definition fits (top : nat) (id : Interned KRoot) : Prop :=
  exists r k, roots asm !! slot id = Some r /\ spans (ElemRoot r) k /\ (k + 2 <= top)%nat.

Definition runs_from (d top : nat) (items : list Item) (cs : list PendingClause) : Prop :=
  local items cs /\ (agrees items cs -> runs items d 0 top).

Lemma runs_from_app d top a b cs cs' :
  runs_from d top a cs -> runs_from 0 top b cs' -> runs_from d top (a ++ b) (cs ++ cs').
Proof.
  intros [La Ra] [Lb Rb]. split; [by apply local_app|]. intros Ha.
  apply agrees_app in Ha as [Ha Hb]; [|done..]. eapply runs_app; [by apply Ra|by apply Rb].
Qed.

Lemma runs_from_nil top : runs_from 0 top [] [].
Proof. split; [apply local_nil|]. intros _. apply runs_nil. lia. Qed.

Lemma runs_from_label d top label items cs :
  runs_from d top items cs -> runs_from d top (ILabel label :: items) cs.
Proof.
  intros [Hl Hr]. split; [by apply local_cons|]. intros [Ha Hs]%agrees_label; [|done].
  apply runs_label; [by apply Hs|by apply Hr].
Qed.

Lemma one_root_runs ih hh top id r n n' items cs :
  roots fin !! slot id = Some r -> root_code fin t sfuel ih hh r n n' items cs ->
  id_balanced id -> fits top id -> runs_from 0 top items cs.
Proof.
  intros Hid Hr Hb (r' & k & Hid' & Hs & Hk).
  assert (r' = r) as ->.
  { assert (roots fin !! slot id = Some r') as Hf by (eapply prefix_lookup_Some; [exact Hid'|apply Hasm]). congruence. }
  destruct (root_runs _ _ _ _ _ _ _ _ Hr Hs (Hb _ Hid)) as [Hl Hrun]. split; [done|].
  intros Ha. eapply runs_mono; [by apply Hrun|lia].
Qed.

Lemma roots_runs ih hh top ids n n' items cs :
  roots_code fin t sfuel ih hh ids n n' items cs -> Forall id_balanced ids -> Forall (fits top) ids ->
  runs_from 0 top items cs.
Proof.
  induction 1 as [|id r rest n n1 n2 items cs items' cs' Hid Hr _ IH]; intros Hb Hf; [apply runs_from_nil|].
  apply list.Forall_cons in Hb as [? ?]. apply list.Forall_cons in Hf as [? ?].
  apply runs_from_app; [by eapply one_root_runs|by apply IH].
Qed.

Lemma handler_runs bid top h n n' items cs :
  handler_code fin t sfuel bid h n n' items cs -> Forall id_balanced (concat (map bb_roots h)) ->
  Forall (fits top) (concat (map bb_roots h)) -> runs_from 0 top items cs.
Proof.
  induction 1 as [|b rest n n1 n2 items cs items' cs' Hr _ IH]; intros Hb Hf; [apply runs_from_nil|].
  cbn [map concat] in Hb, Hf. apply Forall_app in Hb as [? ?]. apply Forall_app in Hf as [? ?].
  apply runs_from_label, runs_from_app; [by eapply roots_runs|by apply IH].
Qed.

(** The root that stores the exception takes it from the stack. *)
Lemma catching_root_runs top id r n n' items cs : (1 <= top)%nat -> catches id ->
  roots fin !! slot id = Some r -> root_code fin t sfuel true false r n n' items cs -> runs_from 1 top items cs.
Proof.
  intros Ht (loc & e & Hid & He) Hid' Hr. rewrite Hid in Hid'. injection Hid' as <-.
  inversion Hr as [r n0 codes own Hops Hown| | |]; subst.
  split; [apply local_nil|]. intros _. apply runs_instrs.
  destruct Hops as (kids & Hk & Hc). cbn [CILRoot.visit_nodes] in Hk.
  apply Forall2_cons_inv_l in Hk as (kid & ks & Hkid & Hks & ->). inversion Hks; subst.
  rewrite He in Hkid. injection Hkid as <-.
  apply Forall2_cons_inv_l in Hc as (c & cs & Hc & Hcs & ->). inversion Hcs; subst.
  inversion Hc as [n1 kids codes own' Hk' Hc' Hown']; subst. cbn in Hk', Hown'.
  inversion Hk'; subst. inversion Hc'; subst. cbn [concat app].
  eapply (indexed_takes arity rets _ _ _ _ _ 1 0 0); [..|exact Hown|lia|lia]; try done.
  intros c k [= <-] ?. apply compact_effect; tauto.
Qed.

Lemma catching_handler_runs bid top b rest r0 rs n n' items cs : (1 <= top)%nat ->
  handler_code fin t sfuel bid (b :: rest) n n' items cs -> bb_roots b = r0 :: rs -> catches r0 ->
  Forall id_balanced (rs ++ concat (map bb_roots rest)) -> Forall (fits top) (rs ++ concat (map bb_roots rest)) ->
  runs_from 1 top items cs.
Proof.
  intros Ht Hh Hb Hc Hbal Hf. inversion Hh as [|b' rest' n0 n1 n2 items1 cs1 items2 cs2 Hr Hrest]; subst.
  rewrite Hb in Hr. inversion Hr as [|id r rest' n0 m1 m2 ia ca ib cb Hid Hroot Hroots]; subst.
  apply Forall_app in Hbal as [? ?]. apply Forall_app in Hf as [? ?].
  apply runs_from_label, runs_from_app; [|by eapply handler_runs].
  apply runs_from_app; [by eapply catching_root_runs|by eapply roots_runs].
Qed.
End roots.
