(* ===== verification/BodyRoots.v ===== *)
(** * Roots and blocks written as labelled code

    Emission of roots, handlers and blocks against [root_code] and [blocks_code]: the bytes, the label
    positions, the operands to patch and the clauses are those of the labelled items. *)

From S2P Require Import Prelude Interner Types Class IR Arenas Walk Assign Block Method Opt Layout Heaps.
From S2P Require Import Signature SigTheory Cil OptSem CilSem Body BodySpec BodyTheory BodyEmit BodyLabels.
From S2P Require Import BodyClauses.
Local Open Scope Z_scope.

Section emits.
Context {T : Type} `{TokenSinkLaws T} {hash_order : HashMapOrder}.
Context (fin : Assembly) (t : T) (sfuel mfuel nfuel ifuel : nat).
Context (Hfin : body_ok fin).

Local Notation M := (ST (Emitter T) unit).
Local Notation writes := (writes (E := unit) fin t).

(** ** Emission as items *)

Record emitted (s : Emitter T) (l : list Item) (cs : list PendingClause) (s' : Emitter T) : Prop := {
  e_out : em_out s' = em_out s ++ items_bytes l;
  e_labels : label_offsets s' = items_labels (length (em_out s)) l (label_offsets s);
  e_fixups : branch_fixups s' = branch_fixups s ++ items_fixups (length (em_out s)) l;
  e_clauses : clauses s' = clauses s ++ cs;
  e_counter : marker_counter s <= marker_counter s';
  e_markers : markers_of l = seqZ (marker_counter s) (marker_counter s' - marker_counter s);
  e_ok : Forall item_ok l }.

Lemma emitted_trans s s1 s' l1 l2 cs1 cs2 :
  emitted s l1 cs1 s1 -> emitted s1 l2 cs2 s' -> emitted s (l1 ++ l2) (cs1 ++ cs2) s'.
Proof.
  intros [] [].
  assert (length (em_out s1) = length (em_out s) + length (items_bytes l1))%nat as Hl
    by (rewrite e_out0; by rewrite length_app).
  split; [..|by apply Forall_app].
  - by rewrite items_bytes_app, app_assoc, <- e_out0.
  - by rewrite items_labels_app, <- Hl, <- e_labels0.
  - by rewrite items_fixups_app, app_assoc, <- Hl, <- e_fixups0.
  - by rewrite app_assoc, <- e_clauses0.
  - lia.
  - rewrite markers_of_app, e_markers0, e_markers1.
    replace (marker_counter s' - marker_counter s)
      with ((marker_counter s1 - marker_counter s) + (marker_counter s' - marker_counter s1)) by lia.
    rewrite seqZ_app by lia. do 2 f_equal. lia.
Qed.

(** A run of the emitter is the emission of items and clauses. The numbers of its postcondition are
    the terminate regions before and after. *)
Definition emits {A} (m : M A) (P : A -> Z -> Z -> list Item -> list PendingClause -> Prop) : Prop :=
  forall s s' o, m s = (s', o) ->
    ext s s' /\ forall a, o = Ok a -> until fin t s' -> exists l cs, emitted s l cs s' /\
      P a (terminate_region_counter s) (terminate_region_counter s') l cs.

Lemma emits_weaken {A} (m : M A) (P Q : A -> Z -> Z -> list Item -> list PendingClause -> Prop) :
  emits m P -> (forall a n n' l cs, P a n n' l cs -> Q a n n' l cs) -> emits m Q.
Proof.
  intros Hm HPQ s s' o Hr. destruct (Hm _ _ _ Hr) as [? Hok]. split; [done|]. intros a Ho Hu.
  destruct (Hok a Ho Hu) as (l & cs & ? & ?). eauto.
Qed.

Lemma emits_bind {A B} (m : M A) (f : A -> M B) P R :
  emits m P ->
  (forall a, emits (f a) (fun b n1 n2 l2 cs2 => forall n l1 cs1, P a n n1 l1 cs1 -> R b n n2 (l1 ++ l2) (cs1 ++ cs2))) ->
  emits (m ≫= f) R.
Proof.
  intros Hm Hf s s' o Hr. unfold mbind, ST_bind in Hr. destruct (m s) as [s1 o1] eqn:H1.
  destruct (Hm _ _ _ H1) as [X1 Hok1]. destruct o1 as [a| | |].
  - destruct (Hf a _ _ _ Hr) as [X2 Hok2]. split; [by etrans|]. intros b Hb Hu.
    destruct (Hok2 b Hb Hu) as (l2 & cs2 & W2 & HP2).
    destruct (Hok1 a eq_refl (until_ext fin t _ _ X2 Hu)) as (l1 & cs1 & W1 & HP1).
    exists (l1 ++ l2), (cs1 ++ cs2). split; [by eapply emitted_trans|by apply HP2].
  - injection Hr as <- <-. by split.
  - injection Hr as <- <-. by split.
  - injection Hr as <- <-. by split.
Qed.

(** Nothing but what the step established. *)
Definition silent {A} (P : A -> Prop) (a : A) (n n' : Z) (l : list Item) (cs : list PendingClause) : Prop :=
  n' = n /\ l = [] /\ cs = [] /\ P a.

(** Only instructions. *)
Definition plain (D : list Instr -> Prop) (u : unit) (n n' : Z) (l : list Item) (cs : list PendingClause) : Prop :=
  n' = n /\ cs = [] /\ exists is_, l = map IInstr is_ /\ D is_.

Lemma wrote_emitted s is_ s' : Forall instr_ok is_ ->
  wrote s (encode_all is_) s' -> emitted s (map IInstr is_) [] s' /\ terminate_region_counter s' = terminate_region_counter s.
Proof.
  intros Hok [Ho Hl Hf Hc Hm Hr]. split; [|done]. split.
  - by rewrite items_bytes_instrs.
  - by rewrite items_labels_instrs.
  - by rewrite items_fixups_instrs, app_nil_r.
  - by rewrite app_nil_r.
  - lia.
  - by rewrite markers_of_instrs, Hm, Z.sub_diag.
  - apply Forall_map. by eapply list.Forall_impl; [exact Hok|].
Qed.

Lemma emits_plain (m : M unit) D : writes m (fun _ => code D) -> emits m (plain D).
Proof.
  intros Hm s s' o Hr. destruct (Hm _ _ _ Hr) as [? Hok]. split; [done|]. intros a Ho Hu.
  destruct (Hok a Ho Hu) as (bs & Hw & (is_ & Hi & -> & HD)). eapply wrote_emitted in Hw as [He Hn]; [|done].
  exists (map IInstr is_), []. split; [done|]. split_and!; [done..|]. by exists is_.
Qed.

Lemma emits_silent {A} (m : M A) P : writes m (fun a bs => bs = [] /\ P a) -> emits m (silent P).
Proof.
  intros Hm s s' o Hr. destruct (Hm _ _ _ Hr) as [? Hok]. split; [done|]. intros a Ho Hu.
  destruct (Hok a Ho Hu) as (bs & Hw & -> & HP).
  apply (wrote_emitted _ []) in Hw as [He Hn]; [|done]. by exists [], [].
Qed.

Lemma emits_ret {A} (a : A) (P : A -> Prop) : P a -> emits (mret a) (silent P).
Proof. intros HP. by apply emits_silent, writes_ret. Qed.

Lemma emits_no_fuel {A} (P : A -> Z -> Z -> list Item -> list PendingClause -> Prop) : emits no_fuel P.
Proof. intros s s' o [= <- <-]. split; [reflexivity|]. by intros ? [=]. Qed.

(** *** Labels, branches and clauses *)

Lemma out_len_ok (s s' : Emitter T) (n : Z) : out_len (E := unit) s = (s', Ok n) ->
  s' = s /\ n = Z.of_nat (length (em_out s)).
Proof. unfold out_len, reads, expect_u32. case_match; by intros [= <- <-]. Qed.

Lemma step_ext {A} (m : M A) s s' o :
  m s = (s', o) -> (forall s, em_asm (fst (m s)) = em_asm s /\ em_tokens (fst (m s)) = em_tokens s) -> ext s s'.
Proof. intros Hr Hm. destruct (Hm s) as [H1 H2]. rewrite Hr in *. cbn in *. split; by rewrite ?H1, ?H2. Qed.

Lemma define_label_emits label : (forall k, label <> Label.Marker k) ->
  emits (define_label label) (fun _ n n' l cs => n' = n /\ cs = [] /\ l = [ILabel label]).
Proof.
  intros Hk s s' o Hr. unfold define_label in Hr. split.
  { eapply step_ext; [exact Hr|]. intros s0. unfold mbind, ST_bind. destruct (out_len s0) as [s1 o1] eqn:Ho.
    unfold out_len, reads in Ho. injection Ho as <- <-. unfold expect_u32. by case_match. }
  intros a -> _. apply st_bind_ok in Hr as (s1 & off & [-> ->]%out_len_ok & [= <- <-]).
  exists [ILabel label], []. split; [|done]. split; cbn; rewrite ?app_nil_r; try done; try lia.
  - rewrite Z.sub_diag. destruct label as [| | | |k]; try done. by destruct (Hk k).
  - by constructor.
Qed.

Lemma here_emits : emits here (fun lbl n n' l cs => n' = n /\ cs = [] /\ exists k, lbl = Label.Marker k /\ l = [ILabel lbl]).
Proof.
  intros s s' o Hr. unfold here in Hr. split.
  { eapply step_ext; [exact Hr|]. intros s0. unfold define_label, out_len, mbind, ST_bind, ask, modify, reads, expect_u32.
    cbn. by destruct (_ <? _). }
  intros a -> _. apply st_bind_ok in Hr as (s1 & a1 & [= <- <-] & Hr).
  apply st_bind_ok in Hr as (s2 & [] & [= <-] & Hr). apply st_bind_ok in Hr as (s3 & [] & Hd & [= <- <-]).
  unfold define_label in Hd. apply st_bind_ok in Hd as (s4 & off & [-> ->]%out_len_ok & [= <-]).
  eexists [ILabel _], []. split; [|split_and!; [done..|]; by eexists]. split; cbn; rewrite ?app_nil_r; try done; try lia.
  - replace (marker_counter s + 1 - marker_counter s) with 1 by lia. done.
  - by constructor.
Qed.

Lemma push_branch_emits o label : shape_of o = Some ShRel ->
  emits (push_branch o label) (fun _ n n' l cs => n' = n /\ cs = [] /\ l = [IBranch o label]).
Proof.
  intros Ho s s' r Hr. unfold push_branch in Hr. split.
  { eapply step_ext; [exact Hr|]. intros s0. unfold mbind, ST_bind, out_len, reads, expect_u32.
    cbn. by destruct (_ <? _). }
  intros a -> _. apply st_bind_ok in Hr as (s1 & [] & [= <-] & Hr).
  apply st_bind_ok in Hr as (s2 & off & [-> ->]%out_len_ok & Hr).
  apply st_bind_ok in Hr as (s3 & [] & [= <-] & [= <- <-]).
  exists [IBranch o label], []. split; [|done]. split; cbn; rewrite ?app_nil_r; try done; try lia.
  - rewrite branch_bytes by done. by rewrite <- app_assoc.
  - by rewrite length_app.
  - by rewrite Z.sub_diag.
  - by constructor.
Qed.

Lemma push_clause_emits c : emits (push_clause c) (fun _ n n' l cs => n' = n /\ l = [] /\ cs = [c]).
Proof.
  intros s s' r [= <- <-]. split; [split; reflexivity|]. intros ? _ _. exists [], [c]. split; [|done].
  split; cbn; rewrite ?app_nil_r; try done; by rewrite ?Z.sub_diag.
Qed.

Lemma next_region_emits : emits next_terminate_region (fun a n n' l cs => a = n /\ n' = n + 1 /\ l = [] /\ cs = []).
Proof.
  intros s s' r [= <- <-]. split; [split; reflexivity|]. intros ? [= <-] _. exists [], [].
  split; [|by split_and!].
  split; cbn; rewrite ?app_nil_r; try done; by rewrite ?Z.sub_diag.
Qed.

Lemma sequence_point_emits a b c d f :
  writes (push_sequence_point a b c d f) (fun _ => code (fun l => l = [])).
Proof.
  intros s s' o Hr. unfold push_sequence_point in Hr. split.
  { eapply step_ext; [exact Hr|]. intros s0. unfold mbind, ST_bind, out_len, reads, expect_u32.
    cbn. destruct (_ <? _); [|done]. by destruct (get_string _ _). }
  intros u -> _. apply st_bind_ok in Hr as (s1 & off & [-> ->]%out_len_ok & Hr).
  apply st_bind_ok in Hr as (s2 & p & [= <- _] & [= <- <-]). exists [].
  split; [split; cbn; by rewrite ?app_nil_r|]. by exists [].
Qed.

(** ** Roots *)

Local Notation node := (emit_node sfuel mfuel nfuel).
Local Notation node_writes := (emit_node_writes fin t sfuel mfuel Hfin nfuel).
Local Notation with_operands ops D :=
  (fun l => exists codes own, Forall2 (id_code fin t sfuel) ops codes /\ D own /\ l = concat codes ++ own).

Lemma id_codes_operands r codes :
  Forall2 (id_code fin t sfuel) (CILRoot.visit_nodes r) codes -> operand_codes fin t sfuel r codes.
Proof.
  unfold operand_codes. generalize (CILRoot.visit_nodes r). intros ids Hc.
  induction Hc as [|id c ids codes (k & Hk & Hkc) _ (kids & ? & ?)]; [by exists []|].
  exists (k :: kids). by split; constructor.
Qed.

(** A root that only evaluates operands and computes. *)
Lemma plain_root (m : M unit) ih hh r ops (D : list Instr -> Prop) :
  CILRoot.visit_nodes r = ops -> (forall l, D l -> root_own fin t sfuel r l) ->
  writes m (fun _ => code (with_operands ops D)) ->
  emits m (fun _ n n' l cs => root_code fin t sfuel ih hh r n n' l cs).
Proof.
  intros <- HD Hm. eapply emits_weaken; [by apply emits_plain, Hm|].
  intros ? n n' l cs (-> & -> & is_ & -> & codes & own & Hc & Ho & ->).
  apply root_plain; [by apply id_codes_operands|by apply HD].
Qed.

(** *** Branches *)

Definition branches (m : M unit) (ops : list (Interned KNode)) (o : Z) (label : Label.t) : Prop :=
  emits m (fun _ n n' l cs => n' = n /\ cs = [] /\ exists codes,
    Forall2 (id_code fin t sfuel) ops codes /\ l = map IInstr (concat codes) ++ [IBranch o label]).

Lemma no_branch_operand o label : shape_of o = Some ShRel -> branches (push_branch o label) [] o label.
Proof.
  intros Ho. eapply emits_weaken; [by apply push_branch_emits|]. intros ? n n' l cs (-> & -> & ->).
  split_and!; [done..|]. by exists [].
Qed.

Lemma branch_operand id (m : M unit) ops o label :
  branches m ops o label -> branches (_ ← node id; m) (id :: ops) o label.
Proof.
  intros Hm. eapply emits_bind; [apply emits_plain, node_writes|]. intros u.
  eapply emits_weaken; [exact Hm|].
  intros ? n1 n2 l2 cs2 (-> & -> & codes & Hc & ->) n l1 cs1 (-> & -> & is_ & -> & Hi).
  split_and!; [done..|]. exists (is_ :: codes). split; [by constructor|].
  cbn [concat]. by rewrite map_app, <- app_assoc.
Qed.

Lemma emit_branch_emits target sub cond ih hh :
  emits (emit_branch sfuel mfuel nfuel target sub cond ih hh)
    (fun _ n n' l cs => root_code fin t sfuel ih hh (CILRoot.Branch target sub cond) n n' l cs).
Proof.
  set (label := branch_label target sub hh ih).
  assert (Hb : branches (emit_branch sfuel mfuel nfuel target sub cond ih hh)
    (CILRoot.visit_nodes (CILRoot.Branch target sub cond)) (branch_opcode cond) label).
  { destruct cond as [[c|c|a b|a b|a b k|a b k|a b k|a b k]|]; cbn [emit_branch]; unfold emit_binary_branch;
      repeat apply branch_operand; fold label; try (by apply no_branch_operand).
    all: by destruct k; apply no_branch_operand. }
  eapply emits_weaken; [exact Hb|]. intros ? n n' l cs (-> & -> & codes & Hc & ->).
  apply root_branch. by apply id_codes_operands.
Qed.

(** *** Terminate regions *)

Lemma failfast_writes msg :
  writes (_ ← push_u8 0x26; str_tok ← string_token msg; _ ← push_u8 0x72; _ ← push_token str_tok;
          failfast_tok ← environment_failfast; _ ← push_u8 0x28; _ ← push_token failfast_tok; push_ext 0x1A)
    (fun _ => code (failfast_code fin t)).
Proof.
  eapply writes_bind; [apply push_writes|]. intros u0.
  eapply writes_bind; [apply string_token_writes|]. intros str.
  eapply writes_bind; [apply push_writes|]. intros u. eapply writes_bind; [apply push_writes|]. intros u'.
  eapply writes_bind.
  { eapply writes_bind; [apply bcl_class_writes|]. intros c. eapply writes_weaken; [apply bcl_method_writes|].
    instantiate (1 := fun tok l => l = [] /\ in_u 32 tok /\ exists c, bcl_named fin c "System.Environment" false /\
      bcl_method_token fin t c "FailFast" [Ty.PlatformString] Ty.Void MethodKind.Static tok).
    intros tok bs (-> & ? & ?) ? (-> & ?). split_and!; [done..|]. by exists c. }
  intros call. pushes.
  repeat match goal with K : _ /\ _ |- _ => destruct K; subst | K : exists _, _ |- _ => destruct K as [c K] end.
  exists (op 0x26 :: [mk_Instr 0x72 (Tok str)] ++ [mk_Instr 0x28 (Tok call)] ++ [op 0xFE1A]). split_and!.
  - by repeat constructor; eexists.
  - done.
  - exists c, msg, [mk_Instr 0x72 (Tok str)], [mk_Instr 0x28 (Tok call)].
    split_and!; [done| |by apply bcl_call_code|done]. by exists str.
Qed.

Lemma emits_same {A} (m m' : M A) P : (forall s, m s = m' s) -> emits m P -> emits m' P.
Proof. intros Hs Hm s s' o. rewrite <- Hs. apply Hm. Qed.

Lemma failfast_then msg (k : M unit) P :
  emits (_ ← (_ ← push_u8 0x26; str_tok ← string_token msg; _ ← push_u8 0x72; _ ← push_token str_tok;
              failfast_tok ← environment_failfast; _ ← push_u8 0x28; _ ← push_token failfast_tok; push_ext 0x1A);
         k) P ->
  emits (_ ← push_u8 0x26; str_tok ← string_token msg; _ ← push_u8 0x72; _ ← push_token str_tok;
         failfast_tok ← environment_failfast; _ ← push_u8 0x28; _ ← push_token failfast_tok;
         _ ← push_ext 0x1A; k) P.
Proof.
  apply emits_same. intros s. do 7 (rewrite st_bind_assoc; apply st_bind_ext; intros ? ?). reflexivity.
Qed.

(** The items and clauses of the steps of a run, from the facts [emits_bind] leaves. *)
Ltac collect :=
  intros; cbn beta in *; repeat match goal with
  | K : exists _, _ |- _ => destruct K
  | K : silent _ _ _ _ _ _ |- _ => destruct K as (? & ? & ? & ?)
  | K : plain _ _ _ _ _ _ |- _ => destruct K as (? & ? & ?)
  | K : _ /\ _ |- _ => destruct K
  end; subst.

Lemma terminate_region_emits (er : Interned KRoot -> bool -> bool -> M unit) ih hh id reason :
  emits (er id ih hh) (fun _ n n' l cs => exists r, roots fin !! slot id = Some r /\
    root_code fin t sfuel ih hh r n n' l cs) ->
  emits (emit_terminate_region er id reason ih hh)
    (fun _ n n' l cs => root_code fin t sfuel ih hh (CILRoot.TerminateRegion id reason) n n' l cs).
Proof.
  intros Her. unfold emit_terminate_region.
  eapply emits_bind; [apply next_region_emits|]. intros num. cbv zeta.
  eapply emits_bind; [apply here_emits|]. intros l0. eapply emits_bind; [exact Her|]. intros u1.
  eapply emits_bind; [by apply push_branch_emits|]. intros u2. eapply emits_bind; [apply here_emits|]. intros l1.
  eapply emits_bind; [apply here_emits|]. intros l2.
  apply failfast_then.
  eapply emits_bind; [apply emits_plain, failfast_writes|]. intros u3.
  eapply emits_bind; [apply here_emits|]. intros l3.
  eapply emits_bind; [by apply define_label_emits|]. intros u4.
  eapply emits_bind; [by apply (emits_plain _ (fun l => l = [op 0x00])), push_op_writes|]. intros u5.
  eapply emits_weaken; [apply push_clause_emits|]. collect.
  cbn [app map]. rewrite ?app_nil_r. by eapply (root_terminate _ _ _ _ _ id).
Qed.

(** *** All roots *)

Definition only_grows {A} (m : M A) : Prop := forall s s' o, m s = (s', o) -> ext s s'.

Lemma emits_grows {A} (m : M A) P : emits m P -> only_grows m.
Proof. intros Hm s s' o Hr. by destruct (Hm _ _ _ Hr). Qed.

Lemma appends_grows {A} (m : M A) : appends fin t m -> only_grows m.
Proof. intros Hm s s' o Hr. by destruct (Hm _ _ _ Hr). Qed.

Lemma fetch_root_writes id :
  writes (fetch_root id) (fun r l => l = [] /\ roots fin !! slot id = Some r).
Proof. apply (arena_writes fin t roots id). by intros ? ? []. Qed.

(** A root read from its arena is one of the final assembly's, so it is well formed. *)
Lemma fetch_root_emits id (f : CILRoot.t -> M unit) R :
  (forall r, only_grows (f r)) -> (forall r, root_ok r -> emits (f r) (fun _ => R r)) ->
  emits (fetch_root id ≫= f) (fun _ n n' l cs => exists r, roots fin !! slot id = Some r /\ R r n n' l cs).
Proof.
  intros Hg Hf s s' o Hr. unfold mbind, ST_bind in Hr. destruct (fetch_root id s) as [s1 o1] eqn:H1.
  destruct (emits_silent _ _ (fetch_root_writes id) _ _ _ H1) as [X1 Hok1].
  destruct o1 as [r| | |]; try by injection Hr as <- <-.
  pose proof (Hg r _ _ _ Hr) as X2. split; [by etrans|]. intros u Ho Hu.
  destruct (Hok1 r eq_refl (until_ext fin t _ _ X2 Hu)) as (l1 & cs1 & W1 & Hn & -> & -> & Hroot).
  destruct (Hf r (ok_roots _ Hfin _ _ Hroot) _ _ _ Hr) as [_ Hok2].
  destruct (Hok2 u Ho Hu) as (l2 & cs2 & W2 & HR). exists l2, cs2. rewrite Hn in HR.
  split; [by apply (emitted_trans _ _ _ _ _ _ _ W1)|]. by exists r.
Qed.

Tactic Notation "own" uconstr(lem) :=
  apply no_operand; eapply writes_weaken; [apply lem; done | by intros ? bs Hb].
(** The operands a root evaluates, and the specification of what follows them. *)
Tactic Notation "root" uconstr(ops) uconstr(D) :=
  apply (plain_root _ _ _ _ ops D); [done|by intros ? ?|]; repeat (apply next_operand; [apply node_writes|]).
Ltac own_op := apply no_operand; first [apply push_op_writes | apply push_ext_op_writes]; done.

Lemma exit_emits (ih hh : bool) target source :
  emits (if ih then _ ← define_label (Label.HandlerLeave source target); push_branch 0xDD (Label.Block target)
         else if hh then _ ← define_label (Label.ProtectedLeave source target); push_branch 0xDD (Label.Block target)
         else mret tt : M unit)
    (fun _ n n' l cs => root_code fin t sfuel ih hh (CILRoot.ExitSpecialRegion target source) n n' l cs).
Proof.
  destruct ih; [|destruct hh].
  1, 2: eapply emits_bind; [by apply define_label_emits|]; intros u;
    eapply emits_weaken; [by apply push_branch_emits|]; collect; apply root_exit.
  eapply emits_weaken; [by apply (emits_ret _ (fun _ => True))|]. collect. apply (root_exit _ _ _ false false).
Qed.

Lemma store_index_writes id (m : M unit) r (D : list Instr -> Prop) ih hh :
  CILRoot.visit_nodes r = [id] -> (forall l, D l -> root_own fin t sfuel r l) ->
  writes m (fun _ => code D) ->
  emits (_ ← node id; m) (fun _ n n' l cs => root_code fin t sfuel ih hh r n n' l cs).
Proof.
  intros Hops HD Hm. apply (plain_root _ _ _ _ [id] D); [done..|].
  apply next_operand; [apply node_writes|]. by apply no_operand.
Qed.

Lemma emit_root_emits fuel id ih hh :
  emits (emit_root sfuel mfuel nfuel fuel id ih hh)
    (fun _ n n' l cs => exists r, roots fin !! slot id = Some r /\ root_code fin t sfuel ih hh r n n' l cs).
Proof.
  revert id. induction fuel as [|fuel IH]; intros id; cbn [emit_root]; [apply emits_no_fuel|].
  match goal with |- emits (_ ≫= ?f) _ => set (body := f) end.
  assert (Hbody : forall r, root_ok r -> emits (body r) (fun _ => root_code fin t sfuel ih hh r)).
  2: { apply fetch_root_emits; [|exact Hbody]. intros r.
    destruct r; try (by eapply emits_grows, Hbody); apply appends_grows, appends_bind;
      try (eapply writes_appends, node_writes); intros u;
      first [apply emit_compact_index_appends|apply emit_short_index_appends]. }
  intros r Hr. subst body. cbn beta.
  destruct r as [n v|n v|v|v|v| | | | |target sub cond|a b c d f|f addr v|m args p|addr v ty vol|a b c|a b c|fp sg args|tg src|id' reason| |f v|a b ty|msg|a ty|a ix v el].
  all: cbn match.
  - apply (store_index_writes v _ _ (indexed (Some 0x0A) 0x13 0x0E n)); [done..|].
    apply emit_compact_index_writes; try done. intros. apply compact_shape; tauto.
  - apply (store_index_writes v _ _ (indexed None 0x10 0x0B n)); [done..|]. by apply emit_short_index_writes.
  - root [v] (fun l => l = [op 0x2A]). own_op.
  - root [v] (fun l => l = [op 0x26]). own_op.
  - root [v] (fun l => l = [op 0x7A]). own_op.
  - root [] (fun l => l = [op 0x2A]). own_op.
  - root [] (fun l => l = [op 0x01]). own_op.
  - root [] (fun l => l = [op 0x00]). own_op.
  - root [] (fun l => l = []). apply no_operand, writes_ret. by exists [].
  - apply emit_branch_emits.
  - root [] (fun l => l = []). apply no_operand, sequence_point_emits.
  - root [addr; v] (tok_code t 0x7D (TokField f)). own (field_op_writes fin t 0x7D).
  - apply (plain_root _ _ _ _ (args ++ []) (call_code fin t m)); [by rewrite app_nil_r|done|].
    apply operand_list; [apply node_writes|]. own call_like_writes.
  - root [addr; v] (root_own fin t sfuel (CILRoot.StInd addr v ty vol)). own emit_stind_writes.
  - root [a; b; c] (fun l => l = [op 0xFE18]). own_op.
  - root [a; b; c] (fun l => l = [op 0xFE17]). own_op.
  - apply (plain_root _ _ _ _ (args ++ [fp]) (calli_code fin t sfuel sg)); [done..|].
    apply operand_list; [apply node_writes|]. apply next_operand; [apply node_writes|].
    apply no_operand, calli_token_writes.
  - apply exit_emits.
  - apply terminate_region_emits, IH.
  - root [] (fun l => l = [op 0xFE1A]). own_op.
  - root [v] (tok_code t 0x80 (TokStatic f)). own (static_op_writes fin t 0x80).
  - root [a; b] (type_code fin t 0x70 ty). own (type_of_writes fin t 0x70).
  - root [] (root_own fin t sfuel (CILRoot.Unreachable msg)). apply no_operand.
    eapply writes_bind; [apply get_string_writes|]. intros str. eapply writes_weaken; [apply emit_throw_writes|].
    intros ? bs Hb ? (-> & ?). eapply code_weaken; [exact Hb|]. intros l ?. by exists str.
  - root [a] (type_code fin t 0xFE15 ty). own (type_ext_writes fin t 0x15).
  - root [a; ix; v] (root_own fin t sfuel (CILRoot.StElem a ix v el)). apply no_operand.
    eapply writes_bind; [apply get_type_writes|]. intros ty. eapply writes_weaken; [apply emit_stelem_writes|].
    intros ? bs Hb ? (-> & ?). eapply code_weaken; [exact Hb|]. intros l ?. by exists ty.
Qed.

(** ** Blocks *)

Lemma roots_emits rfuel l ih hh :
  emits (for_each (fun root => emit_root sfuel mfuel nfuel rfuel root ih hh) l)
    (fun _ => roots_code fin t sfuel ih hh l).
Proof.
  induction l as [|id l IH]; cbn [for_each].
  - eapply emits_weaken; [by apply (emits_ret _ (fun _ => True))|]. collect. constructor.
  - eapply emits_bind; [apply emit_root_emits|]. intros u. eapply emits_weaken; [exact IH|].
    collect. by econstructor.
Qed.

Lemma handler_emits rfuel bid l :
  emits (for_each (emit_handler_block sfuel mfuel nfuel rfuel bid) l)
    (fun _ => handler_code fin t sfuel bid l).
Proof.
  induction l as [|b l IH]; cbn [for_each].
  - eapply emits_weaken; [by apply (emits_ret _ (fun _ => True))|]. collect. constructor.
  - eapply emits_bind.
    { eapply emits_bind; [by apply define_label_emits|]. intros u.
      eapply emits_weaken; [apply roots_emits|]. intros ? ? ? ? ? Hr ? ? ? K.
      instantiate (1 := fun _ n n' l cs => exists is_, roots_code fin t sfuel true false (bb_roots b) n n' is_ cs /\
        l = ILabel (Label.HandlerLeave bid (block_id b)) :: is_).
      collect. by eexists. }
    intros u. eapply emits_weaken; [exact IH|]. collect. cbn [app]. by econstructor.
Qed.

(** What the handler's use of the exception is read from. *)
Lemma uses_writes h :
  writes (reads (fun s => uses_get_exception ifuel (em_asm s) h)) (fun used bs => bs = [] /\
    exists asm, grows asm fin /\ uses_get_exception (E := unit) ifuel asm h = Ok used).
Proof.
  apply (reads_writes fin t (fun s => uses_get_exception ifuel (em_asm s) h)
    (fun used => exists asm, grows asm fin /\ uses_get_exception (E := unit) ifuel asm h = Ok used)).
  intros s used Hu [? _]. by exists (em_asm s).
Qed.

Lemma emit_block_emits rfuel b :
  emits (emit_block sfuel mfuel nfuel ifuel rfuel b) (fun _ => block_code fin t sfuel ifuel b).
Proof.
  unfold emit_block. cbv zeta. destruct (handler b) as [h|] eqn:Hh.
  - rewrite bool_decide_eq_true_2 by by eexists.
    eapply emits_bind; [eapply emits_bind; [apply here_emits|]; intros l0;
      eapply emits_weaken; [by apply (emits_ret _ (fun x => x = Some l0))|]|].
    { intros a n n' l cs K n0 l1 cs1 K1. instantiate (1 := fun x n n' l cs => n' = n /\ cs = [] /\
        exists k, x = Some (Label.Marker k) /\ l = [ILabel (Label.Marker k)]). collect. by eauto. }
    intros ts. eapply emits_bind; [by apply define_label_emits|]. intros u1.
    eapply emits_bind; [apply roots_emits|]. intros u2.
    eapply emits_bind; [apply here_emits|]. intros l1. eapply emits_bind; [apply here_emits|]. intros l2.
    eapply emits_bind; [apply emits_silent, uses_writes|]. intros used.
    eapply emits_bind.
    { instantiate (1 := fun _ n n' l cs => n' = n /\ cs = [] /\ l = if used then [] else [IInstr (op 0x26)]).
      destruct used; cbn [negb].
      - eapply emits_weaken; [by apply (emits_ret _ (fun _ => True))|]. by collect.
      - eapply emits_weaken; [by apply (emits_plain _ (fun l => l = [op 0x26])), push_op_writes|]. by collect. }
    intros u3. eapply emits_bind; [apply handler_emits|]. intros u4.
    eapply emits_bind; [apply here_emits|]. intros l3.
    destruct ts as [ts|].
    + eapply emits_bind; [by apply (emits_ret _ (fun x => x = ts))|]. intros ts'.
      eapply emits_weaken; [apply push_clause_emits|]. collect. simplify_eq.
      cbn [app]. rewrite ?app_nil_r. by eapply block_protected.
    + intros s s' o [= <- <-]. split; [reflexivity|]. by intros ? [=].
  - rewrite bool_decide_eq_false_2 by by intros [].
    eapply emits_bind; [by apply (emits_ret _ (fun _ => True))|]. intros ts.
    eapply emits_bind; [by apply define_label_emits|]. intros u1.
    eapply emits_bind; [apply roots_emits|]. intros u2.
    eapply emits_weaken; [by apply (emits_ret _ (fun _ => True))|]. collect.
    cbn [app]. rewrite ?app_nil_r. by apply block_plain.
Qed.

Lemma blocks_emits rfuel l :
  emits (for_each (emit_block sfuel mfuel nfuel ifuel rfuel) l) (fun _ => blocks_code fin t sfuel ifuel l).
Proof.
  induction l as [|b l IH]; cbn [for_each].
  - eapply emits_weaken; [by apply (emits_ret _ (fun _ => True))|]. collect. constructor.
  - eapply emits_bind; [apply emit_block_emits|]. intros u. eapply emits_weaken; [exact IH|].
    collect. by econstructor.
Qed.
End emits.
