(* ===== verification/BodyLayout.v ===== *)
(** * Emitted bodies: code, branches and clauses

    The body writer as a whole: the code it produces decodes to the instructions of the blocks,
    branches land where their labels are, and the exception clauses resolve to nested ranges. *)

From S2P Require Import Prelude Interner Types Class IR Arenas Walk Assign Block Method Opt Layout Heaps.
From S2P Require Import Signature SigTheory Cil OptSem CilSem Body BodySpec BodyTheory BodyEmit BodyLabels.
From S2P Require Import BodyClauses BodyRoots.
From stdpp Require Import sorting.
Local Open Scope Z_scope.

Section body.
Context {T : Type} `{TokenSinkLaws T} {hash_order : HashMapOrder}.
Context (sfuel mfuel nfuel rfuel ifuel : nat).

Local Notation emit_body := (emit_body (E := unit) sfuel mfuel nfuel rfuel ifuel).

(** What a run of the writer is: the items of the blocks, patched. *)
Lemma emit_body_items fin t blocks asm tokens s' :
  emit_body blocks (new_emitter asm tokens) = (s', Ok tt) -> until fin t s' -> body_ok fin ->
  exists n items is_,
    blocks_code fin t sfuel ifuel blocks 0 n items (clauses s') /\
    Forall item_ok items /\ NoDup (markers_of items) /\
    label_offsets s' = items_labels 0 items ∅ /\
    resolved (label_offsets s') 0 items = Some is_ /\ Forall instr_ok is_ /\ em_out s' = encode_all is_.
Proof.
  unfold Body.emit_body. intros (s1 & [] & H1 & H2)%st_bind_ok Hu Hok.
  destruct (patch_branches_frame _ _ _ H2) as [Ha Ht]. unfold until in Hu. rewrite Ha, Ht in Hu.
  destruct (blocks_emits fin t sfuel mfuel nfuel ifuel Hok rfuel blocks _ _ _ H1) as [_ Hem].
  destruct (Hem tt eq_refl Hu) as (items & cs & [Eo El Ef Ec _ Em Ek] & Hc). cbn in Eo, El, Ef, Ec, Em.
  destruct (patch_branches_ok s1 s' items Ek Eo Ef H2) as (is_ & Hr & Hi & Ho & Hl & Hcl & _).
  subst cs. exists (terminate_region_counter s1), items, is_. rewrite Hl, Hcl.
  split_and!; [exact Hc|done|by rewrite Em; apply NoDup_seqZ|done..].
Qed.

(** The stream of instructions of items, each in its place, and the branches at their labels. *)
Definition stream_of (items : list Item) (is_ : list Instr) : Prop :=
  length is_ = instr_count items /\
  (forall a i b, items = a ++ IInstr i :: b -> is_ !! instr_count a = Some i) /\
  (forall a o label b, items = a ++ IBranch o label :: b ->
     exists a' b', items = a' ++ ILabel label :: b' /\ label ∉ labels_of b' /\
       lands is_ (instr_count a) (instr_count a')).

Lemma resolved_stream items is_ : Forall item_ok items ->
  resolved (items_labels 0 items ∅) 0 items = Some is_ -> stream_of items is_.
Proof.
  intros Hi Hres. split_and!.
  - by eapply resolved_count.
  - intros a i b ->. by eapply resolved_instr.
  - intros a o label b ->. destruct (resolved_branch _ _ _ _ _ _ _ Hres) as (q & Hq).
    destruct (items_labels_inv _ _ _ _ Hq) as (a' & b' & Heq & Hb). exists a', b'. split_and!; [done..|].
    by eapply (resolved_lands _ is_ a o label b a' b').
Qed.

(** The clauses of placed items resolve to nested ranges. *)
Lemma clauses_resolve fin t blocks n items is_ (s' : Emitter T) :
  blocks_code fin t sfuel ifuel blocks 0 n items (clauses s') -> Forall item_ok items ->
  NoDup (markers_of items) -> label_offsets s' = items_labels 0 items ∅ ->
  resolved (label_offsets s') 0 items = Some is_ ->
  exists ranges, map_outcome (resolve_clause (E := unit) s') (clauses s') = Ok ranges /\
    Forall (within 0 (Z.of_nat (length (encode_all is_)))) ranges /\ StronglySorted inner_first ranges.
Proof.
  intros Hc Hi Hn Hl Hres.
  assert (Hw : well_nested (label_offsets s') 0 (end_of 0 items) (clauses s')).
  { apply (blocks_nests _ _ _ _ _ _ _ _ _ Hc (label_offsets s') 0%nat). rewrite Hl.
    by apply items_labels_places. }
  destruct Hw as (ivs & Hat & Hin & Hs). exists ivs. split_and!; [| |done].
  - apply map_outcome_Forall2. eapply Forall2_impl; [exact Hat|]. intros c [[[a b] h] e] (H1 & H2 & H3 & H4).
    unfold resolve_clause, resolve_label. by rewrite H1, H2, H3, H4.
  - by rewrite (resolved_length _ _ _ _ Hi Hres).
Qed.

(** the code of a body is the encoding of its blocks' instructions: it decodes to as many
    instructions as the blocks' code has, each in its place, and every branch lands on the
    instruction at the (last) definition of its label. *)
Lemma body_code_decodes blocks asm tokens s' :
  emit_body blocks (new_emitter asm tokens) = (s', Ok tt) -> body_ok (em_asm s') -> sound (em_tokens s') ->
  exists n items is_,
    blocks_code (em_asm s') (em_tokens s') sfuel ifuel blocks 0 n items (clauses s') /\
    decode_all (em_out s') = Some is_ /\ stream_of items is_.
Proof.
  intros Hr Hok Hsound. destruct (emit_body_items (em_asm s') (em_tokens s') _ _ _ _ Hr) as (n & items & is_ & Hc & Hi & _ & Hl & Hres & Hio & ->);
    [by split_and!|done|].
  rewrite Hl in Hres. exists n, items, is_.
  split_and!; [exact Hc|by apply decode_all_encode|by apply resolved_stream].
Qed.

(** the exception clauses of a body all resolve, to ranges inside its code, each handler at the end
    of what it protects or later, and a clause comes before those that enclose it. *)
Lemma body_clauses_nested blocks asm tokens s' :
  emit_body blocks (new_emitter asm tokens) = (s', Ok tt) -> body_ok (em_asm s') -> sound (em_tokens s') ->
  exists ranges, map_outcome (resolve_clause (E := unit) s') (clauses s') = Ok ranges /\
    Forall (within 0 (Z.of_nat (length (em_out s')))) ranges /\ StronglySorted inner_first ranges.
Proof.
  intros Hr Hok Hsound. destruct (emit_body_items (em_asm s') (em_tokens s') _ _ _ _ Hr) as (n & items & is_ & Hc & Hi & Hn & Hl & Hres & _ & ->);
    [by split_and!|done|]. by eapply clauses_resolve.
Qed.
End body.
