(* ===== verification/BodyMaxstack.v ===== *)
(** * [.maxstack] of a whole body

    The depth computed from the trees of a body's roots is enough for the code emitted for them. *)

From S2P Require Import Prelude Interner Types Class IR Arenas Walk Assign Block Method Opt Layout Heaps.
From S2P Require Import Signature SigTheory Cil OptSem CilSem Body BodySpec BodyLabels BodyClauses BodyDepth.
From S2P Require Import BodyStack BodyRoots BodyLayout.
Local Open Scope Z_scope.

Section uses.
Context (fin : Assembly) (rets : nat) (ifuel : nat) (asm : Assembly) (Hasm : grows asm fin).

Definition elem_balanced (e : CILIterElem) : Prop :=
  match e with ElemNode n => balanced fin n | ElemRoot r => root_balanced fin rets r end.

Lemma fetched {k A} (arena : list A) (mk : A -> CILIterElem) (get : Interned k -> outcome unit A)
    (P : CILIterElem -> Prop) ids cs :
  map_outcome (fun id => n ← get id; Ok (mk n)) ids = Ok cs ->
  (forall id a, id ∈ ids -> get id = Ok a -> P (mk a)) -> Forall P cs.
Proof.
  intros Hm%map_outcome_Forall2. induction Hm as [|id c ids cs (a & Ha & [= <-])%bind_ok _ IH]; intros HP; constructor.
  - eapply HP; [by left|done].
  - apply IH. intros. by eapply HP; [right|].
Qed.

Lemma balanced_children e cs : elem_balanced e -> elem_children (E := unit) asm e = Ok cs -> Forall elem_balanced cs.
Proof.
  intros He Hc. destruct e as [n|r]; cbn [elem_children elem_balanced] in *.
  - destruct He as [n Ho Hk]. eapply (fetched (nodes asm) ElemNode (get_node asm)); [exact Hc|]. intros id a Hid Ha%arena_get_ok.
    apply (Hk id); [|by eapply prefix_lookup_Some; [|apply Hasm]].
    by rewrite <- (eval_operands_children fin n Ho).
  - destruct He as [r _ Hk Hr]. apply bind_ok in Hc as (ns & Hns & (rs & Hrs & [= <-])%bind_ok).
    apply Forall_app. split.
    + eapply (fetched (nodes asm) ElemNode (get_node asm)); [exact Hns|]. intros id a Hid Ha%arena_get_ok.
      apply (Hk id); [done|by eapply prefix_lookup_Some; [|apply Hasm]].
    + eapply (fetched (roots asm) ElemRoot (get_root asm)); [exact Hrs|]. intros id a Hid Ha%arena_get_ok.
      apply (Hr id); [done|by eapply prefix_lookup_Some; [|apply Hasm]].
Qed.

(** Balanced trees do not name the caught exception. *)
Lemma any_balanced fuel es b : Forall elem_balanced es ->
  cil_iter_any (E := unit) fuel asm is_get_exception es = Ok b -> b = false.
Proof.
  revert es. induction fuel as [|fuel IH]; intros es Hes; cbn [cil_iter_any]; [done|].
  intros (next & Hn & Hb)%bind_ok. destruct es as [|e es]; cbn [cil_iter_next] in Hn.
  - injection Hn as <-. by injection Hb as <-.
  - apply bind_ok in Hn as (cs & Hc & [= <-]). apply list.Forall_cons in Hes as [He Hes].
    assert (is_get_exception e = false) as Hf.
    { destruct e as [n|r]; [|done]. destruct He as [n Ho _]. by destruct n. }
    rewrite Hf in Hb. eapply IH; [|exact Hb]. apply Forall_app. split; [by eapply balanced_children|done].
Qed.

Lemma balanced_unused h used : Forall (id_balanced fin rets) (concat (map bb_roots h)) ->
  uses_get_exception (E := unit) ifuel asm h = Ok used -> used = false.
Proof.
  unfold uses_get_exception. induction (concat (map bb_roots h)) as [|id ids IH]; intros Hb; cbn [any_outcome].
  { by intros [= <-]. }
  apply list.Forall_cons in Hb as [Hid Hb]. intros (b & (r & Hr%arena_get_ok & Hany)%bind_ok & Hrest)%bind_ok.
  apply any_balanced in Hany as ->; [by apply IH|].
  constructor; [|constructor]. apply Hid. eapply prefix_lookup_Some; [exact Hr|apply Hasm].
Qed.

Lemma catching_used b rest r0 rs used : bb_roots b = r0 :: rs -> catches fin r0 ->
  uses_get_exception (E := unit) ifuel asm (b :: rest) = Ok used -> used = true.
Proof.
  intros Hb (n & e & Hr & He). unfold uses_get_exception. cbn [map concat]. rewrite Hb. cbn [app any_outcome].
  intros (b' & (r & Hr'%arena_get_ok & Hany)%bind_ok & Hrest)%bind_ok.
  assert (r = CILRoot.StLoc n e) as ->.
  { assert (roots fin !! slot r0 = Some r) as Hf by (eapply prefix_lookup_Some; [exact Hr'|apply Hasm]). congruence. }
  assert (b' = true) as ->; [|by injection Hrest as <-].
  destruct ifuel as [|f]; cbn [cil_iter_any cil_iter_next elem_children CILRoot.visit_nodes CILRoot.visit_child_roots map_outcome] in Hany; [done|].
  apply bind_ok in Hany as (next & Hnext & Hany).
  apply bind_ok in Hnext as (cs & Hcs & [= <-]). apply bind_ok in Hcs as (ns & Hns & (? & [= <-] & [= <-])%bind_ok).
  apply bind_ok in Hns as (x & Hx & (? & [= <-] & [= <-])%bind_ok). apply bind_ok in Hx as (k & Hk%arena_get_ok & [= <-]).
  assert (k = CILNode.GetException) as ->.
  { assert (nodes fin !! slot e = Some k) as Hf by (eapply prefix_lookup_Some; [exact Hk|apply Hasm]). congruence. }
  cbn [is_get_exception app] in Hany. destruct f as [|f]; cbn in Hany; [done|]. by injection Hany as <-.
Qed.
End uses.

Section maxstack.
Context {T : Type} `{TokenSinkLaws T}.
Context (fin : Assembly) (t : T) (sfuel ifuel : nat) (arity : Arity) (rets : nat).
Context (Har : arity_ok fin t arity) (asm : Assembly) (Hasm : grows asm fin) (starts : Label.t -> bool).

Local Notation runs_from := (runs_from arity rets starts).
Local Notation fits := (fits asm).

Lemma fits_one top id : fits top id -> (1 <= top)%nat.
Proof. intros (r & k & _ & Hs & ?). inversion Hs; subst. lia. Qed.

Lemma handler_start_runs bid top h n n' items cs asm0 used :
  handler_code fin t sfuel bid h n n' items cs -> handler_balanced fin rets h ->
  Forall (fits top) (concat (map bb_roots h)) -> (1 <= top)%nat -> grows asm0 fin ->
  uses_get_exception (E := unit) ifuel asm0 h = Ok used ->
  runs_from 1 top ((if used then [] else [IInstr (op 0x26)]) ++ items) cs.
Proof.
  intros Hc [Hb|(b & rest & r0 & rs & -> & Hroots & Hcatch & Hb)] Hf Ht Hg Hu.
  - rewrite (balanced_unused _ _ _ _ Hg _ _ Hb Hu). apply (runs_from_app _ _ _ _ _ _ _ [] cs).
    + split; [apply local_nil|]. intros _. apply (runs_instrs _ _ _ [op 0x26]). eapply takes_one; [reflexivity|lia..].
    + by eapply (handler_runs fin t sfuel arity rets Har asm Hasm).
  - rewrite (catching_used _ _ _ Hg _ _ _ _ _ Hroots Hcatch Hu). cbn [app].
    cbn [map concat] in Hf. rewrite Hroots in Hf. apply list.Forall_cons in Hf as [_ Hf].
    by eapply (catching_handler_runs fin t sfuel arity rets Har asm Hasm).
Qed.

Lemma block_runs top b n n' items cs :
  block_code fin t sfuel ifuel b n n' items cs -> block_balanced fin rets b ->
  Forall (fits top) (bb_roots b ++ match handler b with Some h => concat (map bb_roots h) | None => [] end) ->
  (1 <= top)%nat -> runs_from 0 top items cs.
Proof.
  intros Hc [Hb Hh] Hf Ht. apply Forall_app in Hf as [Hf Hfh].
  destruct Hc as [b n n1 items cs Hnone Hr|b h n n1 n2 items cs asm0 used hitems hcs m0 m1 m2 m3 Hs Hr Hg Hu Hhc].
  - apply runs_from_label. by eapply (roots_runs fin t sfuel arity rets Har asm Hasm).
  - rewrite Hs in Hfh. specialize (Hh _ Hs).
    assert (Hbody : runs_from 0 top (ILabel (Label.Block (block_id b)) :: items) cs)
      by (apply runs_from_label; by eapply (roots_runs fin t sfuel arity rets Har asm Hasm)).
    pose proof (handler_start_runs _ _ _ _ _ _ _ _ _ Hhc Hh Hfh Ht Hg Hu) as Hhandler.
    rewrite (app_assoc (if used then _ else _)).
    change (runs_from 0 top (protected_items m0 m1 m2 m3 (ILabel (Label.Block (block_id b)) :: items)
      ((if used then [] else [IInstr (op 0x26)]) ++ hitems) []) (cs ++ hcs ++ [protected_clause m0 m1 m2 m3])).
    destruct Hbody as [Lb Rb], Hhandler as [Lh Rh]. split; [by apply protected_local|].
    intros Ha. apply (protected_runs _ _ _ _ _ _ _ _ _ _ cs hcs _ _ Lb Lh Ha); [done..|].
    intros _. apply runs_nil. lia.
Qed.

Lemma handler_roots_iterated b :
  bb_roots b ++ match handler b with Some h => concat (map bb_roots h) | None => [] end ⊆ iter_roots b.
Proof.
  destruct b as [rs bid [h|] hid]; cbn; [|done]. apply list_subseteq_app_iff_l. split; [by apply list_subseteq_app_l|].
  apply list_subseteq_app_r. induction h as [|hb h IH]; [done|]. cbn.
  apply list_subseteq_app_iff_l. split; [|by apply list_subseteq_app_r].
  apply list_subseteq_app_l. destruct hb as [rs' bid' hh hid']; cbn. by apply list_subseteq_app_l.
Qed.

Lemma blocks_runs top l n n' items cs :
  blocks_code fin t sfuel ifuel l n n' items cs -> Forall (block_balanced fin rets) l ->
  Forall (fits top) (concat (map iter_roots l)) -> (1 <= top)%nat -> runs_from 0 top items cs.
Proof.
  induction 1 as [|b rest n n1 n2 items cs items' cs' Hb _ IH]; intros Hbal Hf Ht; [apply runs_from_nil|].
  apply list.Forall_cons in Hbal as [Hbb Hbal]. cbn [map concat] in Hf. apply Forall_app in Hf as [Hfb Hf].
  apply runs_from_app; [|by apply IH]. eapply block_runs; [exact Hb|done| |done].
  rewrite list.Forall_forall in Hfb |- *. intros id Hid. by apply Hfb, handler_roots_iterated.
Qed.

Lemma maximum_spec x l : x ∈ l -> x <= maximum l.
Proof. unfold maximum. induction 1; cbn; lia. Qed.

(** Roots whose sizes the depth was computed from fit in it. *)
Lemma computed_fits blocks depth :
  compute_maxstack_from_body (E := unit) ifuel asm blocks = Ok depth ->
  (forall id z, id ∈ concat (map iter_roots blocks) -> root_size (E := unit) ifuel asm id = Ok z -> z + 10 < 2 ^ 32) ->
  Forall (fits (Z.to_nat depth)) (concat (map iter_roots blocks)).
Proof.
  unfold compute_maxstack_from_body. generalize (concat (map iter_roots blocks)). intros ids.
  intros (sizes & Hm%map_outcome_Forall2 & [= <-])%bind_ok Hsmall. apply list.Forall_forall. intros id Hid.
  apply list_elem_of_lookup in Hid as Hi. destruct Hi as (i & Hi).
  destruct (Forall2_lookup_l _ _ _ _ _ Hm Hi) as (z & Hz & Hs). specialize (Hsmall _ _ Hid Hs).
  destruct (root_size_spans _ _ _ _ Hs) as (r & k & Hr & Hk & ->). exists r, k. split_and!; [done..|].
  assert (wrap 32 (Z.of_nat k + 10) <= maximum (map (fun n => wrap 32 (n + 10)) sizes)) as Hmax.
  { apply maximum_spec, (list_elem_of_fmap_2 (fun n => wrap 32 (n + 10))). by eapply list_elem_of_lookup_2. }
  unfold wrap in Hmax at 1. rewrite Z.mod_small in Hmax by lia. lia.
Qed.
End maxstack.

Section body.
Context {T : Type} `{TokenSinkLaws T} {hash_order : HashMapOrder}.
Context (sfuel mfuel nfuel rfuel ifuel : nat).

(** C17: the depth computed for a body is enough: along the code of the body - from an empty stack, and
    from the caught exception where a handler starts - no instruction finds too few values, every
    block leaves the stack empty, and it never holds more values than the computed depth.  Trees are
    smaller than the 32-bit sizes, calls are given what their signatures take, and a handler stores
    the caught exception first or leaves it alone. *)
Theorem maxstack_suffices blocks asm tokens s' arity rets depth :
  emit_body (E := unit) sfuel mfuel nfuel rfuel ifuel blocks (new_emitter asm tokens) = (s', Ok tt) ->
  body_ok (em_asm s') -> sound (em_tokens s') -> arity_ok (em_asm s') (em_tokens s') arity ->
  Forall (block_balanced (em_asm s') rets) blocks -> concat (map iter_roots blocks) <> [] ->
  compute_maxstack_from_body (E := unit) ifuel (em_asm s') blocks = Ok depth ->
  (forall id z, id ∈ concat (map iter_roots blocks) ->
     root_size (E := unit) ifuel (em_asm s') id = Ok z -> z + 10 < 2 ^ 32) ->
  exists n items is_ peak,
    blocks_code (em_asm s') (em_tokens s') sfuel ifuel blocks 0 n items (clauses s') /\
    decode_all (em_out s') = Some is_ /\ stream_of items is_ /\
    item_depths arity rets (fun label => bool_decide (label ∈ map handler_start (clauses s'))) items 0 = Some (0%nat, peak) /\
    Z.of_nat peak <= depth.
Proof.
  intros Hr Hok Hsound Har Hbal Hne Hd Hsmall.
  destruct (emit_body_items _ _ _ _ _ (em_asm s') (em_tokens s') _ _ _ _ Hr) as (n & items & is_ & Hc & Hi & Hn & Hl & Hres & Hio & Ho);
    [by split_and!|done|].
  pose proof (computed_fits _ _ _ _ Hd Hsmall) as Hf.
  assert (1 <= Z.to_nat depth)%nat as Hone.
  { destruct (concat (map iter_roots blocks)) as [|id ids]; [done|]. apply list.Forall_cons in Hf as [Hf _].
    by eapply fits_one. }
  set (starts := fun label => bool_decide (label ∈ map handler_start (clauses s'))).
  destruct (blocks_runs _ _ _ _ arity rets Har (em_asm s') (reflexivity _) starts _ _ _ _ _ _ Hc Hbal Hf Hone) as [Hloc Hrun].
  destruct Hrun as (peak & Hp & Hle).
  { split; [done|]. intros label _. subst starts. by rewrite bool_decide_eq_true. }
  exists n, items, is_, peak. split_and!; [exact Hc|rewrite Ho; by apply decode_all_encode| |done|lia].
  rewrite Hl in Hres. by apply resolved_stream.
Qed.
End body.
