(* ===== verification/BodyHeader.v ===== *)
(** * Method bodies as a reader has them (ECMA-335 II.25.4)

    A reader of fat method bodies - header, code, exception section - and that it reads back what the
    writer puts together. *)

From S2P Require Import Prelude Interner Types Class IR Arenas Walk Assign Block Method Opt Layout Heaps.
From S2P Require Import Signature SigTheory Cil OptSem CilSem Body BodySpec BodyTheory BodyEmit BodyLabels.
From S2P Require Import BodyClauses BodyRoots BodyLayout.
From stdpp Require Import sorting.
Local Open Scope Z_scope.

(** ** The reader *)

(** Kind, protected range and handler by offset and length, and the class caught. *)
Record EHClause : Set := mk_EHClause {
  eh_kind : Z; eh_try : Z; eh_try_len : Z; eh_handler : Z; eh_handler_len : Z; eh_class : Z }.

Record MethodFile : Set := mk_MethodFile {
  mf_init_locals : bool; mf_maxstack : Z; mf_locals : Z; mf_code : list Z; mf_clauses : list EHClause }.

(** [n] bytes at an offset, little-endian. *)
Definition read_at (n off : nat) (l : list Z) : Z := le_int (take n (drop off l)).

Fixpoint read_clauses (n : nat) (l : list Z) : option (list EHClause) :=
  match n with
  | O => Some []
  | S n =>
      if (length l <? 24)%nat then None
      else
        let c := mk_EHClause (read_at 4 0 l) (read_at 4 4 l) (read_at 4 8 l) (read_at 4 12 l)
          (read_at 4 16 l) (read_at 4 20 l) in
        cons c <$> read_clauses n (drop 24 l)
  end.

(** The fat section of exception clauses, which starts at the next multiple of four. *)
Definition read_section (at_ : nat) (l : list Z) : option (list EHClause) :=
  let l := drop (Z.to_nat ((Z.of_nat at_ + 3) / 4 * 4)) l in
  if read_at 1 0 l =? 0x41 then read_clauses (Z.to_nat ((read_at 3 1 l - 4) / 24)) (drop 4 l) else None.

Definition read_method (l : list Z) : option MethodFile :=
  let flags := read_at 2 0 l in
  let size := Z.to_nat (read_at 4 4 l) in
  let code := take size (drop 12 l) in
  if negb ((Z.land flags 0x3 =? 0x3) && (Z.shiftr flags 12 =? 3)) then None
  else if negb (length code =? size)%nat then None
  else
    cs ← (if Z.testbit flags 3 then read_section (12 + size) l else Some []);
    Some (mk_MethodFile (Z.testbit flags 4) (read_at 2 2 l) (read_at 4 8 l) code cs).

(** ** Reading what was written *)

Lemma read_at_bytes a n v b : in_u (8 * Z.of_nat n) v ->
  read_at n (length a) (a ++ le_bytes n v ++ b) = v.
Proof.
  intros Hv. unfold read_at. rewrite drop_app_length, take_app_length' by (by rewrite length_le_bytes).
  by apply le_int_le_bytes_u.
Qed.

(** Offsets below 2^32, as the labels of a body have them. *)
Definition range_ok (c : Z * Z * Z * Z) : Prop :=
  let '(ts, te, hs, he) := c in in_u 32 ts /\ in_u 32 (te - ts) /\ in_u 32 hs /\ in_u 32 (he - hs).

Definition eh_clause (catch_type : Z) (c : Z * Z * Z * Z) : EHClause :=
  let '(ts, te, hs, he) := c in mk_EHClause 0 ts (te - ts) hs (he - hs) catch_type.

Lemma length_clause_bytes k c : length (clause_bytes k c) = 24%nat.
Proof. destruct c as [[[]]]. unfold clause_bytes. rewrite !length_app, !length_le_bytes. done. Qed.

Lemma read_clauses_bytes k cs rest : in_u 32 k -> Forall range_ok cs ->
  read_clauses (length cs) (concat (map (clause_bytes k) cs) ++ rest) = Some (map (eh_clause k) cs).
Proof.
  intros Hk Hcs. induction Hcs as [|c cs Hc Hcs IH]; [done|]. cbn [length map concat read_clauses].
  rewrite <- app_assoc, length_app, length_clause_bytes.
  set (r := concat _ ++ rest) in *. destruct (Nat.ltb_spec (24 + length r) 24); [lia|].
  rewrite drop_app_length' by (by rewrite length_clause_bytes). rewrite IH. cbn [fmap option_fmap option_map].
  do 2 f_equal. destruct c as [[[ts te] hs] he]. destruct Hc as (? & ? & ? & ?). unfold clause_bytes, eh_clause.
  rewrite <- !app_assoc. f_equal.
  - by apply (read_at_bytes (le_bytes 4 0) 4).
  - rewrite (app_assoc (le_bytes 4 0)). by apply (read_at_bytes (le_bytes 4 0 ++ le_bytes 4 ts) 4).
  - rewrite 2!app_assoc. by apply (read_at_bytes ((le_bytes 4 0 ++ le_bytes 4 ts) ++ le_bytes 4 (te - ts)) 4).
  - rewrite 3!app_assoc.
    by apply (read_at_bytes (((le_bytes 4 0 ++ le_bytes 4 ts) ++ le_bytes 4 (te - ts)) ++ le_bytes 4 hs) 4).
  - rewrite 4!app_assoc.
    by apply (read_at_bytes ((((le_bytes 4 0 ++ le_bytes 4 ts) ++ le_bytes 4 (te - ts)) ++ le_bytes 4 hs) ++ le_bytes 4 (he - hs)) 4).
Qed.

Lemma length_align4 l : length (align4 l) = Z.to_nat ((Z.of_nat (length l) + 3) / 4 * 4).
Proof.
  unfold align4. rewrite length_app, length_replicate.
  set (n := Z.of_nat (length l)). assert (0 <= n) by lia.
  replace (length l) with (Z.to_nat n) by lia. rewrite <- Z2Nat.inj_add by (try apply Z.mod_pos_bound; lia).
  f_equal. pose proof (Z.div_mod (n + 3) 4 ltac:(lia)). pose proof (Z.mod_pos_bound (n + 3) 4 ltac:(lia)).
  pose proof (Z.div_mod (- n) 4 ltac:(lia)). pose proof (Z.mod_pos_bound (- n) 4 ltac:(lia)). lia.
Qed.

(** The three bytes of the size of a section. *)
Lemma size_bytes v : in_u 24 v ->
  [Z.land v 0xFF; Z.land (Z.shiftr v 8) 0xFF; Z.land (Z.shiftr v 16) 0xFF] = le_bytes 3 v.
Proof.
  intros [? Hv]. change (2 ^ 24) with 16777216 in Hv. cbn [le_bytes].
  rewrite !Z.shiftr_div_pow2 by lia. change 0xFF with (Z.ones 8). rewrite !Z.land_ones by lia.
  change (2 ^ 8) with 256. change (2 ^ 16) with (256 * 256). by rewrite <- Z.div_div by lia.
Qed.

Lemma read_section_bytes bytes k cs :
  in_u 32 k -> Forall range_ok cs -> in_u 24 (4 + Z.of_nat (length cs) * 24) ->
  read_section (length bytes) (align4 bytes ++ (0x41 :: le_bytes 3 (4 + Z.of_nat (length cs) * 24)) ++
    concat (map (clause_bytes k) cs)) = Some (map (eh_clause k) cs).
Proof.
  intros Hk Hcs Hn. unfold read_section. rewrite drop_app_length' by (by rewrite length_align4).
  set (v := 4 + _) in *. cbn [app].
  assert (Hv : read_at 3 1 (0x41 :: le_bytes 3 v ++ concat (map (clause_bytes k) cs)) = v)
    by (by apply (read_at_bytes [0x41] 3)).
  rewrite Hv. change (read_at 1 0 (0x41 :: _)) with 0x41. cbn match.
  replace (Z.to_nat ((v - 4) / 24)) with (length cs)
    by (subst v; replace (4 + Z.of_nat (length cs) * 24 - 4) with (Z.of_nat (length cs) * 24) by lia;
        rewrite Z.div_mul by lia; lia).
  change (drop 4 (0x41 :: ?l)) with (drop 3 l).
  rewrite drop_app_length' by (by rewrite length_le_bytes).
  rewrite <- (app_nil_r (concat _)). by apply read_clauses_bytes.
Qed.

(** The header and code of a method, whatever follows. *)
Lemma read_header flags maxstack size tok code rest :
  in_u 16 flags -> in_u 16 maxstack -> in_u 32 size -> in_u 32 tok -> size = Z.of_nat (length code) ->
  let l := (le_bytes 2 flags ++ le_bytes 2 maxstack ++ le_bytes 4 size ++ le_bytes 4 tok ++ code) ++ rest in
  read_at 2 0 l = flags /\ read_at 2 2 l = maxstack /\ read_at 4 4 l = size /\ read_at 4 8 l = tok /\
  take (Z.to_nat size) (drop 12 l) = code.
Proof.
  intros Hf Hm Hs Ht Hc l. subst l. rewrite <- !app_assoc. split_and!.
  - by apply (read_at_bytes [] 2).
  - by apply (read_at_bytes (le_bytes 2 flags) 2).
  - rewrite app_assoc. by apply (read_at_bytes (le_bytes 2 flags ++ le_bytes 2 maxstack) 4).
  - rewrite 2!app_assoc. by apply (read_at_bytes ((le_bytes 2 flags ++ le_bytes 2 maxstack) ++ le_bytes 4 size) 4).
  - rewrite 3!app_assoc. rewrite drop_app_length' by (by rewrite !length_app, !length_le_bytes).
    rewrite take_app_length'; [done|lia].
Qed.

(** reading back what [finish_body] puts together gives the code, the locals, the clauses with the
    class they catch, and the stack depth cut at 65535. *)
Lemma finish_body_reads_back code maxstack locals cs catch_type points b :
  finish_body (E := unit) code maxstack locals cs catch_type points = Ok b ->
  0 <= maxstack -> in_u 32 (default 0 locals) -> in_u 32 catch_type -> Forall range_ok cs ->
  in_u 24 (4 + Z.of_nat (length cs) * 24) ->
  read_method (ab_bytes b) =
    Some (mk_MethodFile true (Z.min maxstack 0xFFFF) (default 0 locals) code (map (eh_clause catch_type) cs)) /\
  ab_code_len b = Z.of_nat (length code).
Proof.
  intros Hb Hm Hl Hk Hcs Hn. unfold finish_body in Hb. cbv zeta in Hb.
  apply bind_ok in Hb as (size & Hsize & (bytes & Hbytes & Hb)%bind_ok).
  assert (b = mk_Body bytes points None [] size) as -> by congruence. clear Hb. cbn [ab_bytes ab_code_len].
  unfold expect_u32 in Hsize. destruct (Z.ltb_spec (Z.of_nat (length code)) (2 ^ 32)); [injection Hsize as <-|done].
  split; [|done]. set (ms := Z.min maxstack 0xFFFF) in *. set (tok := default 0 locals) in *.
  assert (in_u 16 ms) by (unfold in_u, ms; change (2 ^ 16) with 65536; lia).
  assert (in_u 32 (Z.of_nat (length code))) by (unfold in_u; lia).
  set (size := Z.of_nat (length code)) in *.
  destruct (bool_decide_reflect (cs <> [])) as [Hne|Hnil].
  - apply bind_ok in Hbytes as (ds & Hds & Hb). unfold expect_u32 in Hds. case_match; [|done].
    injection Hds as <-. match type of Hb with Ok ?x = _ => assert (bytes = x) as -> by congruence end. clear Hb.
    change (Z.lor (Z.lor (Z.lor COR_IL_METHOD_FAT_FORMAT COR_IL_METHOD_INIT_LOCALS) COR_IL_METHOD_MORE_SECTS)
      (Z.shiftl FAT_HEADER_SIZE_WORDS 12)) with 0x301B.
    change (Z.lor COR_IL_METHOD_SECT_EHTABLE COR_IL_METHOD_SECT_FAT_FORMAT) with 0x41.
    rewrite (size_bytes _ Hn). set (h := le_bytes 2 _ ++ _).
    assert (Hh : length h = (12 + length code)%nat) by (subst h; by rewrite !length_app, !length_le_bytes).
    pose proof (read_section_bytes h catch_type cs Hk Hcs Hn) as Hsec. rewrite Hh in Hsec.
    unfold align4 in *. rewrite <- !(app_assoc h) in *.
    match goal with |- read_method (h ++ ?r) = _ => destruct (read_header 0x301B ms size tok code r) as (R1 & R2 & R3 & R4 & R5) end;
      try done.
    unfold read_method. fold h in R1, R2, R3, R4, R5. rewrite R1, R2, R3, R4, R5. cbn [andb negb Z.land].
    change (negb _) with false at 1. cbn match.
    replace (length code =? Z.to_nat size)%nat with true by (symmetry; apply Nat.eqb_eq; subst size; lia).
    cbn match. change (Z.testbit 0x301B 3) with true. cbn match.
    replace (12 + Z.to_nat size)%nat with (12 + length code)%nat by (subst size; lia).
    by rewrite Hsec.
  - assert (cs = []) as -> by (destruct cs; [done|by destruct Hnil]).
    match type of Hbytes with Ok ?x = _ => assert (bytes = x) as -> by congruence end. clear Hbytes.
    change (Z.lor (Z.lor COR_IL_METHOD_FAT_FORMAT COR_IL_METHOD_INIT_LOCALS) (Z.shiftl FAT_HEADER_SIZE_WORDS 12))
      with 0x3013. set (h := le_bytes 2 _ ++ _). rewrite <- (app_nil_r h).
    destruct (read_header 0x3013 ms size tok code []) as (R1 & R2 & R3 & R4 & R5); try done.
    unfold read_method. fold h in R1, R2, R3, R4, R5. rewrite R1, R2, R3, R4, R5.
    change (negb _) with false at 1. cbn match.
    by replace (length code =? Z.to_nat size)%nat with true by (symmetry; apply Nat.eqb_eq; subst size; lia).
Qed.

(** ** Whole bodies *)

Section body.
Context {T : Type} `{TokenSinkLaws T} {hash_order : HashMapOrder}.
Context (sfuel mfuel nfuel rfuel ifuel : nat).

Local Notation M := (ST (Emitter T) unit).

(** A step that only asks for a token leaves the code alone. *)
Lemma silent_step {A} fin t (m : M A) (P : A -> Prop) s s1 a :
  writes fin t m (fun a l => l = [] /\ P a) -> m s = (s1, Ok a) -> until fin t s1 ->
  until fin t s /\ em_out s1 = em_out s /\ label_offsets s1 = label_offsets s /\ clauses s1 = clauses s /\ P a.
Proof.
  intros Hm Hr Hu. destruct (Hm _ _ _ Hr) as [X Hok]. destruct (Hok a eq_refl Hu) as (l & [Ho Hl _ Hc _ _] & -> & HP).
  rewrite app_nil_r in Ho. split_and!; try done. by eapply until_ext.
Qed.

Lemma object_token_writes fin t : writes fin t (system_object_token : M Z)
  (fun tok l => l = [] /\ in_u 32 tok /\
     exists c, bcl_named fin c "System.Object" false /\ token_of t (TokType (Ty.ClassRef c)) tok).
Proof.
  eapply writes_bind; [apply bcl_class_writes|]. intros c.
  eapply writes_weaken; [apply (sink_writes fin t (TokType (Ty.ClassRef c)) (fun E => type_token (Ty.ClassRef c))), type_token_law|].
  intros tok l (-> & ? & ?) ? (-> & ?). split_and!; [done..|]. by exists c.
Qed.

(** The class a clause catches, if there is a clause. *)
Definition catch_code fin t (n : nat) (tok : Z) : Prop :=
  match n with
  | O => tok = 0
  | _ => exists c, bcl_named fin c "System.Object" false /\ token_of t (TokType (Ty.ClassRef c)) tok
  end.

Definition locals_code fin t (locals : list LocalDef) (tok : Z) : Prop :=
  exists tys, Forall2 (fun l ty => types fin !! slot (snd l) = Some ty) locals tys /\
    match tys with [] => tok = 0 | _ => token_of t (TokLocals tys) tok end.

Lemma catch_writes fin t {A} (ranges : list A) :
  writes fin t (match ranges with [] => mret 0 | _ => system_object_token end : M Z)
    (fun tok l => l = [] /\ in_u 32 tok /\ catch_code fin t (length ranges) tok).
Proof.
  destruct ranges as [|r ranges]; [by apply writes_ret|].
  eapply writes_weaken; [apply object_token_writes|]. done.
Qed.

Lemma locals_writes fin t tys :
  writes fin t (match tys with
                | [] => mret None
                | _ => tok ← on_sink (locals_sig_token tys); mret (Some tok)
                end : M (option Z))
    (fun tok l => l = [] /\ in_u 32 (default 0 tok) /\
       match tys with [] => default 0 tok = 0 | _ => token_of t (TokLocals tys) (default 0 tok) end).
Proof.
  destruct tys as [|ty tys]; [by apply writes_ret|].
  eapply writes_bind; [apply (sink_writes fin t (TokLocals (ty :: tys)) (fun E => locals_sig_token (ty :: tys))), locals_sig_token_law|].
  intros tok. apply writes_ret. by intros ? (-> & ? & ?).
Qed.

Lemma local_types_ok fin asm (locals : list LocalDef) tys : grows asm fin ->
  map_outcome (fun '(_, t) => get_type (E := unit) asm t) locals = Ok tys ->
  Forall2 (fun l ty => types fin !! slot (snd l) = Some ty) locals tys.
Proof.
  intros Hg Hm%map_outcome_Forall2. eapply Forall2_impl; [exact Hm|]. intros [n i] ty Hi%arena_get_ok.
  eapply prefix_lookup_Some; [exact Hi|apply Hg].
Qed.

Lemma maxstack_nonneg asm blocks m : compute_maxstack_from_body (E := unit) ifuel asm blocks = Ok m -> 0 <= m.
Proof.
  intros (sizes & _ & [= <-])%bind_ok. unfold maximum.
  induction (map _ sizes); cbn; lia.
Qed.

Lemma ranges_ok n ranges : Forall (within 0 n) ranges -> n < 2 ^ 32 -> Forall range_ok ranges.
Proof.
  intros Hw Hn. eapply list.Forall_impl; [exact Hw|]. intros [[[ts te] hs] he] (? & ? & ?).
  unfold range_ok, in_u. lia.
Qed.

(** What an assembled body holds, by an assembly and tables that came later. *)
Lemma assembled_body_items fin t blocks locals asm tokens s' body :
  assemble_method_body (E := unit) sfuel mfuel nfuel rfuel ifuel blocks locals (new_emitter asm tokens) = (s', Ok body) ->
  body_ok fin -> until fin t s' -> in_u 24 (4 + Z.of_nat (length (clauses s')) * 24) ->
  exists n items is_ file ranges catch asm0 depth,
    blocks_code fin t sfuel ifuel blocks 0 n items (clauses s') /\
    read_method (ab_bytes body) = Some file /\
    decode_all (mf_code file) = Some is_ /\ stream_of items is_ /\
    map_outcome (resolve_clause (E := unit) s') (clauses s') = Ok ranges /\
    Forall (within 0 (Z.of_nat (length (mf_code file)))) ranges /\ StronglySorted inner_first ranges /\
    mf_clauses file = map (eh_clause catch) ranges /\ catch_code fin t (length ranges) catch /\
    locals_code fin t locals (mf_locals file) /\ mf_init_locals file = true /\
    grows asm0 fin /\ compute_maxstack_from_body (E := unit) ifuel asm0 blocks = Ok depth /\
    mf_maxstack file = Z.min depth 0xFFFF.
Proof.
  intros Hr Hok Hu3 Hfew. unfold assemble_method_body in Hr.
  apply st_bind_ok in Hr as (s1 & [] & Hbody & Hr).
  apply st_bind_ok in Hr as (s2 & depth & Hdepth & Hr). injection Hdepth as <- Hdepth.
  apply st_bind_ok in Hr as (s2 & tys & Htys & Hr). injection Htys as <- Htys.
  apply st_bind_ok in Hr as (s2 & ltok & Hltok & Hr).
  apply st_bind_ok in Hr as (s3 & ranges & Hranges & Hr). injection Hranges as <- Hranges.
  apply st_bind_ok in Hr as (s3 & catch & Hcatch & Hr).
  apply st_bind_ok in Hr as (s4 & names & Hnames & Hr). injection Hnames as <- Hnames.
  apply st_bind_ok in Hr as (s4 & s4' & [= <- <-] & Hr).
  apply st_bind_ok in Hr as (s4 & b & [= <- Hb] & [= <- <-]).
  destruct (silent_step fin t _ _ _ _ _ (catch_writes fin t ranges) Hcatch Hu3) as (Hu2 & Ho2 & Hl2 & Hc2 & Hcr & Hcc).
  destruct (silent_step fin t _ _ _ _ _ (locals_writes fin t tys) Hltok Hu2) as (Hu1 & Ho1 & Hl1 & Hc1 & Hlr & Hlc).
  destruct (emit_body_items sfuel mfuel nfuel rfuel ifuel fin t _ _ _ _ Hbody Hu1 Hok)
    as (n & items & is_ & Hcode & Hi & Hn & Hl & Hres & Hio & Hout).
  destruct (clauses_resolve _ _ _ _ _ _ _ _ _ Hcode Hi Hn Hl Hres) as (rs & Hrs & Hin & Hsorted).
  assert (forall s : Emitter T, label_offsets s = label_offsets s1 -> clauses s = clauses s1 ->
    map_outcome (resolve_clause (E := unit) s) (clauses s) = Ok rs) as Hany.
  { intros s Hsl ->. apply map_outcome_Forall2. apply map_outcome_Forall2 in Hrs.
    eapply Forall2_impl; [exact Hrs|]. intros c r <-. unfold resolve_clause, resolve_label. by rewrite Hsl. }
  rewrite (Hany s2 Hl1 Hc1) in Hranges. injection Hranges as <-.
  assert (Hlen : length rs = length (clauses s1)).
  { apply map_outcome_Forall2, Forall2_length in Hrs. done. }
  rewrite Hc2, Hc1 in Hfew |- *. rewrite <- Hlen in Hfew. rewrite <- Hout in Hin.
  assert (Hcode_len : Z.of_nat (length (em_out s3)) < 2 ^ 32).
  { unfold finish_body in Hb. cbv zeta in Hb. apply bind_ok in Hb as (size & Hs & _). unfold expect_u32 in Hs.
    by destruct (Z.ltb_spec (Z.of_nat (length (em_out s3))) (2 ^ 32)). }
  rewrite Ho2, Ho1 in Hb, Hcode_len.
  destruct (finish_body_reads_back _ _ _ _ _ _ _ Hb) as [Hread _]; [by eapply maxstack_nonneg|done|done|by eapply ranges_ok|done|].
  exists n, items, is_, (mk_MethodFile true (Z.min depth 0xFFFF) (default 0 ltok) (em_out s1) (map (eh_clause catch) rs)),
    rs, catch, (em_asm s1), depth.
  cbn [ab_bytes mf_code mf_clauses mf_locals mf_init_locals mf_maxstack].
  split_and!; try done.
  - rewrite Hout. by apply decode_all_encode.
  - apply resolved_stream; [done|]. by rewrite <- Hl.
  - rewrite <- Hc1, <- Hc2. apply Hany; congruence.
  - exists tys. split; [|done]. eapply local_types_ok; [|exact Htys]. apply Hu1.
  - apply Hu1.
Qed.

(** C15: an assembled body reads back as what it was assembled from: the code decodes to the
    instructions of the blocks with its branches in place, the exception clauses are nested ranges of
    the code that catch [System.Object], the locals are the token of their signature, and the stack
    depth is the computed one, at most 65535. *)
Theorem assembled_body_reads_back blocks locals asm tokens s' body :
  assemble_method_body (E := unit) sfuel mfuel nfuel rfuel ifuel blocks locals (new_emitter asm tokens) = (s', Ok body) ->
  body_ok (em_asm s') -> sound (em_tokens s') -> in_u 24 (4 + Z.of_nat (length (clauses s')) * 24) ->
  let fin := em_asm s' in let t := em_tokens s' in
  exists n items is_ file ranges catch asm0 depth,
    blocks_code fin t sfuel ifuel blocks 0 n items (clauses s') /\
    read_method (ab_bytes body) = Some file /\
    decode_all (mf_code file) = Some is_ /\ stream_of items is_ /\
    map_outcome (resolve_clause (E := unit) s') (clauses s') = Ok ranges /\
    Forall (within 0 (Z.of_nat (length (mf_code file)))) ranges /\ StronglySorted inner_first ranges /\
    mf_clauses file = map (eh_clause catch) ranges /\ catch_code fin t (length ranges) catch /\
    locals_code fin t locals (mf_locals file) /\ mf_init_locals file = true /\
    grows asm0 fin /\ compute_maxstack_from_body (E := unit) ifuel asm0 blocks = Ok depth /\
    mf_maxstack file = Z.min depth 0xFFFF.
Proof.
  intros Hr Hok Hsound Hfew fin t. eapply assembled_body_items; [exact Hr|done| |done]. by split_and!.
Qed.

(** Assembling a body only adds to the assembly and to the tables, whatever its outcome. *)
Lemma writes_ext {A} (m : M A) P : (forall t, writes empty_assembly t m (P t)) -> steps ext m.
Proof. intros Hm s. destruct (m s) as [s' o] eqn:Hr. by destruct (Hm (em_tokens s) _ _ _ Hr). Qed.

Lemma empty_body_ok : body_ok empty_assembly.
Proof. split; intros [] x Hx; discriminate Hx. Qed.

Lemma emit_body_ext blocks : steps ext (emit_body (E := unit) sfuel mfuel nfuel rfuel ifuel blocks : M unit).
Proof.
  unfold emit_body. apply steps_bind; [exact _| |].
  - intros s. destruct (for_each _ _ s) as [s' o] eqn:Hr.
    by destruct (blocks_emits empty_assembly (em_tokens s) sfuel mfuel nfuel ifuel empty_body_ok rfuel blocks _ _ _ Hr).
  - intros _ s. destruct (patch_branches s) as [s' o] eqn:Hr. destruct (patch_branches_frame _ _ _ Hr) as [Ha Ht].
    cbn. split; rewrite ?Ha, ?Ht; reflexivity.
Qed.

Lemma assemble_ext blocks locals :
  steps ext (assemble_method_body (E := unit) sfuel mfuel nfuel rfuel ifuel blocks locals : M AssembledBody).
Proof.
  unfold assemble_method_body. apply steps_bind; [exact _|apply emit_body_ext|intros _].
  repeat (apply steps_bind; [exact _| |intros ?]); try (apply steps_reads; exact _); try (apply steps_ret; exact _);
    try (apply steps_ask; exact _); try (apply steps_lift; exact _).
  - eapply writes_ext. intros t. apply locals_writes.
  - eapply writes_ext. intros t. apply catch_writes.
Qed.
End body.
