(* ===== verification/BodySample.v ===== *)
(** * A body, assembled

    One body with a protected block, a handler that stores the caught exception and a terminate
    region: the theorems of the body writer at work on it. *)

From S2P Require Import Prelude Interner Types Class IR Arenas Walk Assign Block Method Opt Layout Heaps.
From S2P Require Import Signature SigTheory Cil OptSem CilSem Body BodySpec BodyTables BodyTheory BodyEmit BodyLabels.
From S2P Require Import BodyClauses BodyDepth BodyStack BodyRoots BodyLayout BodyMaxstack BodyHeader.
From stdpp Require Import sorting.
Local Open Scope Z_scope.

Definition body_sample : Assembly :=
  set_roots (set_nodes empty_assembly
    [CILNode.Const (Const.I32 5); CILNode.GetException; CILNode.Const (Const.I64 700)])
    [CILRoot.Pop 1%positive; CILRoot.Branch 1 1 None; CILRoot.ExitSpecialRegion 1 1;
     CILRoot.StLoc 0 2%positive; CILRoot.ExitSpecialRegion 1 2;
     CILRoot.TerminateRegion 1%positive 0; CILRoot.Ret 3%positive].

Definition sample_blocks : list BasicBlock :=
  [mk_block [1; 2; 3]%positive 0 (Some [mk_block [4; 5]%positive 2 None None]) None;
   mk_block [6; 7]%positive 1 None None].

Definition body_run : Emitter rows * outcome unit unit :=
  emit_body 5 5 5 5 20 sample_blocks (new_emitter body_sample []).
Definition body_end : Emitter rows := fst body_run.

Definition assembled : Emitter rows * outcome unit AssembledBody :=
  assemble_method_body 5 5 5 5 20 sample_blocks [] (new_emitter body_sample []).
Definition assembled_end : Emitter rows := fst assembled.
Definition assembled_body : AssembledBody :=
  match snd assembled with Ok b => b | _ => mk_Body [] [] None [] 0 end.

Lemma body_sample_ok asm : nodes asm = nodes body_sample -> roots asm = roots body_sample -> body_ok asm.
Proof. intros Hn Hr. apply body_ok_alt; rewrite ?Hn, ?Hr; repeat constructor; cbn; unfold int_in; cbn; done. Qed.

(** The arities the tables of the run give tokens. *)
Definition row_arity (fin : Assembly) (r : rows) : Arity := fun tok =>
  match r !! Z.to_nat tok with
  | Some (TokMethod m _) =>
      mr ← method_refs fin !! slot m;
      fs ← sigs fin !! slot (mr_sig mr);
      Some (method_arity (mr_kind mr) fs)
  | _ => None
  end.

Definition is_calli (q : TokenQuery) : bool := match q with TokCalli _ _ => true | _ => false end.

Lemma row_arity_ok fin r : Forall (fun q => is_calli q = false) r -> arity_ok fin r (row_arity fin r).
Proof.
  intros Hr. split.
  - intros m mr fs tok Hm Hs Htok. cbn in Htok. unfold row_at in Htok. unfold row_arity. rewrite Htok, Hm. cbn. by rewrite Hs.
  - intros fuel fs key blob s s' tok _ _ _ Htok. cbn in Htok. unfold row_at in Htok.
    rewrite list.Forall_lookup in Hr. by apply Hr in Htok.
Qed.

Lemma sample_balanced asm : nodes asm = nodes body_sample -> roots asm = roots body_sample ->
  Forall (block_balanced asm 1) sample_blocks.
Proof.
  intros Hn Hr.
  assert (Hc : forall c, balanced asm (CILNode.Const c)) by (intros c; constructor; [done|]; intros ? ? Hin; set_solver).
  assert (Hpop : root_balanced asm 1 (CILRoot.Pop 1%positive)).
  { constructor; [done|..]; intros id k Hin; [|set_solver].
    apply list_elem_of_singleton in Hin as ->. rewrite Hn. intros [= <-]. apply Hc. }
  assert (Hret : root_balanced asm 1 (CILRoot.Ret 3%positive)).
  { constructor; [done|..]; intros id k Hin; [|set_solver].
    apply list_elem_of_singleton in Hin as ->. rewrite Hn. intros [= <-]. apply Hc. }
  assert (Hbr : forall r, CILRoot.visit_nodes r = [] -> CILRoot.visit_child_roots r = [] ->
    root_own_balanced asm 1 r -> root_balanced asm 1 r).
  { intros r H1 H2 Ho. constructor; [done|..]; rewrite ?H1, ?H2; intros ? ? Hin; set_solver. }
  assert (Hterm : root_balanced asm 1 (CILRoot.TerminateRegion 1%positive 0)).
  { constructor; [done|..]; intros id k Hin; [set_solver|].
    apply list_elem_of_singleton in Hin as ->. rewrite Hr. by intros [= <-]. }
  constructor; [|constructor; [|constructor]]; split; try done; cbn [bb_roots handler].
  - repeat (constructor; [intros r; rewrite Hr; intros [= <-]; first [exact Hpop|by apply Hbr]|]). constructor.
  - intros h [= <-]. right. eexists _, _, _, _. split_and!; [reflexivity|reflexivity|..].
    + exists 0, 2%positive. rewrite Hn, Hr. done.
    + constructor; [|constructor]. intros r. rewrite Hr. intros [= <-]. by apply Hbr.
  - repeat (constructor; [intros r; rewrite Hr; intros [= <-]; first [exact Hterm|exact Hret]|]). constructor.
Qed.

Lemma body_code_decodes_witness :
  exists n items is_,
    blocks_code (em_asm body_end) (em_tokens body_end) 5 20 sample_blocks 0 n items (clauses body_end) /\
    decode_all (em_out body_end) = Some is_ /\ stream_of items is_.
Proof.
  apply (body_code_decodes 5 5 5 5 20 sample_blocks body_sample []);
    [vm_compute; reflexivity|apply body_sample_ok; reflexivity|exact I].
Defined.

Lemma body_clauses_nested_witness :
  exists ranges, map_outcome (resolve_clause (E := unit) body_end) (clauses body_end) = Ok ranges /\
    Forall (within 0 (Z.of_nat (length (em_out body_end)))) ranges /\ StronglySorted inner_first ranges.
Proof.
  apply (body_clauses_nested 5 5 5 5 20 sample_blocks body_sample []);
    [vm_compute; reflexivity|apply body_sample_ok; reflexivity|exact I].
Defined.

Lemma finish_body_reads_back_witness :
  let b := mk_Body ([19; 48; 2; 0; 1; 0; 0; 0; 0; 0; 0; 0] ++ [42]) [] None [] 1 in
  finish_body (E := unit) [42] 2 None [] 0 [] = Ok b /\
  read_method (ab_bytes b) = Some (mk_MethodFile true 2 0 [42] []) /\ ab_code_len b = 1.
Proof.
  intros b. split; [vm_compute; reflexivity|].
  apply (finish_body_reads_back [42] 2 None [] 0 [] b);
    [vm_compute; reflexivity|lia|split; [done|vm_compute; reflexivity]|split; [done|vm_compute; reflexivity]|constructor|].
  split; [vm_compute; discriminate|vm_compute; reflexivity].
Defined.

Lemma assembled_body_reads_back_witness :
  exists file, read_method (ab_bytes assembled_body) = Some file /\ mf_maxstack file = 13 /\
    length (mf_clauses file) = 2%nat /\ exists is_, decode_all (mf_code file) = Some is_.
Proof.
  destruct (assembled_body_reads_back 5 5 5 5 20 sample_blocks [] body_sample [] assembled_end assembled_body)
    as (n & items & is_ & file & ranges & catch & asm0 & depth & _ & Hf & Hd & _).
  - vm_compute. reflexivity.
  - apply body_sample_ok; reflexivity.
  - exact I.
  - split; [vm_compute; discriminate|vm_compute; reflexivity].
  - exists file. split; [exact Hf|]. split; [|split; [|by exists is_]].
    + enough (Some (mf_maxstack file) = Some 13) as [= ->] by reflexivity. change (Some (mf_maxstack file)) with (mf_maxstack <$> Some file).
      rewrite <- Hf. vm_compute. reflexivity.
    + enough (Some (length (mf_clauses file)) = Some 2%nat) as [= ->] by reflexivity.
      change (Some (length (mf_clauses file))) with ((fun f => length (mf_clauses f)) <$> Some file).
      rewrite <- Hf. vm_compute. reflexivity.
Defined.

Lemma maxstack_suffices_witness :
  exists n items is_ peak,
    blocks_code (em_asm body_end) (em_tokens body_end) 5 20 sample_blocks 0 n items (clauses body_end) /\
    decode_all (em_out body_end) = Some is_ /\ stream_of items is_ /\
    item_depths (row_arity (em_asm body_end) (em_tokens body_end)) 1
      (fun label => bool_decide (label ∈ map handler_start (clauses body_end))) items 0 = Some (0%nat, peak) /\
    Z.of_nat peak <= 13.
Proof.
  apply (maxstack_suffices 5 5 5 5 20 sample_blocks body_sample []).
  - vm_compute. reflexivity.
  - apply body_sample_ok; reflexivity.
  - exact I.
  - apply row_arity_ok. vm_compute. repeat constructor.
  - apply sample_balanced; reflexivity.
  - discriminate.
  - vm_compute. reflexivity.
  - intros id z Hid Hz. cbn in Hid.
    repeat (apply elem_of_cons in Hid as [->|Hid]; [vm_compute in Hz; injection Hz as <-; vm_compute; reflexivity|]).
    clear Hz. by apply elem_of_nil in Hid.
Defined.
