(* ===== verification/TablesBuilt.v ===== *)
(** * Metadata tables, from the first operation to a reader

    [populated] collects the builders that the operations and queries of the exporter reach.  They are
    well-formed, their values fit the columns, and what a reader finds in the serialized metadata is
    tables whose every column names what is there. *)

From S2P Require Import Prelude Interner Types Class IR Arenas Walk Assign Block Method Layout Heaps Signature SigTheory.
From S2P Require Import Cil Body BodySpec BodyTheory BodyClauses BodyRoots BodyLayout BodyHeader.
From S2P Require Import Tables TablesRead TablesOps TablesGrow TablesWf TablesTheory TablesRuns TablesSink TablesSinkTheory.
From S2P Require BodySample.
From stdpp Require Import sorting.
Local Open Scope Z_scope.

(** ** Values fit their columns *)

Definition bits_ok (c : Column) : Prop :=
  match c with CCoded bits _ | CNullable bits _ => 0 <= bits <= 5 | _ => True end.

Lemma schema_bits t : Forall bits_ok (default [] (schema t)).
Proof.
  destruct t as [|p|p]; [by repeat constructor| |by constructor].
  do 6 (try (destruct p as [p|p|]; try by repeat constructor)).
Qed.

(** The tables whose rows other rows start runs of. *)
Definition run_tables : list Z := [TABLE_FIELD; TABLE_METHOD_DEF; TABLE_PARAM; TABLE_EVENT; TABLE_PROPERTY].
Definition run_ok (b : MetadataBuilder) (c : Column) : Prop :=
  match c with CRun t => len (table_rows b t) <> 65535 | _ => True end.

Lemma schema_run_tables t : Forall (fun c => match c with CRun t => t ∈ run_tables | _ => True end) (default [] (schema t)).
Proof.
  assert (H : forall t, t ∈ [TABLE_FIELD; TABLE_METHOD_DEF; TABLE_PARAM; TABLE_EVENT; TABLE_PROPERTY] -> t ∈ run_tables) by done.
  destruct t as [|p|p]; [by repeat constructor| |by constructor].
  do 6 (try (destruct p as [p|p|]; try by repeat constructor)).
Qed.
Lemma schema_runs b t : (forall t, t ∈ run_tables -> len (table_rows b t) <> 65535) -> Forall (run_ok b) (default [] (schema t)).
Proof.
  intros Hruns. eapply list.Forall_impl; [apply schema_run_tables|]. intros [] Hc; try done. by apply Hruns.
Qed.

Section fit.
Context (b : MetadataBuilder) (Hwf : wf b) (Hs : small b).

Lemma counted t : count_of (present_counts b) t = len (table_rows b t).
Proof. by rewrite present_count, count_rows. Qed.

Lemma heap_offset {fmt : HeapFormat} h k off : heap_ok (H := fmt) h -> Heaps.find (H := fmt) h k = Some off ->
  0 <= off <= len (heap_data h).
Proof.
  intros Hok. unfold Heaps.find. destruct (heap_implicit k); [intros [= <-]; unfold len; lia|].
  intros Hf. apply (holds_items _ Hok) in Hf as (_ & _ & H & _). exact H.
Qed.

Lemma max_of (f : Z -> Z) targets (tag : nat) t : targets !! tag = Some t -> f t <= foldr Z.max 0 (map f targets).
Proof.
  revert tag. induction targets as [|x l IH]; intros [|tag]; cbn; [done|done|intros [= ->]; lia|].
  intros H%IH. lia.
Qed.

Lemma target_fits bits targets v : 0 <= bits <= 5 -> target b bits targets v ->
  fits (size_of b (CCoded bits targets)) v.
Proof.
  intros Hb (tag & t & rid & Ht & Htag & Hr & ->). destruct Hs as (Hrows & _). specialize (Hrows t).
  pose proof (max_of (count_of (present_counts b)) _ _ _ Ht) as Hmax. rewrite counted in Hmax.
  assert (0 < 2 ^ bits <= 2 ^ 5) by (split; [apply Z.pow_pos_nonneg; lia|apply Z.pow_le_mono_r; lia]).
  unfold fits, in_u, size_of, column_size, column_wide.
  destruct (Z.leb_spec (2 ^ (16 - bits)) (foldr Z.max 0 (map (count_of (present_counts b)) targets))) as [|Hn].
  - change (8 * Z.of_nat 4) with 32. split; [nia|]. change (2 ^ 32) with 4294967296. change (2 ^ 24) with 16777216 in *. nia.
  - change (8 * Z.of_nat 2) with 16. replace (2 ^ 16) with (2 ^ (16 - bits) * 2 ^ bits) by (rewrite <- Z.pow_add_r by lia; f_equal; lia).
    split; [nia|]. assert (rid + 1 <= 2 ^ (16 - bits)) by lia. nia.
Qed.

Lemma column_fits c v : bits_ok c -> run_ok b c -> column_ok b c v -> fits (size_of b c) v.
Proof.
  intros Hb Hr Hv. destruct (wf_heaps _ Hwf) as (Hh & Hbl & _). destruct Hs as (Hrows & Hstr & Hblob & _ & Hg).
  destruct c; cbn [column_ok] in Hv.
  - exact Hv.
  - exact Hv.
  - exact Hv.
  - destruct Hv as [s Hv]. apply (heap_offset _ _ _ Hh) in Hv.
    unfold fits, in_u, size_of, column_size, column_wide. destruct (heap_bits b) as (-> & _ & _).
    cbn [compute_widths str_wide]. destruct (Z.ltb_spec 0xFFFF (len (heap_data (h_strings b)))).
    + change (2 ^ (8 * Z.of_nat 4)) with (2 ^ 32). lia.
    + change (2 ^ (8 * Z.of_nat 2)) with 65536. lia.
  - unfold fits, in_u, size_of, column_size, column_wide. destruct (heap_bits b) as (_ & -> & _).
    assert (len (h_guids b) / 16 <= len (h_guids b)) by (apply Z.div_le_upper_bound; unfold len; lia).
    cbn [compute_widths guid_wide]. destruct (Z.ltb_spec 0xFFFF (len (h_guids b))).
    + change (2 ^ (8 * Z.of_nat 4)) with (2 ^ 32). lia.
    + change (2 ^ (8 * Z.of_nat 2)) with 65536. lia.
  - destruct Hv as [s Hv]. apply (heap_offset _ _ _ Hbl) in Hv.
    unfold fits, in_u, size_of, column_size, column_wide. destruct (heap_bits b) as (_ & _ & ->).
    cbn [compute_widths blob_wide]. destruct (Z.ltb_spec 0xFFFF (len (heap_data (h_blobs b)))).
    + change (2 ^ (8 * Z.of_nat 4)) with (2 ^ 32). lia.
    + change (2 ^ (8 * Z.of_nat 2)) with 65536. lia.
  - specialize (Hrows table). unfold fits, in_u, size_of, column_size, column_wide. rewrite counted.
    destruct (Z.leb_spec (2 ^ 16) (len (table_rows b table))).
    + change (2 ^ (8 * Z.of_nat 4)) with (2 ^ 32). lia.
    + change (2 ^ (8 * Z.of_nat 2)) with (2 ^ 16). lia.
  - specialize (Hrows table). cbn in Hr. unfold fits, in_u, size_of, column_size, column_wide. rewrite counted.
    destruct (Z.leb_spec (2 ^ 16) (len (table_rows b table))).
    + change (2 ^ (8 * Z.of_nat 4)) with (2 ^ 32). lia.
    + change (2 ^ (8 * Z.of_nat 2)) with (2 ^ 16). lia.
  - by apply target_fits.
  - destruct Hv as [->|Hv]; [|by apply target_fits]. unfold fits, in_u. split; [done|]. apply Z.pow_pos_nonneg; lia.
Qed.

Lemma row_fits t row : (forall t, t ∈ run_tables -> len (table_rows b t) <> 65535) ->
  row_ok b t row -> Forall2 fits (row_sizes b t) row.
Proof.
  intros Hruns Hrow. unfold row_sizes. apply list.Forall2_fmap_l.
  assert (H : Forall (fun c => bits_ok c /\ run_ok b c) (default [] (schema t))).
  { apply list.Forall_and. split; [apply schema_bits|by apply schema_runs]. }
  revert H. induction Hrow as [|c v l l' Hv _ IH]; [done|]. intros [[Hb Hr] H]%list.Forall_cons.
  constructor; [by apply column_fits|by apply IH].
Qed.

Lemma all_rows_ok t rows : (t, rows) ∈ contents b -> Forall (row_ok b t) rows.
Proof. intros Hin%contents_rows. rewrite Hin. apply (wf_rows _ Hwf). Qed.

Lemma count_in (counts : list (Z * Z)) t n : NoDup (map fst counts) -> (t, n) ∈ counts -> count_of counts t = n.
Proof.
  unfold count_of. induction counts as [|[t' n'] counts IH]; intros Hd Hin; [by apply elem_of_nil in Hin|].
  cbn [map fst] in Hd. inversion Hd as [|? ? Hnin Hd']; subst. cbn [List.find].
  apply elem_of_cons in Hin as [[= <- <-]|Hin]; [by rewrite Z.eqb_refl|].
  destruct (Z.eqb_spec t' t) as [->|]; [|by apply IH]. destruct Hnin. apply list_elem_of_fmap. by exists (t, n).
Qed.

Lemma well_formed_fits : (forall t, t ∈ run_tables -> len (table_rows b t) <> 65535) -> rows_fit b.
Proof.
  intros Hruns. split; apply list.Forall_forall; intros [t x] Hin.
  - pose proof (all_rows_ok _ _ Hin) as Hok. eapply list.Forall_impl; [exact Hok|]. intros row. by apply row_fits.
  - assert (Hx : count_of (table_rowcounts (row_counts b)) t = x).
    { apply count_in; [|exact Hin]. apply ascending_NoDup, tables_ascending. }
    rewrite count_rows in Hx. subst x. destruct Hs as [Hrows _]. specialize (Hrows t). unfold in_u, len in *. lia.
Qed.
End fit.

(** ** Builders that the exporter reaches *)

Section populated.
Context {hash_order : HashMapOrder} (mfuel sfuel : nat).
#[local] Instance module_sink : TokenSink MetadataBuilder := builder_sink mfuel sfuel.
#[local] Instance module_sink_laws : TokenSinkLaws MetadataBuilder := builder_sink_laws mfuel sfuel.

Definition ask_token (q : TokenQuery) : ST (MetadataBuilder * Assembly) unit Z :=
  match q with
  | TokMethod m generics => builder_method_token sfuel m generics
  | TokField f => builder_field_token sfuel f
  | TokStatic f => builder_static_field_token sfuel f
  | TokString s => on_tables (builder_user_string_token s)
  | TokCalli key bytes => on_tables (builder_calli_sig_token key bytes)
  | TokLocals l => builder_locals_sig_token mfuel sfuel l
  | TokType t => builder_type_token sfuel t
  end.

(** From the new builder, by operations on what earlier ones returned, by queries for tokens, by custom
    attributes and sequence parameters, and by assembling method bodies, which asks for tokens. *)
Inductive populated : MetadataBuilder -> Prop :=
| populated_new : populated MetadataBuilder_new
| populated_op b op b' tok :
    populated b -> op_ok b op -> run_op (E := unit) op b = (b', Ok tok) -> populated b'
| populated_query b q asm b' asm' tok :
    populated b -> ask_token q (b, asm) = ((b', asm'), Ok tok) -> populated b'
| populated_attribute b parent attr asm b' asm' tok :
    populated b -> valid b parent -> add_custom_attribute (E := unit) sfuel parent attr (b, asm) = ((b', asm'), Ok tok) ->
    populated b'
| populated_param b method sequence b' tok :
    populated b -> token_for_sequence (E := unit) method sequence b = (b', Ok tok) -> populated b'
| populated_body b asm enc_fuel sig_fuel node_fuel root_fuel inst_fuel blocks locals s' o :
    populated b ->
    assemble_method_body (E := unit) enc_fuel sig_fuel node_fuel root_fuel inst_fuel blocks locals (new_emitter asm b) = (s', o) ->
    populated (em_tokens s').

(** The new builder has the pseudo class of the module. *)
Lemma new_builder_wf : wf MetadataBuilder_new.
Proof.
  split.
  - split_and!; [|apply empty_heap_ok|done].
    refine (proj1 (strings_intern_keeps (E := Empty_set) (ascii_bytes "<Module>") empty_heap _ (Ok 1) empty_heap_ok _)).
    vm_compute. reflexivity.
  - intros t. destruct t as [|p|p]; [by constructor| |by constructor].
    do 6 (try (destruct p as [p|p|]; try by constructor)).
    apply list.Forall_cons_2; [|by constructor]. unfold row_ok. cbn [schema default from_option id].
    repeat apply List.Forall2_cons; [..|by apply List.Forall2_nil]; [done|..].
    + by exists (ascii_bytes "<Module>").
    + by exists [].
    + by left.
    + change (1 <= 1 <= len (table_rows MetadataBuilder_new 4) + 1). unfold len. lia.
    + change (1 <= 1 <= len (table_rows MetadataBuilder_new 6) + 1). unfold len. lia.
  - constructor; intros *.
    3: { intros Hm. assert (Hd : ns = ""%string /\ n = "<Module>"%string /\ tok = token_new TABLE_TYPE_DEF 1).
         { unfold type_def_of in Hm. apply bind_Some in Hm as (m & Hm & Hn).
           change (type_def_cache MetadataBuilder_new) with
             (<["" := <["<Module>" := token_new TABLE_TYPE_DEF 1]> (∅ : gmap string Z)]> (∅ : gmap string (gmap string Z)))%string in Hm.
           apply lookup_insert_Some in Hm as [[<- <-]|[_ []%lookup_empty_Some]].
           by apply lookup_insert_Some in Hn as [[<- <-]|[_ []%lookup_empty_Some]]. }
         destruct Hd as (-> & -> & ->). exists 1, 0. split_and!; [|done|done]. exists 1, [0; 1; 0; 0; 1; 1]. by split_and!. }
    all: match goal with |- ?m !! _ = _ -> _ => let T := type of m in change m with (∅ : T) end; intros []%lookup_empty_Some.
Qed.

Lemma ask_token_answers q s : answers both (ask_token q) s (fun tok s' => answer (fst s') q tok).
Proof.
  destruct q; cbn [ask_token].
  - apply answers_method_token.
  - apply answers_field_token.
  - apply answers_static_field_token.
  - apply answers_tables, answers_user_string.
  - apply answers_tables, answers_calli.
  - apply answers_locals.
  - apply answers_type_token.
Qed.
Lemma ask_follows q b asm b' asm' o : ask_token q (b, asm) = ((b', asm'), o) -> follows b b'.
Proof. intros Hr. by destruct (ask_token_answers q _ _ _ Hr) as [[F _] _]. Qed.
Lemma ask_answers q b asm b' asm' tok : ask_token q (b, asm) = ((b', asm'), Ok tok) -> answer b' q tok.
Proof. intros Hr. destruct (ask_token_answers q _ _ _ Hr) as [_ H]. by apply H. Qed.

Lemma attribute_follows parent attr b asm b' asm' o :
  valid b parent -> add_custom_attribute (E := unit) sfuel parent attr (b, asm) = ((b', asm'), o) -> follows b b'.
Proof.
  intros Hp Hr. assert (H : answers both (add_custom_attribute (E := unit) sfuel parent attr) (b, asm) (fun _ _ => True)).
  { unfold add_custom_attribute.
    answered (fun tok s' => class_answer (fst s') (attr_type attr) tok); [apply answers_class_ref_token|].
    apply (valid_grows _ _ _ (fo_grows _ _ (proj1 R))) in Hp.
    quiet; [by apply answers_lift; [exact _|]|]. apply (valid_grows _ _ _ (fo_grows _ _ (proj1 R0))) in Hp.
    quiet; [by apply answers_lift; [exact _|]|]. apply (valid_grows _ _ _ (fo_grows _ _ (proj1 R1))) in Hp.
    answered (fun off s' => is_blob (fst s') off).
    { apply answers_tables. eapply answers_mono; [apply answers_intern_blob|]. intros off b0 _ Hb. eexists. exact Hb. }
    apply (valid_grows _ _ _ (fo_grows _ _ (proj1 R2))) in Hp.
    answered (fun tok s' => member_answer (fst s') tok); [by eapply answers_member|].
    apply (valid_grows _ _ _ (fo_grows _ _ (proj1 R3))) in Hp.
    quiet; [reading|]. apply (valid_grows _ _ _ (fo_grows _ _ (proj1 R4))) in Hp.
    answered (fun off s' => is_blob (fst s') off).
    { apply answers_tables. eapply answers_mono; [apply answers_intern_blob|]. intros off b0 _ Hb. eexists. exact Hb. }
    apply (valid_grows _ _ _ (fo_grows _ _ (proj1 R5))) in Hp.
    apply answers_tables, follows_yields; [stepping| |apply yields_small; [|stepping]|done].
    - unfold push_custom_attribute. stepping. by apply same_add_row.
    - intros Hwf _. eapply yields_any, yields_push_custom_attribute; [done| |done].
      eapply valid_names, member_answer_ok; done. }
  by destruct (H _ _ Hr) as [[F _] _].
Qed.

Lemma param_follows method sequence b b' o :
  token_for_sequence (E := unit) method sequence b = (b', o) -> follows b b'.
Proof.
  intros Hr. enough (H : answers follows (token_for_sequence (E := unit) method sequence) b (fun _ _ => True)) by by destruct (H _ _ Hr).
  apply follows_yields; [| | |done].
  - unfold token_for_sequence. stepping.
  - unfold token_for_sequence, push_param. stepping; [by apply same_add_row|by apply steps_modify].
  - unfold token_for_sequence. apply yields_ask_bind. destruct (method_param_cache b !! _); [by apply yields_ret|].
    apply yields_assert_bind. intros _. eapply yields_any, yields_push_param; [done|done|apply no_text].
Qed.

Lemma body_follows b asm f1 f2 f3 f4 f5 blocks locals s' o :
  assemble_method_body (E := unit) f1 f2 f3 f4 f5 blocks locals (new_emitter asm b) = (s', o) -> follows b (em_tokens s').
Proof.
  intros Hr. pose proof (assemble_ext f1 f2 f3 f4 f5 blocks locals (new_emitter asm b)) as H. rewrite Hr in H. apply H.
Qed.

(** Well-formedness is an invariant of populating, as long as the tables stay small. *)
Lemma populated_wf b : populated b -> small b -> wf b.
Proof.
  induction 1 as [|b op b' tok _ IH Hok Hr|b q asm b' asm' tok _ IH Hr|b parent attr asm b' asm' tok _ IH Hp Hr|
    b method sequence b' tok _ IH Hr|b asm f1 f2 f3 f4 f5 blocks locals s' o _ IH Hr]; intros Hs; [apply new_builder_wf|..].
  - assert (Hs0 : small b) by (eapply small_grows; [|exact Hs]; pose proof (grows_run_op (E := unit) op b) as G; by rewrite Hr in G).
    by destruct (run_op_yields op b Hok (IH Hs0) _ _ Hr Hs).
  - pose proof (ask_follows _ _ _ _ _ _ Hr) as F. apply F; [|done]. apply IH. by eapply small_grows, Hs; apply F.
  - pose proof (attribute_follows _ _ _ _ _ _ _ Hp Hr) as F. apply F; [|done]. apply IH. eapply small_grows; [apply F|done].
  - pose proof (param_follows _ _ _ _ _ Hr) as F. apply F; [|done]. apply IH. eapply small_grows; [apply F|done].
  - pose proof (body_follows _ _ _ _ _ _ _ _ _ _ _ Hr) as F. apply F; [|done]. apply IH. eapply small_grows; [apply F|done].
Qed.


(** C8: The metadata of a populated builder is read back by a reader of the file format: five streams, whose
    table stream holds each non-empty table, the rows of the builder up to the order that the format asks
    for, and each row has as many columns as its table and names what is there. *)
Theorem populated_metadata_reads_back b : populated b -> small b ->
  (forall t, t ∈ run_tables -> len (table_rows b t) <> 65535) -> len (serialize b) < 2 ^ 32 ->
  exists tables stream,
    read_root (serialize b) =
      Some [(ascii_bytes "#~", tables); (ascii_bytes "#Strings", pad4 (heap_data (h_strings b)));
            (ascii_bytes "#US", pad4 (heap_data (h_user_strings b)));
            (ascii_bytes "#GUID", pad4 (h_guids b)); (ascii_bytes "#Blob", pad4 (heap_data (h_blobs b)))] /\
    read_tables tables = Some stream /\
    Forall (fun '(t, rows) => rows ≡ₚ table_rows b t /\ Forall (row_ok b t) rows) (ts_tables stream) /\
    forall t rows, (t, rows) ∈ contents b -> rows <> [] -> (t, rows) ∈ ts_tables stream.
Proof.
  intros Hp Hs Hruns Hlen. pose proof (populated_wf _ Hp Hs) as Hwf.
  eexists. eexists (mk_TableStream _ _ (nonempty (contents b))). split; [rewrite root_read by done; reflexivity|].
  split; [by apply tables_read, well_formed_fits|].
  generalize (contents_rows b), (all_rows_ok b Hwf). generalize (contents b) as tables. intros tables Hrows Hall.
  split; cbn [ts_tables].
  - apply list.Forall_forall. intros [t rows] Hin.
    assert (Hc : (t, rows) ∈ tables) by (apply list_elem_of_In, filter_In in Hin as [Hin%list_elem_of_In _]; done).
    split; [by apply Hrows|by apply Hall].
  - intros t rows Hin Hne. apply list_elem_of_In, filter_In. split; [by apply list_elem_of_In|].
    apply Z.ltb_lt. destruct rows; [done|]. unfold len. cbn. lia.
Qed.

(** A query that returns a token has put it in the tables, and there it stays: in every later well-formed
    state of the tables the token fits 32 bits, is the answer to the query and names a row of a table that
    the query may name. *)
Lemma asked_token_names_row b q asm b' asm' tok later :
  populated b -> ask_token q (b, asm) = ((b', asm'), Ok tok) ->
  follows b' later -> small later ->
  in_u 32 tok /\ token_row later q tok.
Proof.
  intros Hp Hr F Hs. pose proof (ask_follows _ _ _ _ _ _ Hr) as F0.
  assert (Hs' : small b') by (eapply small_grows; [apply F|done]).
  assert (Hwf : wf b') by (apply (fo_wf _ _ F0); [|done]; apply populated_wf; [done|]; eapply small_grows; [apply F0|done]).
  apply answer_sound; [split; [by apply F|done]|]. eapply answer_follows; [exact F|].
  by apply (ask_answers _ _ _ _ _ _ Hr).
Qed.

End populated.

(** ** A populated builder *)

Fixpoint ops_ok (ops : list Op) (b : MetadataBuilder) : Prop :=
  match ops with [] => True | op :: ops => op_ok b op /\ ops_ok ops (fst (run_op (E := unit) op b)) end.

Lemma populated_ops mfuel sfuel ops b b' :
  populated mfuel sfuel b -> ops_ok ops b -> run_ops (E := unit) ops b = (b', Ok tt) -> populated mfuel sfuel b'.
Proof.
  revert b. induction ops as [|op ops IH]; intros b Hp Hok Hr; cbn [run_ops for_each ops_ok] in *; [by injection Hr as <-|].
  destruct Hok as [Ho Hok].
  apply st_bind_ok in Hr as (b1 & [] & Hop & Hr). apply st_bind_ok in Hop as (b2 & tok & Hop & [= <-]).
  rewrite Hop in Hok. eapply IH; [|exact Hok|exact Hr]. by eapply populated_op.
Qed.

Lemma valid_type_def b rid : 1 <= rid <= len (table_rows b TABLE_TYPE_DEF) -> valid b (token_new TABLE_TYPE_DEF rid).
Proof. intros Hr. exists TABLE_TYPE_DEF, rid. split_and!; [|done..|apply Hr|apply Hr]. apply elem_of_seqZ. done. Qed.

Lemma two_classes_ok : ops_ok two_classes MetadataBuilder_new.
Proof.
  cbn [ops_ok two_classes op_ok].
  repeat match goal with |- (_ /\ _) /\ ops_ok _ _ => split end.
  repeat match goal with
    | |- True => exact I
    | |- is_blob _ 1 => exists [0x20; 0x00; 0x01]; vm_compute; reflexivity
    | |- is_blob _ 5 => exists [0x28; 0x00; 0x08]; vm_compute; reflexivity
    | |- valid _ _ => apply valid_type_def; vm_compute; by split
    | |- Forall _ [] => constructor
    | |- sized None None => done
    | |- _ /\ _ => split end.
Qed.

Lemma two_classes_populated mfuel sfuel : populated mfuel sfuel two_classes_built.
Proof. exact (populated_ops mfuel sfuel two_classes _ _ (populated_new _ _) two_classes_ok two_classes_returns). Qed.

Lemma no_rows b t : ~ 0 <= t < 64 -> table_rows b t = [].
Proof.
  destruct t as [|p|p]; [lia| |done]. intros Hp.
  do 6 (try (destruct p as [p|p|]; try (exfalso; lia))); done.
Qed.

Lemma small_rows b : Forall (fun t => len (table_rows b t) < 2 ^ 24) (seqZ 0 64) -> forall t, len (table_rows b t) < 2 ^ 24.
Proof.
  intros Ha t. destruct (decide (0 <= t < 64)) as [Hin|Hout]; [|by rewrite no_rows].
  rewrite list.Forall_forall in Ha. apply Ha, elem_of_seqZ. done.
Qed.

Lemma two_classes_small : small two_classes_built.
Proof.
  split; [|by vm_compute]. apply small_rows. apply (bool_decide_unpack _). vm_compute. exact I.
Qed.


Lemma populated_metadata_reads_back_witness :
  exists tables stream,
    read_root (serialize two_classes_built) =
      Some [(ascii_bytes "#~", tables); (ascii_bytes "#Strings", pad4 (heap_data (h_strings two_classes_built)));
            (ascii_bytes "#US", pad4 (heap_data (h_user_strings two_classes_built)));
            (ascii_bytes "#GUID", pad4 (h_guids two_classes_built)); (ascii_bytes "#Blob", pad4 (heap_data (h_blobs two_classes_built)))] /\
    read_tables tables = Some stream /\
    (TABLE_EVENT, [[0; 54; 8]; [0; 59; 8]; [0; 62; 8]]) ∈ ts_tables stream.
Proof.
  destruct (populated_metadata_reads_back 0 0 _ (two_classes_populated 0 0) two_classes_small) as (tables & stream & Hr & Ht & _ & H).
  - intros t Ht. assert (Hall : Forall (fun t => len (table_rows two_classes_built t) <> 65535) run_tables).
    { apply (bool_decide_unpack _). vm_compute. exact I. }
    rewrite list.Forall_forall in Hall. by apply Hall.
  - vm_compute. reflexivity.
  - exists tables, stream. split; [exact Hr|]. split; [exact Ht|]. apply H; [|done].
    apply (bool_decide_unpack _). vm_compute. exact I.
Defined.

Definition asked : (MetadataBuilder * Assembly) * outcome unit Z := ask_token 10 10 (TokType (Ty.Int Int.I32)) (two_classes_built, empty_assembly).

Lemma asked_small : small (fst (fst asked)).
Proof. split; [|by vm_compute]. apply small_rows. apply (bool_decide_unpack _). vm_compute. exact I. Qed.

Lemma asked_returns : asked = ((fst (fst asked), snd (fst asked)), Ok 0x1B000001).
Proof. vm_compute. reflexivity. Qed.

Lemma asked_token_names_row_witness :
  in_u 32 0x1B000001 /\ token_row (fst (fst asked)) (TokType (Ty.Int Int.I32)) 0x1B000001.
Proof.
  exact (asked_token_names_row 10 10 _ _ _ _ _ _ _ (two_classes_populated 10 10) asked_returns (PreOrder_Reflexive _) asked_small).
Defined.
(** *** A body over it *)

#[local] Hint Extern 0 (TokenSink MetadataBuilder) => exact (module_sink 10 10) : typeclass_instances.

Local Notation module_body :=
  (assemble_method_body (E := unit) 5 5 5 5 20 BodySample.sample_blocks [] (new_emitter BodySample.body_sample two_classes_built)).
Local Notation module_end := (fst module_body).

Definition module_bytes : AssembledBody :=
  Eval vm_compute in match snd module_body with Ok b => b | _ => mk_Body [] [] None [] 0 end.

Lemma returned {S E A} (p : S * outcome E A) a : snd p = Ok a -> p = (fst p, Ok a).
Proof. destruct p as [s o]. by intros [= ->]. Qed.

Lemma module_body_outcome : snd module_body = Ok module_bytes.
Proof. vm_compute. reflexivity. Qed.

Lemma module_body_returns : module_body = (module_end, Ok module_bytes).
Proof. exact (returned _ _ module_body_outcome). Qed.

Lemma module_body_small : small (em_tokens module_end).
Proof. split; [|by vm_compute]. apply small_rows. apply (bool_decide_unpack _). vm_compute. exact I. Qed.

Lemma module_body_ok : body_ok (em_asm module_end).
Proof. apply BodySample.body_sample_ok; vm_compute; reflexivity. Qed.

Lemma module_body_few : in_u 24 (4 + Z.of_nat (length (clauses module_end)) * 24).
Proof. split; [vm_compute; discriminate|vm_compute; reflexivity]. Qed.

Lemma module_body_clauses ranges : map_outcome (resolve_clause (E := unit) module_end) (clauses module_end) = Ok ranges ->
  length ranges = 2%nat.
Proof.
  intros Hr. enough (H : (match map_outcome (resolve_clause (E := unit) module_end) (clauses module_end) with
    | Ok l => length l | _ => 0%nat end) = 2%nat) by by rewrite Hr in H.
  vm_compute. reflexivity.
Qed.


(** ** Locals of two instantiations

    The cache of local signatures is keyed by mangled names, which leave out generic arguments: a method
    with a local of type [List<int32>] and one with a local of type [List<bool>] get one signature. *)
Definition two_lists : Assembly :=
  set_class_refs (set_strings empty_assembly ["List`1"; "System.Collections"]%string)
    [mk_ClassRef 1%positive (Some 2%positive) false [Ty.Int Int.I32]; mk_ClassRef 1%positive (Some 2%positive) false [Ty.Bool]].

Definition locals_token (cref : Interned KClassRef) (s : MetadataBuilder * Assembly) :=
  builder_locals_sig_token (E := unit) 5 5 [Ty.ClassRef cref] s.
Definition locals_blob (cref : Interned KClassRef) : outcome unit (list Z) :=
  snd (encode_locals_sig (encode_type 5) [Ty.ClassRef cref] (mk_SigState two_lists MetadataBuilder_new)).

Example instantiations_share_locals :
  let first := locals_token 1%positive (MetadataBuilder_new, two_lists) in
  snd first = Ok 0x11000001 /\ snd (locals_token 2%positive (fst first)) = Ok 0x11000001 /\
  locals_blob 1%positive = Ok [0x07; 0x01; 0x15; 0x12; 0x05; 0x01; 0x08] /\
  locals_blob 2%positive = Ok [0x07; 0x01; 0x15; 0x12; 0x05; 0x01; 0x02].
Proof. vm_compute. repeat split; reflexivity. Qed.
