(* ===== verification/Relocate.v ===== *)
(** * Relocation of values between assemblies (cilly/src/ir/asm_link.rs, and [RelocateValue])

    Linking copies the values of a source assembly into a destination: each id found in a value is
    relocated, memoized by its source id, and the rebuilt value is interned.  The traversals of the
    values are written once, over the monad and the relocation of ids; [RelocateCtx] instantiates
    them with the memo tables, their specification with the final contents of those tables. *)

From S2P Require Import Prelude Interner Types Class IR Walk Block Method.

(** ** Traversals *)

(** The methods of [RelocateCtx] that relocate one id, by the kind of the id. *)
Definition relocator (M : Type -> Type) : Type := forall k : kind, Interned k -> M (Interned k).

Section translate.
Context {M : Type -> Type} `{MRet M, MBind M} (ctx : relocator M).

(** [Option::map] *)
Definition map_opt {A B} (f : A -> M B) (o : option A) : M (option B) :=
  match o with Some x => y ← f x; mret (Some y) | None => mret None end.

Definition translate_type (tpe : Ty.t) : M Ty.t :=
  match tpe with
  | Ty.Ptr inner => i ← ctx KType inner; mret (Ty.Ptr i)
  | Ty.Ref inner => i ← ctx KType inner; mret (Ty.Ref i)
  | Ty.Int _ | Ty.Float _ | Ty.PlatformString | Ty.PlatformChar | Ty.Bool | Ty.Void
  | Ty.PlatformObject | Ty.PlatformGeneric _ _ | Ty.SIMDVector _ => mret tpe
  | Ty.ClassRef class_ref => c ← ctx KClassRef class_ref; mret (Ty.ClassRef c)
  | Ty.PlatformArray elem dims => e ← ctx KType elem; mret (Ty.PlatformArray e dims)
  | Ty.FnPtr sig => s ← ctx KSig sig; mret (Ty.FnPtr s)
  end.

Definition translate_const (cst : Const.t) : M Const.t :=
  match cst with
  | Const.PlatformString pstr => s ← ctx KString pstr; mret (Const.PlatformString s)
  | Const.Null cref => c ← ctx KClassRef cref; mret (Const.Null c)
  | Const.ByteBuffer data tpe =>
      d ← ctx KBuffer data; t ← ctx KType tpe; mret (Const.ByteBuffer d t)
  | _ => mret cst
  end.

Definition translate_cast_res (cast_res : PtrCastRes.t) : M PtrCastRes.t :=
  match cast_res with
  | PtrCastRes.Ptr inner => i ← ctx KType inner; mret (PtrCastRes.Ptr i)
  | PtrCastRes.Ref inner => i ← ctx KType inner; mret (PtrCastRes.Ref i)
  | PtrCastRes.FnPtr sig => s ← ctx KSig sig; mret (PtrCastRes.FnPtr s)
  | PtrCastRes.USize | PtrCastRes.ISize => mret cast_res
  end.

Definition translate_node (node : CILNode.t) : M CILNode.t :=
  match node with
  | CILNode.LdLoc _ | CILNode.LdLocA _ | CILNode.LdArg _ | CILNode.LdArgA _ => mret node
  | CILNode.Const cst => c ← translate_const cst; mret (CILNode.Const c)
  | CILNode.BinOp a b op => a ← ctx KNode a; b ← ctx KNode b; mret (CILNode.BinOp a b op)
  | CILNode.UnOp a op => a ← ctx KNode a; mret (CILNode.UnOp a op)
  | CILNode.Call mref args pure =>
      mref ← ctx KMethodRef mref; args ← mapM (ctx KNode) args; mret (CILNode.Call mref args pure)
  | CILNode.IntCast input target extend =>
      input ← ctx KNode input; mret (CILNode.IntCast input target extend)
  | CILNode.FloatCast input target is_signed =>
      input ← ctx KNode input; mret (CILNode.FloatCast input target is_signed)
  | CILNode.RefToPtr input => input ← ctx KNode input; mret (CILNode.RefToPtr input)
  | CILNode.PtrCast input cast_res =>
      input ← ctx KNode input; cast_res ← translate_cast_res cast_res;
      mret (CILNode.PtrCast input cast_res)
  | CILNode.LdFieldAddress addr field =>
      addr ← ctx KNode addr; field ← ctx KField field; mret (CILNode.LdFieldAddress addr field)
  | CILNode.LdField addr field =>
      addr ← ctx KNode addr; field ← ctx KField field; mret (CILNode.LdField addr field)
  | CILNode.LdInd addr tpe volatile =>
      addr ← ctx KNode addr; tpe ← ctx KType tpe; mret (CILNode.LdInd addr tpe volatile)
  | CILNode.SizeOf tpe => tpe ← ctx KType tpe; mret (CILNode.SizeOf tpe)
  | CILNode.GetException => mret CILNode.GetException
  | CILNode.IsInst object tpe =>
      object ← ctx KNode object; tpe ← ctx KType tpe; mret (CILNode.IsInst object tpe)
  | CILNode.CheckedCast object tpe =>
      object ← ctx KNode object; tpe ← ctx KType tpe; mret (CILNode.CheckedCast object tpe)
  | CILNode.CallI fnptr sig args =>
      fnptr ← ctx KNode fnptr; sig ← ctx KSig sig; args ← mapM (ctx KNode) args;
      mret (CILNode.CallI fnptr sig args)
  | CILNode.LocAlloc size => size ← ctx KNode size; mret (CILNode.LocAlloc size)
  | CILNode.LdStaticField sfld => sfld ← ctx KStatic sfld; mret (CILNode.LdStaticField sfld)
  | CILNode.LdStaticFieldAddress sfld =>
      sfld ← ctx KStatic sfld; mret (CILNode.LdStaticFieldAddress sfld)
  | CILNode.LdFtn mref => mref ← ctx KMethodRef mref; mret (CILNode.LdFtn mref)
  | CILNode.LdTypeToken tpe => tpe ← ctx KType tpe; mret (CILNode.LdTypeToken tpe)
  | CILNode.LdLen len => len ← ctx KNode len; mret (CILNode.LdLen len)
  | CILNode.LocAllocAlgined tpe align => tpe ← ctx KType tpe; mret (CILNode.LocAllocAlgined tpe align)
  | CILNode.LdElelemRef array index =>
      array ← ctx KNode array; index ← ctx KNode index; mret (CILNode.LdElelemRef array index)
  | CILNode.LdElem array index elem =>
      array ← ctx KNode array; index ← ctx KNode index; elem ← ctx KType elem;
      mret (CILNode.LdElem array index elem)
  | CILNode.UnboxAny object tpe =>
      object ← ctx KNode object; tpe ← ctx KType tpe; mret (CILNode.UnboxAny object tpe)
  | CILNode.Box value tpe => value ← ctx KNode value; tpe ← ctx KType tpe; mret (CILNode.Box value tpe)
  | CILNode.NewArr elem len => elem ← ctx KType elem; len ← ctx KNode len; mret (CILNode.NewArr elem len)
  end.

Definition translate_cond (cond : BranchCond.t) : M BranchCond.t :=
  let two a b (build : Interned KNode -> Interned KNode -> BranchCond.t) :=
    a ← ctx KNode a; b ← ctx KNode b; mret (build a b) in
  match cond with
  | BranchCond.IsTrue cond => cond ← ctx KNode cond; mret (BranchCond.IsTrue cond)
  | BranchCond.IsFalse cond => cond ← ctx KNode cond; mret (BranchCond.IsFalse cond)
  | BranchCond.Eq a b => two a b BranchCond.Eq
  | BranchCond.Ne a b => two a b BranchCond.Ne
  | BranchCond.Lt a b kind => two a b (fun a b => BranchCond.Lt a b kind)
  | BranchCond.Gt a b kind => two a b (fun a b => BranchCond.Gt a b kind)
  | BranchCond.Le a b kind => two a b (fun a b => BranchCond.Le a b kind)
  | BranchCond.Ge a b kind => two a b (fun a b => BranchCond.Ge a b kind)
  end.

Definition translate_root (root : CILRoot.t) : M CILRoot.t :=
  match root with
  | CILRoot.Unreachable str => str ← ctx KString str; mret (CILRoot.Unreachable str)
  | CILRoot.StLoc loc node => node ← ctx KNode node; mret (CILRoot.StLoc loc node)
  | CILRoot.StArg loc node => node ← ctx KNode node; mret (CILRoot.StArg loc node)
  | CILRoot.Ret node => node ← ctx KNode node; mret (CILRoot.Ret node)
  | CILRoot.Pop node => node ← ctx KNode node; mret (CILRoot.Pop node)
  | CILRoot.Throw node => node ← ctx KNode node; mret (CILRoot.Throw node)
  | CILRoot.Branch target sub_target cond =>
      cond ← map_opt translate_cond cond; mret (CILRoot.Branch target sub_target cond)
  | CILRoot.VoidRet | CILRoot.Break | CILRoot.Nop | CILRoot.InitFragmentBoundary
  | CILRoot.ReThrow => mret root
  | CILRoot.SourceFileInfo line_start line_len col_start col_len file =>
      file ← ctx KString file; mret (CILRoot.SourceFileInfo line_start line_len col_start col_len file)
  | CILRoot.SetField field addr val =>
      field ← ctx KField field; addr ← ctx KNode addr; val ← ctx KNode val;
      mret (CILRoot.SetField field addr val)
  | CILRoot.Call mref args pure =>
      mref ← ctx KMethodRef mref; args ← mapM (ctx KNode) args; mret (CILRoot.Call mref args pure)
  | CILRoot.StInd addr val tpe volatile =>
      addr ← ctx KNode addr; val ← ctx KNode val; tpe ← translate_type tpe;
      mret (CILRoot.StInd addr val tpe volatile)
  | CILRoot.CpObj src dst tpe =>
      src ← ctx KNode src; dst ← ctx KNode dst; tpe ← ctx KType tpe; mret (CILRoot.CpObj src dst tpe)
  | CILRoot.InitObj src tpe => src ← ctx KNode src; tpe ← ctx KType tpe; mret (CILRoot.InitObj src tpe)
  | CILRoot.InitBlk dst val count =>
      dst ← ctx KNode dst; val ← ctx KNode val; count ← ctx KNode count;
      mret (CILRoot.InitBlk dst val count)
  | CILRoot.CpBlk dst src len =>
      dst ← ctx KNode dst; src ← ctx KNode src; len ← ctx KNode len; mret (CILRoot.CpBlk dst src len)
  | CILRoot.CallI fnptr sig args =>
      fnptr ← ctx KNode fnptr; sig ← ctx KSig sig; args ← mapM (ctx KNode) args;
      mret (CILRoot.CallI fnptr sig args)
  | CILRoot.ExitSpecialRegion target source => mret (CILRoot.ExitSpecialRegion target source)
  | CILRoot.TerminateRegion protected reason =>
      protected ← ctx KRoot protected; mret (CILRoot.TerminateRegion protected reason)
  | CILRoot.SetStaticField field val =>
      field ← ctx KStatic field; val ← ctx KNode val; mret (CILRoot.SetStaticField field val)
  | CILRoot.StElem array index value elem =>
      array ← ctx KNode array; index ← ctx KNode index; value ← ctx KNode value;
      elem ← ctx KType elem; mret (CILRoot.StElem array index value elem)
  end.

(** The [RelocateValue] instances of the interned descriptors. *)
Definition relocate_fn_sig (self : FnSig) : M FnSig :=
  ins ← mapM translate_type (inputs self); out ← translate_type (output self); mret (mk_FnSig ins out).

Definition relocate_field_desc (self : FieldDesc) : M FieldDesc :=
  owner ← ctx KClassRef (field_owner self); name ← ctx KString (field_name self);
  tpe ← translate_type (field_tpe self); mret (mk_FieldDesc owner name tpe).

Definition relocate_static_field_desc (self : StaticFieldDesc) : M StaticFieldDesc :=
  owner ← ctx KClassRef (static_owner self); name ← ctx KString (static_name self);
  tpe ← translate_type (static_tpe self); mret (mk_StaticFieldDesc owner name tpe).

Definition relocate_class_ref (self : ClassRef) : M ClassRef :=
  name ← ctx KString (cr_name self); asm ← map_opt (ctx KString) (cr_asm self);
  generics ← mapM translate_type (cr_generics self);
  mret (mk_ClassRef name asm (cr_is_valuetype self) generics).

Definition relocate_method_ref (self : MethodRef) : M MethodRef :=
  class ← ctx KClassRef (mr_class self); name ← ctx KString (mr_name self);
  sig ← ctx KSig (mr_sig self); generics ← mapM translate_type (mr_generics self);
  mret (mk_MethodRef class name sig (mr_kind self) generics).

(** ** Method bodies and definitions *)

Fixpoint relocate_block (self : BasicBlock) : M BasicBlock :=
  match self with
  | mk_block roots block_id handler handler_id =>
      roots ← mapM (ctx KRoot) roots;
      handler ← (match handler with
                 | Some blocks => blocks ← mapM relocate_block blocks; mret (Some blocks)
                 | None => mret None
                 end : M (option (list BasicBlock)));
      mret (mk_block roots block_id handler handler_id)
  end.

Definition relocate_local (self : LocalDef) : M LocalDef :=
  let '(name, tpe) := self in
  name ← map_opt (ctx KString) name; tpe ← ctx KType tpe; mret (name, tpe).

Definition relocate_impl (self : MethodImpl) : M MethodImpl :=
  match self with
  | MethodBody blocks locals =>
      blocks ← mapM relocate_block blocks; locals ← mapM relocate_local locals;
      mret (MethodBody blocks locals)
  | RegionBody blocks cleanup_blocks exception_regions locals =>
      blocks ← mapM relocate_block blocks; cleanup_blocks ← mapM relocate_block cleanup_blocks;
      locals ← mapM relocate_local locals;
      mret (RegionBody blocks cleanup_blocks exception_regions locals)
  | Extern lib entry_point call_conv preserve_errno =>
      lib ← ctx KString lib; entry_point ← map_opt (ctx KString) entry_point;
      mret (Extern lib entry_point call_conv preserve_errno)
  | AliasFor method => method ← ctx KMethodRef method; mret (AliasFor method)
  | Missing => mret Missing
  end.

Definition relocate_attr_arg (self : CustomAttrArg) : M CustomAttrArg :=
  match self with
  | AttrStr value => value ← ctx KString value; mret (AttrStr value)
  | AttrBool _ | AttrU8 _ | AttrI32 _ | AttrI64 _ => mret self
  end.

Definition relocate_named_arg (self : CustomAttrNamedArg) : M CustomAttrNamedArg :=
  name ← ctx KString (na_name self); value ← relocate_attr_arg (na_value self);
  mret (mk_NamedArg (na_kind self) name value).

Definition relocate_attr (self : CustomAttrDef) : M CustomAttrDef :=
  attr_type ← ctx KClassRef (attr_type self); ctor_args ← mapM relocate_attr_arg (ctor_args self);
  named_args ← mapM relocate_named_arg (named_args self);
  mret (mk_CustomAttrDef attr_type ctor_args named_args).

Definition relocate_method_def (self : MethodDef) : M MethodDef :=
  class ← ctx KClassRef (md_class self);
  name ← ctx KString (md_name self);
  sig ← ctx KSig (md_sig self);
  arg_names ← mapM (map_opt (ctx KString)) (md_arg_names self);
  impl ← relocate_impl (implementation self);
  overrides ← map_opt (ctx KMethodRef) (md_overrides self);
  generic_params ← mapM (ctx KString) (md_generic_params self);
  custom_attributes ← mapM relocate_attr (md_custom_attributes self);
  return_custom_attributes ← mapM relocate_attr (md_return_custom_attributes self);
  param_custom_attributes ← mapM (mapM relocate_attr) (md_param_custom_attributes self);
  mret {| md_access := md_access self; md_class := class; md_name := name; md_sig := sig;
          md_arg_names := arg_names; md_kind := md_kind self; implementation := impl;
          md_overrides := overrides; md_is_abstract := md_is_abstract self;
          md_out_params := md_out_params self; md_generic_params := generic_params;
          md_nullable_context := md_nullable_context self;
          md_return_nullability := md_return_nullability self;
          md_param_nullability := md_param_nullability self;
          md_is_special_name := md_is_special_name self; md_custom_attributes := custom_attributes;
          md_return_custom_attributes := return_custom_attributes;
          md_param_custom_attributes := param_custom_attributes |}.

(** ** Class definitions *)

Definition relocate_static_field_def (self : StaticFieldDef) : M StaticFieldDef :=
  tpe ← translate_type (sfd_tpe self); name ← ctx KString (sfd_name self);
  default_value ← map_opt translate_const (sfd_default_value self);
  mret (mk_StaticFieldDef tpe name (sfd_is_tls self) default_value (sfd_is_const self)).

Definition relocate_array_layout (self : FixedArrayLayout) : M FixedArrayLayout :=
  element ← translate_type (fal_element self);
  mret (mk_FixedArrayLayout element (fal_length self) (fal_requested_size self)
          (fal_semantic_size self) (fal_requested_align self)).

(** The values of the variants are integer constants and hold no id. *)
Definition relocate_enum_def (self : EnumDef) : M EnumDef :=
  variants ← mapM (fun '(name, value) => name ← ctx KString name; mret (name, value)) (variants self);
  mret (mk_EnumDef (underlying self) variants).

Definition relocate_event (self : EventDef) : M EventDef :=
  name ← ctx KString (ev_name self); delegate ← translate_type (ev_delegate self);
  add ← ctx KMethodRef (ev_add self); remove ← ctx KMethodRef (ev_remove self);
  mret (mk_EventDef name delegate add remove).

Definition relocate_property (self : PropertyDef) : M PropertyDef :=
  name ← ctx KString (prop_name self); tpe ← translate_type (prop_tpe self);
  getter ← map_opt (ctx KMethodRef) (prop_getter self);
  setter ← map_opt (ctx KMethodRef) (prop_setter self);
  custom_attributes ← mapM relocate_attr (prop_custom_attributes self);
  mret (mk_PropertyDef name tpe getter setter (prop_nullability self) custom_attributes).

Definition relocate_instance_field (f : Ty.t * Interned KString * option Z)
    : M (Ty.t * Interned KString * option Z) :=
  let '(tpe, name, offset) := f in
  tpe ← translate_type tpe; name ← ctx KString name; mret (tpe, name, offset).

Definition relocate_field_attributes (g : Interned KString * bool * list CustomAttrDef)
    : M (Interned KString * bool * list CustomAttrDef) :=
  let '(name, is_static, attributes) := g in
  name ← ctx KString name; attributes ← mapM relocate_attr attributes;
  mret (name, is_static, attributes).

(** [ClassDef::relocate], given the kind that [class_definition_kind_override] answers: the
    relocated definition, without its methods, and the source ids of the methods.  Static fields
    that became equal are kept once, at their first occurrence. *)
Definition relocate_class_def (kind_override : option bool) (self : ClassDef)
    : M (ClassDef * list (Interned KMethodRef)) :=
  name ← ctx KString (cd_name self);
  extends ← map_opt (ctx KClassRef) (cd_extends self);
  implements ← mapM (ctx KClassRef) (cd_implements self);
  fields ← mapM relocate_instance_field (cd_fields self);
  static_fields ← mapM relocate_static_field_def (cd_static_fields self);
  events ← mapM relocate_event (cd_events self);
  generic_names ← mapM (ctx KString) (cd_generic_names self);
  properties ← mapM relocate_property (cd_properties self);
  custom_attributes ← mapM relocate_attr (cd_custom_attributes self);
  field_custom_attributes ← mapM relocate_field_attributes (cd_field_custom_attributes self);
  enum_def ← map_opt relocate_enum_def (cd_enum_def self);
  fixed_array_layout ← map_opt relocate_array_layout (cd_fixed_array_layout self);
  mret ({| cd_name := name;
           cd_is_valuetype := default (cd_is_valuetype self) kind_override;
           cd_is_valuetype_authoritative :=
             bool_decide (is_Some kind_override) || cd_is_valuetype_authoritative self;
           cd_generics := cd_generics self; cd_extends := extends; cd_implements := implements;
           cd_fields := fields; cd_static_fields := reverse (remove_dups (reverse static_fields));
           cd_methods := []; cd_access := cd_access self; cd_explict_size := cd_explict_size self;
           cd_align := cd_align self;
           cd_has_nonveralpping_layout := cd_has_nonveralpping_layout self;
           cd_is_interface := cd_is_interface self; cd_events := events;
           cd_generic_names := generic_names; cd_properties := properties;
           cd_custom_attributes := custom_attributes;
           cd_field_custom_attributes := field_custom_attributes; cd_enum_def := enum_def;
           cd_fixed_array_layout := fixed_array_layout |}, cd_methods self).
End translate.

(** ** The relocation context *)

(** [DenseRelocationMap], with the counters its lookups keep. *)
Record Memo : Set := mk_Memo {
  slots : list (option positive);
  unique_visits : nat;
  cache_hits : nat }.

Definition empty_memo : Memo := mk_Memo [] 0 0.

Definition memo_get {k} (m : Memo) (source : Interned k) : option (Interned k) :=
  mjoin (slots m !! slot source).

(** [insert], and the count of the visit; a second relocation of an id panics. *)
Definition memo_insert {k E} (m : Memo) (source destination : Interned k) : outcome E Memo :=
  let index := slot source in
  let l := slots m ++ replicate (S index - length (slots m)) None in
  match l !! index with
  | Some None => Ok (mk_Memo (<[index := Some destination]> l) (S (unique_visits m)) (cache_hits m))
  | _ => Panic
  end.

Definition memo_hit (m : Memo) : Memo := mk_Memo (slots m) (unique_visits m) (S (cache_hits m)).

(** The tables of the context, one a kind of id. *)
Definition RelocateCtx : Type := kind -> Memo.

#[export] Instance kind_eq_dec : EqDecision kind.
Proof. solve_decision. Defined.

Definition set_memo (c : RelocateCtx) (k : kind) (m : Memo) : RelocateCtx :=
  fun k' => if decide (k' = k) then m else c k'.

Record RelocState : Type := mk_RelocState { rl_ctx : RelocateCtx; rl_dst : Assembly }.

#[export] Program Instance reloc_state_has_asm : HasAsm RelocState := {|
  asm_of := rl_dst;
  set_asm s a := mk_RelocState (rl_ctx s) a |}.
Next Obligation. done. Qed.
Next Obligation. by intros []. Qed.

(** The arenas, by kind. *)
Definition value (k : kind) : Type :=
  match k with
  | KString => string | KType => Ty.t | KClassRef => ClassRef | KNode => CILNode.t
  | KRoot => CILRoot.t | KSig => FnSig | KMethodRef => MethodRef | KField => FieldDesc
  | KStatic => StaticFieldDesc | KBuffer => list Z
  end.

Definition arena (k : kind) : Assembly -> list (value k) :=
  match k with
  | KString => strings | KType => types | KClassRef => class_refs | KNode => nodes
  | KRoot => roots | KSig => sigs | KMethodRef => method_refs | KField => fields
  | KStatic => statics | KBuffer => const_data
  end.

Definition alloc {E} (k : kind) : value k -> ST Assembly E (Interned k) :=
  match k with
  | KString => alloc_string | KType => alloc_type | KClassRef => alloc_class_ref
  | KNode => alloc_node | KRoot => alloc_root | KSig => alloc_sig
  | KMethodRef => alloc_methodref | KField => alloc_field | KStatic => alloc_sfld
  | KBuffer => alloc_const_data
  end.

(** The value of an id, rebuilt with relocated ids. *)
Definition traverse {M} `{MRet M, MBind M} (ctx : relocator M) (k : kind) : value k -> M (value k) :=
  match k with
  | KString => fun v => mret v
  | KType => fun v => translate_type ctx v
  | KClassRef => fun v => relocate_class_ref ctx v
  | KNode => fun v => translate_node ctx v
  | KRoot => fun v => translate_root ctx v
  | KSig => fun v => relocate_fn_sig ctx v
  | KMethodRef => fun v => relocate_method_ref ctx v
  | KField => fun v => relocate_field_desc ctx v
  | KStatic => fun v => relocate_static_field_desc ctx v
  | KBuffer => fun v => mret v
  end.

Definition ClassDefinitionIdentity : Type := option string * string * Z.

Section ctx.
Context {E : Type}.
(** What a context is created with. *)
Context (source : Assembly) (main_module_name : option string)
  (class_kind_overrides : gmap ClassDefinitionIdentity bool).

Definition class_ref_kind_override (id : Interned KClassRef) : outcome E (option bool) :=
  class ← class_ref source id;
  let generic_arity := match class_ref_to_def source id with
                       | Some def => cd_generics def
                       | None => Z.of_nat (length (cr_generics class))
                       end in
  owner ← (match cr_asm class with
           | Some owner => n ← get_string source owner; Ok (Some n)
           | None => Ok None
           end : outcome E (option string));
  name ← get_string source (cr_name class);
  Ok (class_kind_overrides !! (owner, name, generic_arity)).

Definition class_definition_kind_override (name : Interned KString) (generic_arity : Z)
    : outcome E (option bool) :=
  n ← get_string source name; Ok (class_kind_overrides !! (None, n, generic_arity)).

(** The string that stands for [MainModule] in the destination. *)
Definition relocated_string (s : string) : string :=
  if bool_decide (s = MAIN_MODULE) then default s main_module_name else s.

Definition set_is_valuetype_for_link (c : ClassRef) (kind_override : option bool) : ClassRef :=
  match kind_override with
  | Some b => mk_ClassRef (cr_name c) (cr_asm c) b (cr_generics c)
  | None => c
  end.

(** What is changed in the value of an id besides its ids. *)
Definition finish (k : kind) : Interned k -> outcome E (value k -> value k) :=
  match k with
  | KString => fun _ => Ok relocated_string
  | KClassRef => fun id =>
      kind_override ← class_ref_kind_override id;
      Ok (fun c => set_is_valuetype_for_link c kind_override)
  | _ => fun _ => Ok id
  end.

(** One method of [RelocateCtx] ([string], [type_id], ..., [root]): the memoized id, or the id of
    the value rebuilt and interned. *)
Definition relocate_id (ctx : relocator (ST RelocState E)) (k : kind) (id : Interned k)
    : ST RelocState E (Interned k) :=
  s ← ask;
  match memo_get (rl_ctx s k) id with
  | Some relocated =>
      _ ← modify (fun s => mk_RelocState (set_memo (rl_ctx s) k (memo_hit (rl_ctx s k))) (rl_dst s));
      mret relocated
  | None =>
      v ← lift (arena_get (arena k source) id);
      f ← lift (finish k id);
      v ← traverse ctx k v;
      relocated ← on_asm (alloc k (f v));
      m ← reads (fun s => memo_insert (rl_ctx s k) id relocated);
      _ ← modify (fun s => mk_RelocState (set_memo (rl_ctx s) k m) (rl_dst s));
      mret relocated
  end.

(** The recursion through ids, a level of it for each unit of fuel. *)
Fixpoint relocator_at (fuel : nat) : relocator (ST RelocState E) :=
  match fuel with
  | O => fun _ _ => no_fuel
  | S fuel' => relocate_id (relocator_at fuel')
  end.

Definition empty_ctx : RelocateCtx := fun _ => empty_memo.
End ctx.
