(* ===== verification/RelocTheory.v ===== *)
(** * Linking copies values faithfully

    Whatever is relocated, the memo tables are a homomorphism from the source assembly into the
    destination: the value of a relocated id is the value of the source id with its ids relocated.
    The homomorphism is total on well-founded sources, visits each source id once, and never
    identifies two source values. *)

From S2P Require Import Prelude Interner Types Class IR Arenas Walk Block BlockTheory Method Relocate.

(** ** Parametricity of the traversals *)

Section parametric.
Context {M1 M2 : Type -> Type} `{MRet M1, MBind M1, MRet M2, MBind M2}.
Context (R : forall A, M1 A -> M2 A -> Prop).
Arguments R {A}.
Context (R_ret : forall A (a : A), R (mret a) (mret a)).
Context (R_bind : forall A B (m1 : M1 A) m2 (f1 : A -> M1 B) f2,
  R m1 m2 -> (forall a, R (f1 a) (f2 a)) -> R (m1 ≫= f1) (m2 ≫= f2)).
Context (ctx1 : relocator M1) (ctx2 : relocator M2) (Hctx : forall k id, R (ctx1 k id) (ctx2 k id)).

Lemma mapM_param {A B} (f1 : A -> M1 B) f2 l : (forall x, R (f1 x) (f2 x)) -> R (mapM f1 l) (mapM f2 l).
Proof.
  intros Hf. induction l as [|x l IH]; cbn; [apply R_ret|]. apply R_bind; [done|]. intros y.
  apply R_bind; [done|]. intros. apply R_ret.
Qed.

Lemma map_opt_param {A B} (f1 : A -> M1 B) f2 o :
  (forall x, R (f1 x) (f2 x)) -> R (map_opt f1 o) (map_opt f2 o).
Proof. intros Hf. destruct o; cbn; [|apply R_ret]. apply R_bind; [done|]. intros. apply R_ret. Qed.

(** Splits a traversal into its steps. *)
Ltac param_with lem := repeat first
  [ apply R_ret | lem | apply Hctx | apply mapM_param; intros | apply map_opt_param; intros
  | apply R_bind; [|intros ?] | done ].
Ltac param := param_with fail.

Lemma translate_type_param t : R (translate_type ctx1 t) (translate_type ctx2 t).
Proof. destruct t; cbn; param. Qed.
Lemma translate_const_param c : R (translate_const ctx1 c) (translate_const ctx2 c).
Proof. destruct c; cbn; param. Qed.
Lemma translate_cast_res_param c : R (translate_cast_res ctx1 c) (translate_cast_res ctx2 c).
Proof. destruct c; cbn; param. Qed.
Lemma translate_node_param n : R (translate_node ctx1 n) (translate_node ctx2 n).
Proof. destruct n; cbn; param_with ltac:(first [apply translate_const_param|apply translate_cast_res_param]). Qed.
Lemma translate_cond_param c : R (translate_cond ctx1 c) (translate_cond ctx2 c).
Proof. destruct c; cbn; param. Qed.
Lemma translate_root_param r : R (translate_root ctx1 r) (translate_root ctx2 r).
Proof. destruct r; cbn; param_with ltac:(first [apply translate_cond_param|apply translate_type_param]). Qed.

Lemma traverse_param k v : R (traverse ctx1 k v) (traverse ctx2 k v).
Proof.
  destruct k; cbn in v |- *; try apply R_ret.
  - apply translate_type_param.
  - unfold relocate_class_ref. param_with ltac:(apply translate_type_param).
  - apply translate_node_param.
  - apply translate_root_param.
  - unfold relocate_fn_sig. param_with ltac:(apply translate_type_param).
  - unfold relocate_method_ref. param_with ltac:(apply translate_type_param).
  - unfold relocate_field_desc. param_with ltac:(apply translate_type_param).
  - unfold relocate_static_field_desc. param_with ltac:(apply translate_type_param).
Qed.

Lemma relocate_block_param b : R (relocate_block ctx1 b) (relocate_block ctx2 b).
Proof.
  induction b as [roots id h hid IH] using BasicBlock_nested_ind. cbn. apply R_bind; [param|]. intros rs.
  apply R_bind; [|intros; apply R_ret]. destruct h as [l|]; [|apply R_ret].
  apply R_bind; [|intros; apply R_ret].
  assert (Forall (fun b => R (relocate_block ctx1 b) (relocate_block ctx2 b)) l) as Hl by (by apply IH).
  clear -Hl R_ret R_bind. induction Hl as [|b l Hb _ IH]; cbn; [apply R_ret|]. apply R_bind; [done|].
  intros. apply R_bind; [done|]. intros. apply R_ret.
Qed.

Lemma relocate_local_param l : R (relocate_local ctx1 l) (relocate_local ctx2 l).
Proof. destruct l as [[n|] t]; cbn; param. Qed.
Lemma relocate_impl_param i : R (relocate_impl ctx1 i) (relocate_impl ctx2 i).
Proof. destruct i; cbn; param_with ltac:(first [apply relocate_block_param|apply relocate_local_param]). Qed.
Lemma relocate_attr_arg_param a : R (relocate_attr_arg ctx1 a) (relocate_attr_arg ctx2 a).
Proof. destruct a; cbn; param. Qed.
Lemma relocate_attr_param a : R (relocate_attr ctx1 a) (relocate_attr ctx2 a).
Proof.
  unfold relocate_attr, relocate_named_arg. param_with ltac:(apply relocate_attr_arg_param).
Qed.
Lemma relocate_method_def_param d : R (relocate_method_def ctx1 d) (relocate_method_def ctx2 d).
Proof. unfold relocate_method_def. param_with ltac:(first [apply relocate_impl_param|apply relocate_attr_param]). Qed.

Lemma relocate_static_field_def_param f :
  R (relocate_static_field_def ctx1 f) (relocate_static_field_def ctx2 f).
Proof.
  unfold relocate_static_field_def. param_with ltac:(first [apply translate_type_param|apply translate_const_param]).
Qed.
Lemma relocate_event_param e : R (relocate_event ctx1 e) (relocate_event ctx2 e).
Proof. unfold relocate_event. param_with ltac:(apply translate_type_param). Qed.
Lemma relocate_property_param p : R (relocate_property ctx1 p) (relocate_property ctx2 p).
Proof. unfold relocate_property. param_with ltac:(first [apply translate_type_param|apply relocate_attr_param]). Qed.
Lemma relocate_instance_field_param f :
  R (relocate_instance_field ctx1 f) (relocate_instance_field ctx2 f).
Proof. destruct f as [[t n] o]. cbn. param_with ltac:(apply translate_type_param). Qed.
Lemma relocate_field_attributes_param g :
  R (relocate_field_attributes ctx1 g) (relocate_field_attributes ctx2 g).
Proof. destruct g as [[n s] l]. cbn. param_with ltac:(apply relocate_attr_param). Qed.
Lemma relocate_enum_def_param d : R (relocate_enum_def ctx1 d) (relocate_enum_def ctx2 d).
Proof. unfold relocate_enum_def. apply R_bind; [|intros; apply R_ret]. apply mapM_param. intros [n v]. param. Qed.

Lemma relocate_class_def_param o d : R (relocate_class_def ctx1 o d) (relocate_class_def ctx2 o d).
Proof.
  unfold relocate_class_def, relocate_array_layout. param_with ltac:(first
    [apply relocate_instance_field_param|apply relocate_static_field_def_param|apply relocate_event_param
    |apply relocate_property_param|apply relocate_attr_param|apply relocate_field_attributes_param
    |apply relocate_enum_def_param|apply translate_type_param]).
Qed.
End parametric.

(** ** Recorded relocations *)

(** The relocation a context has recorded. *)
Definition recorded (c : RelocateCtx) : relocator option := fun k id => memo_get (c k) id.

Definition ctx_le (c c' : RelocateCtx) : Prop :=
  forall k (i j : Interned k), memo_get (c k) i = Some j -> memo_get (c' k) i = Some j.

#[export] Instance ctx_le_preorder : PreOrder ctx_le.
Proof. split; [by intros c k i j|]. intros a b c Hab Hbc k i j H. by apply Hbc, Hab. Qed.

(** A larger context rebuilds what a smaller one does. *)
Lemma traverse_mono c c' k v v' :
  ctx_le c c' -> traverse (recorded c) k v = Some v' -> traverse (recorded c') k v = Some v'.
Proof.
  intros Hle. revert v'.
  apply (traverse_param (fun A (o1 o2 : option A) => forall a, o1 = Some a -> o2 = Some a)).
  - done.
  - intros A B m1 m2 f1 f2 Hm Hf b (a & Ha & Hb)%bind_Some. apply bind_Some. exists a.
    split; [by apply Hm|by apply Hf].
  - intros k' id j. apply Hle.
Qed.

Lemma padded_lookup (l : list (option positive)) n i :
  mjoin ((l ++ replicate n None) !! i) = mjoin (l !! i).
Proof.
  destruct (decide (i < length l)%nat); [by rewrite lookup_app_l|].
  rewrite lookup_app_r, (lookup_ge_None_2 l) by lia.
  destruct (replicate _ _ !! _) as [o|] eqn:Hr; [|done]. by apply lookup_replicate in Hr as [-> _].
Qed.

Lemma memo_insert_ok {k E} (m m' : Memo) (i j : Interned k) :
  memo_insert (E := E) m i j = Ok m' ->
  memo_get m i = None /\ memo_get m' i = Some j /\
  forall i' : Interned k, i' <> i -> memo_get m' i' = memo_get m i'.
Proof.
  unfold memo_insert, memo_get. set (l := slots m ++ _).
  assert (forall n, mjoin (slots m !! n) = mjoin (l !! n)) as Hp by (intros; unfold l; by rewrite padded_lookup).
  destruct (l !! slot i) as [[?|]|] eqn:Hl; [done| |done].
  intros [= <-]. cbn [slots]. rewrite Hp, Hl, list_lookup_insert_eq by (by eapply lookup_lt_Some).
  split_and!; [done..|]. intros i' Hne. by rewrite list_lookup_insert_ne, Hp by (by intros ?%slot_inj).
Qed.

(** An id not yet recorded can be. *)
Lemma memo_insert_new {k E} (m : Memo) (i j : Interned k) :
  memo_get m i = None -> exists m', memo_insert (E := E) m i j = Ok m'.
Proof.
  unfold memo_insert, memo_get. set (l := slots m ++ _). intros Hm.
  assert (mjoin (l !! slot i) = None) as Hl by (unfold l; by rewrite padded_lookup).
  assert (is_Some (l !! slot i)) as [o Ho].
  { apply lookup_lt_is_Some. unfold l. rewrite length_app, length_replicate. lia. }
  rewrite Ho in Hl |- *. destruct o; [done|]. by eexists.
Qed.

Section relocation.
Context {E : Type}.
Context (source : Assembly) (main_module_name : option string)
  (class_kind_overrides : gmap ClassDefinitionIdentity bool).

Local Notation finish k := (finish (E := E) source main_module_name class_kind_overrides k).
Local Notation relocate_id := (relocate_id (E := E) source main_module_name class_kind_overrides).
Local Notation relocator_at := (relocator_at (E := E) source main_module_name class_kind_overrides).

(** What a recorded relocation of one id means. *)
Definition copied (c : RelocateCtx) (dst : Assembly) (k : kind) (i j : Interned k) : Prop :=
  exists v f v', arena k source !! slot i = Some v /\ finish k i = Ok f /\
    traverse (recorded c) k v = Some v' /\ arena k dst !! slot j = Some (f v').

(** The tables are a homomorphism. *)
Definition homomorphic (s : RelocState) : Prop :=
  forall k (i j : Interned k), memo_get (rl_ctx s k) i = Some j -> copied (rl_ctx s) (rl_dst s) k i j.

Definition reloc_le (s s' : RelocState) : Prop :=
  ctx_le (rl_ctx s) (rl_ctx s') /\ extends (rl_dst s) (rl_dst s').

#[export] Instance reloc_le_preorder : PreOrder reloc_le.
Proof.
  split; [by intros s|]. intros a b c [? ?] [? ?]. split; by etrans.
Qed.

Lemma extends_arena a a' k i v :
  extends a a' -> arena k a !! i = Some v -> arena k a' !! i = Some v.
Proof. intros []. destruct k; cbn in *; intros H; by eapply prefix_lookup_Some. Qed.

Lemma copied_mono c c' a a' k i j :
  ctx_le c c' -> extends a a' -> copied c a k i j -> copied c' a' k i j.
Proof.
  intros Hc Ha (v & f & v' & ? & ? & ? & ?). exists v, f, v'.
  split_and!; [done|done|by eapply traverse_mono|by eapply extends_arena].
Qed.

Lemma alloc_ok k v (a a' : Assembly) (j : Interned k) :
  alloc (E := E) k v a = (a', Ok j) -> extends a a' /\ arena k a' !! slot j = Some v.
Proof.
  intros H. assert (extends a a') as Hext.
  { assert (steps extends (alloc (E := E) k v)) as Hs by (destruct k; cbn; eauto with steps).
    specialize (Hs a). by rewrite H in Hs. }
  split; [done|]. clear Hext.
  destruct k; cbn in *; unfold alloc_string, alloc_type, alloc_class_ref, alloc_node, alloc_root,
    alloc_sig, alloc_methodref, alloc_field, alloc_sfld, alloc_const_data, intern_in in H;
    destruct (arena_intern _ _) as [[vs [id b]]| | |] eqn:Hi; try done; injection H as <- <-; cbn;
    by apply arena_intern_spec in Hi as (_ & ? & _).
Qed.

(** ** Tracking *)

(** From a homomorphic state, [m] only adds to it, and returns what [o] computes from the tables of
    any later state [fin]. *)
Definition tracks (fin : RelocateCtx) {A} (m : ST RelocState E A) (o : option A) : Prop :=
  forall s s' a, homomorphic s -> m s = (s', Ok a) ->
    reloc_le s s' /\ homomorphic s' /\ (ctx_le (rl_ctx s') fin -> o = Some a).

Lemma tracks_ret fin {A} (a : A) : tracks fin (mret a) (mret a).
Proof. by intros s s' a' Hg [= <- <-]. Qed.

Lemma tracks_bind fin {A B} (m : ST RelocState E A) o (f : A -> ST RelocState E B) g :
  tracks fin m o -> (forall a, tracks fin (f a) (g a)) -> tracks fin (m ≫= f) (o ≫= g).
Proof.
  intros Hm Hf s s' b Hg (s1 & a & H1 & H2)%st_bind_ok. apply Hm in H1 as (Hle1 & Hg1 & Ho); [|done].
  apply Hf in H2 as (Hle2 & Hg2 & Hb); [|done]. split_and!; [by etrans|done|].
  intros Hfin. rewrite Ho; [by apply Hb|]. etrans; [apply Hle2|done].
Qed.

Lemma traverse_tracks fin (r : relocator (ST RelocState E)) k v :
  (forall k id, tracks fin (r k id) (recorded fin k id)) ->
  tracks fin (traverse r k v) (traverse (recorded fin) k v).
Proof.
  intros Hr. apply (traverse_param (M1 := ST RelocState E) (M2 := option) (fun A m o => tracks fin m o)); [intros; apply tracks_ret| |done].
  intros. by apply tracks_bind.
Qed.

Lemma set_memo_get c k m k' (i : Interned k') :
  memo_get (set_memo c k m k') i = if decide (k' = k) then memo_get m i else memo_get (c k') i.
Proof. unfold set_memo. by destruct (decide (k' = k)). Qed.

(** Recording one more copied id. *)
Lemma record_copied s k (i j : Interned k) m :
  homomorphic s -> memo_insert (E := E) (rl_ctx s k) i j = Ok m -> copied (rl_ctx s) (rl_dst s) k i j ->
  let s' := mk_RelocState (set_memo (rl_ctx s) k m) (rl_dst s) in
  reloc_le s s' /\ homomorphic s' /\ memo_get (rl_ctx s' k) i = Some j.
Proof.
  intros Hg (Hnone & Hnew & Hold)%memo_insert_ok Hc s'.
  assert (forall k' (i' j' : Interned k'), memo_get (rl_ctx s' k') i' = Some j' ->
    memo_get (rl_ctx s k') i' = Some j' \/ exists H : k' = k, eq_rect k' Interned i' k H = i /\ eq_rect k' Interned j' k H = j) as Hinv.
  { intros k' i' j'. cbn. rewrite set_memo_get. destruct (decide (k' = k)) as [->|]; [|by left].
    destruct (decide (i' = i)) as [->|Hne]; [|rewrite Hold by done; by left]. rewrite Hnew.
    intros [= <-]. right. by exists eq_refl. }
  assert (ctx_le (rl_ctx s) (rl_ctx s')) as Hle.
  { intros k' i' j' H. cbn. rewrite set_memo_get. destruct (decide (k' = k)) as [->|]; [|done].
    destruct (decide (i' = i)) as [->|Hne]; [congruence|]. by rewrite Hold. }
  split_and!; [done| |cbn; rewrite set_memo_get; by rewrite decide_True].
  intros k' i' j' [H|(-> & <- & <-)]%Hinv; eapply copied_mono; eauto; done.
Qed.

Lemma relocate_id_tracks fin (r : relocator (ST RelocState E)) k (id : Interned k) :
  (forall fin k id, tracks fin (r k id) (recorded fin k id)) ->
  tracks fin (relocate_id r k id) (recorded fin k id).
Proof.
  intros Hr s s' j Hg H. unfold Relocate.relocate_id in H. apply st_bind_ok in H as (s0 & ? & [= <- <-] & H).
  destruct (memo_get (rl_ctx s k) id) as [j'|] eqn:Hm.
  - apply st_bind_ok in H as (s1 & [] & [= <-] & [= <- <-]).
    assert (forall k' (i : Interned k'), memo_get (set_memo (rl_ctx s) k (memo_hit (rl_ctx s k)) k') i =
                                         memo_get (rl_ctx s k') i) as Hsame.
    { intros k' i. rewrite set_memo_get. by destruct (decide (k' = k)) as [->|]. }
    assert (ctx_le (rl_ctx s) (set_memo (rl_ctx s) k (memo_hit (rl_ctx s k)))) as Hle.
    { intros k' i j. by rewrite Hsame. }
    split_and!; [done| |].
    + intros k' i j. cbn. rewrite Hsame. intros Hi. eapply copied_mono; [exact Hle|reflexivity|by apply Hg].
    + intros Hfin. unfold recorded. apply Hfin. cbn. by rewrite Hsame.
  - apply st_bind_ok in H as (s1 & v & [= <- Hv%arena_get_ok] & H).
    apply st_bind_ok in H as (s1 & f & [= <- Hf] & H).
    apply st_bind_ok in H as (s1 & v' & Hv' & H).
    apply st_bind_ok in H as (s2 & j' & Ha & H). unfold on_asm in Ha.
    destruct (alloc k (f v') (asm_of s1)) as [a o] eqn:Hal. injection Ha as <- ->.
    apply alloc_ok in Hal as [Hext Hj]. apply st_bind_ok in H as (s2 & m & [= <- Hins] & H).
    apply st_bind_ok in H as (s2 & [] & [= <-] & [= <- <-]).
    pose proof (traverse_tracks (rl_ctx s1) r k v ltac:(intros; apply Hr) s s1 v' Hg Hv') as (Hle & Hg1 & Ht).
    specialize (Ht ltac:(reflexivity)). cbn in Hins.
    set (s2 := mk_RelocState (rl_ctx s1) a).
    assert (homomorphic s2) as Hg2.
    { intros k' i j Hi. eapply copied_mono; [reflexivity|exact Hext|by apply Hg1]. }
    destruct (record_copied s2 k id j' m Hg2 Hins) as (Hle3 & Hg3 & Hj3); [by exists v, f, v'|].
    split_and!; [|exact Hg3|].
    + etrans; [exact Hle|]. etrans; [|exact Hle3]. by split.
    + intros Hfin. apply Hfin. exact Hj3.
Qed.

Lemma relocator_tracks fuel fin k id : tracks fin (relocator_at fuel k id) (recorded fin k id).
Proof.
  revert fin k id. induction fuel as [|fuel IH]; intros fin k id; cbn; [by intros s s' a _|].
  by apply relocate_id_tracks.
Qed.

Lemma method_def_tracks fuel fin d :
  tracks fin (relocate_method_def (relocator_at fuel) d) (relocate_method_def (recorded fin) d).
Proof.
  apply (relocate_method_def_param (M1 := ST RelocState E) (M2 := option) (fun A m o => tracks fin m o));
    [intros; apply tracks_ret|intros; by apply tracks_bind|intros; apply relocator_tracks].
Qed.

Lemma class_def_tracks fuel fin o d :
  tracks fin (relocate_class_def (relocator_at fuel) o d) (relocate_class_def (recorded fin) o d).
Proof.
  apply (relocate_class_def_param (M1 := ST RelocState E) (M2 := option) (fun A m o => tracks fin m o));
    [intros; apply tracks_ret|intros; by apply tracks_bind|intros; apply relocator_tracks].
Qed.
End relocation.

(** ** Well-founded sources *)

Section locality.
Context (source : Assembly) (rank : forall k, Interned k -> nat).

(** The id exists in the source, and ranks below [n]. *)
Definition low (n : nat) k (i : Interned k) : bool :=
  (rank k i <? n)%nat && (slot i <? length (arena k source))%nat.

Definition guard (n : nat) : relocator option := fun k i => if low n k i then Some i else None.

Lemma guard_Some n k (i j : Interned k) : guard n k i = Some j <-> low n k i = true /\ j = i.
Proof. unfold guard. destruct (low n k i); naive_solver. Qed.

Context {M : Type -> Type} `{MRet M, MBind M} (n : nat) (r r' : relocator M).
Context (Hr : forall k (i : Interned k), low n k i = true -> r k i = r' k i).

(** Inverts a successful guarded traversal and replaces [r] by [r'] on the ids it passed. *)
Ltac local :=
  repeat match goal with
  | Hb : _ ≫= _ = Some _ |- _ => let x := fresh in let Hx := fresh in
      apply bind_Some in Hb as (x & Hx & Hb)
  | Hg : guard n _ _ = Some _ |- _ => apply guard_Some in Hg as [Hg ->]; rewrite (Hr _ _ Hg)
  end.

Lemma mapM_local {A B C} (g : A -> option B) (f f' : A -> M C) l l' :
  (forall x y, g x = Some y -> f x = f' x) -> mapM g l = Some l' -> mapM f l = mapM f' l.
Proof.
  intros Hf. revert l'. induction l as [|x l IH]; intros l'; cbn; [done|].
  intros (y & Hy & (ys & Hys & _)%bind_Some)%bind_Some. by rewrite (Hf x y Hy), (IH ys Hys).
Qed.

Lemma ids_local k (l : list (Interned k)) l' : mapM (guard n k) l = Some l' -> mapM (r k) l = mapM (r' k) l.
Proof. apply mapM_local. intros x y [Hx _]%guard_Some. by apply Hr. Qed.

Lemma translate_type_local t t' :
  translate_type (guard n) t = Some t' -> translate_type r t = translate_type r' t.
Proof. destruct t; cbn; intros Hg; local; done. Qed.

Lemma types_local l l' :
  mapM (translate_type (guard n)) l = Some l' -> mapM (translate_type r) l = mapM (translate_type r') l.
Proof. apply mapM_local, translate_type_local. Qed.

Ltac local_all :=
  repeat (local; match goal with
  | Hg : mapM (guard n _) _ = Some _ |- _ => rewrite (ids_local _ _ _ Hg); clear Hg
  | Hg : mapM (translate_type (guard n)) _ = Some _ |- _ => rewrite (types_local _ _ Hg); clear Hg
  | Hg : translate_type (guard n) _ = Some _ |- _ => rewrite (translate_type_local _ _ Hg); clear Hg
  end); local.

Lemma translate_const_local c c' :
  translate_const (guard n) c = Some c' -> translate_const r c = translate_const r' c.
Proof. destruct c; cbn; intros Hg; local; done. Qed.

Lemma translate_cast_res_local c c' :
  translate_cast_res (guard n) c = Some c' -> translate_cast_res r c = translate_cast_res r' c.
Proof. destruct c; cbn; intros Hg; local; done. Qed.

Lemma translate_node_local v v' :
  translate_node (guard n) v = Some v' -> translate_node r v = translate_node r' v.
Proof.
  destruct v; cbn; intros Hg; local_all; try done.
  - by erewrite translate_const_local.
  - by erewrite translate_cast_res_local.
Qed.

Lemma translate_cond_local c c' :
  translate_cond (guard n) c = Some c' -> translate_cond r c = translate_cond r' c.
Proof. destruct c; cbn; intros Hg; local; done. Qed.

Lemma translate_root_local v v' :
  translate_root (guard n) v = Some v' -> translate_root r v = translate_root r' v.
Proof.
  destruct v; cbn; intros Hg; local_all; try done.
  destruct cond as [c|]; cbn in *; [|done].
  match goal with Hc : translate_cond _ c ≫= _ = Some _ |- _ => apply bind_Some in Hc as (? & Hc & _) end.
  by erewrite translate_cond_local.
Qed.

Lemma traverse_local k v v' : traverse (guard n) k v = Some v' -> traverse r k v = traverse r' k v.
Proof.
  destruct k; cbn in v, v' |- *; try done.
  - apply translate_type_local.
  - unfold relocate_class_ref. intros Hg. local_all.
    destruct (cr_asm v) as [a|]; cbn in *; local_all; done.
  - apply translate_node_local.
  - apply translate_root_local.
  - unfold relocate_fn_sig. intros Hg. by local_all.
  - unfold relocate_method_ref. intros Hg. by local_all.
  - unfold relocate_field_desc. intros Hg. by local_all.
  - unfold relocate_static_field_desc. intros Hg. by local_all.
Qed.
End locality.

(** ** Values with equal images *)

Section injectivity.
Context (r : relocator option).
Context (Hinj : forall k (i1 i2 j : Interned k), r k i1 = Some j -> r k i2 = Some j -> i1 = i2).

Lemma mapM_inj {A B} (g : A -> option B) l1 l2 l :
  (forall x y z, g x = Some z -> g y = Some z -> x = y) ->
  mapM g l1 = Some l -> mapM g l2 = Some l -> l1 = l2.
Proof.
  intros Hg. revert l2 l. induction l1 as [|x l1 IH]; intros [|y l2] l; cbn; try done.
  - intros [= <-] (? & _ & (? & _ & [=])%bind_Some)%bind_Some.
  - intros (? & _ & (? & _ & [= <-])%bind_Some)%bind_Some [=].
  - intros (z & Hz & (zs & Hzs & [= <-])%bind_Some)%bind_Some (z' & Hz' & (zs' & Hzs' & [= -> ->])%bind_Some)%bind_Some.
    f_equal; [by eapply Hg|by eapply IH].
Qed.

Lemma map_opt_inj {A B} (g : A -> option B) o1 o2 o :
  (forall x y z, g x = Some z -> g y = Some z -> x = y) ->
  map_opt g o1 = Some o -> map_opt g o2 = Some o -> o1 = o2.
Proof.
  intros Hg. destruct o1 as [x|], o2 as [y|]; cbn; try done.
  - intros (z & Hz & [= <-])%bind_Some (z' & Hz' & [= ->])%bind_Some. f_equal. by eapply Hg.
  - intros (? & _ & [= <-])%bind_Some [=].
  - intros [= <-] (? & _ & [=])%bind_Some.
Qed.

(** Inverts the successful traversals of the context. *)
Ltac unbind :=
  repeat match goal with
  | Hb : _ ≫= _ = Some _ |- _ => let x := fresh in let Hx := fresh in
      apply bind_Some in Hb as (x & Hx & Hb)
  | Hb : mret _ = Some _ |- _ => injection Hb as Hb
  | Hb : Some _ = Some _ |- _ => injection Hb as Hb
  end.

(** Equal constructors, then equal ids. *)
Ltac inj lem :=
  match goal with |- _ -> ?P -> ?v1 = ?v2 =>
    destruct v1; cbn; intros K1; unbind; subst; destruct v2; cbn; intros K2; unbind;
    first [discriminate | simplify_eq; f_equal; first [done | by eapply Hinj | lem]]
  end.

Lemma translate_type_inj t1 t2 t :
  translate_type r t1 = Some t -> translate_type r t2 = Some t -> t1 = t2.
Proof. inj idtac. Qed.

Lemma translate_const_inj c1 c2 c :
  translate_const r c1 = Some c -> translate_const r c2 = Some c -> c1 = c2.
Proof. inj idtac. Qed.

Lemma translate_cast_res_inj c1 c2 c :
  translate_cast_res r c1 = Some c -> translate_cast_res r c2 = Some c -> c1 = c2.
Proof. inj idtac. Qed.

Lemma translate_cond_inj c1 c2 c :
  translate_cond r c1 = Some c -> translate_cond r c2 = Some c -> c1 = c2.
Proof. inj idtac. Qed.

Lemma ids_inj k (l1 l2 l : list (Interned k)) : mapM (r k) l1 = Some l -> mapM (r k) l2 = Some l -> l1 = l2.
Proof. apply mapM_inj. apply Hinj. Qed.

Lemma translate_node_inj v1 v2 v :
  translate_node r v1 = Some v -> translate_node r v2 = Some v -> v1 = v2.
Proof.
  inj ltac:(first [by eapply ids_inj | by eapply translate_const_inj | by eapply translate_cast_res_inj]).
Qed.

Lemma translate_root_inj v1 v2 v :
  translate_root r v1 = Some v -> translate_root r v2 = Some v -> v1 = v2.
Proof.
  inj ltac:(first [by eapply ids_inj | by eapply translate_type_inj
    | by eapply map_opt_inj; [intros ???; apply translate_cond_inj| |]]).
Qed.

Lemma types_inj (l1 l2 l : list Ty.t) :
  mapM (translate_type r) l1 = Some l -> mapM (translate_type r) l2 = Some l -> l1 = l2.
Proof. apply mapM_inj, translate_type_inj. Qed.

Lemma traverse_inj k v1 v2 v : traverse r k v1 = Some v -> traverse r k v2 = Some v -> v1 = v2.
Proof.
  assert (Hopt : forall k (o1 o2 o : option (Interned k)),
    map_opt (r k) o1 = Some o -> map_opt (r k) o2 = Some o -> o1 = o2).
  { intros k' o1 o2 o. apply map_opt_inj, Hinj. }
  pose proof translate_type_inj as Ht. pose proof types_inj as Hts.
  destruct k; cbn in v1, v2, v |- *; try (by intros [= ->] [= ->]);
    eauto using translate_node_inj, translate_root_inj.
  - unfold relocate_class_ref. inj ltac:(idtac). all: by eauto.
  - unfold relocate_fn_sig. inj ltac:(idtac). all: by eauto.
  - unfold relocate_method_ref. inj ltac:(idtac). all: by eauto.
  - unfold relocate_field_desc. inj ltac:(idtac). all: by eauto.
  - unfold relocate_static_field_desc. inj ltac:(idtac). all: by eauto.
Qed.
End injectivity.

(** A source whose values only mention existing ids of lower rank: such as one built by interning
    every value after the values it is made of. *)
Record source_ranks (source : Assembly) := {
  rank : forall k, Interned k -> nat;
  rank_ok : forall k (i : Interned k) v, arena k source !! slot i = Some v ->
    traverse (guard source rank (rank k i)) k v = Some v }.
Arguments rank {source} _ {k}.
Arguments rank_ok {source}.

Section wf_source.
Context {source : Assembly} (K : source_ranks source).
Local Notation low := (low source (@rank source K)).
Local Notation guard := (guard source (@rank source K)).

Lemma low_true n k (i : Interned k) :
  low n k i = true <-> (rank K i < n)%nat /\ (slot i < length (arena k source))%nat.
Proof. unfold RelocTheory.low. by rewrite andb_true_iff, !Nat.ltb_lt. Qed.

Lemma guard_mono n n' k v v' :
  (n <= n')%nat -> traverse (guard n) k v = Some v' -> traverse (guard n') k v = Some v'.
Proof.
  intros Hn. revert v'.
  apply (traverse_param (fun A (o1 o2 : option A) => forall a, o1 = Some a -> o2 = Some a)).
  - done.
  - intros A B m1 m2 f1 f2 Hm Hf b (a & Ha & Hb)%bind_Some. apply bind_Some. exists a.
    split; [by apply Hm|by apply Hf].
  - intros k' id j. rewrite !guard_Some, !low_true. intros [[? ?] ?]. split; [split; [lia|done]|done].
Qed.

(** *** A homomorphism without renaming identifies no two values *)

Lemma recorded_injective (E : Type) s :
  (forall k, NoDup (arena k source)) ->
  homomorphic (E := E) source None ∅ s ->
  forall k (i1 i2 j : Interned k),
    memo_get (rl_ctx s k) i1 = Some j -> memo_get (rl_ctx s k) i2 = Some j -> i1 = i2.
Proof.
  intros Hnd Hg.
  enough (forall n k (i1 i2 j : Interned k), (rank K i1 < n)%nat -> (rank K i2 < n)%nat ->
    memo_get (rl_ctx s k) i1 = Some j -> memo_get (rl_ctx s k) i2 = Some j -> i1 = i2) as Hn.
  { intros k i1 i2 j. apply (Hn (S (rank K i1 + rank K i2))); lia. }
  induction n as [|n IH]; intros k i1 i2 j Hr1 Hr2 H1 H2; [lia|].
  assert (forall (i : Interned k), (rank K i < S n)%nat -> memo_get (rl_ctx s k) i = Some j ->
    exists v v', arena k source !! slot i = Some v /\ arena k (rl_dst s) !! slot j = Some v' /\
      traverse (fun k i => if low n k i then recorded (rl_ctx s) k i else None) k v = Some v') as Hv.
  { intros i Hi Hm. destruct (Hg k i j Hm) as (v & f & v' & Hv & Hf & Ht & Hd). exists v, v'.
    split; [done|]. assert (f v' = v') as Hid.
    { destruct k; cbn in Hf; try (by injection Hf as <-).
      - injection Hf as <-. cbn. unfold relocated_string. by case_bool_decide.
      - apply bind_ok in Hf as (o & Ho & [= <-]). unfold class_ref_kind_override in Ho.
        apply bind_ok in Ho as (c & _ & Ho). apply bind_ok in Ho as (ow & _ & Ho).
        apply bind_ok in Ho as (nm & _ & [= <-]). by rewrite lookup_empty. }
    rewrite Hid in Hd. split; [done|]. rewrite <- Ht. symmetry.
    eapply (traverse_local source (@rank source K) n).
    - intros k' i' Hlow. by rewrite Hlow.
    - eapply guard_mono; [|by apply (rank_ok K k i)]. lia. }
  destruct (Hv i1 Hr1 H1) as (v1 & v' & Hs1 & Hd1 & Ht1), (Hv i2 Hr2 H2) as (v2 & v'' & Hs2 & Hd2 & Ht2).
  rewrite Hd1 in Hd2. injection Hd2 as <-.
  assert (v1 = v2) as ->.
  { eapply traverse_inj; [|exact Ht1|exact Ht2]. intros k' a b j'. cbn.
    destruct (low n k' a) eqn:Ha; [|done]. destruct (low n k' b) eqn:Hb; [|done].
    apply low_true in Ha as [Ha _], Hb as [Hb _]. by apply IH. }
  apply slot_inj. by apply (NoDup_lookup _ _ _ _ (Hnd k) Hs1 Hs2).
Qed.
End wf_source.

(** ** Relocation is total and visits each id once *)

(** The number of relocated ids. *)
Definition relocated_count (m : Memo) : nat := length (omap id (slots m)).

Lemma count_below (l : list (option positive)) n :
  (forall i, (n <= i)%nat -> mjoin (l !! i) = None) -> (length (omap id l) <= n)%nat.
Proof.
  revert n. induction l as [|o l IH]; intros n Hn; cbn; [lia|]. destruct n as [|n].
  - specialize (Hn 0%nat ltac:(lia)) as Ho. cbn in Ho. destruct o; [done|]. cbn. apply IH.
    intros i Hi. apply (Hn (S i)). lia.
  - assert (length (omap id l) <= n)%nat by (apply IH; intros i Hi; apply (Hn (S i)); lia).
    destruct o; cbn; lia.
Qed.

Lemma count_room (l : list (option positive)) n i :
  (forall i, (n <= i)%nat -> mjoin (l !! i) = None) -> (i < n)%nat -> mjoin (l !! i) = None ->
  (length (omap id l) < n)%nat.
Proof.
  revert n i. induction l as [|o l IH]; intros n i Hn Hi Hnone; cbn; [lia|]. destruct n as [|n]; [lia|].
  destruct i as [|i].
  - cbn in Hnone. destruct o; [done|]. cbn. apply Nat.lt_succ_r, count_below. intros m Hm. apply (Hn (S m)). lia.
  - assert (length (omap id l) < n)%nat.
    { apply (IH n i); [|lia|done]. intros m Hm. apply (Hn (S m)). lia. }
    destruct o; cbn; lia.
Qed.

Lemma count_insert (l : list (option positive)) i j :
  l !! i = Some None -> length (omap id (<[i := Some j]> l)) = S (length (omap id l)).
Proof.
  revert i. induction l as [|o l IH]; intros [|i]; cbn; [done..| |].
  - by intros [= ->].
  - intros Hi%IH. destruct o; cbn; [f_equal|]; exact Hi.
Qed.

Lemma count_padded (l : list (option positive)) n : length (omap id (l ++ replicate n None)) = length (omap id l).
Proof.
  rewrite omap_app, length_app. assert (omap id (replicate n (None (A := positive))) = []) as ->.
  { by induction n. }
  cbn. lia.
Qed.

Lemma memo_insert_count {k E} (m m' : Memo) (i j : Interned k) :
  memo_insert (E := E) m i j = Ok m' ->
  relocated_count m' = S (relocated_count m) /\ unique_visits m' = S (unique_visits m).
Proof.
  unfold memo_insert, relocated_count. destruct (_ !! slot i) as [[?|]|] eqn:Hl; [done| |done].
  intros [= <-]. pose proof (count_insert _ _ (j : positive) Hl) as Hc. rewrite count_padded in Hc.
  split; [exact Hc|done].
Qed.

Section total.
Context {E : Type} {source : Assembly} (K : source_ranks source).
Context (main_module_name : option string) (class_kind_overrides : gmap ClassDefinitionIdentity bool).

Local Notation finish k := (finish (E := E) source main_module_name class_kind_overrides k).
Local Notation relocate_id := (relocate_id (E := E) source main_module_name class_kind_overrides).
Local Notation relocator_at := (relocator_at (E := E) source main_module_name class_kind_overrides).

(** The counters of the tables are right, only source ids are recorded, and every arena of the
    destination has room for what is left to relocate. *)
Record counted (s : RelocState) : Prop := {
  ct_visits : forall k, unique_visits (rl_ctx s k) = relocated_count (rl_ctx s k);
  ct_range : forall k i, (length (arena k source) <= i)%nat -> mjoin (slots (rl_ctx s k) !! i) = None;
  ct_room : forall k, Z.of_nat (length (arena k (rl_dst s))) + Z.of_nat (length (arena k source)) <
                      2 ^ 32 - 1 + Z.of_nat (unique_visits (rl_ctx s k)) }.

Lemma visits_bounded s k : counted s -> (unique_visits (rl_ctx s k) <= length (arena k source))%nat.
Proof. intros []. rewrite ct_visits0. apply count_below. intros i. apply ct_range0. Qed.

(** Nothing of rank [n] or more is recorded between the two states. *)
Definition same_from (n : nat) (s s' : RelocState) : Prop :=
  forall k (i : Interned k), (n <= rank K i)%nat -> memo_get (rl_ctx s' k) i = memo_get (rl_ctx s k) i.

Definition works (n : nat) {A} (m : ST RelocState E A) : Prop :=
  forall s, counted s -> exists s' a, m s = (s', Ok a) /\ counted s' /\ same_from n s s'.

Lemma works_ret n {A} (a : A) : works n (mret a).
Proof. intros s Hs. exists s, a. by split_and!. Qed.

Lemma works_bind n {A B} (m : ST RelocState E A) (f : A -> ST RelocState E B) :
  works n m -> (forall a, works n (f a)) -> works n (m ≫= f).
Proof.
  intros Hm Hf s Hs. destruct (Hm s Hs) as (s1 & a & H1 & Hs1 & Hsame1).
  destruct (Hf a s1 Hs1) as (s2 & b & H2 & Hs2 & Hsame2). exists s2, b.
  split_and!; [apply st_bind_ok; eauto|done|]. intros k i Hi. by rewrite Hsame2, Hsame1.
Qed.

Lemma works_weaken n n' {A} (m : ST RelocState E A) : (n <= n')%nat -> works n m -> works n' m.
Proof.
  intros Hn Hm s Hs. destruct (Hm s Hs) as (s' & a & ? & ? & Hsame). exists s', a.
  split_and!; [done..|]. intros k i Hi. apply Hsame. lia.
Qed.

(** A traversal of a value of rank [n] only needs the relocation of ids below. *)
Lemma traverse_works n (r : relocator (ST RelocState E)) k v v' :
  traverse (guard source (@rank source K) n) k v = Some v' ->
  (forall k (i : Interned k), low source (@rank source K) n k i = true -> works n (r k i)) ->
  works n (traverse r k v).
Proof.
  intros Hv Hr.
  rewrite (traverse_local source (@rank source K) n r
    (fun k i => if low source (@rank source K) n k i then r k i else mret i)) with (v' := v').
  - set (r' := fun k i => if low source (@rank source K) n k i then r k i else mret i).
    apply (traverse_param (M1 := ST RelocState E) (M2 := ST RelocState E) (fun A m _ => works n m))
      with (ctx2 := r').
    + intros. apply works_ret.
    + intros A B m1 m2 f1 f2. apply works_bind.
    + intros k' i. unfold r'. destruct (low source (@rank source K) n k' i) eqn:Hlow;
        [by apply Hr|apply works_ret].
  - intros k' i Hlow. by rewrite Hlow.
  - done.
Qed.

Lemma finish_total k (i : Interned k) v :
  arena k source !! slot i = Some v -> exists f, finish k i = Ok f.
Proof.
  intros Hv. destruct k; cbn; eauto. pose proof (rank_ok K KClassRef i v Hv) as Hr. cbn in Hr, Hv, v.
  unfold relocate_class_ref in Hr. apply bind_Some in Hr as (n & [Hn _]%guard_Some & Hr).
  apply bind_Some in Hr as (o & Ho & _). apply andb_true_iff in Hn as [_ Hn%Nat.ltb_lt].
  apply lookup_lt_is_Some in Hn as [nm Hnm]. unfold class_ref_kind_override, class_ref, get_string.
  rewrite (proj2 (arena_get_ok (class_refs source) i v) Hv). cbn.
  rewrite (proj2 (arena_get_ok (strings source) (cr_name v) nm) Hnm).
  destruct (cr_asm v) as [a|]; cbn; [|by eexists]. cbn in Ho.
  apply bind_Some in Ho as (a' & [Ha _]%guard_Some & _). apply andb_true_iff in Ha as [_ Ha%Nat.ltb_lt].
  apply lookup_lt_is_Some in Ha as [an Han].
  rewrite (proj2 (arena_get_ok (strings source) a an) Han). cbn. by eexists.
Qed.

Lemma alloc_total k (v : value k) (a : Assembly) :
  Z.of_nat (length (arena k a)) < 2 ^ 32 - 1 ->
  exists a' j, alloc (E := E) k v a = (a', Ok j) /\
    (length (arena k a') <= S (length (arena k a)))%nat /\
    forall k', k' <> k -> arena k' a' = arena k' a.
Proof.
  intros Hroom.
  assert (forall D : EqDecision (value k), exists vs j b,
    arena_intern (k := k) (E := E) (arena k a) v = Ok (vs, (j, b)) /\
    (length vs <= S (length (arena k a)))%nat) as Hi.
  { intros D. unfold arena_intern. destruct (arena_find (arena k a) v) as [n|] eqn:Hf.
    - apply arena_find_Some, lookup_lt_Some in Hf.
      destruct (id_for_zero_based_Some (k := k) n ltac:(lia)) as (j & -> & _). cbn. do 3 eexists. split; [done|lia].
    - destruct (id_for_zero_based_Some (k := k) _ Hroom) as (j & -> & _). cbn. do 3 eexists. split; [done|].
      rewrite length_app. cbn. lia. }
  destruct k; cbn in *; unfold alloc_string, alloc_type, alloc_class_ref, alloc_node, alloc_root,
    alloc_sig, alloc_methodref, alloc_field, alloc_sfld, alloc_const_data, intern_in;
    destruct (Hi _) as (vs & j & b & -> & Hl); eexists _, j; (split; [reflexivity|]); (split; [exact Hl|]);
    intros [] Hne; done.
Qed.

Lemma relocate_id_works (r : relocator (ST RelocState E)) k (i : Interned k) :
  (slot i < length (arena k source))%nat ->
  (forall k' (i' : Interned k'), low source (@rank source K) (rank K i) k' i' = true ->
     works (rank K i) (r k' i')) ->
  works (S (rank K i)) (relocate_id r k i).
Proof.
  intros Hi Hr s Hs. unfold Relocate.relocate_id, mbind at 1, ST_bind at 1. cbn [ask].
  destruct (memo_get (rl_ctx s k) i) as [j|] eqn:Hm.
  - eexists _, j. split; [reflexivity|].
    assert (forall k', unique_visits (set_memo (rl_ctx s) k (memo_hit (rl_ctx s k)) k') = unique_visits (rl_ctx s k') /\
      slots (set_memo (rl_ctx s) k (memo_hit (rl_ctx s k)) k') = slots (rl_ctx s k')) as Hsame.
    { intros k'. unfold set_memo. by destruct (decide (k' = k)) as [->|]. }
    split.
    + destruct Hs as [Hv Hrange Hroom]. split; cbn [rl_ctx rl_dst]; intros k'; unfold relocated_count;
        destruct (Hsame k') as [Hs1 Hs2]; rewrite ?Hs1, ?Hs2; [apply Hv|apply Hrange|apply Hroom].
    + intros k' i' _. unfold memo_get. cbn. by rewrite (proj2 (Hsame k')).
  - apply lookup_lt_is_Some in Hi as [v Hv]. destruct (finish_total k i v Hv) as [f Hf].
    destruct (traverse_works (rank K i) r k v v (rank_ok K k i v Hv) Hr s Hs) as (s1 & v' & Ht & Hs1 & Hsame).
    assert (memo_get (rl_ctx s1 k) i = None) as Hm1 by (by rewrite Hsame).
    assert (unique_visits (rl_ctx s1 k) < length (arena k source))%nat as Hlt.
    { rewrite (ct_visits _ Hs1). apply count_room with (i := slot i); [apply (ct_range _ Hs1)| |exact Hm1].
      by eapply lookup_lt_Some. }
    destruct (alloc_total k (f v') (rl_dst s1)) as (a & j & Hal & Hlen & Hother).
    { pose proof (ct_room _ Hs1 k). lia. }
    destruct (memo_insert_new (E := E) (rl_ctx s1 k) i j Hm1) as [m Hins].
    pose proof (memo_insert_ok _ _ _ _ Hins) as (_ & Hnew & Hold).
    pose proof (memo_insert_count _ _ _ _ Hins) as [Hc1 Hc2].
    exists (mk_RelocState (set_memo (rl_ctx s1) k m) a), j. split_and!.
    + apply st_bind_ok. exists s, v. split; [by apply (f_equal (pair s)), arena_get_ok|].
      apply st_bind_ok. exists s, f. split; [by apply (f_equal (pair s))|].
      apply st_bind_ok. exists s1, v'. split; [done|].
      apply st_bind_ok. exists (mk_RelocState (rl_ctx s1) a), j. split; [unfold on_asm; cbn; by rewrite Hal|].
      apply st_bind_ok. exists (mk_RelocState (rl_ctx s1) a), m. split; [by apply (f_equal (pair _))|].
      reflexivity.
    + destruct Hs1 as [Hvis Hrange Hroom]. split; cbn; intros k'; unfold set_memo;
        destruct (decide (k' = k)) as [->|Hne].
      * rewrite Hc1, Hc2. by rewrite Hvis.
      * apply Hvis.
      * intros n Hn. destruct (decide (n = slot i)) as [->|Hni].
        -- apply lookup_lt_Some in Hv. lia.
        -- assert (mjoin (slots m !! n) = mjoin (slots (rl_ctx s1 k) !! n)) as ->; [|by apply Hrange].
           specialize (Hold (Pos.of_succ_nat n)). unfold memo_get, slot in Hold.
           rewrite SuccNat2Pos.id_succ in Hold. apply Hold. intros <-. apply Hni. unfold slot.
           by rewrite SuccNat2Pos.id_succ.
      * apply Hrange.
      * rewrite Hc2. pose proof (Hroom k). lia.
      * rewrite Hother by done. apply Hroom.
    + intros k' i' Hle. cbn. rewrite set_memo_get. destruct (decide (k' = k)) as [->|Hne].
      * rewrite Hold by (intros ->; lia). apply Hsame. lia.
      * apply Hsame. lia.
Qed.

Lemma relocator_works fuel k (i : Interned k) :
  (rank K i < fuel)%nat -> (slot i < length (arena k source))%nat -> works (S (rank K i)) (relocator_at fuel k i).
Proof.
  revert k i. induction fuel as [|fuel IH]; intros k i Hr Hi; [lia|]. cbn.
  apply relocate_id_works; [done|]. intros k' i' [Hlt Hin]%(low_true K).
  eapply works_weaken; [|apply IH; [lia|done]]. lia.
Qed.
End total.
