(* ===== verification/LinkTheory.v ===== *)
(** * What linking promises to its callers

    The properties of relocation: values are copied faithfully, nothing already in the destination
    changes, no two source values become one, the whole source can be relocated; and the copied
    bodies have the control flow of the originals. *)

From S2P Require Import Prelude Interner Types Class IR Arenas Walk Block BlockTheory Method Relocate.
From S2P Require Import RelocTheory.

(** ** Control flow *)

Section flow.
Context (asm asm' : Assembly).

(** What control flow sees of a root. *)
Inductive Jump : Set := JumpTo (target sub_target : Z) (always : bool) | LeaveTo (target source : Z).

Definition jump_of (r : CILRoot.t) : option Jump :=
  match r with
  | CILRoot.Branch target sub_target cond => Some (JumpTo target sub_target (is_branch_unconditional cond))
  | CILRoot.ExitSpecialRegion target source => Some (LeaveTo target source)
  | _ => None
  end.

Definition same_root (i j : Interned KRoot) : Prop :=
  exists v v', roots asm !! slot i = Some v /\ roots asm' !! slot j = Some v' /\ jump_of v = jump_of v'.

Fixpoint same_flow (b b' : BasicBlock) : Prop :=
  match b, b' with
  | mk_block roots id h hid, mk_block roots' id' h' hid' =>
      Forall2 same_root roots roots' /\ id = id' /\ hid = hid' /\
      match h, h' with
      | None, None => True
      | Some l, Some l' =>
          (fix all l l' := match l, l' with
                           | [], [] => True
                           | b :: l, b' :: l' => same_flow b b' /\ all l l'
                           | _, _ => False
                           end) l l'
      | _, _ => False
      end
  end.

Lemma same_flow_alt b b' :
  same_flow b b' <->
  Forall2 same_root (bb_roots b) (bb_roots b') /\ block_id b = block_id b' /\ handler_id b = handler_id b' /\
  match handler b, handler b' with
  | None, None => True
  | Some l, Some l' => Forall2 same_flow l l'
  | _, _ => False
  end.
Proof.
  destruct b as [rs id [h|] hid], b' as [rs' id' [h'|] hid']; cbn; try tauto.
  enough ((fix all l l' := match l, l' with [], [] => True | b :: l, b' :: l' => same_flow b b' /\ all l l'
            | _, _ => False end) h h' <-> Forall2 same_flow h h') as -> by done.
  revert h'. induction h as [|b h IH]; intros [|b' h'].
  - split; [constructor|done].
  - split; [done|intros H; inversion H].
  - split; [done|intros H; inversion H].
  - rewrite IH. split; [intros [? ?]; by constructor|intros H; by inversion H].
Qed.

(** A query of the roots that only looks at jumps. *)
Definition by_jump {A} (f : CILRoot.t -> A) : Prop := forall v v', jump_of v = jump_of v' -> f v = f v'.

Lemma filter_map_same {E A} (f : CILRoot.t -> option A) l l' :
  by_jump f -> Forall2 same_root l l' ->
  filter_map_roots (E := E) f asm l = filter_map_roots f asm' l'.
Proof.
  intros Hf. induction 1 as [|i j l l' (v & v' & Hv & Hv' & Hj) _ IH]; cbn; [done|].
  rewrite (proj2 (get_root_ok asm i v) Hv), (proj2 (get_root_ok asm' j v') Hv'), IH. cbn.
  by rewrite (Hf v v' Hj).
Qed.

Lemma any_same {E} (f : CILRoot.t -> bool) l l' :
  by_jump f -> Forall2 same_root l l' ->
  any_outcome (E := E) (fun i => r ← get_root asm i; Ok (f r)) l =
  any_outcome (fun i => r ← get_root asm' i; Ok (f r)) l'.
Proof.
  intros Hf. induction 1 as [|i j l l' (v & v' & Hv & Hv' & Hj) _ IH]; cbn; [done|].
  rewrite (proj2 (get_root_ok asm i v) Hv), (proj2 (get_root_ok asm' j v') Hv'). cbn.
  by rewrite (Hf v v' Hj), IH.
Qed.

Lemma targets_same {E} b b' : same_flow b b' -> targets (E := E) b asm = targets b' asm'.
Proof.
  intros (Hr & _)%same_flow_alt. apply filter_map_same; [|done].
  intros v v'. destruct v, v'; cbn; intros Hj; by simplify_eq.
Qed.

Lemma targets_with_sub_same {E} b b' :
  same_flow b b' -> targets_with_sub (E := E) b asm = targets_with_sub b' asm'.
Proof.
  intros (Hr & _)%same_flow_alt. apply filter_map_same; [|done].
  intros v v'. destruct v, v'; cbn; intros Hj; by simplify_eq.
Qed.

Lemma leave_pads_same {E} b b' :
  same_flow b b' ->
  has_legacy_leave_pads (E := E) (bb_roots b) asm = has_legacy_leave_pads (bb_roots b') asm'.
Proof.
  intros (Hr & _)%same_flow_alt. unfold has_legacy_leave_pads, is_leave_pad.
  apply (any_same (fun r => match r with CILRoot.ExitSpecialRegion _ _ => true | _ => false end)); [|done].
  intros v v'. destruct v, v'; cbn; intros Hj; by simplify_eq.
Qed.

Lemma iter_roots_same b b' : same_flow b b' -> Forall2 same_root (iter_roots b) (iter_roots b').
Proof.
  revert b'. induction b as [rs id h hid IH] using BasicBlock_nested_ind. intros b' Hb.
  apply same_flow_alt in Hb as (Hr & _ & _ & Hh). destruct b' as [rs' id' h' hid']. cbn in *.
  apply Forall2_app; [done|]. destruct h as [l|], h' as [l'|]; try done.
  specialize (IH l eq_refl). induction Hh as [|b b' l l' Hb _ IHl]; cbn; [constructor|].
  apply list.Forall_cons in IH as [IHb IHr]. apply Forall2_app; [by apply IHb|by apply IHl].
Qed.

Lemma block_id_same b b' : same_flow b b' -> block_id b = block_id b'.
Proof. by intros (_ & ? & _)%same_flow_alt. Qed.

Lemma ids_same l l' : Forall2 same_flow l l' -> map block_id l = map block_id l'.
Proof. induction 1 as [|b b' l l' Hb _ IH]; cbn; [done|]. by rewrite (block_id_same _ _ Hb), IH. Qed.

(** Selecting blocks by id. *)
Lemma filter_ids_same (p : Z -> bool) l l' :
  Forall2 same_flow l l' ->
  Forall2 same_flow (List.filter (fun b => p (block_id b)) l) (List.filter (fun b => p (block_id b)) l').
Proof.
  induction 1 as [|b b' l l' Hb _ IH]; cbn; [constructor|]. rewrite (block_id_same _ _ Hb).
  destruct (p (block_id b')); [by constructor|done].
Qed.

Lemma by_id_same l l' id :
  Forall2 same_flow l l' -> option_Forall2 same_flow (by_id l id) (by_id l' id).
Proof.
  intros Hl%(filter_ids_same (fun i => i =? id)). unfold by_id.
  induction Hl as [|b b' l1 l1' Hb Hl IH]; [constructor|].
  destruct Hl as [|b1 b1' l2 l2']; [by constructor|]. exact IH.
Qed.

Lemma contains_key_same l l' id : Forall2 same_flow l l' -> contains_key l id = contains_key l' id.
Proof. intros H%(by_id_same _ _ id). unfold contains_key. by destruct H. Qed.

Lemma filter_keys_same l l' ts :
  Forall2 same_flow l l' -> List.filter (contains_key l) ts = List.filter (contains_key l') ts.
Proof. intros H. apply filter_ext. intros id. by apply contains_key_same. Qed.

Lemma reach_loop_same {E} fuel (edges edges' : BasicBlock -> outcome E (list Z)) l l' alive pending :
  Forall2 same_flow l l' -> (forall b b', same_flow b b' -> edges b = edges' b') ->
  reach_loop fuel edges l alive pending = reach_loop fuel edges' l' alive pending.
Proof.
  intros Hl He. revert alive pending. induction fuel as [|fuel IH]; intros alive pending; cbn; [done|].
  destruct pending as [|id pending]; [done|]. case_bool_decide; [apply IH|].
  destruct (by_id_same _ _ id Hl) as [b b' Hb|]; [|apply IH]. rewrite (He b b' Hb).
  destruct (edges' b'); cbn; try done; apply IH.
Qed.

Lemma normal_edges_same {E} l l' b b' :
  Forall2 same_flow l l' -> same_flow b b' -> normal_edges (E := E) l asm b = normal_edges l' asm' b'.
Proof.
  intros Hl Hb. unfold normal_edges. rewrite (targets_same _ _ Hb).
  destruct (targets b' asm'); cbn; try done. by rewrite (filter_keys_same _ _ _ Hl).
Qed.

Lemma reachable_plain_same {E} fuel entry l l' :
  Forall2 same_flow l l' -> reachable_plain (E := E) fuel entry l asm = reachable_plain fuel entry l' asm'.
Proof. intros Hl. apply reach_loop_same; [done|]. intros. by apply normal_edges_same. Qed.

Lemma handler_edges_same {E} fuel l l' b b' :
  Forall2 same_flow l l' -> same_flow b b' ->
  handler_edges (E := E) fuel l asm b = handler_edges fuel l' asm' b'.
Proof.
  intros Hl (_ & _ & _ & Hh)%same_flow_alt. unfold handler_edges.
  destruct (handler b) as [h|], (handler b') as [h'|]; try done.
  destruct Hh as [|e e' h h' He Hh]; [done|]. rewrite (block_id_same _ _ He).
  assert (Forall2 same_flow (e :: h) (e' :: h')) as Hall by (by constructor).
  rewrite (reachable_plain_same fuel _ _ _ Hall). destruct (reachable_plain _ _ _ _) as [alive| | |];
    cbn [mbind outcome_bind]; try done.
  rewrite (filter_map_same root_target _ (concat (map iter_roots
    (List.filter (fun b => bool_decide (block_id b ∈ alive)) (e' :: h'))))).
  - match goal with |- (?m ≫= _) = _ => destruct m end; cbn [mbind outcome_bind]; try done.
    by rewrite (filter_keys_same _ _ _ Hl).
  - intros v v'. destruct v, v'; cbn; intros Hj; by simplify_eq.
  - pose proof (filter_ids_same (fun i => bool_decide (i ∈ alive)) _ _ Hall) as Hf.
    change (Forall2 same_root (concat (map iter_roots (List.filter (fun b => bool_decide (block_id b ∈ alive)) (e :: h))))
      (concat (map iter_roots (List.filter (fun b => bool_decide (block_id b ∈ alive)) (e' :: h'))))).
    induction Hf as [|b1 b1' l1 l1' Hb _ IH]; cbn; [constructor|].
    apply Forall2_app; [by apply iter_roots_same|done].
Qed.

Lemma reachable_same {E} fuel entry l l' include :
  Forall2 same_flow l l' ->
  reachable_block_ids (E := E) fuel entry l asm include = reachable_block_ids fuel entry l' asm' include.
Proof.
  intros Hl. unfold reachable_block_ids. destruct include; [|by apply reachable_plain_same].
  apply reach_loop_same; [done|]. intros b b' Hb. unfold all_edges.
  rewrite (normal_edges_same l l' b b'), (handler_edges_same fuel l l' b b') by done. done.
Qed.

Lemma check_blocks_same is_cleanup ids l l' :
  Forall2 same_flow l l' -> check_blocks asm is_cleanup ids l = check_blocks asm' is_cleanup ids l'.
Proof.
  induction 1 as [|b b' l l' Hb _ IH]; cbn; [done|]. rewrite <- IH.
  assert (check_block asm is_cleanup ids b = check_block asm' is_cleanup ids b') as ->; [|done].
  unfold check_block. rewrite (targets_with_sub_same _ _ Hb), (leave_pads_same _ _ Hb).
  apply same_flow_alt in Hb as (_ & -> & -> & Hh).
  by destruct (handler b), (handler b'), (handler_id b').
Qed.
End flow.

(** ** Copied bodies *)

Section bodies.
Context {E : Type} (source : Assembly) (main_module_name : option string)
  (class_kind_overrides : gmap ClassDefinitionIdentity bool).

Lemma translate_root_jump (r : relocator option) v v' : translate_root r v = Some v' -> jump_of v = jump_of v'.
Proof.
  destruct v; cbn; intros H;
    try (repeat (apply bind_Some in H as (? & _ & H)); injection H as <-; done);
    try (injection H as <-; done).
  apply bind_Some in H as (c & Hc & [= <-]). cbn. by destruct cond, c; cbn in Hc; simplify_option_eq.
Qed.

Context (s : RelocState) (Hs : homomorphic (E := E) source main_module_name class_kind_overrides s).
Local Notation same_root := (same_root source (rl_dst s)).
Local Notation same_flow := (same_flow source (rl_dst s)).

Lemma copied_roots l l' : mapM (recorded (rl_ctx s) KRoot) l = Some l' -> Forall2 same_root l l'.
Proof.
  intros H%mapM_Some. eapply list.Forall2_impl; [exact H|]. intros i j Hij.
  destruct (Hs KRoot i j Hij) as (v & f & v' & Hv & Hf & Ht & Hd). cbn in Hf. injection Hf as <-.
  exists v, v'. split_and!; [done|done|by eapply translate_root_jump].
Qed.

Lemma copied_block b b' : relocate_block (recorded (rl_ctx s)) b = Some b' -> same_flow b b'.
Proof.
  revert b'. induction b as [roots id h hid IH] using BasicBlock_nested_ind. intros b' H. cbn in H.
  apply bind_Some in H as (rs & Hrs%copied_roots & H). apply bind_Some in H as (h' & Hh & [= <-]).
  apply same_flow_alt. cbn. split_and!; [done..|]. destruct h as [l|]; [|by injection Hh as <-].
  apply bind_Some in Hh as (l' & Hl & [= <-]). apply mapM_Some in Hl. specialize (IH l eq_refl).
  induction Hl as [|b b1 l l' Hb _ IHl]; [constructor|]. apply list.Forall_cons in IH as [IHb IHr].
  constructor; [by apply IHb|by apply IHl].
Qed.

Lemma copied_blocks l l' : mapM (relocate_block (recorded (rl_ctx s))) l = Some l' -> Forall2 same_flow l l'.
Proof. intros H%mapM_Some. eapply list.Forall2_impl; [exact H|]. apply copied_block. Qed.

Lemma copied_impl_flow impl impl' :
  relocate_impl (recorded (rl_ctx s)) impl = Some impl' ->
  verify_exception_regions source impl = verify_exception_regions (rl_dst s) impl' /\
  option_Forall2 (Forall2 same_flow) (impl_blocks impl) (impl_blocks impl').
Proof.
  destruct impl as [blocks locals|lib ep cc pe|m| |blocks cleanup regions locals]; cbn; intros H.
  - apply bind_Some in H as (bs & Hb%copied_blocks & H). apply bind_Some in H as (ls & _ & [= <-]).
    split; [done|]. by constructor.
  - apply bind_Some in H as (? & _ & H). apply bind_Some in H as (? & _ & [= <-]). split; [done|constructor].
  - apply bind_Some in H as (? & _ & [= <-]). split; [done|constructor].
  - injection H as <-. split; [done|constructor].
  - apply bind_Some in H as (bs & Hb%copied_blocks & H). apply bind_Some in H as (cs & Hc%copied_blocks & H).
    apply bind_Some in H as (ls & _ & [= <-]). split; [|by constructor]. cbn.
    rewrite (ids_same _ _ _ _ Hb), (ids_same _ _ _ _ Hc).
    rewrite (check_blocks_same _ _ false (map block_id bs) _ _ Hb).
    by rewrite (check_blocks_same _ _ true (map block_id cs) _ _ Hc).
Qed.
End bodies.

(** ** Properties *)

Section properties.
Context {E : Type}.

(** A sequence of relocations through one context. *)
Definition relocate_all source main_module_name overrides fuel (ids : list {k & Interned k})
    : ST RelocState E (list {k & Interned k}) :=
  mapM (fun '(existT k i) =>
    j ← relocator_at source main_module_name overrides fuel k i; mret (existT k j)) ids.

(** The state linking starts in. *)
Definition link_start (dst : Assembly) : RelocState := mk_RelocState empty_ctx dst.

Lemma link_start_homomorphic source mm ov dst : homomorphic (E := E) source mm ov (link_start dst).
Proof. intros k i j H. unfold memo_get in H. cbn in H. by rewrite lookup_nil in H. Qed.

Lemma relocate_all_tracks source mm ov fuel fin ids :
  tracks (E := E) source mm ov fin (relocate_all source mm ov fuel ids)
    (mapM (fun '(existT k i) => j ← recorded fin k i; mret (existT k j)) ids).
Proof.
  unfold relocate_all. apply (mapM_param (M1 := ST RelocState E) (M2 := option)
    (fun A m o => tracks source mm ov fin m o)); [intros; apply tracks_ret|intros; by apply tracks_bind|].
  intros [k i]. apply tracks_bind; [apply relocator_tracks|]. intros. apply tracks_ret.
Qed.


(** C23: an ordinary link, which renames nothing, never makes one value of two: distinct ids of a
    duplicate-free, well-founded source are relocated to distinct ids. *)
Theorem linking_is_injective source (K : source_ranks source) fuel dst ids s' ids' :
  (forall k, NoDup (arena k source)) ->
  relocate_all source None ∅ fuel ids (link_start dst) = (s', Ok ids') ->
  forall k (i1 i2 j : Interned k),
    memo_get (rl_ctx s' k) i1 = Some j -> memo_get (rl_ctx s' k) i2 = Some j -> i1 = i2.
Proof.
  intros Hnd H. apply (recorded_injective K E); [done|].
  apply (relocate_all_tracks _ _ _ _ (rl_ctx s')) in H as (_ & ? & _); [done|apply link_start_homomorphic].
Qed.

Lemma relocate_all_works source (K : source_ranks source) mm ov fuel ids n :
  Forall (fun x => (slot (projT2 x) < length (arena (projT1 x) source))%nat /\
                   (rank K (projT2 x) < fuel)%nat) ids ->
  Forall (fun x => (rank K (projT2 x) < n)%nat) ids ->
  works (E := E) K n (relocate_all source mm ov fuel ids).
Proof.
  intros Hids Hn. unfold relocate_all. induction ids as [|[k i] ids IH]; cbn; [apply works_ret|].
  apply list.Forall_cons in Hids as [[Hi Hf] Hids]. apply list.Forall_cons in Hn as [Hr Hn].
  apply works_bind; [apply works_bind; [|intros; apply works_ret]|].
  - eapply works_weaken; [|by apply relocator_works]. cbn in *. lia.
  - intros. apply works_bind; [by apply IH|]. intros. apply works_ret.
Qed.

(** C24: relocating any ids of a well-founded source into a destination with room for it succeeds, with
    fuel above their ranks: no id is relocated twice, no id is missing, and each table counts at most
    as many visits as the source arena has values. *)
Theorem linking_succeeds source (K : source_ranks source) mm ov fuel dst ids :
  Forall (fun x => (slot (projT2 x) < length (arena (projT1 x) source))%nat /\
                   (rank K (projT2 x) < fuel)%nat) ids ->
  (forall k, Z.of_nat (length (arena k dst)) + Z.of_nat (length (arena k source)) < 2 ^ 32 - 1) ->
  exists s' ids', relocate_all source mm ov fuel ids (link_start dst) = (s', Ok ids') /\
    forall k, (unique_visits (rl_ctx s' k) <= length (arena k source))%nat.
Proof.
  intros Hids Hroom.
  destruct (relocate_all_works source K mm ov fuel ids fuel Hids) with (s := link_start dst)
    as (s' & ids' & Hr & Hs' & _).
  - eapply list.Forall_impl; [exact Hids|]. by intros x [_ ?].
  - split; cbn; intros k; [done|intros; by rewrite lookup_nil|]. specialize (Hroom k). lia.
  - exists s', ids'. split; [done|]. intros k. by eapply visits_bounded.
Qed.

(** C22: a copied body has the control flow of the original: its exception regions verify with the
    same verdict, its blocks have the same ids in the same order, and from any entry the same blocks
    are reachable, with and without handler edges. *)
Theorem linked_body_keeps_control_flow source mm ov s impl impl' :
  homomorphic (E := E) source mm ov s ->
  relocate_impl (recorded (rl_ctx s)) impl = Some impl' ->
  verify_exception_regions source impl = verify_exception_regions (rl_dst s) impl' /\
  (forall blocks, impl_blocks impl = Some blocks ->
     exists blocks', impl_blocks impl' = Some blocks' /\ map block_id blocks = map block_id blocks' /\
       forall fuel entry handlers,
         reachable_block_ids (E := E) fuel entry blocks source handlers =
         reachable_block_ids fuel entry blocks' (rl_dst s) handlers).
Proof.
  intros Hs H. apply (copied_impl_flow (E := E) source mm ov s Hs) in H as [Hv Hb]. split; [done|].
  intros blocks Hi. rewrite Hi in Hb. inversion Hb as [? blocks' Hl Heq|]; subst. exists blocks'.
  split; [done|]. split; [by eapply ids_same|]. intros. by apply reachable_same.
Qed.
End properties.

(** ** Witnesses *)

(** [static void MainModule.f(int32 *p)], whose body loads [*p], pops it and loops. *)
Definition link_source : Assembly :=
  mk_Assembly ["MainModule"; "f"; "p"]%string [Ty.Int Int.I32; Ty.Ptr 1%positive]
    [mk_ClassRef 1%positive None false []] ∅
    [CILNode.LdArg 0; CILNode.LdInd 1%positive 1%positive false]
    [CILRoot.Pop 2%positive; CILRoot.Branch 0 0 None]
    [mk_FnSig [Ty.Ptr 1%positive] Ty.Void]
    [mk_MethodRef 1%positive 2%positive 1%positive MethodKind.Static []] [] [] [[1; 2]].

(** A destination that holds other values already. *)
Definition link_destination : Assembly :=
  mk_Assembly ["x"; "p"]%string [Ty.Bool; Ty.Ptr 1%positive] [] ∅ [CILNode.LdLoc 0] [CILRoot.Nop] [] [] [] [] [].

Definition link_rank (k : kind) (i : Interned k) : nat :=
  (match k with
   | KString | KBuffer => 0 | KType | KClassRef => 10 | KSig => 20 | KMethodRef | KField | KStatic => 30
   | KNode => 40 | KRoot => 50
   end + slot i)%nat.

Definition link_ranks : source_ranks link_source.
Proof.
  refine {| rank := link_rank |}. intros k i v. unfold link_rank at 2. generalize (slot i). intros n.
  destruct k; cbn; intros Hv; repeat (destruct n as [|n]; [injection Hv as <-; vm_compute; reflexivity|cbn in Hv]);
    discriminate.
Defined.

Definition link_ids : list {k & Interned k} :=
  [existT KRoot 1%positive; existT KMethodRef 1%positive; existT KRoot 2%positive].

Local Notation link_run :=
  (relocate_all (E := unit) link_source None ∅ 60 link_ids (link_start link_destination)).

Definition link_method : MethodDef :=
  MethodDef_new Access.Extern 1%positive 2%positive 1%positive MethodKind.Static
    (MethodBody [mk_block [1%positive; 2%positive] 0 None None] []) [Some 3%positive].



Lemma linking_is_injective_witness :
  exists s' ids', link_run = (s', Ok ids') /\
    forall i1 i2 j : Interned KNode, memo_get (rl_ctx s' KNode) i1 = Some j ->
      memo_get (rl_ctx s' KNode) i2 = Some j -> i1 = i2.
Proof.
  destruct link_run as [s' o] eqn:Hr.
  assert (exists ids', o = Ok ids') as [ids' ->].
  { apply (f_equal snd) in Hr. revert Hr. vm_compute. intros <-. eexists. reflexivity. }
  exists s', ids'. split; [reflexivity|].
  apply (linking_is_injective (E := unit) link_source link_ranks 60 link_destination link_ids s' ids').
  - intros []; by_decide.
  - exact Hr.
Defined.

Lemma linking_succeeds_witness :
  exists s' ids', link_run = (s', Ok ids') /\
    forall k, (unique_visits (rl_ctx s' k) <= length (arena k link_source))%nat.
Proof.
  apply (linking_succeeds (E := unit) link_source link_ranks None ∅ 60 link_destination link_ids).
  - repeat constructor; vm_compute; lia.
  - intros []; vm_compute; reflexivity.
Defined.

Lemma linked_body_keeps_control_flow_witness :
  exists s' i', relocate_impl (relocator_at (E := unit) link_source None ∅ 60) (implementation link_method)
                  (link_start link_destination) = (s', Ok i') /\
    verify_exception_regions link_source (implementation link_method) =
    verify_exception_regions (rl_dst s') i'.
Proof.
  destruct (relocate_impl (relocator_at (E := unit) link_source None ∅ 60) (implementation link_method)
              (link_start link_destination)) as [s' o] eqn:Hr.
  assert (exists i', o = Ok i') as [i' ->].
  { apply (f_equal snd) in Hr. revert Hr. vm_compute. intros <-. eexists. reflexivity. }
  exists s', i'. split; [reflexivity|].
  pose proof (relocate_impl_param (M1 := ST RelocState unit) (M2 := option)
    (fun A m o => tracks link_source None ∅ (rl_ctx s') m o) (fun A => tracks_ret _ _ _ _)
    (fun A B m1 m2 f1 f2 => tracks_bind _ _ _ _ m1 m2 f1 f2) _ _
    (fun k i => relocator_tracks _ _ _ 60 (rl_ctx s') k i) (implementation link_method)) as Ht.
  destruct (Ht _ _ _ (link_start_homomorphic _ _ _ _) Hr) as (_ & Hs & Hi).
  apply (linked_body_keeps_control_flow (E := unit) link_source None ∅ s' _ i' Hs).
  apply Hi. reflexivity.
Defined.
